(* ===== verification/_CoqProject ===== *)
-Q . S2P
Prelude.v
Access.v
Presence.v
Components.v
Demo.v
Stores.v
World.v
WorldInv.v
Ownership.v
WorldOps.v
Relations.v
Locks.v
Frame.v
Commands.v
Query.v
ExternalQuery.v
Deps.v
Planner.v
Commit.v
Params.v
Joins.v
Delta.v
Fetch.v
Skip.v
Incremental.v
History.v
Declare.v
Macros.v
Engine.v
EngineInv.v
EngineThms.v
Advice.v
Phase.v
PhaseInv.v
Settle.v
Exec.v
Views.v
Scoop.v
Executor.v
Derive.v
