(* ===== verification/Prelude.v ===== *)
(** * Porridge: a verification library for the incremental engine [bowl]

    [crates/bowl] is an incremental entity-component engine.  Entities carry
    components; systems are functions whose parameters are queries over them.
    The engine runs a system once per matching row, records what the row
    depended on, and runs it again only when that moved.  What a system inserts
    is owned by the invocation that inserted it and disappears when a rerun does
    not insert it again or when a row it was derived from goes away.  Callers
    insert base entities at any time, ask for results with a scoop, and the
    engine brings the world to a fixed point first.  This development models the
    engine and the derive macros of [crates/macros] as executable functions and
    step relations, and proves what makes them correct.

    Paths below are relative to [src/crates/bowl/src] unless they start with
    [crates/].

    ** The parts and where they are modelled

    Data, from the bottom up:

    - [Components.v]: [component.rs].  The [Component] trait is the class
      [ComponentTypes]; user crates implement it, so it is a parameter, with the
      documented contract of relationship components as the class
      [RelationshipLaws].  [DerivedFrom] is defined.  [Demo.v] is a concrete
      instance on which the witnesses are evaluated.
    - [Stores.v]: [Store] and [Stores] of [world.rs], [world/stores.rs].  A
      store maps entities to entries (cell address, revision, fingerprint,
      owner) and indexes fingerprints.
    - [Presence.v]: [PresenceIndex] of [world.rs], bits in 64-bit words.
    - [World.v]: every operation of [World], one function from world to world
      each.  [Shared] is what snapshots share with the live world: allocator,
      spawn slots and component cells; a snapshot is a value of type [World].
    - [WorldInv.v], [Ownership.v], [WorldOps.v], [Frame.v], [Relations.v]: the
      invariant [wf], the contract [evolves] between two states of a run, the
      sweeps of derived outputs, what operations leave alone, and maintained
      inverses.
    - [Locks.v]: [ComponentCell] with its guards, and [query/guards.rs], as an
      interleaving of threads.
    - [Commands.v]: [commands.rs], [commands/arena.rs] and the bundles of
      [bowl.rs]: buffers, spawn reservation, the queue and its pool.

    What a system reads, and when it is planned:

    - [Query.v], [ExternalQuery.v], [Deps.v]: [query.rs], [prepared.rs],
      [prepared/rows.rs].  Queries are syntax ([QueryParam], [Filter], ...) and
      the trait methods functions on it: rows, candidates, dependencies,
      accesses, interest, runtime arguments.
    - [Params.v], [Joins.v], [Delta.v]: the parameters of a system function
      ([system.rs]): tuples and bound joins, what identifies an invocation, the
      full plan and the plan narrowed to dirty entities.
    - [Access.v]: [access.rs], the reservations of the runs in flight.
    - [Planner.v]: a registered system ([BoxedSystem]), its cursors into the
      write log, compaction, admission and batches ([dispatch/plan.rs]).
    - [Fetch.v], [Skip.v], [Exec.v]: what a planned row is handed, why skipping
      it is unobservable, and its run with the hooks around it ([system.rs],
      [system/synchronous.rs]).
    - [Incremental.v], [History.v]: the life of one registered system as a step
      relation over the functions of the files above, from its registration on:
      the world moves, plans are made and dispatched, runs commit, go stale or
      are preempted, cascades retire rows, generations restart.
    - [Views.v]: views and tracked views as values, and [cleanup_stale_derived],
      the one system the crate ships.
    - [Executor.v]: worker batches and run queues ([dispatch.rs],
      [dispatch/executor.rs]).

    What happens to results, and who drives ([bowl.rs]):

    - [Commit.v]: the commit of a run on every branch, memo, retirement.
    - [Engine.v], [EngineInv.v], [EngineThms.v]: the state behind the lock, one
      definition per critical section, and the transition system of numbered
      callers whose steps are those sections.
    - [Phase.v], [PhaseInv.v]: [run_phase_streaming] and [run_evaluation].
    - [Settle.v]: [settle], healing, hooks and the settle phase.
    - [Advice.v]: [explain] and the warnings given at registration.
    - [Scoop.v]: scoops, cursor reads, mutation handles, writing every row.

    What the compiler does before any of it runs:

    - [Declare.v]: [declare.rs], trait resolution for output declarations.
    - [Macros.v], [Derive.v]: [crates/macros/src/lib.rs], and the generated code
      run against the engine's contracts.

    ** How they interact

    A caller stages an input ([Commands], [Engine]) and settles ([Settle]).  The
    settle loop starts a generation: held-back outputs and queued inputs are
    applied to the world ([World]).  Each phase takes a snapshot, plans every
    system whose interesting stores moved ([Planner], [Delta]) against its memo
    ([Commit], [Deps]), admits rows that conflict with nothing in flight
    ([Access]) and hands them to a queue ([Executor]).  A run locks the cells of
    its row ([Fetch], [Locks]), executes, and is committed ([Commit]) if its
    recorded dependencies are still current.  The phase repeats until nothing is
    planned ([Phase]); mutators preempt it at boundaries ([Engine]).  After the
    last phase ambient reads are healed, hooks and settle systems run, and the
    result is published for scoops ([Scoop]).

    Interfaces between the parts are classes: [ComponentTypes] and
    [RelationshipLaws] (user components), [ValueOrder] and [HashOrder] (their
    comparison), [SettleRuns] (what hooks and settle systems run, as the settle
    driver sees it; discharged by the executables of [Exec.v]).

    ** What the theorems show

    - Isolation: admission is exactly the pairwise conflict rule, runs in flight
      never conflict, a fetch locks what its row reserved and waits for nobody
      else, a writing guard is alone, no thread sleeps on a free cell.
    - Incrementality is unobservable: an unmoved memo means the same values, a
      skipped row would have been handed what it was handed before, the narrowed
      plan runs the same invocations as the full one, and no change is lost
      between two plans, whatever compactions, conflicts and resets intervene.
      The summary is in [Incremental.v]: at any point of any history, the
      planner's next turn runs what a plan from scratch would, but for rows in
      flight or owed, and once it has nothing to run every row has a record of a
      run on the inputs a fetch would hand it now.  [History.v] shows that
      commits and dispatch take only the steps of these histories.
    - Commits: an accepted output replaces the previous one exactly, a stale
      run changes nothing but what it wrote in place, retirement ends at its
      fixed point within its bound, every reachable world is well formed.  A
      maintained inverse is exact after all world steps but two kinds, which do
      not maintain it in the source either: a program that edits an inverse
      itself, and a write in place that retargets an edge.
    - Driving: every generation handed out finishes, runs or is pending, inputs
      are neither lost nor reordered, a completed phase has planned whatever its
      commits sent back, a run that is abandoned while it holds its guard is
      retried, a completed settle leaves no outdated ambient read behind.  The
      last await of [run_evaluation], where the memo has left the guard, is a
      step of its own ([es_finishing], [es_complete], [es_lose]): a driver dropped
      there is lost, and the theorems say what then still holds.
    - Views and reports: a view waits for nobody but its own row, the cleanup
      system removes exactly the outdated facts, reports are true, and a race of
      a declared write with a view was announced when the bowl was built.
    - Outside: scoops report exactly the rows they should, optimistic mutations
      do not overwrite each other, a driven batch ends, with every row delivered
      exactly once or with the panic of a row.
    - Compile time: declarations and schemas mean at run time what the compiler
      checked, and a schema is read back as it was written.

    ** Representation, bounds and fuel

    A computation that may panic returns [result]; a [fault] names the panic.
    The build modelled has debug assertions and overflow checks.  [u64] counters
    (revisions, generations, entity ids) are [N] with checked arithmetic against
    [u64_max]; presence words are 64-bit; [usize] values that count entries of
    an allocated vector are unbounded above and checked below zero.  Type ids
    are numbers; hash maps are [gmap] and hash sets [gset], and where the source
    iterates one in arbitrary order the theorem quantifies over the order or the
    result is sorted as in the source.

    - [relation_depth] (8) bounds the nesting of relationship maintenance
      through user components; lawful components never nest more than once, so
      more fuel changes nothing ([Relations.relops_enough]).
    - [frontier_fuel] bounds the retirement cascade by the number of invocations
      that own derived rows; [Commit.v] shows that the cascade ends within it
      and that more rounds change nothing.
    - A generation runs at most 19 phases ([PhaseInv.generation_bounded]);
      healing retries one invocation at most 128 times, then panics as the
      source does; tuples have at most 12 parts, as [all_tuples!] does.
    - Loops that wait (the settle loop, the phase loop, sleeping threads, the
      worker tasks) are step relations, without fuel.

    ** Assumptions

    Hypotheses of theorems are either invariants that the theorems about
    reachable states establish, or the documented contract of user code.  Code
    outside the repository (the futures and tokio runtimes, hash functions) is a
    parameter or the choice of the next step.  Between any two steps of
    a phase or of a settle other callers may hold the lock and move rows, force
    rows, take or replace the memo; they keep the state well formed and do not
    turn the revision back ([outside], [interferes]).  What a phase or a settle
    guarantees of a row or a store that others touched meanwhile is nothing, so
    the theorems record those sections ([ph_since], [sl_others], which no step
    reads) and speak of what they left alone.  A driver that is dropped is
    modelled in [EngineInv.v]; [Phase.v] and [Settle.v] are about drivers that
    are polled to their end.  In [Derive.v] how rustc resolves the text of a type
    is a parameter.

    ** Not modelled

    - Timers, counters and profiling ([metrics.rs], [ScopeTimer],
      [StateGuard]): they are read by nobody but reports.
    - Byte-level placement in the bump arena, [Arc] reference counts, the
      pinning test of destructive takes: values have value semantics, only
      component cells are shared.
    - Planning storage reuse ([planning.rs]): scratch memory without an
      observable effect.
    - Lifecycle hooks of components: they cannot reach the world.
    - In the histories of [Incremental.v], systems with hooks: the outputs of
      hooks are modelled in [Exec.v], not in that relation.
    - The runtime that polls futures, and wakers: any step that is enabled may
      be the next one.
    - Panic texts, [Display] and [Debug], the phantom type of [Entity<H>].
    - Tests, benches, the playground language and the experiments: clients of
      the engine. *)
From stdpp Require Import base gmap sets list fin_maps numbers strings.

(** ** Results: a computation either returns or panics *)

(** Why the engine panics.  Every constructor stands for one [panic!],
    [expect], [assert!] or checked-arithmetic failure of the source; the
    build with overflow checks and debug assertions is the one modelled. *)
Inductive fault :=
  | Overflow            (* checked arithmetic on a machine integer *)
  | SlotsExhausted      (* "execution slot space exhausted" *)
  | SlotOccupied        (* debug_assert!(slot.record.is_none()) *)
  | NotAdmitted         (* "admitted invocation" / "completed invocation" *)
  | ReservedRowMissing  (* "reserved row missing" *)
  | SingletonClash      (* "singleton component .. already registered" *)
  | OwnerMissing        (* "derived command needs an invocation" *)
  | MissingComponent    (* "query dependency referenced a missing component" *)
  | MissingRow          (* "query row referenced a missing component" *)
  | NotHashable         (* a join key without a fingerprint *)
  | NoMembers           (* an inverse without a member list *)
  | IndexOutOfRange     (* slice or vector indexing *)
  | LimitExceeded       (* "bowl commit limit exceeded" *)
  | ShapeMismatch       (* schema conformance of a write bundle *)
  | AmbientRace         (* same-phase production read by a view *)
  | CursorPastLog       (* "planning cursor exceeds its log" *)
  | NestingTooDeep      (* fuel of a recursion through user components *)
  | UnflushedAnchors    (* snapshot with unflushed DerivedFrom anchors *)
  | StoresNotEmpty      (* presence index installed too late *)
  | MissingArgument     (* "missing query argument" *)
  | DuplicateArgument   (* "duplicate query argument" *)
  | UnboundedInterest   (* "delta planner has bounded interest" *)
  | TrackedStoreWrite   (* a system that writes a store its TrackedView reads *)
  | SystemOutOfRange    (* indexing the system table *)
  | HealingDiverged     (* "ambient healing did not converge" *)
  | EmptyDispatch       (* clamp(1, 0) in the batch size *)
  | ProviderMissing     (* "bound join provider must precede the joined query" *)
  | BindingRejected     (* "cannot register system": bindings rejected *)
  | BundleRows          (* "SystemParam bundles only compose ambient params" *)
  | TaskPanicked        (* "system batch panicked or was aborted" *)
  | CompletionFull.     (* "completion capacity covers every admitted row" *)

Inductive result (A : Type) :=
  | Done (a : A)
  | Panic (f : fault).
Arguments Done {_} _.
Arguments Panic {_} _.

#[export] Instance fault_eq_dec : EqDecision fault.
Proof. solve_decision. Defined.
#[export] Instance result_eq_dec `{EqDecision A} : EqDecision (result A).
Proof. solve_decision. Defined.

#[export] Instance result_ret : MRet result := λ A a, Done a.
#[export] Instance result_bind : MBind result := λ A B k m,
  match m with Done a => k a | Panic f => Panic f end.
#[export] Instance result_fmap : FMap result := λ A B f m,
  match m with Done a => Done (f a) | Panic f => Panic f end.

Definition expect {A} (f : fault) (o : option A) : result A :=
  match o with Some a => Done a | None => Panic f end.

Definition check (f : fault) (b : bool) : result unit :=
  if b then Done () else Panic f.

Definition is_done {A} (m : result A) : bool :=
  match m with Done _ => true | Panic _ => false end.

(** A left-to-right loop that stops at the first panic. *)
Fixpoint fold_result {A S} (f : S → A → result S) (s : S) (l : list A) : result S :=
  match l with
  | [] => Done s
  | a :: l => s' ← f s a; fold_result f s' l
  end.

Lemma bind_Done {A B} (m : result A) (k : A → result B) b :
  (m ≫= k) = Done b ↔ ∃ a, m = Done a ∧ k a = Done b.
Proof. destruct m; simpl; naive_solver. Qed.

Lemma fmap_Done {A B} (m : result A) (f : A → B) b :
  (f <$> m) = Done b ↔ ∃ a, m = Done a ∧ f a = b.
Proof. destruct m; simpl; naive_solver. Qed.

Lemma expect_Done {A} f (o : option A) a : expect f o = Done a ↔ o = Some a.
Proof. destruct o; simpl; naive_solver. Qed.

Lemma check_Done f b : check f b = Done () ↔ b = true.
Proof. destruct b; simpl; naive_solver. Qed.

Lemma fold_result_app {A S} (f : S → A → result S) s l1 l2 :
  fold_result f s (l1 ++ l2) = (s' ← fold_result f s l1; fold_result f s' l2).
Proof. revert s. induction l1 as [|a l1 IH]; intros s; simpl; [done|].
  destruct (f s a); simpl; [apply IH|done]. Qed.

(** The loop rule: an invariant of the body is an invariant of the loop. *)
Lemma fold_result_inv {A S} (I : S → Prop) (f : S → A → result S) l s s' :
  (∀ s a s', a ∈ l → I s → f s a = Done s' → I s') →
  I s → fold_result f s l = Done s' → I s'.
Proof.
  revert s. induction l as [|a l IH]; intros s Hstep Hs; simpl.
  - intros [= <-]. done.
  - intros (s1 & H1 & H2)%bind_Done. apply (IH s1); [|eapply Hstep; eauto; left|done].
    intros ???? ; eapply Hstep; by right.
Qed.

(** A computation avoids a fault: it may return or panic, but not with that one.
    Used for the faults that stand for the model's own bounds. *)
Definition avoids {A} (f : fault) (m : result A) : Prop := m ≠ Panic f.

Lemma avoids_bind {A B} f (m : result A) (k : A → result B) :
  avoids f m → (∀ a, m = Done a → avoids f (k a)) → avoids f (m ≫= k).
Proof. unfold avoids. destruct m as [a|g]; simpl; [by auto|]. intros Hm _ [= ->]. by apply Hm. Qed.
Lemma avoids_expect {A} f g (o : option A) : f ≠ g → avoids f (expect g o).
Proof. unfold avoids. by destruct o; simpl; [|intros ? [=]]. Qed.
Lemma avoids_check f g b : f ≠ g → avoids f (check g b).
Proof. unfold avoids. by destruct b; simpl; [|intros ? [=]]. Qed.
Lemma avoids_fold {A S} f (g : S → A → result S) l s :
  (∀ s a, a ∈ l → avoids f (g s a)) → avoids f (fold_result g s l).
Proof.
  revert s. induction l as [|a l IH]; intros s Hg; [done|]. cbn [fold_result].
  apply avoids_bind; [apply Hg; by left|]. intros s' _. apply IH. intros ???. apply Hg. by right.
Qed.
Create HintDb avoids.
#[export] Hint Resolve avoids_expect avoids_check : avoids.
#[export] Hint Extern 0 (avoids _ (Done _)) => discriminate : avoids.
#[export] Hint Extern 0 (_ ≠ _) => discriminate : avoids.
(** Straight-line code: the faults of its expectations and checks are others. *)
Ltac avoids_tac :=
  repeat match goal with
  | |- avoids _ (Done _) => discriminate
  | |- avoids _ (Panic _) => discriminate
  | |- avoids _ (_ ≫= _) => apply avoids_bind; [|intros ? _]
  | |- avoids _ (if ?b then _ else _) => destruct b
  | |- avoids _ (match ?x with _ => _ end) => destruct x
  | |- _ => solve [eauto with avoids]
  end.

(** Loops that can panic: collecting rows, keeping the rows that pass a test,
    and testing every element up to the first failure. *)
Fixpoint flat_result {A B} (f : A → result (list B)) (l : list A) : result (list B) :=
  match l with
  | [] => Done []
  | a :: l => b ← f a; bs ← flat_result f l; Done (b ++ bs)
  end.
Fixpoint filter_result {A} (f : A → result bool) (l : list A) : result (list A) :=
  match l with
  | [] => Done []
  | a :: l => b ← f a; l ← filter_result f l; Done (if (b : bool) then a :: l else l)
  end.
Fixpoint all_result {A} (f : A → result bool) (l : list A) : result bool :=
  match l with
  | [] => Done true
  | a :: l => b ← f a; if (b : bool) then all_result f l else Done false
  end.

(** The first success. *)
Fixpoint first_some {A B} (f : A → option B) (l : list A) : option B :=
  match l with
  | [] => None
  | a :: l => match f a with Some b => Some b | None => first_some f l end
  end.

Lemma flat_result_total {A B} (f : A → result (list B)) l :
  (∀ a, a ∈ l → ∃ b, f a = Done b) → ∃ bs, flat_result f l = Done bs.
Proof.
  induction l as [|a l IH]; intros Hall; simpl; [by eexists|].
  destruct (Hall a) as [b ->]; [by left|]. destruct IH as [bs ->]; [|by eexists].
  intros a' ?. apply Hall. by right.
Qed.

Lemma elem_of_flat_result {A B} (f : A → result (list B)) l bs x :
  flat_result f l = Done bs → x ∈ bs ↔ ∃ a b, a ∈ l ∧ f a = Done b ∧ x ∈ b.
Proof.
  revert bs. induction l as [|a l IH]; intros bs; simpl.
  - intros [= <-]. split; [by intros ?%elem_of_nil|]. intros (a & b & Ha & _). by apply elem_of_nil in Ha.
  - intros (b & Hb & Hr)%bind_Done. apply bind_Done in Hr as (bs' & Hbs & [= <-]).
    rewrite elem_of_app, (IH _ Hbs). split.
    + intros [?|(a' & b' & ? & ? & ?)]; [exists a, b|exists a', b']; split_and!; try done; [by left|by right].
    + intros (a' & b' & [->|?]%elem_of_cons & Hf & ?); [left; congruence|right; by exists a', b'].
Qed.


Lemma filter_result_spec {A} (f : A → result bool) l out :
  filter_result f l = Done out →
  (∀ a, a ∈ l → ∃ b, f a = Done b) ∧ (∀ a, a ∈ out ↔ a ∈ l ∧ f a = Done true) ∧ (NoDup l → NoDup out).
Proof.
  revert out. induction l as [|a l IH]; intros out; simpl.
  - intros [= <-]. split_and!; [by intros a ?%elem_of_nil| |done]. intros a. split; [|tauto]. by intros ?%elem_of_nil.
  - intros (b & Hb & Hr)%bind_Done. apply bind_Done in Hr as (l' & Hl & [= <-]).
    destruct (IH _ Hl) as (Ht & Hin & Hnd). split_and!.
    + intros a' [->|?]%elem_of_cons; [by exists b|auto].
    + intros a'. rewrite elem_of_cons. destruct b; [rewrite elem_of_cons|]; rewrite Hin; naive_solver congruence.
    + intros [Ha Hl']%NoDup_cons. destruct b; [|auto]. apply NoDup_cons. split; [|auto]. rewrite Hin. tauto.
Qed.

Lemma filter_result_total {A} (f : A → result bool) l :
  (∀ a, a ∈ l → ∃ b, f a = Done b) → ∃ out, filter_result f l = Done out.
Proof.
  induction l as [|a l IH]; intros Hall; simpl; [by eexists|].
  destruct (Hall a) as [b ->]; [by left|]. destruct IH as [out ->]; [|by eexists].
  intros a' ?. apply Hall. by right.
Qed.

Lemma all_result_true {A} (f : A → result bool) l :
  all_result f l = Done true ↔ ∀ a, a ∈ l → f a = Done true.
Proof.
  induction l as [|a l IH]; simpl; [split; [by intros _ a ?%elem_of_nil|done]|]. rewrite bind_Done. split.
  - intros ([] & Hb & Hr) a' [->|?]%elem_of_cons; try done. by apply IH.
  - intros Hall. exists true. split; [apply Hall; by left|]. apply IH. intros a' ?. apply Hall. by right.
Qed.

Lemma all_result_total {A} (f : A → result bool) l :
  (∀ a, a ∈ l → ∃ b, f a = Done b) → ∃ b, all_result f l = Done b.
Proof.
  induction l as [|a l IH]; intros Hall; simpl; [by eexists|].
  destruct (Hall a) as [b ->]; [by left|]. simpl. destruct b; [|by eexists]. apply IH.
  intros a' ?. apply Hall. by right.
Qed.

Lemma first_some_Some {A B} (f : A → option B) l b :
  first_some f l = Some b → ∃ a, a ∈ l ∧ f a = Some b.
Proof.
  induction l as [|a l IH]; simpl; [done|]. destruct (f a) as [b'|] eqn:Hf.
  - intros [= <-]. exists a. split; [by left|done].
  - intros (a' & ? & ?)%IH. exists a'. split; [by right|done].
Qed.

Lemma first_some_None {A B} (f : A → option B) l : first_some f l = None ↔ ∀ a, a ∈ l → f a = None.
Proof.
  induction l as [|a l IH]; simpl; [split; [by intros _ a ?%elem_of_nil|done]|]. destruct (f a) eqn:Hf.
  - split; [done|]. intros Hall. specialize (Hall a ltac:(left)). congruence.
  - rewrite IH. split; [intros Hall a' [->|?]%elem_of_cons; auto|]. intros Hall a' ?. apply Hall. by right.
Qed.

Lemma first_some_is_Some {A B} (f : A → option B) l a :
  a ∈ l → is_Some (f a) → is_Some (first_some f l).
Proof.
  induction 1 as [a l|a a' l _ IH]; simpl; [intros [b ->]; by eexists|].
  intros Hf. destruct (f a'); [by eexists|by apply IH].
Qed.

Lemma first_some_app {A B} (f : A → option B) l1 l2 :
  first_some f (l1 ++ l2) = match first_some f l1 with Some b => Some b | None => first_some f l2 end.
Proof. induction l1 as [|a l1 IH]; simpl; [done|]. by destruct (f a). Qed.

(** Monad inversion: turns [x ← m; k = Done b] hypotheses into their steps. *)
Ltac inv_done :=
  repeat match goal with
  | H : (_ ≫= _) = Done _ |- _ => apply bind_Done in H as (? & ? & ?)
  | H : (_ <$> _) = Done _ |- _ => apply fmap_Done in H as (? & ? & ?)
  | H : expect _ _ = Done _ |- _ => apply expect_Done in H
  | H : check _ _ = Done ?u |- _ => destruct u; apply check_Done in H
  | H : Done _ = Done _ |- _ => injection H as H
  | H : mret _ = Done _ |- _ => injection H as H
  | H : Panic _ = Done _ |- _ => discriminate H
  end; simplify_eq/=.

(** ** Machine integers *)

Definition u32_max : N := 2 ^ 32 - 1.
Definition u64_max : N := 2 ^ 64 - 1.

(** [checked_add(1)] on a [u32] and on a [u64]. *)
Definition u32_checked_succ (n : N) : option N :=
  if bool_decide (n < u32_max)%N then Some (n + 1)%N else None.
Definition u64_checked_succ (n : N) : option N :=
  if bool_decide (n < u64_max)%N then Some (n + 1)%N else None.

Lemma u64_checked_succ_Some n m :
  u64_checked_succ n = Some m → (m = n + 1 ∧ m ≤ u64_max)%N.
Proof. unfold u64_checked_succ. case_bool_decide; intros [= <-]; split; [done|lia]. Qed.

Lemma u32_checked_succ_Some n m :
  u32_checked_succ n = Some m → (m = n + 1 ∧ m ≤ u32_max)%N.
Proof. unfold u32_checked_succ. case_bool_decide; intros [= <-]; split; [done|lia]. Qed.

(** ** Identities *)

(** Component types ([std::any::TypeId]) and entities are opaque numbers. *)
Abbreviation TypeId := N (only parsing).
Abbreviation Entity := N (only parsing).
Abbreviation Revision := N (only parsing).
Abbreviation SystemId := nat (only parsing).

(** Identity of one memoized system invocation: system id plus query keys. *)
Record SystemInvocation := Invocation { system : SystemId; keys : list Entity }.

#[export] Instance SystemInvocation_eq_dec : EqDecision SystemInvocation.
Proof. solve_decision. Defined.
#[export] Instance SystemInvocation_countable : Countable SystemInvocation.
Proof.
  apply (inj_countable' (λ o, (system o, keys o)) (λ p, Invocation p.1 p.2)).
  by intros [].
Defined.

(** ** Registries

A schema gives every declared type its own index below the schema's size. *)
Definition dense (sch : gmap TypeId nat) : Prop :=
  (∀ ty i, sch !! ty = Some i → i < size sch) ∧
  (∀ ty1 ty2 i, sch !! ty1 = Some i → sch !! ty2 = Some i → ty1 = ty2).

(** ** Hash containers

    [HashMap] and [HashSet] iterate in an unspecified order.  The order is a
    parameter: any enumeration of the elements, each once. *)
Class HashOrder := {
  hash_iter : ∀ {A} `{Countable A}, gset A → list A;
  hash_iter_perm : ∀ {A} `{Countable A} (s : gset A), hash_iter s ≡ₚ elements s;
}.

Lemma elem_of_hash_iter `{HashOrder} `{Countable A} (s : gset A) a :
  a ∈ hash_iter s ↔ a ∈ s.
Proof. by rewrite (hash_iter_perm s), elem_of_elements. Qed.

Lemma NoDup_hash_iter `{HashOrder} `{Countable A} (s : gset A) : NoDup (hash_iter s).
Proof. rewrite (hash_iter_perm s). apply NoDup_elements. Qed.

(** A concrete order, for running the model. *)
Definition elements_order : HashOrder :=
  {| hash_iter A _ _ s := elements s; hash_iter_perm A _ _ s := reflexivity _ |}.

(** ** Lists *)

(** Replacing one element of a list changes a concatenation by one block. *)
Lemma concat_insert_perm {A B} (f : A → list B) (l : list A) i x y :
  l !! i = Some x →
  f x ++ concat (f <$> <[i:=y]> l) ≡ₚ f y ++ concat (f <$> l).
Proof.
  revert i. induction l as [|a l IH]; intros [|i] Hi; simplify_eq/=.
  - solve_Permutation.
  - specialize (IH i Hi).
    rewrite (Permutation_app_swap_app (f x)), IH, Permutation_app_swap_app. done.
Qed.

Lemma forallb_elem_of {A} (p : A → bool) l :
  forallb p l = true ↔ ∀ x, x ∈ l → p x = true.
Proof. rewrite forallb_forall. setoid_rewrite <-list_elem_of_In. done. Qed.

Lemma existsb_elem_of {A} (p : A → bool) l :
  existsb p l = true ↔ ∃ x, x ∈ l ∧ p x = true.
Proof. rewrite existsb_exists. setoid_rewrite <-list_elem_of_In. done. Qed.

Create HintDb porridge.
#[export] Hint Rewrite @elem_of_hash_iter @forallb_elem_of @existsb_elem_of : porridge.
#[export] Hint Resolve NoDup_hash_iter : porridge.
