(* ===== verification/Access.v ===== *)
(** * Execution records and component reservations ([access.rs])

    The scheduler admits an invocation when no row it touches is reserved in a
    conflicting way by an invocation in flight.  The code keeps counters per
    component and per row; the specification is the pairwise rule of
    [Access::conflicts] ([query.rs]) against every reservation held.

    [Module Spec] states the reservation table as a finite map from execution
    ids to owners and accesses; the second half of the file proves that the
    counters implement it, on every branch of [admit_invocation], [remove] and
    [cancel_readers], and that a retired id never becomes valid again. *)
From stdpp Require Import base gmap sets list fin_maps numbers.
From S2P Require Import Prelude.

(** ** Accesses *)

Inductive AccessKind := Read | Write.
#[export] Instance AccessKind_eq_dec : EqDecision AccessKind.
Proof. solve_decision. Defined.

(** Access to one component row, or to a whole store ([acc_entity = None]). *)
Record Access := MkAccess {
  acc_kind : AccessKind;
  acc_component : TypeId;
  acc_entity : option Entity;
}.
#[export] Instance Access_eq_dec : EqDecision Access.
Proof. solve_decision. Defined.

Definition access_read (ty : TypeId) (e : Entity) : Access := MkAccess Read ty (Some e).
Definition access_write (ty : TypeId) (e : Entity) : Access := MkAccess Write ty (Some e).
Definition access_read_all (ty : TypeId) : Access := MkAccess Read ty None.
Definition access_write_all (ty : TypeId) : Access := MkAccess Write ty None.

Definition is_write (k : AccessKind) : bool :=
  match k with Read => false | Write => true end.

(** The pairwise rule: same component, one of the two writes, and the rows
    meet (a whole-store access meets every row). *)
Definition access_conflicts (a b : Access) : bool :=
  bool_decide (acc_component a = acc_component b)
  && (is_write (acc_kind a) || is_write (acc_kind b))
  && match acc_entity a, acc_entity b with
     | Some own, Some other => bool_decide (own = other)
     | _, _ => true
     end.

(** ** Counters *)

Record Counts := MkCounts { readers : nat; writers : nat }.
#[export] Instance Counts_eq_dec : EqDecision Counts.
Proof. solve_decision. Defined.

Definition counts_default : Counts := MkCounts 0 0.

Definition counts_any (c : Counts) : bool :=
  negb (Nat.eqb (readers c) 0) || negb (Nat.eqb (writers c) 0).

Definition counts_conflicts (c : Counts) (kind : AccessKind) : bool :=
  match kind with
  | Read => negb (Nat.eqb (writers c) 0)
  | Write => counts_any c
  end.

Definition counts_add (c : Counts) (kind : AccessKind) : Counts :=
  match kind with
  | Read => MkCounts (S (readers c)) (writers c)
  | Write => MkCounts (readers c) (S (writers c))
  end.

(** [-= 1] on a [usize]: an underflow panics. *)
Definition counts_remove (c : Counts) (kind : AccessKind) : result Counts :=
  match kind, readers c, writers c with
  | Read, S r, w => Done (MkCounts r w)
  | Write, r, S w => Done (MkCounts r w)
  | _, _, _ => Panic Overflow
  end.

(** An access whose component is already a dense index. *)
Record ResolvedAccess := MkResolved {
  res_component : nat;
  res_entity : option Entity;
  res_kind : AccessKind;
}.
#[export] Instance ResolvedAccess_eq_dec : EqDecision ResolvedAccess.
Proof. solve_decision. Defined.

Record ComponentAccess := MkComponentAccess {
  total : Counts;
  whole_store : Counts;
  rows : gmap Entity Counts;
}.

Definition component_default : ComponentAccess :=
  MkComponentAccess counts_default counts_default ∅.

Definition component_conflicts (c : ComponentAccess) (a : ResolvedAccess) : bool :=
  match res_entity a with
  | None => counts_conflicts (total c) (res_kind a)
  | Some e =>
      counts_conflicts (whole_store c) (res_kind a)
      || match rows c !! e with
         | Some row => counts_conflicts row (res_kind a)
         | None => false
         end
  end.

Definition component_add (c : ComponentAccess) (a : ResolvedAccess) : ComponentAccess :=
  let total' := counts_add (total c) (res_kind a) in
  match res_entity a with
  | Some e =>
      MkComponentAccess total' (whole_store c)
        (<[e := counts_add (default counts_default (rows c !! e)) (res_kind a)]> (rows c))
  | None => MkComponentAccess total' (counts_add (whole_store c) (res_kind a)) (rows c)
  end.

Definition component_remove (c : ComponentAccess) (a : ResolvedAccess)
    : result ComponentAccess :=
  total' ← counts_remove (total c) (res_kind a);
  match res_entity a with
  | None =>
      whole' ← counts_remove (whole_store c) (res_kind a);
      Done (MkComponentAccess total' whole' (rows c))
  | Some e =>
      match rows c !! e with
      | None => Panic ReservedRowMissing
      | Some row =>
          row' ← counts_remove row (res_kind a);
          Done (MkComponentAccess total' (whole_store c)
                  (if counts_any row' then <[e := row']> (rows c) else delete e (rows c)))
      end
  end.

(** ** Dense component indices *)

Record Components := MkComponents {
  schema : gmap TypeId nat;
  extra : gmap TypeId nat;
  comp_slots : list ComponentAccess;
}.

Definition resolve (cs : Components) (a : Access) : Components * ResolvedAccess :=
  let '(cs', component) :=
    match schema cs !! acc_component a with
    | Some slot => (cs, slot)
    | None =>
        match extra cs !! acc_component a with
        | Some slot => (cs, slot)
        | None =>
            let slot := length (comp_slots cs) in
            (MkComponents (schema cs) (<[acc_component a := slot]> (extra cs))
               (comp_slots cs ++ [component_default]), slot)
        end
    end in
  (cs', MkResolved component (acc_entity a) (acc_kind a)).

(** [accesses.into_iter().map(|a| components.resolve(a)).collect()] *)
Fixpoint resolve_all (cs : Components) (l : list Access)
    : Components * list ResolvedAccess :=
  match l with
  | [] => (cs, [])
  | a :: l =>
      let '(cs1, r) := resolve cs a in
      let '(cs2, rs) := resolve_all cs1 l in
      (cs2, r :: rs)
  end.

(** ** Execution records *)

Record RunId := MkRunId { run_slot : nat; run_generation : N }.
#[export] Instance RunId_eq_dec : EqDecision RunId.
Proof. solve_decision. Defined.
#[export] Instance RunId_countable : Countable RunId.
Proof.
  apply (inj_countable' (λ i, (run_slot i, run_generation i))
           (λ p, MkRunId p.1 p.2)).
  by intros [].
Defined.

Record ExecRecord := MkRecord {
  rec_owner : SystemInvocation;
  rec_accesses : list ResolvedAccess;
  rec_writer : bool;
}.

Record Slot := MkSlot { slot_generation : N; slot_record : option ExecRecord }.

(** [free] is a stack: its head is the end of the source's vector. *)
Record Records := MkRecords { rec_slots : list Slot; rec_free : list nat }.

(** The slot [insert] writes to: the top of the free stack, or a new slot
    when its index fits a [u32]. *)
Definition records_pick (r : Records) : result (nat * Records) :=
  match rec_free r with
  | index :: free => Done (index, MkRecords (rec_slots r) free)
  | [] =>
      let index := length (rec_slots r) in
      if bool_decide (N.of_nat index ≤ u32_max)%N
      then Done (index, MkRecords (rec_slots r ++ [MkSlot 0 None]) [])
      else Panic SlotsExhausted
  end.

Definition records_insert (r : Records) (rec : ExecRecord) : result (Records * RunId) :=
  '(index, r) ← records_pick r;
  slot ← expect IndexOutOfRange (rec_slots r !! index);
  _ ← check SlotOccupied (bool_decide (slot_record slot = None));
  Done (MkRecords (<[index := MkSlot (slot_generation slot) (Some rec)]> (rec_slots r))
          (rec_free r),
        MkRunId index (slot_generation slot)).

Definition records_get (r : Records) (id : RunId) : option ExecRecord :=
  slot ← rec_slots r !! run_slot id;
  if bool_decide (slot_generation slot = run_generation id) then slot_record slot else None.

Definition records_remove (r : Records) (id : RunId) : Records * option ExecRecord :=
  match rec_slots r !! run_slot id with
  | None => (r, None)
  | Some slot =>
      if bool_decide (slot_generation slot ≠ run_generation id) then (r, None)
      else match slot_record slot with
           | None => (r, None)
           | Some rec =>
               match u32_checked_succ (slot_generation slot) with
               | Some next =>
                   (MkRecords (<[run_slot id := MkSlot next None]> (rec_slots r))
                      (run_slot id :: rec_free r), Some rec)
               | None =>
                   (MkRecords (<[run_slot id := MkSlot (slot_generation slot) None]>
                                 (rec_slots r)) (rec_free r), Some rec)
               end
           end
  end.

(** ** The reservation table *)

Record Reservations := MkReservations {
  owners : gmap SystemInvocation RunId;
  records : Records;
  components : Components;
}.

Inductive Rejected :=
  | Duplicate
  | Conflict (owner : SystemInvocation).

Definition reservations_new (sch : gmap TypeId nat) : Reservations :=
  MkReservations ∅ (MkRecords [] [])
    (MkComponents sch ∅ (replicate (size sch) component_default)).

(** [self.components.slots[access.component].conflicts(access)] *)
Definition slot_conflicts (cs : list ComponentAccess) (a : ResolvedAccess) : result bool :=
  c ← expect IndexOutOfRange (cs !! res_component a);
  Done (component_conflicts c a).

(** [accesses.iter().any(..)], stopping at the first conflict. *)
Fixpoint any_conflicts (cs : list ComponentAccess) (l : list ResolvedAccess) : result bool :=
  match l with
  | [] => Done false
  | a :: l =>
      b ← slot_conflicts cs a;
      if (b : bool) then Done true else any_conflicts cs l
  end.

Definition slot_add (cs : list ComponentAccess) (a : ResolvedAccess)
    : result (list ComponentAccess) :=
  c ← expect IndexOutOfRange (cs !! res_component a);
  Done (<[res_component a := component_add c a]> cs).

Definition slot_remove (cs : list ComponentAccess) (a : ResolvedAccess)
    : result (list ComponentAccess) :=
  c ← expect IndexOutOfRange (cs !! res_component a);
  c' ← component_remove c a;
  Done (<[res_component a := c']> cs).

Definition with_slots (cs : Components) (slots : list ComponentAccess) : Components :=
  MkComponents (schema cs) (extra cs) slots.

Definition admit_invocation (r : Reservations) (owner : SystemInvocation) (accesses : list Access)
    : result (Reservations * (RunId + Rejected)) :=
  match owners r !! owner with
  | Some _ => Done (r, inr Duplicate)
  | None =>
      let '(cs, resolved) := resolve_all (components r) accesses in
      conflict ← any_conflicts (comp_slots cs) resolved;
      if (conflict : bool)
      then Done (MkReservations (owners r) (records r) cs, inr (Conflict owner))
      else
        let writer := existsb (λ a, is_write (res_kind a)) resolved in
        slots ← fold_result slot_add (comp_slots cs) resolved;
        '(recs, id) ← records_insert (records r) (MkRecord owner resolved writer);
        Done (MkReservations (<[owner := id]> (owners r)) recs (with_slots cs slots),
              inl id)
  end.

Definition contains (r : Reservations) (id : RunId) : bool :=
  bool_decide (is_Some (records_get (records r) id)).

Definition is_writer (r : Reservations) (id : RunId) : result bool :=
  rec ← expect NotAdmitted (records_get (records r) id);
  Done (rec_writer rec).

Definition remove (r : Reservations) (id : RunId)
    : result (Reservations * option SystemInvocation) :=
  match records_remove (records r) id with
  | (_, None) => Done (r, None)
  | (recs, Some rec) =>
      _ ← check NotAdmitted (bool_decide (owners r !! rec_owner rec = Some id));
      slots ← fold_result slot_remove (comp_slots (components r)) (rec_accesses rec);
      Done (MkReservations (delete (rec_owner rec) (owners r)) recs
              (with_slots (components r) slots), Some (rec_owner rec))
  end.

(** Ids of the records without a write access, in slot order. *)
Definition reader_ids (slots : list Slot) : list RunId :=
  omap (λ '(index, slot),
          match slot_record slot with
          | Some rec =>
              if rec_writer rec then None
              else Some (MkRunId index (slot_generation slot))
          | None => None
          end) (imap pair slots).

Definition cancel_readers (r : Reservations) : result Reservations :=
  fold_result (λ r id, '(r', _) ← remove r id; Done r') r (reader_ids (rec_slots (records r))).

(** ** Specification: a finite map of the reservations held *)

Module Spec.

(** What is in flight: who runs under which id, with which accesses. *)
Abbreviation table := (gmap RunId (SystemInvocation * list Access)).

Definition running (t : table) (o : SystemInvocation) : Prop :=
  ∃ id accs, t !! id = Some (o, accs).

Definition clashes (t : table) (accs : list Access) : Prop :=
  ∃ a id o held b, a ∈ accs ∧ t !! id = Some (o, held) ∧ b ∈ held ∧
                   access_conflicts a b = true.

(** Nothing in flight conflicts with anything else in flight. *)
Definition exclusive (t : table) : Prop :=
  ∀ id1 id2 o1 o2 l1 l2 a b,
    id1 ≠ id2 → t !! id1 = Some (o1, l1) → t !! id2 = Some (o2, l2) →
    a ∈ l1 → b ∈ l2 → access_conflicts a b = false.

(** One invocation is in flight at most once. *)
Definition single_flight (t : table) : Prop :=
  ∀ id1 id2 o l1 l2,
    t !! id1 = Some (o, l1) → t !! id2 = Some (o, l2) → id1 = id2.

Inductive admits (t : table) (o : SystemInvocation) (accs : list Access)
    : table → RunId + Rejected → Prop :=
  | admits_duplicate : running t o → admits t o accs t (inr Duplicate)
  | admits_conflict :
      ¬ running t o → clashes t accs → admits t o accs t (inr (Conflict o))
  | admits_run id :
      ¬ running t o → ¬ clashes t accs → t !! id = None →
      admits t o accs (<[id := (o, accs)]> t) (inl id).

Definition writes (accs : list Access) : bool :=
  existsb (λ a, is_write (acc_kind a)) accs.

(** Admission keeps both global properties, whatever the table was. *)
Lemma access_conflicts_sym a b : access_conflicts a b = access_conflicts b a.
Proof.
  unfold access_conflicts. rewrite (orb_comm (is_write (acc_kind b))).
  f_equal; [f_equal; apply bool_decide_ext; naive_solver|].
  destruct (acc_entity a), (acc_entity b); [|done..].
  apply bool_decide_ext; naive_solver.
Qed.

Lemma admits_exclusive t o accs t' out :
  admits t o accs t' out → exclusive t → exclusive t'.
Proof.
  intros [| |id Hrun Hclash Hfresh] Hex; [done..|].
  intros id1 id2 o1 o2 l1 l2 a b Hne H1 H2 Ha Hb.
  apply lookup_insert_Some in H1 as [[<- [= <- <-]]|[Hn1 H1]];
    apply lookup_insert_Some in H2 as [[<- [= <- <-]]|[Hn2 H2]].
  - done.
  - apply not_true_is_false. intros Hc. apply Hclash.
    by exists a, id2, o2, l2, b.
  - apply not_true_is_false. intros Hc. apply Hclash.
    exists b, id1, o1, l1, a. by rewrite access_conflicts_sym.
  - eapply (Hex id1 id2); eauto.
Qed.

Lemma admits_single_flight t o accs t' out :
  admits t o accs t' out → single_flight t → single_flight t'.
Proof.
  intros [| |id Hrun Hclash Hfresh] Hs; [done..|].
  intros id1 id2 o' l1 l2 H1 H2.
  apply lookup_insert_Some in H1 as [[<- ?]|[Hn1 H1]];
    apply lookup_insert_Some in H2 as [[<- ?]|[Hn2 H2]]; simplify_eq; try done.
  - destruct Hrun. by eexists _, _.
  - destruct Hrun. by eexists _, _.
  - by eapply Hs.
Qed.
End Spec.

(** ** Counting

    [tally l] is what the counters should hold for the accesses [l]. *)

Definition of_kind (k : AccessKind) (l : list ResolvedAccess) : nat :=
  length (filter (λ a, res_kind a = k) l).

Definition tally (l : list ResolvedAccess) : Counts :=
  MkCounts (of_kind Read l) (of_kind Write l).

Definition at_component (c : nat) (l : list ResolvedAccess) : list ResolvedAccess :=
  filter (λ a, res_component a = c) l.
Definition at_entity (e : option Entity) (l : list ResolvedAccess) : list ResolvedAccess :=
  filter (λ a, res_entity a = e) l.

(** [c] counts exactly the accesses [l] (all of one component). *)
Record counts_exactly (c : ComponentAccess) (l : list ResolvedAccess) : Prop := {
  ce_total : total c = tally l;
  ce_whole : whole_store c = tally (at_entity None l);
  ce_rows e : rows c !! e =
    if counts_any (tally (at_entity (Some e) l))
    then Some (tally (at_entity (Some e) l)) else None;
}.

#[export] Instance of_kind_perm k : Proper ((≡ₚ) ==> eq) (of_kind k).
Proof. intros l1 l2 Hl. unfold of_kind. by rewrite Hl. Qed.
#[export] Instance tally_perm : Proper ((≡ₚ) ==> eq) tally.
Proof. intros l1 l2 Hl. unfold tally. by rewrite Hl. Qed.
#[export] Instance at_entity_perm e : Proper ((≡ₚ) ==> (≡ₚ)) (at_entity e).
Proof. intros l1 l2 Hl. unfold at_entity. by rewrite Hl. Qed.
#[export] Instance at_component_perm c : Proper ((≡ₚ) ==> (≡ₚ)) (at_component c).
Proof. intros l1 l2 Hl. unfold at_component. by rewrite Hl. Qed.

Lemma counts_exactly_perm c l1 l2 : l1 ≡ₚ l2 → counts_exactly c l1 → counts_exactly c l2.
Proof. intros Hl []. split; intros; rewrite <-?Hl; auto. Qed.

Lemma tally_cons a l : tally (a :: l) = counts_add (tally l) (res_kind a).
Proof.
  unfold tally, of_kind. rewrite !filter_cons.
  destruct (res_kind a); repeat case_decide; done.
Qed.

Lemma counts_add_remove c k : counts_remove (counts_add c k) k = Done c.
Proof. by destruct k, c as [[] []]. Qed.

Lemma counts_any_add c k : counts_any (counts_add c k) = true.
Proof. by destruct k, c as [[] []]. Qed.

Lemma at_entity_cons e a l :
  at_entity e (a :: l) = if decide (res_entity a = e) then a :: at_entity e l else at_entity e l.
Proof. unfold at_entity. rewrite filter_cons. done. Qed.

Lemma default_tally_row c l e :
  counts_exactly c l →
  default counts_default (rows c !! e) = tally (at_entity (Some e) l).
Proof.
  intros Hc. rewrite (ce_rows _ _ Hc).
  destruct (tally (at_entity (Some e) l)) as [[] []]; done.
Qed.

Lemma component_add_exact c a l :
  counts_exactly c l → counts_exactly (component_add c a) (a :: l).
Proof.
  intros Hc. pose proof (default_tally_row c l) as Hrow. destruct Hc as [Ht Hw Hr].
  unfold component_add. destruct (res_entity a) as [e|] eqn:Ea; split; simpl;
    rewrite ?tally_cons, ?Ht; try done.
  - rewrite at_entity_cons, Ea, decide_False by done. done.
  - intros e'. rewrite at_entity_cons, Ea. case_decide as He.
    + injection He as <-. rewrite lookup_insert_eq, tally_cons, counts_any_add, Hrow; done.
    + rewrite lookup_insert_ne by congruence. apply Hr.
  - rewrite at_entity_cons, Ea, decide_True, tally_cons, Hw; done.
  - intros e'. rewrite at_entity_cons, Ea, decide_False by done. apply Hr.
Qed.

Lemma component_remove_exact c a l :
  counts_exactly c (a :: l) → ∃ c', component_remove c a = Done c' ∧ counts_exactly c' l.
Proof.
  intros [Ht Hw Hr]. unfold component_remove. rewrite Ht, tally_cons, counts_add_remove.
  simpl. destruct (res_entity a) as [e|] eqn:Ea.
  - pose proof (Hr e) as Hre. rewrite at_entity_cons, Ea, decide_True, tally_cons,
      counts_any_add in Hre by done. rewrite Hre, counts_add_remove. simpl.
    eexists; split; [done|]. split; simpl; [done| |].
    + rewrite Hw, at_entity_cons, Ea, decide_False; done.
    + intros e'. specialize (Hr e'). rewrite at_entity_cons, Ea in Hr.
      destruct (decide (e = e')) as [<-|Hne].
      * clear Hr. case_match; [by rewrite lookup_insert_eq|by rewrite lookup_delete_eq].
      * rewrite decide_False in Hr by congruence.
        rewrite <-Hr. clear Hr. case_match; [by rewrite lookup_insert_ne|by rewrite lookup_delete_ne].
  - rewrite Hw, at_entity_cons, Ea, decide_True, tally_cons, counts_add_remove by done.
    simpl. eexists; split; [done|]. split; simpl; [done|done|].
    intros e'. rewrite Hr, at_entity_cons, Ea, decide_False; done.
Qed.

(** What the counters answer is the pairwise rule on resolved accesses. *)
Definition resolved_conflicts (a b : ResolvedAccess) : bool :=
  access_conflicts (MkAccess (res_kind a) (N.of_nat (res_component a)) (res_entity a))
                   (MkAccess (res_kind b) (N.of_nat (res_component b)) (res_entity b)).

Lemma of_kind_0 k l : of_kind k l = 0 ↔ ∀ b, b ∈ l → res_kind b ≠ k.
Proof.
  unfold of_kind. rewrite length_zero_iff_nil. split.
  - intros Hnil b Hb Hk. assert (b ∈ filter (λ a, res_kind a = k) l) as Hin
      by (by apply list_elem_of_filter). rewrite Hnil in Hin. set_solver.
  - intros Hb. destruct (filter _ l) as [|b l'] eqn:E; [done|].
    assert (b ∈ filter (λ a, res_kind a = k) l) as [Hk Hin]%list_elem_of_filter
      by (rewrite E; left). destruct (Hb b Hin Hk).
Qed.

Lemma counts_conflicts_tally l k :
  counts_conflicts (tally l) k = existsb (λ b, is_write k || is_write (res_kind b)) l.
Proof.
  apply eq_true_iff_eq. rewrite existsb_elem_of.
  destruct k; simpl.
  - rewrite negb_true_iff, Nat.eqb_neq. split.
    + intros Hn. apply existsb_elem_of. apply not_false_is_true. intros Hno.
      apply Hn, of_kind_0. intros b Hb Hk. apply not_true_iff_false in Hno.
      apply Hno, existsb_elem_of. exists b. by rewrite Hk.
    + intros (b & Hb & Hk) H0. apply of_kind_0 with (b := b) in H0; [|done].
      by destruct (res_kind b).
  - unfold counts_any; simpl. split.
    + intros Ha. destruct l as [|b l]; [done|]. exists b. split; [left|done].
    + intros (b & Hb & _). apply orb_true_iff. rewrite !negb_true_iff, !Nat.eqb_neq.
      destruct (res_kind b) eqn:Hk; [left|right]; intros H0;
        by apply (proj1 (of_kind_0 _ _) H0 b).
Qed.

Lemma resolved_conflicts_at_entity a l :
  existsb (resolved_conflicts a) l =
  existsb (λ b, is_write (res_kind a) || is_write (res_kind b))
    (filter (λ b, res_component b = res_component a ∧
                  (res_entity a = None ∨ res_entity b = None ∨ res_entity a = res_entity b)) l).
Proof.
  apply eq_true_iff_eq. rewrite !existsb_elem_of.
  setoid_rewrite list_elem_of_filter.
  assert (∀ b, resolved_conflicts a b = true ↔
    (res_component b = res_component a ∧
      (res_entity a = None ∨ res_entity b = None ∨ res_entity a = res_entity b)) ∧
    is_write (res_kind a) || is_write (res_kind b) = true) as Hc; [|set_solver].
  intros b. unfold resolved_conflicts, access_conflicts; simpl.
  rewrite !andb_true_iff, bool_decide_eq_true, Nat2N.inj_iff.
  destruct (res_entity a), (res_entity b); rewrite ?bool_decide_eq_true; naive_solver.
Qed.

(** The counters' verdict on one request is the pairwise rule against every
    access they count. *)
Lemma component_conflicts_exact c a l :
  counts_exactly c (at_component (res_component a) l) →
  component_conflicts c a = existsb (resolved_conflicts a) l.
Proof.
  intros Hc. rewrite resolved_conflicts_at_entity. unfold component_conflicts.
  destruct (res_entity a) as [e|] eqn:Ea.
  - assert (match rows c !! e with
            | Some row => counts_conflicts row (res_kind a) | None => false end
            = counts_conflicts (tally (at_entity (Some e) (at_component (res_component a) l)))
                (res_kind a)) as ->.
    { rewrite (ce_rows _ _ Hc). destruct (tally _) as [[] []], (res_kind a); done. }
    rewrite (ce_whole _ _ Hc), !counts_conflicts_tally. unfold at_entity, at_component.
    apply eq_true_iff_eq. rewrite orb_true_iff, !existsb_elem_of.
    setoid_rewrite list_elem_of_filter. setoid_rewrite list_elem_of_filter.
    naive_solver.
  - rewrite (ce_total _ _ Hc), counts_conflicts_tally. unfold at_component.
    apply eq_true_iff_eq. rewrite !existsb_elem_of.
    setoid_rewrite list_elem_of_filter. naive_solver.
Qed.

(** ** Refinement: the counters implement the table *)

Definition slot_accesses (s : Slot) : list ResolvedAccess :=
  match slot_record s with Some rec => rec_accesses rec | None => [] end.

Definition live_accesses (slots : list Slot) : list ResolvedAccess :=
  concat (slot_accesses <$> slots).

Definition index_of (cs : Components) (ty : TypeId) : option nat :=
  match schema cs !! ty with Some i => Some i | None => extra cs !! ty end.

Record wf_components (cs : Components) : Prop := {
  wc_range ty i : index_of cs ty = Some i → i < length (comp_slots cs);
  wc_inj ty1 ty2 i : index_of cs ty1 = Some i → index_of cs ty2 = Some i → ty1 = ty2;
}.

Definition resolves (cs : Components) (a : Access) (r : ResolvedAccess) : Prop :=
  index_of cs (acc_component a) = Some (res_component r) ∧
  acc_entity a = res_entity r ∧ acc_kind a = res_kind r.

Definition all_counted (slots : list ComponentAccess) (l : list ResolvedAccess) : Prop :=
  ∀ c ca, slots !! c = Some ca → counts_exactly ca (at_component c l).

Definition record_of (cs : Components) (p : SystemInvocation * list Access)
    (rec : ExecRecord) : Prop :=
  p.1 = rec_owner rec ∧ Forall2 (resolves cs) p.2 (rec_accesses rec) ∧
  rec_writer rec = Spec.writes p.2.

(** The abstraction relation. *)
Record represents (r : Reservations) (t : Spec.table) : Prop := {
  rp_components : wf_components (components r);
  rp_counts : all_counted (comp_slots (components r)) (live_accesses (rec_slots (records r)));
  rp_records id : option_Forall2 (record_of (components r)) (t !! id)
                    (records_get (records r) id);
  rp_owners o id : owners r !! o = Some id ↔ ∃ accs, t !! id = Some (o, accs);
  rp_free_nodup : NoDup (rec_free (records r));
  rp_free i : i ∈ rec_free (records r) →
    ∃ g, rec_slots (records r) !! i = Some (MkSlot g None);
}.

Lemma at_component_cons c a l :
  at_component c (a :: l) =
  if decide (res_component a = c) then a :: at_component c l else at_component c l.
Proof. unfold at_component. rewrite filter_cons. done. Qed.

Lemma all_counted_perm slots l1 l2 : l1 ≡ₚ l2 → all_counted slots l1 → all_counted slots l2.
Proof. intros Hl H c ca Hc. eapply counts_exactly_perm; [|by apply H]. by rewrite Hl. Qed.

Lemma counts_exactly_default l : l = [] → counts_exactly component_default l.
Proof. intros ->. by split. Qed.

(** *** Resolving *)

Definition extends (cs cs' : Components) : Prop :=
  ∀ ty i, index_of cs ty = Some i → index_of cs' ty = Some i.

Lemma extends_refl cs : extends cs cs.
Proof. by intros ty i Hi. Qed.

Lemma extends_resolves cs cs' a r : extends cs cs' → resolves cs a r → resolves cs' a r.
Proof. intros He (?&?&?). split; auto. Qed.

Lemma resolve_spec cs a cs' r l :
  wf_components cs → all_counted (comp_slots cs) l →
  (∀ b, b ∈ l → res_component b < length (comp_slots cs)) →
  resolve cs a = (cs', r) →
  wf_components cs' ∧ all_counted (comp_slots cs') l ∧ extends cs cs' ∧
  length (comp_slots cs) ≤ length (comp_slots cs') ∧ resolves cs' a r.
Proof.
  intros Hwf Hcount Hl. pose proof Hwf as [Hrange Hinj]. unfold resolve.
  assert (∀ i, index_of cs (acc_component a) = Some i →
    cs' = cs ∧ r = MkResolved i (acc_entity a) (acc_kind a) → 
    wf_components cs' ∧ all_counted (comp_slots cs') l ∧ extends cs cs' ∧
    length (comp_slots cs) ≤ length (comp_slots cs') ∧ resolves cs' a r) as Hknown.
  { intros i Hi [-> ->]. unfold resolves. split_and!; eauto using extends_refl. }
  unfold index_of in Hknown at 1.
  destruct (schema cs !! acc_component a) as [i|] eqn:Hs.
  { intros [= <- <-]. by apply (Hknown i). }
  destruct (extra cs !! acc_component a) as [i|] eqn:He.
  { intros [= <- <-]. by apply (Hknown i). }
  intros [= <- <-]. clear Hknown.
  assert (∀ ty i, index_of (MkComponents (schema cs)
      (<[acc_component a:=length (comp_slots cs)]> (extra cs))
      (comp_slots cs ++ [component_default])) ty = Some i ↔
    (ty = acc_component a ∧ i = length (comp_slots cs)) ∨ index_of cs ty = Some i) as Hidx.
  { intros ty i. unfold index_of; simpl. destruct (decide (ty = acc_component a)) as [->|Hne].
    - rewrite Hs, He, lookup_insert_eq. naive_solver.
    - rewrite lookup_insert_ne by done. naive_solver. }
  split; [|split; [|split; [|split]]].
  - split.
    + intros ty i [[-> ->]|Hi%Hrange]%Hidx; simpl; rewrite length_app; simpl; lia.
    + intros ty1 ty2 i [[-> ->]|H1]%Hidx [[-> Hi]|H2]%Hidx; eauto;
        exfalso; [apply Hrange in H2|apply Hrange in H1]; lia.
  - intros c ca. simpl. intros [Hc|[Hc Hca]]%lookup_app_Some; [by apply Hcount|].
    apply list_lookup_singleton_Some in Hca as [Hz <-].
    apply counts_exactly_default. unfold at_component.
    destruct (filter _ l) as [|b l'] eqn:E; [done|].
    assert (b ∈ filter (λ b, res_component b = c) l) as [Hbc Hb]%list_elem_of_filter
      by (rewrite E; left). apply Hl in Hb. lia.
  - intros ty i Hi. apply Hidx. by right.
  - simpl. rewrite length_app. lia.
  - split; [|done]. apply Hidx. by left.
Qed.

Lemma resolve_all_spec accs cs cs' rs l :
  wf_components cs → all_counted (comp_slots cs) l →
  (∀ b, b ∈ l → res_component b < length (comp_slots cs)) →
  resolve_all cs accs = (cs', rs) →
  wf_components cs' ∧ all_counted (comp_slots cs') l ∧ extends cs cs' ∧
  length (comp_slots cs) ≤ length (comp_slots cs') ∧ Forall2 (resolves cs') accs rs.
Proof.
  revert cs rs. induction accs as [|a accs IH]; intros cs rs Hwf Hcount Hl; simpl.
  { intros [= <- <-]. split_and!; eauto using extends_refl. }
  destruct (resolve cs a) as [cs1 r] eqn:E1. destruct (resolve_all cs1 accs) as [cs2 rs2] eqn:E2.
  intros [= <- <-].
  destruct (resolve_spec _ _ _ _ _ Hwf Hcount Hl E1) as (Hwf1 & Hc1 & He1 & Hlen1 & Hr1).
  destruct (IH cs1 rs2) as (Hwf2 & Hc2 & He2 & Hlen2 & Hr2); try done.
  { intros b Hb%Hl. lia. }
  split_and!; try done; [|lia|].
  - intros ty i Hi. auto.
  - constructor; [|done]. eapply extends_resolves; eauto.
Qed.

#[local] Arguments component_add : simpl never.
#[local] Arguments component_remove : simpl never.
#[local] Arguments component_conflicts : simpl never.

(** *** Conflict detection *)

Lemma access_conflicts_resolved cs a b ra rb :
  wf_components cs → resolves cs a ra → resolves cs b rb →
  access_conflicts a b = resolved_conflicts ra rb.
Proof.
  intros [_ Hinj] (Ha & Hea & Hka) (Hb & Heb & Hkb).
  unfold resolved_conflicts, access_conflicts; simpl.
  rewrite Hea, Heb, Hka, Hkb. do 2 f_equal. apply bool_decide_ext.
  rewrite Nat2N.inj_iff. split; [congruence|].
  intros Heq. rewrite Heq in Ha. by eapply Hinj.
Qed.

Lemma any_conflicts_spec slots l held :
  all_counted slots held → (∀ a, a ∈ l → res_component a < length slots) →
  any_conflicts slots l = Done (existsb (λ a, existsb (resolved_conflicts a) held) l).
Proof.
  intros Hcount. induction l as [|a l IH]; intros Hl; simpl; [done|].
  destruct (lookup_lt_is_Some_2 slots (res_component a)) as [c Hc]; [apply Hl; left|].
  unfold slot_conflicts. rewrite Hc. simpl.
  rewrite (component_conflicts_exact c a held) by (by apply Hcount).
  destruct (existsb (resolved_conflicts a) held); simpl; [done|].
  apply IH. intros b Hb. apply Hl. by right.
Qed.

(** *** Adding and releasing reservations *)

Lemma slot_add_spec slots a held :
  all_counted slots held → res_component a < length slots →
  ∃ slots', slot_add slots a = Done slots' ∧ all_counted slots' (a :: held) ∧
            length slots' = length slots.
Proof.
  intros Hcount [c Hc]%lookup_lt_is_Some_2. unfold slot_add. rewrite Hc. simpl.
  eexists; split; [done|]. split; [|apply length_insert].
  intros i ca. rewrite list_lookup_insert_Some, at_component_cons.
  intros [(<- & <- & _)|(Hne & Hi)].
  - rewrite decide_True by done. by apply component_add_exact, Hcount.
  - rewrite decide_False by congruence. by apply Hcount.
Qed.

Lemma slot_remove_spec slots a held :
  all_counted slots (a :: held) → res_component a < length slots →
  ∃ slots', slot_remove slots a = Done slots' ∧ all_counted slots' held ∧
            length slots' = length slots.
Proof.
  intros Hcount [c Hc]%lookup_lt_is_Some_2. unfold slot_remove. rewrite Hc. simpl.
  pose proof (Hcount _ _ Hc) as Hca. rewrite at_component_cons, decide_True in Hca by done.
  destruct (component_remove_exact _ _ _ Hca) as (c' & -> & Hc'). simpl.
  eexists; split; [done|]. split; [|apply length_insert].
  intros i ca. rewrite list_lookup_insert_Some. intros [(<- & <- & _)|(Hne & Hi)]; [done|].
  specialize (Hcount _ _ Hi). rewrite at_component_cons, decide_False in Hcount by congruence.
  done.
Qed.

Lemma slots_add_spec l slots held :
  all_counted slots held → (∀ a, a ∈ l → res_component a < length slots) →
  ∃ slots', fold_result slot_add slots l = Done slots' ∧ all_counted slots' (l ++ held) ∧
            length slots' = length slots.
Proof.
  revert slots held. induction l as [|a l IH]; intros slots held Hcount Hl; simpl; [eauto|].
  destruct (slot_add_spec slots a held) as (s1 & -> & Hc1 & Hlen1); [done|apply Hl; left|].
  destruct (IH s1 (a :: held)) as (s2 & Hs2 & Hc2 & Hlen2); [done| |].
  { intros b Hb. rewrite Hlen1. apply Hl. by right. }
  exists s2. split_and!; [done| |lia].
  eapply all_counted_perm; [|done]. solve_Permutation.
Qed.

Lemma slots_remove_spec l slots held :
  all_counted slots (l ++ held) → (∀ a, a ∈ l → res_component a < length slots) →
  ∃ slots', fold_result slot_remove slots l = Done slots' ∧ all_counted slots' held ∧
            length slots' = length slots.
Proof.
  revert slots. induction l as [|a l IH]; intros slots Hcount Hl; simpl; [eauto|].
  destruct (slot_remove_spec slots a (l ++ held)) as (s1 & -> & Hc1 & Hlen1);
    [done|apply Hl; left|].
  destruct (IH s1) as (s2 & Hs2 & Hc2 & Hlen2); [done| |].
  { intros b Hb. rewrite Hlen1. apply Hl. by right. }
  exists s2. split_and!; [done|done|lia].
Qed.

(** *** Record slots *)

Record free_ok (r : Records) : Prop := {
  fo_nodup : NoDup (rec_free r);
  fo_empty i : i ∈ rec_free r → ∃ g, rec_slots r !! i = Some (MkSlot g None);
}.

Lemma records_get_Some r id rec :
  records_get r id = Some rec ↔
  rec_slots r !! run_slot id = Some (MkSlot (run_generation id) (Some rec)).
Proof.
  unfold records_get. destruct (rec_slots r !! run_slot id) as [[g o]|]; simpl; [|done].
  case_bool_decide; naive_solver.
Qed.

Lemma live_accesses_elem r id rec a :
  records_get r id = Some rec → a ∈ rec_accesses rec → a ∈ live_accesses (rec_slots r).
Proof.
  intros Hr%records_get_Some Ha. apply list_elem_of_In, in_concat.
  exists (rec_accesses rec). split; apply list_elem_of_In; [|done].
  apply list_elem_of_fmap. eexists. split; [|by eapply list_elem_of_lookup_2]. done.
Qed.

Lemma live_accesses_inv slots a :
  a ∈ live_accesses slots →
  ∃ i g rec, slots !! i = Some (MkSlot g (Some rec)) ∧ a ∈ rec_accesses rec.
Proof.
  intros (l & Hl & Ha)%list_elem_of_In%in_concat.
  apply list_elem_of_In in Ha. apply list_elem_of_In in Hl.
  apply list_elem_of_fmap in Hl as ([g o] & -> & [i Hi]%list_elem_of_lookup_1).
  destruct o as [rec|]; simpl in Ha; [eauto|set_solver].
Qed.


Lemma live_accesses_insert slots i g o s :
  slots !! i = Some (MkSlot g o) →
  slot_accesses (MkSlot g o) ++ live_accesses (<[i:=s]> slots)
  ≡ₚ slot_accesses s ++ live_accesses slots.
Proof. apply concat_insert_perm. Qed.

(** A record written into an empty slot of generation [g]. *)
Lemma records_claim r i g rec free :
  rec_slots r !! i = Some (MkSlot g None) →
  let r' := MkRecords (<[i := MkSlot g (Some rec)]> (rec_slots r)) free in
  (∀ id, records_get r' id =
     if decide (id = MkRunId i g) then Some rec else records_get r id) ∧
  live_accesses (rec_slots r') ≡ₚ rec_accesses rec ++ live_accesses (rec_slots r).
Proof.
  intros Hi r'. split; [|apply (live_accesses_insert _ _ _ _ (MkSlot g (Some rec)) Hi)].
  intros [j h]. unfold records_get, r'; simpl. destruct (decide (j = i)) as [->|Hne].
  - rewrite list_lookup_insert_eq by (by eapply lookup_lt_Some). simpl. rewrite Hi; simpl.
    repeat case_bool_decide; repeat case_decide; congruence.
  - rewrite list_lookup_insert_ne by done. rewrite decide_False by congruence. done.
Qed.

(** Inserting claims an id that no record had and keeps all the others. *)
Lemma records_insert_spec r rec r' id :
  free_ok r → records_insert r rec = Done (r', id) →
  free_ok r' ∧ records_get r id = None ∧
  (∀ id', records_get r' id' = if decide (id' = id) then Some rec else records_get r id') ∧
  live_accesses (rec_slots r') ≡ₚ rec_accesses rec ++ live_accesses (rec_slots r).
Proof.
  intros [Hnd Hempty]. unfold records_insert, records_pick. intros H.
  destruct (rec_free r) as [|i free] eqn:Hfree.
  - case_bool_decide; [|discriminate]. simpl in H.
    rewrite lookup_app_r, Nat.sub_diag in H by lia. simpl in H. injection H as <- <-.
    set (r1 := MkRecords (rec_slots r ++ [MkSlot 0 None]) []).
    assert (rec_slots r1 !! length (rec_slots r) = Some (MkSlot 0 None)) as Hi.
    { simpl. by rewrite lookup_app_r, Nat.sub_diag by lia. }
    assert (∀ id, records_get r1 id = records_get r id) as Hsame.
    { intros [j h]. unfold records_get; simpl.
      destruct (decide (j < length (rec_slots r))); [by rewrite lookup_app_l|].
      rewrite (lookup_ge_None_2 (rec_slots r)) by lia.
      rewrite lookup_app_r by lia. destruct (j - length _) as [|k]; simpl; [|done].
      by case_bool_decide. }
    destruct (records_claim r1 _ _ rec [] Hi) as [Hget Hlive].
    split_and!; [by split; [constructor|set_solver]| | |].
    + unfold records_get; simpl. by rewrite lookup_ge_None_2 by lia.
    + intros id'. rewrite Hget, Hsame. done.
    + etrans; [apply Hlive|]. unfold live_accesses; simpl. rewrite fmap_app, concat_app.
      simpl. by rewrite app_nil_r.
  - destruct (Hempty i) as [g Hi]; [left|]. simpl in H. rewrite Hi in H. simpl in H.
    injection H as <- <-.
    destruct (records_claim r i g rec free Hi) as [Hget Hlive].
    inversion_clear Hnd as [|?? Hni Hnd'].
    split_and!; [split; simpl; [done|]| | |done]; [| |apply Hget].
    + intros j Hj. rewrite list_lookup_insert_ne by (intros ->; done).
      apply Hempty. by right.
    + unfold records_get; simpl. rewrite Hi. simpl. by case_bool_decide.
Qed.

Lemma records_insert_done r rec :
  free_ok r → (N.of_nat (length (rec_slots r)) ≤ u32_max)%N →
  is_done (records_insert r rec) = true.
Proof.
  intros [Hnd Hempty] Hlen. unfold records_insert, records_pick.
  destruct (rec_free r) as [|i free] eqn:Hfree.
  - rewrite bool_decide_true by done. simpl.
    by rewrite lookup_app_r, Nat.sub_diag by lia.
  - destruct (Hempty i) as [g Hi]; [left|]. simpl. by rewrite Hi.
Qed.

(** Removing drops exactly the record named by the id. *)
Lemma records_remove_spec r id r' rec :
  free_ok r → records_remove r id = (r', Some rec) →
  free_ok r' ∧ records_get r id = Some rec ∧
  (∀ id', records_get r' id' = if decide (id' = id) then None else records_get r id') ∧
  live_accesses (rec_slots r) ≡ₚ rec_accesses rec ++ live_accesses (rec_slots r').
Proof.
  intros [Hnd Hempty]. unfold records_remove.
  destruct (rec_slots r !! run_slot id) as [[g o]|] eqn:Hi; [|done].
  case_bool_decide as Hg; [done|]. simpl in Hg. subst g.
  destruct o as [rec0|]; [|done]. simpl.
  assert (∀ h free,
    let r' := MkRecords (<[run_slot id := MkSlot h None]> (rec_slots r)) free in
    (∀ id', records_get r' id' = if decide (id' = id) then None else records_get r id') ∧
    live_accesses (rec_slots r) ≡ₚ rec_accesses rec0 ++ live_accesses (rec_slots r')) as Hdrop.
  { intros h free r1. split.
    - intros [j k]. unfold records_get, r1; simpl. destruct (decide (j = run_slot id)) as [->|Hne].
      + rewrite list_lookup_insert_eq by (by eapply lookup_lt_Some). rewrite Hi; simpl.
        repeat case_bool_decide; repeat case_decide; try done.
        all: destruct id; simpl in *; congruence.
      + rewrite list_lookup_insert_ne by done. rewrite decide_False; [done|].
        intros <-. done.
    - symmetry. apply (live_accesses_insert _ _ _ _ (MkSlot h None) Hi). }
  assert (run_slot id ∉ rec_free r) as Hnotin.
  { intros Hin. destruct (Hempty _ Hin) as [g Hg]. congruence. }
  unfold u32_checked_succ. case_bool_decide; intros [= <- <-].
  - split_and!; [split; simpl| |apply Hdrop..].
    + by constructor.
    + intros j [->|Hj]%elem_of_cons.
      * rewrite list_lookup_insert_eq by (by eapply lookup_lt_Some). eauto.
      * rewrite list_lookup_insert_ne by (intros <-; done). by apply Hempty.
    + apply records_get_Some. by rewrite Hi.
  - split_and!; [split; simpl| |apply Hdrop..].
    + done.
    + intros j Hj. rewrite list_lookup_insert_ne by (intros <-; done). by apply Hempty.
    + apply records_get_Some. by rewrite Hi.
Qed.

Lemma records_remove_None r id r' :
  records_remove r id = (r', None) → records_get r id = None.
Proof.
  unfold records_remove, records_get.
  destruct (rec_slots r !! run_slot id) as [[g o]|]; simpl; [|done].
  do 2 case_bool_decide; try done. destruct o; [|done]. by destruct (u32_checked_succ g).
Qed.

(** ** The operations implement the specification *)

Lemma represents_free_ok r t : represents r t → free_ok (records r).
Proof. intros Hr. split; apply Hr. Qed.

Lemma represents_lookup r t id o accs :
  represents r t → t !! id = Some (o, accs) →
  ∃ rec, records_get (records r) id = Some rec ∧
         record_of (components r) (o, accs) rec.
Proof.
  intros Hr Ht. pose proof (rp_records _ _ Hr id) as Hid. rewrite Ht in Hid.
  inversion Hid; subst. eauto.
Qed.

Lemma represents_get r t id rec :
  represents r t → records_get (records r) id = Some rec →
  ∃ accs, t !! id = Some (rec_owner rec, accs) ∧
          record_of (components r) (rec_owner rec, accs) rec.
Proof.
  intros Hr Hg. pose proof (rp_records _ _ Hr id) as Hid. rewrite Hg in Hid.
  inversion Hid as [[o accs] ? Hrec Ho|]; subst.
  pose proof Hrec as (Howner & _). simpl in Howner. subst o. eauto.
Qed.

Lemma represents_range r t a :
  represents r t → a ∈ live_accesses (rec_slots (records r)) →
  res_component a < length (comp_slots (components r)).
Proof.
  intros Hr (i & g & rec & Hi & Ha)%live_accesses_inv.
  assert (records_get (records r) (MkRunId i g) = Some rec) as Hg
    by (by apply records_get_Some).
  apply (represents_get _ _ _ _ Hr) in Hg as (accs & _ & _ & Hres & _).
  apply list_elem_of_lookup in Ha as [j Hj].
  destruct (Forall2_lookup_r _ _ _ _ _ Hres Hj) as (b & _ & Hb & _).
  by eapply (wc_range _ (rp_components _ _ Hr)).
Qed.

Lemma resolved_range cs accs rs a :
  wf_components cs → Forall2 (resolves cs) accs rs → a ∈ rs →
  res_component a < length (comp_slots cs).
Proof.
  intros Hwf Hres [j Hj]%list_elem_of_lookup.
  destruct (Forall2_lookup_r _ _ _ _ _ Hres Hj) as (b & _ & Hb & _).
  by eapply wc_range.
Qed.

Lemma writes_resolved cs accs rs :
  Forall2 (resolves cs) accs rs →
  existsb (λ a, is_write (res_kind a)) rs = Spec.writes accs.
Proof.
  unfold Spec.writes. induction 1 as [|a r accs rs (_ & _ & Hk) _ IH]; simpl; [done|].
  by rewrite IH, Hk.
Qed.

Lemma clashes_resolved r t cs accs rs :
  represents r t → wf_components cs → extends (components r) cs →
  Forall2 (resolves cs) accs rs →
  existsb (λ a, existsb (resolved_conflicts a) (live_accesses (rec_slots (records r)))) rs = true
  ↔ Spec.clashes t accs.
Proof.
  intros Hr Hwf Hext Hres. rewrite existsb_elem_of. setoid_rewrite existsb_elem_of. split.
  - intros (ra & Hra & rb & (i & g & rec & Hi & Hrb)%live_accesses_inv & Hc).
    assert (records_get (records r) (MkRunId i g) = Some rec) as Hg
      by (by apply records_get_Some).
    apply (represents_get _ _ _ _ Hr) in Hg as (held & Ht & _ & Hheld & _).
    apply list_elem_of_lookup in Hra as [j Hj]. apply list_elem_of_lookup in Hrb as [k Hk].
    destruct (Forall2_lookup_r _ _ _ _ _ Hres Hj) as (a & Ha & Hra).
    destruct (Forall2_lookup_r _ _ _ _ _ Hheld Hk) as (b & Hb & Hrb).
    exists a, (MkRunId i g), (rec_owner rec), held, b.
    split_and!; [by eapply list_elem_of_lookup_2|done|by eapply list_elem_of_lookup_2|].
    rewrite (access_conflicts_resolved cs a b ra rb); eauto using extends_resolves.
  - intros (a & id & o & held & b & Ha & Ht & Hb & Hc).
    destruct (represents_lookup _ _ _ _ _ Hr Ht) as (rec & Hg & _ & Hheld & _).
    apply list_elem_of_lookup in Ha as [j Hj]. apply list_elem_of_lookup in Hb as [k Hk].
    destruct (Forall2_lookup_l _ _ _ _ _ Hres Hj) as (ra & Hra & Hara).
    destruct (Forall2_lookup_l _ _ _ _ _ Hheld Hk) as (rb & Hrb & Hbrb).
    exists ra. split; [by eapply list_elem_of_lookup_2|]. exists rb.
    split; [eapply live_accesses_elem; eauto; by eapply list_elem_of_lookup_2|].
    erewrite <-access_conflicts_resolved; eauto using extends_resolves.
Qed.

Lemma record_of_extends cs cs' p rec :
  extends cs cs' → record_of cs p rec → record_of cs' p rec.
Proof.
  intros Hext (? & Hres & ?). split_and!; [done| |done].
  eapply Forall2_impl; [|exact Hres]. intros a ra. by apply extends_resolves.
Qed.

(** Growing the component indices alone does not change what is represented. *)
Lemma represents_components r t cs :
  represents r t → wf_components cs → extends (components r) cs →
  all_counted (comp_slots cs) (live_accesses (rec_slots (records r))) →
  represents (MkReservations (owners r) (records r) cs) t.
Proof.
  intros Hr Hwf Hext Hc. destruct Hr as [_ _ Hrecs Hown Hnd Hfree]. split; simpl; try done.
  intros id. specialize (Hrecs id). inversion Hrecs as [p rec Hrec|]; constructor.
  by eapply record_of_extends.
Qed.

Lemma running_owner r t o :
  represents r t → Spec.running t o ↔ is_Some (owners r !! o).
Proof.
  intros Hr. split.
  - intros (id & accs & Ht). exists id. apply (rp_owners _ _ Hr). eauto.
  - intros [id (accs & Ht)%(rp_owners _ _ Hr)]. by exists id, accs.
Qed.

(** Admission, run case. *)
Lemma represents_admit r t cs slots recs o accs rs id :
  represents r t → wf_components cs → extends (components r) cs →
  Forall2 (resolves cs) accs rs → owners r !! o = None →
  length slots = length (comp_slots cs) →
  all_counted slots (rs ++ live_accesses (rec_slots (records r))) →
  records_insert (records r) (MkRecord o rs (Spec.writes accs)) = Done (recs, id) →
  t !! id = None ∧
  represents (MkReservations (<[o := id]> (owners r)) recs (with_slots cs slots))
    (<[id := (o, accs)]> t).
Proof.
  intros Hr Hwf Hext Hres Hno Hlen Hcount Hins.
  destruct (records_insert_spec _ _ _ _ (represents_free_ok _ _ Hr) Hins)
    as ([Hnd Hempty] & Hnone & Hget & Hlive).
  assert (t !! id = None) as Hid.
  { pose proof (rp_records _ _ Hr id) as Hid. rewrite Hnone in Hid. by inversion Hid. }
  split; [done|]. split; simpl; [| | | |done|done].
  - split; simpl; [|apply Hwf]. rewrite Hlen. apply Hwf.
  - eapply all_counted_perm; [|done]. by rewrite Hlive.
  - intros id'. rewrite Hget, lookup_insert. destruct (decide (id' = id)) as [->|Hne].
    + rewrite decide_True by done. constructor. by split_and!.
    + rewrite decide_False by done. pose proof (rp_records _ _ Hr id') as Hid'.
      inversion Hid' as [p rec Hrec|]; constructor. by eapply record_of_extends.
  - intros o' id'. rewrite lookup_insert_Some. setoid_rewrite lookup_insert_Some.
    rewrite (rp_owners _ _ Hr). split.
    + intros [[<- <-]|[Ho (l & Hl)]]; [eauto|]. exists l. right. split; [|done]. congruence.
    + intros (l & [[<- [= <- <-]]|[Hne Hl]]); [by left|]. right. split; [|eauto].
      intros <-. assert (is_Some (owners r !! o)) as [? ?]; [|congruence].
      exists id'. apply (rp_owners _ _ Hr). eauto.
Qed.

Lemma resolve_all_represents r t accs cs rs :
  represents r t → resolve_all (components r) accs = (cs, rs) →
  wf_components cs ∧ extends (components r) cs ∧ Forall2 (resolves cs) accs rs ∧
  all_counted (comp_slots cs) (live_accesses (rec_slots (records r))) ∧
  (∀ a, a ∈ rs → res_component a < length (comp_slots cs)).
Proof.
  intros Hr Hres.
  destruct (resolve_all_spec accs _ _ _ (live_accesses (rec_slots (records r)))
    (rp_components _ _ Hr) (rp_counts _ _ Hr) (λ b, represents_range _ _ b Hr) Hres)
    as (Hwf & Hc & Hext & Hlen & Hall).
  split_and!; try done. intros a. by eapply resolved_range.
Qed.

Lemma admit_refines_aux r t o accs r' out :
  represents r t → admit_invocation r o accs = Done (r', out) →
  ∃ t', Spec.admits t o accs t' out ∧ represents r' t'.
Proof.
  intros Hr. unfold admit_invocation. destruct (owners r !! o) as [id0|] eqn:Ho.
  { intros [= <- <-]. exists t. split; [|done]. constructor.
    apply (running_owner _ _ _ Hr). by rewrite Ho. }
  assert (¬ Spec.running t o) as Hrun.
  { rewrite (running_owner _ _ _ Hr), Ho. by intros []. }
  destruct (resolve_all (components r) accs) as [cs rs] eqn:Hresolve.
  destruct (resolve_all_represents _ _ _ _ _ Hr Hresolve) as (Hwf & Hext & Hres & Hc & Hrange).
  rewrite (any_conflicts_spec _ _ _ Hc Hrange). simpl.
  pose proof (clashes_resolved _ _ _ _ _ Hr Hwf Hext Hres) as Hclash.
  destruct (existsb _ rs) eqn:Hconf.
  { intros [= <- <-]. exists t. split; [constructor; tauto|]. by apply represents_components. }
  assert (¬ Spec.clashes t accs) as Hno by (rewrite <-Hclash; done).
  destruct (slots_add_spec rs _ _ Hc Hrange) as (slots & -> & Hslots & Hlen). simpl.
  rewrite (writes_resolved _ _ _ Hres).
  intros ([recs id] & Hins & [= <- <-])%bind_Done.
  destruct (represents_admit _ _ _ _ _ _ _ _ _ Hr Hwf Hext Hres Ho Hlen Hslots Hins).
  eexists. split; [by constructor|done].
Qed.

Lemma remove_aux r t id :
  represents r t →
  ∃ r', remove r id = Done (r', fst <$> (t !! id)) ∧ represents r' (delete id t).
Proof.
  intros Hr. unfold remove. pose proof (rp_records _ _ Hr id) as Hid.
  destruct (records_remove (records r) id) as [recs [rec|]] eqn:Hrem; last first.
  { exists r. assert (t !! id = None) as Hnone.
    { rewrite (records_remove_None _ _ _ Hrem) in Hid. by inversion Hid. }
    rewrite Hnone, delete_id by done. done. }
  destruct (records_remove_spec _ _ _ _ (represents_free_ok _ _ Hr) Hrem)
    as ([Hnd Hempty] & Hget & Hget' & Hlive).
  destruct (represents_get _ _ _ _ Hr Hget) as (accs & Ht & _ & Hres & _).
  rewrite Ht. simpl.
  assert (owners r !! rec_owner rec = Some id) as Hown by (apply (rp_owners _ _ Hr); eauto).
  rewrite Hown, bool_decide_true by done. simpl.
  destruct (slots_remove_spec (rec_accesses rec) (comp_slots (components r))
    (live_accesses (rec_slots recs))) as (slots & -> & Hslots & Hlen).
  { eapply all_counted_perm; [apply Hlive|]. apply Hr. }
  { intros a. eapply resolved_range; [apply Hr|done]. }
  simpl. eexists. split; [done|]. split; simpl; [| | | |done|done].
  - split; simpl; [|apply Hr]. rewrite Hlen. apply Hr.
  - done.
  - intros id'. rewrite Hget', lookup_delete. destruct (decide (id' = id)) as [->|Hne].
    + rewrite decide_True by done. constructor.
    + rewrite decide_False by done. apply Hr.
  - intros o' id'. rewrite lookup_delete_Some. setoid_rewrite lookup_delete_Some.
    rewrite (rp_owners _ _ Hr). split.
    + intros [Hne (l & Hl)]. exists l. split; [|done]. intros <-. congruence.
    + intros (l & Hne & Hl). split; [|eauto]. intros <-.
      assert (owners r !! rec_owner rec = Some id'); [|congruence].
      apply (rp_owners _ _ Hr). eauto.
Qed.

(** ** Reachable tables *)

Lemma represents_new sch : dense sch → represents (reservations_new sch) ∅.
Proof.
  intros [Hrange Hinj].
  assert (∀ ty, index_of (components (reservations_new sch)) ty = sch !! ty) as Hidx.
  { intros ty. unfold index_of; simpl. rewrite lookup_empty. by destruct (sch !! ty). }
  split; simpl.
  - split; intros *; rewrite ?Hidx; simpl; rewrite ?length_replicate; eauto.
  - intros c ca [-> _]%lookup_replicate. by apply counts_exactly_default.
  - intros id. rewrite lookup_empty. constructor.
  - intros o id. rewrite lookup_empty. setoid_rewrite lookup_empty. naive_solver.
  - constructor.
  - set_solver.
Qed.

(** One scheduler step: any admission, completion or cancellation. *)
Inductive step : Reservations → Reservations → Prop :=
  | step_admit r o accs r' out : admit_invocation r o accs = Done (r', out) → step r r'
  | step_remove r id r' out : remove r id = Done (r', out) → step r r'
  | step_cancel r r' : cancel_readers r = Done r' → step r r'.

(** The ids of the non-writing records. *)
Lemma elem_of_reader_ids slots id :
  id ∈ reader_ids slots ↔
  ∃ rec, slots !! run_slot id = Some (MkSlot (run_generation id) (Some rec)) ∧
         rec_writer rec = false.
Proof.
  unfold reader_ids. rewrite list_elem_of_omap. split.
  - intros ([i sl] & Hin & Hm). apply elem_of_lookup_imap in Hin as (j & s & Heq & Hj).
    injection Heq as -> ->. simpl in Hm. destruct s as [g [rec|]]; simpl in Hm; [|done].
    destruct (rec_writer rec) eqn:Hw; [done|]. injection Hm as <-. eauto.
  - intros (rec & Hi & Hw). exists (run_slot id, MkSlot (run_generation id) (Some rec)).
    split; [|simpl; rewrite Hw; by destruct id].
    apply elem_of_lookup_imap. eauto.
Qed.

Lemma remove_all_aux ids r t :
  represents r t →
  ∃ r', fold_result (λ r id, '(r', _) ← remove r id; Done r') r ids = Done r' ∧
        represents r' (foldr delete t ids).
Proof.
  revert r t. induction ids as [|id ids IH]; intros r t Hr; simpl; [eauto|].
  destruct (remove_aux r t id Hr) as (r1 & -> & Hr1). simpl.
  destruct (IH r1 _ Hr1) as (r2 & -> & Hr2). exists r2. split; [done|].
  enough (foldr delete (delete id t) ids = delete id (foldr delete t ids)) as <- by done.
  clear. induction ids as [|id' ids IH]; simpl; [done|]. by rewrite IH, delete_delete.
Qed.

Lemma cancel_readers_aux r t :
  represents r t →
  ∃ r', cancel_readers r = Done r' ∧
        represents r' (filter (λ p, Spec.writes p.2.2 = true) t).
Proof.
  intros Hr. destruct (remove_all_aux (reader_ids (rec_slots (records r))) r t Hr)
    as (r' & Hrun & Hr'). exists r'. split; [done|].
  enough (filter (λ p, Spec.writes p.2.2 = true) t
          = foldr delete t (reader_ids (rec_slots (records r)))) as -> by done.
  apply map_eq. intros id. apply option_eq. intros [o accs].
  rewrite map_lookup_filter_Some, lookup_foldr_delete_Some. simpl.
  rewrite elem_of_reader_ids. split.
  - intros [Ht Hw]. split; [|done]. intros (rec & Hi & Hrw).
    destruct (represents_lookup _ _ _ _ _ Hr Ht) as (rec' & Hg & _ & _ & Hw').
    apply records_get_Some in Hg. simpl in Hw'. congruence.
  - intros [Hni Ht]. split; [done|].
    destruct (represents_lookup _ _ _ _ _ Hr Ht) as (rec & Hg & _ & _ & Hw').
    apply records_get_Some in Hg. simpl in Hw'. rewrite <-Hw'.
    apply not_false_is_true. intros Hf. apply Hni. eauto.
Qed.

(** *** Retired ids *)

(** An id no later operation can bring back: its slot has moved to a later
    generation, or is exhausted (empty and no longer on the free stack). *)
Definition dead (r : Records) (id : RunId) : Prop :=
  ∃ s, rec_slots r !! run_slot id = Some s ∧
    ((run_generation id < slot_generation s)%N ∨
     (slot_generation s = run_generation id ∧ slot_record s = None ∧
      run_slot id ∉ rec_free r)).

Lemma dead_get r id : dead r id → records_get r id = None.
Proof.
  intros (s & Hs & Hd). unfold records_get. rewrite Hs. simpl.
  case_bool_decide; [|done]. destruct Hd as [?|(_ & ? & _)]; [lia|done].
Qed.

Lemma dead_insert r rec r' id' id :
  records_insert r rec = Done (r', id') → dead r id → dead r' id.
Proof.
  unfold records_insert, records_pick. intros H (s & Hs & Hd).
  pose proof (lookup_lt_Some _ _ _ Hs) as Hlt. unfold dead.
  destruct (rec_free r) as [|i free] eqn:Hfree.
  - case_bool_decide; [|discriminate]. simpl in H.
    rewrite lookup_app_r, Nat.sub_diag in H by lia. simpl in H. injection H as <- <-. simpl.
    exists s. rewrite list_lookup_insert_ne, lookup_app_l by lia. split; [done|].
    destruct Hd as [?|(?&?&?)]; [by left|right]. split_and!; [done..|set_solver].
  - simpl in H. destruct (rec_slots r !! i) as [[g o]|] eqn:Hi; [|done]. simpl in H.
    case_bool_decide; [|done]. injection H as <- <-. simpl.
    destruct (decide (i = run_slot id)) as [->|Hne].
    + rewrite list_lookup_insert_eq by done. eexists; split; [done|]. simpl.
      destruct Hd as [?|(?&?&Hni)]; [left; naive_solver|set_solver].
    + rewrite list_lookup_insert_ne by done. exists s. split; [done|].
      destruct Hd as [?|(?&?&?)]; [by left|right]. split_and!; [done..|set_solver].
Qed.

Lemma dead_remove r id' r' rec id :
  records_remove r id' = (r', Some rec) → dead r id → dead r' id.
Proof.
  unfold records_remove. intros H (s & Hs & Hd).
  pose proof (lookup_lt_Some _ _ _ Hs) as Hlt. unfold dead.
  destruct (rec_slots r !! run_slot id') as [[g o]|] eqn:Hi; [|done].
  case_bool_decide as Hg; [done|]. simpl in *. destruct o as [rec'|]; [|done].
  destruct (decide (run_slot id' = run_slot id)) as [Heq|Hne].
  - rewrite Heq in *. rewrite Hs in Hi. injection Hi as ->. simpl in *.
    destruct Hd as [?|(?&?&?)]; [|done].
    destruct (u32_checked_succ g) as [n|] eqn:En; injection H as <- <-; simpl;
      rewrite list_lookup_insert_eq by done; (eexists; split; [done|]); left; simpl; [|done].
    apply u32_checked_succ_Some in En. lia.
  - destruct (u32_checked_succ g) as [n|]; injection H as <- <-; simpl;
      rewrite list_lookup_insert_ne by done; (exists s; split; [done|]);
      (destruct Hd as [?|(?&?&?)]; [by left|right]); split_and!; try done; set_solver.
Qed.

Lemma dead_removed r id r' rec :
  free_ok r → records_remove r id = (r', Some rec) → dead r' id.
Proof.
  intros [Hnd Hempty]. unfold records_remove, dead.
  destruct (rec_slots r !! run_slot id) as [[g o]|] eqn:Hi; [|done].
  pose proof (lookup_lt_Some _ _ _ Hi) as Hlt.
  case_bool_decide as Hg; [done|]. simpl in *. destruct o as [rec'|]; [|done].
  destruct (u32_checked_succ g) as [n|] eqn:En; intros [= <- <-]; simpl;
    rewrite list_lookup_insert_eq by done; (eexists; split; [done|]); simpl.
  - apply u32_checked_succ_Some in En. left. lia.
  - right. split_and!; [done|done|]. intros Hin.
    destruct (Hempty _ Hin) as [? ?]. congruence.
Qed.

Lemma dead_remove_op r id' r' out id :
  remove r id' = Done (r', out) → dead (records r) id → dead (records r') id.
Proof.
  unfold remove. destruct (records_remove (records r) id') as [recs [rec|]] eqn:Hrem;
    [|by intros [= <- <-]].
  intros H Hd. inv_done. by eapply dead_remove.
Qed.

Lemma dead_admit r o accs r' out id :
  admit_invocation r o accs = Done (r', out) → dead (records r) id → dead (records r') id.
Proof.
  unfold admit_invocation. destruct (owners r !! o); [by intros [= <- <-]|].
  destruct (resolve_all (components r) accs) as [cs rs].
  intros (conflict & _ & H)%bind_Done Hd. destruct conflict; [by injection H as <- <-|].
  apply bind_Done in H as (slots & _ & H). apply bind_Done in H as ([recs nid] & Hins & H).
  injection H as <- <-. by eapply dead_insert.
Qed.

Lemma dead_step r r' id : step r r' → dead (records r) id → dead (records r') id.
Proof.
  intros [r1 o accs r2 out H|r1 id' r2 out H|r1 r2 H] Hd.
  - by eapply dead_admit.
  - by eapply dead_remove_op.
  - unfold cancel_readers in H. revert H.
    apply (fold_result_inv (λ r, dead (records r) id)); [|done].
    intros s id' s' _ Hs ([s1 out] & Hrem & [= ->])%bind_Done. by eapply dead_remove_op.
Qed.

Lemma dead_steps r r' id : rtc step r r' → dead (records r) id → dead (records r') id.
Proof. induction 1; eauto using dead_step. Qed.

Lemma records_insert_get r rec r' id :
  records_insert r rec = Done (r', id) → records_get r' id = Some rec.
Proof.
  unfold records_insert. intros ([i r1] & _ & H)%bind_Done.
  apply bind_Done in H as ([g o] & Hi%expect_Done & H).
  apply bind_Done in H as ([] & _ & H). injection H as <- <-.
  apply records_get_Some. simpl.
  by rewrite list_lookup_insert_eq by (by eapply lookup_lt_Some).
Qed.

(** Every step keeps the represented table exclusive and single flight. *)
Lemma step_represents r r' t :
  step r r' → represents r t → Spec.exclusive t → Spec.single_flight t →
  ∃ t', represents r' t' ∧ Spec.exclusive t' ∧ Spec.single_flight t'.
Proof.
  assert (∀ t t' : Spec.table, t' ⊆ t → Spec.exclusive t → Spec.single_flight t →
    Spec.exclusive t' ∧ Spec.single_flight t') as Hsub.
  { intros t1 t2 Hle Hex Hsf. split; intros id1 id2 *; intros;
      [eapply (Hex id1 id2)|eapply (Hsf id1 id2)]; eauto using lookup_weaken. }
  intros [r1 o accs r2 out H|r1 id' r2 out H|r1 r2 H] Hr Hex Hsf.
  - destruct (admit_refines_aux _ _ _ _ _ _ Hr H) as (t' & Hadm & Hr').
    exists t'. split_and!; eauto using Spec.admits_exclusive, Spec.admits_single_flight.
  - destruct (remove_aux _ _ id' Hr) as (r3 & Hrem & Hr3). rewrite Hrem in H.
    injection H as <- <-. exists (delete id' t). split; [done|].
    apply (Hsub t); [apply delete_subseteq|done..].
  - destruct (cancel_readers_aux _ _ Hr) as (r3 & Hc & Hr3). rewrite Hc in H.
    injection H as <-. eexists. split; [done|].
    apply (Hsub t); [apply map_filter_subseteq|done..].
Qed.

Lemma steps_represents r r' t :
  rtc step r r' → represents r t → Spec.exclusive t → Spec.single_flight t →
  ∃ t', represents r' t' ∧ Spec.exclusive t' ∧ Spec.single_flight t'.
Proof.
  intros H. revert t. induction H as [r|r r1 r2 Hs _ IH]; intros t Hr Hex Hsf; [eauto|].
  destruct (step_represents _ _ _ Hs Hr Hex Hsf) as (t1 & ?&?&?). eauto.
Qed.

Lemma admit_total_aux r t o accs :
  represents r t → (N.of_nat (length (rec_slots (records r))) ≤ u32_max)%N →
  is_done (admit_invocation r o accs) = true.
Proof.
  intros Hr Hlen. unfold admit_invocation. destruct (owners r !! o) as [id0|]; [done|].
  destruct (resolve_all (components r) accs) as [cs rs] eqn:Hresolve.
  destruct (resolve_all_represents _ _ _ _ _ Hr Hresolve) as (Hwf & Hext & Hres & Hc & Hrange).
  rewrite (any_conflicts_spec _ _ _ Hc Hrange). simpl. destruct (existsb _ rs); [done|].
  destruct (slots_add_spec rs _ _ Hc Hrange) as (slots & -> & _). simpl.
  pose proof (records_insert_done (records r)
    (MkRecord o rs (existsb (λ a, is_write (res_kind a)) rs))
    (represents_free_ok _ _ Hr) Hlen) as Hins.
  destruct (records_insert _ _) as [[recs id]|]; done.
Qed.

(** ** Properties *)

(** C1: admitting an invocation does exactly what the pairwise rule says, on
    every branch.  If its identity is already running it is a [Duplicate]; if
    one of its accesses conflicts with an access held by anybody in flight it
    is a [Conflict]; otherwise it runs under an id nobody held, and the table
    then holds exactly one more entry. *)
Theorem admit_refines r t o accs r' out :
  represents r t → admit_invocation r o accs = Done (r', out) →
  ∃ t', Spec.admits t o accs t' out ∧ represents r' t'.
Proof. apply admit_refines_aux. Qed.

(** Admission never panics while fewer than 2^32 execution slots exist:
    no counter lookup is out of range and no free slot is occupied. *)
Theorem admit_total r t o accs :
  represents r t → (N.of_nat (length (rec_slots (records r))) ≤ u32_max)%N →
  is_done (admit_invocation r o accs) = true.
Proof. apply admit_total_aux. Qed.

(** Completing a run always returns; it releases exactly the accesses of
    that run, reports its owner, and is a no-op on an id that is not in flight. *)
Theorem remove_refines r t id :
  represents r t →
  ∃ r', remove r id = Done (r', fst <$> (t !! id)) ∧ represents r' (delete id t).
Proof. apply remove_aux. Qed.

(** Preemption cancels exactly the runs without a write reservation:
    every writer keeps its id, its owner and its accesses. *)
Theorem cancel_readers_refines r t :
  represents r t →
  ∃ r', cancel_readers r = Done r' ∧
        represents r' (filter (λ p, Spec.writes p.2.2 = true) t).
Proof. apply cancel_readers_aux. Qed.

(** C2: whatever sequence of admissions, completions and cancellations ran,
    no two runs in flight conflict and no invocation is in flight twice. *)
Theorem reachable_exclusive sch r :
  dense sch → rtc step (reservations_new sch) r →
  ∃ t, represents r t ∧ Spec.exclusive t ∧ Spec.single_flight t.
Proof.
  intros Hd Hs. eapply steps_represents; [done|by apply represents_new|..];
    intros ?? *; by rewrite lookup_empty.
Qed.

(** A retired id never comes back: after its run completed, no later
    sequence of steps makes it live again and no admission hands it out, even
    when the generation counter of its slot is exhausted. *)
Theorem retired_never_returns r t id r1 o r2 :
  represents r t → remove r id = Done (r1, Some o) → rtc step r1 r2 →
  contains r2 id = false ∧
  ∀ o' accs r3 id', admit_invocation r2 o' accs = Done (r3, inl id') → id' ≠ id.
Proof.
  intros Hr Hrem Hs.
  assert (dead (records r1) id) as Hd1.
  { unfold remove in Hrem.
    destruct (records_remove (records r) id) as [recs [rec|]] eqn:Hrr; [|done].
    inv_done. eapply dead_removed; [by eapply represents_free_ok|done]. }
  assert (dead (records r2) id) as Hd2 by (by eapply dead_steps).
  split.
  { unfold contains. rewrite (dead_get _ _ Hd2). by apply bool_decide_eq_false. }
  intros o' accs r3 id' Hadm ->.
  pose proof (dead_get _ _ (dead_admit _ _ _ _ _ _ Hadm Hd2)) as Hnone.
  unfold admit_invocation in Hadm. destruct (owners r2 !! o'); [done|].
  destruct (resolve_all (components r2) accs) as [cs rs].
  apply bind_Done in Hadm as (conflict & _ & Hadm). destruct conflict; [done|].
  apply bind_Done in Hadm as (slots & _ & Hadm).
  apply bind_Done in Hadm as ([recs nid] & Hins & Hadm). injection Hadm as <- <-.
  simpl in Hnone. apply records_insert_get in Hins. congruence.
Qed.

(** ** Concrete runs *)

Definition demo_schema : gmap TypeId nat := <[1%N := 0]> {[2%N := 1]}.
Definition demo_owner : SystemInvocation := Invocation 3 [7%N].
Definition demo_accs : list Access := [access_read 1 7; access_write 2 7].
Definition demo_id : RunId := MkRunId 0 0.
Definition demo_new : Reservations := reservations_new demo_schema.
Definition demo_run : Reservations :=
  match admit_invocation demo_new demo_owner demo_accs with Done (r, _) => r | Panic _ => demo_new end.
Definition demo_after : Reservations :=
  match remove demo_run demo_id with Done (r, _) => r | Panic _ => demo_run end.

Lemma demo_dense : dense demo_schema.
Proof.
  split.
  - intros ty i. unfold demo_schema. rewrite lookup_insert_Some, lookup_singleton_Some.
    change (size demo_schema) with 2. intros [[_ <-]|(_ & _ & <-)]; vm_compute; lia.
  - intros ty1 ty2 i. unfold demo_schema.
    rewrite !lookup_insert_Some, !lookup_singleton_Some. naive_solver.
Qed.

Lemma demo_admit : admit_invocation demo_new demo_owner demo_accs = Done (demo_run, inl demo_id).
Proof. vm_compute. reflexivity. Qed.

Lemma demo_represents : represents demo_run {[demo_id := (demo_owner, demo_accs)]}.
Proof.
  destruct (admit_refines_aux _ _ _ _ _ _ (represents_new _ demo_dense) demo_admit)
    as (t' & Hadm & Hr). inversion Hadm; subst. by rewrite insert_empty in Hr.
Qed.

Lemma admit_refines_witness :
  ∃ t', Spec.admits ∅ demo_owner demo_accs t' (inl demo_id) ∧ represents demo_run t'.
Proof.
  apply (admit_refines demo_new ∅ demo_owner demo_accs demo_run (inl demo_id)).
  - apply represents_new, demo_dense.
  - vm_compute. reflexivity.
Defined.

Lemma admit_total_witness :
  is_done (admit_invocation demo_run (Invocation 4 [7%N]) [access_read 2 7]) = true.
Proof.
  apply (admit_total demo_run _ _ _ demo_represents). vm_compute. discriminate.
Defined.

Lemma remove_refines_witness :
  ∃ r', remove demo_run demo_id = Done (r', Some demo_owner) ∧
        represents r' (delete demo_id {[demo_id := (demo_owner, demo_accs)]}).
Proof. apply (remove_refines demo_run _ demo_id demo_represents). Defined.

Lemma cancel_readers_refines_witness :
  ∃ r', cancel_readers demo_run = Done r' ∧
    represents r' (filter (λ p, Spec.writes p.2.2 = true)
                     {[demo_id := (demo_owner, demo_accs)]}).
Proof. apply (cancel_readers_refines demo_run _ demo_represents). Defined.

Lemma reachable_exclusive_witness :
  ∃ t, represents demo_run t ∧ Spec.exclusive t ∧ Spec.single_flight t.
Proof.
  apply (reachable_exclusive demo_schema demo_run demo_dense).
  apply rtc_once. eapply step_admit. apply demo_admit.
Defined.

Lemma retired_never_returns_witness :
  contains demo_after demo_id = false ∧
  ∀ o' accs r3 id', admit_invocation demo_after o' accs = Done (r3, inl id') → id' ≠ demo_id.
Proof.
  apply (retired_never_returns demo_run {[demo_id := (demo_owner, demo_accs)]} demo_id
           demo_after demo_owner demo_after).
  - apply demo_represents.
  - vm_compute. reflexivity.
  - apply rtc_refl.
Defined.
