(* ===== verification/Presence.v ===== *)
(** * Presence bitmaps ([world.rs], [PresenceIndex])

    One bit per (entity, component of the schema's universe), in a flat
    row-major array of 64-bit words.  Row matching reads this array instead of
    probing the stores.  The specification is the relation [present]; the
    theorems say that the three readers ([mask] with [matches], and
    [entities_matching]) answer exactly that relation, and that the two
    writers change it at exactly one pair, and at exactly one entity.

    [usize] products such as [entity * stride] are unbounded naturals here: the
    array of that length is allocated before any of them could wrap. *)
From stdpp Require Import base numbers sets gmap fin_maps sorting list.
From S2P Require Import Prelude.

#[local] Arguments Nat.div : simpl never.
#[local] Arguments Nat.modulo : simpl never.

(** ** The universe ([BowlBuilder::build]) *)

Record ShapeDesc := MkShape {
  shape_name : N;
  shape_required : list TypeId;
  shape_optional : list TypeId;
}.

(** Pushes a type the universe does not contain yet. *)
Definition universe_push (universe : list TypeId) (ty : TypeId) : list TypeId :=
  if bool_decide (ty ∈ universe) then universe else universe ++ [ty].

Definition universe_of (shapes : list ShapeDesc) : list TypeId :=
  fold_left (λ u s, fold_left universe_push (shape_required s ++ shape_optional s) u)
    shapes [].

(** ** The index *)

Record PresenceIndex := MkPresence {
  bit_for : gmap TypeId nat;
  stride : nat;
  bits : list N;
}.

(** [.enumerate().map(|(index, ty)| (ty, index)).collect::<HashMap<_, _>>()]:
    the last of two equal keys wins. *)
Definition collect_bits (universe : list TypeId) : gmap TypeId nat :=
  fold_left (λ m '(i, ty), <[ty := i]> m) (imap pair universe) ∅.

Definition presence_new (universe : list TypeId) : PresenceIndex :=
  let bit_for := collect_bits universe in
  MkPresence bit_for (Nat.max ((size bit_for + 63) / 64) 1) [].

Definition presence_row (p : PresenceIndex) (e : Entity) : nat := N.to_nat e * stride p.

(** [1u64 << (bit % 64)] and its complement. *)
Definition flag (bit : nat) : N := N.shiftl 1 (N.of_nat (bit mod 64)).
Definition u64_not (w : N) : N := N.lxor w u64_max.

Definition presence_set (p : PresenceIndex) (ty : TypeId) (e : Entity) (present : bool)
    : result PresenceIndex :=
  match bit_for p !! ty with
  | None => Done p
  | Some bit =>
      let row := presence_row p e in
      if (length (bits p) <? row + stride p) && negb present then Done p
      else
        let bs := if length (bits p) <? row + stride p
                  then resize (row + stride p) 0%N (bits p) else bits p in
        let word := row + bit / 64 in
        w ← expect IndexOutOfRange (bs !! word);
        let w' := if present then N.lor w (flag bit) else N.land w (u64_not (flag bit)) in
        Done (MkPresence (bit_for p) (stride p) (<[word := w']> bs))
  end.

(** [bits[row..row + stride].fill(0)] *)
Definition presence_clear_entity (p : PresenceIndex) (e : Entity) : result PresenceIndex :=
  let row := presence_row p e in
  if length (bits p) <=? row then Done p
  else
    _ ← check IndexOutOfRange (row + stride p <=? length (bits p));
    Done (MkPresence (bit_for p) (stride p)
            (take row (bits p) ++ replicate (stride p) 0%N ++ drop (row + stride p) (bits p))).

(** [mask[(bit / 64) as usize] |= 1u64 << (bit % 64)] for each type, giving up
    ([None]) at the first type outside the universe. *)
Fixpoint mask_types (p : PresenceIndex) (mask : list N) (tys : list TypeId)
    : result (option (list N)) :=
  match tys with
  | [] => Done (Some mask)
  | ty :: tys =>
      match bit_for p !! ty with
      | None => Done None
      | Some bit =>
          w ← expect IndexOutOfRange (mask !! (bit / 64));
          mask_types p (<[bit / 64 := N.lor w (flag bit)]> mask) tys
      end
  end.

Definition presence_mask (p : PresenceIndex) (tys : list TypeId) : result (option (list N)) :=
  mask_types p (replicate (stride p) 0%N) tys.

(** [mask.iter().zip(words).all(|(m, w)| w & m == *m)] *)
Definition words_cover (mask words : list N) : bool :=
  forallb (λ '(m, w), bool_decide (N.land w m = m)) (zip mask words).

Definition presence_matches (p : PresenceIndex) (e : Entity) (mask : list N) : bool :=
  let row := presence_row p e in
  if length (bits p) <? row + stride p
  then forallb (λ w, bool_decide (w = 0%N)) mask
  else words_cover mask (take (stride p) (drop row (bits p))).

Definition entities_matching (p : PresenceIndex) (mask : list N) : list Entity :=
  omap (λ row, if words_cover mask (take (stride p) (drop (row * stride p) (bits p)))
               then Some (N.of_nat row) else None)
       (seq 0 (length (bits p) / stride p)).

(** ** Specification *)

(** The bit the array holds for one pair; nothing is stored past its end. *)
Definition word_at (p : PresenceIndex) (i : nat) : N := default 0%N (bits p !! i).

Definition present (p : PresenceIndex) (ty : TypeId) (e : Entity) : Prop :=
  ∃ bit, bit_for p !! ty = Some bit ∧
    N.testbit (word_at p (presence_row p e + bit / 64)) (N.of_nat (bit mod 64)) = true.

Record wf_presence (p : PresenceIndex) : Prop := {
  wp_stride : 0 < stride p;
  wp_inj ty1 ty2 b : bit_for p !! ty1 = Some b → bit_for p !! ty2 = Some b → ty1 = ty2;
  wp_range ty b : bit_for p !! ty = Some b → b / 64 < stride p;
  wp_rows : ∃ n, length (bits p) = n * stride p;
  wp_word w : w ∈ bits p → (w ≤ u64_max)%N;
}.

(** ** The universe has no duplicates, so the bits are dense *)

Lemma universe_push_NoDup u ty : NoDup u → NoDup (universe_push u ty).
Proof.
  intros Hu. unfold universe_push. case_bool_decide as Hin; [done|].
  apply NoDup_app. split; [done|]. split; [|apply NoDup_singleton]. set_solver.
Qed.

Lemma universe_push_elem u ty x : x ∈ universe_push u ty ↔ x ∈ u ∨ x = ty.
Proof. unfold universe_push. case_bool_decide; set_solver. Qed.

Lemma universe_push_all l u :
  NoDup u → NoDup (fold_left universe_push l u) ∧
            ∀ x, x ∈ fold_left universe_push l u ↔ x ∈ u ∨ x ∈ l.
Proof.
  revert u. induction l as [|ty l IH]; intros u Hu; simpl.
  - split; [done|set_solver].
  - destruct (IH (universe_push u ty)) as [Hnd Hin]; [by apply universe_push_NoDup|].
    split; [done|]. intros x. rewrite Hin, universe_push_elem. set_solver.
Qed.

Lemma universe_of_spec shapes :
  NoDup (universe_of shapes) ∧
  ∀ ty, ty ∈ universe_of shapes ↔
        ∃ s, s ∈ shapes ∧ (ty ∈ shape_required s ∨ ty ∈ shape_optional s).
Proof.
  unfold universe_of.
  enough (∀ u, NoDup u →
    NoDup (fold_left (λ u s, fold_left universe_push (shape_required s ++ shape_optional s) u)
             shapes u) ∧
    ∀ ty, ty ∈ fold_left (λ u s, fold_left universe_push (shape_required s ++ shape_optional s) u)
             shapes u ↔
          ty ∈ u ∨ ∃ s, s ∈ shapes ∧ (ty ∈ shape_required s ∨ ty ∈ shape_optional s)) as H.
  { destruct (H []) as [? Hin]; [constructor|]. split; [done|]. intros ty. rewrite Hin. set_solver. }
  induction shapes as [|s shapes IH]; intros u Hu; simpl; [split; [done|set_solver]|].
  destruct (universe_push_all (shape_required s ++ shape_optional s) u Hu) as [Hnd Hin].
  destruct (IH _ Hnd) as [Hnd' Hin']. split; [done|].
  intros ty. rewrite Hin', Hin, elem_of_app. set_solver.
Qed.

Lemma collect_bits_snoc universe ty :
  collect_bits (universe ++ [ty]) = <[ty := length universe]> (collect_bits universe).
Proof.
  unfold collect_bits. rewrite imap_app, fold_left_app. simpl. by rewrite Nat.add_0_r.
Qed.

Lemma collect_bits_lookup universe ty i :
  NoDup universe → collect_bits universe !! ty = Some i ↔ universe !! i = Some ty.
Proof.
  induction universe as [|x universe IH] using rev_ind; intros Hnd; [done|].
  apply NoDup_app in Hnd as (Hnd & Hx & _).
  rewrite collect_bits_snoc, lookup_insert_Some, lookup_app_Some, IH by done.
  rewrite list_lookup_singleton_Some. split.
  - intros [[-> <-]|[Hne Hi]]; [right; split; [done|]; split; [lia|done]|by left].
  - intros [Hi|(Hlen & Hi & ->)]; [right|left; split; [done|lia]].
    split; [|done]. intros ->. apply (Hx ty); [by eapply list_elem_of_lookup_2|left].
Qed.

Lemma collect_bits_size universe : NoDup universe → size (collect_bits universe) = length universe.
Proof.
  induction universe as [|x universe IH] using rev_ind; intros Hnd; [done|].
  apply NoDup_app in Hnd as (Hnd & Hx & _).
  rewrite collect_bits_snoc, map_size_insert_None, IH, length_app; [simpl; lia|done|].
  apply eq_None_not_Some. intros [i Hi%collect_bits_lookup]; [|done].
  apply (Hx x); [by eapply list_elem_of_lookup_2|left].
Qed.

Lemma wf_presence_new universe : NoDup universe → wf_presence (presence_new universe).
Proof.
  intros Hnd. unfold presence_new. split; cbn [bit_for stride bits].
  - lia.
  - intros ty1 ty2 b H1%collect_bits_lookup H2%collect_bits_lookup; [congruence|done..].
  - intros ty b Hb%collect_bits_lookup%lookup_lt_Some; [|done].
    rewrite collect_bits_size by done.
    apply Nat.Div0.div_lt_upper_bound.
    enough (length universe ≤ 64 * ((length universe + 63) / 64)) by lia.
    pose proof (Nat.div_mod_eq (length universe + 63) 64).
    pose proof (Nat.mod_upper_bound (length universe + 63) 64). lia.
  - by exists 0.
  - set_solver.
Qed.

(** ** Words *)

Lemma flag_testbit bit k :
  k < 64 → N.testbit (flag bit) (N.of_nat k) = bool_decide (k = bit mod 64).
Proof.
  intros Hk. unfold flag. rewrite N.shiftl_1_l, N.pow2_bits_eqb.
  apply eq_true_iff_eq. rewrite N.eqb_eq, bool_decide_eq_true. lia.
Qed.

Lemma mod64_lt n : n mod 64 < 64.
Proof. by apply Nat.mod_upper_bound. Qed.

Lemma bit_eq a b : a / 64 = b / 64 → a mod 64 = b mod 64 → a = b.
Proof. intros. pose proof (Nat.div_mod_eq a 64). pose proof (Nat.div_mod_eq b 64). lia. Qed.

Lemma word_bit i k : k < 64 → (64 * i + k) / 64 = i ∧ (64 * i + k) mod 64 = k.
Proof.
  intros Hk. split; symmetry;
    [by apply (Nat.div_unique _ 64 _ k)|by apply (Nat.mod_unique _ 64 i)].
Qed.

Lemma u64_max_testbit k : k < 64 → N.testbit u64_max (N.of_nat k) = true.
Proof.
  intros Hk. change u64_max with (N.ones 64). apply N.ones_spec_low. lia.
Qed.

Lemma set_testbit w bit k (present : bool) :
  k < 64 →
  N.testbit (if present then N.lor w (flag bit) else N.land w (u64_not (flag bit))) (N.of_nat k)
  = if decide (k = bit mod 64) then present else N.testbit w (N.of_nat k).
Proof.
  intros Hk. destruct present.
  - rewrite N.lor_spec, flag_testbit by done.
    case_bool_decide; case_decide; try done; [apply orb_true_r|apply orb_false_r].
  - unfold u64_not. rewrite N.land_spec, N.lxor_spec, u64_max_testbit, flag_testbit by done.
    case_bool_decide; case_decide; try done; [apply andb_false_r|apply andb_true_r].
Qed.

Lemma N_le_u64_max w : (w ≤ u64_max)%N ↔ ∀ k, (64 ≤ k)%N → N.testbit w k = false.
Proof.
  split.
  - intros Hw k Hk. destruct (decide (w = 0%N)) as [->|Hne]; [apply N.bits_0|].
    apply N.bits_above_log2. apply N.log2_lt_pow2; [lia|].
    assert (2 ^ 64 ≤ 2 ^ k)%N by (by apply N.pow_le_mono_r). unfold u64_max in Hw. lia.
  - intros Hb. assert (w = N.land w (N.ones 64)) as ->.
    { apply N.bits_inj. intros k. rewrite N.land_spec.
      destruct (decide (k < 64)%N); [rewrite N.ones_spec_low by done; by rewrite andb_true_r|].
      rewrite N.ones_spec_high, andb_false_r by lia. apply Hb. lia. }
    rewrite N.land_ones. unfold u64_max.
    pose proof (N.mod_upper_bound w (2 ^ 64)). lia.
Qed.

Lemma word_op_range w bit (present : bool) :
  (w ≤ u64_max)%N →
  ((if present then N.lor w (flag bit) else N.land w (u64_not (flag bit))) ≤ u64_max)%N.
Proof.
  rewrite !N_le_u64_max. intros Hw k Hk. destruct present.
  - rewrite N.lor_spec, Hw by done. unfold flag. rewrite N.shiftl_1_l, N.pow2_bits_eqb.
    apply N.eqb_neq. pose proof (mod64_lt bit). lia.
  - by rewrite N.land_spec, Hw.
Qed.

(** A word covers a mask when it has every bit of the mask. *)
Lemma land_covers w m :
  (m ≤ u64_max)%N →
  N.land w m = m ↔
  ∀ k, k < 64 → N.testbit m (N.of_nat k) = true → N.testbit w (N.of_nat k) = true.
Proof.
  intros Hle. pose proof (proj1 (N_le_u64_max m) Hle) as Hm. split.
  - intros Heq k _ Hk. rewrite <-Heq, N.land_spec, andb_true_iff in Hk. by destruct Hk.
  - intros Hcov. apply N.bits_inj. intros k. rewrite N.land_spec.
    destruct (N.testbit m k) eqn:Hmk; [|apply andb_false_r]. rewrite andb_true_r.
    destruct (decide (64 ≤ k)%N); [by rewrite Hm in Hmk|].
    rewrite <-(N2Nat.id k) in *. apply Hcov; [lia|done].
Qed.

(** *** Setting one bit *)

(** Growing the array to hold one more row keeps every word. *)
Definition grow (p : PresenceIndex) (e : Entity) : list N :=
  if length (bits p) <? presence_row p e + stride p
  then resize (presence_row p e + stride p) 0%N (bits p) else bits p.

Lemma grow_lookup p e i : default 0%N (grow p e !! i) = word_at p i.
Proof.
  unfold grow, word_at. destruct (Nat.ltb_spec (length (bits p)) (presence_row p e + stride p));
    [|done].
  destruct (decide (i < length (bits p))) as [Hi|Hi]; [by rewrite lookup_resize by lia|].
  rewrite (lookup_ge_None_2 (bits p)) by lia.
  destruct (decide (i < presence_row p e + stride p)).
  - by rewrite lookup_resize_new by lia.
  - by rewrite lookup_resize_old by lia.
Qed.

Lemma grow_length p e : presence_row p e + stride p ≤ length (grow p e).
Proof.
  unfold grow. destruct (Nat.ltb_spec (length (bits p)) (presence_row p e + stride p)); [|lia].
  by rewrite length_resize.
Qed.

Lemma grow_rows p e :
  wf_presence p → ∃ n, length (grow p e) = n * stride p.
Proof.
  intros Hwf. unfold grow, presence_row.
  destruct (Nat.ltb_spec (length (bits p)) (N.to_nat e * stride p + stride p)).
  - exists (S (N.to_nat e)). rewrite length_resize. lia.
  - apply Hwf.
Qed.

Lemma grow_word p e w : wf_presence p → w ∈ grow p e → (w ≤ u64_max)%N.
Proof.
  intros Hwf [i Hi]%list_elem_of_lookup.
  assert (w = word_at p i) as -> by (rewrite <-(grow_lookup p e i), Hi; done).
  unfold word_at. destruct (bits p !! i) eqn:E; simpl; [|vm_compute; discriminate].
  eapply wp_word; [done|]. by eapply list_elem_of_lookup_2.
Qed.

Lemma presence_set_grow p ty e b :
  presence_set p ty e b =
  match bit_for p !! ty with
  | None => Done p
  | Some bit =>
      if (length (bits p) <? presence_row p e + stride p) && negb b then Done p
      else
        w ← expect IndexOutOfRange (grow p e !! (presence_row p e + bit / 64));
        Done (MkPresence (bit_for p) (stride p)
          (<[presence_row p e + bit / 64 :=
              if b then N.lor w (flag bit) else N.land w (u64_not (flag bit))]> (grow p e)))
  end.
Proof. reflexivity. Qed.

(** Two word positions of the array name the same (entity, word) pair. *)
Lemma row_inj p e1 e2 w1 w2 :
  w1 < stride p → w2 < stride p →
  presence_row p e1 + w1 = presence_row p e2 + w2 → e1 = e2 ∧ w1 = w2.
Proof.
  unfold presence_row. intros H1 H2 Heq.
  destruct (Nat.div_mod_unique (stride p) (N.to_nat e1) (N.to_nat e2) w1 w2) as [Hq Hr];
    [done|done|lia|]. split; [by apply N2Nat.inj|done].
Qed.

(** What the array holds after one word was written. *)
Lemma present_written p ty e (b : bool) bit w ty' e' :
  wf_presence p → bit_for p !! ty = Some bit →
  w = word_at p (presence_row p e + bit / 64) →
  let w' := if b then N.lor w (flag bit) else N.land w (u64_not (flag bit)) in
  present (MkPresence (bit_for p) (stride p) (<[presence_row p e + bit / 64 := w']> (grow p e)))
    ty' e' ↔
  (ty' = ty ∧ e' = e ∧ b = true ∧ is_Some (Some bit)) ∨
  (¬ (ty' = ty ∧ e' = e) ∧ present p ty' e').
Proof.
  intros Hwf Hbit Hw w'. pose proof (wp_range _ Hwf _ _ Hbit) as Hlt.
  unfold present at 1. cbn [bit_for]. unfold word_at at 1. cbn [bits].
  change (presence_row (MkPresence (bit_for p) (stride p) _) e') with (presence_row p e').
  pose proof (grow_length p e) as Hlen. split.
  - intros (bit' & Hbit' & Ht). pose proof (wp_range _ Hwf _ _ Hbit') as Hlt'.
    destruct (decide (presence_row p e + bit / 64 = presence_row p e' + bit' / 64)) as [Heq|Hne].
    + rewrite <-Heq, list_lookup_insert_eq in Ht by lia. simpl in Ht.
      destruct (row_inj p e e' _ _ Hlt Hlt' Heq) as [<- Hdiv].
      unfold w' in Ht. rewrite set_testbit in Ht by apply mod64_lt.
      case_decide as Hmod.
      * left. subst b. split_and!; eauto.
        assert (bit' = bit) as -> by (by apply bit_eq).
        eapply wp_inj; eauto.
      * right. split; [intros [-> _]; by simplify_eq|]. exists bit'. split; [done|].
        by rewrite <-Heq, <-Hw.
    + rewrite list_lookup_insert_ne, grow_lookup in Ht by done. right.
      split; [|by exists bit']. intros [-> ->]. by simplify_eq.
  - intros [(-> & -> & -> & _)|[Hne (bit' & Hbit' & Ht)]].
    + exists bit. split; [done|]. rewrite list_lookup_insert_eq by lia. simpl.
      unfold w'. rewrite (set_testbit w bit _ true) by apply mod64_lt. by rewrite decide_True.
    + exists bit'. split; [done|]. pose proof (wp_range _ Hwf _ _ Hbit') as Hlt'.
      destruct (decide (presence_row p e + bit / 64 = presence_row p e' + bit' / 64)) as [Heq|Hi].
      * rewrite <-Heq, list_lookup_insert_eq by lia. simpl.
        unfold w'. rewrite set_testbit by apply mod64_lt.
        destruct (row_inj p e e' _ _ Hlt Hlt' Heq) as [<- Hdiv].
        rewrite decide_False; [by rewrite Hw, Heq|]. intros Hmod.
        assert (bit' = bit) as -> by (by apply bit_eq).
        apply Hne. split; [|done]. eapply wp_inj; eauto.
      * by rewrite list_lookup_insert_ne, grow_lookup.
Qed.

Lemma presence_set_aux p ty e b :
  wf_presence p →
  ∃ p', presence_set p ty e b = Done p' ∧ wf_presence p' ∧ bit_for p' = bit_for p ∧
    stride p' = stride p ∧
    ∀ ty' e', present p' ty' e' ↔
      (ty' = ty ∧ e' = e ∧ b = true ∧ is_Some (bit_for p !! ty)) ∨
      (¬ (ty' = ty ∧ e' = e) ∧ present p ty' e').
Proof.
  intros Hwf. rewrite presence_set_grow. destruct (bit_for p !! ty) as [bit|] eqn:Hbit.
  2:{ exists p. split_and!; try done. intros ty' e'. split.
      - intros Hp. right. split; [|done]. intros [-> ->]. destruct Hp as (? & ? & _). congruence.
      - intros [(_&_&_&[? ?])|[_ Hp]]; [congruence|done]. }
  pose proof (wp_range _ Hwf _ _ Hbit) as Hlt.
  destruct ((length (bits p) <? presence_row p e + stride p) && negb b) eqn:Hskip.
  { apply andb_true_iff in Hskip as [Hlen%Nat.ltb_lt Hb%negb_true_iff]. subst b.
    exists p. split_and!; try done. intros ty' e'. split; [|naive_solver].
    intros Hp. right. split; [|done]. intros [-> ->]. destruct Hp as (bit' & Hbit' & Ht).
    assert (length (bits p) ≤ presence_row p e) as Hle.
    { destruct (wp_rows _ Hwf) as [n Hn]. unfold presence_row in *. rewrite Hn in *.
      apply Nat.mul_le_mono_r. apply Nat.lt_succ_r.
      apply (Nat.mul_lt_mono_pos_r (stride p)); lia. }
    unfold word_at in Ht. by rewrite lookup_ge_None_2, N.bits_0 in Ht by lia. }
  pose proof (grow_length p e) as Hlen.
  destruct (lookup_lt_is_Some_2 (grow p e) (presence_row p e + bit / 64)) as [w Hw]; [lia|].
  rewrite Hw. simpl. eexists; split; [done|].
  assert (w = word_at p (presence_row p e + bit / 64)) as Hww
    by (by rewrite <-(grow_lookup p e), Hw).
  split_and!; try done.
  - split; cbn [bit_for stride bits]; try apply Hwf.
    + rewrite length_insert. by apply grow_rows.
    + intros w' [i Hi]%list_elem_of_lookup.
      apply list_lookup_insert_Some in Hi as [(<- & <- & _)|[_ Hi]].
      * apply word_op_range. eapply (grow_word p e); [done|]. by eapply list_elem_of_lookup_2.
      * eapply (grow_word p e); [done|]. by eapply list_elem_of_lookup_2.
  - intros ty' e'. by apply (present_written p ty e b bit).
Qed.

(** *** Clearing one row *)

Lemma row_fits p e :
  wf_presence p → presence_row p e < length (bits p) →
  presence_row p e + stride p ≤ length (bits p).
Proof.
  intros Hwf. destruct (wp_rows _ Hwf) as [n ->]. unfold presence_row. intros Hlt.
  assert (N.to_nat e < n) by (apply (Nat.mul_lt_mono_pos_r (stride p)); [apply Hwf|done]).
  rewrite <-Nat.mul_succ_l. by apply Nat.mul_le_mono_r.
Qed.

Lemma cleared_lookup {A} (l : list A) row n x i :
  row + n ≤ length l →
  (take row l ++ replicate n x ++ drop (row + n) l) !! i =
  if decide (row ≤ i < row + n) then Some x else l !! i.
Proof.
  intros Hlen. case_decide as Hi.
  - rewrite lookup_app_r, lookup_app_l by (rewrite ?length_take, ?length_replicate; lia).
    apply lookup_replicate. split; [done|]. rewrite length_take. lia.
  - destruct (decide (i < row)).
    + rewrite lookup_app_l, lookup_take_lt by (rewrite ?length_take; lia). done.
    + rewrite !lookup_app_r by (rewrite ?length_take, ?length_replicate; lia).
      rewrite lookup_drop, length_replicate, length_take. f_equal. lia.
Qed.

Lemma presence_clear_aux p e :
  wf_presence p →
  ∃ p', presence_clear_entity p e = Done p' ∧ wf_presence p' ∧ bit_for p' = bit_for p ∧
    stride p' = stride p ∧ ∀ ty e', present p' ty e' ↔ e' ≠ e ∧ present p ty e'.
Proof.
  intros Hwf. unfold presence_clear_entity.
  destruct (Nat.leb_spec (length (bits p)) (presence_row p e)) as [Hle|Hlt].
  { exists p. split_and!; try done. intros ty e'. split; [|naive_solver].
    intros Hp. split; [|done]. intros ->. destruct Hp as (bit & Hbit & Ht).
    unfold word_at in Ht. by rewrite lookup_ge_None_2, N.bits_0 in Ht by lia. }
  pose proof (row_fits _ _ Hwf Hlt) as Hfit.
  rewrite (proj2 (Nat.leb_le _ _) Hfit). simpl. eexists; split; [done|]. split_and!; try done.
  - split; cbn [bit_for stride bits]; try apply Hwf.
    + destruct (wp_rows _ Hwf) as [n Hn]. exists n.
      rewrite !length_app, length_take, length_replicate, length_drop. lia.
    + intros w [i Hi]%list_elem_of_lookup. rewrite cleared_lookup in Hi by done.
      case_decide; simplify_eq/=; [vm_compute; discriminate|].
      eapply wp_word; [done|]. by eapply list_elem_of_lookup_2.
  - intros ty e'. unfold present, word_at; cbn [bit_for bits].
    change (presence_row (MkPresence (bit_for p) (stride p) _) e') with (presence_row p e').
    split.
    + intros (bit & Hbit & Ht). pose proof (wp_range _ Hwf _ _ Hbit).
      rewrite cleared_lookup in Ht by done. case_decide as Hin; [by rewrite N.bits_0 in Ht|].
      split; [intros ->; lia|by exists bit].
    + intros (Hne & bit & Hbit & Ht). pose proof (wp_range _ Hwf _ _ Hbit).
      exists bit. split; [done|]. rewrite cleared_lookup by done.
      rewrite decide_False; [done|]. intros Hin.
      destruct (row_inj p e e' (presence_row p e' + bit / 64 - presence_row p e) (bit / 64));
        [lia|done|lia|]. congruence.
Qed.

(** *** Masks *)

(** The words of a mask that asks for the bits [P]. *)
Definition mask_of (n : nat) (P : nat → Prop) (mask : list N) : Prop :=
  length mask = n ∧
  ∀ i w, mask !! i = Some w →
    (w ≤ u64_max)%N ∧ ∀ k, k < 64 → N.testbit w (N.of_nat k) = true ↔ P (64 * i + k).

Lemma mask_of_iff n P Q mask : (∀ b, P b ↔ Q b) → mask_of n P mask → mask_of n Q mask.
Proof.
  intros HPQ [Hlen H]. split; [done|]. intros i w Hi. destruct (H i w Hi) as [Hw Hk].
  split; [done|]. intros k Hlt. by rewrite Hk, HPQ.
Qed.

Lemma mask_types_spec p tys mask P :
  wf_presence p → mask_of (stride p) P mask →
  ∃ out, mask_types p mask tys = Done out ∧
    match out with
    | None => ∃ ty, ty ∈ tys ∧ bit_for p !! ty = None
    | Some mask' =>
        mask_of (stride p) (λ b, P b ∨ ∃ ty, ty ∈ tys ∧ bit_for p !! ty = Some b) mask'
    end.
Proof.
  intros Hwf. revert mask P. induction tys as [|ty tys IH]; intros mask P Hmask; simpl.
  { eexists; split; [done|]. simpl. eapply mask_of_iff; [|done]. set_solver. }
  destruct (bit_for p !! ty) as [bit|] eqn:Hbit.
  2:{ eexists; split; [done|]. simpl. exists ty. split; [left|done]. }
  pose proof (wp_range _ Hwf _ _ Hbit) as Hlt. destruct Hmask as [Hlen Hmask].
  destruct (lookup_lt_is_Some_2 mask (bit / 64)) as [w Hw]; [lia|]. rewrite Hw. simpl.
  destruct (IH (<[bit / 64:=N.lor w (flag bit)]> mask) (λ b, P b ∨ b = bit)) as (out & Hout & Hspec).
  { split; [by rewrite length_insert|]. intros i w' Hi.
    apply list_lookup_insert_Some in Hi as [(<- & <- & _)|[Hne Hi]].
    - destruct (Hmask _ _ Hw) as [Hle Hk].
      split; [apply (word_op_range w bit true Hle)|]. intros k Hk'.
      rewrite (set_testbit w bit k true Hk'). case_decide as Hmod.
      + split; [|done]. intros _. right. rewrite Hmod. symmetry. apply Nat.div_mod_eq.
      + rewrite Hk by done. split; [by left|]. intros [?| Heq]; [done|]. exfalso. apply Hmod.
        rewrite <-Heq. symmetry. by apply word_bit.
    - destruct (Hmask _ _ Hi) as [Hle Hk]. split; [done|]. intros k Hk'.
      rewrite Hk by done. split; [by left|]. intros [?|Heq]; [done|]. exfalso. apply Hne.
      rewrite <-Heq. by apply word_bit. }
  exists out. split; [done|]. destruct out as [mask'|].
  - eapply mask_of_iff; [|done]. intros b; simpl. setoid_rewrite elem_of_cons.
    split; [intros [[?| ->]|(ty' & Hin & Hb)]|intros [?|(ty' & [->|Hin] & Hb)]]; eauto.
    simplify_eq. eauto.
  - destruct Hspec as (ty' & ? & ?). exists ty'. split; [by right|done].
Qed.

(** *** Matching *)

Lemma words_cover_spec mask words :
  words_cover mask words = true ↔
  ∀ i m w, mask !! i = Some m → words !! i = Some w → N.land w m = m.
Proof.
  unfold words_cover. rewrite forallb_elem_of. split.
  - intros H i m w Hm Hw. specialize (H (m, w)). rewrite bool_decide_eq_true in H.
    apply H. apply list_elem_of_lookup. exists i. by apply lookup_zip_Some.
  - intros H [m w] [i Hi]%list_elem_of_lookup. apply lookup_zip_Some in Hi as [Hm Hw].
    apply bool_decide_eq_true. by eapply H.
Qed.

(** The row of [e] covers the mask exactly when every asked bit is set. *)
Lemma row_covers p e mask P :
  wf_presence p → mask_of (stride p) P mask → (∀ b, P b → b / 64 < stride p) →
  presence_row p e + stride p ≤ length (bits p) →
  words_cover mask (take (stride p) (drop (presence_row p e) (bits p))) = true ↔
  ∀ b, P b → N.testbit (word_at p (presence_row p e + b / 64)) (N.of_nat (b mod 64)) = true.
Proof.
  intros Hwf [Hlen Hmask] Hrange Hfit. rewrite words_cover_spec. unfold word_at. split.
  - intros Hcov b Hb. pose proof (Hrange _ Hb) as Hlt.
    destruct (lookup_lt_is_Some_2 mask (b / 64)) as [m Hm]; [lia|].
    destruct (lookup_lt_is_Some_2 (bits p) (presence_row p e + b / 64)) as [w Hw]; [lia|].
    rewrite Hw. simpl. destruct (Hmask _ _ Hm) as [Hle Hbits].
    refine (proj1 (land_covers w m Hle) _ (b mod 64) (mod64_lt b) _).
    + apply (Hcov (b / 64)); [done|]. by rewrite lookup_take_lt, lookup_drop by done.
    + apply Hbits; [apply mod64_lt|]. by rewrite <-Nat.div_mod_eq.
  - intros Hall i m w Hm Hw. destruct (Hmask _ _ Hm) as [Hle Hbits].
    pose proof (lookup_lt_Some _ _ _ Hm) as Hi.
    rewrite lookup_take_lt, lookup_drop in Hw by lia.
    apply land_covers; [done|]. intros k Hk Hmk%Hbits; [|done].
    specialize (Hall _ Hmk).
    destruct (word_bit i k Hk) as [Hdiv Hmod]. rewrite Hdiv, Hmod, Hw in Hall. done.
Qed.

(** The mask of a conjunction asks for the bits of its types. *)
Lemma presence_mask_spec p tys :
  wf_presence p →
  ∃ out, presence_mask p tys = Done out ∧
    match out with
    | None => ∃ ty, ty ∈ tys ∧ bit_for p !! ty = None
    | Some mask => mask_of (stride p) (λ b, ∃ ty, ty ∈ tys ∧ bit_for p !! ty = Some b) mask ∧
                   ∀ ty, ty ∈ tys → is_Some (bit_for p !! ty)
    end.
Proof.
  intros Hwf. unfold presence_mask.
  destruct (mask_types_spec p tys (replicate (stride p) 0%N) (λ _, False) Hwf) as (out & Hout & H).
  { split; [apply length_replicate|]. intros i w [-> _]%lookup_replicate.
    split; [vm_compute; discriminate|]. intros k _. rewrite N.bits_0. by split. }
  exists out. split; [done|]. destruct out as [mask|]; [|done]. split.
  - eapply mask_of_iff; [|done]. set_solver.
  - clear H. revert Hout. generalize (replicate (stride p) 0%N). 
    induction tys as [|ty tys IH]; intros m; simpl; [set_solver|].
    destruct (bit_for p !! ty) as [bit|] eqn:Hbit; [|done].
    intros (w & _ & Hrest)%bind_Done ty' [->|Hin]%elem_of_cons; [by rewrite Hbit|].
    by eapply IH.
Qed.

Lemma covers_present p (tys : list TypeId) e :
  (∀ ty, ty ∈ tys → is_Some (bit_for p !! ty)) →
  (∀ b, (∃ ty, ty ∈ tys ∧ bit_for p !! ty = Some b) →
        N.testbit (word_at p (presence_row p e + b / 64)) (N.of_nat (b mod 64)) = true) ↔
  ∀ ty, ty ∈ tys → present p ty e.
Proof.
  intros Hknown. split.
  - intros H ty Hin. destruct (Hknown _ Hin) as [b Hb]. exists b. eauto.
  - intros H b (ty & Hin & Hb). destruct (H _ Hin) as (b' & Hb' & Ht). by simplify_eq.
Qed.

(** An entity past the end of the array carries nothing. *)
Lemma present_row p ty e :
  wf_presence p → present p ty e → presence_row p e + stride p ≤ length (bits p).
Proof.
  intros Hwf (b & Hb & Ht). apply row_fits; [done|].
  unfold word_at in Ht. destruct (bits p !! _) eqn:Hi; [|by rewrite N.bits_0 in Ht].
  apply lookup_lt_Some in Hi. lia.
Qed.

Lemma sorted_omap_seq (f : nat → bool) a n :
  StronglySorted N.lt (omap (λ r, if f r then Some (N.of_nat r) else None) (seq a n)) ∧
  ∀ e, e ∈ omap (λ r, if f r then Some (N.of_nat r) else None) (seq a n) → (N.of_nat a ≤ e)%N.
Proof.
  revert a. induction n as [|n IH]; intros a; simpl; [split; [constructor|set_solver]|].
  destruct (IH (S a)) as [Hs Hin]. destruct (f a); simpl.
  - split; [constructor; [done|]|].
    + apply Forall_forall. intros e He%Hin. lia.
    + intros e [->|He%Hin]%elem_of_cons; lia.
  - split; [done|]. intros e He%Hin. lia.
Qed.

Lemma sorted_rows p mask : StronglySorted N.lt (entities_matching p mask).
Proof. apply (sorted_omap_seq (λ row, words_cover mask _)). Qed.

(** ** Properties *)

(** A write sets exactly one bit.  It never leaves the array, it keeps the
    layout, and afterwards the pair it named is present exactly when the write
    said so (and its type belongs to the universe); every other pair of every
    row is as before, in particular the other 63 bits of the same word. *)
Theorem presence_set_exact p ty e b :
  wf_presence p →
  ∃ p', presence_set p ty e b = Done p' ∧ wf_presence p' ∧ bit_for p' = bit_for p ∧
    stride p' = stride p ∧
    ∀ ty' e', present p' ty' e' ↔
      (ty' = ty ∧ e' = e ∧ b = true ∧ is_Some (bit_for p !! ty)) ∨
      (¬ (ty' = ty ∧ e' = e) ∧ present p ty' e').
Proof. apply presence_set_aux. Qed.

Lemma presence_matches_aux p tys mask e :
  wf_presence p → presence_mask p tys = Done (Some mask) →
  presence_matches p e mask = true ↔ ∀ ty, ty ∈ tys → present p ty e.
Proof.
  intros Hwf Hmask. destruct (presence_mask_spec p tys Hwf) as (out & Hout & Hspec).
  rewrite Hmask in Hout. injection Hout as <-. destruct Hspec as [Hof Hknown].
  unfold presence_matches.
  destruct (Nat.ltb_spec (length (bits p)) (presence_row p e + stride p)) as [Hlt|Hge].
  - rewrite <-(covers_present p tys e Hknown), forallb_elem_of. split.
    + intros Hz b Hb. exfalso. destruct Hof as [Hlen Hof], Hb as (ty & Hin & Hb).
      pose proof (wp_range _ Hwf _ _ Hb).
      destruct (lookup_lt_is_Some_2 mask (b / 64)) as [m Hm]; [lia|].
      specialize (Hz m). rewrite bool_decide_eq_true in Hz.
      rewrite Hz in Hm by (by eapply list_elem_of_lookup_2).
      destruct (Hof _ _ Hm) as [_ Hbits]. specialize (Hbits _ (mod64_lt b)).
      rewrite N.bits_0, <-Nat.div_mod_eq in Hbits. naive_solver.
    + intros Hall m [i Hm]%list_elem_of_lookup. apply bool_decide_eq_true.
      destruct (proj2 Hof _ _ Hm) as [Hle Hbits].
      apply N.bits_inj_0. intros k. apply not_true_is_false. intros Hk.
      assert (k < 64)%N as Hk64.
      { apply N.nle_gt. intros Hle'. by rewrite (proj1 (N_le_u64_max m) Hle k Hle') in Hk. }
      rewrite <-(N2Nat.id k) in Hk. apply Hbits in Hk as (ty & Hin & Hb); [|lia].
      assert (present p ty e) as Hp.
      { eexists; split; [done|]. apply Hall. eauto. }
      apply present_row in Hp; [lia|done].
  - rewrite (row_covers p e mask _ Hwf Hof); [by apply covers_present| |done].
    intros b (ty & _ & Hb). by eapply wp_range.
Qed.

(** Row matching by bits is the conjunction it stands for: with the mask
    of the required types, an entity matches exactly when every one of them is
    present on it, entities beyond the array included. *)
Theorem presence_matches_exact p tys mask e :
  wf_presence p → presence_mask p tys = Done (Some mask) →
  presence_matches p e mask = true ↔ ∀ ty, ty ∈ tys → present p ty e.
Proof. apply presence_matches_aux. Qed.

Lemma entities_matching_aux p tys mask :
  wf_presence p → presence_mask p tys = Done (Some mask) → tys ≠ [] →
  StronglySorted N.lt (entities_matching p mask) ∧
  ∀ e, e ∈ entities_matching p mask ↔ ∀ ty, ty ∈ tys → present p ty e.
Proof.
  intros Hwf Hmask Hne. destruct (presence_mask_spec p tys Hwf) as (out & Hout & Hspec).
  rewrite Hmask in Hout. injection Hout as <-. destruct Hspec as [Hof Hknown].
  split; [apply sorted_rows|]. intros e. unfold entities_matching.
  rewrite list_elem_of_omap. destruct (wp_rows _ Hwf) as [n Hn].
  pose proof (wp_stride _ Hwf) as Hs.
  assert (∀ r, r < n → presence_row p (N.of_nat r) + stride p ≤ length (bits p)) as Hfit.
  { intros r Hr. unfold presence_row. rewrite Nat2N.id, Hn, <-Nat.mul_succ_l.
    by apply Nat.mul_le_mono_r. }
  assert (∀ b, (∃ ty, ty ∈ tys ∧ bit_for p !! ty = Some b) → b / 64 < stride p) as Hrange.
  { intros b (ty & _ & Hb). by eapply wp_range. }
  rewrite Hn, Nat.div_mul by lia. split.
  - intros (r & Hr & Hcov). apply elem_of_seq in Hr. destruct (words_cover _ _) eqn:Hc; [|done].
    injection Hcov as <-. apply covers_present; [done|].
    apply (row_covers p (N.of_nat r) mask _ Hwf Hof Hrange); [apply Hfit; lia|].
    unfold presence_row. by rewrite Nat2N.id.
  - intros Hall. destruct tys as [|ty tys]; [done|].
    pose proof (present_row _ _ _ Hwf (Hall ty ltac:(left))) as Hfits.
    exists (N.to_nat e). split.
    + apply elem_of_seq. split; [lia|]. simpl. unfold presence_row in Hfits. rewrite Hn in Hfits.
      apply (Nat.mul_lt_mono_pos_r (stride p)); lia.
    + pose proof (proj2 (row_covers p e mask _ Hwf Hof Hrange Hfits)) as Hc.
      unfold presence_row in Hc. rewrite Hc; [by rewrite N2Nat.id|]. by apply covers_present.
Qed.

(** The scan for a nonempty conjunction lists exactly the matching
    entities, each once, in ascending order. *)
Theorem entities_matching_exact p tys mask :
  wf_presence p → presence_mask p tys = Done (Some mask) → tys ≠ [] →
  StronglySorted N.lt (entities_matching p mask) ∧
  ∀ e, e ∈ entities_matching p mask ↔ ∀ ty, ty ∈ tys → present p ty e.
Proof. apply entities_matching_aux. Qed.

(** The layout built from a schema is well formed: the universe collects
    every type of every shape once, so each type has its own bit inside the
    row, and the empty index holds nothing. *)
Theorem universe_layout shapes :
  let p := presence_new (universe_of shapes) in
  wf_presence p ∧
  (∀ ty, is_Some (bit_for p !! ty) ↔
         ∃ s, s ∈ shapes ∧ (ty ∈ shape_required s ∨ ty ∈ shape_optional s)) ∧
  (∀ ty b, bit_for p !! ty = Some b → b < size (bit_for p)) ∧
  ∀ ty e, ¬ present p ty e.
Proof.
  destruct (universe_of_spec shapes) as [Hnd Hin]. intros p.
  split; [by apply wf_presence_new|]. split; [|split].
  - intros ty. rewrite <-Hin. unfold p, presence_new; cbn [bit_for]. split.
    + intros [i Hi%collect_bits_lookup]; [|done]. by eapply list_elem_of_lookup_2.
    + intros [i Hi]%list_elem_of_lookup. exists i. by apply collect_bits_lookup.
  - unfold p, presence_new; cbn [bit_for]. intros ty b Hb%collect_bits_lookup; [|done].
    rewrite collect_bits_size by done. by eapply lookup_lt_Some.
  - intros ty e (b & _ & Ht). unfold word_at in Ht. change (bits p) with (@nil N) in Ht.
    by rewrite lookup_nil, N.bits_0 in Ht.
Qed.

(** Clearing an entity's row drops exactly its bits. *)
Theorem presence_clear_exact p e :
  wf_presence p →
  ∃ p', presence_clear_entity p e = Done p' ∧ wf_presence p' ∧ bit_for p' = bit_for p ∧
    stride p' = stride p ∧ ∀ ty e', present p' ty e' ↔ e' ≠ e ∧ present p ty e'.
Proof. apply presence_clear_aux. Qed.

(** ** Concrete runs *)

Definition demo_shapes : list ShapeDesc := [MkShape 0 [5; 9]%N [7%N]; MkShape 1 [9%N] []].
Definition demo_presence : PresenceIndex := presence_new (universe_of demo_shapes).

Lemma demo_wf : wf_presence demo_presence.
Proof. apply wf_presence_new, universe_of_spec. Qed.

Lemma presence_set_exact_witness :
  ∃ p', presence_set demo_presence 9 3 true = Done p' ∧ wf_presence p' ∧
    bit_for p' = bit_for demo_presence ∧ stride p' = stride demo_presence ∧
    ∀ ty' e', present p' ty' e' ↔
      (ty' = 9%N ∧ e' = 3%N ∧ true = true ∧ is_Some (bit_for demo_presence !! 9%N)) ∨
      (¬ (ty' = 9%N ∧ e' = 3%N) ∧ present demo_presence ty' e').
Proof. apply (presence_set_exact demo_presence 9 3 true demo_wf). Defined.

Lemma presence_clear_exact_witness :
  ∃ p', presence_clear_entity demo_presence 3 = Done p' ∧ wf_presence p' ∧
    bit_for p' = bit_for demo_presence ∧ stride p' = stride demo_presence ∧
    ∀ ty e', present p' ty e' ↔ e' ≠ 3%N ∧ present demo_presence ty e'.
Proof. apply (presence_clear_exact demo_presence 3 demo_wf). Defined.

Lemma presence_matches_exact_witness :
  presence_matches demo_presence 3 [3%N] = true ↔
  ∀ ty, ty ∈ [5%N; 9%N] → present demo_presence ty 3.
Proof.
  apply (presence_matches_exact demo_presence [5%N; 9%N] [3%N] 3 demo_wf).
  vm_compute. reflexivity.
Defined.

Lemma entities_matching_exact_witness :
  StronglySorted N.lt (entities_matching demo_presence [2%N]) ∧
  ∀ e, e ∈ entities_matching demo_presence [2%N] ↔
       ∀ ty, ty ∈ [9%N] → present demo_presence ty e.
Proof.
  apply (entities_matching_exact demo_presence [9%N] [2%N] demo_wf).
  - vm_compute. reflexivity.
  - discriminate.
Defined.
