(* ===== verification/Components.v ===== *)
(** * Component values and their behaviour ([component.rs])

    A component type is known to the engine through the methods of its
    [Component] trait only.  User crates implement that trait, so the class
    [ComponentTypes] is a parameter of the development; [RelationshipLaws]
    states what [RelationshipTarget] documents of a maintained inverse.  The
    one component the engine implements itself, [DerivedFrom], is modelled. *)
From stdpp Require Import base numbers sets gmap fin_maps list.
From S2P Require Import Prelude.

(** A source entity of a derived fact and the revision captured for it. *)
Record DerivedAnchor := MkAnchor { anchor_entity : Entity; anchor_revision : option Revision }.
#[export] Instance DerivedAnchor_eq_dec : EqDecision DerivedAnchor.
Proof. solve_decision. Defined.

Class ComponentTypes := {
  (** values of user components, all types together *)
  Payload : Type;
  (** [Component::tracked], [Component::fingerprint], [Component::singleton_key] *)
  ct_tracked : TypeId → bool;
  ct_fingerprint : TypeId → Payload → option N;
  ct_singleton_key : TypeId → option TypeId;
  (** [relationship_edge]: the inverse type maintained and the target entity *)
  ct_edge : TypeId → Payload → option (TypeId * Entity);
  (** [relationship_retractions]: edge types and the sources they are on *)
  ct_retractions : TypeId → Payload → list (TypeId * Entity);
  (** [relationship_members] and [RelationshipTarget::from_members] *)
  ct_members : TypeId → Payload → option (list Entity);
  ct_from_members : TypeId → list Entity → Payload;
  (** the type id of [DerivedFrom], and the standard hasher over its anchors *)
  ct_derived_from : TypeId;
  ct_hash_anchors : list DerivedAnchor → N;
}.

Section components.
Context `{ComponentTypes}.

(** A component value: a user payload, or a [DerivedFrom]. *)
Inductive Value :=
  | Plain (p : Payload)
  | Derived (anchors : list DerivedAnchor).

Definition value_tracked (ty : TypeId) : bool :=
  if bool_decide (ty = ct_derived_from) then false else ct_tracked ty.

Definition value_fingerprint (ty : TypeId) (v : Value) : option N :=
  match v with
  | Plain p => ct_fingerprint ty p
  | Derived anchors => Some (ct_hash_anchors anchors)
  end.

Definition value_singleton_key (ty : TypeId) : option TypeId :=
  if bool_decide (ty = ct_derived_from) then None else ct_singleton_key ty.

Definition value_edge (ty : TypeId) (v : Value) : option (TypeId * Entity) :=
  match v with Plain p => ct_edge ty p | Derived _ => None end.

Definition value_retractions (ty : TypeId) (v : Value) : list (TypeId * Entity) :=
  match v with Plain p => ct_retractions ty p | Derived _ => [] end.

Definition value_members (ty : TypeId) (v : Value) : option (list Entity) :=
  match v with Plain p => ct_members ty p | Derived _ => None end.

(** ** DerivedFrom *)

Definition derived_many (entities : list Entity) : list DerivedAnchor :=
  (λ e, MkAnchor e None) <$> entities.

Definition derived_entities (anchors : list DerivedAnchor) : list Entity :=
  anchor_entity <$> anchors.

Definition derived_capture (revision : Entity → option Revision) (anchors : list DerivedAnchor)
    : list DerivedAnchor :=
  (λ a, MkAnchor (anchor_entity a) (revision (anchor_entity a))) <$> anchors.

Definition derived_is_current (revision : Entity → option Revision)
    (anchors : list DerivedAnchor) : bool :=
  negb (bool_decide (anchors = []))
  && forallb (λ a, bool_decide (is_Some (anchor_revision a))
                   && bool_decide (anchor_revision a = revision (anchor_entity a))) anchors.

(** Right after capturing, a fact is current iff it has an anchor and every
    anchor is alive. *)
Lemma derived_is_current_capture revision anchors :
  derived_is_current revision (derived_capture revision anchors) = true ↔
  anchors ≠ [] ∧ ∀ e, e ∈ derived_entities anchors → is_Some (revision e).
Proof.
  unfold derived_is_current. rewrite andb_true_iff, negb_true_iff, bool_decide_eq_false.
  rewrite forallb_elem_of. unfold derived_capture, derived_entities.
  setoid_rewrite list_elem_of_fmap. split.
  - intros [Hne Hall]. split; [by intros ->|]. intros e (a & -> & Ha).
    specialize (Hall (MkAnchor (anchor_entity a) (revision (anchor_entity a)))).
    rewrite andb_true_iff, !bool_decide_eq_true in Hall. apply Hall. eauto.
  - intros [Hne Hall]. split; [by destruct anchors|]. intros x (a & -> & Ha).
    rewrite andb_true_iff, !bool_decide_eq_true. simpl. split; [|done]. apply Hall. eauto.
Qed.
End components.

(** ** Relationships

    [RelationshipTarget] ties an inverse type to its edge type.  [edge_of] is
    that association; the laws are what the trait documents: the edge component
    of a type always maintains the same inverse, an inverse stores exactly its
    member list, its retractions name one edge per member
    ([relationship_retractions_for]), and an inverse is itself neither an edge
    nor a singleton. *)
Class RelationshipLaws `{ComponentTypes} := {
  edge_of : TypeId → option TypeId;
  edge_of_inj inv1 inv2 ty : edge_of inv1 = Some ty → edge_of inv2 = Some ty → inv1 = inv2;
  edge_inverse ty p inv target : ct_edge ty p = Some (inv, target) → edge_of inv = Some ty;
  inverse_members inv ty ms : edge_of inv = Some ty → ct_members inv (ct_from_members inv ms) = Some ms;
  inverse_retractions inv ty p :
    edge_of inv = Some ty →
    ct_retractions inv p = (λ m, (ty, m)) <$> default [] (ct_members inv p);
  plain_retractions inv p : edge_of inv = None → ct_retractions inv p = [];
  inverse_no_edge inv ty p : edge_of inv = Some ty → ct_edge inv p = None;
  inverse_not_singleton inv ty : edge_of inv = Some ty → ct_singleton_key inv = None;
  inverse_not_derived : edge_of ct_derived_from = None;
}.
