(* ===== verification/Demo.v ===== *)
(** * A concrete set of components, for running the model

    Four component types: a number with a fingerprint, an edge to another
    entity, the inverse the engine maintains for that edge, and an untracked
    singleton marker.  The witnesses of the other files evaluate on them. *)
From stdpp Require Import base numbers sets gmap fin_maps list.
From S2P Require Import Prelude Components.

Inductive DemoPayload :=
  | DNum (n : N)
  | DEdge (target : Entity)
  | DMembers (members : list Entity)
  | DMarker.

Definition ty_num : TypeId := 1%N.
Definition ty_edge : TypeId := 2%N.
Definition ty_members : TypeId := 3%N.
Definition ty_marker : TypeId := 4%N.
Definition ty_derived : TypeId := 100%N.

(** Any function of the anchors will do for the hasher. *)
Definition demo_hash (anchors : list DerivedAnchor) : N :=
  foldr (λ a acc, acc * 31 + anchor_entity a + default 0 (anchor_revision a))%N 7%N anchors.

Definition demo_members_of (ty : TypeId) (p : DemoPayload) : option (list Entity) :=
  if bool_decide (ty = ty_members) then match p with DMembers ms => Some ms | _ => None end
  else None.

#[export] Instance demo_types : ComponentTypes := {
  Payload := DemoPayload;
  ct_tracked ty := negb (bool_decide (ty = ty_marker));
  ct_fingerprint ty p :=
    match p with
    | DNum n => Some n
    | DEdge t => Some t
    | DMembers ms => Some (foldr (λ e acc, acc * 31 + e + 1)%N 3%N ms)
    | DMarker => None
    end;
  ct_singleton_key ty := if bool_decide (ty = ty_marker) then Some ty_num else None;
  ct_edge ty p :=
    if bool_decide (ty = ty_edge) then match p with DEdge t => Some (ty_members, t) | _ => None end
    else None;
  ct_retractions ty p := (λ m, (ty_edge, m)) <$> default [] (demo_members_of ty p);
  ct_members := demo_members_of;
  ct_from_members ty ms := DMembers ms;
  ct_derived_from := ty_derived;
  ct_hash_anchors := demo_hash;
}.

#[export] Instance demo_laws : RelationshipLaws.
Proof.
  refine {| edge_of inv := if bool_decide (inv = ty_members) then Some ty_edge else None |};
    unfold ct_edge, ct_members, ct_from_members, ct_retractions, ct_singleton_key,
      ct_derived_from; simpl; unfold demo_members_of.
  - intros inv1 inv2 ty. do 2 case_bool_decide; naive_solver.
  - intros ty p inv target. case_bool_decide; [|done]. destruct p; naive_solver.
  - intros inv ty ms. by case_bool_decide.
  - intros inv ty p. case_bool_decide; [|done]. by intros [= <-].
  - intros inv p. by case_bool_decide.
  - intros inv ty p. case_bool_decide; [|done]. by subst.
  - intros inv ty. case_bool_decide; [|done]. by subst.
  - done.
Defined.

#[export] Instance demo_order : HashOrder := elements_order.

Definition v_num (n : N) : Value := @Plain demo_types (DNum n).
Definition v_edge (target : Entity) : Value := @Plain demo_types (DEdge target).
Definition v_members (ms : list Entity) : Value := @Plain demo_types (DMembers ms).
Definition v_marker : Value := @Plain demo_types DMarker.
