(* ===== verification/Stores.v ===== *)
(** * Component stores ([world.rs], [Store] and [world/stores.rs])

    One store per component type: entries by entity, an index from fingerprints
    to entities, and the store's change watermark.  Entries hold the address of
    their value: the payload lives in a cell that snapshots share.  [Stores]
    keeps the stores of the schema's types in a dense vector and all others in
    a map; the lemmas at the end say that together they are one map by type. *)
From stdpp Require Import base numbers sets gmap fin_maps sorting list.
From S2P Require Import Prelude Components.

(** Address of a [ComponentCell]. *)
Abbreviation CellId := N (only parsing).

(** [revision.0 += 1] on a [u64]. *)
Definition bump (revision : Revision) : result Revision :=
  expect Overflow (u64_checked_succ revision).

(** ** One store *)

Record ComponentEntry := MkEntry {
  entry_value : CellId;
  entry_revision : Revision;
  entry_fingerprint : option N;
  entry_owner : option SystemInvocation;
}.
#[export] Instance ComponentEntry_eq_dec : EqDecision ComponentEntry.
Proof. solve_decision. Defined.

Record Store := MkStore {
  entries : gmap Entity ComponentEntry;
  by_fingerprint : gmap N (gset Entity);
  watermark : Revision;
}.

Definition store_default : Store := MkStore ∅ ∅ 0.

Definition index_fingerprint (s : Store) (e : Entity) (f : option N) : Store :=
  match f with
  | None => s
  | Some f =>
      MkStore (entries s)
        (<[f := {[e]} ∪ default ∅ (by_fingerprint s !! f)]> (by_fingerprint s)) (watermark s)
  end.

Definition unindex_fingerprint (s : Store) (e : Entity) (f : option N) : Store :=
  match f with
  | None => s
  | Some f =>
      match by_fingerprint s !! f with
      | None => s
      | Some es =>
          let es' := es ∖ {[e]} in
          MkStore (entries s)
            (if bool_decide (es' = ∅) then delete f (by_fingerprint s)
             else <[f := es']> (by_fingerprint s)) (watermark s)
      end
  end.

Definition with_entries (s : Store) (m : gmap Entity ComponentEntry) : Store :=
  MkStore m (by_fingerprint s) (watermark s).

Definition bump_watermark (s : Store) (r : Revision) : Store :=
  MkStore (entries s) (by_fingerprint s) (N.max (watermark s) r).

Definition revision_for_entity (s : Store) (e : Entity) : option Revision :=
  entry_revision <$> entries s !! e.

(** A [BTreeMap] or [BTreeSet] iterates in ascending order. *)
Definition ascending (X : gset Entity) : list Entity := merge_sort N.le (elements X).

Definition store_entities (s : Store) : list Entity := ascending (dom (entries s)).

Definition fingerprint_bucket (s : Store) (f : N) : option (gset Entity) :=
  by_fingerprint s !! f.

(** The store part of [World::insert]: raise the watermark, replace the entry,
    and move it to its new fingerprint bucket. *)
Definition store_insert (s : Store) (e : Entity) (entry : ComponentEntry) : Store :=
  let s := bump_watermark s (entry_revision entry) in
  let previous := entries s !! e in
  let s := with_entries s (<[e := entry]> (entries s)) in
  match previous with
  | Some previous_entry =>
      if bool_decide (entry_fingerprint previous_entry ≠ entry_fingerprint entry)
      then index_fingerprint (unindex_fingerprint s e (entry_fingerprint previous_entry)) e
             (entry_fingerprint entry)
      else s
  | None => index_fingerprint s e (entry_fingerprint entry)
  end.

(** Dropping an entry from the map and from its bucket. *)
Definition store_drop (s : Store) (e : Entity) (removed : ComponentEntry) : Store :=
  unindex_fingerprint (with_entries s (delete e (entries s))) e (entry_fingerprint removed).

Section store.
Context `{ComponentTypes}.

(** [remove_entry_owned]: the entry, if [owner] still owns it. *)
Definition remove_entry_owned (s : Store) (ty : TypeId) (e : Entity) (owner : SystemInvocation)
    : Store * option bool :=
  match entries s !! e with
  | None => (s, None)
  | Some entry =>
      if bool_decide (entry_owner entry ≠ Some owner) then (s, None)
      else
        (store_drop s e entry, Some (value_tracked ty))
  end.

(** [StoreDyn::remove_entity]; the outer option reports whether an entry
    existed, the inner one its owner. *)
Definition store_remove_entity (s : Store) (e : Entity) (revision : Revision)
    : result (Store * Revision * option (option SystemInvocation)) :=
  match entries s !! e with
  | None => Done (s, revision, None)
  | Some removed =>
      let s := store_drop s e removed in
      revision ← bump revision;
      Done (bump_watermark s revision, revision, Some (entry_owner removed))
  end.

(** [changed]: the rule that decides whether an in-place write counts. *)
Definition write_changed (ty : TypeId) (before after : option N) : bool :=
  value_tracked ty && (bool_decide (before = None) || negb (bool_decide (before = after))).

(** [if before != after { unindex(before); index(after) }] *)
Definition reindex (s : Store) (e : Entity) (before after : option N) : Store :=
  if bool_decide (before = after) then s
  else index_fingerprint (unindex_fingerprint s e before) e after.

(** [reconcile_entry]; [after] is the fingerprint of the value in the cell. *)
Definition reconcile_entry (s : Store) (ty : TypeId) (e : Entity) (revision : Revision)
    (after : CellId → option N) : result (Store * Revision) :=
  match entries s !! e with
  | None => Done (s, revision)
  | Some entry =>
      let before := entry_fingerprint entry in
      let after := after (entry_value entry) in
      let changed := write_changed ty before after in
      revision ← (if changed then bump revision else Done revision);
      let entry := MkEntry (entry_value entry)
                     (if changed then revision else entry_revision entry)
                     after (entry_owner entry) in
      let s := with_entries s (<[e := entry]> (entries s)) in
      let s := if changed then bump_watermark s revision else s in
      Done (reindex s e before after, revision)
  end.
End store.

(** ** The container *)

Record Stores := MkStores {
  st_slots : list (TypeId * option Store);
  st_registry : gmap TypeId nat;
  st_fallback : gmap TypeId Store;
}.

Definition stores_default : Stores := MkStores [] ∅ ∅.

(** [types.sort_unstable_by_key(|(slot, _)| *slot)] *)
Definition by_slot (x y : nat * TypeId) : Prop := x.1 ≤ y.1.
#[export] Instance by_slot_dec x y : Decision (by_slot x y).
Proof. unfold by_slot. apply _. Defined.

Definition stores_with_registry (registry : gmap TypeId nat) : Stores :=
  let types := merge_sort by_slot ((λ '(ty, slot), (slot, ty)) <$> map_to_list registry) in
  MkStores ((λ '(_, ty), (ty, None)) <$> types) registry ∅.

Definition stores_slot (st : Stores) (ty : TypeId) : option nat := st_registry st !! ty.

(** Indexing the vector with a registered slot never goes out of range
    ([stores_index_in_range] below), so [get] and [get_mut] are total. *)
Definition stores_get (st : Stores) (ty : TypeId) : option Store :=
  match st_registry st !! ty with
  | Some slot => st_slots st !! slot ≫= snd
  | None => st_fallback st !! ty
  end.

Definition stores_get_slot (st : Stores) (slot : nat) (ty : TypeId) : option Store :=
  match st_slots st !! slot with
  | Some (actual, store) => if bool_decide (actual = ty) then store else stores_get st ty
  | None => stores_get st ty
  end.

(** Writing through the reference that [get_mut] or [get_or_insert] returns. *)
Definition stores_put (st : Stores) (ty : TypeId) (s : Store) : Stores :=
  match st_registry st !! ty with
  | Some slot =>
      MkStores (alter (λ p, (p.1, Some s)) slot (st_slots st)) (st_registry st) (st_fallback st)
  | None => MkStores (st_slots st) (st_registry st) (<[ty := s]> (st_fallback st))
  end.

Definition stores_get_or_insert (st : Stores) (ty : TypeId) : Store :=
  default store_default (stores_get st ty).

Definition stores_is_empty (st : Stores) : bool :=
  forallb (λ '(_, s), match s with None => true | Some _ => false end) (st_slots st)
  && bool_decide (st_fallback st = ∅).

(** [iter_mut], and its values [values]: the slots in order, then the others
    in the order of the hash map. *)
Definition stores_iter `{HashOrder} (st : Stores) : list (TypeId * Store) :=
  omap (λ '(ty, s), (λ s, (ty, s)) <$> s) (st_slots st)
  ++ omap (λ ty, (λ s, (ty, s)) <$> (st_fallback st !! ty)) (hash_iter (dom (st_fallback st))).

Definition stores_values `{HashOrder} (st : Stores) : list Store := snd <$> stores_iter st.

(** ** The container is a map by type *)

(** The slot of a registered type is labelled with it, and only registered
    types have a slot. *)
Record wf_stores (st : Stores) : Prop := {
  ws_slot ty i : st_registry st !! ty = Some i → ∃ s, st_slots st !! i = Some (ty, s);
  ws_registered i ty s : st_slots st !! i = Some (ty, s) → st_registry st !! ty = Some i;
  ws_fallback ty s : st_fallback st !! ty = Some s → st_registry st !! ty = None;
}.

Lemma stores_index_in_range st ty i :
  wf_stores st → st_registry st !! ty = Some i → i < length (st_slots st).
Proof. intros Hwf Hi. destruct (ws_slot _ Hwf _ _ Hi) as [s Hs]. by eapply lookup_lt_Some. Qed.

Lemma wf_stores_put st ty s : wf_stores st → wf_stores (stores_put st ty s).
Proof.
  intros Hwf. unfold stores_put. destruct (st_registry st !! ty) as [slot|] eqn:Hs; split; simpl.
  - intros ty' i Hi. destruct (ws_slot _ Hwf _ _ Hi) as [s' Hs'].
    rewrite list_lookup_alter. case_decide; subst; rewrite Hs'; simpl; eauto.
  - intros i ty' s'. rewrite list_lookup_alter. case_decide as Hi.
    + subst i. destruct (st_slots st !! slot) as [[ty0 s0]|] eqn:E; simpl; [|done].
      intros [= <- <-]. by eapply ws_registered.
    + by eapply ws_registered.
  - by apply Hwf.
  - by apply Hwf.
  - by apply Hwf.
  - intros ty' s' [[<- _]|[_ Hf]]%lookup_insert_Some; [done|]. by eapply ws_fallback.
Qed.

Lemma stores_get_put st ty s ty' :
  wf_stores st →
  stores_get (stores_put st ty s) ty' = if decide (ty' = ty) then Some s else stores_get st ty'.
Proof.
  intros Hwf. unfold stores_put, stores_get.
  destruct (st_registry st !! ty) as [slot|] eqn:Hs; simpl.
  - destruct (st_registry st !! ty') as [slot'|] eqn:Hs'.
    + rewrite list_lookup_alter. case_decide as Hd; case_decide as Ht; subst.
      * destruct (ws_slot _ Hwf _ _ Hs) as [s0 ->]. done.
      * destruct (ws_slot _ Hwf _ _ Hs) as [s0 H0]. destruct (ws_slot _ Hwf _ _ Hs') as [s1 H1].
        congruence.
      * congruence.
      * done.
    + case_decide; [congruence|done].
  - destruct (st_registry st !! ty') as [slot'|] eqn:Hs'.
    + case_decide; [congruence|done].
    + rewrite lookup_insert. case_decide; case_decide; congruence.
Qed.

Lemma elem_of_stores_iter `{HashOrder} st ty s :
  wf_stores st → (ty, s) ∈ stores_iter st ↔ stores_get st ty = Some s.
Proof.
  intros Hwf. unfold stores_iter, stores_get. rewrite elem_of_app, !list_elem_of_omap. split.
  - intros [([ty0 s0] & [i Hi]%list_elem_of_lookup & Hs)|(ty0 & Hin & Hs)].
    + destruct s0 as [s0|]; [|done]. simpl in Hs. injection Hs as -> ->.
      by rewrite (ws_registered _ Hwf _ _ _ Hi), Hi.
    + destruct (st_fallback st !! ty0) as [s0|] eqn:Hf; [|done]. simpl in Hs.
      injection Hs as -> ->. by rewrite (ws_fallback _ Hwf _ _ Hf).
  - destruct (st_registry st !! ty) as [slot|] eqn:Hs.
    + destruct (ws_slot _ Hwf _ _ Hs) as [s0 Hs0]. rewrite Hs0. simpl. intros ->.
      left. exists (ty, Some s). split; [by eapply list_elem_of_lookup_2|done].
    + intros Hf. right. exists ty. rewrite elem_of_hash_iter, elem_of_dom, Hf. split; [eauto|done].
Qed.

Lemma NoDup_stores_iter `{HashOrder} st : wf_stores st → NoDup (stores_iter st).*1.
Proof.
  intros Hwf. unfold stores_iter. rewrite fmap_app. apply NoDup_app. split; [|split].
  - assert (NoDup (omap (λ '(ty, s), (λ s : Store, (ty, s)) <$> s) (st_slots st)).*1 ∧
      ∀ ty, ty ∈ (omap (λ '(ty, s), (λ s : Store, (ty, s)) <$> s) (st_slots st)).*1 →
            ty ∈ (st_slots st).*1) as [? _]; [|done].
    assert (NoDup (st_slots st).*1) as Hnd.
    { apply NoDup_alt. intros i j ty Hi Hj. rewrite list_lookup_fmap in Hi, Hj.
      destruct (st_slots st !! i) as [[ti si]|] eqn:Ei; [|done].
      destruct (st_slots st !! j) as [[tj sj]|] eqn:Ej; [|done]. simplify_eq/=.
      apply (ws_registered _ Hwf) in Ei, Ej. congruence. }
    clear Hwf. induction (st_slots st) as [|[ty o] l IH]; simpl; [by split; [constructor|]|].
    inversion_clear Hnd as [|?? Hni Hnd']. destruct (IH Hnd') as [Hnd Hin].
    destruct o as [s|]; simpl.
    + split; [constructor; [|done]; intros ?%Hin; done|].
      intros ty' [->|?%Hin]%elem_of_cons; set_solver.
    + split; [done|]. set_solver.
  - intros ty Hty1 Hty2. apply list_elem_of_fmap in Hty1 as ([ty1 s1] & -> & H1).
    apply list_elem_of_fmap in Hty2 as ([ty2 s2] & Heq & H2). simpl in *. subst ty2.
    apply list_elem_of_omap in H1 as ([ty0 [s0|]] & [i Hi]%list_elem_of_lookup & Hs); [|done].
    simpl in Hs. injection Hs as -> ->.
    apply list_elem_of_omap in H2 as (ty3 & _ & Hf).
    destruct (st_fallback st !! ty3) as [s3|] eqn:E; [|done]. simpl in Hf. injection Hf as -> ->.
    apply (ws_registered _ Hwf) in Hi. apply (ws_fallback _ Hwf) in E. congruence.
  - pose proof (NoDup_hash_iter (dom (st_fallback st))) as Hnd.
    induction (hash_iter (dom (st_fallback st))) as [|ty l IH]; simpl; [constructor|].
    inversion_clear Hnd as [|?? Hni Hnd']. specialize (IH Hnd').
    destruct (st_fallback st !! ty) as [s|]; simpl; [|done]. constructor; [|done].
    intros ([ty' s'] & Heq & Hin)%list_elem_of_fmap. simpl in Heq. subst ty'.
    apply list_elem_of_omap in Hin as (ty' & Hin & Hs). destruct (st_fallback st !! ty'); [|done].
    simpl in Hs. by injection Hs as -> ->.
Qed.

(** *** The container built from a registry *)

#[export] Instance by_slot_trans : Transitive by_slot.
Proof. intros [i a] [j b] [k c]; unfold by_slot; simpl; lia. Qed.
#[export] Instance by_slot_total : Total by_slot.
Proof. intros [i a] [j b]; unfold by_slot; simpl; lia. Qed.

Lemma sorted_keys (l : list (nat * TypeId)) :
  StronglySorted by_slot l → StronglySorted le l.*1.
Proof.
  induction 1 as [|x l Hs IH Hall]; simpl; [constructor|]. constructor; [done|].
  apply Forall_fmap. eapply Forall_impl; [done|]. done.
Qed.

(** Sorting the slots of a dense registry numbers them from zero. *)
Lemma sorted_registry (registry : gmap TypeId nat) :
  dense registry →
  (merge_sort by_slot ((λ '(ty, slot), (slot, ty)) <$> map_to_list registry)).*1
  = seq 0 (size registry).
Proof.
  intros [Hrange Hinj].
  set (l := (λ '(ty, slot), (slot, ty)) <$> map_to_list registry).
  assert (∀ x, x ∈ l ↔ registry !! x.2 = Some x.1) as Hl.
  { intros [i ty]. unfold l. rewrite list_elem_of_fmap. split.
    - intros ([ty' i'] & [= -> ->] & Hin). by apply elem_of_map_to_list.
    - intros Hr. exists (ty, i). split; [done|]. by apply elem_of_map_to_list. }
  assert (NoDup l.*1) as Hnd.
  { apply NoDup_fmap_2_strong.
    - intros [i ty1] [j ty2] H1%Hl H2%Hl; simpl in *. intros ->. f_equal. by eapply Hinj.
    - unfold l. apply (NoDup_fmap_2_strong _ _); [|apply NoDup_map_to_list].
      intros [] [] _ _. by intros [= -> ->]. }
  apply (StronglySorted_unique le).
  - apply sorted_keys, (StronglySorted_merge_sort by_slot _).
  - generalize (size registry) 0. induction n as [|n IH]; intros a; simpl; [constructor|].
    constructor; [apply IH|]. apply Forall_seq. lia.
  - rewrite (merge_sort_Permutation by_slot l).
    apply submseteq_length_Permutation.
    + apply NoDup_submseteq; [done|]. intros i ([i' ty] & -> & Hin%Hl)%list_elem_of_fmap.
      apply elem_of_seq. simpl in *. apply Hrange in Hin. lia.
    + unfold l. rewrite length_seq, !length_fmap, length_map_to_list. done.
Qed.

Lemma wf_stores_with_registry registry :
  dense registry →
  wf_stores (stores_with_registry registry) ∧
  ∀ ty, stores_get (stores_with_registry registry) ty = None.
Proof.
  intros Hd. pose proof (sorted_registry _ Hd) as Hkeys.
  unfold stores_with_registry. set (l := merge_sort by_slot _) in *.
  assert (∀ x, x ∈ l ↔ registry !! x.2 = Some x.1) as Hl.
  { intros [i ty]. unfold l. rewrite (merge_sort_Permutation by_slot), list_elem_of_fmap. split.
    - intros ([ty' i'] & [= -> ->] & Hin). by apply elem_of_map_to_list.
    - intros Hr. exists (ty, i). split; [done|]. by apply elem_of_map_to_list. }
  assert (∀ i ty, registry !! ty = Some i ↔ l !! i = Some (i, ty)) as Hidx.
  { intros i ty. split.
    - intros Hr. assert ((i, ty) ∈ l) as [j Hj]%list_elem_of_lookup by by apply Hl.
      assert (l.*1 !! j = Some i) as Hk by by rewrite list_lookup_fmap, Hj.
      rewrite Hkeys in Hk. apply lookup_seq in Hk as [-> _]. done.
    - intros Hi%list_elem_of_lookup_2. by apply Hl in Hi. }
  split; [split; simpl|].
  - intros ty i Hi%Hidx. exists None. by rewrite list_lookup_fmap, Hi.
  - intros i ty s. rewrite list_lookup_fmap. destruct (l !! i) as [[j ty']|] eqn:E; [|done].
    intros [= <- <-]. apply Hidx. assert (l.*1 !! i = Some j) as Hk by by rewrite list_lookup_fmap, E.
    rewrite Hkeys in Hk. by apply lookup_seq in Hk as [-> _].
  - done.
  - intros ty. unfold stores_get; simpl. destruct (registry !! ty) as [i|] eqn:Hi; [|done].
    apply Hidx in Hi. by rewrite list_lookup_fmap, Hi.
Qed.

(** ** The fingerprint index is exact *)

(** The index [m] holds exactly the pairs [P], without empty buckets. *)
Record indexes (m : gmap N (gset Entity)) (P : N → Entity → Prop) : Prop := {
  ix_exact f e : e ∈ default ∅ (m !! f) ↔ P f e;
  ix_nonempty f : m !! f ≠ Some ∅;
}.

Definition fingerprint_pairs (m : gmap Entity ComponentEntry) (f : N) (e : Entity) : Prop :=
  ∃ entry, m !! e = Some entry ∧ entry_fingerprint entry = Some f.

Record store_ok (s : Store) : Prop := {
  so_index : indexes (by_fingerprint s) (fingerprint_pairs (entries s));
  so_watermark e entry : entries s !! e = Some entry → (entry_revision entry ≤ watermark s)%N;
}.

Lemma indexes_iff m P Q : (∀ f e, P f e ↔ Q f e) → indexes m P → indexes m Q.
Proof. intros HPQ [H1 H2]. split; [|done]. intros f e. by rewrite H1. Qed.

Lemma index_spec s e o P :
  indexes (by_fingerprint s) P →
  indexes (by_fingerprint (index_fingerprint s e o)) (λ f e', P f e' ∨ (o = Some f ∧ e' = e)).
Proof.
  intros [Hex Hne]. destruct o as [f|]; simpl; [|split; [|done]; intros; rewrite Hex; naive_solver].
  split.
  - intros f' e'. rewrite lookup_insert. case_decide as Hf; simpl.
    + subst f'. rewrite elem_of_union, elem_of_singleton, Hex. naive_solver.
    + rewrite Hex. naive_solver.
  - intros f'. rewrite lookup_insert. case_decide; [|done]. intros [= Heq]. set_solver.
Qed.

Lemma unindex_spec s e o P :
  indexes (by_fingerprint s) P →
  indexes (by_fingerprint (unindex_fingerprint s e o)) (λ f e', P f e' ∧ ¬ (o = Some f ∧ e' = e)).
Proof.
  intros [Hex Hne]. destruct o as [f|]; simpl; [|split; [|done]; intros; rewrite Hex; naive_solver].
  destruct (by_fingerprint s !! f) as [es|] eqn:Hes; simpl.
  - assert (∀ f' e', e' ∈ default ∅ ((if bool_decide (es ∖ {[e]} = ∅)
        then delete f (by_fingerprint s) else <[f := es ∖ {[e]}]> (by_fingerprint s)) !! f') ↔
      e' ∈ default ∅ (by_fingerprint s !! f') ∧ ¬ (f = f' ∧ e' = e)) as Hin.
    { intros f' e'. destruct (decide (f = f')) as [<-|Hf].
      - rewrite Hes. simpl. case_bool_decide as Hempty.
        + rewrite lookup_delete_eq. simpl. set_solver.
        + rewrite lookup_insert_eq. simpl. set_solver.
      - case_bool_decide; [rewrite lookup_delete_ne by done|rewrite lookup_insert_ne by done];
          naive_solver. }
    split.
    + intros f' e'. rewrite Hin, Hex. naive_solver.
    + intros f'. case_bool_decide as Hempty.
      * rewrite lookup_delete_Some. intros [_ ?]. by eapply Hne.
      * rewrite lookup_insert_Some. intros [[_ ?]|[_ ?]]; [done|by eapply Hne].
  - split; [|done]. intros f' e'. rewrite Hex. split; [|naive_solver]. intros HP. split; [done|].
    intros [[= <-] ->]. apply Hex in HP. rewrite Hes in HP. simpl in HP. set_solver.
Qed.

Lemma entries_index s e o : entries (index_fingerprint s e o) = entries s.
Proof. by destruct o. Qed.
Lemma watermark_index s e o : watermark (index_fingerprint s e o) = watermark s.
Proof. by destruct o. Qed.
Lemma entries_unindex s e o : entries (unindex_fingerprint s e o) = entries s.
Proof. destruct o as [f|]; simpl; [|done]. by destruct (by_fingerprint s !! f). Qed.
Lemma watermark_unindex s e o : watermark (unindex_fingerprint s e o) = watermark s.
Proof. destruct o as [f|]; simpl; [|done]. by destruct (by_fingerprint s !! f). Qed.

#[local] Hint Rewrite entries_index watermark_index entries_unindex watermark_unindex : store.

Lemma entries_insert s e entry : entries (store_insert s e entry) = <[e := entry]> (entries s).
Proof.
  unfold store_insert; simpl. destruct (entries s !! e); [case_bool_decide|];
    autorewrite with store; done.
Qed.

Lemma watermark_insert s e entry :
  watermark (store_insert s e entry) = N.max (watermark s) (entry_revision entry).
Proof.
  unfold store_insert; simpl. destruct (entries s !! e); [case_bool_decide|];
    autorewrite with store; done.
Qed.

Lemma entries_drop s e entry : entries (store_drop s e entry) = delete e (entries s).
Proof. unfold store_drop. by autorewrite with store. Qed.
Lemma watermark_drop s e entry : watermark (store_drop s e entry) = watermark s.
Proof. unfold store_drop. by autorewrite with store. Qed.

Lemma fingerprint_pairs_insert m e entry f e' :
  fingerprint_pairs (<[e := entry]> m) f e' ↔
  (e' = e ∧ entry_fingerprint entry = Some f) ∨ (e' ≠ e ∧ fingerprint_pairs m f e').
Proof.
  unfold fingerprint_pairs. setoid_rewrite lookup_insert_Some. split.
  - intros (en & [[-> ->]|[? ?]] & ?); [by left|right; eauto].
  - intros [[-> ?]|(? & en & ? & ?)]; [exists entry; auto|exists en; auto].
Qed.

(** Writing an entry and moving it between buckets. *)
Lemma reindex_ok s e entry before :
  indexes (by_fingerprint s) (fingerprint_pairs (entries s)) →
  (entry_fingerprint <$> entries s !! e) = Some before →
  indexes
    (by_fingerprint (reindex (with_entries s (<[e := entry]> (entries s))) e before
                       (entry_fingerprint entry)))
    (fingerprint_pairs (<[e := entry]> (entries s))).
Proof.
  intros Hix Hb. destruct (entries s !! e) as [old|] eqn:He; simplify_eq/=. unfold reindex.
  assert (∀ f, fingerprint_pairs (entries s) f e ↔ entry_fingerprint old = Some f) as Hold.
  { intros f. unfold fingerprint_pairs. rewrite He. naive_solver. }
  case_bool_decide as Heq.
  - eapply indexes_iff; [|exact Hix]. intros f e'. rewrite fingerprint_pairs_insert.
    destruct (decide (e' = e)) as [->|]; [rewrite Hold, Heq|]; naive_solver.
  - eapply indexes_iff; [|apply index_spec, unindex_spec, Hix].
    intros f e'. simpl. rewrite fingerprint_pairs_insert.
    destruct (decide (e' = e)) as [->|]; [rewrite Hold|]; naive_solver.
Qed.

Lemma store_insert_ok s e entry : store_ok s → store_ok (store_insert s e entry).
Proof.
  intros [Hix Hwm]. split.
  - rewrite entries_insert. unfold store_insert; simpl.
    destruct (entries s !! e) as [old|] eqn:He.
    + pose proof (reindex_ok (bump_watermark s (entry_revision entry)) e entry
        (entry_fingerprint old) Hix) as Hre. simpl in Hre. rewrite He in Hre.
      specialize (Hre eq_refl). unfold reindex in Hre.
      case_bool_decide as Hd; case_bool_decide as Hd'; try done.
    + eapply indexes_iff; [|apply index_spec, Hix]. intros f e'. simpl.
      rewrite fingerprint_pairs_insert. destruct (decide (e' = e)) as [->|]; [|naive_solver].
      unfold fingerprint_pairs. rewrite He. naive_solver.
  - intros e' en. rewrite entries_insert, watermark_insert, lookup_insert_Some.
    intros [[_ <-]|[_ ?%Hwm]]; lia.
Qed.

Lemma store_drop_ok s e entry :
  store_ok s → entries s !! e = Some entry → store_ok (store_drop s e entry).
Proof.
  intros [Hix Hwm] He. split.
  - rewrite entries_drop. eapply indexes_iff; [|apply unindex_spec, Hix]. intros f e'. simpl.
    unfold fingerprint_pairs. setoid_rewrite lookup_delete_Some. naive_solver.
  - intros e' en. rewrite entries_drop, watermark_drop, lookup_delete_Some. intros [_ ?]. eauto.
Qed.

Lemma bump_watermark_ok s r : store_ok s → store_ok (bump_watermark s r).
Proof. intros [Hix Hwm]. split; [done|]. intros e en He%Hwm. simpl. lia. Qed.

Lemma store_default_ok : store_ok store_default.
Proof.
  split; [split|]; simpl.
  - intros f e. rewrite lookup_empty. simpl. unfold fingerprint_pairs. setoid_rewrite lookup_empty.
    set_solver.
  - done.
  - intros e en. by rewrite lookup_empty.
Qed.

Lemma stores_put_put st ty s1 s2 : stores_put (stores_put st ty s1) ty s2 = stores_put st ty s2.
Proof.
  unfold stores_put. destruct (st_registry st !! ty) as [slot|] eqn:Hs; simpl; rewrite Hs.
  - f_equal. apply list_eq. intros i. rewrite !list_lookup_alter. case_decide; [|done].
    subst i. rewrite decide_True by done. by destruct (st_slots st !! slot).
  - f_equal. apply insert_insert_eq.
Qed.

Lemma stores_put_get st ty s :
  wf_stores st → stores_get st ty = Some s → stores_put st ty s = st.
Proof.
  intros Hwf. unfold stores_get, stores_put. destruct st as [slots reg fb]; simpl.
  destruct (reg !! ty) as [slot|] eqn:Hs; intros Hg.
  - f_equal. apply list_eq. intros i. rewrite list_lookup_alter. case_decide as Hi; [|done].
    subst i. destruct (slots !! slot) as [[ty0 s0]|]; [|done]. simpl in *. by subst s0.
  - f_equal. by apply insert_id.
Qed.
