(* ===== verification/World.v ===== *)
(** * The world ([world.rs])

    Component storage, revisions, ownership of derived outputs, relationship
    maintenance and removal.  Every operation of [World] that changes state is
    here, as a function from world to world; the panics are those of the source.
    Hooks ([on_insert] and the like) cannot touch the world and are left out.

    [Shared] is what snapshots share with the live world: the entity allocator,
    the spawn slots and the component cells.

    Relationship maintenance re-enters insertion and removal through function
    pointers stored in the components.  The operations take the two maintainers
    as an argument ([RelOps]) and [relops] ties the knot with a nesting bound. *)
From stdpp Require Import base numbers sets gmap fin_maps sorting list.
From S2P Require Import Prelude Components Stores Presence.

(** How deep relationship maintenance may re-enter itself.  One level is
    enough when an inverse is not itself an edge ([relops_enough]). *)
Definition relation_depth : nat := 8.

Section world.
Context `{ComponentTypes} `{HashOrder}.

Record Shared := MkShared {
  next_entity : Entity;
  derived_spawns : gmap SystemInvocation (list Entity);
  cells : gmap CellId Value;
  next_cell : CellId;
}.

Definition set_next_entity (x : Entity) (s : Shared) : Shared :=
  MkShared x (derived_spawns s) (cells s) (next_cell s).
Definition set_derived_spawns (x : gmap SystemInvocation (list Entity)) (s : Shared) : Shared :=
  MkShared (next_entity s) x (cells s) (next_cell s).

Record World := MkWorld {
  shared : Shared;
  revision : Revision;
  mutations : N;
  stores : Stores;
  singleton_entities : gmap TypeId Entity;
  derived_owners : gmap SystemInvocation (gset (TypeId * Entity));
  spawn_cursors : gmap SystemInvocation nat;
  removed_entities : list Entity;
  removed_owners : list SystemInvocation;
  removed_component_owners : list SystemInvocation;
  pending_derived_from : list (Entity * list DerivedAnchor * option SystemInvocation);
  flushing_anchors : bool;
  written_derived : list (TypeId * Entity);
  presence : option PresenceIndex;
  write_log : list (TypeId * Entity);
  plan_epoch : N;
}.

Definition set_shared (x : Shared) (w : World) : World :=
  MkWorld x (revision w) (mutations w) (stores w) (singleton_entities w) (derived_owners w)
    (spawn_cursors w) (removed_entities w) (removed_owners w) (removed_component_owners w)
    (pending_derived_from w) (flushing_anchors w) (written_derived w) (presence w) (write_log
    w) (plan_epoch w).
Definition set_revision (x : Revision) (w : World) : World :=
  MkWorld (shared w) x (mutations w) (stores w) (singleton_entities w) (derived_owners w)
    (spawn_cursors w) (removed_entities w) (removed_owners w) (removed_component_owners w)
    (pending_derived_from w) (flushing_anchors w) (written_derived w) (presence w) (write_log
    w) (plan_epoch w).
Definition set_mutations (x : N) (w : World) : World :=
  MkWorld (shared w) (revision w) x (stores w) (singleton_entities w) (derived_owners w)
    (spawn_cursors w) (removed_entities w) (removed_owners w) (removed_component_owners w)
    (pending_derived_from w) (flushing_anchors w) (written_derived w) (presence w) (write_log
    w) (plan_epoch w).
Definition set_stores (x : Stores) (w : World) : World :=
  MkWorld (shared w) (revision w) (mutations w) x (singleton_entities w) (derived_owners w)
    (spawn_cursors w) (removed_entities w) (removed_owners w) (removed_component_owners w)
    (pending_derived_from w) (flushing_anchors w) (written_derived w) (presence w) (write_log
    w) (plan_epoch w).
Definition set_singleton_entities (x : gmap TypeId Entity) (w : World) : World :=
  MkWorld (shared w) (revision w) (mutations w) (stores w) x (derived_owners w) (spawn_cursors
    w) (removed_entities w) (removed_owners w) (removed_component_owners w)
    (pending_derived_from w) (flushing_anchors w) (written_derived w) (presence w) (write_log
    w) (plan_epoch w).
Definition set_derived_owners (x : gmap SystemInvocation (gset (TypeId * Entity))) (w : World)
    : World :=
  MkWorld (shared w) (revision w) (mutations w) (stores w) (singleton_entities w) x
    (spawn_cursors w) (removed_entities w) (removed_owners w) (removed_component_owners w)
    (pending_derived_from w) (flushing_anchors w) (written_derived w) (presence w) (write_log
    w) (plan_epoch w).
Definition set_spawn_cursors (x : gmap SystemInvocation nat) (w : World) : World :=
  MkWorld (shared w) (revision w) (mutations w) (stores w) (singleton_entities w)
    (derived_owners w) x (removed_entities w) (removed_owners w) (removed_component_owners w)
    (pending_derived_from w) (flushing_anchors w) (written_derived w) (presence w) (write_log
    w) (plan_epoch w).
Definition set_removed_entities (x : list Entity) (w : World) : World :=
  MkWorld (shared w) (revision w) (mutations w) (stores w) (singleton_entities w)
    (derived_owners w) (spawn_cursors w) x (removed_owners w) (removed_component_owners w)
    (pending_derived_from w) (flushing_anchors w) (written_derived w) (presence w) (write_log
    w) (plan_epoch w).
Definition set_removed_owners (x : list SystemInvocation) (w : World) : World :=
  MkWorld (shared w) (revision w) (mutations w) (stores w) (singleton_entities w)
    (derived_owners w) (spawn_cursors w) (removed_entities w) x (removed_component_owners w)
    (pending_derived_from w) (flushing_anchors w) (written_derived w) (presence w) (write_log
    w) (plan_epoch w).
Definition set_removed_component_owners (x : list SystemInvocation) (w : World) : World :=
  MkWorld (shared w) (revision w) (mutations w) (stores w) (singleton_entities w)
    (derived_owners w) (spawn_cursors w) (removed_entities w) (removed_owners w) x
    (pending_derived_from w) (flushing_anchors w) (written_derived w) (presence w) (write_log
    w) (plan_epoch w).
Definition set_pending_derived_from (x : list (Entity * list DerivedAnchor * option
    SystemInvocation)) (w : World) : World :=
  MkWorld (shared w) (revision w) (mutations w) (stores w) (singleton_entities w)
    (derived_owners w) (spawn_cursors w) (removed_entities w) (removed_owners w)
    (removed_component_owners w) x (flushing_anchors w) (written_derived w) (presence w)
    (write_log w) (plan_epoch w).
Definition set_flushing_anchors (x : bool) (w : World) : World :=
  MkWorld (shared w) (revision w) (mutations w) (stores w) (singleton_entities w)
    (derived_owners w) (spawn_cursors w) (removed_entities w) (removed_owners w)
    (removed_component_owners w) (pending_derived_from w) x (written_derived w) (presence w)
    (write_log w) (plan_epoch w).
Definition set_written_derived (x : list (TypeId * Entity)) (w : World) : World :=
  MkWorld (shared w) (revision w) (mutations w) (stores w) (singleton_entities w)
    (derived_owners w) (spawn_cursors w) (removed_entities w) (removed_owners w)
    (removed_component_owners w) (pending_derived_from w) (flushing_anchors w) x (presence w)
    (write_log w) (plan_epoch w).
Definition set_presence (x : option PresenceIndex) (w : World) : World :=
  MkWorld (shared w) (revision w) (mutations w) (stores w) (singleton_entities w)
    (derived_owners w) (spawn_cursors w) (removed_entities w) (removed_owners w)
    (removed_component_owners w) (pending_derived_from w) (flushing_anchors w)
    (written_derived w) x (write_log w) (plan_epoch w).
Definition set_write_log (x : list (TypeId * Entity)) (w : World) : World :=
  MkWorld (shared w) (revision w) (mutations w) (stores w) (singleton_entities w)
    (derived_owners w) (spawn_cursors w) (removed_entities w) (removed_owners w)
    (removed_component_owners w) (pending_derived_from w) (flushing_anchors w)
    (written_derived w) (presence w) x (plan_epoch w).
Definition set_plan_epoch (x : N) (w : World) : World :=
  MkWorld (shared w) (revision w) (mutations w) (stores w) (singleton_entities w)
    (derived_owners w) (spawn_cursors w) (removed_entities w) (removed_owners w)
    (removed_component_owners w) (pending_derived_from w) (flushing_anchors w)
    (written_derived w) (presence w) (write_log w) x.


(** [World::new]. *)
Definition world_new : World :=
  MkWorld (MkShared 0 ∅ ∅ 0) 0 0 stores_default ∅ ∅ ∅ [] [] [] [] false [] None [] 0.

(** [World::clone]: the structural snapshot.  The debug assertion refuses a
    snapshot with unflushed anchors. *)
Definition world_clone (w : World) : result World :=
  _ ← check UnflushedAnchors (bool_decide (pending_derived_from w = []));
  Done (MkWorld (shared w) (revision w) (mutations w) (stores w) (singleton_entities w)
          ∅ ∅ [] [] [] [] false [] (presence w) [] (plan_epoch w)).

(** Reading a snapshot while the live world goes on: its structure is its own,
    the shared part is the live one. *)
Definition view_at (live snapshot : World) : World := set_shared (shared live) snapshot.

(** ** Cells *)

Definition cell_get (w : World) (c : CellId) : option Value := cells (shared w) !! c.

(** [Arc::new(ComponentCell::new(value))] *)
Definition cell_new (w : World) (v : Value) : World * CellId :=
  let c := next_cell (shared w) in
  (set_shared (MkShared (next_entity (shared w)) (derived_spawns (shared w))
                 (<[c := v]> (cells (shared w))) (c + 1)%N) w, c).

(** A write through a [ComponentMut] guard. *)
Definition cell_put (w : World) (c : CellId) (v : Value) : World :=
  set_shared (MkShared (next_entity (shared w)) (derived_spawns (shared w))
                (<[c := v]> (cells (shared w))) (next_cell (shared w))) w.

(** ** Lookups *)

Definition store_of (w : World) (ty : TypeId) : option Store := stores_get (stores w) ty.

Definition row (w : World) (ty : TypeId) (e : Entity) : option ComponentEntry :=
  s ← store_of w ty; entries s !! e.

Definition row_value (w : World) (ty : TypeId) (e : Entity) : option Value :=
  entry ← row w ty e; cell_get w (entry_value entry).

Definition has (w : World) (ty : TypeId) (e : Entity) : bool := bool_decide (is_Some (row w ty e)).

(** [revision], [revision_by_type], [revision_for_entity_dyn]. *)
Definition row_revision (w : World) (ty : TypeId) (e : Entity) : option Revision :=
  s ← store_of w ty; revision_for_entity s e.

Definition revision_by_slot (w : World) (slot : nat) (ty : TypeId) (e : Entity)
    : option Revision :=
  s ← stores_get_slot (stores w) slot ty; revision_for_entity s e.

Definition row_fingerprint (w : World) (ty : TypeId) (e : Entity) : option N :=
  entry ← row w ty e; entry_fingerprint entry.

(** [entity_revision]: the newest revision among the tracked components. *)
Definition entity_revision (w : World) (e : Entity) : option Revision :=
  foldr (λ '(ty, s) acc,
           if value_tracked ty
           then match revision_for_entity s e, acc with
                | Some r, Some m => Some (N.max r m)
                | Some r, None => Some r
                | None, acc => acc
                end
           else acc) None (stores_iter (stores w)).

Definition store_watermark (w : World) (ty : TypeId) : Revision :=
  default 0%N (watermark <$> store_of w ty).

Definition entities_with (w : World) (ty : TypeId) : list Entity :=
  default [] (store_entities <$> store_of w ty).

Definition store_len (w : World) (ty : TypeId) : nat :=
  default 0 ((λ s, size (entries s)) <$> store_of w ty).

(** [entities_with_fingerprint] and [fingerprint_candidates_iter]. *)
Definition entities_with_fingerprint (w : World) (ty : TypeId) (f : N) : list Entity :=
  default [] (s ← store_of w ty; ascending <$> fingerprint_bucket s f).

(** ** Logs, presence and ids *)

Definition log_write (w : World) (ty : TypeId) (e : Entity) : World :=
  set_write_log (write_log w ++ [(ty, e)]) w.

Definition maybe_roll_plan_epoch (w : World)
    : result (World * option (N * list (TypeId * Entity))) :=
  if bool_decide (length (write_log w) ≤ 4096) then Done (w, None)
  else
    let epoch := plan_epoch w in
    next ← expect Overflow (u64_checked_succ epoch);
    Done (set_write_log [] (set_plan_epoch next w), Some (epoch, write_log w)).

Definition plan_log (w : World) : list (TypeId * Entity) * N := (write_log w, plan_epoch w).

Definition init_presence (w : World) (universe : list TypeId) : result World :=
  _ ← check StoresNotEmpty (stores_is_empty (stores w));
  let p := presence_new universe in
  Done (set_presence (Some p) (set_stores (stores_with_registry (bit_for p)) w)).

Definition world_presence_set (w : World) (ty : TypeId) (e : Entity) (present : bool)
    : result World :=
  match presence w with
  | None => Done w
  | Some p => p ← presence_set p ty e present; Done (set_presence (Some p) w)
  end.

Definition world_presence_clear (w : World) (e : Entity) : result World :=
  match presence w with
  | None => Done w
  | Some p => p ← presence_clear_entity p e; Done (set_presence (Some p) w)
  end.

(** [next_entity.fetch_add(1)]: an atomic addition wraps. *)
Definition spawn_empty (w : World) : World * Entity :=
  let e := next_entity (shared w) in
  (set_shared (set_next_entity ((e + 1) mod 2 ^ 64)%N (shared w)) w, e).

Definition bump_mutations (w : World) : result World :=
  m ← expect Overflow (u64_checked_succ (mutations w)); Done (set_mutations m w).

Definition put_store (w : World) (ty : TypeId) (s : Store) : World :=
  set_stores (stores_put (stores w) ty s) w.

(** [bump(&mut self.revision)] *)
Definition bump_revision (w : World) : result World :=
  r ← bump (revision w); Done (set_revision r w).

(** ** Ownership *)

(** [unindex_derived]: drop one output from an owner's index. *)
Definition unindex_derived (w : World) (owner : SystemInvocation) (ty : TypeId) (e : Entity)
    : World :=
  match derived_owners w !! owner with
  | None => w
  | Some outputs =>
      let outputs := outputs ∖ {[(ty, e)]} in
      set_derived_owners (if bool_decide (outputs = ∅) then delete owner (derived_owners w)
                          else <[owner := outputs]> (derived_owners w)) w
  end.

Definition index_derived (w : World) (owner : SystemInvocation) (ty : TypeId) (e : Entity)
    : World :=
  set_derived_owners
    (<[owner := {[(ty, e)]} ∪ default ∅ (derived_owners w !! owner)]> (derived_owners w)) w.

Definition has_derived_owned (w : World) (owner : SystemInvocation) : bool :=
  match derived_owners w !! owner with
  | Some outputs => negb (bool_decide (outputs = ∅))
  | None => false
  end.

Definition outputs_of (w : World) (owner : SystemInvocation) : gset (TypeId * Entity) :=
  default ∅ (derived_owners w !! owner).

(** ** Insertion *)

Record RelOps := MkRelOps {
  rel_add : TypeId → Entity → Entity → World → result World;
  rel_remove : TypeId → Entity → Entity → World → result World;
}.

(** The singleton registration of [insert]. *)
Definition register_singleton (w : World) (ty : TypeId) (e : Entity) : result World :=
  match value_singleton_key ty with
  | None => Done w
  | Some key =>
      match singleton_entities w !! key with
      | Some existing => if bool_decide (existing ≠ e) then Panic SingletonClash else Done w
      | None => Done (set_singleton_entities (<[key := e]> (singleton_entities w)) w)
      end
  end.

(** [previous.is_some() && previous == fingerprint] for the stored row. *)
Definition fingerprint_matches (w : World) (ty : TypeId) (e : Entity) (fp : option N) : bool :=
  match row_fingerprint w ty e with
  | Some previous => bool_decide (Some previous = fp)
  | None => false
  end.

(** The revision of the new entry: the old one when a tracked value kept its
    fingerprint, a fresh one otherwise (untracked writes included). *)
Definition insert_revision (w : World) (ty : TypeId) (e : Entity) (matches : bool)
    : result (World * Revision) :=
  let fresh := w ← bump_revision w; Done (w, revision w) in
  if value_tracked ty
  then match (if matches then row_revision w ty e else None) with
       | Some r => Done (w, r)
       | None => fresh
       end
  else fresh.

(** Moving the row from its previous owner's index to the new owner's. *)
Definition insert_owner (w : World) (ty : TypeId) (e : Entity)
    (previous : option ComponentEntry) (new_owner : option SystemInvocation) : World :=
  let w :=
    match previous ≫= entry_owner with
    | Some previous_owner =>
        if bool_decide (Some previous_owner ≠ new_owner)
        then unindex_derived w previous_owner ty e else w
    | None => w
    end in
  match new_owner with Some o => index_derived w o ty e | None => w end.

(** [if previous_target != new_target { previous.remove(..); new.add(..) }] *)
Definition maintain_edges (ops : RelOps) (w : World) (e : Entity)
    (previous new : option (TypeId * Entity)) : result World :=
  if bool_decide (snd <$> previous ≠ snd <$> new) then
    w ← match previous with
        | Some (inv, target) => rel_remove ops inv e target w
        | None => Done w
        end;
    match new with
    | Some (inv, target) => rel_add ops inv e target w
    | None => Done w
    end
  else Done w.

(** Storing the entry: presence bit, log, cell, store. *)
Definition insert_entry (w : World) (ty : TypeId) (e : Entity) (v : Value)
    (fp : option N) (r : Revision) (owner : option SystemInvocation) : result World :=
  w ← world_presence_set w ty e true;
  let w := log_write w ty e in
  let '(w, c) := cell_new w v in
  Done (put_store w ty
          (store_insert (stores_get_or_insert (stores w) ty) e (MkEntry c r fp owner))).

(** [insert] up to the relationship maintenance; also returns the edge the
    replaced value carried. *)
Definition insert_row (w : World) (e : Entity) (ty : TypeId) (v : Value)
    (owner : option SystemInvocation) : result (World * option (TypeId * Entity)) :=
  w ← register_singleton w ty e;
  let fp := value_fingerprint ty v in
  let matches := fingerprint_matches w ty e fp in
  '(w, r) ← insert_revision w ty e matches;
  w ← (if matches then Done w else bump_mutations w);
  let w := if bool_decide (is_Some owner)
           then set_written_derived (written_derived w ++ [(ty, e)]) w else w in
  let previous := row w ty e in
  w ← insert_entry w ty e v fp r owner;
  let previous_edge := entry ← previous; v ← cell_get w (entry_value entry); value_edge ty v in
  Done (insert_owner w ty e previous owner, previous_edge).

Definition insert_value (ops : RelOps) (w : World) (e : Entity) (ty : TypeId) (v : Value)
    (owner : option SystemInvocation) : result World :=
  '(w, previous_edge) ← insert_row w e ty v owner;
  maintain_edges ops w e previous_edge (value_edge ty v).

Definition insert_with (ops : RelOps) (w : World) (e : Entity) (ty : TypeId) (v : Value)
    (owner : option SystemInvocation) : result World :=
  match v with
  | Derived anchors =>
      if flushing_anchors w
      then insert_value ops w e ty (Derived (derived_capture (entity_revision w) anchors)) owner
      else Done (set_pending_derived_from (pending_derived_from w ++ [(e, anchors, owner)]) w)
  | Plain _ => insert_value ops w e ty v owner
  end.

(** ** Removal of one component *)

Definition remove_edge (ops : RelOps) (w : World) (e : Entity) (edge : option (TypeId * Entity))
    : result World :=
  match edge with Some (inv, target) => rel_remove ops inv e target w | None => Done w end.


(** The store, presence bit and log of a removed row. *)
Definition drop_entry (w : World) (ty : TypeId) (e : Entity) (s : Store)
    (removed : ComponentEntry) : result World :=
  w ← world_presence_set (put_store w ty (store_drop s e removed)) ty e false;
  Done (log_write w ty e).

(** [mutations += 1; bump(revision)] and the watermark of the store, if any. *)
Definition bump_removal (w : World) (ty : TypeId) : result World :=
  w ← bump_mutations w;
  w ← bump_revision w;
  Done (match store_of w ty with
        | Some s => put_store w ty (bump_watermark s (revision w))
        | None => w
        end).

(** The owner of a removed row loses it from its index; another remover also
    retires the owner's memo. *)
Definition remove_owner (w : World) (ty : TypeId) (e : Entity) (owner remover : option SystemInvocation)
    : World :=
  match owner with
  | None => w
  | Some owner =>
      let w := unindex_derived w owner ty e in
      if bool_decide (remover ≠ Some owner)
      then set_removed_component_owners (removed_component_owners w ++ [owner]) w else w
  end.

Definition release_singleton (w : World) (ty : TypeId) (e : Entity) : World :=
  match value_singleton_key ty with
  | None => w
  | Some key =>
      if bool_decide (singleton_entities w !! key = Some e)
      then set_singleton_entities (delete key (singleton_entities w)) w else w
  end.

(** [remove_component] up to the relationship maintenance: the removed entry's
    cell and the edge its value carried. *)
Definition remove_row (w : World) (ty : TypeId) (e : Entity) (remover : option SystemInvocation)
    : result (World * option (CellId * option (TypeId * Entity))) :=
  match store_of w ty with
  | None => Done (w, None)
  | Some s =>
      match entries s !! e with
      | None => Done (w, None)
      | Some removed =>
          w ← drop_entry w ty e s removed;
          let edge := v ← cell_get w (entry_value removed); value_edge ty v in
          w ← bump_removal w ty;
          let w := remove_owner w ty e (entry_owner removed) remover in
          Done (release_singleton w ty e, Some (entry_value removed, edge))
      end
  end.

Definition remove_component_with (ops : RelOps) (w : World) (ty : TypeId) (e : Entity)
    (remover : option SystemInvocation) : result (World * option CellId) :=
  '(w, removed) ← remove_row w ty e remover;
  match removed with
  | None => Done (w, None)
  | Some (c, edge) => w ← remove_edge ops w e edge; Done (w, Some c)
  end.

(** ** Maintained inverses *)

(** [members.binary_search(&source)] on a sorted slice: the position of the
    element, or the position that keeps the slice sorted. *)
Fixpoint binary_search (l : list Entity) (x : Entity) : nat + nat :=
  match l with
  | [] => inr 0
  | y :: l =>
      if bool_decide (x = y) then inl 0
      else if bool_decide (x < y)%N then inr 0
      else match binary_search l x with inl i => inl (S i) | inr i => inr (S i) end
  end.

Definition insert_at {A} (i : nat) (x : A) (l : list A) : list A := take i l ++ x :: drop i l.

Definition relationship_add_member_with (ops : RelOps) (inv : TypeId) (source target : Entity)
    (w : World) : result World :=
  let members := default [] (v ← row_value w inv target; value_members inv v) in
  match binary_search members source with
  | inl _ => Done w
  | inr i =>
      insert_with ops w target inv (Plain (ct_from_members inv (insert_at i source members))) None
  end.

Definition relationship_remove_member_with (ops : RelOps) (inv : TypeId)
    (source target : Entity) (w : World) : result World :=
  match (v ← row_value w inv target; value_members inv v) with
  | None => Done w
  | Some members =>
      match binary_search members source with
      | inr _ => Done w
      | inl i =>
          let members := delete i members in
          if bool_decide (members = [])
          then '(w, _) ← remove_component_with ops w inv target None; Done w
          else insert_with ops w target inv (Plain (ct_from_members inv members)) None
      end
  end.

(** The maintainers, nested at most [n] deep. *)
Fixpoint relops (n : nat) : RelOps :=
  match n with
  | 0 => MkRelOps (λ _ _ _ _, Panic NestingTooDeep) (λ _ _ _ _, Panic NestingTooDeep)
  | S n => MkRelOps (relationship_add_member_with (relops n))
             (relationship_remove_member_with (relops n))
  end.

Definition the_relops : RelOps := relops relation_depth.

Definition insert : World → Entity → TypeId → Value → option SystemInvocation → result World :=
  insert_with the_relops.
Definition remove_component
    : World → TypeId → Entity → option SystemInvocation → result (World * option CellId) :=
  remove_component_with the_relops.

Definition insert_base (w : World) (e : Entity) (ty : TypeId) (v : Value) : result World :=
  insert w e ty v None.
Definition insert_derived (w : World) (e : Entity) (ty : TypeId) (v : Value)
    (owner : SystemInvocation) : result World :=
  insert w e ty v (Some owner).

(** ** Sweeping derived outputs *)

(** [remove_derived_entry] up to the relationship maintenance. *)
Definition sweep_row (w : World) (ty : TypeId) (e : Entity) (owner : SystemInvocation)
    : result (World * option (option (TypeId * Entity))) :=
  match store_of w ty with
  | None => Done (w, None)
  | Some s =>
      let edge := v ← row_value w ty e; value_edge ty v in
      match remove_entry_owned s ty e owner with
      | (_, None) => Done (w, None)
      | (s, Some _) =>
          w ← world_presence_set (put_store w ty s) ty e false;
          w ← bump_removal (log_write w ty e) ty;
          Done (w, Some edge)
      end
  end.

(** [remove_derived_entry]: one store entry, if [owner] still owns it. *)
Definition remove_derived_entry (w : World) (ty : TypeId) (e : Entity)
    (owner : SystemInvocation) : result (World * bool) :=
  '(w, removed) ← sweep_row w ty e owner;
  match removed with
  | None => Done (w, false)
  | Some edge => w ← remove_edge the_relops w e edge; Done (w, true)
  end.

Definition forget_spawns (w : World) (owner : SystemInvocation) : World :=
  set_shared (set_derived_spawns (delete owner (derived_spawns (shared w))) (shared w)) w.

Definition remove_derived_owned (w : World) (owner : SystemInvocation) : result World :=
  let w := forget_spawns w owner in
  match derived_owners w !! owner with
  | None => Done w
  | Some outputs =>
      fold_result (λ w '(ty, e), '(w, _) ← remove_derived_entry w ty e owner; Done w)
        (set_derived_owners (delete owner (derived_owners w)) w) (hash_iter outputs)
  end.

Definition take_derived_outputs (w : World) (owner : SystemInvocation)
    : World * gset (TypeId * Entity) :=
  (set_derived_owners (delete owner (derived_owners w)) w, outputs_of w owner).

Definition remove_derived_stale (w : World) (owner : SystemInvocation)
    (previous : gset (TypeId * Entity)) : result World :=
  fold_result (λ w '(ty, e),
      if bool_decide ((ty, e) ∈ outputs_of w owner) then Done w
      else '(w, _) ← remove_derived_entry w ty e owner; Done w)
    w (hash_iter previous).

(** One output of a retired owner; the entity joins the cleanup frontier. *)
Definition sweep_output (owner : SystemInvocation) (st : World * list Entity)
    (output : TypeId * Entity) : result (World * list Entity) :=
  let '(w, removed) := st in
  '(w, gone) ← remove_derived_entry w output.1 output.2 owner;
  Done (w, if (gone : bool) then removed ++ [output.2] else removed).

Definition sweep_owner (st : World * list Entity) (owner : SystemInvocation)
    : result (World * list Entity) :=
  let '(w, removed) := st in
  let w := forget_spawns w owner in
  match derived_owners w !! owner with
  | None => Done (w, removed)
  | Some outputs =>
      fold_result (sweep_output owner)
        (set_derived_owners (delete owner (derived_owners w)) w, removed) (hash_iter outputs)
  end.

Definition owner_touched (keyset : gset Entity) (systems : option (gset SystemId))
    (o : SystemInvocation) : bool :=
  match systems with None => true | Some ids => bool_decide (system o ∈ ids) end
  && existsb (λ k, bool_decide (k ∈ keyset)) (keys o).

Definition remove_derived_touched_by_systems (w : World) (keyset : gset Entity)
    (systems : option (gset SystemId)) : result (World * list Entity) :=
  fold_result sweep_owner (w, [])
    (filter (λ o, owner_touched keyset systems o = true) (hash_iter (dom (derived_owners w)))).

Definition remove_derived_touched_by (w : World) (keyset : gset Entity)
    : result (World * list Entity) := remove_derived_touched_by_systems w keyset None.

(** ** Removing an entity *)

(** The edges and retractions an entity implies, store by store. *)
Definition relationship_ops (w : World) (e : Entity)
    : list (TypeId * Entity) * list (TypeId * Entity) :=
  foldr (λ '(ty, s) '(edges, retractions),
      match entry ← entries s !! e; cell_get w (entry_value entry) with
      | Some v =>
          (match value_edge ty v with Some edge => edge :: edges | None => edges end,
           value_retractions ty v ++ retractions)
      | None => (edges, retractions)
      end) ([], []) (stores_iter (stores w)).

(** The state of the loop over the stores: the world, the types removed, and
    the owner of each removed derived row. *)
Definition remove_from_store (e : Entity) (st : World * list TypeId * list (SystemInvocation * TypeId))
    (p : TypeId * Store) : result (World * list TypeId * list (SystemInvocation * TypeId)) :=
  let '(w, types, unindex) := st in
  let '(ty, s) := p in
  '(s, r, owner) ← store_remove_entity s e (revision w);
  match owner with
  | None => Done (w, types, unindex)
  | Some owner =>
      w ← bump_mutations (set_revision r (put_store w ty s));
      Done (w, types ++ [ty],
            match owner with Some o => unindex ++ [(o, ty)] | None => unindex end)
  end.

(** [remove_entity] up to the relationship maintenance; also returns the
    owners of the removed rows. *)
Definition remove_rows (w : World) (e : Entity) : result (World * list SystemInvocation) :=
  '(w, types, unindex) ← fold_result (remove_from_store e) (w, [], []) (stores_iter (stores w));
  let w := fold_left (λ w ty, log_write w ty e) types w in
  let w := fold_left (λ w '(o, ty), unindex_derived w o ty e) unindex w in
  let w := set_singleton_entities (filter (λ p, p.2 ≠ e) (singleton_entities w)) w in
  let w := set_removed_entities (removed_entities w ++ [e]) w in
  w ← world_presence_clear w e;
  Done (w, unindex.*1).

Definition remove_entity (w : World) (e : Entity) : result (World * list SystemInvocation) :=
  let '(edges, retractions) := relationship_ops w e in
  '(w, owners) ← remove_rows w e;
  w ← fold_result (λ w '(inv, target), rel_remove the_relops inv e target w) w edges;
  w ← fold_result (λ w '(edge_ty, source),
        '(w, _) ← remove_component w edge_ty source None; Done w) w retractions;
  Done (set_removed_owners (removed_owners w ++ owners) w, owners).

(** ** Writes in place *)

(** [reconcile_written]: rows a finished invocation may have written. *)
Definition reconcile_row (w : World) (write : TypeId * Entity) : result World :=
  let '(ty, e) := write in
  match store_of w ty with
  | None => Done w
  | Some s =>
      '(s, r) ← reconcile_entry s ty e (revision w)
                  (λ c, v ← cell_get w c; value_fingerprint ty v);
      Done (log_write (set_revision r (put_store w ty s)) ty e)
  end.

Definition reconcile_written (w : World) (writes : list (TypeId * Entity)) : result World :=
  fold_result reconcile_row w writes.

(** [update_component_live]: [f] runs on the value behind the write guard. *)
Definition update_component_live {R} (w : World) (ty : TypeId) (e : Entity) (f : Value → Value * R)
    : result (World * option (bool * R)) :=
  next_revision ← bump (revision w);
  match store_of w ty with
  | None => Done (w, None)
  | Some s =>
      match entries s !! e with
      | None => Done (w, None)
      | Some entry =>
          match cell_get w (entry_value entry) with
          | None => Done (w, None)
          | Some v =>
              let '(v, out) := f v in
              let w := cell_put w (entry_value entry) v in
              let before := entry_fingerprint entry in
              let after := value_fingerprint ty v in
              let changed := write_changed ty before after in
              let entry := MkEntry (entry_value entry)
                             (if changed then next_revision else entry_revision entry)
                             after (entry_owner entry) in
              let s := reindex (with_entries s (<[e := entry]> (entries s))) e before after in
              let w :=
                if changed
                then set_revision next_revision
                       (log_write (put_store w ty (bump_watermark s next_revision)) ty e)
                else put_store w ty s in
              Done (w, Some (changed, out))
          end
      end
  end.

Inductive TryUpdate (R : Type) :=
  | Applied (changed : bool) (out : R)
  | Missing
  | Busy.
Arguments Applied {_} _ _.
Arguments Missing {_}.
Arguments Busy {_}.

(** [try_update_component_live]: as above, but gives up when the cell is held. *)
Definition try_update_component_live {R} (w : World) (ty : TypeId) (e : Entity)
    (held : CellId → bool) (f : Value → Value * R) : result (World * TryUpdate R) :=
  match row w ty e with
  | Some entry =>
      if held (entry_value entry)
      then _ ← bump (revision w); Done (w, Busy)
      else '(w, out) ← update_component_live w ty e f;
           Done (w, match out with Some (changed, out) => Applied changed out | None => Missing end)
  | None => _ ← bump (revision w); Done (w, Missing)
  end.

(** ** Anchors, spawn slots, singletons *)

Definition flush_derived_from (w : World) : result World :=
  if bool_decide (pending_derived_from w = []) then Done w
  else
    let pending := pending_derived_from w in
    let w := set_flushing_anchors true (set_pending_derived_from [] w) in
    w ← fold_result (λ w '(e, anchors, owner), insert w e ct_derived_from (Derived anchors) owner)
          w pending;
    Done (set_flushing_anchors false w).

Definition record_derived_spawn (w : World) (owner : SystemInvocation) (e : Entity) : World :=
  let slot := default 0 (spawn_cursors w !! owner) in
  let w := set_spawn_cursors (<[owner := S slot]> (spawn_cursors w)) w in
  let spawns := default [] (derived_spawns (shared w) !! owner) in
  let spawns := if slot <? length spawns then <[slot := e]> spawns else spawns ++ [e] in
  set_shared (set_derived_spawns (<[owner := spawns]> (derived_spawns (shared w))) (shared w)) w.

Definition spawn_slots (w : World) (owner : SystemInvocation) : list Entity :=
  default [] (derived_spawns (shared w) !! owner).

Definition finish_derived_spawns (w : World) (owner : SystemInvocation) : World :=
  let cursor := default 0 (spawn_cursors w !! owner) in
  let w := set_spawn_cursors (delete owner (spawn_cursors w)) w in
  match derived_spawns (shared w) !! owner with
  | None => w
  | Some spawns =>
      let spawns := take cursor spawns in
      set_shared
        (set_derived_spawns
           (if bool_decide (spawns = []) then delete owner (derived_spawns (shared w))
            else <[owner := spawns]> (derived_spawns (shared w))) (shared w)) w
  end.

Definition singleton_entity_or_spawn (w : World) (key : TypeId) : World * Entity :=
  match singleton_entities w !! key with
  | Some e => (w, e)
  | None =>
      let '(w, e) := spawn_empty w in
      (set_singleton_entities (<[key := e]> (singleton_entities w)) w, e)
  end.

Definition singleton_entity_or_register (w : World) (key : TypeId) (candidate : Entity)
    : World * Entity :=
  match singleton_entities w !! key with
  | Some e => (w, e)
  | None => (set_singleton_entities (<[key := candidate]> (singleton_entities w)) w, candidate)
  end.

(** [std::mem::take] of the four lists the runner drains. *)
Definition take_removed_entities (w : World) : World * list Entity :=
  (set_removed_entities [] w, removed_entities w).
Definition take_removed_owners (w : World) : World * list SystemInvocation :=
  (set_removed_owners [] w, removed_owners w).
Definition take_removed_component_owners (w : World) : World * list SystemInvocation :=
  (set_removed_component_owners [] w, removed_component_owners w).
Definition take_written_derived (w : World) : World * list (TypeId * Entity) :=
  (set_written_derived [] w, written_derived w).

End world.
