(* ===== verification/WorldInv.v ===== *)
(** * Invariants of the world, and what every operation guarantees

    [wf] is the well-formedness of a world: exact fingerprint indexes, bounded
    watermarks, allocated cells, exact presence bits, and an ownership index
    that agrees with the owners stored in the rows.  [evolves] is the contract
    the planner relies on between any two states of a run: revisions only grow,
    every row whose revision moved is in the write log and has moved its store's
    watermark, and a revision never comes back with another value.

    Every operation is reduced to a few row primitives; [row_set] is what one
    of them does, and [row_set_good] proves both properties for all of them. *)
From stdpp Require Import base numbers sets gmap fin_maps sorting list.
From S2P Require Import Prelude Components Stores Presence World.

(** Outputs taken out of an owner's index while its commit is under way. *)
Abbreviation taken := (SystemInvocation → gset (TypeId * Entity)) (only parsing).

Section inv.
Context `{ComponentTypes} `{HashOrder}.
Implicit Types (w : World) (ty : TypeId) (e : Entity) (o : SystemInvocation).

Definition presence_exact (p : PresenceIndex) (w : World) : Prop :=
  wf_presence p ∧ bit_for p = st_registry (stores w) ∧
  ∀ ty e, present p ty e ↔ is_Some (bit_for p !! ty) ∧ is_Some (row w ty e).

Definition owner_of (w : World) (ty : TypeId) (e : Entity) : option SystemInvocation :=
  entry ← row w ty e; entry_owner entry.

Record wf (X : taken) (w : World) : Prop := {
  wf_st : wf_stores (stores w);
  wf_store ty s : store_of w ty = Some s → store_ok s ∧ (watermark s ≤ revision w)%N;
  wf_cell ty e entry : row w ty e = Some entry → is_Some (cell_get w (entry_value entry));
  wf_next c : is_Some (cell_get w c) → (c < next_cell (shared w))%N;
  wf_pres : match presence w with
            | Some p => presence_exact p w
            | None => st_registry (stores w) = ∅
            end;
  wf_sound o ty e : (ty, e) ∈ outputs_of w o → owner_of w ty e = Some o;
  wf_complete o ty e : owner_of w ty e = Some o → (ty, e) ∈ outputs_of w o ∪ X o;
  wf_nonempty o : derived_owners w !! o ≠ Some ∅;
}.

(** A row of a later state: written after [w], or the row [w] had. *)
Definition fresh_or_same (w w' : World) (ty : TypeId) (e : Entity) : Prop :=
  ∀ r, row_revision w' ty e = Some r →
    (revision w < r)%N ∨
    (row_revision w ty e = Some r ∧
     (value_tracked ty = true → row_fingerprint w' ty e = row_fingerprint w ty e ∧
        (row_fingerprint w ty e = None →
         entry_value <$> row w' ty e = entry_value <$> row w ty e))).

(** A cell belongs to one row: two rows never share one, a row that is written
    anew gets a cell no row ever had, and an address is handed out once. *)
Definition own_cells (w : World) : Prop :=
  ∀ ty e entry ty' e' entry', row w ty e = Some entry → row w ty' e' = Some entry' →
    entry_value entry = entry_value entry' → ty = ty' ∧ e = e'.

Record placed (w w' : World) : Prop := {
  pl_next : (next_cell (shared w) ≤ next_cell (shared w'))%N;
  pl_cell ty e entry : row w' ty e = Some entry →
    entry_value <$> row w ty e = Some (entry_value entry) ∨ (next_cell (shared w) ≤ entry_value entry)%N;
  pl_own : own_cells w → own_cells w';
}.

Lemma placed_trans w1 w2 w3 : placed w1 w2 → placed w2 w3 → placed w1 w3.
Proof.
  intros [N1 C1 O1] [N2 C2 O2]. split; [lia| |auto]. intros ty e entry Hr.
  destruct (C2 _ _ _ Hr) as [Hc|?]; [|right; lia].
  destruct (row w2 ty e) as [entry2|] eqn:H2; simpl in Hc; [|done]. injection Hc as Hc.
  destruct (C1 _ _ _ H2); rewrite <-Hc; auto.
Qed.

Lemma placed_same w w' :
  stores w' = stores w → (next_cell (shared w) ≤ next_cell (shared w'))%N → placed w w'.
Proof.
  intros Hst Hn. assert (∀ ty e, row w' ty e = row w ty e) as Hr by (intros; unfold row, store_of; by rewrite Hst).
  split; [done| |].
  - intros ty e entry. rewrite Hr. intros ->. by left.
  - intros Ho ty e entry ty' e' entry'. rewrite !Hr. apply Ho.
Qed.

Record evolves (w w' : World) : Prop := {
  ev_revision : (revision w ≤ revision w')%N;
  ev_log : ∃ l, write_log w' = write_log w ++ l ∧
    ∀ ty e, row_revision w ty e ≠ row_revision w' ty e → (ty, e) ∈ l;
  ev_fresh ty e : fresh_or_same w w' ty e;
  ev_watermark ty : (store_watermark w ty ≤ store_watermark w' ty)%N;
  ev_moved ty e : row_revision w ty e ≠ row_revision w' ty e →
    (revision w < store_watermark w' ty)%N;
  ev_raised ty : store_watermark w ty ≠ store_watermark w' ty → (revision w < store_watermark w' ty)%N;
  ev_placed : placed w w';
}.

Lemma fresh_or_same_refl w ty e : fresh_or_same w w ty e.
Proof. intros r Hr. right. done. Qed.

Lemma evolves_refl w : evolves w w.
Proof.
  split; try done; [|intros; apply fresh_or_same_refl|by apply placed_same].
  exists []. rewrite app_nil_r. split; [done|]. intros ?? Hne. by destruct Hne.
Qed.

(** The part of [evolves] that survives a compaction of the log. *)
Record progressed (w w' : World) : Prop := {
  pg_revision : (revision w ≤ revision w')%N;
  pg_fresh ty e : fresh_or_same w w' ty e;
  pg_moved ty e : row_revision w ty e ≠ row_revision w' ty e → (revision w < store_watermark w' ty)%N;
  pg_watermark ty : (store_watermark w ty ≤ store_watermark w' ty)%N;
  pg_raised ty : store_watermark w ty ≠ store_watermark w' ty → (revision w < store_watermark w' ty)%N;
  pg_placed : placed w w';
}.

Lemma evolves_progressed w w' : evolves w w' → progressed w w'.
Proof. by intros []. Qed.

Lemma progressed_refl w : progressed w w.
Proof. apply evolves_progressed, evolves_refl. Qed.

Lemma progressed_trans w1 w2 w3 : progressed w1 w2 → progressed w2 w3 → progressed w1 w3.
Proof.
  intros [R1 F1 V1 W1 T1 P1] [R2 F2 V2 W2 T2 P2]. split; [..|by eapply placed_trans].
  - lia.
  - intros ty e r Hr. destruct (F2 ty e r Hr) as [?|[Hr2 Hs2]]; [left; lia|].
    destruct (F1 ty e r Hr2) as [?|[Hr1 Hs1]]; [by left|]. right. split; [done|].
    intros Ht. destruct (Hs2 Ht) as [Hf2 Hc2]. destruct (Hs1 Ht) as [Hf1 Hc1].
    split; [congruence|]. intros Hn. rewrite Hc2, Hc1 by congruence. done.
  - intros ty e Hne. specialize (W2 ty).
    destruct (decide (row_revision w1 ty e = row_revision w2 ty e)) as [Heq|Hne1].
    + specialize (V2 ty e). rewrite <-Heq in V2. apply V2 in Hne. lia.
    + apply V1 in Hne1. lia.
  - intros ty. specialize (W1 ty). specialize (W2 ty). lia.
  - intros ty Hne. specialize (W2 ty).
    destruct (decide (store_watermark w1 ty = store_watermark w2 ty)) as [Heq|Hne1].
    + rewrite Heq in Hne. apply T2 in Hne. lia.
    + apply T1 in Hne1. lia.
Qed.

Lemma evolves_trans w1 w2 w3 : evolves w1 w2 → evolves w2 w3 → evolves w1 w3.
Proof.
  intros E1 E2. destruct (progressed_trans _ _ _ (evolves_progressed _ _ E1) (evolves_progressed _ _ E2)).
  destruct E1 as [_ (l1 & L1 & M1) _ _ _ _ _], E2 as [_ (l2 & L2 & M2) _ _ _ _ _]. split; try done.
  exists (l1 ++ l2). rewrite L2, L1, app_assoc. split; [done|]. intros ty e Hne.
  apply elem_of_app. destruct (decide (row_revision w1 ty e = row_revision w2 ty e)) as [Heq|].
  - right. apply M2. congruence.
  - left. by apply M1.
Qed.


#[local] Instance evolves_preorder : PreOrder evolves.
Proof. split; [intros w; apply evolves_refl|intros ???; apply evolves_trans]. Qed.

(** ** Rows *)

Lemma store_of_put w ty s ty' :
  wf_stores (stores w) →
  store_of (put_store w ty s) ty' = if decide (ty' = ty) then Some s else store_of w ty'.
Proof. intros Hwf. by apply stores_get_put. Qed.

Lemma row_put w ty s ty' e :
  wf_stores (stores w) →
  row (put_store w ty s) ty' e = if decide (ty' = ty) then entries s !! e else row w ty' e.
Proof. intros Hwf. unfold row. rewrite store_of_put by done. by case_decide. Qed.

Lemma row_revision_row w ty e : row_revision w ty e = entry_revision <$> row w ty e.
Proof. unfold row_revision, row, revision_for_entity. by destruct (store_of w ty). Qed.

Lemma get_or_insert_entries w ty e : entries (stores_get_or_insert (stores w) ty) !! e = row w ty e.
Proof.
  unfold stores_get_or_insert, row, store_of. destruct (stores_get (stores w) ty); simpl; [done|].
  apply lookup_empty.
Qed.

Lemma get_or_insert_ok X w ty :
  wf X w → store_ok (stores_get_or_insert (stores w) ty) ∧
           watermark (stores_get_or_insert (stores w) ty) = store_watermark w ty ∧
           (store_watermark w ty ≤ revision w)%N.
Proof.
  intros Hwf. unfold stores_get_or_insert, store_watermark, store_of.
  destruct (stores_get (stores w) ty) as [s|] eqn:Hs; simpl.
  - destruct (wf_store _ _ Hwf _ _ Hs). done.
  - split; [apply store_default_ok|]. split; [done|lia].
Qed.

(** *** Writing one row *)

(** What every row primitive does: it replaces the entry of ([ty], [e]) by
    [new] and leaves every other row alone. *)
Record row_set (X : taken) (w w' : World) (ty : TypeId) (e : Entity)
    (new : option ComponentEntry) : Prop := {
  rs_store : ∃ s, stores w' = stores_put (stores w) ty s ∧ store_ok s ∧
    (∀ e', entries s !! e' = if decide (e' = e) then new else row w ty e') ∧
    (store_watermark w ty ≤ watermark s ≤ revision w')%N ∧
    (row_revision w ty e ≠ entry_revision <$> new ∨ store_watermark w ty ≠ watermark s →
     (revision w < watermark s)%N);
  rs_revision : (revision w ≤ revision w')%N;
  rs_log : write_log w' = write_log w ++ [(ty, e)] ∨
           (write_log w' = write_log w ∧ row_revision w ty e = entry_revision <$> new);
  rs_cells c : is_Some (cell_get w c) → is_Some (cell_get w' c);
  rs_next c : is_Some (cell_get w' c) → (c < next_cell (shared w'))%N;
  rs_new_cell entry : new = Some entry → is_Some (cell_get w' (entry_value entry));
  rs_pres : match presence w with
    | None => presence w' = None
    | Some p => ∃ p', presence w' = Some p' ∧ wf_presence p' ∧ bit_for p' = bit_for p ∧
        ∀ ty' e', present p' ty' e' ↔
          if decide (ty' = ty ∧ e' = e) then is_Some (bit_for p !! ty) ∧ is_Some new
          else present p ty' e'
    end;
  rs_owners o ty' e' : ¬ (ty' = ty ∧ e' = e) →
    (ty', e') ∈ outputs_of w' o ↔ (ty', e') ∈ outputs_of w o;
  rs_sound o : (ty, e) ∈ outputs_of w' o → new ≫= entry_owner = Some o;
  rs_complete o : new ≫= entry_owner = Some o → (ty, e) ∈ outputs_of w' o ∪ X o;
  rs_nonempty o : derived_owners w' !! o ≠ Some ∅;
  rs_fresh entry : new = Some entry →
    (revision w < entry_revision entry)%N ∨
    (row_revision w ty e = Some (entry_revision entry) ∧
     (value_tracked ty = true → entry_fingerprint entry = row_fingerprint w ty e ∧
        (row_fingerprint w ty e = None → Some (entry_value entry) = entry_value <$> row w ty e)));
  rs_place : (next_cell (shared w) ≤ next_cell (shared w'))%N ∧
    ∀ entry, new = Some entry →
      entry_value <$> row w ty e = Some (entry_value entry) ∨ (next_cell (shared w) ≤ entry_value entry)%N;
}.

Lemma row_set_row X w w' ty e new ty' e' :
  wf X w → row_set X w w' ty e new →
  row w' ty' e' = if decide (ty' = ty ∧ e' = e) then new else row w ty' e'.
Proof.
  intros Hwf Hrs. destruct (rs_store _ _ _ _ _ _ Hrs) as (s & Hst & _ & Hent & _).
  unfold row at 1, store_of. rewrite Hst, stores_get_put by apply Hwf.
  case_decide as Hty; simpl.
  - subst ty'. rewrite Hent. repeat case_decide; naive_solver.
  - rewrite decide_False by naive_solver. done.
Qed.

Lemma row_set_wf X w w' ty e new : wf X w → row_set X w w' ty e new → wf X w'.
Proof.
  intros Hwf Hrs.
  assert (∀ ty' e', row w' ty' e' = if decide (ty' = ty ∧ e' = e) then new else row w ty' e')
    as Hrow' by (intros; by eapply row_set_row).
  assert (st_registry (stores w') = st_registry (stores w)) as Hreg.
  { destruct (rs_store _ _ _ _ _ _ Hrs) as (s & -> & _). unfold stores_put.
    by destruct (st_registry (stores w) !! ty). }
  destruct Hrs as [(s & Hst & Hs & Hent & [Hwm1 Hwm2] & _) Hrev _ Hcells Hnext Hnew Hpres
    Howners Hsound Hcomplete Hne _ _].
  split.
  - rewrite Hst. apply wf_stores_put, Hwf.
  - intros ty' s'. unfold store_of. rewrite Hst, stores_get_put by apply Hwf. case_decide.
    + by intros [= <-].
    + intros Hs'. destruct (wf_store _ _ Hwf _ _ Hs') as [? ?]. split; [done|lia].
  - intros ty' e' entry. rewrite Hrow'. case_decide; [auto|].
    intros Hr. by eapply Hcells, wf_cell.
  - done.
  - destruct (presence w) as [p|] eqn:Hp.
    + destruct Hpres as (p' & -> & Hwp & Hb & Hpres). pose proof (wf_pres _ _ Hwf) as Hw.
      rewrite Hp in Hw. destruct Hw as (_ & Hbit & Hex). split; [done|]. split; [congruence|].
      intros ty' e'. rewrite Hpres, Hb, Hrow'. case_decide as Hd; [|by rewrite Hex].
      destruct Hd as [-> ->]. done.
    + rewrite Hpres, Hreg. pose proof (wf_pres _ _ Hwf) as Hw. by rewrite Hp in Hw.
  - intros o ty' e'. unfold owner_of. rewrite Hrow'. case_decide as Hd.
    + destruct Hd as [-> ->]. apply Hsound.
    + rewrite Howners by done. by apply wf_sound with (X := X).
  - intros o ty' e'. unfold owner_of. rewrite Hrow'. case_decide as Hd.
    + destruct Hd as [-> ->]. apply Hcomplete.
    + rewrite elem_of_union, Howners, <-elem_of_union by done. by apply wf_complete.
  - done.
Qed.

Lemma row_placed X w w' ty e new :
  wf X w → (∀ ty' e', row w' ty' e' = if decide (ty' = ty ∧ e' = e) then new else row w ty' e') →
  (next_cell (shared w) ≤ next_cell (shared w'))%N ∧
  (∀ entry, new = Some entry →
      entry_value <$> row w ty e = Some (entry_value entry) ∨ (next_cell (shared w) ≤ entry_value entry)%N) →
  placed w w'.
Proof.
  intros Hwf Hrow [Hn Hnew]. split; [done| |].
  - intros ty' e' entry. rewrite Hrow. case_decide as Hd; [|intros ->; by left]. destruct Hd as [-> ->]. apply Hnew.
  - intros Ho. assert (∀ entry ty' e' entry', new = Some entry → row w ty' e' = Some entry' →
      entry_value entry = entry_value entry' → ty = ty' ∧ e = e') as Hx.
    { intros entry ty' e' entry' He Hr Heq. destruct (Hnew _ He) as [Hold|Hge].
      - destruct (row w ty e) as [old|] eqn:Hrw; simpl in Hold; [|done]. injection Hold as Hold.
        eapply Ho; [exact Hrw|exact Hr|congruence].
      - destruct (wf_cell _ _ Hwf _ _ _ Hr) as [v Hv]. assert (entry_value entry' < next_cell (shared w))%N; [|lia].
        apply (wf_next _ _ Hwf). eauto. }
    intros ty1 e1 entry1 ty2 e2 entry2. rewrite !Hrow. case_decide as D1; case_decide as D2.
    + naive_solver.
    + destruct D1 as [-> ->]. apply Hx.
    + destruct D2 as [-> ->]. intros H1 H2 Heq. destruct (Hx _ _ _ _ H2 H1 (eq_sym Heq)). naive_solver.
    + apply Ho.
Qed.

Lemma row_set_evolves X w w' ty e new : wf X w → row_set X w w' ty e new → evolves w w'.
Proof.
  intros Hwf Hrs.
  assert (∀ ty' e', row w' ty' e' = if decide (ty' = ty ∧ e' = e) then new else row w ty' e')
    as Hrow by (intros; by eapply row_set_row).
  destruct Hrs as [(s & Hst & Hs & Hent & [Hwm1 Hwm2] & Hmoved) Hrev Hlog _ _ _ _ _ _ _ _ Hfresh Hplace].
  assert (∀ ty', store_watermark w' ty' =
            if decide (ty' = ty) then watermark s else store_watermark w ty') as Hwm.
  { intros ty'. unfold store_watermark, store_of. rewrite Hst, stores_get_put by apply Hwf.
    by case_decide. }
  assert (∀ ty' e', row_revision w ty' e' ≠ row_revision w' ty' e' →
    ty' = ty ∧ e' = e ∧ row_revision w ty e ≠ entry_revision <$> new) as Hdiff.
  { intros ty' e'. rewrite !row_revision_row, Hrow. case_decide as Hd; [|done].
    destruct Hd as [-> ->]. auto. }
  split.
  - done.
  - destruct Hlog as [Hlog|[Hlog Hsame]].
    + exists [(ty, e)]. split; [done|]. intros ty' e' (-> & -> & _)%Hdiff. by left.
    + exists []. rewrite app_nil_r. split; [done|]. by intros ty' e' (-> & -> & ?)%Hdiff.
  - intros ty' e' r. unfold row_fingerprint at 1. rewrite row_revision_row, Hrow.
    case_decide as Hd; [|intros Hr; right; by rewrite row_revision_row].
    destruct Hd as [-> ->]. destruct new as [entry|]; [|done]. simpl. intros [= <-].
    destruct (Hfresh _ eq_refl) as [?|[? Hsame]]; [by left|]. by right.
  - intros ty'. rewrite Hwm. case_decide; [by subst|lia].
  - intros ty' e' (-> & -> & Hne)%Hdiff. rewrite Hwm, decide_True by done. auto.
  - intros ty'. rewrite Hwm. case_decide; [subst; auto|done].
  - by eapply row_placed.
Qed.

(** ** Frames: which fields a step touches *)

Lemma register_singleton_frame w ty e w' :
  register_singleton w ty e = Done w' → ∃ m, w' = set_singleton_entities m w.
Proof.
  assert (w = set_singleton_entities (singleton_entities w) w) as Hw by by destruct w.
  unfold register_singleton. destruct (value_singleton_key ty) as [key|]; [|intros [= <-]; eauto].
  destruct (singleton_entities w !! key); [case_bool_decide; [done|]|]; intros [= <-]; eauto.
Qed.

Lemma bump_mutations_frame w w' : bump_mutations w = Done w' → ∃ m, w' = set_mutations m w.
Proof. unfold bump_mutations. intros (m & _ & [= <-])%bind_Done. eauto. Qed.

Lemma bump_revision_frame w w' :
  bump_revision w = Done w' → w' = set_revision (revision w + 1)%N w.
Proof.
  unfold bump_revision, bump. intros (r & Hr & [= <-])%bind_Done.
  apply expect_Done, u64_checked_succ_Some in Hr as [-> _]. done.
Qed.

Lemma insert_revision_frame w ty e b w' r :
  insert_revision w ty e b = Done (w', r) →
  (w' = set_revision (revision w + 1)%N w ∧ r = (revision w + 1)%N ∧
   (value_tracked ty = false ∨ b = false ∨ row_revision w ty e = None)) ∨
  (w' = w ∧ row_revision w ty e = Some r ∧ value_tracked ty = true ∧ b = true).
Proof.
  unfold insert_revision. assert (∀ w' r, (w0 ← bump_revision w; Done (w0, revision w0)) = Done (w', r) →
    w' = set_revision (revision w + 1)%N w ∧ r = (revision w + 1)%N) as Hfresh.
  { intros w0 r0 (w1 & H1%bump_revision_frame & [= <- <-])%bind_Done. subst. done. }
  destruct (value_tracked ty); [|intros (-> & ->)%Hfresh; eauto 6].
  destruct b; [|intros (-> & ->)%Hfresh; eauto 6].
  destruct (row_revision w ty e) as [r0|]; [|intros (-> & ->)%Hfresh; eauto 7].
  intros [= <- <-]. right. done.
Qed.

Lemma world_presence_set_frame w ty e b w' :
  world_presence_set w ty e b = Done w' → ∃ p, w' = set_presence p w.
Proof.
  unfold world_presence_set. destruct (presence w) as [p|] eqn:Hp.
  - intros (p' & _ & [= <-])%bind_Done. eauto.
  - intros [= <-]. exists None. destruct w; simpl in *; by subst.
Qed.

(** The presence part of a row write. *)
Lemma world_presence_set_spec w ty e b w' :
  world_presence_set w ty e b = Done w' →
  match presence w with Some p => wf_presence p | None => True end →
  match presence w with
  | None => presence w' = None
  | Some p => ∃ p', presence w' = Some p' ∧ wf_presence p' ∧ bit_for p' = bit_for p ∧
      ∀ ty' e', present p' ty' e' ↔
        if decide (ty' = ty ∧ e' = e) then is_Some (bit_for p !! ty) ∧ b = true
        else present p ty' e'
  end.
Proof.
  unfold world_presence_set. destruct (presence w) as [p|] eqn:Hp; [|by intros [= <-]].
  intros (p' & Hset & [= <-])%bind_Done Hwf.
  destruct (presence_set_aux p ty e b Hwf) as (p'' & Hset' & Hwf' & Hb & Hs & Hpres).
  rewrite Hset in Hset'. injection Hset' as <-. exists p'. split_and!; try done.
  intros ty' e'. rewrite Hpres. case_decide; naive_solver.
Qed.

Lemma unindex_derived_frame w o ty e : ∃ m, unindex_derived w o ty e = set_derived_owners m w.
Proof.
  unfold unindex_derived. destruct (derived_owners w !! o); eauto.
  exists (derived_owners w). by destruct w.
Qed.

Lemma insert_owner_frame w ty e p no : ∃ m, insert_owner w ty e p no = set_derived_owners m w.
Proof.
  unfold insert_owner, index_derived. assert (w = set_derived_owners (derived_owners w) w) as Hw
    by by destruct w.
  destruct (p ≫= entry_owner) as [po|]; simpl.
  - case_bool_decide; [destruct (unindex_derived_frame w po ty e) as [m ->]|];
      destruct no; simpl; eauto.
  - destruct no; simpl; eauto.
Qed.

(** ** The ownership index *)

Lemma unindex_outputs w o ty e o' x :
  x ∈ outputs_of (unindex_derived w o ty e) o' ↔
  x ∈ outputs_of w o' ∧ ¬ (o' = o ∧ x = (ty, e)).
Proof.
  unfold unindex_derived, outputs_of. destruct (derived_owners w !! o) as [out|] eqn:Ho; simpl.
  - destruct (decide (o' = o)) as [->|Hne].
    + rewrite Ho. simpl. case_bool_decide as Hempty.
      * rewrite lookup_delete_eq. simpl. set_solver.
      * rewrite lookup_insert_eq. simpl. set_solver.
    + case_bool_decide; [rewrite lookup_delete_ne by done|rewrite lookup_insert_ne by done];
        naive_solver.
  - split; [|naive_solver]. intros Hx. split; [done|]. intros [-> ->]. rewrite Ho in Hx.
    simpl in Hx. set_solver.
Qed.

Lemma unindex_nonempty w o ty e o' :
  (∀ o, derived_owners w !! o ≠ Some ∅) → derived_owners (unindex_derived w o ty e) !! o' ≠ Some ∅.
Proof.
  intros Hne. unfold unindex_derived. destruct (derived_owners w !! o) as [out|] eqn:Ho; [|done].
  simpl. case_bool_decide as Hempty.
  - rewrite lookup_delete_Some. naive_solver.
  - rewrite lookup_insert_Some. naive_solver.
Qed.

Lemma index_outputs w o ty e o' x :
  x ∈ outputs_of (index_derived w o ty e) o' ↔ x ∈ outputs_of w o' ∨ (o' = o ∧ x = (ty, e)).
Proof.
  unfold index_derived, outputs_of. simpl. rewrite lookup_insert. case_decide; simpl; [subst|];
    set_solver.
Qed.

Lemma index_nonempty w o ty e o' :
  (∀ o, derived_owners w !! o ≠ Some ∅) → derived_owners (index_derived w o ty e) !! o' ≠ Some ∅.
Proof.
  intros Hne. unfold index_derived. simpl. rewrite lookup_insert_Some.
  intros [[_ Hx]|[_ Hx]]; [set_solver|by eapply Hne].
Qed.

(** After an insert the pair belongs to its new owner only. *)
Lemma insert_owner_outputs w ty e p no o x :
  x ∈ outputs_of (insert_owner w ty e p no) o ↔
  (no = Some o ∧ x = (ty, e)) ∨
  (x ∈ outputs_of w o ∧ ¬ (p ≫= entry_owner = Some o ∧ no ≠ Some o ∧ x = (ty, e))).
Proof.
  unfold insert_owner. destruct (p ≫= entry_owner) as [po|]; simpl.
  - case_bool_decide as Hd; destruct no as [no|];
      rewrite ?index_outputs, ?unindex_outputs; destruct (decide (o = po)); naive_solver.
  - destruct no as [no|]; rewrite ?index_outputs; naive_solver.
Qed.

Lemma insert_owner_nonempty w ty e p no o :
  (∀ o, derived_owners w !! o ≠ Some ∅) →
  derived_owners (insert_owner w ty e p no) !! o ≠ Some ∅.
Proof.
  intros Hne. unfold insert_owner. destruct (p ≫= entry_owner) as [po|]; simpl.
  - case_bool_decide; destruct no; auto using index_nonempty, unindex_nonempty.
  - destruct no; auto using index_nonempty.
Qed.

(** ** The row primitives *)

(** Some outputs lose their owner, none gains one: what base writes and
    removals do to ownership. *)
Definition shrinks (w w' : World) : Prop :=
  (∀ o x, x ∈ outputs_of w' o → x ∈ outputs_of w o) ∧
  (∀ ty e o, owner_of w' ty e = Some o → owner_of w ty e = Some o).

Lemma row_set_shrinks X w w' ty e new :
  wf X w → row_set X w w' ty e new → new ≫= entry_owner = None →
  (∀ o x, x ∈ outputs_of w' o → x ∈ outputs_of w o) → shrinks w w'.
Proof.
  intros Hwf Hrs Hnew Hout. split; [done|]. intros ty' e' o. unfold owner_of.
  rewrite (row_set_row _ _ _ _ _ _ _ _ Hwf Hrs). case_decide; [|done]. destruct new; simpl in *; intros Hn;
  congruence.
Qed.

(** Cells keep their values. *)
Definition cells_kept (w w' : World) : Prop :=
  ∀ c v, cell_get w c = Some v → cell_get w' c = Some v.

(** The state of [insert_row] as one tower of field updates. *)
Lemma insert_row_tower w e ty v owner w' pe :
  insert_row w e ty v owner = Done (w', pe) →
  let fp := value_fingerprint ty v in
  let matches := fingerprint_matches w ty e fp in
  ∃ sm mu wd pr dm rv r,
    ((rv = (revision w + 1)%N ∧ r = rv ∧
        (value_tracked ty = false ∨ matches = false)) ∨
     (rv = revision w ∧ row_revision w ty e = Some r ∧ value_tracked ty = true ∧ matches = true)) ∧
    let w1 := set_written_derived wd (set_mutations mu
                (set_revision rv (set_singleton_entities sm w))) in
    world_presence_set w1 ty e true = Done (set_presence pr w1) ∧
    let w2 := put_store (fst (cell_new (log_write (set_presence pr w1) ty e) v)) ty
                (store_insert (stores_get_or_insert (stores w) ty) e
                   (MkEntry (next_cell (shared w)) r fp owner)) in
    w' = set_derived_owners dm w2 ∧ w' = insert_owner w2 ty e (row w ty e) owner ∧
    pe = (entry ← row w ty e; v ← cell_get w2 (entry_value entry); value_edge ty v).
Proof.
  intros Hins fp matches. unfold insert_row in Hins.
  apply bind_Done in Hins as (w1 & H1 & Hins).
  apply register_singleton_frame in H1 as [sm ->]. fold fp in Hins.
  change (fingerprint_matches (set_singleton_entities sm w) ty e fp) with matches in Hins.
  apply bind_Done in Hins as ([w2 r] & H2 & Hins). apply insert_revision_frame in H2.
  apply bind_Done in Hins as (w3 & H3 & Hins).
  assert (∃ mu, w3 = set_mutations mu w2) as [mu ->].
  { destruct matches; [|by apply bump_mutations_frame]. injection H3 as <-.
    exists (mutations w2). by destruct w2. }
  match type of Hins with context [if ?b then ?x else ?y] => 
    assert (∃ wd, (if b then x else y) = set_written_derived wd y) as [wd Hwd] end.
  { destruct (bool_decide (is_Some owner)); [eauto|]. 
    exists (written_derived (set_mutations mu w2)). by destruct w2. }
  rewrite Hwd in Hins. clear Hwd.
  apply bind_Done in Hins as (w4 & H4 & Hins).
  unfold insert_entry in H4. apply bind_Done in H4 as (w5 & H5 & H4).
  destruct (world_presence_set_frame _ _ _ _ _ H5) as [pr ->]. simpl in H4. injection H4 as <-.
  injection Hins as <- <-.
  destruct H2 as [(-> & -> & Hcase)|(-> & Hrr & Ht & Hm)].
  - match goal with |- context [insert_owner ?w2 ty e ?p owner] =>
      destruct (insert_owner_frame w2 ty e p owner) as [dm Hdm] end.
    exists sm, mu, wd, pr, dm, (revision w + 1)%N, (revision w + 1)%N.
    split; [left; split_and!; try done|].
    { destruct Hcase as [?|[?|Hn]]; auto. right. unfold matches, fingerprint_matches.
      destruct (row_fingerprint w ty e) as [f|] eqn:Hf; [|done].
      unfold row_fingerprint in Hf. change (row_revision w ty e = None) in Hn.
      rewrite row_revision_row in Hn. destruct (row w ty e); done. }
    split; [exact H5|]. split_and!; [exact Hdm|done|done].
  - match goal with |- context [insert_owner ?w2 ty e ?p owner] =>
      destruct (insert_owner_frame w2 ty e p owner) as [dm Hdm] end.
    exists sm, mu, wd, pr, dm, (revision w), r.
    assert (set_singleton_entities sm w = set_revision (revision w) (set_singleton_entities sm w))
      as Hid by done.
    split; [by right|]. rewrite <-Hid.
    split; [exact H5|]. split_and!; [exact Hdm|done|done].
Qed.

(** The same, field by field. *)
Lemma insert_row_fields w e ty v owner w' pe :
  insert_row w e ty v owner = Done (w', pe) →
  let fp := value_fingerprint ty v in
  let c := next_cell (shared w) in
  ∃ w1 w1' w2 r,
    ((revision w' = (revision w + 1)%N ∧ r = revision w' ∧
        (value_tracked ty = false ∨ fingerprint_matches w ty e fp = false)) ∨
     (revision w' = revision w ∧ row_revision w ty e = Some r ∧ value_tracked ty = true ∧
        fingerprint_matches w ty e fp = true)) ∧
    presence w1 = presence w ∧ world_presence_set w1 ty e true = Done w1' ∧
    presence w' = presence w1' ∧
    stores w' = stores_put (stores w) ty
                  (store_insert (stores_get_or_insert (stores w) ty) e (MkEntry c r fp owner)) ∧
    write_log w' = write_log w ++ [(ty, e)] ∧
    cells (shared w') = <[c := v]> (cells (shared w)) ∧ next_cell (shared w') = (c + 1)%N ∧
    derived_owners w2 = derived_owners w ∧
    derived_owners w' = derived_owners (insert_owner w2 ty e (row w ty e) owner) ∧
    pe = (entry ← row w ty e; v ← cell_get w' (entry_value entry); value_edge ty v).
Proof.
  intros Hins fp c.
  destruct (insert_row_tower _ _ _ _ _ _ _ Hins)
    as (sm & mu & wd & pr & dm & rv & r & Hcase & Hpres & Hw' & Howner & Hpe).
  match type of Howner with _ = insert_owner ?w2 _ _ _ _ =>
    eexists _, _, w2, r end.
  assert (revision w' = rv) as Hrev by by rewrite Hw'.
  split.
  { rewrite Hrev. destruct Hcase as [(? & ? & ?)|(? & ? & ? & ?)]; [left|right]; by split_and!. }
  split; [|split; [exact Hpres|]]; [done|].
  rewrite <-Howner. split_and!; try done; by rewrite Hw'.
Qed.

Lemma wf_presence_of X w :
  wf X w → match presence w with Some p => wf_presence p | None => True end.
Proof. intros Hwf. pose proof (wf_pres _ _ Hwf) as Hp. destruct (presence w); [apply Hp|done]. Qed.

Lemma fingerprint_matches_row w ty e fp :
  fingerprint_matches w ty e fp = true ↔
  ∃ f, row_fingerprint w ty e = Some f ∧ fp = Some f.
Proof.
  unfold fingerprint_matches. destruct (row_fingerprint w ty e); [|naive_solver].
  rewrite bool_decide_eq_true. naive_solver.
Qed.

(** What [insert_row] stores and how the revision moves. *)
Definition inserted (w w' : World) (ty : TypeId) (e : Entity) (v : Value)
    (owner : option SystemInvocation) (r : Revision) : Prop :=
  let fp := value_fingerprint ty v in
  row w' ty e = Some (MkEntry (next_cell (shared w)) r fp owner) ∧
  cell_get w' (next_cell (shared w)) = Some v ∧
  ((revision w' = (revision w + 1)%N ∧ r = revision w' ∧
      (value_tracked ty = false ∨ fingerprint_matches w ty e fp = false)) ∨
   (revision w' = revision w ∧ row_revision w ty e = Some r ∧
      value_tracked ty = true ∧ fingerprint_matches w ty e fp = true)).

Lemma insert_row_spec X w e ty v owner w' pe :
  wf X w → insert_row w e ty v owner = Done (w', pe) →
  ∃ entry, row_set X w w' ty e (Some entry) ∧ inserted w w' ty e v owner (entry_revision entry) ∧
    cells_kept w w' ∧ pe = (v ← row_value w ty e; value_edge ty v) ∧
    (owner = None → shrinks w w').
Proof.
  intros Hwf Hins.
  destruct (insert_row_fields _ _ _ _ _ _ _ Hins)
    as (w1 & w1' & w2 & r & Hcase & Hp1 & Hset & Hp' & Hst & Hlog & Hcells & Hnext & Hd2 &
        Howner & Hpe).
  set (fp := value_fingerprint ty v) in *. set (c := next_cell (shared w)) in *.
  set (entry := MkEntry c r fp owner) in *.
  destruct (get_or_insert_ok X w ty Hwf) as (Hsok & Hswm & Hwmle).
  assert (revision w ≤ revision w')%N as Hrv by (destruct Hcase as [(-> & _)|(-> & _)]; lia).
  assert (r ≤ revision w')%N as Hr.
  { destruct Hcase as [(-> & -> & _)|(-> & Hrr & _)]; [lia|].
    rewrite row_revision_row in Hrr. destruct (row w ty e) as [en|] eqn:Hrow; simplify_eq/=.
    rewrite <-get_or_insert_entries in Hrow. apply (so_watermark _ Hsok) in Hrow. lia. }
  assert (∀ c' v', cell_get w c' = Some v' → cell_get w' c' = Some v') as Hkept.
  { intros c' v' Hc. unfold cell_get. rewrite Hcells, lookup_insert_ne; [done|]. intros <-.
    assert (c < c)%N; [|lia]. apply (wf_next _ _ Hwf). eauto. }
  assert (cell_get w' c = Some v) as Hnew
    by (unfold cell_get; by rewrite Hcells, lookup_insert_eq).
  assert (∀ o x, x ∈ outputs_of w' o ↔
    (owner = Some o ∧ x = (ty, e)) ∨
    (x ∈ outputs_of w o ∧ ¬ (owner_of w ty e = Some o ∧ owner ≠ Some o ∧ x = (ty, e)))) as Hout.
  { intros o x. assert (outputs_of w o = outputs_of w2 o) as -> by (unfold outputs_of; by rewrite Hd2).
    rewrite <-(insert_owner_outputs w2 ty e (row w ty e)).
    unfold outputs_of. by rewrite Howner. }
  assert (row_set X w w' ty e (Some entry)) as Hrs.
  { split; try done.
    - exists (store_insert (stores_get_or_insert (stores w) ty) e entry).
      split; [done|]. split; [by apply store_insert_ok|]. split; [|split].
      + intros e'. rewrite entries_insert, lookup_insert.
        destruct (decide (e = e')) as [<-|Hne]; [by rewrite decide_True|].
        rewrite decide_False by done. apply get_or_insert_entries.
      + rewrite watermark_insert, Hswm. simpl. lia.
      + rewrite watermark_insert, Hswm. simpl. intros Hne.
        destruct Hcase as [(? & -> & _)|(_ & Hrr & _)]; [lia|]. destruct Hne as [?|Hne]; [congruence|].
        rewrite row_revision_row in Hrr. destruct (row w ty e) as [en|] eqn:Hrow; simplify_eq/=.
        rewrite <-get_or_insert_entries in Hrow. apply (so_watermark _ Hsok) in Hrow. lia.
    - by left.
    - intros c' [v' Hc]. eauto.
    - intros c'. unfold cell_get. rewrite Hcells, Hnext, lookup_insert.
      case_decide; [subst; lia|]. intros Hc%(wf_next _ _ Hwf). lia.
    - intros en [= <-]. eauto.
    - pose proof (world_presence_set_spec _ _ _ _ _ Hset) as Hp.
      rewrite Hp1, <-Hp' in Hp. specialize (Hp (wf_presence_of _ _ Hwf)).
      destruct (presence w) as [p|]; [|done].
      destruct Hp as (p' & ? & ? & ? & Hex). exists p'. split_and!; try done.
      intros ty' e'. rewrite Hex. case_decide; naive_solver.
    - intros o ty' e' Hne. rewrite Hout. naive_solver.
    - intros o. rewrite Hout. simpl. intros [[? _]|[Hin Hno]]; [done|].
      apply (wf_sound _ _ Hwf) in Hin. destruct (decide (owner = Some o)); [done|].
      exfalso. apply Hno. by split_and!.
    - intros o Ho. simpl in Ho. apply elem_of_union. left. rewrite Hout. by left.
    - intros o. rewrite Howner. apply insert_owner_nonempty. rewrite Hd2. apply Hwf.
    - intros en [= <-]. simpl. destruct Hcase as [(? & -> & _)|(_ & Hrr & Ht & Hm)]; [left; lia|].
      right. split; [done|]. intros _. apply fingerprint_matches_row in Hm as (f & Hf & ->).
      rewrite Hf. done.
    - split; [rewrite Hnext; unfold c; lia|]. intros en [= <-]. right. simpl. unfold c. lia. }
  exists entry. split; [done|]. split; [|split; [done|split]].
  - split; [|split; [done|]].
    { rewrite (row_set_row _ _ _ _ _ _ _ _ Hwf Hrs). by rewrite decide_True. }
    destruct Hcase as [(? & ? & ?)|(? & ? & ? & ?)]; [left|right]; auto.
  - rewrite Hpe. unfold row_value. destruct (row w ty e) as [en|] eqn:Hrow; simpl; [|done].
    destruct (wf_cell _ _ Hwf _ _ _ Hrow) as [v' Hv'].
    rewrite Hv'. by rewrite (Hkept _ _ Hv').
  - intros ->. eapply row_set_shrinks; [done..|]. intros o x. rewrite Hout. naive_solver.
Qed.

(** *** Dropping one row *)

(** The steps common to [remove_component] and [remove_derived_entry]. *)
Lemma drop_bump_fields w ty e s1 wa wb :
  wf_stores (stores w) →
  world_presence_set (put_store w ty s1) ty e false = Done wa →
  bump_removal (log_write wa ty e) ty = Done wb →
  stores wb = stores_put (stores w) ty (bump_watermark s1 (revision w + 1)%N) ∧
  revision wb = (revision w + 1)%N ∧ write_log wb = write_log w ++ [(ty, e)] ∧
  shared wb = shared w ∧ derived_owners wb = derived_owners w ∧ presence wb = presence wa ∧
  singleton_entities wb = singleton_entities w.
Proof.
  intros Hwf Hset Hb. destruct (world_presence_set_frame _ _ _ _ _ Hset) as [pr ->].
  unfold bump_removal in Hb. apply bind_Done in Hb as (w1 & H1 & Hb).
  apply bump_mutations_frame in H1 as [m ->].
  apply bind_Done in Hb as (w2 & H2 & Hb). apply bump_revision_frame in H2. subst w2.
  injection Hb as <-.
  match goal with |- context [store_of ?x ty] =>
    assert (store_of x ty = Some s1) as -> end.
  { change (stores_get (stores_put (stores w) ty s1) ty = Some s1).
    by rewrite stores_get_put, decide_True. }
  split; [|done]. simpl. by rewrite stores_put_put.
Qed.

(** A dropped row, whatever happened to the fields rows do not depend on. *)
Lemma drop_row_set X w w' ty e removed wa :
  wf X w → row w ty e = Some removed →
  world_presence_set (put_store w ty (store_drop (stores_get_or_insert (stores w) ty) e removed))
    ty e false = Done wa →
  stores w' = stores_put (stores w) ty
    (bump_watermark (store_drop (stores_get_or_insert (stores w) ty) e removed)
       (revision w + 1)%N) →
  revision w' = (revision w + 1)%N → write_log w' = write_log w ++ [(ty, e)] →
  shared w' = shared w → presence w' = presence wa →
  (∀ o x, x ∈ outputs_of w' o ↔ x ∈ outputs_of w o ∧ x ≠ (ty, e)) →
  (∀ o, derived_owners w' !! o ≠ Some ∅) →
  row_set X w w' ty e None.
Proof.
  intros Hwf Hrow Hset Hst Hrev Hlog Hsh Hp' Hout Hne.
  destruct (get_or_insert_ok X w ty Hwf) as (Hsok & Hswm & Hwmle).
  pose proof Hrow as Hent. rewrite <-get_or_insert_entries in Hent.
  split; try done.
  - eexists; split; [done|]. split; [by apply bump_watermark_ok, store_drop_ok|]. split; [|split].
    + intros e'. simpl. rewrite entries_drop, lookup_delete. case_decide as Hd.
      * subst e'. by rewrite decide_True.
      * rewrite decide_False by done. apply get_or_insert_entries.
    + simpl. rewrite watermark_drop, Hswm, Hrev. lia.
    + intros _. simpl. rewrite watermark_drop, Hswm. lia.
  - lia.
  - by left.
  - intros c. unfold cell_get. by rewrite Hsh.
  - intros c. unfold cell_get. rewrite Hsh. apply Hwf.
  - pose proof (world_presence_set_spec _ _ _ _ _ Hset) as Hp. rewrite <-Hp' in Hp.
    specialize (Hp (wf_presence_of _ _ Hwf)).
    change (presence (put_store w ty _)) with (presence w) in Hp.
    destruct (presence w) as [p|]; [|done].
    destruct Hp as (p' & ? & ? & ? & Hex). exists p'. split_and!; try done.
    intros ty' e'. rewrite Hex. case_decide; [|done].
    split; [intros [? [=]]|intros [? [? [=]]]].
  - intros o ty' e' Hn. rewrite Hout. naive_solver.
  - intros o. rewrite Hout. naive_solver.
  - rewrite Hsh. split; [lia|done].
Qed.

Lemma get_or_insert_some w ty s :
  store_of w ty = Some s → stores_get_or_insert (stores w) ty = s.
Proof. unfold stores_get_or_insert, store_of. by intros ->. Qed.

Lemma remove_owner_frame w ty e own remover :
  let w' := remove_owner w ty e own remover in
  stores w' = stores w ∧ revision w' = revision w ∧ write_log w' = write_log w ∧
  shared w' = shared w ∧ presence w' = presence w ∧
  derived_owners w' =
    match own with
    | Some o => derived_owners (unindex_derived w o ty e) | None => derived_owners w end.
Proof.
  unfold remove_owner. destruct own as [o|]; [|done].
  destruct (unindex_derived_frame w o ty e) as [m ->]. by case_bool_decide.
Qed.

Lemma release_singleton_frame w ty e : ∃ m, release_singleton w ty e = set_singleton_entities m w.
Proof.
  assert (w = set_singleton_entities (singleton_entities w) w) as Hw by by destruct w.
  unfold release_singleton. destruct (value_singleton_key ty); [case_bool_decide|]; eauto.
Qed.

Lemma remove_row_spec X w ty e remover w' out :
  wf X w → remove_row w ty e remover = Done (w', out) →
  match out with
  | None => w' = w ∧ row w ty e = None
  | Some (c, edge) =>
      ∃ removed, row w ty e = Some removed ∧ c = entry_value removed ∧
        edge = (v ← row_value w ty e; value_edge ty v) ∧
        row_set X w w' ty e None ∧ shared w' = shared w ∧ shrinks w w' ∧
        revision w' = (revision w + 1)%N
  end.
Proof.
  intros Hwf. unfold remove_row, row at 1. destruct (store_of w ty) as [s|] eqn:Hs; simpl.
  2:{ intros [= <- <-]. unfold row. by rewrite Hs. }
  destruct (entries s !! e) as [removed|] eqn:He.
  2:{ intros [= <- <-]. unfold row. by rewrite Hs. }
  assert (row w ty e = Some removed) as Hrow by (unfold row; by rewrite Hs).
  unfold drop_entry. intros (w1 & (wa & Hset & [= <-])%bind_Done & Hrest)%bind_Done.
  apply bind_Done in Hrest as (wb & Hb & Hrest). injection Hrest as <- <-.
  destruct (drop_bump_fields _ _ _ _ _ _ (wf_st _ _ Hwf) Hset Hb)
    as (Hst & Hrev & Hlog & Hsh & Hd & Hp & _).
  destruct (release_singleton_frame (remove_owner wb ty e (entry_owner removed) remover) ty e)
    as [m Hm].
  destruct (remove_owner_frame wb ty e (entry_owner removed) remover) as (F1&F2&F3&F4&F5&F6).
  set (w' := release_singleton _ ty e) in *.
  assert (∀ o x, x ∈ outputs_of w' o ↔ x ∈ outputs_of w o ∧ x ≠ (ty, e)) as Hout.
  { intros o x. assert (x ∈ outputs_of w' o ↔ x ∈ outputs_of w o ∧
       ¬ (entry_owner removed = Some o ∧ x = (ty, e))) as ->.
    { unfold outputs_of at 1. rewrite Hm. simpl. rewrite F6. destruct (entry_owner removed) as [o'|].
      - fold (outputs_of (unindex_derived wb o' ty e) o). rewrite unindex_outputs.
        unfold outputs_of. rewrite Hd. naive_solver.
      - unfold outputs_of. rewrite Hd. naive_solver. }
    split; [|naive_solver]. intros [Hin Hn]. split; [done|]. intros ->.
    apply (wf_sound _ _ Hwf) in Hin. unfold owner_of in Hin. rewrite Hrow in Hin. naive_solver. }
  assert (∀ o, derived_owners w' !! o ≠ Some ∅) as Hne.
  { intros o. rewrite Hm. simpl. rewrite F6. destruct (entry_owner removed).
    - apply unindex_nonempty. rewrite Hd. apply Hwf.
    - rewrite Hd. apply Hwf. }
  assert (shared w' = shared w) as Hsh' by (rewrite Hm; simpl; by rewrite F4).
  assert (row_set X w w' ty e None) as Hrs.
  { pose proof (get_or_insert_some _ _ _ Hs) as Hgs.
    eapply drop_row_set; rewrite ?Hgs; try done; rewrite Hm; simpl;
      by rewrite ?F1, ?F2, ?F3, ?F5, ?Hst, ?Hrev, ?Hlog, ?Hp. }
  exists removed. split; [done|]. split; [done|]. split; [|split; [done|split; [done|split]]].
  - unfold row_value. rewrite Hrow. simpl. destruct (world_presence_set_frame _ _ _ _ _ Hset) as [pr ->].
    done.
  - eapply row_set_shrinks; [done..|]. intros o x. rewrite Hout. naive_solver.
  - rewrite Hm. simpl. by rewrite F2.
Qed.

Lemma sweep_row_spec X w ty e owner w' out :
  wf X w → (ty, e) ∉ outputs_of w owner → sweep_row w ty e owner = Done (w', out) →
  match out with
  | None => w' = w ∧ owner_of w ty e ≠ Some owner
  | Some edge =>
      owner_of w ty e = Some owner ∧
      edge = (v ← row_value w ty e; value_edge ty v) ∧
      row_set X w w' ty e None ∧ shared w' = shared w ∧ shrinks w w'
  end.
Proof.
  intros Hwf Hni. unfold sweep_row, owner_of, row.
  destruct (store_of w ty) as [s|] eqn:Hs; simpl; [|by intros [= <- <-]].
  unfold remove_entry_owned. destruct (entries s !! e) as [removed|] eqn:He; simpl;
    [|by intros [= <- <-]].
  case_bool_decide as Hown; [intros [= <- <-]; by split|].
  intros (wa & Hset & Hrest)%bind_Done. apply bind_Done in Hrest as (wb & Hb & Hrest).
  injection Hrest as <- <-.
  assert (row w ty e = Some removed) as Hrow by (unfold row; by rewrite Hs).
  destruct (drop_bump_fields _ _ _ _ _ _ (wf_st _ _ Hwf) Hset Hb)
    as (Hst & Hrev & Hlog & Hsh & Hd & Hp & _).
  assert (∀ o, outputs_of wb o = outputs_of w o) as Hout by (intros; unfold outputs_of; by rewrite Hd).
  assert (row_set X w wb ty e None) as Hrs.
  { pose proof (get_or_insert_some _ _ _ Hs) as Hgs.
    eapply drop_row_set; rewrite ?Hgs; try done.
    + intros o x. rewrite Hout. split; [|naive_solver]. intros Hin. split; [done|]. intros ->.
      apply (wf_sound _ _ Hwf) in Hin as Ho. unfold owner_of in Ho. rewrite Hrow in Ho.
      simpl in Ho. congruence.
    + intros o. rewrite Hd. apply Hwf. }
  split; [done|]. split; [done|]. split; [done|split; [done|]].
  eapply row_set_shrinks; [done..|]. intros o x. by rewrite Hout.
Qed.

(** ** Every operation keeps the invariant and evolves the world *)

Definition good (X : taken) (w w' : World) : Prop := wf X w' ∧ evolves w w'.

Lemma good_refl X w : wf X w → good X w w.
Proof. intros Hwf. split; [done|apply evolves_refl]. Qed.

Lemma good_trans X w1 w2 w3 : good X w1 w2 → good X w2 w3 → good X w1 w3.
Proof. intros [_ E1] [W E2]. split; [done|by eapply evolves_trans]. Qed.

Lemma good_evolves X w1 w2 w3 : evolves w1 w2 → good X w2 w3 → good X w1 w3.
Proof. intros E1 [W E2]. split; [done|by eapply evolves_trans]. Qed.

Lemma shrinks_refl w : shrinks w w.
Proof. by split. Qed.
Lemma shrinks_trans w1 w2 w3 : shrinks w1 w2 → shrinks w2 w3 → shrinks w1 w3.
Proof. intros [] []. split; auto. Qed.

Lemma row_set_good X w w' ty e new : wf X w → row_set X w w' ty e new → good X w w'.
Proof. split; [by eapply row_set_wf|by eapply row_set_evolves]. Qed.

(** Steps that do not touch rows, logs, owners or presence. *)
Lemma frame_row w w' ty e : stores w' = stores w → row w' ty e = row w ty e.
Proof. intros Hst. unfold row, store_of. by rewrite Hst. Qed.

Lemma frame_wf X X' w w' :
  stores w' = stores w → (revision w ≤ revision w')%N → derived_owners w' = derived_owners w →
  presence w' = presence w → (∀ c, is_Some (cell_get w' c) ↔ is_Some (cell_get w c)) →
  next_cell (shared w') = next_cell (shared w) →
  (∀ o ty e, owner_of w ty e = Some o → (ty, e) ∈ X o → (ty, e) ∈ outputs_of w o ∪ X' o) →
  wf X w → wf X' w'.
Proof.
  intros Hst Hrev Hd Hp Hc Hn HX Hwf.
  assert (∀ o, outputs_of w' o = outputs_of w o) as Hout by (intros; unfold outputs_of; by rewrite Hd).
  assert (∀ ty e, owner_of w' ty e = owner_of w ty e) as Hown
    by (intros; unfold owner_of; by rewrite (frame_row w w')).
  split; try (intros; rewrite ?Hst, ?Hd; by apply Hwf).
  - intros ty s. unfold store_of. rewrite Hst. intros Hs. destruct (wf_store _ _ Hwf _ _ Hs).
    split; [done|lia].
  - intros ty e entry. rewrite (frame_row w w') by done. rewrite Hc. apply Hwf.
  - intros c. rewrite Hc, Hn. apply Hwf.
  - rewrite Hp, Hst. pose proof (wf_pres _ _ Hwf) as Hpres.
    destruct (presence w) as [p|]; [|done]. destruct Hpres as (H1 & H2 & H3).
    split; [done|]. split; [by rewrite Hst|]. intros ty e. by rewrite H3, (frame_row w w').
  - intros o ty e. rewrite Hout, Hown. apply Hwf.
  - intros o ty e. rewrite Hown, Hout. intros Ho. pose proof (wf_complete _ _ Hwf _ _ _ Ho) as Hin.
    apply elem_of_union in Hin as [?|?]; [by apply elem_of_union_l|]. by apply HX.
Qed.

Lemma frame_evolves w w' :
  stores w' = stores w → (revision w ≤ revision w')%N →
  (∃ l, write_log w' = write_log w ++ l) → (next_cell (shared w) ≤ next_cell (shared w'))%N → evolves w w'.
Proof.
  intros Hst Hrev [l Hl] Hn.
  assert (∀ ty e, row_revision w' ty e = row_revision w ty e) as Hr
    by (intros; unfold row_revision, store_of; by rewrite Hst).
  split; try done.
  - exists l. split; [done|]. intros ty e Hne. by rewrite Hr in Hne.
  - intros ty e r Hrr. right. rewrite Hr in Hrr. split; [done|]. intros _.
    unfold row_fingerprint. by rewrite (frame_row w w').
  - intros ty. unfold store_watermark, store_of. by rewrite Hst.
  - intros ty e Hne. by rewrite Hr in Hne.
  - intros ty Hne. destruct Hne. unfold store_watermark, store_of. by rewrite Hst.
  - by apply placed_same.
Qed.

(** The common case: only bookkeeping fields changed. *)
Lemma frame_good X w w' :
  stores w' = stores w → revision w' = revision w → derived_owners w' = derived_owners w →
  presence w' = presence w → cells (shared w') = cells (shared w) →
  next_cell (shared w') = next_cell (shared w) → write_log w' = write_log w →
  wf X w → good X w w'.
Proof.
  intros Hst Hrev Hd Hp Hc Hn Hl Hwf. split.
  - eapply frame_wf; eauto; [lia| |set_solver]. intros c. unfold cell_get. by rewrite Hc.
  - apply frame_evolves; [done|lia| |lia]. exists []. by rewrite app_nil_r.
Qed.

(** *** Relationship maintenance *)

Definition ops_good (ops : RelOps) : Prop :=
  ∀ X inv s t w w', wf X w →
    (rel_add ops inv s t w = Done w' → good X w w' ∧ shrinks w w') ∧
    (rel_remove ops inv s t w = Done w' → good X w w' ∧ shrinks w w').

Lemma remove_edge_good ops X w e edge w' :
  ops_good ops → wf X w → remove_edge ops w e edge = Done w' → good X w w' ∧ shrinks w w'.
Proof.
  intros Hops Hwf. unfold remove_edge. destruct edge as [[inv t]|].
  - by apply Hops.
  - intros [= <-]. split; [by apply good_refl|apply shrinks_refl].
Qed.

Lemma maintain_edges_good ops X w e p n w' :
  ops_good ops → wf X w → maintain_edges ops w e p n = Done w' → good X w w' ∧ shrinks w w'.
Proof.
  intros Hops Hwf. unfold maintain_edges. case_bool_decide.
  - intros (w1 & Hm1 & Hm2)%bind_Done.
    destruct (remove_edge_good ops X w e p w1 Hops Hwf) as [G1 S1]; [by destruct p as [[]|]|].
    destruct n as [[inv t]|].
    + destruct (proj1 (Hops X inv e t w1 w' (proj1 G1)) Hm2) as [G2 S2].
      split; [by eapply good_trans|by eapply shrinks_trans].
    + injection Hm2 as <-. done.
  - intros [= <-]. split; [by apply good_refl|apply shrinks_refl].
Qed.

Lemma insert_value_good ops X w e ty v owner w' :
  ops_good ops → wf X w → insert_value ops w e ty v owner = Done w' →
  good X w w' ∧ (owner = None → shrinks w w').
Proof.
  intros Hops Hwf. unfold insert_value. intros ([w1 pe] & Hins & Hm)%bind_Done.
  destruct (insert_row_spec _ _ _ _ _ _ _ _ Hwf Hins) as (entry & Hrs & _ & _ & _ & Hsh).
  pose proof (row_set_good _ _ _ _ _ _ Hwf Hrs) as G1.
  destruct (maintain_edges_good _ _ _ _ _ _ _ Hops (proj1 G1) Hm) as [G2 S2].
  split; [by eapply good_trans|]. intros Ho. eapply shrinks_trans; [by apply Hsh|done].
Qed.

Lemma insert_with_good ops X w e ty v owner w' :
  ops_good ops → wf X w → insert_with ops w e ty v owner = Done w' →
  good X w w' ∧ (owner = None → shrinks w w').
Proof.
  intros Hops Hwf. unfold insert_with. destruct v as [p|anchors].
  - by apply insert_value_good.
  - destruct (flushing_anchors w); [by apply insert_value_good|].
    intros [= <-]. split; [by apply frame_good|]. done.
Qed.

Lemma remove_component_with_good ops X w ty e remover w' out :
  ops_good ops → wf X w → remove_component_with ops w ty e remover = Done (w', out) →
  good X w w' ∧ shrinks w w'.
Proof.
  intros Hops Hwf. unfold remove_component_with. intros ([w1 removed] & Hrem & Hk)%bind_Done.
  pose proof (remove_row_spec _ _ _ _ _ _ _ Hwf Hrem) as Hspec.
  destruct removed as [[c edge]|].
  - apply bind_Done in Hk as (w2 & He & [= <- <-]).
    destruct Hspec as (removed & _ & _ & _ & Hrs & _ & Hsh & _).
    pose proof (row_set_good _ _ _ _ _ _ Hwf Hrs) as G1.
    destruct (remove_edge_good _ _ _ _ _ _ Hops (proj1 G1) He) as [G2 S2].
    split; [by eapply good_trans|by eapply shrinks_trans].
  - injection Hk as <- <-. destruct Hspec as [-> _].
    split; [by apply good_refl|apply shrinks_refl].
Qed.

Lemma relops_good n : ops_good (relops n).
Proof.
  induction n as [|n IH]; intros X inv s t w w' Hwf; split; simpl; try done.
  - unfold relationship_add_member_with.
    destruct (binary_search _ s) as [i|i].
    + intros [= <-]. split; [by apply good_refl|apply shrinks_refl].
    + intros Hins. destruct (insert_with_good _ _ _ _ _ _ _ _ IH Hwf Hins) as [G S]. auto.
  - unfold relationship_remove_member_with.
    destruct (v ← row_value w inv t; value_members inv v) as [ms|].
    2:{ intros [= <-]. split; [by apply good_refl|apply shrinks_refl]. }
    destruct (binary_search ms s) as [i|i].
    2:{ intros [= <-]. split; [by apply good_refl|apply shrinks_refl]. }
    case_bool_decide.
    + intros ([w1 out] & Hrem & [= <-])%bind_Done.
      by eapply remove_component_with_good.
    + intros Hins. destruct (insert_with_good _ _ _ _ _ _ _ _ IH Hwf Hins) as [G S]. auto.
Qed.

Lemma insert_good X w e ty v owner w' :
  wf X w → insert w e ty v owner = Done w' → good X w w' ∧ (owner = None → shrinks w w').
Proof. apply insert_with_good, relops_good. Qed.

Lemma remove_component_good X w ty e remover w' out :
  wf X w → remove_component w ty e remover = Done (w', out) → good X w w' ∧ shrinks w w'.
Proof. apply remove_component_with_good, relops_good. Qed.

Lemma remove_derived_entry_good X w ty e owner w' b :
  wf X w → (ty, e) ∉ outputs_of w owner → remove_derived_entry w ty e owner = Done (w', b) →
  good X w w' ∧ shrinks w w'.
Proof.
  intros Hwf Hni. unfold remove_derived_entry. intros ([w1 removed] & Hrem & Hk)%bind_Done.
  pose proof (sweep_row_spec _ _ _ _ _ _ _ Hwf Hni Hrem) as Hspec.
  destruct removed as [edge|].
  - apply bind_Done in Hk as (w2 & He & [= <- <-]). destruct Hspec as (_ & _ & Hrs & _ & Hsh).
    pose proof (row_set_good _ _ _ _ _ _ Hwf Hrs) as G1.
    destruct (remove_edge_good _ _ _ _ _ _ (relops_good _) (proj1 G1) He) as [G2 S2].
    split; [by eapply good_trans|by eapply shrinks_trans].
  - injection Hk as <- <-. destruct Hspec as [-> _].
    split; [by apply good_refl|apply shrinks_refl].
Qed.

(** A loop over operations that are good. *)
Lemma fold_good {A} X (f : World → A → result World) l w w' :
  (∀ w a w', a ∈ l → wf X w → f w a = Done w' → good X w w') →
  wf X w → fold_result f w l = Done w' → good X w w'.
Proof.
  intros Hf Hwf Hfold.
  apply (fold_result_inv (λ w1, good X w w1) f l w w'); [|by apply good_refl|done].
  intros w1 a w2 Ha G1 H1. eapply good_trans; [done|]. eapply Hf; [done|apply G1|done].
Qed.
End inv.
