(* ===== verification/Ownership.v ===== *)
(** * Sweeping derived outputs ([world.rs]): ownership of a commit

    A rerun of an invocation replaces its outputs by diffing: the commit takes
    the owner's index ([take_derived_outputs]), applies the new commands, which
    rebuild it, and removes what was not emitted again ([remove_derived_stale]).
    This file proves that loop, the retraction of a whole owner, and the sweep
    of the owners keyed by dead entities, against the invariant of WorldInv.v. *)
From stdpp Require Import base numbers sets gmap fin_maps sorting list.
From S2P Require Import Prelude Components Stores Presence World WorldInv.

Section ownership.
Context `{ComponentTypes} `{HashOrder}.
Implicit Types (w : World) (ty : TypeId) (e : Entity) (o : SystemInvocation).

(** The taken outputs of one owner, the others as in [X]. *)
Definition taken_at (X : taken) (o : SystemInvocation) (outs : gset (TypeId * Entity)) : taken :=
  λ o', if decide (o' = o) then outs else X o'.

(** *** Taking the index *)

Lemma outputs_delete w o o' :
  outputs_of (set_derived_owners (delete o (derived_owners w)) w) o' =
  if decide (o' = o) then ∅ else outputs_of w o'.
Proof.
  unfold outputs_of; simpl. rewrite lookup_delete. repeat case_decide; naive_solver.
Qed.

Lemma take_wf X w o :
  wf X w →
  wf (taken_at X o (outputs_of w o ∪ X o)) (set_derived_owners (delete o (derived_owners w)) w).
Proof.
  intros Hwf. destruct Hwf as [H1 H2 H3 H4 H5 H6 H7 H8]. split; try done.
  - intros o' ty e. rewrite outputs_delete. case_decide; [set_solver|]. apply H6.
  - intros o' ty e Ho%H7. rewrite outputs_delete. unfold taken_at.
    case_decide; [subst; set_solver|done].
  - intros o'. simpl. rewrite lookup_delete_Some. naive_solver.
Qed.

(** Forgetting the exemption of pairs the owner no longer holds. *)
Lemma wf_settle X X' w :
  wf X w → (∀ o ty e, (ty, e) ∈ X o → owner_of w ty e = Some o → (ty, e) ∈ outputs_of w o ∪ X' o) →
  wf X' w.
Proof.
  intros [H1 H2 H3 H4 H5 H6 H7 H8] HX. split; try done.
  intros o ty e Ho. specialize (H7 _ _ _ Ho). set_solver.
Qed.

Lemma forget_spawns_good X w o : wf X w → good X w (forget_spawns w o).
Proof. by apply frame_good. Qed.

(** *** One swept output *)

(** After the sweep of (ty, e), [owner] does not own it, and nothing else
    gained an owner. *)
Lemma remove_derived_entry_gone X w ty e owner w' b :
  wf X w → (ty, e) ∉ outputs_of w owner → remove_derived_entry w ty e owner = Done (w', b) →
  owner_of w' ty e ≠ Some owner.
Proof.
  intros Hwf Hni Hrun. pose proof Hrun as Hrun'.
  unfold remove_derived_entry in Hrun'. apply bind_Done in Hrun' as ([w1 removed] & Hrem & Hk).
  pose proof (sweep_row_spec _ _ _ _ _ _ _ Hwf Hni Hrem) as Hspec.
  destruct removed as [edge|].
  - apply bind_Done in Hk as (w2 & He & [= <- <-]). destruct Hspec as (_ & _ & Hrs & _ & Hsh).
    pose proof (row_set_good _ _ _ _ _ _ Hwf Hrs) as G1.
    destruct (remove_edge_good _ _ _ _ _ _ (relops_good _) (proj1 G1) He) as [_ [_ S2]].
    intros Ho%S2. unfold owner_of in Ho. rewrite (row_set_row _ _ _ _ _ _ _ _ Hwf Hrs) in Ho.
    by rewrite decide_True in Ho.
  - injection Hk as <- <-. by destruct Hspec as [-> ?].
Qed.

(** *** Loops over the outputs of one owner *)

(** The loop rule: a body that settles each pair (it ends up indexed, or not
    owned) settles them all. *)
Lemma settle_loop (I : World → Prop) (f : World → TypeId * Entity → result World) owner l :
  (∀ w w', I w → shrinks w w' → I w') →
  (∀ X w x w', x ∈ l → I w → wf X w → f w x = Done w' →
     good X w w' ∧ shrinks w w' ∧
     (owner_of w' x.1 x.2 = Some owner → x ∈ outputs_of w' owner)) →
  ∀ X w w', I w → wf X w → fold_result f w l = Done w' →
  good (taken_at X owner (X owner ∖ list_to_set l)) w w' ∧ shrinks w w'.
Proof.
  intros HI. induction l as [|x l IH]; intros Hf X w w' HIw Hwf; simpl.
  { intros [= <-]. split; [|apply shrinks_refl]. split; [|apply evolves_refl].
    eapply wf_settle; [done|]. intros o ty e Hin _. unfold taken_at. case_decide; set_solver. }
  intros (w1 & H1 & Hrest)%bind_Done.
  destruct (Hf X w x w1 ltac:(left) HIw Hwf H1) as ([W1 E1] & S1 & Hx).
  assert (wf (taken_at X owner (X owner ∖ {[x]})) w1) as W1'.
  { eapply wf_settle; [exact W1|]. intros o ty e Hin Ho. unfold taken_at.
    case_decide as Hd; [subst o|set_solver].
    destruct (decide ((ty, e) = x)) as [<-|Hne]; [|set_solver].
    apply elem_of_union_l. by apply Hx. }
  destruct (IH ltac:(intros; eapply Hf; eauto; by right) _ _ _ (HI _ _ HIw S1) W1' Hrest) as [[W2 E2] S2].
  split; [|by eapply shrinks_trans]. split; [|by eapply evolves_trans].
  eapply wf_settle; [exact W2|]. intros o ty e Hin _. unfold taken_at in *.
  repeat case_decide; set_solver.
Qed.

Lemma sweep_entry_settles X w ty e owner w' b :
  wf X w → (ty, e) ∉ outputs_of w owner → remove_derived_entry w ty e owner = Done (w', b) →
  good X w w' ∧ shrinks w w' ∧ (owner_of w' ty e = Some owner → (ty, e) ∈ outputs_of w' owner).
Proof.
  intros Hwf Hni Hrem. destruct (remove_derived_entry_good _ _ _ _ _ _ _ Hwf Hni Hrem) as [G S].
  split; [done|]. split; [done|]. intros Ho.
  by destruct (remove_derived_entry_gone _ _ _ _ _ _ _ Hwf Hni Hrem).
Qed.

Lemma hash_iter_set `{Countable A} (X : gset A) : list_to_set (hash_iter X) = X.
Proof. apply set_eq. intros x. by rewrite elem_of_list_to_set, elem_of_hash_iter. Qed.

(** ** The stale diff of a commit *)

Lemma remove_derived_stale_aux X w owner previous w' :
  wf X w → remove_derived_stale w owner previous = Done w' →
  good (taken_at X owner (X owner ∖ previous)) w w' ∧ shrinks w w'.
Proof.
  intros Hwf Hrun. rewrite <-(hash_iter_set previous) at 1.
  eapply (settle_loop (λ _, True)); [done| |done|done|exact Hrun].
  intros X1 w1 [ty e] w2 _ _ Hwf1. simpl. case_bool_decide as Hin.
  - intros [= <-]. split; [by apply good_refl|]. split; [apply shrinks_refl|done].
  - intros ([w3 b] & Hrem & [= <-])%bind_Done. by eapply sweep_entry_settles.
Qed.

(** ** Retracting an owner *)

Lemma sweep_outputs_aux X w owner outs w' :
  wf X w → outputs_of w owner = ∅ →
  fold_result (λ w '(ty, e), '(w, _) ← remove_derived_entry w ty e owner; Done w) w
    (hash_iter outs) = Done w' →
  good (taken_at X owner (X owner ∖ outs)) w w' ∧ shrinks w w'.
Proof.
  intros Hwf Hempty Hrun. rewrite <-(hash_iter_set outs) at 1.
  eapply (settle_loop (λ w, outputs_of w owner = ∅)); [| |done|done|exact Hrun].
  - intros w1 w2 He [Hs _]. apply elem_of_equiv_empty_L. intros x Hx%Hs. set_solver.
  - intros X1 w1 [ty e] w2 _ He Hwf1. simpl. intros ([w3 b] & Hrem & [= <-])%bind_Done.
    eapply sweep_entry_settles; [done| |done]. rewrite He. set_solver.
Qed.

(** [remove_derived_owned] leaves the owner without outputs and without rows. *)
Lemma remove_derived_owned_aux X w owner w' :
  wf X w → X owner = ∅ → remove_derived_owned w owner = Done w' →
  good X w w' ∧ shrinks w w' ∧ outputs_of w' owner = ∅ ∧
  ∀ ty e, owner_of w' ty e ≠ Some owner.
Proof.
  intros Hwf HX Hrun. unfold remove_derived_owned in Hrun.
  pose proof (forget_spawns_good X w owner Hwf) as Gf.
  set (w0 := forget_spawns w owner) in *.
  change (derived_owners w0) with (derived_owners w) in Hrun.
  assert (shrinks w w0) as S0 by by split.
  assert (good X w w' ∧ shrinks w w' ∧ outputs_of w' owner = ∅) as (G & S & He); last first.
  { split_and!; try done. intros ty e Ho. apply (wf_complete _ _ (proj1 G)) in Ho. set_solver. }
  destruct (derived_owners w !! owner) as [outs|] eqn:Ho.
  2:{ injection Hrun as <-. split_and!; try done. unfold outputs_of. simpl. by rewrite Ho. }
  pose proof (take_wf X w0 owner (proj1 Gf)) as Wt.
  change (derived_owners w0) with (derived_owners w) in Wt.
  set (wt := set_derived_owners (delete owner (derived_owners w)) w0) in *.
  assert (outputs_of wt owner = ∅) as Het by (unfold outputs_of; simpl; by rewrite lookup_delete_eq).
  destruct (sweep_outputs_aux _ _ _ _ _ Wt Het Hrun) as [[W E] S].
  assert (shrinks w wt) as St.
  { split; [|done]. intros o x. unfold outputs_of; simpl. rewrite lookup_delete.
    case_decide; simpl; [set_solver|done]. }
  split; [split|split].
  - eapply wf_settle; [exact W|]. intros o ty e Hin _. unfold taken_at in *.
    case_decide as Hd; [|case_decide; set_solver]. subst o. rewrite decide_True in Hin by done.
    unfold outputs_of in Hin. simpl in Hin. rewrite Ho in Hin. simpl in Hin. set_solver.
  - eapply evolves_trans; [apply Gf|]. eapply evolves_trans; [|exact E].
    apply frame_evolves; [done|done| |done]. exists []. by rewrite app_nil_r.
  - by eapply shrinks_trans.
  - apply elem_of_equiv_empty_L. intros x Hx%S. set_solver.
Qed.

(** ** Sweeping the owners keyed by dead entities *)

Lemma sweep_output_fst owner l w removed w' removed' :
  fold_result (sweep_output owner) (w, removed) l = Done (w', removed') →
  fold_result (λ w '(ty, e), '(w, _) ← remove_derived_entry w ty e owner; Done w) w l = Done w'.
Proof.
  revert w removed. induction l as [|[ty e] l IH]; intros w removed; simpl; [by intros [= <- <-]|].
  unfold sweep_output at 1. simpl.
  intros ([w1 r1] & ([w2 b] & Hrem & [= <- <-])%bind_Done & Hrest)%bind_Done.
  rewrite Hrem. simpl. by eapply IH.
Qed.

Lemma sweep_owner_run w removed owner w' removed' :
  sweep_owner (w, removed) owner = Done (w', removed') → remove_derived_owned w owner = Done w'.
Proof.
  unfold sweep_owner, remove_derived_owned.
  destruct (derived_owners (forget_spawns w owner) !! owner); [apply sweep_output_fst|congruence].
Qed.

Definition settled (X : taken) : Prop := ∀ o, X o = ∅.

(** Sweeping retires every selected owner: it keeps no index entry and no row. *)
Lemma sweep_owners_aux X l w removed w' removed' :
  wf X w → settled X → fold_result sweep_owner (w, removed) l = Done (w', removed') →
  good X w w' ∧ shrinks w w' ∧ ∀ o, o ∈ l → ∀ ty e, owner_of w' ty e ≠ Some o.
Proof.
  intros Hwf HX. revert w removed Hwf. induction l as [|owner l IH]; intros w removed Hwf; simpl.
  { intros [= <- <-]. split; [by apply good_refl|]. split; [apply shrinks_refl|set_solver]. }
  intros ([w1 r1] & H1%sweep_owner_run & Hrest)%bind_Done.
  destruct (remove_derived_owned_aux _ _ _ _ Hwf (HX owner) H1) as (G1 & S1 & _ & Hgone).
  destruct (IH w1 r1 (proj1 G1) Hrest) as (G2 & S2 & Hl).
  split; [by eapply good_trans|]. split; [by eapply shrinks_trans|].
  intros o [->|Hin]%elem_of_cons ty e; [|by apply Hl]. intros Ho%S2. by eapply Hgone.
Qed.

Lemma touched_aux X w keyset systems w' removed :
  wf X w → settled X → remove_derived_touched_by_systems w keyset systems = Done (w', removed) →
  good X w w' ∧ shrinks w w' ∧
  ∀ o ty e, owner_touched keyset systems o = true → owner_of w' ty e ≠ Some o.
Proof.
  intros Hwf HX Hrun.
  destruct (sweep_owners_aux _ _ _ _ _ _ Hwf HX Hrun) as (G & S & Hgone).
  split; [done|]. split; [done|]. intros o ty e Ht Ho. eapply Hgone; [|exact Ho].
  apply list_elem_of_filter. split; [done|]. rewrite elem_of_hash_iter. apply elem_of_dom.
  apply S in Ho. apply (wf_complete _ _ Hwf) in Ho. rewrite HX in Ho. unfold outputs_of in Ho.
  destruct (derived_owners w !! o); [eauto|set_solver].
Qed.
End ownership.
