(* ===== verification/WorldOps.v ===== *)
(** * Entity removal and writes in place ([world.rs])

    The remaining operations of the world, each proved to keep [wf] and to
    evolve the world, and the relation [world_step] that collects them all. *)
From stdpp Require Import base numbers sets gmap fin_maps sorting list.
From S2P Require Import Prelude Components Demo Stores Presence World WorldInv Ownership.

Section ops.
Context `{ComponentTypes} `{HashOrder}.
Implicit Types (w : World) (ty : TypeId) (e : Entity) (o : SystemInvocation).

(** ** Removing an entity *)

(** The state of the loop over the stores after the types [done_types]. *)
Record removing (X : taken) (w : World) (e : Entity) (done_types : list TypeId)
    (st : World * list TypeId * list (SystemInvocation * TypeId)) : Prop := {
  rm_frame : let w' := st.1.1 in
    shared w' = shared w ∧ derived_owners w' = derived_owners w ∧ presence w' = presence w ∧
    write_log w' = write_log w ∧ st_registry (stores w') = st_registry (stores w) ∧
    wf_stores (stores w');
  rm_revision : (revision w ≤ revision st.1.1)%N;
  rm_row ty e' : row st.1.1 ty e' =
    if decide (e' = e ∧ ty ∈ done_types) then None else row w ty e';
  rm_store ty s : store_of st.1.1 ty = Some s → store_ok s ∧ (watermark s ≤ revision st.1.1)%N;
  rm_todo ty : ty ∉ done_types → store_of st.1.1 ty = store_of w ty;
  rm_watermark ty : (store_watermark w ty ≤ store_watermark st.1.1 ty)%N;
  rm_moved ty : ty ∈ done_types → is_Some (row w ty e) →
    (revision w < store_watermark st.1.1 ty)%N;
  rm_raised ty : store_watermark w ty ≠ store_watermark st.1.1 ty → (revision w < store_watermark st.1.1 ty)%N;
  rm_types ty : ty ∈ st.1.2 ↔ ty ∈ done_types ∧ is_Some (row w ty e);
  rm_unindex o ty : (o, ty) ∈ st.2 ↔ ty ∈ done_types ∧ owner_of w ty e = Some o;
}.

Lemma removing_step X w e done_types w1 types un ty s st' :
  wf X w → removing X w e done_types (w1, types, un) → ty ∉ done_types →
  store_of w ty = Some s → remove_from_store e (w1, types, un) (ty, s) = Done st' →
  removing X w e (ty :: done_types) st'.
Proof.
  intros Hwf Hrm Hni Hs Hrun.
  destruct Hrm as [(Fsh & Fd & Fp & Fl & Freg & Fst) Frev Frow Fstore Ftodo Fwm Fmoved Fraised Ftypes Fun].
  simpl in *. destruct (wf_store _ _ Hwf _ _ Hs) as [Hok Hle].
  assert (row w ty e = entries s !! e) as Hrow by (unfold row; by rewrite Hs).
  unfold store_remove_entity in Hrun. destruct (entries s !! e) as [removed|] eqn:He.
  2:{ simpl in Hrun. injection Hrun as <-.
      split; simpl; try done.
      - intros ty' e'. rewrite Frow. repeat case_decide; try done; [set_solver|].
        assert (ty' = ty) as -> by set_solver. naive_solver.
      - intros ty' Hn. apply Ftodo. set_solver.
      - intros ty' [->|Hin]%elem_of_cons; [rewrite Hrow; by intros []|by apply Fmoved].
      - intros ty'. rewrite Ftypes, elem_of_cons. split; [tauto|].
        intros [[->|?] Hsome]; [rewrite Hrow in Hsome; by destruct Hsome|done].
      - intros o ty'. rewrite Fun, elem_of_cons. split; [tauto|].
        intros [[->|?] Ho]; [|done]. unfold owner_of in Ho. by rewrite Hrow in Ho. }
  apply bind_Done in Hrun as ([[s' r] own] & Hsr & Hrun).
  apply bind_Done in Hsr as (r' & Hr & Hsr). injection Hsr as <- <- <-.
  apply expect_Done, u64_checked_succ_Some in Hr as [-> _].
  apply bind_Done in Hrun as (w2 & H2%bump_mutations_frame & Hrun).
  destruct H2 as [m ->]. injection Hrun as <-.
  set (s' := bump_watermark (store_drop s e removed) (revision w1 + 1)) in *.
  assert (∀ ty', store_of (set_mutations m (set_revision (revision w1 + 1)%N (put_store w1 ty s'))) ty'
            = if decide (ty' = ty) then Some s' else store_of w1 ty') as Hst.
  { intros ty'. by apply store_of_put. }
  assert (∀ ty', store_watermark (set_mutations m (set_revision (revision w1 + 1)%N
            (put_store w1 ty s'))) ty'
            = if decide (ty' = ty) then watermark s' else store_watermark w1 ty') as Hwm.
  { intros ty'. unfold store_watermark. rewrite Hst. by case_decide. }
  assert (watermark s' = N.max (watermark s) (revision w1 + 1)) as Hws.
  { unfold s'. simpl. by rewrite watermark_drop. }
  split; cbn [fst snd].
  - split_and!; try done.
    + simpl. rewrite <-Freg. unfold stores_put. by destruct (st_registry (stores w1) !! ty).
    + simpl. by apply wf_stores_put.
  - simpl. lia.
  - intros ty' e'. unfold row at 1. rewrite Hst. destruct (decide (ty' = ty)) as [->|Hne]; simpl.
    + rewrite entries_drop, lookup_delete. destruct (decide (e = e')) as [<-|Hne'].
      * rewrite decide_True; [done|]. split; [done|left].
      * rewrite decide_False by naive_solver. unfold row. by rewrite Hs.
    + fold (row w1 ty' e'). rewrite Frow. repeat case_decide; set_solver.
  - intros ty' s0. rewrite Hst. case_decide.
    + intros [= <-]. split; [by apply bump_watermark_ok, store_drop_ok|]. rewrite Hws. simpl. lia.
    + intros Hs0. destruct (Fstore _ _ Hs0). split; [done|]. simpl. lia.
  - intros ty' Hn. rewrite Hst, decide_False by set_solver. apply Ftodo. set_solver.
  - intros ty'. rewrite Hwm. case_decide; [|done]. subst. unfold store_watermark. rewrite Hs, Hws.
    simpl. lia.
  - intros ty' Hin Hsome. rewrite Hwm. case_decide; [lia|]. apply Fmoved; [set_solver|done].
  - intros ty'. rewrite Hwm. case_decide; [lia|apply Fraised].
  - intros ty'. rewrite elem_of_app, Ftypes, list_elem_of_singleton, elem_of_cons.
    split; [|naive_solver]. intros [[? ?]| ->]; [tauto|]. split; [by left|].
    rewrite Hrow. eauto.
  - intros o ty'. assert ((o, ty') ∈ match entry_owner removed with
        | Some o => un ++ [(o, ty)] | None => un end ↔
      (o, ty') ∈ un ∨ (ty' = ty ∧ entry_owner removed = Some o)) as ->.
    { destruct (entry_owner removed) as [o'|]; [|naive_solver].
      rewrite elem_of_app, list_elem_of_singleton. naive_solver. }
    rewrite Fun, elem_of_cons. unfold owner_of.
    destruct (decide (ty' = ty)) as [->|Hne]; [|naive_solver].
    rewrite Hrow. simpl. naive_solver.
Qed.

Lemma removing_loop X w e l done_types st st' :
  wf X w → removing X w e done_types st →
  (∀ ty s, (ty, s) ∈ l → store_of w ty = Some s ∧ ty ∉ done_types) → NoDup l.*1 →
  fold_result (remove_from_store e) st l = Done st' →
  removing X w e (rev l.*1 ++ done_types) st'.
Proof.
  intros Hwf. revert done_types st. induction l as [|[ty s] l IH]; intros done_types st Hrm Hl Hnd;
    simpl; [by intros [= <-]|].
  destruct st as [[w1 types] un]. intros (st1 & H1 & Hrest)%bind_Done.
  destruct (Hl ty s ltac:(left)) as [Hs Hni]. inversion_clear Hnd as [|?? Hnl Hnd'].
  pose proof (removing_step _ _ _ _ _ _ _ _ _ _ Hwf Hrm Hni Hs H1) as Hrm1.
  pose proof (IH (ty :: done_types) st1 Hrm1) as Hgo. rewrite <-app_assoc. apply Hgo; [|done|done].
  intros ty' s' Hin. destruct (Hl ty' s') as [? ?]; [by right|]. split; [done|].
  intros [->|?]%elem_of_cons; [|done]. apply Hnl. apply list_elem_of_fmap. by exists (ty, s').
Qed.

Lemma fold_log_write types e w :
  fold_left (λ w ty, log_write w ty e) types w
  = set_write_log (write_log w ++ ((λ ty, (ty, e)) <$> types)) w.
Proof.
  revert w. induction types as [|ty types IH]; intros w; simpl.
  - rewrite app_nil_r. by destruct w.
  - rewrite IH. unfold log_write. simpl. by rewrite <-app_assoc.
Qed.

Lemma fold_unindex un e w :
  let w' := fold_left (λ w '(o, ty), unindex_derived w o ty e) un w in
  (∃ m, w' = set_derived_owners m w) ∧
  (∀ o x, x ∈ outputs_of w' o ↔ x ∈ outputs_of w o ∧ ¬ ∃ ty, x = (ty, e) ∧ (o, ty) ∈ un) ∧
  ((∀ o, derived_owners w !! o ≠ Some ∅) → ∀ o, derived_owners w' !! o ≠ Some ∅).
Proof.
  revert w. induction un as [|[o1 ty1] un IH]; intros w; simpl.
  - split; [exists (derived_owners w); by destruct w|]. split; [|done]. set_solver.
  - destruct (IH (unindex_derived w o1 ty1 e)) as ([m Hm] & Hout & Hne).
    destruct (unindex_derived_frame w o1 ty1 e) as [m1 Hm1]. split; [|split].
    + exists m. rewrite Hm, Hm1. done.
    + intros o x. rewrite Hout, unindex_outputs. setoid_rewrite elem_of_cons. naive_solver.
    + intros Hw o. apply Hne. intros o'. by apply unindex_nonempty.
Qed.

Lemma world_presence_clear_spec w e w' :
  world_presence_clear w e = Done w' →
  match presence w with Some p => wf_presence p | None => True end →
  (∃ p, w' = set_presence p w) ∧
  match presence w with
  | None => presence w' = None
  | Some p => ∃ p', presence w' = Some p' ∧ wf_presence p' ∧ bit_for p' = bit_for p ∧
      ∀ ty e', present p' ty e' ↔ e' ≠ e ∧ present p ty e'
  end.
Proof.
  unfold world_presence_clear. destruct (presence w) as [p|] eqn:Hp.
  - intros (p' & Hc & [= <-])%bind_Done Hwf.
    destruct (presence_clear_aux p e Hwf) as (p'' & Hc' & Hwf' & Hb & _ & Hpres).
    rewrite Hc in Hc'. injection Hc' as <-. split; [eauto|]. by exists p'.
  - intros [= <-] _. split; [|done]. exists None. destruct w; simpl in *; by subst.
Qed.

(** What is left of a world when the rows of an entity are gone. *)
Record emptied (w : World) (e : Entity) (w' : World) : Prop := {
  em_shared : shared w' = shared w;
  em_stores : wf_stores (stores w');
  em_registry : st_registry (stores w') = st_registry (stores w);
  em_rows ty e' : row w' ty e' = if decide (e' = e) then None else row w ty e';
  em_store ty s : store_of w' ty = Some s → store_ok s ∧ (watermark s ≤ revision w')%N;
  em_presence : match presence w with
                | None => presence w' = None
                | Some p => ∃ p', presence w' = Some p' ∧ wf_presence p' ∧ bit_for p' = bit_for p ∧
                    ∀ ty e', present p' ty e' ↔ e' ≠ e ∧ present p ty e'
                end;
  em_outputs o x : x ∈ outputs_of w' o ↔ x ∈ outputs_of w o ∧ ¬ (x.2 = e ∧ owner_of w x.1 x.2 = Some o);
  em_nonempty o : derived_owners w' !! o ≠ Some ∅;
  em_revision : (revision w ≤ revision w')%N;
  em_log : ∃ l, write_log w' = write_log w ++ l ∧ ∀ ty, is_Some (row w ty e) → (ty, e) ∈ l;
  em_watermark ty : (store_watermark w ty ≤ store_watermark w' ty)%N;
  em_moved ty : is_Some (row w ty e) → (revision w < store_watermark w' ty)%N;
  em_raised ty : store_watermark w ty ≠ store_watermark w' ty → (revision w < store_watermark w' ty)%N;
}.

Lemma emptied_owner w e w' ty e' :
  emptied w e w' → owner_of w' ty e' = if decide (e' = e) then None else owner_of w ty e'.
Proof. intros E. unfold owner_of. rewrite (em_rows _ _ _ E). by case_decide. Qed.

Lemma emptied_wf X w e w' : wf X w → emptied w e w' → wf X w'.
Proof.
  intros Hwf E. split; [apply E..| | | | | |].
  - intros ty e' entry. rewrite (em_rows _ _ _ E). case_decide; [done|].
    unfold cell_get. rewrite (em_shared _ _ _ E). apply Hwf.
  - intros c. unfold cell_get. rewrite (em_shared _ _ _ E). apply Hwf.
  - pose proof (wf_pres _ _ Hwf) as Hp. pose proof (em_presence _ _ _ E) as Hpres. destruct (presence w) as [p|].
    + destruct Hpres as (p' & -> & Hwp & Hb & Hex). destruct Hp as (_ & Hbit & Hpex).
      split; [done|]. split; [by rewrite Hb, Hbit, (em_registry _ _ _ E)|].
      intros ty e'. rewrite Hex, Hpex, (em_rows _ _ _ E), Hb. case_decide; [|tauto].
      split; [tauto|intros [_ []]; done].
    + by rewrite Hpres, (em_registry _ _ _ E).
  - intros o ty e' [Hin Hn]%(em_outputs _ _ _ E). apply (wf_sound _ _ Hwf) in Hin as Ho.
    rewrite (emptied_owner _ _ _ _ _ E). case_decide; [|exact Ho]. by destruct Hn.
  - intros o ty e'. rewrite (emptied_owner _ _ _ _ _ E). case_decide as Hd; [done|].
    intros Ho%(wf_complete _ _ Hwf). apply elem_of_union in Ho as [?|?]; [|by apply elem_of_union_r].
    apply elem_of_union_l, (em_outputs _ _ _ E). split; [done|]. by intros [? _].
  - apply E.
Qed.

Lemma emptied_evolves w e w' : emptied w e w' → evolves w w'.
Proof.
  intros E. assert (∀ ty e', row_revision w ty e' ≠ row_revision w' ty e' → e' = e ∧ is_Some (row w ty e)) as Hdiff.
  { intros ty e'. rewrite !row_revision_row, (em_rows _ _ _ E). case_decide as Hd; [|done].
    subst e'. destruct (row w ty e); [|done]. intros _. eauto. }
  split; try apply E.
  - destruct (em_log _ _ _ E) as (l & Hl & Hin). exists l. split; [done|]. intros ty e' (-> & Hsome)%Hdiff. by apply Hin.
  - intros ty e' r. rewrite row_revision_row, (em_rows _ _ _ E). case_decide; [done|].
    intros Hr. right. rewrite row_revision_row. split; [done|]. intros _.
    unfold row_fingerprint. by rewrite (em_rows _ _ _ E), decide_False.
  - intros ty e' (-> & Hsome)%Hdiff. by apply (em_moved _ _ _ E).
  - split; [by rewrite (em_shared _ _ _ E)| |].
    + intros ty e' entry. rewrite (em_rows _ _ _ E). case_decide; [done|]. intros ->. by left.
    + intros Ho ty1 e1 n1 ty2 e2 n2. rewrite !(em_rows _ _ _ E). case_decide; [done|]. case_decide; [done|]. apply Ho.
Qed.

Lemma emptied_shrinks w e w' : emptied w e w' → shrinks w w'.
Proof.
  intros E. split; [intros o x Hx%(em_outputs _ _ _ E); apply Hx|]. intros ty e' o.
  rewrite (emptied_owner _ _ _ _ _ E). by case_decide.
Qed.

(** The loop goes over every store. *)
Lemma removing_all X w e w1 types un :
  wf X w → fold_result (remove_from_store e) (w, [], []) (stores_iter (stores w)) = Done (w1, types, un) →
  ∃ all, removing X w e all (w1, types, un) ∧ ∀ ty, is_Some (row w ty e) → ty ∈ all.
Proof.
  intros Hwf Hloop. assert (removing X w e [] (w, [], [])) as Hrm0.
  { split; cbn [fst snd]; [|done| |apply Hwf|done|done| |done| |].
    - split_and!; try done. apply Hwf.
    - intros ty e'. rewrite decide_False; [done|]. intros [_ Hin]. by apply not_elem_of_nil in Hin.
    - intros ty Hin. by apply not_elem_of_nil in Hin.
    - intros ty. rewrite !elem_of_nil. tauto.
    - intros o ty. rewrite !elem_of_nil. tauto. }
  pose proof (removing_loop _ _ _ _ _ _ _ Hwf Hrm0
    (λ ty s Hin, conj (proj1 (elem_of_stores_iter _ _ _ (wf_st _ _ Hwf)) Hin) (not_elem_of_nil ty))
    (NoDup_stores_iter _ (wf_st _ _ Hwf)) Hloop) as Hrm.
  rewrite app_nil_r in Hrm. exists (rev (stores_iter (stores w)).*1). split; [exact Hrm|].
  intros ty Hsome. unfold row in Hsome. destruct (store_of w ty) as [s|] eqn:Hs; [|by destruct Hsome].
  apply list_elem_of_In. rewrite <-in_rev. apply list_elem_of_In, list_elem_of_fmap.
  exists (ty, s). split; [done|]. by apply elem_of_stores_iter; [apply Hwf|].
Qed.

Lemma remove_rows_emptied X w e w' owners :
  wf X w → remove_rows w e = Done (w', owners) →
  emptied w e w' ∧ (∀ o, o ∈ owners ↔ ∃ ty, owner_of w ty e = Some o) ∧ (∀ key, singleton_entities w' !! key ≠ Some e).
Proof.
  intros Hwf Hrun. unfold remove_rows in Hrun.
  apply bind_Done in Hrun as ([[w1 types] un] & (all & Hrm & Hall)%(removing_all X) & Hrun); [|done].
  assert (∀ ty o, owner_of w ty e = Some o → ty ∈ all) as Hown.
  { intros ty o Ho. apply Hall. unfold owner_of in Ho. by destruct (row w ty e). }
  destruct Hrm as [(Fsh & Fd & Fp & Fl & Freg & Fst) Frev Frow Fstore Ftodo Fwm Fmoved Fraised Ftypes Fun].
  cbn [fst snd] in *. rewrite fold_log_write in Hrun. set (w2 := set_write_log _ w1) in *.
  destruct (fold_unindex un e w2) as ([dm Hdm] & Hout & Hne). rewrite Hdm in Hrun, Hout, Hne. cbv zeta in Hrun.
  apply bind_Done in Hrun as (w3 & Hclear & [= <- <-]).
  destruct (world_presence_clear_spec _ _ _ Hclear) as ([pr Hw3] & Hpres).
  { simpl. rewrite Fp. apply (wf_presence_of _ _ Hwf). }
  change (presence (set_singleton_entities _ _)) with (presence w1) in Hpres.
  change (presence (set_removed_entities _ _)) with (presence w1) in Hpres. rewrite Fp in Hpres.
  assert (∀ ty, store_of w3 ty = store_of w1 ty) as Hst3 by (intros; rewrite Hw3; done).
  assert (∀ ty, store_watermark w3 ty = store_watermark w1 ty) as Hwm3 by (intros; unfold store_watermark; by rewrite Hst3).
  assert (revision w3 = revision w1) as Hrev3 by (rewrite Hw3; done).
  split; [|split].
  - split; [by rewrite Hw3|by rewrite Hw3|by rewrite Hw3|..].
    + intros ty e'. assert (row w3 ty e' = row w1 ty e') as -> by (rewrite Hw3; done). rewrite Frow.
      destruct (decide (e' = e)) as [->|Hd]; [|rewrite decide_False; [done|tauto]].
      case_decide as Hc; [done|]. destruct (row w ty e) eqn:Er; [|done]. destruct Hc. split; [done|]. apply Hall. by rewrite Er.
    + intros ty s. rewrite Hst3, Hrev3. apply Fstore.
    + exact Hpres.
    + intros o [ty e']. assert (outputs_of w3 o = outputs_of (set_derived_owners dm w2) o) as ->
        by (unfold outputs_of; by rewrite Hw3).
      rewrite Hout. assert (outputs_of w2 o = outputs_of w o) as -> by (unfold outputs_of, w2; simpl; by rewrite Fd).
      setoid_rewrite Fun. simpl. split; (intros [Hin Hn]; split; [done|]).
      * intros [-> Ho]. apply Hn. exists ty. split; [done|]. split; [by eapply Hown|done].
      * intros (ty' & [= -> ->] & _ & Ho). by apply Hn.
    + intros o. rewrite Hw3. simpl. apply Hne. intros o'. unfold w2; simpl. rewrite Fd. apply Hwf.
    + by rewrite Hrev3.
    + exists ((λ ty, (ty, e)) <$> types). split; [rewrite Hw3; simpl; by rewrite Fl|]. intros ty Hsome.
      apply list_elem_of_fmap. exists ty. split; [done|]. apply Ftypes. auto.
    + intros ty. rewrite Hwm3. apply Fwm.
    + intros ty Hsome. rewrite Hwm3. apply Fmoved; auto.
    + intros ty. rewrite Hwm3. apply Fraised.
  - intros o. rewrite list_elem_of_fmap. split.
    + intros ([o' ty] & -> & Hin). apply Fun in Hin as [_ Ho]. eauto.
    + intros [ty Ho]. exists (o, ty). split; [done|]. apply Fun. split; [by eapply Hown|done].
  - intros key. rewrite Hw3. simpl. rewrite map_lookup_filter_Some. simpl. tauto.
Qed.

(** [remove_rows] empties the entity and nothing else. *)
Lemma remove_rows_spec X w e w' owners :
  wf X w → remove_rows w e = Done (w', owners) →
  good X w w' ∧ shrinks w w' ∧ shared w' = shared w ∧
  (∀ ty e', row w' ty e' = if decide (e' = e) then None else row w ty e') ∧
  (∀ o, o ∈ owners ↔ ∃ ty, owner_of w ty e = Some o) ∧
  (∀ key, singleton_entities w' !! key ≠ Some e).
Proof.
  intros Hwf (E & Ho & Hs)%(remove_rows_emptied X); [|done]. split_and!; try done; try apply E.
  - split; [by eapply emptied_wf|by eapply emptied_evolves].
  - by eapply emptied_shrinks.
Qed.

Lemma fold_shrinks {A} X (f : World → A → result World) l w w' :
  (∀ w a w', wf X w → f w a = Done w' → good X w w' ∧ shrinks w w') →
  wf X w → fold_result f w l = Done w' → good X w w' ∧ shrinks w w'.
Proof.
  intros Hf Hwf Hfold.
  apply (fold_result_inv (λ w1, good X w w1 ∧ shrinks w w1) f l w w'); [| |done].
  - intros w1 a w2 _ [G1 S1] H1. destruct (Hf _ _ _ (proj1 G1) H1) as [G2 S2].
    split; [by eapply good_trans|by eapply shrinks_trans].
  - split; [by apply good_refl|apply shrinks_refl].
Qed.

Lemma remove_entity_good X w e w' owners :
  wf X w → remove_entity w e = Done (w', owners) → good X w w' ∧ shrinks w w'.
Proof.
  intros Hwf. unfold remove_entity. destruct (relationship_ops w e) as [edges retractions].
  intros ([w1 own] & H1 & Hrun)%bind_Done. apply bind_Done in Hrun as (w2 & H2 & Hrun).
  apply bind_Done in Hrun as (w3 & H3 & Hrun). injection Hrun as <- <-.
  destruct (remove_rows_spec _ _ _ _ _ Hwf H1) as (G1 & S1 & _).
  assert (good X w1 w2 ∧ shrinks w1 w2) as [G2 S2].
  { eapply (fold_shrinks X); [|apply G1|exact H2]. intros w4 [inv t] w5 Hw4 Hrem.
    by eapply relops_good. }
  assert (good X w2 w3 ∧ shrinks w2 w3) as [G3 S3].
  { eapply (fold_shrinks X); [|apply G2|exact H3].
    intros w4 [ty src] w5 Hw4 ([w6 out] & Hrem & [= <-])%bind_Done.
    by eapply remove_component_good. }
  split.
  - eapply good_trans; [exact G1|]. eapply good_trans; [exact G2|].
    eapply good_trans; [exact G3|]. apply frame_good; try done. apply G3.
  - eapply shrinks_trans; [exact S1|]. eapply shrinks_trans; [exact S2|exact S3].
Qed.

(** ** Writes in place *)

(** A row rewritten with the same cell and owner, in a world whose cells have
    the same addresses. *)
Lemma rewrite_row_set X w w' ty e s entry entry' :
  wf X w → store_of w ty = Some s → entries s !! e = Some entry →
  let before := entry_fingerprint entry in
  let after := entry_fingerprint entry' in
  let changed := write_changed ty before after in
  entry_value entry' = entry_value entry → entry_owner entry' = entry_owner entry →
  entry_revision entry' = (if changed then (revision w + 1)%N else entry_revision entry) →
  (∃ s', stores w' = stores_put (stores w) ty s' ∧ store_ok s' ∧
     entries s' = <[e := entry']> (entries s) ∧
     watermark s' = if changed then N.max (watermark s) (revision w + 1) else watermark s) →
  revision w' = (if changed then (revision w + 1)%N else revision w) →
  (write_log w' = write_log w ++ [(ty, e)] ∨ (write_log w' = write_log w ∧ changed = false)) →
  (∀ c, is_Some (cell_get w' c) ↔ is_Some (cell_get w c)) →
  next_cell (shared w') = next_cell (shared w) →
  presence w' = presence w → derived_owners w' = derived_owners w →
  row_set X w w' ty e (Some entry').
Proof.
  intros Hwf Hs He before after changed Hval Hown Hrev (s' & Hst & Hok & Hent & Hwm) Hrev' Hlog
    Hcells Hnext Hpres Hd.
  assert (row w ty e = Some entry) as Hrow by (unfold row; by rewrite Hs).
  assert (row_revision w ty e = Some (entry_revision entry)) as Hrr
    by (by rewrite row_revision_row, Hrow).
  assert (store_watermark w ty = watermark s) as Hsw by (unfold store_watermark; by rewrite Hs).
  destruct (wf_store _ _ Hwf _ _ Hs) as [Hsok Hle].
  assert (∀ o, outputs_of w' o = outputs_of w o) as Hout by (intros; unfold outputs_of; by rewrite Hd).
  split; try done.
  - exists s'. split; [done|]. split; [done|]. split; [|split].
    + intros e'. rewrite Hent, lookup_insert. destruct (decide (e = e')) as [<-|Hne].
      * by rewrite decide_True.
      * rewrite decide_False by done. unfold row. by rewrite Hs.
    + rewrite Hsw, Hwm, Hrev'. destruct changed; lia.
    + rewrite Hrr, Hwm. simpl. rewrite Hrev. intros Hne.
      destruct changed; [lia|]. rewrite Hsw in Hne. by destruct Hne.
  - rewrite Hrev'. destruct changed; lia.
  - destruct Hlog as [?|[? Hc]]; [by left|right]. split; [done|].
    rewrite Hrr. simpl. by rewrite Hrev, Hc.
  - intros c. by rewrite Hcells.
  - intros c. rewrite Hcells, Hnext. apply Hwf.
  - intros en [= <-]. rewrite Hcells, Hval. by eapply wf_cell.
  - rewrite Hpres. pose proof (wf_pres _ _ Hwf) as Hp. destruct (presence w) as [p|]; [|done].
    destruct Hp as (Hwp & Hb & Hex). exists p. split_and!; try done. intros ty' e'.
    case_decide as Hd'; [|done]. destruct Hd' as [-> ->]. rewrite Hex, Hrow. naive_solver.
  - intros o ty' e' _. by rewrite Hout.
  - intros o. rewrite Hout. intros Hin%(wf_sound _ _ Hwf). unfold owner_of in Hin.
    rewrite Hrow in Hin. simpl in *. by rewrite Hown.
  - intros o. simpl. rewrite Hown, Hout. intros Ho. apply (wf_complete _ _ Hwf).
    unfold owner_of. by rewrite Hrow.
  - intros o. rewrite Hd. apply Hwf.
  - intros en [= <-]. rewrite Hrev. destruct changed eqn:Hc; [left; lia|right]. split; [done|].
    intros Ht. unfold changed, write_changed in Hc. rewrite Ht in Hc. simpl in Hc.
    apply orb_false_iff in Hc as [Hn%bool_decide_eq_false Heq%negb_false_iff].
    apply bool_decide_eq_true in Heq. unfold row_fingerprint. rewrite Hrow. simpl.
    fold before. split; [done|]. by intros ?.
  - rewrite Hnext. split; [lia|]. intros en [= <-]. left. by rewrite Hrow, Hval.
Qed.

Lemma reindex_store_ok s e entry' before :
  store_ok s → (entry_fingerprint <$> entries s !! e) = Some before →
  (entry_revision entry' ≤ watermark s)%N →
  let s' := reindex (with_entries s (<[e := entry']> (entries s))) e before
              (entry_fingerprint entry') in
  store_ok s' ∧ entries s' = <[e := entry']> (entries s) ∧ watermark s' = watermark s.
Proof.
  intros [Hix Hwm] He Hle. unfold reindex. cbv zeta.
  pose proof (reindex_ok s e entry' before Hix He) as Hre. unfold reindex in Hre.
  assert (∀ e' en, <[e := entry']> (entries s) !! e' = Some en →
    (entry_revision en ≤ watermark s)%N) as Hbound.
  { intros e' en [[_ <-]|[_ Hen]]%lookup_insert_Some; [done|by eapply Hwm]. }
  case_bool_decide; rewrite ?entries_index, ?entries_unindex, ?watermark_index, ?watermark_unindex;
    (split; [split|done]); rewrite ?entries_index, ?entries_unindex, ?watermark_index,
    ?watermark_unindex; done.
Qed.

Lemma reconcile_row_good X w x w' :
  wf X w → reconcile_row w x = Done w' → good X w w'.
Proof.
  intros Hwf. destruct x as [ty e]. unfold reconcile_row.
  destruct (store_of w ty) as [s|] eqn:Hs; [|intros [= <-]; by apply good_refl].
  unfold reconcile_entry. destruct (entries s !! e) as [entry|] eqn:He.
  2:{ intros ([s' r] & Hsr & Hlog)%bind_Done. injection Hsr as <- <-. injection Hlog as <-.
      unfold put_store. rewrite stores_put_get; [|apply Hwf|done].
      split.
      - eapply frame_wf; [..|exact Hwf]; try done. set_solver.
      - apply frame_evolves; try done. by exists [(ty, e)]. }
  intros ([s' r] & Hsr & Hlog)%bind_Done. injection Hlog as <-.
  apply bind_Done in Hsr as (r' & Hr & Hsr). injection Hsr as <- <-.
  destruct (wf_store _ _ Hwf _ _ Hs) as [Hok Hle].
  pose proof (so_watermark _ Hok _ _ He) as Hler.
  set (after := v ← cell_get w (entry_value entry); value_fingerprint ty v) in *.
  set (changed := write_changed ty (entry_fingerprint entry) after) in *.
  assert (r' = if changed then (revision w + 1)%N else revision w) as Hr'.
  { destruct changed; [|by injection Hr as <-].
    by apply expect_Done, u64_checked_succ_Some in Hr as [-> _]. }
  set (entry' := MkEntry (entry_value entry) (if changed then r' else entry_revision entry) after
                   (entry_owner entry)) in *.
  set (sb := if changed then bump_watermark s r' else s).
  assert (store_ok sb ∧ entries sb = entries s ∧
    watermark sb = if changed then N.max (watermark s) (revision w + 1) else watermark s)
    as (Hsb & Hsbe & Hsbw).
  { unfold sb. destruct changed; [|done]. split; [by apply bump_watermark_ok|]. simpl.
    by rewrite Hr'. }
  destruct (reindex_store_ok sb e entry' (entry_fingerprint entry) Hsb) as (H1 & H2 & H3).
  { by rewrite Hsbe, He. }
  { rewrite Hsbw. simpl. rewrite Hr'. destruct changed; lia. }
  change (entry_fingerprint entry') with after in H1, H2, H3. cbv zeta in H1, H2, H3.
  eapply row_set_good; [exact Hwf|].
  eapply (rewrite_row_set X w _ ty e s entry entry'); try done.
  - simpl. fold changed. rewrite Hr'. by destruct changed.
  - exists (reindex (with_entries sb (<[e:=entry']> (entries sb))) e (entry_fingerprint entry) after).
    split; [|split; [exact H1|split; [by rewrite H2, Hsbe|by rewrite H3, Hsbw]]].
    simpl. f_equal. unfold sb. by destruct changed.
  - by left.
Qed.

Lemma reconcile_written_good X w writes w' :
  wf X w → reconcile_written w writes = Done w' → good X w w'.
Proof. intros Hwf. apply fold_good; [|done]. intros w1 x w2 _. apply reconcile_row_good. Qed.

(** *** Reconciliation touches only what was written *)

Lemma reindex_entries s e (before after : option N) : entries (reindex s e before after) = entries s.
Proof. unfold reindex. case_bool_decide; [done|]. by rewrite entries_index, entries_unindex. Qed.

Lemma reconcile_row_frame w ty e w' ty' e' :
  wf_stores (stores w) → reconcile_row w (ty, e) = Done w' → (ty', e') ≠ (ty, e) →
  row w' ty' e' = row w ty' e'.
Proof.
  intros Hwf Hr Hne. unfold reconcile_row in Hr. destruct (store_of w ty) as [s|] eqn:Hs; [|by injection Hr as <-].
  apply bind_Done in Hr as ([s' r] & Hsr & [= <-]).
  assert (∀ e0, e0 ≠ e → entries s' !! e0 = entries s !! e0) as Hent.
  { intros e0 He0. unfold reconcile_entry in Hsr. destruct (entries s !! e) as [entry|]; [|by injection Hsr as <- <-].
    apply bind_Done in Hsr as (r' & _ & [= <- <-]). rewrite reindex_entries.
    case_match; simpl; by rewrite lookup_insert_ne. }
  change (row (put_store w ty s') ty' e' = row w ty' e'). rewrite row_put by done.
  case_decide as Hty; [|done]. subst ty'.
  rewrite Hent; [unfold row; by rewrite Hs|]. intros ->. by apply Hne.
Qed.

Lemma reconcile_written_frame X w writes w' ty e :
  wf X w → reconcile_written w writes = Done w' → (ty, e) ∉ writes → row w' ty e = row w ty e.
Proof.
  intros Hwf. revert w Hwf. induction writes as [|[ty1 e1] writes IH]; intros w Hwf; [by intros [= <-]|].
  unfold reconcile_written. cbn [fold_result]. intros (w1 & H1 & Hr)%bind_Done [Hne Hni]%not_elem_of_cons.
  rewrite (IH w1); [by eapply reconcile_row_frame; [apply Hwf|..]| |exact Hr|done].
  by apply (reconcile_row_good _ _ _ _ Hwf H1).
Qed.

(** Reconciliation changes no value and no owner. *)
Lemma reconcile_row_payload w x w' ty e :
  wf_stores (stores w) → reconcile_row w x = Done w' →
  entry_value <$> row w' ty e = entry_value <$> row w ty e ∧ owner_of w' ty e = owner_of w ty e ∧
  shared w' = shared w.
Proof.
  intros Hwf. destruct x as [ty1 e1]. intros Hr. unfold owner_of.
  destruct (decide ((ty, e) = (ty1, e1))) as [[= <- <-]|Hne].
  - unfold reconcile_row in Hr. destruct (store_of w ty) as [s|] eqn:Hs; [|by injection Hr as <-].
    apply bind_Done in Hr as ([s' r] & Hsr & [= <-]).
    change (row (log_write (set_revision r (put_store w ty s')) ty e) ty e) with (row (put_store w ty s') ty e).
    rewrite row_put, decide_True by done. split; [|split; [|done]].
    + unfold row. rewrite Hs. simpl. unfold reconcile_entry in Hsr.
      destruct (entries s !! e) as [entry|] eqn:He; [|by injection Hsr as <- <-; rewrite He].
      apply bind_Done in Hsr as (r' & _ & [= <- <-]). rewrite reindex_entries.
      case_match; simpl; by rewrite lookup_insert_eq.
    + unfold row. rewrite Hs. simpl. unfold reconcile_entry in Hsr.
      destruct (entries s !! e) as [entry|] eqn:He; [|by injection Hsr as <- <-; rewrite He].
      apply bind_Done in Hsr as (r' & _ & [= <- <-]). rewrite reindex_entries.
      case_match; simpl; by rewrite lookup_insert_eq.
  - rewrite (reconcile_row_frame _ _ _ _ _ _ Hwf Hr Hne). split_and!; try done.
    unfold reconcile_row in Hr. destruct (store_of w ty1); [|by injection Hr as <-].
    by apply bind_Done in Hr as ([s' r] & _ & [= <-]).
Qed.

Lemma reconcile_written_payload X w writes w' ty e :
  wf X w → reconcile_written w writes = Done w' →
  row_value w' ty e = row_value w ty e ∧ owner_of w' ty e = owner_of w ty e.
Proof.
  intros Hwf Hr. assert (wf X w' ∧ entry_value <$> row w' ty e = entry_value <$> row w ty e ∧
    owner_of w' ty e = owner_of w ty e ∧ shared w' = shared w) as (_ & Hv & Ho & Hs).
  { revert Hr. apply (fold_result_inv (λ w1, wf X w1 ∧ entry_value <$> row w1 ty e = entry_value <$> row w ty e ∧
      owner_of w1 ty e = owner_of w ty e ∧ shared w1 = shared w)); [|done].
    intros w1 x w2 _ (W & Hv & Ho & Hs) H1.
    destruct (reconcile_row_payload _ _ _ ty e (wf_st _ _ W) H1) as (Hv1 & Ho1 & Hs1).
    split_and!; [by apply (reconcile_row_good _ _ _ _ W H1)|congruence..]. }
  split; [|done]. unfold row_value, cell_get. rewrite Hs.
  destruct (row w' ty e), (row w ty e); simpl in *; congruence.
Qed.

(** A write through a guard changes the value of one cell, and nothing else
    until the row is reconciled. *)
Lemma cell_put_good X w c v : wf X w → is_Some (cell_get w c) → good X w (cell_put w c v).
Proof.
  intros Hwf Hc. split.
  - eapply frame_wf; [..|exact Hwf]; try done; [|set_solver].
    intros c'. unfold cell_get, cell_put; simpl. rewrite lookup_insert.
    case_decide; [|done]. subst. unfold cell_get in Hc. naive_solver.
  - apply frame_evolves; [done|done| |done]. exists []. by rewrite app_nil_r.
Qed.

Lemma update_good {R} X w ty e (f : Value → Value * R) w' out :
  wf X w → update_component_live w ty e f = Done (w', out) → good X w w'.
Proof.
  intros Hwf. unfold update_component_live. intros (next & Hnext & Hrun)%bind_Done.
  apply expect_Done, u64_checked_succ_Some in Hnext as [-> _].
  destruct (store_of w ty) as [s|] eqn:Hs; [|injection Hrun as <- <-; by apply good_refl].
  destruct (entries s !! e) as [entry|] eqn:He; [|injection Hrun as <- <-; by apply good_refl].
  destruct (cell_get w (entry_value entry)) as [v|] eqn:Hv;
    [|injection Hrun as <- <-; by apply good_refl].
  destruct (f v) as [v' r]. injection Hrun as <- _.
  destruct (wf_store _ _ Hwf _ _ Hs) as [Hok Hle].
  pose proof (so_watermark _ Hok _ _ He) as Hler.
  set (after := value_fingerprint ty v') in *.
  set (changed := write_changed ty (entry_fingerprint entry) after) in *.
  set (entry' := MkEntry (entry_value entry)
     (if changed then (revision w + 1)%N else entry_revision entry) after (entry_owner entry)) in *.
  set (w1 := cell_put w (entry_value entry) v') in *.
  set (sr := reindex (with_entries s (<[e:=entry']> (entries s))) e (entry_fingerprint entry) after).
  assert (indexes (by_fingerprint sr) (fingerprint_pairs (<[e := entry']> (entries s))) ∧
    entries sr = <[e := entry']> (entries s) ∧ watermark sr = watermark s) as (Hix & Hent & Hwm).
  { split; [|unfold sr, reindex; case_bool_decide;
      by rewrite ?entries_index, ?entries_unindex, ?watermark_index, ?watermark_unindex].
    apply (reindex_ok s e entry' (entry_fingerprint entry) (so_index _ Hok)). by rewrite He. }
  eapply row_set_good; [exact Hwf|].
  eapply (rewrite_row_set X w _ ty e s entry entry'); try done.
  - exists (if changed then bump_watermark sr (revision w + 1)%N else sr).
    split; [by destruct changed|]. split; [|split; [by destruct changed|]].
    + assert (∀ e' en, entries sr !! e' = Some en →
        (entry_revision en ≤ if changed then N.max (watermark s) (revision w + 1) else watermark s)%N)
        as Hbound.
      { intros e' en. rewrite Hent. intros [[_ <-]|[_ Hen%(so_watermark _ Hok)]]%lookup_insert_Some;
          simpl; destruct changed; lia. }
      destruct changed; (split; simpl; [by rewrite Hent|]).
      * rewrite Hwm. exact Hbound.
      * rewrite Hwm. exact Hbound.
    + assert (watermark (if changed then bump_watermark sr (revision w + 1) else sr)
          = if changed then N.max (watermark s) (revision w + 1) else watermark s) as Hx
        by (destruct changed; simpl; by rewrite Hwm). exact Hx.
  - change (revision (if changed then set_revision (revision w + 1)%N
      (log_write (put_store w1 ty (bump_watermark sr (revision w + 1)%N)) ty e)
      else put_store w1 ty sr) = if changed then (revision w + 1)%N else revision w).
    by destruct changed.
  - change (write_log w ++ [(ty, e)]) with (write_log w ++ [(ty, e)]).
    destruct changed eqn:Hc; [by left|by right].
  - intros c. assert (is_Some (cell_get w1 c) ↔ is_Some (cell_get w c)) as Hcells.
    { unfold w1, cell_get, cell_put; simpl. rewrite lookup_insert. case_decide; [|done].
      subst. unfold cell_get in Hv. naive_solver. }
    by destruct changed.
  - by destruct changed.
  - by destruct changed.
  - by destruct changed.
Qed.

(** ** Anchors *)

Lemma flush_good X w w' : wf X w → flush_derived_from w = Done w' → good X w w'.
Proof.
  intros Hwf. unfold flush_derived_from. case_bool_decide; [intros [= <-]; by apply good_refl|].
  intros (w1 & Hfold & [= <-])%bind_Done.
  set (w0 := set_flushing_anchors true _) in *.
  assert (good X w w0) as G0 by (by apply frame_good).
  assert (good X w0 w1) as G1.
  { eapply fold_good; [|apply G0|exact Hfold].
    intros w2 [[e anchors] o] w3 _ Hw2 Hins. by eapply insert_good. }
  eapply good_trans; [exact G0|]. eapply good_trans; [exact G1|].
  apply frame_good; try done. apply G1.
Qed.

(** ** Steps of a run *)

(** What commands, commits and external writers do to the world. *)
Inductive apply_step : World → World → Prop :=
  | as_insert w e ty v owner w' : insert w e ty v owner = Done w' → apply_step w w'
  | as_remove w ty e remover w' out :
      remove_component w ty e remover = Done (w', out) → apply_step w w'
  | as_remove_entity w e w' owners : remove_entity w e = Done (w', owners) → apply_step w w'
  | as_reconcile w writes w' : reconcile_written w writes = Done w' → apply_step w w'
  | as_update R w ty e (f : Value → Value * R) w' out :
      update_component_live w ty e f = Done (w', out) → apply_step w w'
  | as_try_update R w ty e held (f : Value → Value * R) w' out :
      try_update_component_live w ty e held f = Done (w', out) → apply_step w w'
  | as_guard_write w c v : is_Some (cell_get w c) → apply_step w (cell_put w c v)
  | as_flush w w' : flush_derived_from w = Done w' → apply_step w w'
  | as_spawn w : apply_step w (fst (spawn_empty w))
  | as_record_spawn w o e : apply_step w (record_derived_spawn w o e)
  | as_finish_spawns w o : apply_step w (finish_derived_spawns w o)
  | as_singleton w key : apply_step w (fst (singleton_entity_or_spawn w key))
  | as_singleton_register w key e : apply_step w (fst (singleton_entity_or_register w key e))
  | as_drain_entities w : apply_step w (fst (take_removed_entities w))
  | as_drain_owners w : apply_step w (fst (take_removed_owners w))
  | as_drain_component_owners w : apply_step w (fst (take_removed_component_owners w))
  | as_drain_written w : apply_step w (fst (take_written_derived w)).

(** The steps that move outputs in and out of the taken set. *)
Inductive world_step : taken * World → taken * World → Prop :=
  | ws_apply X w w' : apply_step w w' → world_step (X, w) (X, w')
  | ws_take X w o w' previous :
      take_derived_outputs w o = (w', previous) →
      world_step (X, w) (taken_at X o (previous ∪ X o), w')
  | ws_stale X w o previous w' :
      remove_derived_stale w o previous = Done w' →
      world_step (X, w) (taken_at X o (X o ∖ previous), w')
  | ws_retract X w o w' :
      X o = ∅ → remove_derived_owned w o = Done w' → world_step (X, w) (X, w')
  | ws_touched X w keyset systems w' removed :
      settled X → remove_derived_touched_by_systems w keyset systems = Done (w', removed) →
      world_step (X, w) (X, w').

Lemma finish_spawns_frame w o : ∃ sc ds,
  finish_derived_spawns w o = set_shared (set_derived_spawns ds (shared w)) (set_spawn_cursors sc w).
Proof.
  exists (delete o (spawn_cursors w)). unfold finish_derived_spawns. simpl.
  destruct (derived_spawns (shared w) !! o); [eauto|].
  exists (derived_spawns (shared w)). by destruct w as [[] ].
Qed.

Lemma apply_step_good X w w' : wf X w → apply_step w w' → good X w w'.
Proof.
  intros Hwf Hstep.
  destruct Hstep as [w e ty v owner w' Hr|w ty e remover w' out Hr|w e w' owners Hr|
    w writes w' Hr|R w ty e f w' out Hr|R w ty e held f w' out Hr|w c v Hc|w w' Hr|w|w o e|w o|
    w key|w key e|w|w|w|w].
  - by eapply insert_good.
  - by eapply remove_component_good.
  - by eapply remove_entity_good.
  - by eapply reconcile_written_good.
  - by eapply update_good.
  - unfold try_update_component_live in Hr.
    destruct (row w ty e) as [entry|]; [destruct (held (entry_value entry))|].
    + apply bind_Done in Hr as (? & _ & [= <- _]). by apply good_refl.
    + apply bind_Done in Hr as ([w1 out1] & Hu & [= <- _]). by eapply update_good.
    + apply bind_Done in Hr as (? & _ & [= <- _]). by apply good_refl.
  - by apply cell_put_good.
  - by apply flush_good.
  - by apply frame_good.
  - by apply frame_good.
  - destruct (finish_spawns_frame w o) as (sc & ds & ->). by apply frame_good.
  - unfold singleton_entity_or_spawn. destruct (singleton_entities w !! key);
      [by apply good_refl|by apply frame_good].
  - unfold singleton_entity_or_register. destruct (singleton_entities w !! key);
      [by apply good_refl|by apply frame_good].
  - by apply frame_good.
  - by apply frame_good.
  - by apply frame_good.
  - by apply frame_good.
Qed.

Lemma world_step_good X w X' w' :
  wf X w → world_step (X, w) (X', w') → wf X' w' ∧ evolves w w'.
Proof.
  intros Hwf Hstep. inversion Hstep; subst.
  - by eapply apply_step_good.
  - match goal with Ht : take_derived_outputs _ _ = _ |- _ => injection Ht as <- <- end.
    split; [by apply take_wf|].
    apply frame_evolves; [done|done| |done]. exists []. by rewrite app_nil_r.
  - match goal with Hr : remove_derived_stale _ _ _ = _ |- _ =>
      by destruct (remove_derived_stale_aux _ _ _ _ _ Hwf Hr) as [[? ?] _] end.
  - match goal with HX : _ = ∅, Hr : remove_derived_owned _ _ = _ |- _ =>
      by destruct (remove_derived_owned_aux _ _ _ _ Hwf HX Hr) as ([? ?] & _) end.
  - match goal with HX : settled _, Hr : remove_derived_touched_by_systems _ _ _ = _ |- _ =>
      by destruct (touched_aux _ _ _ _ _ _ Hwf HX Hr) as ([? ?] & _) end.
Qed.

Lemma world_steps_good c c' :
  rtc world_step c c' → wf c.1 c.2 → wf c'.1 c'.2 ∧ evolves c.2 c'.2.
Proof.
  induction 1 as [[X w]|[X w] [X1 w1] c' Hstep _ IH]; intros Hwf; [by split; [|apply evolves_refl]|].
  destruct (world_step_good _ _ _ _ Hwf Hstep) as [W1 E1]. destruct (IH W1) as [W2 E2].
  split; [done|]. by eapply evolves_trans.
Qed.

Lemma apply_steps_good X w w' : rtc apply_step w w' → wf X w → good X w w'.
Proof.
  induction 1 as [w|w w1 w' Hstep _ IH]; intros Hwf; [by apply good_refl|].
  pose proof (apply_step_good _ _ _ Hwf Hstep) as G1. eapply good_trans; [exact G1|].
  apply IH, G1.
Qed.

(** *** The initial world *)

Definition nothing_taken : taken := λ _, ∅.

Lemma wf_new : wf nothing_taken world_new.
Proof.
  assert (∀ ty, store_of world_new ty = None) as Hs by done.
  assert (∀ ty e, row world_new ty e = None) as Hr by done.
  split; try done; try (intros *; by rewrite ?Hs, ?Hr).
  - intros c [v Hc]. unfold cell_get in Hc; simpl in Hc. by rewrite lookup_empty in Hc.
Qed.

Lemma dense_bits universe : NoDup universe → dense (bit_for (presence_new universe)).
Proof.
  intros Hnd. unfold presence_new; cbn [bit_for]. split.
  - intros ty i Hi%collect_bits_lookup; [|done]. rewrite collect_bits_size by done.
    by eapply lookup_lt_Some.
  - intros ty1 ty2 i H1%collect_bits_lookup H2%collect_bits_lookup; [congruence|done..].
Qed.

Lemma wf_init universe :
  NoDup universe → ∃ w, init_presence world_new universe = Done w ∧ wf nothing_taken w.
Proof.
  intros Hnd. eexists. split; [reflexivity|].
  destruct (wf_stores_with_registry _ (dense_bits _ Hnd)) as [Hst Hempty].
  set (w := set_presence _ _).
  assert (∀ ty, store_of w ty = None) as Hs by apply Hempty.
  assert (∀ ty e, row w ty e = None) as Hr by (intros; unfold row; by rewrite Hs).
  split; try done; try (intros *; by rewrite ?Hs, ?Hr).
  - intros c [v Hc]. unfold cell_get in Hc; simpl in Hc. by rewrite lookup_empty in Hc.
  - change (presence_exact (presence_new universe) w). split; [by apply wf_presence_new|].
    split; [done|]. intros ty e. split.
    + intros (b & _ & Ht). unfold word_at in Ht. change (bits (presence_new universe)) with (@nil N) in Ht.
      by rewrite lookup_nil, N.bits_0 in Ht.
    + rewrite Hr. by intros [_ []].
  - intros o ty e. unfold owner_of. by rewrite Hr.
Qed.

Lemma row_revision_bound X w ty e r :
  wf X w → row_revision w ty e = Some r → (r ≤ store_watermark w ty ≤ revision w)%N.
Proof.
  intros Hwf Hr. unfold row_revision in Hr. unfold store_watermark.
  destruct (store_of w ty) as [s|] eqn:Hs; [|done]. simpl in *.
  destruct (wf_store _ _ Hwf _ _ Hs) as [Hok Hle]. split; [|done].
  unfold revision_for_entity in Hr. destruct (entries s !! e) as [en|] eqn:He; [|done].
  simpl in Hr. injection Hr as <-. by eapply so_watermark.
Qed.

(** Applying commands between taking an owner's index and the stale diff. *)
Lemma commit_aux X w o w1 previous w2 w3 :
  wf X w → X o = ∅ → take_derived_outputs w o = (w1, previous) → rtc apply_step w1 w2 →
  remove_derived_stale w2 o previous = Done w3 →
  wf X w3 ∧ shrinks w2 w3 ∧ evolves w w3.
Proof.
  intros Hwf HX Htake Happly Hstale. injection Htake as <- <-.
  pose proof (take_wf X w o Hwf) as W1.
  destruct (apply_steps_good _ _ _ Happly W1) as [W2 E2].
  destruct (remove_derived_stale_aux _ _ _ _ _ W2 Hstale) as [[W3 E3] S3].
  split; [|split; [done|]].
  - eapply wf_settle; [exact W3|]. intros o' ty e Hin _. unfold taken_at in Hin.
    case_decide as Hd; [|by apply elem_of_union_r].
    subst o'. rewrite decide_True, HX in Hin by done. exfalso.
    apply elem_of_difference in Hin as [Hin Hni].
    apply elem_of_union in Hin as [?|Hin]; [done|]. by apply not_elem_of_empty in Hin.
  - eapply evolves_trans; [|eapply evolves_trans; [exact E2|exact E3]].
    apply frame_evolves; [done|done| |done]. exists []. by rewrite app_nil_r.
Qed.

(** ** Properties *)

(** C33: every reachable world is well formed.  From the empty world of any
    schema, whatever inserts, removals, entity removals, in-place writes,
    anchor flushes, spawns, takes and sweeps ran: fingerprint indexes are exact
    and have no empty bucket, no row is newer than its store's watermark nor a
    watermark newer than the world, every row has an allocated cell, the
    presence bits are exactly store membership, and the ownership index agrees
    with the owners in the rows (up to the outputs a commit has taken). *)
Theorem reachable_wf shapes w X w' :
  init_presence world_new (universe_of shapes) = Done w →
  rtc world_step (nothing_taken, w) (X, w') → wf X w'.
Proof.
  intros Hinit Hsteps. destruct (wf_init (universe_of shapes)) as (w0 & Hw0 & Hwf0).
  { apply universe_of_spec. }
  rewrite Hw0 in Hinit. injection Hinit as ->.
  by apply (world_steps_good _ _ Hsteps).
Qed.

Lemma progressed_identifies X w w' ty e r :
  wf X w → progressed w w' → value_tracked ty = true →
  row_revision w ty e = Some r → row_revision w' ty e = Some r →
  row_fingerprint w' ty e = row_fingerprint w ty e ∧
  (row_fingerprint w ty e = None →
   entry_value <$> row w' ty e = entry_value <$> row w ty e).
Proof.
  intros Hwf P Ht Hr Hr'. pose proof (row_revision_bound _ _ _ _ _ Hwf Hr).
  destruct (pg_fresh _ _ P ty e r Hr') as [?|[_ Hsame]]; [simpl in *; lia|by apply Hsame].
Qed.

Lemma revision_identifies_aux X w X' w' ty e r :
  wf X w → rtc world_step (X, w) (X', w') → value_tracked ty = true →
  row_revision w ty e = Some r → row_revision w' ty e = Some r →
  row_fingerprint w' ty e = row_fingerprint w ty e ∧
  (row_fingerprint w ty e = None →
   entry_value <$> row w' ty e = entry_value <$> row w ty e).
Proof.
  intros Hwf Hsteps. destruct (world_steps_good _ _ Hsteps Hwf) as [_ E].
  eapply progressed_identifies; [exact Hwf|]. by apply evolves_progressed.
Qed.

(** A revision identifies a value.  If a tracked row shows the same
    revision at two points of a run, then whatever happened in between (the row
    removed and inserted again included) its fingerprint is the same, and a row
    without a fingerprint is still the very same cell.  This is what makes the
    revision comparison of a memoized dependency sound. *)
Theorem revision_identifies_value X w X' w' ty e r :
  wf X w → rtc world_step (X, w) (X', w') → value_tracked ty = true →
  row_revision w ty e = Some r → row_revision w' ty e = Some r →
  row_fingerprint w' ty e = row_fingerprint w ty e ∧
  (row_fingerprint w ty e = None →
   entry_value <$> row w' ty e = entry_value <$> row w ty e).
Proof. apply revision_identifies_aux. Qed.

(** The write log is complete: between two points of one log epoch, every
    row that was inserted, removed or moved to another revision is among the
    entries appended in between. *)
Theorem log_covers_changes X w X' w' :
  wf X w → rtc world_step (X, w) (X', w') →
  ∃ appended, write_log w' = write_log w ++ appended ∧
    ∀ ty e, row_revision w ty e ≠ row_revision w' ty e → (ty, e) ∈ appended.
Proof. intros Hwf Hsteps. apply (world_steps_good _ _ Hsteps Hwf). Qed.

Lemma watermark_gates_aux X w X' w' ty e :
  wf X w → rtc world_step (X, w) (X', w') → (store_watermark w' ty ≤ revision w)%N →
  row_revision w' ty e = row_revision w ty e.
Proof.
  intros Hwf Hsteps Hle. destruct (world_steps_good _ _ Hsteps Hwf) as [_ E].
  destruct (decide (row_revision w ty e = row_revision w' ty e)) as [|Hne]; [done|].
  apply (ev_moved _ _ E) in Hne. simpl in *. lia.
Qed.

(** The store watermark gates planning: if a store's watermark is not above
    the revision of an earlier world, then none of its rows was inserted,
    removed or moved since. *)
Theorem watermark_gates X w X' w' ty e :
  wf X w → rtc world_step (X, w) (X', w') → (store_watermark w' ty ≤ revision w)%N →
  row_revision w' ty e = row_revision w ty e.
Proof. apply watermark_gates_aux. Qed.

(** A commit replaces an owner's outputs.  After taking the owner's index,
    applying any commands, and removing what is stale, the owner owns exactly
    the rows in its index, and a previous output that was not emitted again is
    no longer the owner's. *)
Theorem commit_replaces_outputs X w o w1 previous w2 w3 :
  wf X w → X o = ∅ → take_derived_outputs w o = (w1, previous) → rtc apply_step w1 w2 →
  remove_derived_stale w2 o previous = Done w3 →
  wf X w3 ∧
  (∀ ty e, owner_of w3 ty e = Some o ↔ (ty, e) ∈ outputs_of w3 o) ∧
  (∀ ty e, (ty, e) ∈ previous → (ty, e) ∉ outputs_of w2 o → owner_of w3 ty e ≠ Some o).
Proof.
  intros Hwf HX Htake Happly Hstale.
  destruct (commit_aux _ _ _ _ _ _ _ Hwf HX Htake Happly Hstale) as (W3 & [S3 _] & _).
  assert (∀ ty e, owner_of w3 ty e = Some o ↔ (ty, e) ∈ outputs_of w3 o) as Hown.
  { intros ty e. split; [|apply (wf_sound _ _ W3)].
    intros Ho%(wf_complete _ _ W3). rewrite HX in Ho.
    apply elem_of_union in Ho as [?|Ho]; [done|]. by apply not_elem_of_empty in Ho. }
  split; [done|]. split; [done|]. intros ty e _ Hni Ho%Hown. by apply Hni, S3.
Qed.

(** Retraction is total: sweeping the owners keyed by dead entities leaves
    none of them with an output or a row, keeps the world well formed, and
    gives no other owner anything. *)
Theorem touched_owners_retired X w keyset systems w' frontier :
  wf X w → settled X →
  remove_derived_touched_by_systems w keyset systems = Done (w', frontier) →
  wf X w' ∧ shrinks w w' ∧
  ∀ o, owner_touched keyset systems o = true →
    outputs_of w' o = ∅ ∧ ∀ ty e, owner_of w' ty e ≠ Some o.
Proof.
  intros Hwf HX Hrun. destruct (touched_aux _ _ _ _ _ _ Hwf HX Hrun) as ([W E] & S & Hgone).
  split; [done|]. split; [done|]. intros o Ht. split; [|intros; by apply Hgone].
  apply elem_of_equiv_empty_L. intros [ty e] Hin%(wf_sound _ _ W). by eapply Hgone.
Qed.

(** Insertion, on every branch.  The row holds the value in a fresh cell
    with its owner; every other row is untouched.  A tracked value with an
    unchanged fingerprint keeps the row's revision and the world's; any other
    insert, an untracked one included, stamps the row with the next revision. *)
Theorem insert_row_exact X w e ty v owner w' edge :
  wf X w → insert_row w e ty v owner = Done (w', edge) →
  ∃ r, inserted w w' ty e v owner r ∧
    (∀ ty' e', ¬ (ty' = ty ∧ e' = e) → row w' ty' e' = row w ty' e') ∧
    (∀ c u, cell_get w c = Some u → cell_get w' c = Some u) ∧
    edge = (u ← row_value w ty e; value_edge ty u) ∧
    ∀ o, (ty, e) ∈ outputs_of w' o ↔ owner = Some o.
Proof.
  intros Hwf Hins.
  destruct (insert_row_spec _ _ _ _ _ _ _ _ Hwf Hins) as (entry & Hrs & Hin & Hc & He & _).
  exists (entry_revision entry). split; [done|]. split; [|split; [done|split; [done|]]].
  - intros ty' e' Hne. rewrite (row_set_row _ _ _ _ _ _ _ _ Hwf Hrs). by rewrite decide_False.
  - intros o. destruct Hin as (Hrow & _). pose proof (row_set_wf _ _ _ _ _ _ Hwf Hrs) as W'.
    split.
    + intros Ho%(wf_sound _ _ W'). unfold owner_of in Ho. by rewrite Hrow in Ho.
    + intros ->. destruct (insert_row_fields _ _ _ _ _ _ _ Hins)
        as (w1 & w1' & w2 & r & _ & _ & _ & _ & _ & _ & _ & _ & _ & Hd & _).
      unfold outputs_of. rewrite Hd. fold (outputs_of (insert_owner w2 ty e (row w ty e) (Some o)) o).
      rewrite insert_owner_outputs. by left.
Qed.
End ops.

(** ** Concrete runs *)

Definition run {A} (d : A) (m : result A) : A := match m with Done a => a | Panic _ => d end.

Definition demo_shapes : list ShapeDesc := [MkShape 0 [ty_num; ty_edge] [ty_marker]].
Definition demo_owner : SystemInvocation := Invocation 2 [7%N].
Definition demo_w0 : World := run world_new (init_presence world_new (universe_of demo_shapes)).
(** The number 5 on entity 7, derived by [demo_owner]. *)
Definition demo_w1 : World := run demo_w0 (insert demo_w0 7 ty_num (v_num 5) (Some demo_owner)).
(** The same number again, then another one. *)
Definition demo_w2 : World := run demo_w1 (insert demo_w1 7 ty_num (v_num 5) (Some demo_owner)).
Definition demo_w3 : World := run demo_w1 (insert demo_w2 7 ty_num (v_num 6) (Some demo_owner)).

Lemma demo_init : init_presence world_new (universe_of demo_shapes) = Done demo_w0.
Proof. vm_compute. reflexivity. Qed.
Lemma demo_step1 : world_step (nothing_taken, demo_w0) (nothing_taken, demo_w1).
Proof. apply ws_apply. eapply (as_insert _ 7 ty_num (v_num 5) (Some demo_owner)). vm_compute. reflexivity. Qed.
Lemma demo_step2 : world_step (nothing_taken, demo_w1) (nothing_taken, demo_w2).
Proof. apply ws_apply. eapply (as_insert _ 7 ty_num (v_num 5) (Some demo_owner)). vm_compute. reflexivity. Qed.
Lemma demo_step3 : world_step (nothing_taken, demo_w2) (nothing_taken, demo_w3).
Proof. apply ws_apply. eapply (as_insert _ 7 ty_num (v_num 6) (Some demo_owner)). vm_compute. reflexivity. Qed.

Lemma demo_wf0 : wf nothing_taken demo_w0.
Proof.
  destruct (wf_init (universe_of demo_shapes)) as (w & Hw & Hwf).
  - apply universe_of_spec.
  - rewrite demo_init in Hw. by injection Hw as ->.
Qed.
Lemma demo_wf1 : wf nothing_taken demo_w1.
Proof. apply (world_step_good _ _ _ _ demo_wf0 demo_step1). Qed.

Lemma reachable_wf_witness : wf nothing_taken demo_w1.
Proof.
  apply (reachable_wf demo_shapes demo_w0).
  - vm_compute. reflexivity.
  - apply rtc_once, demo_step1.
Defined.

Lemma revision_identifies_value_witness :
  row_fingerprint demo_w2 ty_num 7 = Some 5%N ∧ row_revision demo_w2 ty_num 7 = Some 1%N.
Proof.
  split; [|vm_compute; reflexivity].
  transitivity (row_fingerprint demo_w1 ty_num 7); [|vm_compute; reflexivity].
  apply (revision_identifies_value nothing_taken demo_w1 nothing_taken demo_w2 ty_num 7 1 demo_wf1).
  - apply rtc_once, demo_step2.
  - vm_compute. reflexivity.
  - vm_compute. reflexivity.
  - vm_compute. reflexivity.
Defined.

Lemma log_covers_changes_witness :
  ∃ appended, write_log demo_w3 = write_log demo_w1 ++ appended ∧
    ∀ ty e, row_revision demo_w1 ty e ≠ row_revision demo_w3 ty e → (ty, e) ∈ appended.
Proof.
  apply (log_covers_changes nothing_taken demo_w1 nothing_taken demo_w3 demo_wf1).
  eapply rtc_l; [apply demo_step2|]. apply rtc_once, demo_step3.
Defined.

Lemma watermark_gates_witness : row_revision demo_w2 ty_num 7 = row_revision demo_w1 ty_num 7.
Proof.
  apply (watermark_gates nothing_taken demo_w1 nothing_taken demo_w2 ty_num 7 demo_wf1).
  - apply rtc_once, demo_step2.
  - vm_compute. discriminate.
Defined.

(** The owner reruns and emits nothing: its output on entity 7 goes. *)
Definition demo_taken : World := fst (take_derived_outputs demo_w1 demo_owner).
Definition demo_committed : World :=
  run demo_taken (remove_derived_stale demo_taken demo_owner {[(ty_num, 7%N)]}).

Lemma commit_replaces_outputs_witness :
  wf nothing_taken demo_committed ∧
  (∀ ty e, owner_of demo_committed ty e = Some demo_owner ↔
           (ty, e) ∈ outputs_of demo_committed demo_owner) ∧
  (∀ ty e, (ty, e) ∈ ({[(ty_num, 7%N)]} : gset (TypeId * Entity)) →
     (ty, e) ∉ outputs_of demo_taken demo_owner → owner_of demo_committed ty e ≠ Some demo_owner).
Proof.
  apply (commit_replaces_outputs nothing_taken demo_w1 demo_owner demo_taken _ demo_taken
           demo_committed demo_wf1).
  - reflexivity.
  - vm_compute. reflexivity.
  - apply rtc_refl.
  - vm_compute. reflexivity.
Defined.

Lemma touched_owners_retired_witness :
  ∃ w' frontier, remove_derived_touched_by_systems demo_w1 {[7%N]} None = Done (w', frontier) ∧
    wf nothing_taken w' ∧ outputs_of w' demo_owner = ∅.
Proof.
  destruct (remove_derived_touched_by_systems demo_w1 {[7%N]} None) as [[w' frontier]|f] eqn:Hrun;
    [|vm_compute in Hrun; discriminate].
  exists w', frontier. split; [done|].
  destruct (touched_owners_retired nothing_taken demo_w1 {[7%N]} None w' frontier demo_wf1)
    as (Hwf & _ & Hgone).
  - by intros o.
  - exact Hrun.
  - split; [exact Hwf|]. apply (Hgone demo_owner). vm_compute. reflexivity.
Defined.

Lemma insert_row_exact_witness :
  ∃ w' edge r, insert_row demo_w1 7 ty_num (v_num 6) None = Done (w', edge) ∧
    inserted demo_w1 w' ty_num 7 (v_num 6) None r.
Proof.
  destruct (insert_row demo_w1 7 ty_num (v_num 6) None) as [[w' edge]|f] eqn:Hrun;
    [|vm_compute in Hrun; discriminate].
  destruct (insert_row_exact nothing_taken demo_w1 7 ty_num (v_num 6) None w' edge demo_wf1
              Hrun) as (r & Hin & _).
  exists w', edge, r. split; [done|exact Hin].
Defined.
