(* ===== verification/Relations.v ===== *)
(** * Maintained relationship inverses ([world.rs], [component.rs])

    An edge component names a target entity; the engine keeps, on the target,
    an inverse component listing every source, sorted by entity id.  [rel_ok]
    says that every inverse is exact; the theorems say that insertion (with
    retargeting), removal, sweeping and whole-entity removal keep it so, under
    the laws [RelationshipTarget] documents, and so does every other world step
    except the two kinds that [rel_step] leaves out.  They also show that maintenance
    never nests more than once, so the nesting bound is never reached. *)
From stdpp Require Import base numbers sets gmap fin_maps sorting list.
From S2P Require Import Prelude Components Demo Stores Presence World WorldInv Ownership WorldOps.

(** ** Sorted member lists *)

Lemma binary_search_found l x i : binary_search l x = inl i → l !! i = Some x.
Proof.
  revert i. induction l as [|y l IH]; intros i; simpl; [done|].
  case_bool_decide as Hxy; [intros [= <-]; by rewrite Hxy|]. case_bool_decide; [done|].
  destruct (binary_search l x) as [j|j]; [|done]. intros [= <-]. by apply IH.
Qed.

Lemma StronglySorted_head_lt y (l : list N) x :
  StronglySorted N.lt (y :: l) → x ∈ l → (y < x)%N.
Proof.
  intros Hs Hx. apply StronglySorted_cons in Hs as [Hall _].
  rewrite List.Forall_forall in Hall. by apply Hall, list_elem_of_In.
Qed.

Lemma binary_search_missing l x i :
  StronglySorted N.lt l → binary_search l x = inr i →
  x ∉ l ∧ StronglySorted N.lt (insert_at i x l) ∧ ∀ y, y ∈ insert_at i x l ↔ y = x ∨ y ∈ l.
Proof.
  revert i. induction l as [|y l IH]; intros i Hs; simpl.
  { intros [= <-]. unfold insert_at; simpl. split; [set_solver|]. split; [|set_solver].
    apply StronglySorted_cons. split; [constructor|constructor]. }
  case_bool_decide as Hxy; [done|]. case_bool_decide as Hlt.
  - intros [= <-]. unfold insert_at; simpl. split; [|split; [|set_solver]].
    + intros [->|Hx]%elem_of_cons; [done|]. pose proof (StronglySorted_head_lt _ _ _ Hs Hx). lia.
    + apply StronglySorted_cons. split; [|done]. constructor; [done|].
      apply List.Forall_forall. intros z Hz%list_elem_of_In.
      pose proof (StronglySorted_head_lt _ _ _ Hs Hz). lia.
  - pose proof Hs as Hs'. apply StronglySorted_cons in Hs' as [Hall Hs'].
    destruct (binary_search l x) as [j|j] eqn:Hb; [done|]. intros [= <-].
    destruct (IH j Hs' eq_refl) as (Hni & Hsj & Hin).
    change (insert_at (S j) x (y :: l)) with (y :: insert_at j x l).
    split; [|split].
    + intros [->|?]%elem_of_cons; done.
    + apply StronglySorted_cons. split; [|done]. apply List.Forall_forall.
      intros z Hz%list_elem_of_In. apply Hin in Hz as [->|Hz]; [lia|].
      by eapply StronglySorted_head_lt.
    + intros z. rewrite !elem_of_cons, Hin. tauto.
Qed.

Lemma delete_sorted l i x :
  StronglySorted N.lt l → l !! i = Some x →
  StronglySorted N.lt (delete i l) ∧ ∀ y, y ∈ delete i l ↔ y ∈ l ∧ y ≠ x.
Proof.
  revert i. induction l as [|z l IH]; intros i Hs Hi; [done|].
  pose proof Hs as Hs'. apply StronglySorted_cons in Hs' as [Hall Hs'].
  destruct i as [|i]; simpl in *.
  - injection Hi as ->. split; [done|]. intros y. rewrite elem_of_cons. split; [|tauto].
    intros Hy. split; [by right|]. intros ->.
    pose proof (StronglySorted_head_lt _ _ _ Hs Hy). lia.
  - destruct (IH i Hs' Hi) as [Hsd Hin]. split.
    + apply StronglySorted_cons. split; [|done]. apply List.Forall_forall.
      intros y Hy%list_elem_of_In. apply Hin in Hy as [Hy _]. by eapply StronglySorted_head_lt.
    + intros y. rewrite !elem_of_cons, Hin. split; [|tauto].
      intros [->|[? ?]]; [|tauto]. split; [by left|]. intros ->.
      assert (x ∈ l) as Hx by by eapply list_elem_of_lookup_2.
      pose proof (StronglySorted_head_lt _ _ _ Hs Hx). lia.
Qed.

Section relations.
Context `{RelationshipLaws} `{HashOrder}.
Implicit Types (w : World) (inv ty : TypeId) (e s t : Entity).

(** ** Exact inverses *)

(** The edge a row carries: the inverse it maintains and the target. *)
Definition edge_target (w : World) (ty : TypeId) (e : Entity) : option (TypeId * Entity) :=
  v ← row_value w ty e; value_edge ty v.

Definition members_at (w : World) (inv : TypeId) (t : Entity) : option (list Entity) :=
  v ← row_value w inv t; value_members inv v.

(** The inverse on [t] lists exactly the sources in [P]; no inverse is stored
    when there is none. *)
Definition exact (w : World) (inv : TypeId) (t : Entity) (P : Entity → Prop) : Prop :=
  match members_at w inv t with
  | Some ms => StronglySorted N.lt ms ∧ ms ≠ [] ∧ ∀ s, s ∈ ms ↔ P s
  | None => row w inv t = None ∧ ∀ s, ¬ P s
  end.

(** [s] has an edge of the relationship [inv] to [t]. *)
Definition points_to (w : World) (inv : TypeId) (t s : Entity) : Prop :=
  ∃ ty, edge_target w ty s = Some (inv, t).

(** Every inverse lists its sources by [Q], and belongs to no invocation. *)
Definition inverses (w : World) (Q : TypeId → Entity → Entity → Prop) : Prop :=
  ∀ inv t, is_Some (edge_of inv) → exact w inv t (Q inv t) ∧ owner_of w inv t = None.

Definition rel_ok (w : World) : Prop := inverses w (points_to w).

Lemma exact_iff w inv t P Q : (∀ s, P s ↔ Q s) → exact w inv t P → exact w inv t Q.
Proof.
  intros HPQ. unfold exact. destruct (members_at w inv t).
  - intros (? & ? & Hin). split_and!; [done..|]. intros s. by rewrite Hin, HPQ.
  - intros [? HP]. split; [done|]. intros s. by rewrite <-HPQ.
Qed.

Lemma exact_frame w w' inv t P :
  row w' inv t = row w inv t → row_value w' inv t = row_value w inv t →
  exact w inv t P → exact w' inv t P.
Proof. intros Hr Hv. unfold exact, members_at. by rewrite Hr, Hv. Qed.

Lemma value_edge_inverse ty v inv t :
  value_edge ty v = Some (inv, t) → edge_of inv = Some ty.
Proof. destruct v as [p|]; [|done]. apply edge_inverse. Qed.

Lemma value_edge_none inv v : is_Some (edge_of inv) → value_edge inv v = None.
Proof. intros [ty Hty]. destruct v as [p|]; [by eapply inverse_no_edge|done]. Qed.

(** *** Values after a row primitive *)

Lemma insert_row_values X w e ty v owner w' pe :
  wf X w → insert_row w e ty v owner = Done (w', pe) →
  wf X w' ∧ pe = edge_target w ty e ∧
  (∀ ty' e', row_value w' ty' e' =
     if decide (ty' = ty ∧ e' = e) then Some v else row_value w ty' e') ∧
  (∀ ty' e', ¬ (ty' = ty ∧ e' = e) → row w' ty' e' = row w ty' e') ∧
  owner_of w' ty e = owner ∧ is_Some (row w' ty e).
Proof.
  intros Hwf Hins.
  destruct (insert_row_spec _ _ _ _ _ _ _ _ Hwf Hins) as (entry & Hrs & (Hrow & Hcell & _) & Hk & He & _).
  split; [by eapply row_set_wf|]. split; [done|].
  assert (∀ ty' e', ¬ (ty' = ty ∧ e' = e) → row w' ty' e' = row w ty' e') as Hother.
  { intros ty' e' Hne. rewrite (row_set_row _ _ _ _ _ _ _ _ Hwf Hrs). by rewrite decide_False. }
  split; [|split; [done|]].
  - intros ty' e'. unfold row_value. case_decide as Hd.
    + destruct Hd as [-> ->]. by rewrite Hrow.
    + rewrite Hother by done. destruct (row w ty' e') as [en|] eqn:Hr; simpl; [|done].
      destruct (wf_cell _ _ Hwf _ _ _ Hr) as [u Hu]. rewrite Hu. by apply Hk.
  - unfold owner_of. rewrite Hrow. eauto.
Qed.

Lemma dropped_values X w w' ty e :
  wf X w → row_set X w w' ty e None → shared w' = shared w →
  wf X w' ∧
  (∀ ty' e', row w' ty' e' = if decide (ty' = ty ∧ e' = e) then None else row w ty' e') ∧
  (∀ ty' e', row_value w' ty' e' =
     if decide (ty' = ty ∧ e' = e) then None else row_value w ty' e').
Proof.
  intros Hwf Hrs Hsh. split; [by eapply row_set_wf|].
  assert (∀ ty' e', row w' ty' e' = if decide (ty' = ty ∧ e' = e) then None else row w ty' e')
    as Hrow by (intros; by eapply row_set_row).
  split; [done|]. intros ty' e'. unfold row_value, cell_get. rewrite Hrow, Hsh. by case_decide.
Qed.

(** *** One level of maintenance is enough *)

Lemma insert_row_edge w e ty v owner w' pe :
  is_Some (edge_of ty) → insert_row w e ty v owner = Done (w', pe) → pe = None.
Proof.
  intros Hinv Hins. destruct (insert_row_fields _ _ _ _ _ _ _ Hins)
    as (? & ? & ? & ? & _ & _ & _ & _ & _ & _ & _ & _ & _ & _ & ->).
  destruct (row w ty e) as [en|]; simpl; [|done].
  destruct (cell_get w' (entry_value en)); simpl; [|done]. by apply value_edge_none.
Qed.

(** Writing an inverse involves no maintenance, whatever the maintainers. *)
Lemma insert_inverse ops w t inv p :
  is_Some (edge_of inv) →
  insert_with ops w t inv (Plain p) None = insert_row w t inv (Plain p) None ≫= λ '(w, _), Done w.
Proof.
  intros Hinv. unfold insert_with, insert_value.
  destruct (insert_row w t inv (Plain p) None) as [[w' pe]|f] eqn:Hins; simpl; [|done].
  rewrite (insert_row_edge _ _ _ _ _ _ _ Hinv Hins).
  destruct Hinv as [ty Hty]. by rewrite (inverse_no_edge _ _ _ Hty).
Qed.

Lemma remove_inverse ops w inv t remover :
  is_Some (edge_of inv) →
  remove_component_with ops w inv t remover =
  remove_row w inv t remover ≫= λ '(w, removed), Done (w, option_map fst removed).
Proof.
  intros Hinv. unfold remove_component_with.
  destruct (remove_row w inv t remover) as [[w' [[c edge]|]]|f] eqn:Hrem; simpl; [|done|done].
  enough (edge = None) as -> by done.
  unfold remove_row in Hrem. destruct (store_of w inv) as [st|]; [|done].
  destruct (entries st !! t) as [removed|]; [|done].
  apply bind_Done in Hrem as (wd & _ & Hrem). apply bind_Done in Hrem as (wb & _ & Hrem).
  injection Hrem as _ _ <-. destruct (cell_get wd (entry_value removed)); simpl; [|done].
  by apply value_edge_none.
Qed.

Lemma add_member_ops ops1 ops2 inv s t w :
  is_Some (edge_of inv) →
  relationship_add_member_with ops1 inv s t w = relationship_add_member_with ops2 inv s t w.
Proof.
  intros Hinv. unfold relationship_add_member_with.
  destruct (binary_search _ s); [done|]. by rewrite !insert_inverse.
Qed.

Lemma remove_member_ops ops1 ops2 inv s t w :
  is_Some (edge_of inv) →
  relationship_remove_member_with ops1 inv s t w = relationship_remove_member_with ops2 inv s t w.
Proof.
  intros Hinv. unfold relationship_remove_member_with.
  destruct (v ← row_value w inv t; value_members inv v) as [ms|]; [|done].
  destruct (binary_search ms s); [|done]. case_bool_decide.
  - by rewrite !remove_inverse.
  - by rewrite !insert_inverse.
Qed.

(** *** The maintainers *)

(** A change confined to one row. *)
Definition only_row (w w' : World) (ty : TypeId) (e : Entity) : Prop :=
  ∀ ty' e', ¬ (ty' = ty ∧ e' = e) →
    row w' ty' e' = row w ty' e' ∧ row_value w' ty' e' = row_value w ty' e'.

Lemma write_inverse X w t inv ms w' pe :
  wf X w → is_Some (edge_of inv) → StronglySorted N.lt ms → ms ≠ [] →
  insert_row w t inv (Plain (ct_from_members inv ms)) None = Done (w', pe) →
  wf X w' ∧ exact w' inv t (λ s, s ∈ ms) ∧ only_row w w' inv t ∧ owner_of w' inv t = None.
Proof.
  intros Hwf [ty Hty] Hs Hne Hins.
  destruct (insert_row_values _ _ _ _ _ _ _ _ Hwf Hins) as (Hwf' & _ & Hval & Hrow & Hown & _).
  split; [done|]. split; [|split; [|done]].
  - unfold exact, members_at. rewrite Hval, decide_True by done. simpl.
    by rewrite (inverse_members _ _ _ Hty).
  - intros ty' e' Hn. split; [by apply Hrow|]. by rewrite Hval, decide_False.
Qed.

Lemma add_member_spec ops X inv s t w w' P :
  wf X w → is_Some (edge_of inv) → exact w inv t P → owner_of w inv t = None →
  relationship_add_member_with ops inv s t w = Done w' →
  wf X w' ∧ exact w' inv t (λ x, P x ∨ x = s) ∧ only_row w w' inv t ∧ owner_of w' inv t = None.
Proof.
  intros Hwf Hinv Hex Hown. unfold relationship_add_member_with. fold (members_at w inv t).
  unfold exact in Hex. set (ms := default [] (members_at w inv t)).
  assert (StronglySorted N.lt ms ∧ ∀ x, x ∈ ms ↔ P x) as [Hs HP].
  { unfold ms. destruct (members_at w inv t); simpl; [tauto|].
    split; [constructor|]. intros x. destruct Hex as [_ Hn]. split; [set_solver|]. by intros ?%Hn. }
  destruct (binary_search ms s) as [i|i] eqn:Hb.
  - intros [= <-]. apply binary_search_found, list_elem_of_lookup_2 in Hb as Hin.
    split; [done|]. split; [|done]. unfold exact. unfold ms in *.
    destruct (members_at w inv t) as [ms'|]; [|simpl in Hin; set_solver].
    destruct Hex as (? & ? & ?). split_and!; try done. intros x. simpl in *. rewrite HP.
    split; [tauto|]. intros [?| ->]; [done|]. by apply HP.
  - rewrite insert_inverse by done. intros ([w1 pe] & Hins & [= <-])%bind_Done.
    destruct (binary_search_missing _ _ _ Hs Hb) as (Hni & Hs' & Hin).
    assert (insert_at i s ms ≠ []) as Hne.
    { intros Heq. specialize (Hin s). rewrite Heq in Hin. set_solver. }
    destruct (write_inverse _ _ _ _ _ _ _ Hwf Hinv Hs' Hne Hins) as (? & Hex' & ? & ?).
    split; [done|]. split; [|done]. eapply exact_iff; [|exact Hex'].
    intros x. rewrite Hin, HP. tauto.
Qed.

Lemma remove_member_spec ops X inv s t w w' P :
  wf X w → is_Some (edge_of inv) → exact w inv t P → owner_of w inv t = None →
  relationship_remove_member_with ops inv s t w = Done w' →
  wf X w' ∧ exact w' inv t (λ x, P x ∧ x ≠ s) ∧ only_row w w' inv t ∧ owner_of w' inv t = None.
Proof.
  intros Hwf Hinv Hex Hown. unfold relationship_remove_member_with. fold (members_at w inv t).
  pose proof Hex as Hex0. unfold exact in Hex. destruct (members_at w inv t) as [ms|] eqn:Hms.
  2:{ intros [= <-]. split; [done|]. split; [|done]. unfold exact. rewrite Hms.
      destruct Hex as [? Hn]. split; [done|]. intros x [Hx _]. by eapply Hn. }
  destruct Hex as (Hs & Hne & HP).
  destruct (binary_search ms s) as [i|i] eqn:Hb.
  2:{ intros [= <-]. split; [done|]. split; [|done].
      destruct (binary_search_missing _ _ _ Hs Hb) as (Hni & _ & _).
      eapply exact_iff; [|exact Hex0]. intros x. split; [|tauto]. intros Hx. split; [done|].
      intros ->. by apply Hni, HP. }
  destruct (delete_sorted _ _ _ Hs (binary_search_found _ _ _ Hb)) as [Hs' Hin].
  case_bool_decide as Hempty.
  - rewrite remove_inverse by done.
    intros ([w1 c] & ([w2 removed] & Hrem & [= <- <-])%bind_Done & [= <-])%bind_Done.
    pose proof (remove_row_spec _ _ _ _ _ _ _ Hwf Hrem) as Hspec.
    destruct removed as [[c edge]|].
    + destruct Hspec as (removed & _ & _ & _ & Hrs & Hsh & _).
      destruct (dropped_values _ _ _ _ _ Hwf Hrs Hsh) as (Hwf' & Hrow & Hval).
      split; [done|]. split; [|split].
      * unfold exact, members_at. rewrite Hval, decide_True by done. simpl.
        rewrite Hrow, decide_True by done. split; [done|]. intros x [Hx Hxs].
        assert (x ∈ delete i ms) as Hd by (apply Hin; by rewrite HP). rewrite Hempty in Hd. set_solver.
      * intros ty' e' Hn. by rewrite Hrow, Hval, !decide_False.
      * unfold owner_of. by rewrite Hrow, decide_True.
    + destruct Hspec as [_ Hnone]. unfold members_at, row_value in Hms. by rewrite Hnone in Hms.
  - rewrite insert_inverse by done. intros ([w1 pe] & Hins & [= <-])%bind_Done.
    destruct (write_inverse _ _ _ _ _ _ _ Hwf Hinv Hs' Hempty Hins) as (? & Hex' & ? & ?).
    split; [done|]. split; [|done]. eapply exact_iff; [|exact Hex'].
    intros x. rewrite Hin, HP. tauto.
Qed.

(** *** All inverses at once *)

Lemma inverses_iff w Q Q' :
  (∀ inv t s, is_Some (edge_of inv) → Q inv t s ↔ Q' inv t s) → inverses w Q → inverses w Q'.
Proof.
  intros HQ Hw inv t Hinv. destruct (Hw inv t Hinv) as [Hex Ho]. split; [|done].
  eapply exact_iff; [|exact Hex]. intros s. by apply HQ.
Qed.

Lemma edge_target_inverse w inv t : is_Some (edge_of inv) → edge_target w inv t = None.
Proof.
  intros Hinv. unfold edge_target. destruct (row_value w inv t); simpl; [|done].
  by apply value_edge_none.
Qed.

Lemma edge_target_of w ty s inv t : edge_target w ty s = Some (inv, t) → edge_of inv = Some ty.
Proof.
  unfold edge_target. destruct (row_value w ty s) as [v|]; simpl; [|done]. apply value_edge_inverse.
Qed.

Lemma only_inverse_edges w w' inv t :
  is_Some (edge_of inv) → only_row w w' inv t →
  ∀ ty s, edge_target w' ty s = edge_target w ty s.
Proof.
  intros Hinv Honly ty s. destruct (decide (ty = inv)) as [->|Hne].
  - by rewrite !edge_target_inverse.
  - unfold edge_target. destruct (Honly ty s) as [_ ->]; [tauto|done].
Qed.

Lemma inverses_step w w' inv0 t0 Q Q' :
  is_Some (edge_of inv0) → inverses w Q → only_row w w' inv0 t0 →
  exact w' inv0 t0 (Q' inv0 t0) → owner_of w' inv0 t0 = None →
  (∀ inv t s, ¬ (inv = inv0 ∧ t = t0) → Q inv t s ↔ Q' inv t s) → inverses w' Q'.
Proof.
  intros Hinv Hw Honly Hex Ho HQ inv t Hi. destruct (decide (inv = inv0 ∧ t = t0)) as [[-> ->]|Hne].
  - done.
  - destruct (Hw inv t Hi) as [He How]. destruct (Honly inv t Hne) as [Hr Hv]. split.
    + eapply exact_iff; [|eapply exact_frame; [exact Hr|exact Hv|exact He]].
      intros s. by apply HQ.
    + unfold owner_of. by rewrite Hr.
Qed.

Lemma inverses_remove ops X w inv0 s0 t0 w' Q :
  wf X w → is_Some (edge_of inv0) → inverses w Q →
  relationship_remove_member_with ops inv0 s0 t0 w = Done w' →
  wf X w' ∧ inverses w' (λ inv t s, Q inv t s ∧ ¬ (inv = inv0 ∧ t = t0 ∧ s = s0)) ∧
  only_row w w' inv0 t0.
Proof.
  intros Hwf Hinv Hw Hrun. destruct (Hw inv0 t0 Hinv) as [Hex Ho].
  destruct (remove_member_spec _ _ _ _ _ _ _ _ Hwf Hinv Hex Ho Hrun) as (Hwf' & Hex' & Honly & Ho').
  split; [done|]. split; [|done].
  eapply inverses_step; [done|exact Hw|exact Honly| |done|].
  - eapply exact_iff; [|exact Hex']. intros s. simpl. tauto.
  - intros inv t s Hne. simpl. tauto.
Qed.

Lemma inverses_add ops X w inv0 s0 t0 w' Q :
  wf X w → is_Some (edge_of inv0) → inverses w Q →
  relationship_add_member_with ops inv0 s0 t0 w = Done w' →
  wf X w' ∧ inverses w' (λ inv t s, Q inv t s ∨ (inv = inv0 ∧ t = t0 ∧ s = s0)) ∧
  only_row w w' inv0 t0.
Proof.
  intros Hwf Hinv Hw Hrun. destruct (Hw inv0 t0 Hinv) as [Hex Ho].
  destruct (add_member_spec _ _ _ _ _ _ _ _ Hwf Hinv Hex Ho Hrun) as (Hwf' & Hex' & Honly & Ho').
  split; [done|]. split; [|done].
  eapply inverses_step; [done|exact Hw|exact Honly| |done|].
  - eapply exact_iff; [|exact Hex']. intros s. simpl. tauto.
  - intros inv t s Hne. simpl. tauto.
Qed.

Lemma remove_edge_inverses n X w e edge w' Q :
  wf X w → (∀ inv t, edge = Some (inv, t) → is_Some (edge_of inv)) → inverses w Q →
  remove_edge (relops (S n)) w e edge = Done w' →
  wf X w' ∧ inverses w' (λ inv t s, Q inv t s ∧ ¬ (edge = Some (inv, t) ∧ s = e)) ∧
  ∀ ty s, edge_target w' ty s = edge_target w ty s.
Proof.
  intros Hwf Hinv Hw. destruct edge as [[inv t]|]; simpl.
  - intros Hrun. destruct (inverses_remove _ _ _ _ _ _ _ _ Hwf (Hinv _ _ eq_refl) Hw Hrun)
      as (Hwf' & Hw' & Honly).
    split; [done|]. split; [|by eapply only_inverse_edges; eauto].
    eapply inverses_iff; [|exact Hw']. intros inv' t' s _. simpl. naive_solver.
  - intros [= <-]. split; [done|]. split; [|done]. eapply inverses_iff; [|exact Hw].
    intros inv' t' s _. simpl. naive_solver.
Qed.

(** The whole maintenance of one insert. *)
Lemma maintain_edges_inverses n X w e p q w' Q :
  wf X w → (∀ inv t, p = Some (inv, t) → is_Some (edge_of inv)) →
  (∀ inv t, q = Some (inv, t) → is_Some (edge_of inv)) →
  inverses w Q → maintain_edges (relops (S n)) w e p q = Done w' →
  snd <$> p ≠ snd <$> q →
  wf X w' ∧
  inverses w' (λ inv t s, (Q inv t s ∧ ¬ (p = Some (inv, t) ∧ s = e)) ∨ (q = Some (inv, t) ∧ s = e)) ∧
  ∀ ty s, edge_target w' ty s = edge_target w ty s.
Proof.
  intros Hwf Hp Hq Hw Hrun Hne. unfold maintain_edges in Hrun.
  rewrite bool_decide_true in Hrun by done. apply bind_Done in Hrun as (w1 & Hx1 & Hx2).
  assert (remove_edge (relops (S n)) w e p = Done w1) as Hx1' by by destruct p as [[]|].
  destruct (remove_edge_inverses _ _ _ _ _ _ _ Hwf Hp Hw Hx1') as (Hwf1 & Hw1 & Het1).
  destruct q as [[inv t]|].
  - destruct (inverses_add _ _ _ _ _ _ _ _ Hwf1 (Hq _ _ eq_refl) Hw1 Hx2) as (Hwf2 & Hw2 & Honly).
    split; [done|]. split.
    + eapply inverses_iff; [|exact Hw2]. intros inv' t' s _. simpl. naive_solver.
    + intros ty s. rewrite <-Het1. eapply only_inverse_edges; eauto.
  - injection Hx2 as <-. split; [done|]. split; [|done].
    eapply inverses_iff; [|exact Hw1]. intros inv' t' s _. simpl. naive_solver.
Qed.

(** A write to a row that is not an inverse leaves the inverses alone. *)
Lemma inverses_other w w' ty e Q :
  edge_of ty = None → only_row w w' ty e → inverses w Q → inverses w' Q.
Proof.
  intros Hty Honly Hw inv t [ty' Hinv]. destruct (Hw inv t ltac:(eauto)) as [Hex Ho].
  destruct (Honly inv t) as [Hr Hv]; [intros [-> _]; congruence|]. split.
  - by eapply exact_frame.
  - unfold owner_of. by rewrite Hr.
Qed.

Lemma insert_value_rel n X w e ty v owner w' :
  wf X w → rel_ok w → edge_of ty = None → insert_value (relops (S n)) w e ty v owner = Done w' →
  rel_ok w'.
Proof.
  intros Hwf Hrel Hty. unfold insert_value. intros ([w1 pe] & Hins & Hm)%bind_Done.
  destruct (insert_row_values _ _ _ _ _ _ _ _ Hwf Hins) as (Hwf1 & -> & Hval & Hrow & _ & _).
  assert (only_row w w1 ty e) as Honly.
  { intros ty' e' Hne. split; [by apply Hrow|]. by rewrite Hval, decide_False. }
  pose proof (inverses_other _ _ _ _ _ Hty Honly Hrel) as Hw1.
  assert (∀ ty' s, edge_target w1 ty' s =
    if decide (ty' = ty ∧ s = e) then value_edge ty v else edge_target w ty' s) as Het.
  { intros ty' s. unfold edge_target. rewrite Hval. case_decide as Hd; [|done].
    by destruct Hd as [-> ->]. }
  assert (∀ inv t s, points_to w1 inv t s ↔
    (points_to w inv t s ∧ ¬ (edge_target w ty e = Some (inv, t) ∧ s = e)) ∨
    (value_edge ty v = Some (inv, t) ∧ s = e)) as Hpt.
  { intros inv t s. unfold points_to. setoid_rewrite Het. split.
    - intros [ty' Hx1]. case_decide as Hd; [destruct Hd as [-> ->]; by right|]. left.
      split; [by exists ty'|]. intros [Hx2 ->]. apply Hd. split; [|done].
      apply edge_target_of in Hx1, Hx2. congruence.
    - intros [[[ty' Hx1] Hn]|[Hx1 ->]].
      + exists ty'. rewrite decide_False; [done|]. intros [-> ->]. by apply Hn.
      + exists ty. by rewrite decide_True. }
  destruct (decide (snd <$> edge_target w ty e = snd <$> value_edge ty v)) as [Heq|Hne].
  - unfold maintain_edges in Hm. rewrite bool_decide_false in Hm by (intros Hn; by apply Hn).
    injection Hm as <-. eapply inverses_iff; [|exact Hw1]. intros inv t s _. rewrite Hpt.
    assert (edge_target w ty e = value_edge ty v) as Hsame.
    { destruct (edge_target w ty e) as [[i1 t1]|] eqn:E1, (value_edge ty v) as [[i2 t2]|] eqn:E2;
        simpl in Heq; simplify_eq; [|done].
      apply edge_target_of in E1. apply value_edge_inverse in E2.
      f_equal. f_equal. by eapply edge_of_inj. }
    split; [|intros [[? _]|[Hx1 ->]]; [done|exists ty; by rewrite Hsame]].
    intros Hp. destruct (decide (value_edge ty v = Some (inv, t) ∧ s = e)) as [|Hn]; [by right|].
    left. split; [done|]. by rewrite Hsame.
  - destruct (maintain_edges_inverses n X w1 e _ _ w' _ Hwf1
      (λ inv t Hx, ex_intro _ _ (edge_target_of _ _ _ _ _ Hx))
      (λ inv t Hx, ex_intro _ _ (value_edge_inverse _ _ _ _ Hx)) Hw1 Hm Hne) as (_ & Hw2 & Het2).
    eapply inverses_iff; [|exact Hw2]. intros inv t s _. simpl. rewrite <-Hpt.
    unfold points_to. by setoid_rewrite Het2.
Qed.

(** *** Removals *)

(** The inverses on the targets in [R] are exact. *)
Definition rel_ok_on (R : Entity → Prop) (w : World) : Prop :=
  inverses w (λ inv t s, R t ∧ points_to w inv t s).

Lemma rel_ok_all w : rel_ok w ↔ rel_ok_on (λ _, True) w.
Proof. unfold rel_ok, rel_ok_on. split; apply inverses_iff; intros; tauto. Qed.

Lemma drop_rel_on R n X w w1 ty e w2 :
  wf X w → rel_ok_on R w → edge_of ty = None → row_set X w w1 ty e None → shared w1 = shared w →
  remove_edge (relops (S n)) w1 e (edge_target w ty e) = Done w2 →
  wf X w2 ∧ rel_ok_on R w2 ∧
  ∀ ty' s, edge_target w2 ty' s = if decide (ty' = ty ∧ s = e) then None else edge_target w ty' s.
Proof.
  intros Hwf Hrel Hty Hrs Hsh Hrun.
  destruct (dropped_values _ _ _ _ _ Hwf Hrs Hsh) as (Hwf1 & Hrow & Hval).
  assert (only_row w w1 ty e) as Honly by (intros ty' e' Hn; by rewrite Hrow, Hval, !decide_False).
  pose proof (inverses_other _ _ _ _ _ Hty Honly Hrel) as Hw1.
  destruct (remove_edge_inverses _ _ _ _ _ _ _ Hwf1
    (λ inv t Hx, ex_intro _ _ (edge_target_of _ _ _ _ _ Hx)) Hw1 Hrun) as (Hwf2 & Hw2 & Het2).
  assert (∀ ty' s, edge_target w2 ty' s =
    if decide (ty' = ty ∧ s = e) then None else edge_target w ty' s) as Het.
  { intros ty' s'. rewrite Het2. unfold edge_target. rewrite Hval. by case_decide. }
  split; [done|]. split; [|done].
  eapply inverses_iff; [|exact Hw2]. intros inv t s _. simpl. unfold points_to.
  setoid_rewrite Het. split.
  - intros [[HR [ty' Hx]] Hn]. split; [done|]. exists ty'. rewrite decide_False; [exact Hx|].
    intros [-> ->]. by apply Hn.
  - intros [HR [ty' Hx]]. case_decide as Hd; [done|]. split; [split; [done|by exists ty']|].
    intros [Hy ->]. apply Hd. split; [|done]. apply edge_target_of in Hy, Hx. congruence.
Qed.

Lemma drop_rel n X w w1 ty e w2 :
  wf X w → rel_ok w → edge_of ty = None → row_set X w w1 ty e None → shared w1 = shared w →
  remove_edge (relops (S n)) w1 e (edge_target w ty e) = Done w2 → rel_ok w2.
Proof. rewrite !rel_ok_all. intros. by eapply drop_rel_on. Qed.

Lemma remove_component_rel X w ty e remover w' out :
  wf X w → rel_ok w → edge_of ty = None → remove_component w ty e remover = Done (w', out) →
  rel_ok w'.
Proof.
  intros Hwf Hrel Hty. unfold remove_component, remove_component_with.
  intros ([w1 removed] & Hrem & Hk)%bind_Done.
  pose proof (remove_row_spec _ _ _ _ _ _ _ Hwf Hrem) as Hspec.
  destruct removed as [[c edge]|]; [|injection Hk as <- <-; by destruct Hspec as [-> _]].
  apply bind_Done in Hk as (w2 & He & [= <- <-]).
  destruct Hspec as (removed & _ & _ & -> & Hrs & Hsh & _). by eapply (drop_rel 7).
Qed.

Lemma remove_derived_entry_rel X w ty e owner w' b :
  wf X w → rel_ok w → (ty, e) ∉ outputs_of w owner →
  remove_derived_entry w ty e owner = Done (w', b) → rel_ok w'.
Proof.
  intros Hwf Hrel Hni. unfold remove_derived_entry. intros ([w1 removed] & Hrem & Hk)%bind_Done.
  pose proof (sweep_row_spec _ _ _ _ _ _ _ Hwf Hni Hrem) as Hspec.
  destruct removed as [edge|]; [|injection Hk as <- <-; by destruct Hspec as [-> _]].
  apply bind_Done in Hk as (w2 & He & [= <- <-]).
  destruct Hspec as (Ho & -> & Hrs & Hsh & _).
  eapply (drop_rel 7); try done. destruct (edge_of ty) eqn:Hty; [|done].
  destruct (Hrel ty e ltac:(eauto)) as [_ Hn]. congruence.
Qed.

(** *** Removing an entity *)

Lemma elem_of_relationship_ops X w e :
  wf X w →
  let '(edges, retractions) := relationship_ops w e in
  (∀ x, x ∈ edges ↔ ∃ ty, edge_target w ty e = Some x) ∧
  (∀ x, x ∈ retractions ↔ ∃ ty v, row_value w ty e = Some v ∧ x ∈ value_retractions ty v).
Proof.
  intros Hwf. unfold relationship_ops.
  assert (∀ ty st, (ty, st) ∈ stores_iter (stores w) ↔ store_of w ty = Some st) as Hiter
    by (intros; by apply elem_of_stores_iter, Hwf).
  assert (∀ l, (∀ ty st, (ty, st) ∈ l → store_of w ty = Some st) →
    let '(edges, retractions) := foldr (λ '(ty, st) '(edges, retractions),
      match entry ← entries st !! e; cell_get w (entry_value entry) with
      | Some v => (match value_edge ty v with Some edge => edge :: edges | None => edges end,
                   value_retractions ty v ++ retractions)
      | None => (edges, retractions)
      end) ([], []) l in
    (∀ x, x ∈ edges ↔ ∃ ty, ty ∈ l.*1 ∧ edge_target w ty e = Some x) ∧
    (∀ x, x ∈ retractions ↔ ∃ ty v, ty ∈ l.*1 ∧ row_value w ty e = Some v ∧
       x ∈ value_retractions ty v)) as Hgo.
  { induction l as [|[ty st] l IH]; intros Hl; csimpl; [split; set_solver|].
    specialize (IH ltac:(intros; apply Hl; by right)).
    destruct (foldr _ _ l) as [edges retractions]. destruct IH as [IHe IHr].
    assert (row_value w ty e = (entry ← entries st !! e; cell_get w (entry_value entry))) as Hrv.
    { unfold row_value, row. rewrite (Hl ty st ltac:(left)). done. }
    rewrite <-Hrv. destruct (row_value w ty e) as [v|] eqn:Hv.
    - assert (edge_target w ty e = value_edge ty v) as Het by (unfold edge_target; by rewrite Hv).
      split.
      + intros x. transitivity (value_edge ty v = Some x ∨ x ∈ edges).
        { destruct (value_edge ty v) as [edge|]; [rewrite elem_of_cons|]; naive_solver. }
        rewrite IHe. split.
        * intros [Hx|(ty' & Hin & Hx)]; [exists ty|exists ty']; split; try congruence;
            [left|by right].
        * intros (ty' & [->|Hin]%elem_of_cons & Hx); [left; congruence|right; eauto].
      + intros x. rewrite elem_of_app, IHr. split.
        * intros [Hx|(ty' & v' & Hin & Hx)]; [exists ty, v|exists ty', v'];
            (split; [by left + by right|done]).
        * intros (ty' & v' & [->|Hin]%elem_of_cons & Hv' & Hx); [left; congruence|right; eauto].
    - split.
      + intros x. rewrite IHe. split.
        * intros (ty' & Hin & Hx). exists ty'. split; [by right|done].
        * intros (ty' & [->|Hin]%elem_of_cons & Hx); [|eauto].
          unfold edge_target in Hx. by rewrite Hv in Hx.
      + intros x. rewrite IHr. split.
        * intros (ty' & v' & Hin & Hx). exists ty', v'. split; [by right|done].
        * intros (ty' & v' & [->|Hin]%elem_of_cons & Hv' & Hx); [congruence|eauto]. }
  specialize (Hgo (stores_iter (stores w)) (λ ty st, proj1 (Hiter ty st))).
  destruct (foldr _ _ _) as [edges retractions]. destruct Hgo as [He Hr].
  assert (∀ ty v, row_value w ty e = Some v → ty ∈ (stores_iter (stores w)).*1) as Hin.
  { intros ty v Hv. unfold row_value, row in Hv. destruct (store_of w ty) as [st|] eqn:Hs; [|done].
    apply list_elem_of_fmap. exists (ty, st). split; [done|]. by apply Hiter. }
  split.
  - intros x. rewrite He. split; [naive_solver|]. intros [ty Hx]. exists ty. split; [|done].
    unfold edge_target in Hx. destruct (row_value w ty e) eqn:Hv; [|done]. by eapply Hin.
  - intros x. rewrite Hr. split; [naive_solver|]. intros (ty & v & Hv & Hx). exists ty, v. eauto.
Qed.

(** The retractions an entity implies name edges that point at it. *)
Lemma retraction_edge w e ty v ty0 s0 :
  rel_ok w → row_value w ty e = Some v → (ty0, s0) ∈ value_retractions ty v →
  edge_target w ty0 s0 = Some (ty, e).
Proof.
  intros Hrel Hv Hin. destruct v as [p|]; [|by apply not_elem_of_nil in Hin]. simpl in Hin.
  destruct (edge_of ty) as [ety|] eqn:Hty.
  - rewrite (inverse_retractions _ _ p Hty) in Hin.
    apply list_elem_of_fmap in Hin as (m & [= -> ->] & Hm).
    destruct (Hrel ty e ltac:(eauto)) as [Hex _]. unfold exact, members_at in Hex.
    rewrite Hv in Hex. simpl in Hex. destruct (ct_members ty p) as [ms|]; simpl in Hm;
      [|by apply not_elem_of_nil in Hm].
    destruct Hex as (_ & _ & HP). apply HP in Hm as [ty' Hx].
    pose proof (edge_target_of _ _ _ _ _ Hx). congruence.
  - rewrite (plain_retractions _ _ Hty) in Hin. by apply not_elem_of_nil in Hin.
Qed.

Lemma retract_loop X e l w w' :
  wf X w → rel_ok_on (λ t, t ≠ e) w →
  (∀ ty s, (ty, s) ∈ l → edge_of ty = None) →
  (∀ ty s inv, edge_target w ty s = Some (inv, e) → (ty, s) ∈ l) →
  fold_result (λ w '(edge_ty, source),
    '(w, _) ← remove_component w edge_ty source None; Done w) w l = Done w' →
  wf X w' ∧ rel_ok_on (λ t, t ≠ e) w' ∧ ∀ ty s inv, edge_target w' ty s ≠ Some (inv, e).
Proof.
  revert w. induction l as [|[ty0 s0] l IH]; intros w Hwf Hrel Hty Hleft; simpl.
  { intros [= <-]. split_and!; try done. intros ty s inv Hx%Hleft. by apply not_elem_of_nil in Hx. }
  intros (w1 & ([w1' out] & Hrem & [= <-])%bind_Done & Hrest)%bind_Done.
  assert (edge_of ty0 = None) as Hty0 by (apply (Hty _ s0); left).
  unfold remove_component, remove_component_with in Hrem.
  apply bind_Done in Hrem as ([w2 removed] & Hrem & Hk).
  pose proof (remove_row_spec _ _ _ _ _ _ _ Hwf Hrem) as Hspec.
  assert (wf X w1' ∧ rel_ok_on (λ t, t ≠ e) w1' ∧
    ∀ ty s, edge_target w1' ty s =
      if decide (ty = ty0 ∧ s = s0) then None else edge_target w ty s) as (Hwf1 & Hrel1 & Het).
  { destruct removed as [[c edge]|].
    - apply bind_Done in Hk as (w3 & He & [= <- <-]).
      destruct Hspec as (removed & _ & _ & -> & Hrs & Hsh & _). by eapply (drop_rel_on _ 7).
    - injection Hk as <- <-. destruct Hspec as [-> Hnone]. split_and!; try done.
      intros ty s. case_decide as Hd; [|done]. destruct Hd as [-> ->].
      unfold edge_target, row_value. by rewrite Hnone. }
  apply (IH w1' Hwf1 Hrel1); [intros; eapply Hty; by right| |exact Hrest].
  intros ty s inv Hx. rewrite Het in Hx. case_decide as Hd; [done|].
  apply Hleft, elem_of_cons in Hx as [Heq|?]; [|done]. simplify_eq. by destruct Hd.
Qed.

Lemma detach_loop X e l w w' Q :
  wf X w → inverses w Q → (∀ inv t, (inv, t) ∈ l → is_Some (edge_of inv)) →
  (∀ inv t, Q inv t e → (inv, t) ∈ l) →
  fold_result (λ w '(inv, target), rel_remove the_relops inv e target w) w l = Done w' →
  wf X w' ∧ inverses w' (λ inv t s, Q inv t s ∧ s ≠ e) ∧
  ∀ ty s, edge_target w' ty s = edge_target w ty s.
Proof.
  revert w Q. induction l as [|[inv0 t0] l IH]; intros w Q Hwf Hw Hinv HQ; simpl.
  { intros [= <-]. split_and!; try done. eapply inverses_iff; [|exact Hw]. intros inv t s _.
    simpl. split; [|tauto]. intros Hs. split; [done|]. intros ->. by apply HQ, not_elem_of_nil in Hs. }
  intros (w1 & Hr & Hrest)%bind_Done.
  destruct (inverses_remove _ _ _ _ _ _ _ _ Hwf (Hinv inv0 t0 ltac:(left)) Hw Hr)
    as (Hwf1 & Hw1 & Honly).
  destruct (IH w1 _ Hwf1 Hw1) as (Hwf2 & Hw2 & Het); [| |exact Hrest|].
  - intros inv t Hin. eapply Hinv. by right.
  - intros inv t [Hq Hn]. apply HQ, elem_of_cons in Hq as [Heq|?]; [|done].
    simplify_eq. by destruct Hn.
  - split; [done|]. split.
    + eapply inverses_iff; [|exact Hw2]. intros inv t s _. simpl. split; [tauto|].
      intros [Hq Hs]. split; [|done]. split; [done|]. intros (_ & _ & ->). done.
    + intros ty s. rewrite Het. eapply only_inverse_edges; [|exact Honly]. apply (Hinv _ t0). left.
Qed.

(** *** Rows never come back during a removal *)

Definition no_new_rows (w w' : World) : Prop :=
  ∀ ty e, row w ty e = None → row w' ty e = None.

Lemma no_new_refl w : no_new_rows w w.
Proof. by intros ???. Qed.

Lemma remove_member_no_new ops X inv s t w w' Q :
  wf X w → is_Some (edge_of inv) → inverses w Q →
  relationship_remove_member_with ops inv s t w = Done w' → no_new_rows w w'.
Proof.
  intros Hwf Hinv Hw Hrun. destruct (inverses_remove _ _ _ _ _ _ _ _ Hwf Hinv Hw Hrun)
    as (_ & _ & Honly).
  intros ty e Hnone. destruct (decide (ty = inv ∧ e = t)) as [[-> ->]|Hne].
  - unfold relationship_remove_member_with, row_value in Hrun. rewrite Hnone in Hrun.
    simpl in Hrun. injection Hrun as <-. done.
  - by destruct (Honly ty e Hne) as [-> _].
Qed.

Lemma detach_no_new X l w w' Q :
  wf X w → inverses w Q → (∀ inv t, (inv, t) ∈ l → is_Some (edge_of inv)) →
  ∀ e, fold_result (λ w '(inv, target), rel_remove the_relops inv e target w) w l = Done w' →
  no_new_rows w w'.
Proof.
  intros Hwf Hw Hinv e. revert w Q Hwf Hw.
  induction l as [|[inv0 t0] l IH]; intros w Q Hwf Hw; simpl; [intros [= <-]; apply no_new_refl|].
  intros (w1 & Hr & Hrest)%bind_Done.
  assert (is_Some (edge_of inv0)) as Hi0 by (apply (Hinv _ t0); left).
  destruct (inverses_remove _ _ _ _ _ _ _ _ Hwf Hi0 Hw Hr) as (Hwf1 & Hw1 & _).
  pose proof (remove_member_no_new _ _ _ _ _ _ _ _ Hwf Hi0 Hw Hr) as Hn1.
  assert (∀ inv t, (inv, t) ∈ l → is_Some (edge_of inv)) as Hinv' by (intros; eapply Hinv; by right).
  pose proof (IH Hinv' w1 _ Hwf1 Hw1 Hrest) as Hn2. intros ty e' Hnone. by apply Hn2, Hn1.
Qed.

Lemma remove_component_no_new R X w ty e remover w' out :
  wf X w → rel_ok_on R w → edge_of ty = None →
  remove_component w ty e remover = Done (w', out) → no_new_rows w w'.
Proof.
  intros Hwf Hrel Hty. unfold remove_component, remove_component_with.
  intros ([w1 removed] & Hrem & Hk)%bind_Done.
  pose proof (remove_row_spec _ _ _ _ _ _ _ Hwf Hrem) as Hspec.
  destruct removed as [[c edge]|]; [|injection Hk as <- <-; destruct Hspec as [-> _]; apply no_new_refl].
  apply bind_Done in Hk as (w2 & He & [= <- <-]).
  destruct Hspec as (removed & _ & _ & -> & Hrs & Hsh & _).
  destruct (dropped_values _ _ _ _ _ Hwf Hrs Hsh) as (Hwf1 & Hrow & Hval).
  assert (only_row w w1 ty e) as Honly by (intros ty' e' Hn; by rewrite Hrow, Hval, !decide_False).
  pose proof (inverses_other _ _ _ _ _ Hty Honly Hrel) as Hw1.
  assert (no_new_rows w1 w2) as Hn2.
  { unfold remove_edge in He. destruct (v ← row_value w ty e; value_edge ty v) as [[inv t]|] eqn:Hx.
    - eapply remove_member_no_new; [exact Hwf1| |exact Hw1|exact He].
      exists ty. by apply (edge_target_of w ty e inv t).
    - injection He as <-. apply no_new_refl. }
  intros ty' e' Hnone. apply Hn2. rewrite Hrow. by case_decide.
Qed.

Lemma retract_no_new X e l w w' :
  wf X w → rel_ok_on (λ t, t ≠ e) w → (∀ ty s, (ty, s) ∈ l → edge_of ty = None) →
  fold_result (λ w '(edge_ty, source),
    '(w, _) ← remove_component w edge_ty source None; Done w) w l = Done w' →
  no_new_rows w w'.
Proof.
  revert w. induction l as [|[ty0 s0] l IH]; intros w Hwf Hrel Hty; simpl; [intros [= <-]; apply no_new_refl|].
  intros (w1 & ([w1' out] & Hrem & [= <-])%bind_Done & Hrest)%bind_Done.
  assert (edge_of ty0 = None) as Hty0 by (apply (Hty _ s0); left).
  pose proof (remove_component_no_new _ _ _ _ _ _ _ _ Hwf Hrel Hty0 Hrem) as Hn1.
  assert (wf X w1' ∧ rel_ok_on (λ t, t ≠ e) w1') as [Hwf1 Hrel1].
  { unfold remove_component, remove_component_with in Hrem.
    apply bind_Done in Hrem as ([w2 removed] & Hrem & Hk).
    pose proof (remove_row_spec _ _ _ _ _ _ _ Hwf Hrem) as Hspec.
    destruct removed as [[c edge]|].
    - apply bind_Done in Hk as (w3 & He & [= <- <-]).
      destruct Hspec as (removed & _ & _ & -> & Hrs & Hsh & _).
      by destruct (drop_rel_on _ 7 _ _ _ _ _ _ Hwf Hrel Hty0 Hrs Hsh He) as (? & ? & _).
    - injection Hk as <- <-. by destruct Hspec as [-> _]. }
  pose proof (IH w1' Hwf1 Hrel1 ltac:(intros; eapply Hty; by right) Hrest) as Hn2.
  intros ty e' Hnone. by apply Hn2, Hn1.
Qed.

Lemma remove_entity_rel_aux X w e w' owners :
  wf X w → rel_ok w → remove_entity w e = Done (w', owners) →
  rel_ok w' ∧ (∀ ty s inv, edge_target w' ty s ≠ Some (inv, e)) ∧ (∀ ty, row w' ty e = None) ∧ no_new_rows w w'.
Proof.
  intros Hwf Hrel. unfold remove_entity.
  pose proof (elem_of_relationship_ops _ _ e Hwf) as Hops.
  destruct (relationship_ops w e) as [edges retractions]. destruct Hops as [Hedges Hretr].
  intros ([w1 own] & Hrows & Hrun)%bind_Done. apply bind_Done in Hrun as (w2 & Hl1 & Hrun).
  apply bind_Done in Hrun as (w3 & Hl2 & Hrun). injection Hrun as <- <-.
  destruct (remove_rows_spec _ _ _ _ _ Hwf Hrows) as ([Hwf1 _] & _ & Hsh & Hrow & _).
  assert (∀ ty e', row_value w1 ty e' = if decide (e' = e) then None else row_value w ty e') as Hval.
  { intros ty e'. unfold row_value, cell_get. rewrite Hrow, Hsh. by case_decide. }
  assert (∀ ty s, edge_target w1 ty s = if decide (s = e) then None else edge_target w ty s) as Het1.
  { intros ty s. unfold edge_target. rewrite Hval. by case_decide. }
  assert (inverses w1 (λ inv t s, t ≠ e ∧ points_to w inv t s)) as Hw1.
  { intros inv t Hinv. destruct (Hrel inv t Hinv) as [Hex Ho]. destruct (decide (t = e)) as [->|Hne].
    - unfold exact, members_at, owner_of. rewrite Hval, !Hrow, !decide_True by done. simpl.
      split; [split; [done|tauto]|done].
    - unfold owner_of. rewrite Hrow, decide_False by done. split; [|done].
      eapply exact_iff; [|eapply exact_frame; [| |exact Hex]]; [intros; simpl; tauto| |].
      + by rewrite Hrow, decide_False.
      + by rewrite Hval, decide_False. }
  assert (∀ inv t, (inv, t) ∈ edges → is_Some (edge_of inv)) as Hedge_of.
  { intros inv t Hin. apply Hedges in Hin as [ty Hx]. exists ty. by eapply edge_target_of. }
  destruct (detach_loop X e edges w1 w2 _ Hwf1 Hw1 Hedge_of) as (Hwf2 & Hw2 & Het2); [|exact Hl1|].
  { intros inv t [_ [ty Hx]]. apply Hedges. eauto. }
  assert (∀ ty s, edge_target w2 ty s = if decide (s = e) then None else edge_target w ty s) as Het
    by (intros; by rewrite Het2, Het1).
  assert (rel_ok_on (λ t, t ≠ e) w2) as Hrel2.
  { eapply inverses_iff; [|exact Hw2]. intros inv t s _. simpl. unfold points_to.
    setoid_rewrite Het. case_decide as Hd; [|tauto]. split; [tauto|]. by intros [_ [? ?]]. }
  assert (∀ ty s, (ty, s) ∈ retractions → edge_of ty = None) as Hretr_ty.
  { intros ty s Hin. apply Hretr in Hin as (inv & v & Hv & Hin).
    pose proof (retraction_edge _ _ _ _ _ _ Hrel Hv Hin) as Hx.
    destruct (edge_of ty) eqn:Hty; [|done]. by rewrite edge_target_inverse in Hx. }
  destruct (retract_loop X e retractions w2 w3 Hwf2 Hrel2 Hretr_ty) as (Hwf3 & Hrel3 & Hnone);
    [|exact Hl2|].
  - intros ty s inv Hx. rewrite Het in Hx. case_decide; [done|]. apply Hretr.
    pose proof (edge_target_of _ _ _ _ _ Hx) as Hinv.
    destruct (Hrel inv e ltac:(eauto)) as [Hex _]. unfold exact, members_at in Hex.
    destruct (row_value w inv e) as [v|] eqn:Hv; simpl in Hex.
    + destruct v as [p|anchors]; simpl in Hex.
      * exists inv, (Plain p). split; [done|]. simpl. rewrite (inverse_retractions _ _ p Hinv).
        destruct (ct_members inv p) as [ms|]; simpl.
        -- destruct Hex as (_ & _ & HP). apply list_elem_of_fmap. exists s. split; [done|].
           apply HP. by exists ty.
        -- destruct Hex as [_ Hn]. exfalso. apply (Hn s). by exists ty.
      * destruct Hex as [_ Hn]. exfalso. apply (Hn s). by exists ty.
    + destruct Hex as [_ Hn]. exfalso. apply (Hn s). by exists ty.
  - assert (∀ ty e', row w1 ty e' = None → row w3 ty e' = None) as Hnew.
    { intros ty e' Hn. apply (retract_no_new _ _ _ _ _ Hwf2 Hrel2 Hretr_ty Hl2).
      by apply (detach_no_new _ _ _ _ _ Hwf1 Hw1 Hedge_of _ Hl1). }
    split; [|split; [exact Hnone|split]]; last first.
    { intros ty e' Hn. apply (Hnew ty e'). rewrite Hrow. by case_decide. }
    { intros ty. apply (Hnew ty e). by rewrite Hrow, decide_True. }
    eapply inverses_iff; [|exact Hrel3]. intros inv t s _. simpl.
    split; [tauto|]. intros [ty Hx]. split; [|by exists ty]. intros ->. by eapply Hnone.
Qed.


(** The edge a removed row reports is one of its type. *)
Lemma remove_row_inverse w ty e remover w' c inv t :
  remove_row w ty e remover = Done (w', Some (c, Some (inv, t))) → is_Some (edge_of inv).
Proof.
  unfold remove_row. destruct (store_of w ty) as [st|]; [|done].
  destruct (entries st !! e) as [removed|]; [|done].
  intros (wd & _ & Hrem)%bind_Done. apply bind_Done in Hrem as (wb & _ & Hrem).
  injection Hrem as _ _ Hx. destruct (cell_get wd (entry_value removed)) as [v|]; [|done].
  exists ty. by eapply value_edge_inverse.
Qed.

(** *** Sweeps *)

Lemma stale_rel X owner l w w' :
  wf X w → rel_ok w →
  fold_result (λ w '(ty, e),
      if bool_decide ((ty, e) ∈ outputs_of w owner) then Done w
      else '(w, _) ← remove_derived_entry w ty e owner; Done w) w l = Done w' →
  rel_ok w'.
Proof.
  intros Hwf Hrel Hrun.
  refine (proj2 (fold_result_inv (λ w, wf X w ∧ rel_ok w) _ l w w' _ (conj Hwf Hrel) Hrun)).
  intros w1 [ty e] w2 _ [Hwf1 Hrel1]. simpl. case_bool_decide as Hin; [by intros [= <-]|].
  intros ([w3 b] & Hrem & [= <-])%bind_Done.
  split; [by eapply remove_derived_entry_good|by eapply remove_derived_entry_rel].
Qed.

(** Maintaining an inverse changes no other row. *)
Lemma remove_edge_rows X w e edge w' ty e' :
  wf X w → (∀ inv t, edge = Some (inv, t) → is_Some (edge_of inv)) → edge_of ty = None →
  remove_edge the_relops w e edge = Done w' →
  row w' ty e' = row w ty e' ∧ row_value w' ty e' = row_value w ty e' ∧
  ∀ o, (ty, e') ∈ outputs_of w' o ↔ (ty, e') ∈ outputs_of w o.
Proof.
  intros Hwf Hinv Hty. destruct edge as [[inv t]|]; [|by intros [= <-]]. specialize (Hinv _ _ eq_refl).
  assert (¬ (ty = inv ∧ e' = t)) as Hne by (intros [-> _]; destruct Hinv; congruence).
  simpl. unfold relationship_remove_member_with.
  destruct (v ← row_value w inv t; value_members inv v) as [ms|]; [|by intros [= <-]].
  destruct (binary_search ms e) as [i|i]; [|by intros [= <-]]. case_bool_decide.
  - rewrite remove_inverse by done. intros ([w1 c] & ([w2 removed] & Hrem & [= <- <-])%bind_Done & [= <-])%bind_Done.
    pose proof (remove_row_spec _ _ _ _ _ _ _ Hwf Hrem) as Hspec. destruct removed as [[c edge]|]; [|by destruct Hspec as [-> _]].
    destruct Hspec as (removed & _ & _ & _ & Hrs & Hsh & _).
    destruct (dropped_values _ _ _ _ _ Hwf Hrs Hsh) as (_ & Hrow & Hval). rewrite Hrow, Hval, !decide_False by done.
    split_and!; [done..|]. intros o. by apply (rs_owners _ _ _ _ _ _ Hrs).
  - rewrite insert_inverse by done. intros ([w1 pe] & Hins & [= <-])%bind_Done.
    destruct (insert_row_values _ _ _ _ _ _ _ _ Hwf Hins) as (_ & _ & Hval & Hrow & _).
    destruct (insert_row_spec _ _ _ _ _ _ _ _ Hwf Hins) as (entry & Hrs & _).
    rewrite Hval, Hrow, decide_False by done. split_and!; [done..|]. intros o. by apply (rs_owners _ _ _ _ _ _ Hrs).
Qed.

(** A row is swept: it was an output, was not emitted again, and is still the
    owner's. *)
Definition swept w owner (l : list (TypeId * Entity)) ty e : Prop :=
  (ty, e) ∈ l ∧ (ty, e) ∉ outputs_of w owner ∧ owner_of w ty e = Some owner.

Lemma remove_derived_entry_rows X w ty0 e0 owner w' b ty e :
  wf X w → (ty0, e0) ∉ outputs_of w owner → remove_derived_entry w ty0 e0 owner = Done (w', b) → edge_of ty = None →
  (∀ o, (ty, e) ∈ outputs_of w' o → (ty, e) ∈ outputs_of w o) ∧
  (((ty, e) = (ty0, e0) ∧ owner_of w ty e = Some owner ∧ row w' ty e = None ∧ row_value w' ty e = None) ∨
   (((ty, e) ≠ (ty0, e0) ∨ owner_of w ty e ≠ Some owner) ∧ row w' ty e = row w ty e ∧ row_value w' ty e = row_value w ty e ∧
    ∀ o, (ty, e) ∈ outputs_of w o → (ty, e) ∈ outputs_of w' o)).
Proof.
  intros Hwf Hni Hrun Hty. unfold remove_derived_entry in Hrun. apply bind_Done in Hrun as ([w1 removed] & Hrem & Hk).
  pose proof (sweep_row_spec _ _ _ _ _ _ _ Hwf Hni Hrem) as Hspec. destruct removed as [edge|].
  2:{ injection Hk as <- <-. destruct Hspec as [-> Ho]. split; [done|]. right. split_and!; try done.
      destruct (decide ((ty, e) = (ty0, e0))) as [[= -> ->]|]; [by right|by left]. }
  apply bind_Done in Hk as (w2 & He & [= <- <-]). destruct Hspec as (Ho & -> & Hrs & Hsh & _).
  destruct (dropped_values _ _ _ _ _ Hwf Hrs Hsh) as (Hwf1 & Hrow & Hval).
  destruct (remove_edge_rows _ _ _ _ _ ty e Hwf1 (λ inv t Hx, ex_intro _ _ (edge_target_of w ty0 e0 inv t Hx)) Hty He)
    as (Hr2 & Hv2 & Ho2).
  rewrite Hr2, Hv2, Hrow, Hval. setoid_rewrite Ho2. destruct (decide (ty = ty0 ∧ e = e0)) as [[-> ->]|Hne].
  - split; [|left; by split_and!]. intros o Hin%(rs_sound _ _ _ _ _ _ Hrs). done.
  - split; [intros o; by apply (rs_owners _ _ _ _ _ _ Hrs)|]. right. split_and!; try done.
    + left. intros [= -> ->]. by destruct Hne.
    + intros o. by apply (rs_owners _ _ _ _ _ _ Hrs).
Qed.

(** The sweep takes out exactly the swept rows; every other row that is not a
    maintained inverse keeps its entry and its value. *)
Lemma stale_rows X owner l w w' ty e :
  wf X w → edge_of ty = None →
  fold_result (λ w '(ty, e),
      if bool_decide ((ty, e) ∈ outputs_of w owner) then Done w
      else '(w, _) ← remove_derived_entry w ty e owner; Done w) w l = Done w' →
  (swept w owner l ty e → row w' ty e = None) ∧
  (¬ swept w owner l ty e → row w' ty e = row w ty e ∧ row_value w' ty e = row_value w ty e).
Proof.
  intros Hwf Hty. revert w Hwf. induction l as [|[ty0 e0] l IH]; intros w Hwf; cbn [fold_result].
  { intros [= <-]. split; [by intros (?%elem_of_nil & _)|done]. }
  intros (w1 & Hfst & Hrest)%bind_Done. case_bool_decide as Hin.
  - injection Hfst as <-. destruct (IH w Hwf Hrest) as [Hgone Hkept]. unfold swept in *. split.
    + intros ([[= -> ->]|Hl]%elem_of_cons & Hni & Ho); [done|]. by apply Hgone.
    + intros Hn. apply Hkept. intros (Hl & Hni & Ho). apply Hn. split_and!; [by right|done..].
  - apply bind_Done in Hfst as ([w1' b] & Hrem & [= <-]).
    destruct (remove_derived_entry_good _ _ _ _ _ _ _ Hwf Hin Hrem) as [[Hwf1 _] _].
    destruct (IH w1' Hwf1 Hrest) as [Hgone Hkept]. unfold swept in *.
    destruct (remove_derived_entry_rows _ _ _ _ _ _ _ ty e Hwf Hin Hrem Hty)
      as (Hout & [(Heq & Ho & Hr & Hv)|(Hne & Hr & Hv & Hout')]).
    + assert (row w' ty e = None) as Hnone.
      { destruct Hkept as [-> _]; [|done]. intros (_ & _ & Ho1). unfold owner_of in Ho1. by rewrite Hr in Ho1. }
      split; [done|]. intros Hn. destruct Hn. injection Heq as -> ->. split_and!; [by left|done..].
    + assert (owner_of w1' ty e = owner_of w ty e) as Ho1 by (unfold owner_of; by rewrite Hr).
      rewrite Ho1, Hr, Hv in *. split.
      * intros ([Heq|Hl]%elem_of_cons & Hni & Ho); [by destruct Hne|]. apply Hgone. split_and!; [done|by intros ?%Hout|done].
      * intros Hn. apply Hkept. intros (Hl & Hni & Ho). apply Hn. split_and!; [by right|by intros ?%Hout'|done].
Qed.

(** *** Depth

    Maintenance recurses through the values of user components; on lawful
    inverses it never reaches the model's bound on that recursion. *)

Lemma presence_set_deep w ty e b : avoids NestingTooDeep (world_presence_set w ty e b).
Proof. unfold world_presence_set, presence_set. avoids_tac. Qed.
#[local] Hint Resolve presence_set_deep : avoids.
Lemma bump_removal_deep w ty : avoids NestingTooDeep (bump_removal w ty).
Proof. unfold bump_removal, bump_mutations, bump_revision, bump. avoids_tac. Qed.
#[local] Hint Resolve bump_removal_deep : avoids.
Lemma remove_row_deep w ty e remover : avoids NestingTooDeep (remove_row w ty e remover).
Proof. unfold remove_row, drop_entry. avoids_tac. Qed.
#[local] Hint Resolve remove_row_deep : avoids.
Lemma insert_row_deep w e ty v owner : avoids NestingTooDeep (insert_row w e ty v owner).
Proof.
  unfold insert_row, register_singleton, insert_revision, bump_mutations, bump_revision, bump, insert_entry.
  avoids_tac.
Qed.
#[local] Hint Resolve insert_row_deep : avoids.

Lemma remove_edge_deep w e edge :
  (∀ inv t, edge = Some (inv, t) → is_Some (edge_of inv)) → avoids NestingTooDeep (remove_edge the_relops w e edge).
Proof.
  intros Hinv. destruct edge as [[inv t]|]; [|done]. specialize (Hinv _ _ eq_refl). simpl.
  unfold relationship_remove_member_with. destruct (v ← row_value w inv t; value_members inv v) as [ms|]; [|done].
  destruct (binary_search ms e); [|done]. case_bool_decide.
  - rewrite remove_inverse by done. avoids_tac.
  - rewrite insert_inverse by done. avoids_tac.
Qed.

Lemma sweep_row_deep w ty e owner : avoids NestingTooDeep (sweep_row w ty e owner).
Proof. unfold sweep_row. avoids_tac. Qed.
#[local] Hint Resolve sweep_row_deep : avoids.

Lemma sweep_row_edge w ty e owner w' edge inv t :
  sweep_row w ty e owner = Done (w', Some edge) → edge = Some (inv, t) → is_Some (edge_of inv).
Proof.
  unfold sweep_row. destruct (store_of w ty) as [s|]; [|done].
  destruct (remove_entry_owned s ty e owner) as [s' [x|]]; [|done].
  intros (w1 & _ & Hr)%bind_Done. apply bind_Done in Hr as (w2 & _ & [= _ <-]).
  destruct (row_value w ty e) as [v|]; [|done]. simpl. intros Hx. exists ty. by eapply value_edge_inverse.
Qed.

Lemma remove_derived_entry_deep w ty e owner : avoids NestingTooDeep (remove_derived_entry w ty e owner).
Proof.
  unfold remove_derived_entry. apply avoids_bind; [apply sweep_row_deep|]. intros [w1 [edge|]] Hs; [|done].
  apply avoids_bind; [|done]. apply remove_edge_deep. intros inv t. by eapply sweep_row_edge.
Qed.
#[local] Hint Resolve remove_derived_entry_deep : avoids.

(** Sweeping the outputs of the touched owners stays within the bound. *)
Lemma touched_deep w keyset systems : avoids NestingTooDeep (remove_derived_touched_by_systems w keyset systems).
Proof.
  apply avoids_fold. intros [w1 r1] o _. unfold sweep_owner. cbv zeta.
  destruct (derived_owners (forget_spawns w1 o) !! o) as [outs|]; [|done].
  apply avoids_fold. intros [w2 r2] [ty e] _. unfold sweep_output. avoids_tac.
Qed.

Lemma retract_outputs_rel X owner l w w' :
  wf X w → rel_ok w → outputs_of w owner = ∅ →
  fold_result (λ w '(ty, e), '(w, _) ← remove_derived_entry w ty e owner; Done w) w l = Done w' →
  rel_ok w'.
Proof.
  intros Hwf Hrel He Hrun.
  refine (proj1 (proj2 (fold_result_inv (λ w, wf X w ∧ rel_ok w ∧ outputs_of w owner = ∅)
    _ l w w' _ (conj Hwf (conj Hrel He)) Hrun))).
  intros w1 [ty e] w2 _ (Hwf1 & Hrel1 & He1). simpl. intros ([w3 b] & Hrem & [= <-])%bind_Done.
  assert ((ty, e) ∉ outputs_of w1 owner) as Hni by (rewrite He1; apply not_elem_of_empty).
  destruct (remove_derived_entry_good _ _ _ _ _ _ _ Hwf1 Hni Hrem) as [[Hwf3 _] [S _]].
  split; [done|]. split; [exact (remove_derived_entry_rel _ _ _ _ _ _ _ Hwf1 Hrel1 Hni Hrem)|].
  apply elem_of_equiv_empty_L. intros x Hx%S. rewrite He1 in Hx. by apply not_elem_of_empty in Hx.
Qed.

Lemma rel_ok_frame w w' :
  stores w' = stores w → cells (shared w') = cells (shared w) → rel_ok w → rel_ok w'.
Proof.
  intros Hst Hc Hrel.
  assert (∀ ty e, row w' ty e = row w ty e) as Hrow by (intros; by apply frame_row).
  assert (∀ ty e, row_value w' ty e = row_value w ty e) as Hval
    by (intros; unfold row_value, cell_get; by rewrite Hrow, Hc).
  intros inv t Hinv. destruct (Hrel inv t Hinv) as [Hex Ho]. split.
  - eapply exact_iff; [|eapply exact_frame; [apply Hrow|apply Hval|exact Hex]].
    intros s. unfold points_to, edge_target. by setoid_rewrite Hval.
  - unfold owner_of. by rewrite Hrow.
Qed.

Lemma remove_derived_owned_rel X w owner w' :
  wf X w → rel_ok w → remove_derived_owned w owner = Done w' → rel_ok w'.
Proof.
  intros Hwf Hrel. unfold remove_derived_owned.
  destruct (derived_owners (forget_spawns w owner) !! owner) as [outs|]; intros Hrun.
  - eapply retract_outputs_rel; [| | |exact Hrun].
    + apply (take_wf X (forget_spawns w owner) owner), forget_spawns_good, Hwf.
    + by apply (rel_ok_frame w).
    + unfold outputs_of; simpl. by rewrite lookup_delete_eq.
  - injection Hrun as <-. by apply (rel_ok_frame w).
Qed.

Lemma insert_rel X w e ty v owner w' :
  wf X w → rel_ok w → edge_of ty = None → insert w e ty v owner = Done w' → rel_ok w'.
Proof.
  intros Hwf Hrel Hty. unfold insert, insert_with. destruct v as [p|anchors].
  - by eapply (insert_value_rel 7).
  - destruct (flushing_anchors w); [by eapply (insert_value_rel 7)|].
    intros [= <-]. by apply (rel_ok_frame w).
Qed.

(** ** Properties *)

(** ** Steps *)

(** An in-place write reaches no maintainer: [MutRef] and the live updates
    replace the value of a cell, and reconciling re-indexes it, but neither moves
    a source from one inverse to another.  They keep inverses exact as long as
    the new value has the edge, or the members, of the old one. *)
Definition keeps_links (ty : TypeId) (v v' : Value) : Prop :=
  value_edge ty v' = value_edge ty v ∧ value_members ty v' = value_members ty v.
Definition write_keeps_links w (c : CellId) (v : Value) : Prop :=
  ∀ ty e entry old, row w ty e = Some entry → entry_value entry = c → cell_get w c = Some old → keeps_links ty old v.
Definition update_keeps_links {R} w ty e (f : Value → Value * R) : Prop :=
  ∀ entry old, row w ty e = Some entry → cell_get w (entry_value entry) = Some old →
    write_keeps_links w (entry_value entry) (f old).1.

(** Every step of a world but two kinds: an inverse is not inserted or removed
    as a component (the engine writes it), and a write in place keeps edges and
    members. *)
Inductive rel_step : taken * World → taken * World → Prop :=
  | rs_insert X w e ty v owner w' :
      edge_of ty = None → insert w e ty v owner = Done w' → rel_step (X, w) (X, w')
  | rs_remove X w ty e remover w' out :
      edge_of ty = None → remove_component w ty e remover = Done (w', out) →
      rel_step (X, w) (X, w')
  | rs_remove_entity X w e w' owners :
      remove_entity w e = Done (w', owners) → rel_step (X, w) (X, w')
  | rs_take X w o w' previous :
      take_derived_outputs w o = (w', previous) →
      rel_step (X, w) (taken_at X o (previous ∪ X o), w')
  | rs_stale X w o previous w' :
      remove_derived_stale w o previous = Done w' →
      rel_step (X, w) (taken_at X o (X o ∖ previous), w')
  | rs_retract X w o w' :
      X o = ∅ → remove_derived_owned w o = Done w' → rel_step (X, w) (X, w')
  | rs_touched X w keyset systems w' removed :
      settled X → remove_derived_touched_by_systems w keyset systems = Done (w', removed) →
      rel_step (X, w) (X, w')
  | rs_guard_write X w c v :
      is_Some (cell_get w c) → write_keeps_links w c v → rel_step (X, w) (X, cell_put w c v)
  | rs_update R X w ty e (f : Value → Value * R) w' out :
      update_keeps_links w ty e f → update_component_live w ty e f = Done (w', out) → rel_step (X, w) (X, w')
  | rs_try_update R X w ty e held (f : Value → Value * R) w' out :
      update_keeps_links w ty e f → try_update_component_live w ty e held f = Done (w', out) → rel_step (X, w) (X, w')
  | rs_reconcile X w writes w' : reconcile_written w writes = Done w' → rel_step (X, w) (X, w')
  | rs_flush X w w' : flush_derived_from w = Done w' → rel_step (X, w) (X, w')
  (** Allocation, spawn slots, singletons, drained queues: no row changes. *)
  | rs_quiet X w w' :
      apply_step w w' → stores w' = stores w → cells (shared w') = cells (shared w) → rel_step (X, w) (X, w').

Lemma rel_step_world c c' : rel_step c c' → world_step c c'.
Proof.
  destruct 1; try (by econstructor; econstructor; eauto); by econstructor; eauto.
Qed.

(** What [rel_ok] says depends on rows, owners, edges and members only. *)
Lemma rel_ok_links w w' :
  (∀ ty e, row w ty e = None → row w' ty e = None) → (∀ ty e, owner_of w' ty e = owner_of w ty e) →
  (∀ ty e, edge_target w' ty e = edge_target w ty e) → (∀ inv t, members_at w' inv t = members_at w inv t) →
  rel_ok w → rel_ok w'.
Proof.
  intros Hnone Hown Hedge Hmem Hrel inv t Hinv. destruct (Hrel inv t Hinv) as [Hex Ho].
  rewrite Hown. split; [|done]. apply (exact_iff _ _ _ (points_to w inv t)).
  { intros s. unfold points_to. by setoid_rewrite Hedge. }
  unfold exact in *. rewrite Hmem. destruct (members_at w inv t); [done|]. destruct Hex as [? ?]. split; [by apply Hnone|done].
Qed.

Lemma cell_put_links w c v :
  write_keeps_links w c v →
  (∀ ty e, edge_target (cell_put w c v) ty e = edge_target w ty e) ∧
  (∀ inv t, members_at (cell_put w c v) inv t = members_at w inv t) ∨ cell_get w c = None.
Proof.
  intros Hk. destruct (cell_get w c) as [old|] eqn:Hc; [left|by right].
  assert (∀ ty e, row_value (cell_put w c v) ty e = row_value w ty e ∨
    row_value (cell_put w c v) ty e = Some v ∧ row_value w ty e = Some old ∧ keeps_links ty old v) as Hv.
  { intros ty e. unfold row_value. change (row (cell_put w c v) ty e) with (row w ty e).
    destruct (row w ty e) as [entry|] eqn:Hr; simpl; [|by left].
    destruct (decide (entry_value entry = c)) as [<-|Hne].
    - right. unfold cell_get, cell_put in *. simpl. rewrite lookup_insert_eq. split_and!; try done.
      by apply (Hk ty e entry old Hr eq_refl).
    - left. unfold cell_get, cell_put. simpl. by rewrite lookup_insert_ne. }
  split; intros ty e; unfold edge_target, members_at; destruct (Hv ty e) as [->|(-> & -> & He & Hm)]; try done.
Qed.

Lemma cell_put_rel w c v : is_Some (cell_get w c) → write_keeps_links w c v → rel_ok w → rel_ok (cell_put w c v).
Proof.
  intros [old Hc] Hk. destruct (cell_put_links w c v Hk) as [[He Hm]|?]; [|congruence]. by apply rel_ok_links.
Qed.

Lemma reconcile_rel X w writes w' : wf X w → reconcile_written w writes = Done w' → rel_ok w → rel_ok w'.
Proof.
  intros Hwf Hr.
  assert (∀ ty e, row_value w' ty e = row_value w ty e ∧ owner_of w' ty e = owner_of w ty e) as Hv
    by (intros; by eapply reconcile_written_payload).
  destruct (reconcile_written_good _ _ _ _ Hwf Hr) as [Hwf' _].
  apply rel_ok_links.
  - intros ty e Hn. destruct (row w' ty e) as [entry|] eqn:Hrow; [|done]. exfalso.
    destruct (wf_cell _ _ Hwf' _ _ _ Hrow) as [u Hu]. destruct (Hv ty e) as [Hval _]. unfold row_value in Hval.
    rewrite Hrow, Hn in Hval. simpl in Hval. congruence.
  - intros. apply Hv.
  - intros ty e. unfold edge_target. by rewrite (proj1 (Hv ty e)).
  - intros inv t. unfold members_at. by rewrite (proj1 (Hv inv t)).
Qed.

(** A live update is a write through the cell, as far as rows are concerned. *)
Lemma update_rows {R} X w ty e (f : Value → Value * R) w' out :
  wf X w → update_component_live w ty e f = Done (w', out) →
  w' = w ∨ ∃ entry old, row w ty e = Some entry ∧ cell_get w (entry_value entry) = Some old ∧
    shared w' = shared (cell_put w (entry_value entry) (f old).1) ∧
    ∀ ty' e', entry_value <$> row w' ty' e' = entry_value <$> row w ty' e' ∧ owner_of w' ty' e' = owner_of w ty' e'.
Proof.
  intros Hwf. unfold update_component_live. intros (next & _ & Hrun)%bind_Done.
  destruct (store_of w ty) as [s|] eqn:Hs; [|injection Hrun as <- <-; by left].
  destruct (entries s !! e) as [entry|] eqn:He; [|injection Hrun as <- <-; by left].
  destruct (cell_get w (entry_value entry)) as [old|] eqn:Hv; [|injection Hrun as <- <-; by left].
  destruct (f old) as [v r] eqn:Hf. injection Hrun as <- _. right. exists entry, old.
  split; [unfold row; by rewrite Hs|]. split; [done|]. rewrite Hf. simpl.
  set (w1 := cell_put w (entry_value entry) v). set (changed := write_changed ty _ _).
  set (entry' := MkEntry _ _ _ _). set (s' := reindex _ _ _ _).
  split; [by destruct changed|]. intros ty' e'.
  assert (entries s' = <[e := entry']> (entries s)) as Hent.
  { unfold s'. rewrite reindex_entries. done. }
  assert (∀ s2 : Store, entries s2 = entries s' → row (put_store w1 ty s2) ty' e' = if decide (ty' = ty ∧ e' = e) then Some entry' else row w ty' e') as Hrow.
  { intros s2 Hs2. rewrite row_put by exact (wf_st _ _ Hwf). case_decide as Hty.
    - subst ty'. rewrite Hs2, Hent, lookup_insert. destruct (decide (e = e')) as [<-|Hne].
      + by rewrite decide_True.
      + rewrite decide_False by naive_solver. unfold row. by rewrite Hs.
    - by rewrite decide_False by naive_solver. }
  assert (row (if changed then set_revision next (log_write (put_store w1 ty (bump_watermark s' next)) ty e)
               else put_store w1 ty s') ty' e' = if decide (ty' = ty ∧ e' = e) then Some entry' else row w ty' e') as Hr.
  { destruct changed; [|by apply Hrow]. exact (Hrow (bump_watermark s' next) eq_refl). }
  unfold owner_of. rewrite Hr. case_decide as Hd; [|done]. destruct Hd as [-> ->].
  assert (row w ty e = Some entry) as -> by (unfold row; by rewrite Hs). done.
Qed.

Lemma update_rel {R} X w ty e (f : Value → Value * R) w' out :
  wf X w → update_keeps_links w ty e f → update_component_live w ty e f = Done (w', out) → rel_ok w → rel_ok w'.
Proof.
  intros Hwf Hk Hrun Hrel. destruct (update_rows X w ty e f w' out Hwf Hrun) as [->|(entry & old & Hr & Hc & Hsh & Hrows)]; [done|].
  set (w1 := cell_put w (entry_value entry) (f old).1) in *.
  assert (∀ ty' e', row_value w' ty' e' = row_value w1 ty' e') as Hv.
  { intros ty' e'. unfold row_value, cell_get. rewrite Hsh. destruct (Hrows ty' e') as [He _].
    change (row w1 ty' e') with (row w ty' e'). destruct (row w' ty' e') as [a|], (row w ty' e') as [b|]; simpl in *; try done.
    injection He as ->. done. }
  apply (rel_ok_links w1).
  - intros ty' e'. change (row w1 ty' e') with (row w ty' e'). intros Hn. destruct (Hrows ty' e') as [He _].
    rewrite Hn in He. by destruct (row w' ty' e').
  - intros ty' e'. apply (Hrows ty' e').
  - intros ty' e'. unfold edge_target. by rewrite Hv.
  - intros inv t. unfold members_at. by rewrite Hv.
  - apply cell_put_rel; [by eexists|by apply Hk|done].
Qed.

Lemma flush_rel X w w' : wf X w → flush_derived_from w = Done w' → rel_ok w → rel_ok w'.
Proof.
  intros Hwf. unfold flush_derived_from. case_bool_decide; [by intros [= <-]|].
  intros (w1 & Hf & [= <-])%bind_Done Hrel.
  assert (wf X w1 ∧ rel_ok w1) as [_ Hrel1]; [|by apply (rel_ok_frame w1)].
  refine (fold_result_inv (λ w, wf X w ∧ rel_ok w) _ _ _ w1 _ _ Hf).
  - intros w2 [[e anchors] owner] w3 _ [Hwf2 Hrel2] Hi. split; [by eapply insert_good|].
    eapply insert_rel; [done..|exact inverse_not_derived|exact Hi].
  - split; [|by apply (rel_ok_frame w)].
    eapply frame_wf; [..|exact Hwf]; try done. set_solver.
Qed.

Lemma touched_rel X w keyset systems w' removed :
  wf X w → settled X → remove_derived_touched_by_systems w keyset systems = Done (w', removed) → rel_ok w → rel_ok w'.
Proof.
  intros Hwf HX Hrun Hrel. unfold remove_derived_touched_by_systems in Hrun.
  refine (proj2 (fold_result_inv (λ p, wf X p.1 ∧ rel_ok p.1) _ _ (w, []) (w', removed) _ (conj Hwf Hrel) Hrun)).
  intros [w1 r1] o [w2 r2] _ [Hwf1 Hrel1] H2%sweep_owner_run. simpl in *.
  destruct (remove_derived_owned_aux _ _ _ _ Hwf1 (HX o) H2) as ([Hwf2 _] & _).
  split; [done|]. exact (remove_derived_owned_rel X w1 o w2 Hwf1 Hrel1 H2).
Qed.

Lemma rel_step_ok c c' : wf c.1 c.2 → rel_ok c.2 → rel_step c c' → rel_ok c'.2.
Proof.
  intros Hwf Hrel Hstep. destruct Hstep as [X w e ty v owner w' Hty Hr|X w ty e remover w' out Hty Hr|
    X w e w' owners Hr|X w o w' previous Hr|X w o previous w' Hr|X w o w' HX Hr|X w ks sys w' removed HX Hr|
    X w c v Hc Hk|R X w ty e f w' out Hk Hr|R X w ty e held f w' out Hk Hr|X w writes w' Hr|X w w' Hr|X w w' _ Hst Hc];
    simpl in *.
  - by eapply insert_rel.
  - by eapply remove_component_rel.
  - by eapply remove_entity_rel_aux.
  - injection Hr as <- <-. by apply (rel_ok_frame w).
  - by eapply stale_rel.
  - by eapply remove_derived_owned_rel.
  - by eapply touched_rel.
  - by apply cell_put_rel.
  - by eapply update_rel.
  - unfold try_update_component_live in Hr. destruct (row w ty e) as [entry|].
    2:{ by apply bind_Done in Hr as (? & _ & [= <- _]). }
    destruct (held _); [by apply bind_Done in Hr as (? & _ & [= <- _])|].
    apply bind_Done in Hr as ([w1 out1] & Hr & [= <- _]). by eapply update_rel.
  - by eapply reconcile_rel.
  - by eapply flush_rel.
  - by apply (rel_ok_frame w).
Qed.

Lemma rel_steps_ok c c' :
  rtc rel_step c c' → wf c.1 c.2 → rel_ok c.2 → wf c'.1 c'.2 ∧ rel_ok c'.2.
Proof.
  induction 1 as [c|c c1 c' Hs _ IH]; intros Hwf Hrel; [done|].
  apply IH; [|by eapply rel_step_ok].
  destruct c as [X w], c1 as [X1 w1]. by apply (world_step_good _ _ _ _ Hwf (rel_step_world _ _ Hs)).
Qed.

Lemma rel_ok_empty w : (∀ ty e, row w ty e = None) → rel_ok w.
Proof.
  intros Hr inv t _. unfold exact, members_at, owner_of, points_to, edge_target, row_value.
  rewrite Hr. simpl. split; [|done]. split; [done|]. intros s [ty Hx]. by rewrite Hr in Hx.
Qed.

Lemma init_ok shapes w :
  init_presence world_new (universe_of shapes) = Done w → wf nothing_taken w ∧ rel_ok w.
Proof.
  intros Hinit. destruct (wf_init (universe_of shapes)) as (w0 & Hw0 & Hwf0).
  { apply universe_of_spec. }
  rewrite Hw0 in Hinit. injection Hinit as ->. split; [done|].
  apply rel_ok_empty. intros ty e. injection Hw0 as <-. unfold row, store_of.
  by rewrite (proj2 (wf_stores_with_registry _ (dense_bits _ (proj1 (universe_of_spec shapes))))).
Qed.

(** C12: maintained inverses are exact after every sequence of world steps that
    leaves links to the engine.  The steps are all of the world's: inserts,
    removals (of a row or an entity), the takes, sweeps and retractions of
    outputs, writes through cells and live updates with their reconcile, the
    derived flush, and everything that moves no row.  Two kinds are excluded,
    and have to be: a program that inserts or removes an inverse component
    itself, and a write in place ([MutRef], a live update) that changes the
    target of an edge or the members of an inverse, which no maintainer sees
    ([in_place_retarget_unmaintained]).  After any such steps (edges inserted,
    retargeted, removed, swept with their owner's outputs, or lost with a removed
    entity) the inverse on each target lists exactly the sources whose edge
    points at it, in ascending order and without duplicates, and there is no
    inverse on a target nobody points at. *)
Theorem inverses_always_exact shapes w X w' inv t :
  init_presence world_new (universe_of shapes) = Done w →
  rtc rel_step (nothing_taken, w) (X, w') → is_Some (edge_of inv) →
  match members_at w' inv t with
  | Some ms => StronglySorted N.lt ms ∧ ms ≠ [] ∧
      ∀ s, s ∈ ms ↔ ∃ ty, edge_target w' ty s = Some (inv, t)
  | None => row w' inv t = None ∧ ∀ s ty, edge_target w' ty s ≠ Some (inv, t)
  end.
Proof.
  intros Hinit Hsteps Hinv. destruct (init_ok _ _ Hinit) as [Hwf0 Hrel0].
  destruct (rel_steps_ok _ _ Hsteps Hwf0 Hrel0) as [_ Hrel].
  change (rel_ok w') in Hrel. destruct (Hrel inv t Hinv) as [Hex _]. unfold exact in Hex.
  destruct (members_at w' inv t); [exact Hex|]. destruct Hex as [? Hn]. split; [done|].
  intros s ty Hx. apply (Hn s). by exists ty.
Qed.

(** Removing an entity removes every row of it, and leaves no dangling
    edge: no edge in the world points at it any more, and every inverse is
    still exact (its own edges left the inverses of their targets). *)
Theorem remove_entity_detaches X w e w' owners :
  wf X w → rel_ok w → remove_entity w e = Done (w', owners) →
  (∀ ty, row w' ty e = None) ∧ (∀ ty s inv, edge_target w' ty s ≠ Some (inv, e)) ∧ rel_ok w'.
Proof.
  intros Hwf Hrel Hrun. by destruct (remove_entity_rel_aux _ _ _ _ _ Hwf Hrel Hrun) as (? & ? & ? & _).
Qed.

(** Maintenance nests exactly once: with any bound of at least one the
    maintained insert and removal are the same functions, so the bound of the
    model is never the reason for a result. *)
Theorem relops_enough n w e ty v owner remover :
  insert_with (relops (S n)) w e ty v owner = insert w e ty v owner ∧
  remove_component_with (relops (S n)) w ty e remover = remove_component w ty e remover.
Proof.
  assert (∀ w inv s t, is_Some (edge_of inv) →
    rel_add (relops (S n)) inv s t w = rel_add the_relops inv s t w ∧
    rel_remove (relops (S n)) inv s t w = rel_remove the_relops inv s t w) as Hops.
  { intros w0 inv s t Hinv. split; [by apply add_member_ops|by apply remove_member_ops]. }
  assert (∀ w p q, (∀ inv t, p = Some (inv, t) → is_Some (edge_of inv)) →
    (∀ inv t, q = Some (inv, t) → is_Some (edge_of inv)) →
    maintain_edges (relops (S n)) w e p q = maintain_edges the_relops w e p q) as Hmaintain.
  { intros w0 p q Hp Hq. unfold maintain_edges. case_bool_decide; [|done].
    destruct p as [[i1 t1]|].
    - rewrite (proj2 (Hops w0 i1 e t1 (Hp _ _ eq_refl))).
      destruct (rel_remove the_relops i1 e t1 w0) as [w1|f]; simpl; [|done].
      destruct q as [[i2 t2]|]; [|done]. apply (Hops w1 i2 e t2 (Hq _ _ eq_refl)).
    - simpl. destruct q as [[i2 t2]|]; [|done]. apply (Hops w0 i2 e t2 (Hq _ _ eq_refl)). }
  assert (∀ w v, insert_value (relops (S n)) w e ty v owner = insert_value the_relops w e ty v owner)
    as Hvalue.
  { intros w0 v0. unfold insert_value.
    destruct (insert_row w0 e ty v0 owner) as [[w1 pe]|f] eqn:Hins; simpl; [|done].
    apply Hmaintain.
    - intros inv t ->. destruct (insert_row_fields _ _ _ _ _ _ _ Hins)
        as (? & ? & ? & ? & _ & _ & _ & _ & _ & _ & _ & _ & _ & _ & Hpe).
      destruct (row w0 ty e) as [en|]; simpl in Hpe; [|done].
      destruct (cell_get w1 (entry_value en)) as [u|]; simpl in Hpe; [|done].
      symmetry in Hpe. exists ty. by eapply value_edge_inverse.
    - intros inv t Hx. exists ty. by eapply value_edge_inverse. }
  split.
  - unfold insert, insert_with. destruct v; [apply Hvalue|]. destruct (flushing_anchors w); [|done].
    apply Hvalue.
  - unfold remove_component, remove_component_with.
    destruct (remove_row w ty e remover) as [[w1 [[c edge]|]]|f] eqn:Hrem; simpl; [|done|done].
    destruct edge as [[inv t]|]; [|done].
    change (MkRelOps _ _) with (relops (S n)). unfold remove_edge.
    by rewrite (proj2 (Hops w1 inv e t (remove_row_inverse _ _ _ _ _ _ _ _ Hrem))).
Qed.

End relations.

(** ** Concrete runs *)

(** Entities 3 and 9 point at 5; then 3 is retargeted to 9. *)
Definition demo_e1 : World := run demo_w0 (insert demo_w0 9 ty_edge (v_edge 5) None).
Definition demo_e2 : World := run demo_w0 (insert demo_e1 3 ty_edge (v_edge 5) None).
Definition demo_e3 : World := run demo_w0 (insert demo_e2 3 ty_edge (v_edge 9) None).

Example demo_members_both : members_at demo_e2 ty_members 5 = Some [3%N; 9%N].
Proof. vm_compute. reflexivity. Qed.
Example demo_members_retargeted :
  members_at demo_e3 ty_members 5 = Some [9%N] ∧ members_at demo_e3 ty_members 9 = Some [3%N].
Proof. split; vm_compute; reflexivity. Qed.

Lemma demo_edges_run : rtc rel_step (nothing_taken, demo_w0) (nothing_taken, demo_e3).
Proof.
  eapply rtc_l; [apply (rs_insert nothing_taken demo_w0 9 ty_edge (v_edge 5) None demo_e1);
    vm_compute; reflexivity|].
  eapply rtc_l; [apply (rs_insert nothing_taken demo_e1 3 ty_edge (v_edge 5) None demo_e2);
    vm_compute; reflexivity|].
  apply rtc_once, (rs_insert nothing_taken demo_e2 3 ty_edge (v_edge 9) None demo_e3);
    vm_compute; reflexivity.
Qed.

(** Writing the edge of 3 in place retargets it to 5 in the value only: the
    inverse on 9 still lists 3 and the one on 5 does not. *)
Example in_place_retarget_unmaintained :
  ∃ entry, row demo_e3 ty_edge 3 = Some entry ∧
    let w := cell_put demo_e3 (entry_value entry) (v_edge 5) in
    edge_target w ty_edge 3 = Some (ty_members, 5%N) ∧
    members_at w ty_members 5 = Some [9%N] ∧ members_at w ty_members 9 = Some [3%N].
Proof.
  destruct (row demo_e3 ty_edge 3) as [entry|] eqn:Hr; [|vm_compute in Hr; discriminate].
  exists entry. split; [done|]. vm_compute in Hr. injection Hr as <-. vm_compute. by split_and!.
Qed.

Lemma inverses_always_exact_witness :
  StronglySorted N.lt [3%N] ∧ [3%N] ≠ [] ∧
  ∀ s, s ∈ [3%N] ↔ ∃ ty, edge_target demo_e3 ty s = Some (ty_members, 9%N).
Proof.
  pose proof (inverses_always_exact demo_shapes demo_w0 nothing_taken demo_e3 ty_members 9
    demo_init demo_edges_run ltac:(vm_compute; by eexists)) as Hx.
  rewrite (proj2 demo_members_retargeted) in Hx. exact Hx.
Defined.

Lemma remove_entity_detaches_witness :
  ∃ w' owners, remove_entity demo_e3 9 = Done (w', owners) ∧
    ∀ ty s inv, edge_target w' ty s ≠ Some (inv, 9%N).
Proof.
  destruct (remove_entity demo_e3 9) as [[w' owners]|f] eqn:Hrun; [|vm_compute in Hrun; discriminate].
  exists w', owners. split; [done|].
  destruct (init_ok _ _ demo_init) as [Hwf0 Hrel0].
  destruct (rel_steps_ok _ _ demo_edges_run Hwf0 Hrel0) as [Hwf Hrel].
  by destruct (remove_entity_detaches _ _ _ _ _ Hwf Hrel Hrun) as (_ & ? & _).
Defined.
