(* ===== verification/Locks.v ===== *)
(** * Component cells and their guards ([world.rs], [query/guards.rs])

    A component value sits in a cell with a reader count, a writer flag and a
    condition variable.  Typed guards own the right to release, and hand it to
    the invocation's guard store.  Threads are interleaved by a step relation
    whose steps are the critical sections of the source: one pass of a
    [while .. wait] loop, one [try_write], one release, one payload write.
    The theorems: readers and writers exclude each other, no release
    underflows, and no thread sleeps on a cell that nobody holds. *)
From stdpp Require Import base numbers gmap fin_maps option list.
From S2P Require Import Prelude.

Abbreviation ThreadId := nat (only parsing).
Abbreviation LockId := nat (only parsing).

(** ** Lock state of one cell *)

Record ComponentLockState := MkLock { readers : N; writer : bool }.

Definition lock_default : ComponentLockState := MkLock 0 false.

Definition contended (l : ComponentLockState) : bool := writer l || negb (bool_decide (readers l = 0%N)).

(** One pass of the loop of [read]: [None] means the thread waits. *)
Definition cell_read (l : ComponentLockState) : result (option ComponentLockState) :=
  if writer l then Done None
  else n ← expect Overflow (u64_checked_succ (readers l)); Done (Some (MkLock n (writer l))).

(** One pass of the loop of [write]. *)
Definition cell_write (l : ComponentLockState) : option ComponentLockState :=
  if contended l then None else Some (MkLock (readers l) true).

Definition cell_try_write (l : ComponentLockState) : option ComponentLockState :=
  if contended l then None else Some (MkLock (readers l) true).

(** The releases also say whether they notify the sleepers. *)
Definition cell_release_read (l : ComponentLockState) : result (ComponentLockState * bool) :=
  n ← expect Overflow (if bool_decide (readers l = 0%N) then None else Some (readers l - 1)%N);
  Done (MkLock n (writer l), bool_decide (n = 0%N)).

Definition cell_release_write (l : ComponentLockState) : ComponentLockState * bool :=
  (MkLock (readers l) false, true).

(** ** Guards *)

Inductive GuardKind := Reading | Writing.

#[export] Instance GuardKind_eq_dec : EqDecision GuardKind.
Proof. solve_decision. Defined.

(** [HeldGuard]: a released token, or a foreign guard that locks no cell. *)
Inductive HeldGuard := HeldRead (c : LockId) | HeldWrite (c : LockId) | HeldCustom.

(** What a live value in some thread's hands may be: a typed guard
    ([ComponentReadGuard], [ComponentWriteGuard]), whose [cell] is [None] once
    transferred, or a token in a guard store. *)
Inductive Guard := Typed (k : GuardKind) (cell : option LockId) | Stored (g : HeldGuard).

(** [into_held]: the token, and the emptied typed guard that is dropped. *)
Definition into_held (g : Guard) : option (HeldGuard * Guard) :=
  match g with
  | Typed Reading (Some c) => Some (HeldRead c, Typed Reading None)
  | Typed Writing (Some c) => Some (HeldWrite c, Typed Writing None)
  | _ => None
  end.

(** The cell a guard locks, and how. *)
Definition guard_lock (g : Guard) : option (GuardKind * LockId) :=
  match g with
  | Typed k (Some c) => Some (k, c)
  | Stored (HeldRead c) => Some (Reading, c)
  | Stored (HeldWrite c) => Some (Writing, c)
  | _ => None
  end.

(** ** The shared state *)

Inductive Want := WantRead (c : LockId) | WantWrite (c : LockId).

(** A thread runs, is about to take a pass of a lock loop, or sleeps on the
    condition variable of a cell. *)
Inductive Phase := Running | Entering (w : Want) | Asleep (w : Want).

Definition want_cell (w : Want) : LockId := match w with WantRead c | WantWrite c => c end.

Record Cells (V : Type) := MkCells {
  locks : gmap LockId ComponentLockState;
  payload : gmap LockId V;
  guards : list (ThreadId * Guard);
  phases : gmap ThreadId Phase;
}.
Arguments MkCells {_} _ _ _ _.
Arguments locks {_} _.
Arguments payload {_} _.
Arguments guards {_} _.
Arguments phases {_} _.

Section cells.
Context {V : Type}.
Implicit Types (s : Cells V) (c : LockId) (t : ThreadId).

Definition lock_of s c : ComponentLockState := default lock_default (locks s !! c).
Definition phase_of s t : Phase := default Running (phases s !! t).

Definition set_lock s c l : Cells V := MkCells (<[c:=l]> (locks s)) (payload s) (guards s) (phases s).
Definition set_guards s gs : Cells V := MkCells (locks s) (payload s) gs (phases s).
Definition set_phase s t p : Cells V := MkCells (locks s) (payload s) (guards s) (<[t:=p]> (phases s)).
Definition set_payload s c v : Cells V := MkCells (locks s) (<[c:=v]> (payload s)) (guards s) (phases s).

(** [notify_all] on a cell: its sleepers go back to their loops. *)
Definition notify_all s c : Cells V :=
  MkCells (locks s) (payload s) (guards s)
    ((λ p : Phase, match p with
           | Asleep w => if bool_decide (want_cell w = c) then Entering w else p
           | _ => p
           end) <$> phases s).

(** Dropping a guard: [Drop for ComponentReadGuard], [ComponentWriteGuard]
    and [HeldGuard]. *)
Definition drop_guard s (g : Guard) : result (Cells V) :=
  match guard_lock g with
  | None => Done s
  | Some (Reading, c) =>
      '(l, notify) ← cell_release_read (lock_of s c);
      let s := set_lock s c l in Done (if notify : bool then notify_all s c else s)
  | Some (Writing, c) =>
      let '(l, notify) := cell_release_write (lock_of s c) in
      let s := set_lock s c l in Done (if notify : bool then notify_all s c else s)
  end.

(** The guard at a position dies. *)
Definition drop_at s (i : nat) : result (Cells V) :=
  '(_, g) ← expect IndexOutOfRange (guards s !! i);
  drop_guard (set_guards s (delete i (guards s))) g.

(** [GuardStore::clear]: a thread drops the tokens it stored, in order.  The
    first remaining one of [t] is dropped until none is left. *)
Definition is_stored (g : Guard) : bool := match g with Stored _ => true | _ => false end.

Definition store_slot s t : option nat :=
  fst <$> list_find (λ p : ThreadId * Guard, p.1 = t ∧ is_stored p.2 = true) (guards s).

Fixpoint clear_store (n : nat) s t : result (Cells V) :=
  match store_slot s t with
  | None => Done s
  | Some i => match n with 0 => Done s | S n => s ← drop_at s i; clear_store n s t end
  end.

(** [GuardStore::hold] of a typed guard's token, in place of the guard. *)
Definition hold_at s (i : nat) : result (Cells V) :=
  '(t, g) ← expect IndexOutOfRange (guards s !! i);
  '(held, emptied) ← expect IndexOutOfRange (into_held g);
  drop_guard (set_guards s (<[i:=(t, Stored held)]> (guards s))) emptied.

Definition acquire s t c l k : Cells V :=
  set_phase (set_guards (set_lock s c l) (guards s ++ [(t, Typed k (Some c))])) t Running.

(** ** Steps *)

Inductive cell_step : Cells V → Cells V → Prop :=
  | cs_enter s t w : phase_of s t = Running → cell_step s (set_phase s t (Entering w))
  | cs_read s t c l :
      phase_of s t = Entering (WantRead c) → cell_read (lock_of s c) = Done (Some l) →
      cell_step s (acquire s t c l Reading)
  | cs_read_wait s t c :
      phase_of s t = Entering (WantRead c) → cell_read (lock_of s c) = Done None →
      cell_step s (set_phase s t (Asleep (WantRead c)))
  | cs_write s t c l :
      phase_of s t = Entering (WantWrite c) → cell_write (lock_of s c) = Some l →
      cell_step s (acquire s t c l Writing)
  | cs_write_wait s t c :
      phase_of s t = Entering (WantWrite c) → cell_write (lock_of s c) = None →
      cell_step s (set_phase s t (Asleep (WantWrite c)))
  | cs_try_write s t c l :
      phase_of s t = Running → cell_try_write (lock_of s c) = Some l →
      cell_step s (acquire s t c l Writing)
  | cs_spurious s t w : phase_of s t = Asleep w → cell_step s (set_phase s t (Entering w))
  | cs_hold s t g i s' :
      phase_of s t = Running → guards s !! i = Some (t, g) → hold_at s i = Done s' → cell_step s s'
  | cs_custom s t :
      phase_of s t = Running → cell_step s (set_guards s (guards s ++ [(t, Stored HeldCustom)]))
  | cs_drop s t g i s' :
      phase_of s t = Running → guards s !! i = Some (t, g) → drop_at s i = Done s' → cell_step s s'
  | cs_clear s t s' :
      phase_of s t = Running → clear_store (length (guards s)) s t = Done s' → cell_step s s'
  | cs_assign s t g i c v :
      phase_of s t = Running → guards s !! i = Some (t, g) → guard_lock g = Some (Writing, c) →
      cell_step s (set_payload s c v).

Definition cells_new : Cells V := MkCells ∅ ∅ [] ∅.

(** ** Invariant *)

(** Tokens on a cell. *)
Definition locks_as (k : GuardKind) c (g : ThreadId * Guard) : Prop := guard_lock g.2 = Some (k, c).
#[local] Instance locks_as_dec k c g : Decision (locks_as k c g).
Proof. unfold locks_as. apply _. Defined.
Definition count (k : GuardKind) c (gs : list (ThreadId * Guard)) : nat :=
  length (filter (locks_as k c) gs).
Definition tokens s (k : GuardKind) c : nat := count k c (guards s).

Definition counted s c : Prop :=
  readers (lock_of s c) = N.of_nat (tokens s Reading c) ∧
  tokens s Writing c = (if writer (lock_of s c) then 1 else 0) ∧
  (writer (lock_of s c) = true → readers (lock_of s c) = 0%N).

Definition blocks (l : ComponentLockState) (w : Want) : bool :=
  match w with WantRead _ => writer l | WantWrite _ => contended l end.

Definition slept s : Prop :=
  ∀ t w, phase_of s t = Asleep w → blocks (lock_of s (want_cell w)) w = true.

Definition cells_ok s : Prop := (∀ c, counted s c) ∧ slept s.

Definition one (k : GuardKind) c (x : ThreadId * Guard) : nat :=
  if decide (locks_as k c x) then 1 else 0.

Lemma count_app k c gs x : count k c (gs ++ [x]) = count k c gs + one k c x.
Proof.
  unfold count, one. rewrite filter_app, length_app, filter_cons. f_equal. by case_decide.
Qed.

Lemma count_delete k c gs i x : gs !! i = Some x → count k c gs = one k c x + count k c (delete i gs).
Proof.
  intros Hi. unfold count, one. apply delete_Permutation in Hi.
  transitivity (length (filter (locks_as k c) (x :: delete i gs))).
  - by apply Permutation_length, filter_Permutation.
  - rewrite filter_cons. by case_decide.
Qed.

Lemma count_insert k c gs i x y :
  gs !! i = Some x → guard_lock x.2 = guard_lock y.2 → count k c (<[i:=y]> gs) = count k c gs.
Proof.
  intros Hi Hxy. unfold count. revert i Hi. induction gs as [|z gs IH]; intros [|i] Hi; simpl in *; try done.
  - injection Hi as ->. rewrite !filter_cons. unfold locks_as in *. repeat case_decide; congruence || done.
  - rewrite !filter_cons. case_decide; simpl; by rewrite (IH i Hi).
Qed.

Lemma lock_of_set s c l c' : lock_of (set_lock s c l) c' = if decide (c' = c) then l else lock_of s c'.
Proof.
  unfold lock_of. simpl. case_decide as E; [subst; by rewrite lookup_insert_eq|by rewrite lookup_insert_ne].
Qed.

Lemma phase_of_set s t p t' : phase_of (set_phase s t p) t' = if decide (t' = t) then p else phase_of s t'.
Proof.
  unfold phase_of. simpl. case_decide as E; [subst; by rewrite lookup_insert_eq|by rewrite lookup_insert_ne].
Qed.

Lemma asleep_notify s c t w :
  phase_of (notify_all s c) t = Asleep w → phase_of s t = Asleep w ∧ want_cell w ≠ c.
Proof.
  unfold phase_of. simpl. rewrite lookup_fmap. destruct (phases s !! t) as [[| |w0]|]; simpl; try done.
  case_bool_decide; [done|]. by intros [= ->].
Qed.

(** A state whose locks count one more token than its guards: the guard that
    locked it is being dropped. *)
Definition extra (k : GuardKind) c0 k' c : nat := if decide (k' = k ∧ c = c0) then 1 else 0.

Lemma extra_same k c : extra k c k c = 1.
Proof. unfold extra. by rewrite decide_True. Qed.
Lemma extra_cell k c0 k' c : c ≠ c0 → extra k c0 k' c = 0.
Proof. intros ?. unfold extra. rewrite decide_False; naive_solver. Qed.
Lemma extra_kind k c0 k' c : k' ≠ k → extra k c0 k' c = 0.
Proof. intros ?. unfold extra. rewrite decide_False; naive_solver. Qed.
Lemma one_extra k c0 x k' c : guard_lock x.2 = Some (k, c0) → one k' c x = extra k c0 k' c.
Proof. intros Hx. unfold one, extra, locks_as. repeat case_decide; naive_solver. Qed.

Definition counted_with s (k : GuardKind) c0 : Prop :=
  ∀ c,
  readers (lock_of s c) = N.of_nat (extra k c0 Reading c + tokens s Reading c) ∧
  extra k c0 Writing c + tokens s Writing c = (if writer (lock_of s c) then 1 else 0) ∧
  (writer (lock_of s c) = true → readers (lock_of s c) = 0%N).

Lemma drop_reader_ok s c0 n notified :
  counted_with s Reading c0 → slept s →
  cell_release_read (lock_of s c0) = Done (n, notified) →
  cells_ok (if notified : bool then notify_all (set_lock s c0 n) c0 else set_lock s c0 n).
Proof.
  intros Hcnt Hsl Hrel. unfold cell_release_read in Hrel.
  case_bool_decide; [done|]. injection Hrel as <- <-. set (l := MkLock _ _).
  assert (∀ c, counted (set_lock s c0 l) c) as Hc.
  { intros c. destruct (Hcnt c) as (Hr & Hw & Hx). unfold counted. rewrite lock_of_set.
    change (tokens (set_lock s c0 l)) with (tokens s).
    rewrite (extra_kind Reading c0 Writing) in Hw by done.
    destruct (decide (c = c0)) as [->|Hne].
    - rewrite extra_same in Hr. unfold l. simpl. split_and!; [lia|done|].
      intros Hwr. specialize (Hx Hwr). lia.
    - rewrite extra_cell in Hr by done. by split_and!. }
  case_bool_decide as Hz; split; try exact Hc.
  - intros t w Hp. apply asleep_notify in Hp as [Hp Hne]. specialize (Hsl t w Hp).
    change (lock_of (notify_all ?a c0)) with (lock_of a). by rewrite lock_of_set, decide_False.
  - intros t w Hp. specialize (Hsl t w Hp). rewrite lock_of_set. case_decide as E; [|done].
    rewrite E in Hsl. destruct w; simpl in *; [exact Hsl|].
    unfold contended. simpl. rewrite bool_decide_eq_false_2 by done. by rewrite orb_true_r.
Qed.

Lemma drop_writer_ok s c0 :
  counted_with s Writing c0 → slept s →
  cells_ok (notify_all (set_lock s c0 (cell_release_write (lock_of s c0)).1) c0).
Proof.
  intros Hcnt Hsl. split.
  - intros c. destruct (Hcnt c) as (Hr & Hw & Hx). unfold counted.
    change (lock_of (notify_all ?a c0)) with (lock_of a). rewrite lock_of_set.
    change (tokens (notify_all _ c0)) with (tokens s).
    rewrite (extra_kind Writing c0 Reading) in Hr by done.
    destruct (decide (c = c0)) as [->|Hne].
    + rewrite extra_same in Hw. simpl. split_and!; [done| |done].
      destruct (writer (lock_of s c0)); lia.
    + rewrite extra_cell in Hw by done. by split_and!.
  - intros t w Hp. apply asleep_notify in Hp as [Hp Hne]. specialize (Hsl t w Hp).
    change (lock_of (notify_all ?a c0)) with (lock_of a). by rewrite lock_of_set, decide_False.
Qed.

Lemma drop_guard_ok s g k c0 :
  guard_lock g = Some (k, c0) → counted_with s k c0 → slept s →
  ∃ s', drop_guard s g = Done s' ∧ cells_ok s' ∧ guards s' = guards s.
Proof.
  intros Hg Hcnt Hsl. unfold drop_guard. rewrite Hg. destruct k.
  - destruct (cell_release_read (lock_of s c0)) as [[l notified]|f] eqn:Hrel; simpl.
    + eexists. split; [reflexivity|]. split; [by eapply drop_reader_ok|by destruct notified].
    + unfold cell_release_read in Hrel. destruct (Hcnt c0) as (Hr & _).
      rewrite extra_same in Hr. rewrite bool_decide_eq_false_2 in Hrel by lia. done.
  - eexists. split; [reflexivity|]. split; [by apply drop_writer_ok|done].
Qed.

Lemma drop_at_ok s i x :
  cells_ok s → guards s !! i = Some x →
  ∃ s', drop_at s i = Done s' ∧ cells_ok s' ∧ guards s' = delete i (guards s).
Proof.
  intros [Hcnt Hsl] Hi. destruct x as [t g]. unfold drop_at. rewrite Hi. simpl.
  destruct (guard_lock g) as [[k c0]|] eqn:Hg.
  - apply (drop_guard_ok (set_guards s (delete i (guards s))) g k c0); [done| |exact Hsl]. intros c.
    destruct (Hcnt c) as (Hr & Hw & Hx). unfold tokens in *.
    rewrite (count_delete _ _ _ _ _ Hi), (one_extra k c0) in Hr by done.
    rewrite (count_delete _ _ _ _ _ Hi), (one_extra k c0) in Hw by done. by split_and!.
  - unfold drop_guard. rewrite Hg. eexists. split; [reflexivity|]. split; [|done]. split; [|exact Hsl].
    intros c. destruct (Hcnt c) as (Hr & Hw & Hx). unfold counted, tokens in *. simpl.
    assert (∀ k, one k c (t, g) = 0) as Ho.
    { intros k. unfold one, locks_as. simpl. case_decide; congruence. }
    rewrite (count_delete _ _ _ _ _ Hi), Ho in Hr. rewrite (count_delete _ _ _ _ _ Hi), Ho in Hw.
    by split_and!.
Qed.

Lemma store_slot_Some s t i :
  store_slot s t = Some i → ∃ g, guards s !! i = Some (t, g) ∧ is_stored g = true.
Proof.
  unfold store_slot. intros Hf. apply fmap_Some in Hf as ([j [t' g]] & Hf & ->).
  apply list_find_Some in Hf as (Hl & [Ht Hg] & _). simpl in *. subst. by exists g.
Qed.

Lemma clear_store_ok n s t :
  cells_ok s → length (guards s) ≤ n →
  ∃ s', clear_store n s t = Done s' ∧ cells_ok s' ∧ store_slot s' t = None.
Proof.
  revert s. induction n as [|n IH]; intros s Hok Hn; simpl; destruct (store_slot s t) as [i|] eqn:Hs;
    try (by exists s).
  - apply store_slot_Some in Hs as (g & Hi & _). apply lookup_lt_Some in Hi. lia.
  - apply store_slot_Some in Hs as (g & Hi & _).
    destruct (drop_at_ok _ _ _ Hok Hi) as (s1 & -> & Hok1 & Hgs). simpl. apply IH; [done|].
    rewrite Hgs. apply lookup_lt_Some in Hi as Hlt. rewrite length_delete by by eexists. lia.
Qed.

Lemma hold_at_ok s i t g s' :
  cells_ok s → guards s !! i = Some (t, g) → hold_at s i = Done s' → cells_ok s'.
Proof.
  intros [Hcnt Hsl] Hi. unfold hold_at. rewrite Hi. simpl.
  assert (∀ held emptied, into_held g = Some (held, emptied) →
    guard_lock emptied = None ∧ guard_lock g = guard_lock (Stored held)) as Hheld.
  { intros held emptied. destruct g as [[] [c|]|]; simpl; try done; by intros [= <- <-]. }
  destruct (into_held g) as [[held emptied]|]; simpl; [|done].
  destruct (Hheld _ _ eq_refl) as [Hnone Hsame]. unfold drop_guard. rewrite Hnone.
  intros [= <-]. split; [|exact Hsl]. intros c. specialize (Hcnt c). unfold counted, tokens in *.
  simpl. by rewrite !(count_insert _ _ _ _ (t, g)).
Qed.

Lemma acquire_ok s t c0 l k :
  cells_ok s →
  readers l = (readers (lock_of s c0) + if k is Reading then 1 else 0)%N →
  writer l = (if k is Writing then true else writer (lock_of s c0)) →
  writer (lock_of s c0) = false → (k = Writing → readers (lock_of s c0) = 0%N) →
  cells_ok (acquire s t c0 l k).
Proof.
  intros [Hcnt Hsl] Hr Hw Hfree Hzero. unfold acquire.
  assert (∀ c, lock_of (set_phase (set_guards (set_lock s c0 l) (guards s ++ [(t, Typed k (Some c0))])) t Running) c
    = if decide (c = c0) then l else lock_of s c) as Hl.
  { intros c. apply lock_of_set. }
  split.
  - intros c. destruct (Hcnt c) as (Hcr & Hcw & Hx). unfold counted. rewrite Hl.
    unfold tokens in *. simpl. rewrite !count_app, !(one_extra k c0) by done.
    destruct (decide (c = c0)) as [->|Hne].
    + rewrite Hr, Hw, Hfree. rewrite Hfree in Hcw. destruct k.
      * rewrite extra_same, extra_kind by done. split_and!; [lia|lia|done].
      * rewrite extra_same, extra_kind by done. split_and!; [lia|lia|]. rewrite Hzero by done. lia.
    + rewrite !extra_cell, !Nat.add_0_r by done. by split_and!.
  - intros t' w. rewrite phase_of_set, Hl. case_decide; [done|]. intros Hp.
    specialize (Hsl t' w Hp). case_decide as E; [|done]. rewrite E in Hsl.
    destruct w; simpl in *; [congruence|]. unfold contended. rewrite Hw, Hr. destruct k; [|done].
    rewrite bool_decide_eq_false_2 by lia. by rewrite orb_true_r.
Qed.

Lemma set_phase_ok s t p :
  cells_ok s → (∀ w, p = Asleep w → blocks (lock_of s (want_cell w)) w = true) →
  cells_ok (set_phase s t p).
Proof.
  intros [Hcnt Hsl] Hp. split; [exact Hcnt|]. intros t' w. rewrite phase_of_set.
  change (lock_of (set_phase s t p)) with (lock_of s). case_decide; [apply Hp|apply Hsl].
Qed.

Lemma contended_false l : contended l = false → writer l = false ∧ readers l = 0%N.
Proof. unfold contended. intros [? Hz]%orb_false_iff. split; [done|]. by case_bool_decide. Qed.

Lemma cell_write_ok s t c l :
  cells_ok s → cell_write (lock_of s c) = Some l → cells_ok (acquire s t c l Writing).
Proof.
  intros Hok. unfold cell_write. destruct (contended _) eqn:Hc; [done|]. intros [= <-].
  apply contended_false in Hc as [? ?]. apply acquire_ok; simpl; [done|lia|done|done|done].
Qed.

Lemma cell_step_ok s s' : cell_step s s' → cells_ok s → cells_ok s'.
Proof.
  intros [s0 t w Hp|s0 t c l Hp Hr|s0 t c Hp Hr|s0 t c l Hp Hw|s0 t c Hp Hw|s0 t c l Hp Hw|s0 t w Hp|
    s0 t g i s1 Hp Hi Hh|s0 t Hp|s0 t g i s1 Hp Hi Hd|s0 t s1 Hp Hd|s0 t g i c v Hp Hi Hg] Hok.
  - by apply set_phase_ok.
  - unfold cell_read in Hr. destruct (writer _) eqn:Hwr; [done|].
    destruct (u64_checked_succ _) eqn:Hs; simpl in Hr; [|done]. injection Hr as <-.
    apply u64_checked_succ_Some in Hs as [-> _]. by apply acquire_ok.
  - apply set_phase_ok; [done|]. intros w [= <-]. simpl. unfold cell_read in Hr.
    destruct (writer _); [done|]. by destruct (u64_checked_succ _).
  - by apply cell_write_ok.
  - apply set_phase_ok; [done|]. intros w [= <-]. simpl. unfold cell_write in Hw.
    by destruct (contended _).
  - by apply cell_write_ok.
  - by apply set_phase_ok.
  - by eapply hold_at_ok.
  - destruct Hok as [Hcnt Hsl]. split; [|exact Hsl]. intros c. specialize (Hcnt c).
    assert (∀ k, one k c (t, Stored HeldCustom) = 0) as Ho.
    { intros k. unfold one, locks_as. by case_decide. }
    unfold counted, tokens in *. simpl. by rewrite !count_app, !Ho, !Nat.add_0_r.
  - destruct (drop_at_ok _ _ _ Hok Hi) as (s2 & Hd2 & ? & _). rewrite Hd in Hd2. by injection Hd2 as ->.
  - destruct (clear_store_ok (length (guards s0)) s0 t Hok (le_n _)) as (s2 & Hd2 & ? & _).
    rewrite Hd in Hd2. by injection Hd2 as ->.
  - exact Hok.
Qed.

Lemma reachable_cells_ok s : rtc cell_step cells_new s → cells_ok s.
Proof.
  assert (∀ s0 s1, rtc cell_step s0 s1 → cells_ok s0 → cells_ok s1) as Hrtc.
  { induction 1; [done|]. eauto using cell_step_ok. }
  intros Hs. apply (Hrtc _ _ Hs). split.
  - intros c. unfold counted, lock_of. simpl. by rewrite lookup_empty.
  - intros t w. unfold phase_of. simpl. by rewrite lookup_empty.
Qed.

(** ** Properties *)

Lemma count_pos k c gs i x : gs !! i = Some x → guard_lock x.2 = Some (k, c) → 1 ≤ count k c gs.
Proof. intros Hi Hx. rewrite (count_delete _ _ _ _ _ Hi), (one_extra k c) by done. rewrite extra_same. lia. Qed.

(** C34: in every reachable state of the cells, a guard that may write its cell
    is the only guard on it: any other live guard on the same cell, of
    whichever thread, is the very same one.  So no thread reads or writes a
    payload while another one can change it. *)
Theorem writers_are_exclusive s i j x y c k :
  rtc cell_step cells_new s →
  guards s !! i = Some x → guard_lock x.2 = Some (Writing, c) →
  guards s !! j = Some y → guard_lock y.2 = Some (k, c) →
  i = j.
Proof.
  intros Hs Hi Hx Hj Hy. destruct (reachable_cells_ok s Hs) as [Hcnt _].
  destruct (Hcnt c) as (Hr & Hw & Hz). unfold tokens in *.
  pose proof (count_pos _ _ _ _ _ Hi Hx) as Hpos.
  destruct (writer (lock_of s c)); [|lia]. specialize (Hz eq_refl).
  destruct (decide (i = j)) as [|Hne]; [done|exfalso].
  assert (guards s !! j = Some y → delete i (guards s) !! (if decide (j < i) then j else j - 1) = Some y) as Hdel.
  { intros Hj'. case_decide; [by rewrite list_lookup_delete_lt|].
    rewrite list_lookup_delete_ge by lia. by replace (S (j - 1)) with j by lia. }
  specialize (Hdel Hj). destruct k.
  - pose proof (count_pos _ _ _ _ _ Hj Hy). lia.
  - rewrite (count_delete _ _ _ _ _ Hi), (one_extra Writing c), extra_same in Hw by done.
    pose proof (count_pos _ _ _ _ _ Hdel Hy). lia.
Qed.

(** C35: no lost wake-up.  A thread that sleeps on a cell sleeps because some
    live guard still locks it; a thread that wants to read sleeps only behind
    a writer.  The last release that could let it in has woken it. *)
Theorem no_lost_wakeup s t w :
  rtc cell_step cells_new s → phase_of s t = Asleep w →
  ∃ i x k, guards s !! i = Some x ∧ guard_lock x.2 = Some (k, want_cell w) ∧
    (∀ c, w = WantRead c → k = Writing).
Proof.
  intros Hs Hp. destruct (reachable_cells_ok s Hs) as [Hcnt Hsl].
  specialize (Hsl t w Hp). destruct (Hcnt (want_cell w)) as (Hr & Hw & Hz). unfold tokens in *.
  assert (∀ k c, 1 ≤ count k c (guards s) → ∃ i x, guards s !! i = Some x ∧ guard_lock x.2 = Some (k, c)) as Hex.
  { intros k c. unfold count. destruct (filter (locks_as k c) (guards s)) as [|x l] eqn:Hf; simpl; [lia|].
    intros _. assert (x ∈ filter (locks_as k c) (guards s)) as [Hx Hin]%list_elem_of_filter.
    { rewrite Hf. by left. }
    apply list_elem_of_lookup in Hin as [i Hi]. by exists i, x. }
  assert (writer (lock_of s (want_cell w)) = true → ∃ i x, guards s !! i = Some x ∧
    guard_lock x.2 = Some (Writing, want_cell w)) as Hwr.
  { intros Ht. apply Hex. rewrite Ht in Hw. lia. }
  destruct w as [c|c]; simpl in *.
  - destruct (Hwr Hsl) as (i & x & Hi & Hx). by exists i, x, Writing.
  - unfold contended in Hsl. apply orb_true_iff in Hsl as [Ht|Hn].
    + destruct (Hwr Ht) as (i & x & Hi & Hx). by exists i, x, Writing.
    + apply negb_true_iff, bool_decide_eq_false in Hn.
      destruct (Hex Reading c) as (i & x & Hi & Hx); [lia|]. by exists i, x, Reading.
Qed.

(** Releasing never fails.  In every reachable state any guard can be
    dropped, and clearing a thread's guard store drops all of its tokens. *)
Theorem releases_never_fail s :
  rtc cell_step cells_new s →
  (∀ i x, guards s !! i = Some x → is_done (drop_at s i) = true) ∧
  (∀ t, ∃ s', clear_store (length (guards s)) s t = Done s' ∧ store_slot s' t = None).
Proof.
  intros Hs. pose proof (reachable_cells_ok s Hs) as Hok. split.
  - intros i x Hi. destruct (drop_at_ok _ _ _ Hok Hi) as (s' & -> & _). done.
  - intros t. destruct (clear_store_ok _ s t Hok (le_n _)) as (s' & Hd & _ & Hn). by exists s'.
Qed.

End cells.

(** ** A concrete run *)

(** Thread 0 reads cell 4; thread 1 wants to write it and sleeps. *)
Definition demo_read : Cells nat := acquire (set_phase cells_new 0 (Entering (WantRead 4))) 0 4 (MkLock 1 false) Reading.
Definition demo_entering : Cells nat := set_phase demo_read 1 (Entering (WantWrite 4)).
Definition demo_asleep : Cells nat := set_phase demo_entering 1 (Asleep (WantWrite 4)).
(** A thread alone takes the writer slot of cell 4 and stores the token. *)
Definition demo_written : Cells nat := acquire cells_new 0 4 (MkLock 0 true) Writing.

Lemma demo_asleep_run : rtc cell_step cells_new demo_asleep.
Proof.
  eapply rtc_l; [by apply (cs_enter _ 0 (WantRead 4))|].
  eapply rtc_l; [by apply (cs_read _ 0 4 (MkLock 1 false))|].
  eapply rtc_l; [by apply (cs_enter _ 1 (WantWrite 4))|].
  apply rtc_once. by apply (cs_write_wait _ 1 4).
Qed.

Lemma demo_written_run : rtc cell_step cells_new demo_written.
Proof. apply rtc_once. by apply (cs_try_write _ 0 4). Qed.

Lemma writers_are_exclusive_witness :
  guards demo_written !! 0 = Some (0, Typed Writing (Some 4)) ∧
  ∀ j y k, guards demo_written !! j = Some y → guard_lock y.2 = Some (k, 4) → 0 = j.
Proof.
  split; [reflexivity|]. intros j y k.
  apply (writers_are_exclusive demo_written 0 j (0, Typed Writing (Some 4)) y 4 k demo_written_run);
    reflexivity.
Defined.

Lemma no_lost_wakeup_witness :
  ∃ i x k, guards demo_asleep !! i = Some x ∧ guard_lock x.2 = Some (k, 4) ∧
    (∀ c, WantWrite 4 = WantRead c → k = Writing).
Proof. apply (no_lost_wakeup demo_asleep 1 (WantWrite 4) demo_asleep_run). reflexivity. Defined.

Lemma releases_never_fail_witness :
  (∀ i x, guards demo_asleep !! i = Some x → is_done (drop_at demo_asleep i) = true) ∧
  (∀ t, ∃ s', clear_store (length (guards demo_asleep)) demo_asleep t = Done s' ∧ store_slot s' t = None).
Proof. apply (releases_never_fail demo_asleep demo_asleep_run). Defined.
