(* ===== verification/Frame.v ===== *)
(** * What the operations of the world leave alone ([world.rs])

    Inserting and removing rows hands out no entity id, records no spawn and
    starts no epoch of the write log: only the allocator, the commit of an
    invocation's spawns and a generation boundary do. *)
From stdpp Require Import base numbers sets gmap fin_maps list.
From S2P Require Import Prelude Components Demo Stores Presence World WorldInv Ownership WorldOps.

Section frame.
Context `{ComponentTypes} `{HashOrder}.
Implicit Types (w : World).

(** ** What the operations leave alone *)

Record engine_kept (w w' : World) : Prop := {
  sk_next : next_entity (shared w') = next_entity (shared w);
  sk_spawns : derived_spawns (shared w') = derived_spawns (shared w);
  sk_cursors : spawn_cursors w' = spawn_cursors w;
  sk_epoch : plan_epoch w' = plan_epoch w;
}.

#[export] Instance engine_kept_preorder : PreOrder engine_kept.
Proof. split; [done|]. intros w1 w2 w3 [] []. split; congruence. Qed.

(** Row writes and removals keep the queue of unresolved anchors as well. *)
Record fields_kept (w w' : World) : Prop := {
  fk_engine : engine_kept w w';
  fk_pending : pending_derived_from w' = pending_derived_from w;
  fk_flushing : flushing_anchors w' = flushing_anchors w;
}.

#[export] Instance fields_kept_preorder : PreOrder fields_kept.
Proof. split; [done|]. intros w1 w2 w3 [] []. split; [by etrans|congruence..]. Qed.

Record ops_keep (ops : RelOps) : Prop := {
  ok_add inv s t w w' : rel_add ops inv s t w = Done w' → fields_kept w w';
  ok_remove inv s t w w' : rel_remove ops inv s t w = Done w' → fields_kept w w';
}.

Lemma fold_kept {A} (f : World → A → result World) l w w' :
  (∀ w a w', f w a = Done w' → engine_kept w w') → fold_result f w l = Done w' → engine_kept w w'.
Proof.
  intros Hf. apply (fold_result_inv (λ w1, engine_kept w w1)); [|done].
  intros w1 a w2 _ H1 H2. etrans; [exact H1|by eapply Hf].
Qed.

Lemma insert_row_kept w e ty v owner w' pe :
  insert_row w e ty v owner = Done (w', pe) → fields_kept w w'.
Proof.
  intros (sm & mu & wd & pr & dm & rv & r & _ & _ & -> & _)%insert_row_tower. by split.
Qed.

Lemma bump_removal_kept w ty w' : bump_removal w ty = Done w' → fields_kept w w'.
Proof.
  unfold bump_removal. intros (w1 & [m ->]%bump_mutations_frame & Hr)%bind_Done.
  apply bind_Done in Hr as (w2 & ->%bump_revision_frame & [= <-]). by destruct (store_of _ ty).
Qed.

Lemma remove_row_kept w ty e remover w' out :
  remove_row w ty e remover = Done (w', out) → fields_kept w w'.
Proof.
  unfold remove_row. destruct (store_of w ty) as [s|]; [|by intros [= <- <-]].
  destruct (entries s !! e) as [removed|]; [|by intros [= <- <-]].
  intros (w1 & H1 & Hr)%bind_Done. apply bind_Done in Hr as (w2 & Hb & [= <- <-]).
  unfold drop_entry in H1. apply bind_Done in H1 as (w0 & [pr ->]%world_presence_set_frame & [= <-]).
  apply bump_removal_kept in Hb.
  destruct (release_singleton_frame (remove_owner w2 ty e (entry_owner removed) remover) ty e) as [m ->].
  assert (fields_kept w2 (remove_owner w2 ty e (entry_owner removed) remover)) as Hk.
  { unfold remove_owner. destruct (entry_owner removed) as [o|]; [|done].
    destruct (unindex_derived_frame w2 o ty e) as [dm ->]. by case_bool_decide. }
  destruct Hb as [[] ? ?], Hk as [[] ? ?]. split; [split|..]; simpl in *; congruence.
Qed.

Lemma sweep_row_kept w ty e owner w' out :
  sweep_row w ty e owner = Done (w', out) → fields_kept w w'.
Proof.
  unfold sweep_row. destruct (store_of w ty) as [s|]; [|by intros [= <- <-]].
  destruct (remove_entry_owned s ty e owner) as [s1 [b|]]; [|by intros [= <- <-]].
  intros (w1 & [pr ->]%world_presence_set_frame & Hr)%bind_Done.
  apply bind_Done in Hr as (w2 & Hb%bump_removal_kept & [= <- <-]). destruct Hb as [[] ? ?]. by split.
Qed.

Lemma remove_edge_kept ops w e edge w' :
  ops_keep ops → remove_edge ops w e edge = Done w' → fields_kept w w'.
Proof. intros Hops. destruct edge as [[inv t]|]; simpl; [apply Hops|by intros [= <-]]. Qed.

Lemma insert_value_kept ops w e ty v owner w' :
  ops_keep ops → insert_value ops w e ty v owner = Done w' → fields_kept w w'.
Proof.
  intros Hops ([w1 pe] & H1%insert_row_kept & Hm)%bind_Done. etrans; [exact H1|].
  unfold maintain_edges in Hm. case_bool_decide; [|by injection Hm as <-].
  apply bind_Done in Hm as (w2 & Ha & Hb). etrans.
  - destruct pe as [[inv t]|]; [by eapply (ok_remove _ Hops)|by injection Ha as <-].
  - destruct (value_edge ty v) as [[inv t]|]; [by eapply (ok_add _ Hops)|by injection Hb as <-].
Qed.

Lemma insert_with_kept ops w e ty v owner w' :
  ops_keep ops → insert_with ops w e ty v owner = Done w' → engine_kept w w'.
Proof.
  intros Hops. unfold insert_with.
  destruct v; [|destruct (flushing_anchors w); [|by intros [= <-]]]; intros Hi%insert_value_kept; try done; apply Hi.
Qed.

Lemma remove_component_with_kept ops w ty e remover w' out :
  ops_keep ops → remove_component_with ops w ty e remover = Done (w', out) → fields_kept w w'.
Proof.
  intros Hops ([w1 o] & H1%remove_row_kept & Hr)%bind_Done. etrans; [exact H1|].
  destruct o as [[c edge]|]; [|by injection Hr as <- <-].
  apply bind_Done in Hr as (w2 & H2 & [= <- <-]). by eapply remove_edge_kept.
Qed.

Lemma relops_keep n : ops_keep (relops n).
Proof.
  induction n as [|n IH]; [by split|]. split; intros inv s t w w'; simpl.
  - unfold relationship_add_member_with. destruct (binary_search _ _); [by intros [= <-]|].
    by apply insert_value_kept.
  - unfold relationship_remove_member_with. destruct (v ← _; _) as [ms|]; [|by intros [= <-]].
    destruct (binary_search ms s); [|by intros [= <-]]. case_bool_decide; [|by apply insert_value_kept].
    intros ([w1 o] & Hr & [= <-])%bind_Done. by eapply remove_component_with_kept.
Qed.

Lemma insert_kept w e ty v owner w' : insert w e ty v owner = Done w' → engine_kept w w'.
Proof. apply insert_with_kept, relops_keep. Qed.

Lemma remove_component_kept w ty e remover w' out :
  remove_component w ty e remover = Done (w', out) → engine_kept w w'.
Proof. intros Hr%remove_component_with_kept; [apply Hr|apply relops_keep]. Qed.

Lemma remove_derived_entry_kept w ty e owner w' b :
  remove_derived_entry w ty e owner = Done (w', b) → engine_kept w w'.
Proof.
  intros ([w1 o] & [H1 _ _]%sweep_row_kept & Hr)%bind_Done. etrans; [exact H1|].
  destruct o as [edge|]; [|by injection Hr as <- <-].
  apply bind_Done in Hr as (w2 & H2 & [= <- <-]). apply remove_edge_kept in H2; [apply H2|apply relops_keep].
Qed.

Lemma remove_derived_stale_kept w owner previous w' :
  remove_derived_stale w owner previous = Done w' → engine_kept w w'.
Proof.
  apply fold_kept. intros w1 [ty e] w2. case_bool_decide; [by intros [= <-]|].
  intros ([w3 b] & Hr & [= <-])%bind_Done. by eapply remove_derived_entry_kept.
Qed.

Lemma flush_derived_from_kept w w' : flush_derived_from w = Done w' → engine_kept w w'.
Proof.
  unfold flush_derived_from. case_bool_decide; [by intros [= <-]|].
  intros (w1 & Hf & [= <-])%bind_Done.
  transitivity w1; [|by split]. transitivity (set_flushing_anchors true (set_pending_derived_from [] w));
    [by split|]. revert Hf. apply fold_kept. intros w2 [[e anchors] o] w3. apply insert_kept.
Qed.

Lemma remove_rows_kept w e w' owners : remove_rows w e = Done (w', owners) → engine_kept w w'.
Proof.
  unfold remove_rows. intros ([[w1 types] un] & H1 & Hr)%bind_Done.
  apply bind_Done in Hr as (w2 & Hc & [= <- <-]).
  assert (∀ st st', fold_result (remove_from_store e) st (stores_iter (stores w)) = Done st' →
    engine_kept w st.1.1 → engine_kept w st'.1.1) as Hloop.
  { intros st st' Hf Hst. revert Hst Hf. apply (fold_result_inv (λ st, engine_kept w st.1.1)).
    intros [[wa ta] ua] [ty s] st2 _ Hk. simpl. intros ([[s2 r] o] & _ & Hx)%bind_Done.
    destruct o as [o|]; [|by injection Hx as <-].
    apply bind_Done in Hx as (w3 & [m ->]%bump_mutations_frame & [= <-]). by destruct Hk. }
  specialize (Hloop _ _ H1 ltac:(done)). simpl in Hloop.
  assert (∀ l wa, engine_kept w wa → engine_kept w (fold_left (λ w ty, log_write w ty e) l wa)) as Hlog.
  { induction l as [|ty l IH]; intros wa Hk; simpl; [done|]. apply IH. by destruct Hk. }
  assert (∀ l wa, engine_kept w wa →
    engine_kept w (fold_left (λ w '(o, ty), unindex_derived w o ty e) l wa)) as Hun.
  { induction l as [|[o ty] l IH]; intros wa Hk; simpl; [done|]. apply IH.
    destruct (unindex_derived_frame wa o ty e) as [m ->]. by destruct Hk. }
  specialize (Hun un _ (Hlog types _ Hloop)).
  unfold world_presence_clear in Hc.
  match type of Hc with context [presence ?x] => set (w4 := x) in Hc end.
  assert (engine_kept w w4) as H4 by (destruct Hun; by split).
  destruct (presence w4); [|by injection Hc as <-].
  inv_done. by destruct H4.
Qed.

Lemma remove_entity_kept w e w' owners : remove_entity w e = Done (w', owners) → engine_kept w w'.
Proof.
  unfold remove_entity. destruct (relationship_ops w e) as [edges retractions].
  intros ([w1 os] & H1%remove_rows_kept & Hr)%bind_Done.
  apply bind_Done in Hr as (w2 & H2 & Hr). apply bind_Done in Hr as (w3 & H3 & [= <- <-]).
  transitivity w1; [done|]. transitivity w2; [|transitivity w3; [|by split]].
  - revert H2. apply fold_kept. intros wa [inv t] wb Hr. apply (ok_remove _ (relops_keep relation_depth) _ _ _ _ _ Hr).
  - revert H3. apply fold_kept. intros wa [ty s] wb ([wc o] & Hc & [= <-])%bind_Done.
    by eapply remove_component_kept.
Qed.

(** ** Steps of the world *)

Lemma reconcile_written_kept w writes w' : reconcile_written w writes = Done w' → engine_kept w w'.
Proof.
  apply fold_kept. intros w1 [ty e] w2. unfold reconcile_row. destruct (store_of w1 ty) as [s|]; [|by intros [= <-]].
  intros ([s' r] & _ & [= <-])%bind_Done. by split.
Qed.

Lemma update_component_live_kept {R} w ty e (f : Value → Value * R) w' out :
  update_component_live w ty e f = Done (w', out) → engine_kept w w'.
Proof.
  unfold update_component_live. intros (r & _ & Hr)%bind_Done. destruct (store_of w ty) as [s|]; [|by injection Hr as <- <-].
  destruct (entries s !! e) as [entry|]; [|by injection Hr as <- <-].
  destruct (cell_get w (entry_value entry)) as [v|]; [|by injection Hr as <- <-].
  destruct (f v) as [v' o]. injection Hr as <- <-. destruct (write_changed _ _ _); by split.
Qed.

Lemma try_update_component_live_kept {R} w ty e held (f : Value → Value * R) w' out :
  try_update_component_live w ty e held f = Done (w', out) → engine_kept w w'.
Proof.
  unfold try_update_component_live. destruct (row w ty e) as [entry|].
  - destruct (held _).
    + by intros (r & _ & [= <- <-])%bind_Done.
    + intros ([w1 o] & Hu & [= <- <-])%bind_Done. by eapply update_component_live_kept.
  - by intros (r & _ & [= <- <-])%bind_Done.
Qed.

(** Only a generation boundary starts an epoch of the write log. *)
Lemma apply_step_epoch w w' : apply_step w w' → plan_epoch w' = plan_epoch w.
Proof.
  destruct 1 as [w e ty v owner w' Hr|w ty e remover w' out Hr|w e w' owners Hr|w writes w' Hr|
    R w ty e f w' out Hr|R w ty e held f w' out Hr|w c v Hc|w w' Hr|w|w o e|w o|w key|w key e|w|w|w|w];
    try done.
  - by apply insert_kept, sk_epoch in Hr.
  - by apply remove_component_kept, sk_epoch in Hr.
  - by apply remove_entity_kept, sk_epoch in Hr.
  - by apply reconcile_written_kept, sk_epoch in Hr.
  - by apply update_component_live_kept, sk_epoch in Hr.
  - by apply try_update_component_live_kept, sk_epoch in Hr.
  - by apply flush_derived_from_kept, sk_epoch in Hr.
  - unfold finish_derived_spawns. repeat case_match; done.
  - unfold singleton_entity_or_spawn. by case_match.
  - unfold singleton_entity_or_register. by case_match.
Qed.

Lemma remove_derived_owned_epoch w o w' :
  remove_derived_owned w o = Done w' → plan_epoch w' = plan_epoch w.
Proof.
  unfold remove_derived_owned. destruct (derived_owners _ !! o) as [outputs|]; [|by intros [= <-]].
  intros Hf. apply fold_kept in Hf; [by apply sk_epoch in Hf|]. intros w1 [ty e] w2.
  intros ([w3 b] & Hr & [= <-])%bind_Done. by eapply remove_derived_entry_kept.
Qed.

Lemma touched_epoch w keyset systems w' removed :
  remove_derived_touched_by_systems w keyset systems = Done (w', removed) → plan_epoch w' = plan_epoch w.
Proof.
  assert (∀ o l w1 rem1 w2 rem2, fold_result (sweep_output o) (w1, rem1) l = Done (w2, rem2) →
    plan_epoch w2 = plan_epoch w1) as Hout.
  { intros o l w1 rem1 w2 rem2 Hf.
    apply (fold_result_inv (λ st, plan_epoch st.1 = plan_epoch w1)) in Hf; [done| |done].
    intros [wa ra] [ty e] [wb rb] _ Ha. simpl. intros ([wc b] & Hr & [= <- <-])%bind_Done.
    apply remove_derived_entry_kept, sk_epoch in Hr. simpl in *. congruence. }
  unfold remove_derived_touched_by_systems. intros Hf.
  apply (fold_result_inv (λ st, plan_epoch st.1 = plan_epoch w)) in Hf; [done| |done].
  intros [wa ra] o [wb rb] _ Ha. simpl. destruct (derived_owners _ !! o) as [outputs|]; [|by intros [= <- <-]].
  intros Hr%Hout. simpl in *. congruence.
Qed.

Lemma world_step_epoch X w X' w' : world_step (X, w) (X', w') → plan_epoch w' = plan_epoch w.
Proof.
  intros Hstep. inversion Hstep; subst.
  - by apply apply_step_epoch.
  - match goal with Ht : take_derived_outputs _ _ = _ |- _ => by injection Ht as <- <- end.
  - match goal with Hr : remove_derived_stale _ _ _ = _ |- _ => by apply remove_derived_stale_kept, sk_epoch in Hr end.
  - match goal with Hr : remove_derived_owned _ _ = _ |- _ => by apply remove_derived_owned_epoch in Hr end.
  - match goal with Hr : remove_derived_touched_by_systems _ _ _ = _ |- _ => by apply touched_epoch in Hr end.
Qed.

Lemma world_steps_epoch c c' : rtc world_step c c' → plan_epoch c'.2 = plan_epoch c.2.
Proof.
  induction 1 as [|[X w] [X1 w1] c' Hs _ IH]; [done|]. rewrite IH. by eapply world_step_epoch.
Qed.
(** The progress of a world whose rows did not change. *)
Lemma progressed_frame w w' :
  stores w' = stores w → revision w' = revision w → shared w' = shared w → progressed w w'.
Proof.
  intros Hst Hr Hsh. assert (∀ ty e, row w' ty e = row w ty e) as Hrow by (intros; by apply frame_row).
  assert (∀ ty e, row_revision w' ty e = row_revision w ty e) as Hrr by (intros; by rewrite !row_revision_row, Hrow).
  assert (∀ ty, store_watermark w' ty = store_watermark w ty) as Hwm
    by (intros; unfold store_watermark, store_of; by rewrite Hst).
  assert (∀ ty e, row_fingerprint w' ty e = row_fingerprint w ty e) as Hf
    by (intros; unfold row_fingerprint; by rewrite Hrow).
  split.
  - by rewrite Hr.
  - intros ty e r. rewrite Hrr, Hrow, Hf. right. done.
  - intros ty e Hne. by rewrite Hrr in Hne.
  - intros ty. by rewrite Hwm.
  - intros ty Hne. by rewrite Hwm in Hne.
  - apply placed_same; [done|]. by rewrite Hsh.
Qed.

Lemma maybe_roll_shared w w' rolled : maybe_roll_plan_epoch w = Done (w', rolled) → shared w' = shared w.
Proof. unfold maybe_roll_plan_epoch. case_bool_decide; [by intros [= <- _]|]. by intros (? & _ & [= <- _])%bind_Done. Qed.

End frame.
