(* ===== verification/Commands.v ===== *)
(** * Commands and their arena ([commands.rs], [commands/arena.rs], the bundles of [bowl.rs])

    Systems and callers write into buffers; the runner applies a buffer at a
    commit.  A buffer reserves spawn ids from the invocation's previous spawns
    first, and from the shared allocator after.  Its operations live in a
    queue with a consumption cursor, which recycles its storage through a
    pool.  The theorems: draining a queue is the plain left-to-right loop over
    its operations and leaves it empty, on a panic too; a pooled storage never
    carries an operation into its next use; reservation hands out the previous
    ids slot by slot. *)
From stdpp Require Import base numbers sets gmap fin_maps list.
From S2P Require Import Prelude Components Demo Stores Presence World WorldInv Ownership WorldOps Frame.

Section commands.
Context `{ComponentTypes} `{HashOrder}.
Implicit Types (w : World).

(** ** Bundles *)

(** A tuple of components. *)
Abbreviation Bundle := (list (TypeId * Value)) (only parsing).

Definition collect_singleton_key (key : option TypeId) (ty : TypeId) : result (option TypeId) :=
  match value_singleton_key ty with
  | None => Done key
  | Some next_key => match key with Some _ => Panic SingletonClash | None => Done (Some next_key) end
  end.

Definition bundle_singleton_key (b : Bundle) : result (option TypeId) :=
  fold_result collect_singleton_key None b.*1.

Definition bundle_insert_derived (w : World) (e : Entity) (owner : SystemInvocation) (b : Bundle)
    : result World :=
  fold_result (λ w '(ty, v), insert_derived w e ty v owner) w b.

(** ** Operations *)

Inductive CommandOp :=
  | InsertCommand (e : Entity) (ty : TypeId) (v : Value)
  | SpawnCommand (bundle : Bundle) (reserved : Entity)
  | RemoveEntityCommand (e : Entity)
  | RemoveComponentCommand (e : Entity) (ty : TypeId).

Inductive BaseCommandOp :=
  | InsertBaseCommand (e : Entity) (ty : TypeId) (v : Value)
  | RemoveComponentBaseCommand (e : Entity) (ty : TypeId)
  | DespawnBaseCommand (e : Entity).

Definition command_apply (w : World) (c : CommandOp) (owner : SystemInvocation) : result World :=
  match c with
  | InsertCommand e ty v => insert_derived w e ty v owner
  | SpawnCommand bundle reserved =>
      key ← bundle_singleton_key bundle;
      let '(w, e) :=
        match key with
        | Some key => singleton_entity_or_register w key reserved
        | None => (w, reserved)
        end in
      bundle_insert_derived (record_derived_spawn w owner e) e owner bundle
  | RemoveEntityCommand e => '(w, _) ← remove_entity w e; Done w
  | RemoveComponentCommand e ty => '(w, _) ← remove_component w ty e (Some owner); Done w
  end.

Definition defers_at_settle (c : CommandOp) : bool :=
  match c with InsertCommand _ _ _ | SpawnCommand _ _ => true | _ => false end.

Definition base_command_apply (w : World) (c : BaseCommandOp) : result World :=
  match c with
  | InsertBaseCommand e ty v => insert_base w e ty v
  | RemoveComponentBaseCommand e ty => '(w, _) ← remove_component w ty e None; Done w
  | DespawnBaseCommand e => '(w, _) ← remove_entity w e; Done w
  end.

(** [Derived<C>] and [Base<C>]. *)
Inductive Operation := DerivedOp (c : CommandOp) | BaseOp (c : BaseCommandOp).

Definition operation_apply (w : World) (owner : option SystemInvocation) (op : Operation)
    : result World :=
  match op with
  | DerivedOp c => owner ← expect OwnerMissing owner; command_apply w c owner
  | BaseOp c => base_command_apply w c
  end.

Definition operation_deferred (op : Operation) : bool :=
  match op with DerivedOp c => defers_at_settle c | BaseOp _ => false end.

(** ** Queues *)

Record Entry := MkQueueEntry { entry_op : Operation; entry_deferred : bool }.

(** A storage keeps the entries pushed since it was last cleared and the
    cursor up to which they were consumed.  It may keep a retired producer,
    whose buffer holds a queue of its own. *)
Inductive Storage := MkStorage (q_entries : list Entry) (q_cursor : nat) (q_producer : option CommandBuffer)
with CommandQueue := MkQueue (q_storage : option Storage) (q_returns : bool)
with CommandBuffer := MkBuffer (b_ops : CommandQueue) (b_slots : list Entity) (b_cursor : nat).

Definition storage_entries (s : Storage) : list Entry := let 'MkStorage es _ _ := s in es.
Definition storage_cursor (s : Storage) : nat := let 'MkStorage _ c _ := s in c.
Definition storage_producer (s : Storage) : option CommandBuffer := let 'MkStorage _ _ p := s in p.
Definition queue_storage (q : CommandQueue) : option Storage := let 'MkQueue s _ := q in s.
Definition queue_returns (q : CommandQueue) : bool := let 'MkQueue _ r := q in r.
Definition buffer_ops (b : CommandBuffer) : CommandQueue := let 'MkBuffer q _ _ := b in q.
Definition buffer_slots (b : CommandBuffer) : list Entity := let 'MkBuffer _ l _ := b in l.
Definition buffer_cursor (b : CommandBuffer) : nat := let 'MkBuffer _ _ n := b in n.

Definition storage_default : Storage := MkStorage [] 0 None.
Definition queue_default : CommandQueue := MkQueue None false.

(** [Storage::consume]: the entry leaves the queue before it acts. *)
Definition consume (s : Storage) : option (Entry * Storage) :=
  entry ← storage_entries s !! storage_cursor s;
  Some (entry, MkStorage (storage_entries s) (S (storage_cursor s)) (storage_producer s)).

(** [Storage::clear]: the rest is discarded, the capacity stays. *)
Fixpoint discard (n : nat) (s : Storage) : Storage :=
  match n with
  | 0 => s
  | S n => match consume s with Some (_, s) => discard n s | None => s end
  end.

Definition storage_remaining (s : Storage) : nat := length (storage_entries s) - storage_cursor s.

Definition storage_clear (s : Storage) : Storage :=
  let s := discard (storage_remaining s) s in MkStorage [] 0 (storage_producer s).

Definition get_storage (q : CommandQueue) : Storage := default storage_default (queue_storage q).

Definition push_operation (q : CommandQueue) (op : Operation) : CommandQueue :=
  let s := get_storage q in
  MkQueue (Some (MkStorage (storage_entries s ++ [MkQueueEntry op (operation_deferred op)])
                   (storage_cursor s) (storage_producer s))) (queue_returns q).

Definition queue_push (q : CommandQueue) (c : CommandOp) : CommandQueue := push_operation q (DerivedOp c).
Definition base_push (q : CommandQueue) (c : BaseCommandOp) : CommandQueue := push_operation q (BaseOp c).

Definition queue_len (q : CommandQueue) : nat :=
  match queue_storage q with None => 0 | Some s => length (storage_entries s) - storage_cursor s end.
Definition queue_is_empty (q : CommandQueue) : bool := queue_len q =? 0.

(** The two consuming loops, over a storage they borrow; the storage they
    return is the one [Drain] then clears, whether or not the loop finished. *)
Fixpoint move_loop (n : nat) (s : Storage) (target : CommandQueue) : CommandQueue :=
  match n with
  | 0 => target
  | S n =>
      match consume s with
      | None => target
      | Some (entry, s) => move_loop n s (push_operation target (entry_op entry))
      end
  end.

Definition queue_append (q other : CommandQueue) : CommandQueue * CommandQueue :=
  match queue_storage other with
  | None => (q, other)
  | Some s => (move_loop (storage_remaining s) s q,
               MkQueue (Some (storage_clear s)) (queue_returns other))
  end.

Fixpoint apply_loop (n : nat) (s : Storage) (w : World) (owner : option SystemInvocation)
    (deferred : option CommandQueue) : result World * option CommandQueue :=
  match n with
  | 0 => (Done w, deferred)
  | S n =>
      match consume s with
      | None => (Done w, deferred)
      | Some (entry, s) =>
          match (if entry_deferred entry then deferred else None) with
          | Some target => apply_loop n s w owner (Some (push_operation target (entry_op entry)))
          | None =>
              match operation_apply w owner (entry_op entry) with
              | Panic f => (Panic f, deferred)
              | Done w => apply_loop n s w owner deferred
              end
          end
      end
  end.

(** [apply_or_defer]: the drained queue, the world or the panic, and the
    queue that received the deferred operations. *)
Definition apply_or_defer (q : CommandQueue) (w : World) (owner : option SystemInvocation)
    (deferred : option CommandQueue) : CommandQueue * result World * option CommandQueue :=
  match queue_storage q with
  | None => (q, Done w, deferred)
  | Some s =>
      let '(r, deferred) := apply_loop (storage_remaining s) s w owner deferred in
      (MkQueue (Some (storage_clear s)) (queue_returns q), r, deferred)
  end.

Definition queue_apply (q : CommandQueue) (w : World) (owner : option SystemInvocation)
    : CommandQueue * result World :=
  (apply_or_defer q w owner None).1.

Definition bundle_queue (b : Bundle) (e : Entity) (q : CommandQueue) : CommandQueue :=
  foldl (λ q '(ty, v), base_push q (InsertBaseCommand e ty v)) q b.

(** ** The pool *)

(** [free] storages, and those sent back over the channel. *)
Record Pool := MkPool { pool_free : list Storage; pool_returned : list Storage }.

(** [Drop for CommandQueue]. *)
Definition queue_drop (p : Pool) (q : CommandQueue) : Pool :=
  match queue_storage q with
  | None => p
  | Some s =>
      if queue_returns q
      then MkPool (pool_free p) (pool_returned p ++ [storage_clear s]) else p
  end.

Definition pool_take (p : Pool) : Pool * CommandQueue :=
  let free := pool_free p ++ pool_returned p in
  (MkPool (take (length free - 1) free) [], MkQueue (last free) true).

(** ** Buffers *)

Definition take_producer (q : CommandQueue) : CommandQueue * option CommandBuffer :=
  match queue_storage q with
  | None => (q, None)
  | Some s => (MkQueue (Some (MkStorage (storage_entries s) (storage_cursor s) None)) (queue_returns q),
               storage_producer s)
  end.

Definition recycle_producer (q : CommandQueue) (producer : CommandBuffer) : CommandQueue :=
  if queue_returns q
  then let s := get_storage q in
       MkQueue (Some (MkStorage (storage_entries s) (storage_cursor s) (Some producer))) (queue_returns q)
  else q.

(** [Commands::with_queue]: a retired producer is refilled field by field. *)
Definition with_queue (spawn_slots : list Entity) (ops : CommandQueue) : CommandBuffer :=
  let '(ops, producer) := take_producer ops in
  match producer with
  | Some _ => MkBuffer ops spawn_slots 0
  | None => MkBuffer ops spawn_slots 0
  end.

Definition commands_new (spawn_slots : list Entity) : CommandBuffer := with_queue spawn_slots queue_default.

(** [Commands::insert]: the reserved id; [allocator] is the shared counter. *)
Definition commands_insert (b : CommandBuffer) (allocator : Entity) (bundle : Bundle)
    : CommandBuffer * Entity * Entity :=
  let '(allocator, reserved) :=
    match buffer_slots b !! buffer_cursor b with
    | Some e => (allocator, e)
    | None => (((allocator + 1) mod 2 ^ 64)%N, allocator)
    end in
  (MkBuffer (queue_push (buffer_ops b) (SpawnCommand bundle reserved)) (buffer_slots b)
     (S (buffer_cursor b)), allocator, reserved).

Definition commands_push (b : CommandBuffer) (c : CommandOp) : CommandBuffer :=
  MkBuffer (queue_push (buffer_ops b) c) (buffer_slots b) (buffer_cursor b).

Definition commands_remove (b : CommandBuffer) (e : Entity) : CommandBuffer :=
  commands_push b (RemoveEntityCommand e).
Definition entity_commands_insert (b : CommandBuffer) (e : Entity) (ty : TypeId) (v : Value) : CommandBuffer :=
  commands_push b (InsertCommand e ty v).
Definition entity_commands_remove (b : CommandBuffer) (e : Entity) (ty : TypeId) : CommandBuffer :=
  commands_push b (RemoveComponentCommand e ty).

(** [Commands::take]: the queue; with a unique handle the emptied buffer is
    retired into it. *)
Definition commands_take (unique : bool) (b : CommandBuffer) : CommandQueue :=
  let retired := MkBuffer queue_default (buffer_slots b) (buffer_cursor b) in
  if unique then recycle_producer (buffer_ops b) retired else buffer_ops b.

(** ** Queues as lists of operations *)

(** The operations still to consume, oldest first. *)
Definition storage_pending (s : Storage) : list Operation :=
  entry_op <$> drop (storage_cursor s) (storage_entries s).
Definition pending (q : CommandQueue) : list Operation :=
  match queue_storage q with None => [] | Some s => storage_pending s end.

Definition entries_ok (l : list Entry) : Prop :=
  Forall (λ e, entry_deferred e = operation_deferred (entry_op e)) l.
(** A retired producer holds no queue of its own. *)
Definition storage_ok (s : Storage) : Prop :=
  entries_ok (storage_entries s) ∧ storage_cursor s ≤ length (storage_entries s) ∧
  ∀ b, storage_producer s = Some b → buffer_ops b = queue_default.
Definition queue_ok (q : CommandQueue) : Prop := ∀ s, queue_storage q = Some s → storage_ok s.

Lemma queue_default_ok : queue_ok queue_default.
Proof. by intros s. Qed.

Lemma get_storage_ok q : queue_ok q → storage_ok (get_storage q).
Proof.
  unfold queue_ok, get_storage. destruct (queue_storage q); simpl; [eauto|].
  intros _. split_and!; [by constructor|simpl; lia|done].
Qed.

Lemma pending_get_storage q : pending q = storage_pending (get_storage q).
Proof. unfold pending, get_storage. by destruct (queue_storage q). Qed.

Lemma push_operation_spec q op :
  queue_ok q → queue_ok (push_operation q op) ∧ pending (push_operation q op) = pending q ++ [op].
Proof.
  intros Hq. apply get_storage_ok in Hq as (Hes & Hc & Hp). split.
  - intros s [= <-]. split_and!; simpl; [|rewrite length_app; simpl; lia|done].
    apply Forall_app. split; [done|]. by constructor.
  - rewrite pending_get_storage, (pending_get_storage q). unfold push_operation. simpl.
    unfold storage_pending. simpl. rewrite drop_app_le by done. by rewrite fmap_app.
Qed.

Lemma storage_remaining_pending s : storage_remaining s = length (storage_pending s).
Proof. unfold storage_remaining, storage_pending. by rewrite length_fmap, length_drop. Qed.

Lemma consume_spec s :
  storage_ok s →
  match storage_pending s with
  | [] => consume s = None
  | op :: ops => ∃ entry s', consume s = Some (entry, s') ∧ entry_op entry = op ∧
      entry_deferred entry = operation_deferred op ∧ storage_pending s' = ops ∧ storage_ok s' ∧
      storage_producer s' = storage_producer s
  end.
Proof.
  intros (Hes & Hc & Hp). unfold consume, storage_pending.
  destruct (storage_entries s !! storage_cursor s) as [entry|] eqn:Hl.
  - rewrite (drop_S _ _ _ Hl). simpl. eexists entry, _. split; [done|].
    split; [done|]. split; [by apply (Forall_lookup_1 _ _ _ _ Hes Hl)|]. split; [done|].
    split; [|done]. split_and!; [done| |done]. simpl. by apply lookup_lt_Some in Hl.
  - apply lookup_ge_None in Hl. by rewrite drop_ge.
Qed.

Lemma storage_clear_ok s :
  storage_ok s → storage_ok (storage_clear s) ∧ storage_pending (storage_clear s) = [].
Proof.
  intros Hs. split; [|done]. split_and!; [by constructor|simpl; lia|].
  unfold storage_clear. simpl.
  assert (∀ n s0, storage_ok s0 → storage_producer (discard n s0) = storage_producer s0) as Hd.
  { induction n as [|n IH]; intros s0 Hs0; simpl; [done|]. pose proof (consume_spec s0 Hs0) as Hx.
    destruct (storage_pending s0).
    - by rewrite Hx.
    - destruct Hx as (e & s1 & -> & _ & _ & _ & Hs1 & Hp). by rewrite IH. }
  rewrite Hd by done. by destruct Hs as (_ & _ & ?).
Qed.

Lemma move_loop_spec s target :
  storage_ok s → queue_ok target →
  queue_ok (move_loop (storage_remaining s) s target) ∧
  pending (move_loop (storage_remaining s) s target) = pending target ++ storage_pending s.
Proof.
  rewrite storage_remaining_pending. remember (storage_pending s) as ops eqn:Hops.
  revert s target Hops. induction ops as [|op ops IH]; intros s target Hops Hs Ht; simpl.
  - by rewrite app_nil_r.
  - pose proof (consume_spec s Hs) as Hx. rewrite <-Hops in Hx.
    destruct Hx as (e & s' & -> & -> & _ & Hp & Hs' & _).
    destruct (push_operation_spec target op Ht) as [Ht' Hpt].
    destruct (IH s' (push_operation target op) (eq_sym Hp) Hs' Ht') as [? Hr].
    split; [done|]. rewrite Hr, Hpt, <-app_assoc. done.
Qed.

(** Whether an operation is held back: only when a target is given. *)
Definition held_back (deferred : option CommandQueue) (op : Operation) : bool :=
  bool_decide (is_Some deferred) && operation_deferred op.

Definition apply_all (owner : option SystemInvocation) : World → list Operation → result World :=
  fold_result (λ w op, operation_apply w owner op).

Lemma apply_all_cons (owner : option SystemInvocation) w op ops :
  apply_all owner w (op :: ops) = (w ← operation_apply w owner op; apply_all owner w ops).
Proof. done. Qed.

Lemma apply_loop_spec s w (owner : option SystemInvocation) deferred r deferred' :
  storage_ok s → (∀ q, deferred = Some q → queue_ok q) →
  apply_loop (storage_remaining s) s w owner deferred = (r, deferred') →
  let now := filter (λ op, held_back deferred op = false) (storage_pending s) in
  let later := filter (λ op, held_back deferred op = true) (storage_pending s) in
  r = apply_all owner w now ∧
  (∀ w', r = Done w' →
     match deferred, deferred' with
     | Some q, Some q' => queue_ok q' ∧ pending q' = pending q ++ later
     | None, None => later = []
     | _, _ => False
     end).
Proof.
  rewrite storage_remaining_pending. remember (storage_pending s) as ops eqn:Hops.
  revert s w deferred Hops. induction ops as [|op ops IH]; intros s w deferred Hops Hs Hd; simpl.
  { intros [= <- <-]. split; [done|]. intros w' _. destruct deferred; [|done].
    rewrite app_nil_r. auto. }
  pose proof (consume_spec s Hs) as Hx. rewrite <-Hops in Hx.
  destruct Hx as (e & s' & -> & -> & -> & Hp & Hs' & _). rewrite !filter_cons.
  destruct (operation_deferred op) eqn:Hod; [destruct deferred as [q|]|].
  - destruct (push_operation_spec q op (Hd _ eq_refl)) as [Hq' Hpq]. intros Hrun.
    destruct (IH s' w (Some (push_operation q op)) (eq_sym Hp) Hs') with (2 := Hrun) as [Hr Hl].
    { by intros ? [= <-]. }
    assert (held_back (Some q) op = true) as Hb by (unfold held_back; by rewrite Hod).
    rewrite decide_False by (by rewrite Hb). rewrite decide_True by done.
    split; [exact Hr|]. intros w' Hw'. specialize (Hl w' Hw'). destruct deferred' as [q'|]; [|done].
    destruct Hl as [? Hl]. split; [done|]. rewrite Hl, Hpq, <-app_assoc. done.
  - assert (held_back None op = false) as Hb by done.
    rewrite decide_True by done. rewrite decide_False by done. rewrite apply_all_cons.
    destruct (operation_apply w owner op) as [w1|f]; simpl.
    + intros Hrun. by apply (IH s' w1 None (eq_sym Hp) Hs' Hd).
    + intros [= <- <-]. split; [done|]. by intros w'.
  - assert (held_back deferred op = false) as Hb by (unfold held_back; by rewrite Hod, andb_false_r).
    rewrite decide_True by done. rewrite decide_False by (by rewrite Hb).
    rewrite apply_all_cons. destruct (operation_apply w owner op) as [w1|f]; simpl.
    + intros Hrun. by apply (IH s' w1 deferred (eq_sym Hp) Hs' Hd).
    + intros [= <- <-]. split; [done|]. by intros w'.
Qed.

Lemma pending_some q s : queue_storage q = Some s → pending q = storage_pending s.
Proof. unfold pending. by intros ->. Qed.
Lemma pending_none q : queue_storage q = None → pending q = [].
Proof. unfold pending. by intros ->. Qed.

Lemma apply_or_defer_aux q w (owner : option SystemInvocation) deferred q' r deferred' :
  queue_ok q → (∀ t, deferred = Some t → queue_ok t) →
  apply_or_defer q w owner deferred = (q', r, deferred') →
  queue_ok q' ∧ pending q' = [] ∧
  r = apply_all owner w (filter (λ op, held_back deferred op = false) (pending q)) ∧
  (is_done r = true → (pending <$> deferred') =
     (λ t, pending t ++ filter (λ op, held_back deferred op = true) (pending q)) <$> deferred).
Proof.
  intros Hq Hd. unfold apply_or_defer. destruct (queue_storage q) as [s|] eqn:Hs.
  - rewrite (pending_some q s Hs). destruct (apply_loop _ _ _ _ _) as [r0 d0] eqn:Hrun.
    intros [= <- <- <-].
    destruct (apply_loop_spec _ _ _ _ _ _ (Hq s Hs) Hd Hrun) as [Hr Hl].
    destruct (storage_clear_ok s (Hq s Hs)) as [Hc Hp]. split; [by intros ? [= <-]|].
    split; [exact Hp|]. split; [exact Hr|]. destruct r0 as [w'|f]; [|done]. intros _.
    specialize (Hl w' eq_refl). destruct deferred, d0; simpl; try done. f_equal. apply Hl.
  - intros [= <- <- <-]. rewrite (pending_none q Hs). split_and!; try done.
    intros _. destruct deferred; simpl; [|done]. by rewrite app_nil_r.
Qed.

(** Draining a queue is the plain loop over its operations.  Whatever the
    queue holds, [apply_or_defer] applies, oldest first, exactly the
    operations that are not held back, stops at the first panic, and leaves
    the queue empty in either case; when it finishes, the operations held back
    are at the end of the target, in order, and nothing is held back without
    a target. *)
Theorem apply_or_defer_in_order q w (owner : option SystemInvocation) deferred q' r deferred' :
  queue_ok q → (∀ t, deferred = Some t → queue_ok t) →
  apply_or_defer q w owner deferred = (q', r, deferred') →
  queue_ok q' ∧ pending q' = [] ∧
  r = apply_all owner w (filter (λ op, held_back deferred op = false) (pending q)) ∧
  (is_done r = true → (pending <$> deferred') =
     (λ t, pending t ++ filter (λ op, held_back deferred op = true) (pending q)) <$> deferred).
Proof. apply apply_or_defer_aux. Qed.

(** ** Leases of the pool *)

(** The pool and the queues on lease; every queue of the engine is pushed to,
    moved into another, drained, given to a buffer, and dropped. *)
Inductive pool_step : Pool * list CommandQueue → Pool * list CommandQueue → Prop :=
  | ps_take p l p' q : pool_take p = (p', q) → pool_step (p, l) (p', l ++ [q])
  | ps_new p l : pool_step (p, l) (p, l ++ [queue_default])
  | ps_push p l i q op : l !! i = Some q → pool_step (p, l) (p, <[i:=push_operation q op]> l)
  | ps_append p l i j q t q' t' :
      l !! i = Some q → l !! j = Some t → i ≠ j → queue_append t q = (t', q') →
      pool_step (p, l) (p, <[i:=q']> (<[j:=t']> l))
  | ps_apply p l i q w (o : option SystemInvocation) q' r :
      l !! i = Some q → queue_apply q w o = (q', r) → pool_step (p, l) (p, <[i:=q']> l)
  | ps_defer p l i q w (o : option SystemInvocation) t q' r t' :
      l !! i = Some q → queue_ok t → apply_or_defer q w o (Some t) = (q', r, Some t') →
      pool_step (p, l) (p, <[i:=q']> l ++ [t'])
  | ps_buffer p l i q slots unique :
      l !! i = Some q →
      pool_step (p, l) (p, <[i:=commands_take unique (with_queue slots q)]> l)
  | ps_drop p l i q : l !! i = Some q → pool_step (p, l) (queue_drop p q, delete i l).

Definition storage_fresh (s : Storage) : Prop := storage_ok s ∧ storage_pending s = [].
Definition pool_ok (c : Pool * list CommandQueue) : Prop :=
  Forall storage_fresh (pool_free c.1 ++ pool_returned c.1) ∧ Forall queue_ok c.2.

Lemma pool_take_ok p p' q l :
  pool_ok (p, l) → pool_take p = (p', q) →
  pool_ok (p', l) ∧ queue_ok q ∧ pending q = [] ∧ queue_returns q = true.
Proof.
  intros [Hp Hl] [= <- <-]. simpl in *. set (free := pool_free p ++ pool_returned p) in *.
  split; [split; [|done]|].
  - simpl. rewrite app_nil_r. by apply Forall_take.
  - rewrite Forall_forall in Hp.
    destruct (last free) as [s|] eqn:Hlast.
    + apply last_Some_elem_of in Hlast as Hin. destruct (Hp s Hin) as [? Hs].
      split; [by intros ? [= <-]|done].
    + split; [by intros s|done].
Qed.

Lemma buffer_roundtrip_ok unique slots q :
  queue_ok q → queue_ok (commands_take unique (with_queue slots q)) ∧
  pending (commands_take unique (with_queue slots q)) = pending q.
Proof.
  intros Hq. unfold with_queue, take_producer.
  set (q' := match queue_storage q with
             | None => q
             | Some s => MkQueue (Some (MkStorage (storage_entries s) (storage_cursor s) None)) (queue_returns q)
             end).
  assert (queue_ok q' ∧ pending q' = pending q) as [Hq' Hp].
  { unfold q', pending. destruct (queue_storage q) as [s|] eqn:Hs; [|by rewrite Hs].
    split; [|done]. intros ? [= <-]. destruct (Hq s Hs) as (? & ? & _). by split_and!. }
  assert (∀ b, buffer_ops b = q' → queue_ok (commands_take unique b) ∧
    pending (commands_take unique b) = pending q) as Hb.
  { intros b Hb. rewrite <-Hp. unfold commands_take. rewrite Hb. destruct unique; [|done].
    unfold recycle_producer. destruct (queue_returns q') eqn:Hr; [|done].
    split; [|by rewrite (pending_get_storage q')].
    intros ? [= <-]. apply get_storage_ok in Hq' as (? & ? & _). split_and!; [done|done|].
    by intros ? [= <-]. }
  unfold q' in Hb. destruct (queue_storage q) as [s|]; [destruct (storage_producer s)|]; by apply Hb.
Qed.

Lemma queue_append_ok t q t' q' :
  queue_ok t → queue_ok q → queue_append t q = (t', q') →
  queue_ok t' ∧ queue_ok q' ∧ pending t' = pending t ++ pending q ∧ pending q' = [].
Proof.
  intros Ht Hq. unfold queue_append. destruct (queue_storage q) as [s|] eqn:Hs.
  - rewrite (pending_some q s Hs). intros [= <- <-].
    destruct (move_loop_spec s t (Hq s Hs) Ht) as [? ?].
    destruct (storage_clear_ok s (Hq s Hs)). split_and!; try done. by intros ? [= <-].
  - intros [= <- <-]. by rewrite (pending_none q Hs), app_nil_r.
Qed.

Lemma apply_or_defer_ok q w (owner : option SystemInvocation) t q' r t' :
  queue_ok q → queue_ok t → apply_or_defer q w owner (Some t) = (q', r, Some t') →
  queue_ok q' ∧ queue_ok t'.
Proof.
  intros Hq Ht. unfold apply_or_defer. destruct (queue_storage q) as [s|] eqn:Hs.
  - destruct (apply_loop _ _ _ _ _) as [r0 d0] eqn:Hrun. intros [= <- <- ->]. split.
    + intros ? [= <-]. by apply storage_clear_ok, Hq.
    + assert (∀ n s d, (∀ q, d = Some q → queue_ok q) → storage_ok s →
        ∀ w r d', apply_loop n s w owner d = (r, Some d') → queue_ok d') as Hloop.
      { clear. induction n as [|n IH]; intros s d Hd Hs w r d'; simpl; [by intros [= _ ->]; apply Hd|].
        pose proof (consume_spec s Hs) as Hx. destruct (storage_pending s) as [|op ops].
        { rewrite Hx. intros [= _ ->]. by apply Hd. }
        destruct Hx as (e & s' & -> & _ & _ & _ & Hs' & _).
        destruct (if entry_deferred e then d else None) as [q|] eqn:Hq.
        - apply IH; [|done]. intros ? [= <-]. apply push_operation_spec.
          destruct (entry_deferred e); [by apply Hd|done].
        - destruct (operation_apply w owner (entry_op e)); [by apply IH|].
          intros [= _ ->]. by apply Hd. }
      eapply (Hloop _ s (Some t)); [|exact (Hq s Hs)|exact Hrun]. by intros ? [= <-].
  - by intros [= <- <- <-].
Qed.

Lemma pool_step_ok c c' : pool_ok c → pool_step c c' → pool_ok c'.
Proof.
  intros Hok Hstep. destruct Hstep as [p l p' q Hr|p l|p l i q op Hi|p l i j q t q' t' Hi Hj Hne Hr|
    p l i q w owner q' r Hi Hr|p l i q w owner t q' r t' Hi Ht Hr|p l i q slots unique Hi|p l i q Hi];
    pose proof Hok as [Hp Hl]; simpl in Hp, Hl;
    try (assert (queue_ok q) as Hq by by eapply (Forall_lookup_1 _ _ _ _ Hl)).
  - destruct (pool_take_ok _ _ _ _ Hok Hr) as ((? & _) & ? & _). split; [done|].
    apply Forall_app. split; [done|]. by constructor.
  - split; [done|]. apply Forall_app. split; [done|]. by constructor.
  - split; [done|]. apply Forall_insert; [done|]. by apply push_operation_spec.
  - assert (queue_ok t) as Ht by by eapply (Forall_lookup_1 _ _ _ _ Hl).
    destruct (queue_append_ok _ _ _ _ Ht Hq Hr) as (? & ? & _).
    split; [done|]. by do 2 (apply Forall_insert; [|done]).
  - split; [done|]. apply Forall_insert; [done|]. unfold queue_apply in Hr.
    destruct (apply_or_defer q w owner None) as [[q1 r1] d1] eqn:Hrun. injection Hr as <- <-.
    apply apply_or_defer_aux in Hrun; [|done|done]. apply Hrun.
  - destruct (apply_or_defer_ok _ _ _ _ _ _ _ Hq Ht Hr) as [? ?]. split; [done|].
    apply Forall_app. split; [by apply Forall_insert|by constructor].
  - split; [done|]. apply Forall_insert; [done|]. by apply buffer_roundtrip_ok.
  - split; [|by apply Forall_delete]. unfold queue_drop. destruct (queue_storage q) as [s|] eqn:Hs; [|done].
    destruct (queue_returns q); [|done]. simpl. rewrite app_assoc. apply Forall_app. split; [done|].
    constructor; [|done]. by apply storage_clear_ok, Hq.
Qed.

(** The pool never leaks.  Whatever was done with the queues on lease
    before, panics included, a queue taken from the pool is empty, and the
    buffer built on it starts with no operation, the given spawn slots and a
    zero cursor, even when it refills a retired producer. *)
Theorem pool_never_leaks p l p' q slots :
  rtc pool_step (MkPool [] [], []) (p, l) → pool_take p = (p', q) →
  pending q = [] ∧ queue_ok q ∧
  pending (buffer_ops (with_queue slots q)) = [] ∧
  buffer_slots (with_queue slots q) = slots ∧ buffer_cursor (with_queue slots q) = 0.
Proof.
  intros Hsteps Htake.
  assert (pool_ok (p, l)) as Hok.
  { assert (pool_ok (MkPool [] [], [])) as Hinit by (by split).
    revert Hinit. generalize dependent (MkPool [] [], @nil CommandQueue). intros c Hsteps.
    induction Hsteps as [c|c c1 c' Hs _ IH]; [done|]. intros Hc. apply IH. by eapply pool_step_ok. }
  destruct (pool_take_ok _ _ _ _ Hok Htake) as (_ & Hq & Hp & _). split; [done|]. split; [done|].
  destruct (buffer_roundtrip_ok false slots q Hq) as [_ Hb]. rewrite Hp in Hb.
  unfold with_queue in *. destruct (take_producer q) as [q1 [b|]]; done.
Qed.

(** ** Reserved spawn ids *)

Fixpoint commands_insert_all (b : CommandBuffer) (allocator : Entity) (bundles : list Bundle)
    : CommandBuffer * Entity * list Entity :=
  match bundles with
  | [] => (b, allocator, [])
  | bundle :: bundles =>
      let '(b, allocator, e) := commands_insert b allocator bundle in
      let '(b, allocator, es) := commands_insert_all b allocator bundles in
      (b, allocator, e :: es)
  end.

(** [n] ids straight from the allocator. *)
Fixpoint fresh_ids (allocator : Entity) (n : nat) : list Entity :=
  match n with 0 => [] | S n => allocator :: fresh_ids ((allocator + 1) mod 2 ^ 64)%N n end.

Lemma commands_insert_all_from b allocator bundles b' allocator' ids :
  commands_insert_all b allocator bundles = (b', allocator', ids) →
  let left := drop (buffer_cursor b) (buffer_slots b) in
  buffer_slots b' = buffer_slots b ∧
  ids = take (length bundles) left ++ fresh_ids allocator (length bundles - length left) ∧
  (length bundles ≤ length left → allocator' = allocator).
Proof.
  revert b allocator b' allocator' ids. induction bundles as [|bundle bundles IH];
    intros b allocator b' allocator' ids; cbn [commands_insert_all].
  - intros [= <- <- <-]. done.
  - unfold commands_insert. destruct (buffer_slots b !! buffer_cursor b) as [e|] eqn:Hl.
    + destruct (commands_insert_all _ allocator bundles) as [[b1 a1] es] eqn:Hrun. intros [= <- <- <-].
      apply IH in Hrun as (Hs & -> & Ha). simpl in Hs, Ha |- *. rewrite (drop_S _ _ _ Hl). simpl.
      split; [done|]. split; [done|]. intros ?. apply Ha. lia.
    + destruct (commands_insert_all _ ((allocator + 1) mod 2 ^ 64)%N bundles) as [[b1 a1] es] eqn:Hrun.
      intros [= <- <- <-]. apply IH in Hrun as (Hs & -> & Ha). simpl in Hs, Ha |- *.
      apply lookup_ge_None in Hl. rewrite !drop_ge by lia. rewrite !take_nil. simpl.
      split; [done|]. split; [by rewrite Nat.sub_0_r|lia].
Qed.

(** Spawn ids are reserved slot by slot.  A new buffer hands out the
    invocation's previous spawn ids in order, however many it spawns, and asks
    the shared allocator only for the spawns beyond them. *)
Theorem spawns_reuse_slots slots allocator bundles b' allocator' ids :
  commands_insert_all (commands_new slots) allocator bundles = (b', allocator', ids) →
  ids = take (length bundles) slots ++ fresh_ids allocator (length bundles - length slots) ∧
  (length bundles ≤ length slots → allocator' = allocator).
Proof. intros Hrun. apply commands_insert_all_from in Hrun as (_ & ? & ?). by split. Qed.

(** The reserved id of a spawn, and what a buffer's operations reserve. *)
Definition op_reserved (op : Operation) : option Entity :=
  match op with DerivedOp (SpawnCommand _ reserved) => Some reserved | _ => None end.

Lemma commands_insert_all_ops b allocator bundles b' allocator' ids :
  queue_ok (buffer_ops b) → commands_insert_all b allocator bundles = (b', allocator', ids) →
  queue_ok (buffer_ops b') ∧
  pending (buffer_ops b') = pending (buffer_ops b) ++
    zip_with (λ bundle e, DerivedOp (SpawnCommand bundle e)) bundles ids.
Proof.
  revert b allocator b' allocator' ids. induction bundles as [|bundle bundles IH];
    intros b allocator b' allocator' ids Hok; cbn [commands_insert_all].
  - intros [= <- <- <-]. by rewrite app_nil_r.
  - unfold commands_insert. destruct (match _ !! _ with Some _ => _ | None => _ end) as [a e].
    match goal with |- context [commands_insert_all ?b1 a bundles] => set (b1' := b1) end.
    destruct (commands_insert_all b1' a bundles) as [[b2 a2] es] eqn:Hrun. intros [= <- <- <-].
    destruct (push_operation_spec (buffer_ops b) (DerivedOp (SpawnCommand bundle e)) Hok) as [Hok1 Hp].
    apply IH in Hrun as [Hok2 Hr]; [|exact Hok1]. split; [done|]. rewrite Hr.
    change (pending (buffer_ops b1')) with (pending (push_operation (buffer_ops b) (DerivedOp (SpawnCommand bundle e)))).
    rewrite Hp, <-app_assoc. done.
Qed.

(** ** What a commit records *)

(** The spawns an invocation recorded so far in the current commit. *)
Definition spawn_cursor (w : World) (owner : SystemInvocation) : nat :=
  default 0 (spawn_cursors w !! owner).
Definition recorded (w : World) (owner : SystemInvocation) : list Entity :=
  take (spawn_cursor w owner) (spawn_slots w owner).
Definition cursor_ok (w : World) (owner : SystemInvocation) : Prop :=
  spawn_cursor w owner ≤ length (spawn_slots w owner).

Lemma kept_recorded w w' owner :
  engine_kept w w' → recorded w' owner = recorded w owner ∧ (cursor_ok w owner → cursor_ok w' owner).
Proof. intros [_ Hd Hc _]. unfold recorded, cursor_ok, spawn_cursor, spawn_slots. by rewrite Hd, Hc. Qed.

Lemma record_spawn_recorded w owner e :
  cursor_ok w owner →
  let w' := record_derived_spawn w owner e in
  cursor_ok w' owner ∧ recorded w' owner = recorded w owner ++ [e].
Proof.
  unfold cursor_ok, recorded, spawn_cursor, spawn_slots, record_derived_spawn. simpl.
  rewrite !lookup_insert_eq. simpl.
  set (n := default 0 (spawn_cursors w !! owner)).
  set (l := default [] (derived_spawns (shared w) !! owner)). intros Hn.
  destruct (Nat.ltb_spec n (length l)) as [Hlt|Hge].
  - rewrite length_insert. split; [lia|].
    rewrite (take_S_r _ _ e) by by apply list_lookup_insert_eq. by rewrite take_insert_ge by lia.
  - assert (n = length l) as -> by lia. rewrite length_app. simpl. split; [lia|].
    rewrite !take_ge; [done|lia|rewrite length_app; simpl; lia].
Qed.

Lemma bundle_insert_derived_kept w e owner b w' :
  bundle_insert_derived w e owner b = Done w' → engine_kept w w'.
Proof. apply fold_kept. intros w1 [ty v] w2. apply insert_kept. Qed.

(** Every spawn of a buffer is of a bundle without a singleton marker. *)
Definition plain_spawns (ops : list Operation) : Prop :=
  ∀ bundle e, DerivedOp (SpawnCommand bundle e) ∈ ops → bundle_singleton_key bundle = Done None.

Lemma operation_recorded w owner op w' :
  operation_apply w (Some owner) op = Done w' → plain_spawns [op] → cursor_ok w owner →
  cursor_ok w' owner ∧ recorded w' owner = recorded w owner ++ option_list (op_reserved op).
Proof.
  intros Hrun Hplain Hc.
  assert (engine_kept w w' → option_list (op_reserved op) = [] →
    cursor_ok w' owner ∧ recorded w' owner = recorded w owner ++ option_list (op_reserved op)) as Hkept.
  { intros [-> ?]%(kept_recorded _ _ owner) ->. rewrite app_nil_r. auto. }
  destruct op as [[e ty v|bundle e|e|e ty]|[e ty v|e ty|e]]; simpl in Hrun.
  - apply Hkept; [by eapply insert_kept|done].
  - rewrite (Hplain bundle e) in Hrun by by left. simpl in Hrun.
    apply bundle_insert_derived_kept in Hrun.
    destruct (record_spawn_recorded w owner e Hc) as [Hc1 Hr1].
    destruct (kept_recorded _ _ owner Hrun) as [-> Hc2]. simpl. auto.
  - apply bind_Done in Hrun as ([w1 o] & Hr & [= <-]). apply Hkept; [by eapply remove_entity_kept|done].
  - apply bind_Done in Hrun as ([w1 o] & Hr & [= <-]). apply Hkept; [by eapply remove_component_kept|done].
  - apply Hkept; [by eapply insert_kept|done].
  - apply bind_Done in Hrun as ([w1 o] & Hr & [= <-]). apply Hkept; [by eapply remove_component_kept|done].
  - apply bind_Done in Hrun as ([w1 o] & Hr & [= <-]). apply Hkept; [by eapply remove_entity_kept|done].
Qed.

Lemma apply_all_recorded w owner ops w' :
  apply_all (Some owner) w ops = Done w' → plain_spawns ops → cursor_ok w owner →
  cursor_ok w' owner ∧ recorded w' owner = recorded w owner ++ omap op_reserved ops.
Proof.
  revert w. induction ops as [|op ops IH]; intros w.
  - intros [= <-] _ Hc. by rewrite app_nil_r.
  - rewrite apply_all_cons. intros (w1 & H1 & Hrest)%bind_Done Hplain Hc.
    apply operation_recorded in H1 as [Hc1 Hr1]; [|intros b e Hin; apply (Hplain b e)|done].
    + apply IH in Hrest as [? Hr]; [|intros b e Hin; apply (Hplain b e); by right|done].
      split; [done|]. rewrite Hr, Hr1, <-app_assoc. simpl. by destruct (op_reserved op).
    + apply list_elem_of_singleton in Hin as <-. by left.
Qed.

Lemma finish_spawns_recorded w owner :
  spawn_slots (finish_derived_spawns w owner) owner = recorded w owner ∧
  spawn_cursors (finish_derived_spawns w owner) !! owner = None.
Proof.
  unfold finish_derived_spawns, recorded, spawn_slots, spawn_cursor. simpl.
  destruct (derived_spawns (shared w) !! owner) as [l|] eqn:Hl; simpl.
  - case_bool_decide as Hn; simpl; rewrite lookup_delete_eq; split; try done.
    + by rewrite lookup_delete_eq.
    + by rewrite lookup_insert_eq.
  - rewrite Hl, lookup_delete_eq. simpl. by rewrite take_nil.
Qed.

(** ** Commands are steps of the world *)

Lemma fold_steps {A} (f : World → A → result World) l w w' :
  (∀ w a w', f w a = Done w' → rtc apply_step w w') → fold_result f w l = Done w' → rtc apply_step w w'.
Proof.
  intros Hf. apply (fold_result_inv (λ w1, rtc apply_step w w1)); [|done].
  intros w1 a w2 _ Ha Hb. etrans; [exact Ha|by eapply Hf].
Qed.

Lemma bundle_steps w e owner b w' : bundle_insert_derived w e owner b = Done w' → rtc apply_step w w'.
Proof. apply fold_steps. intros w1 [ty v] w2 Hi. eapply rtc_once, as_insert, Hi. Qed.

Lemma operation_steps w owner op w' : operation_apply w owner op = Done w' → rtc apply_step w w'.
Proof.
  destruct op as [c|c]; simpl.
  - intros (o & _ & Hc)%bind_Done. destruct c as [e ty v|bundle e|e|e ty]; simpl in Hc.
    + eapply rtc_once, as_insert, Hc.
    + apply bind_Done in Hc as (key & _ & Hc). destruct key as [key|].
      * pose proof (as_singleton_register w key e) as Hreg.
        destruct (singleton_entity_or_register w key e) as [w1 e1]. simpl in Hreg.
        eapply rtc_l; [exact Hreg|]. eapply rtc_l; [apply (as_record_spawn w1 o e1)|].
        by eapply bundle_steps.
      * eapply rtc_l; [apply (as_record_spawn w o e)|]. by eapply bundle_steps.
    + apply bind_Done in Hc as ([w1 os] & Hc & [= <-]). eapply rtc_once, as_remove_entity, Hc.
    + apply bind_Done in Hc as ([w1 os] & Hc & [= <-]). eapply rtc_once, as_remove, Hc.
  - destruct c as [e ty v|e ty|e]; simpl.
    + intros Hc. eapply rtc_once, as_insert, Hc.
    + intros ([w1 os] & Hc & [= <-])%bind_Done. eapply rtc_once, as_remove, Hc.
    + intros ([w1 os] & Hc & [= <-])%bind_Done. eapply rtc_once, as_remove_entity, Hc.
Qed.

Lemma apply_all_steps w owner ops w' : apply_all owner w ops = Done w' → rtc apply_step w w'.
Proof. apply fold_steps. intros w1 op w2. apply operation_steps. Qed.

End commands.

(** ** Concrete runs *)

(** Two spawns, a removal, and a base operation that a drain without an owner
    applies. *)
Definition demo_bundle : list (TypeId * Value) := [(ty_num, v_num 5)].
Definition demo_buffer : CommandBuffer * Entity * list Entity :=
  commands_insert_all (commands_new [40%N]) 100 [demo_bundle; demo_bundle; demo_bundle].
Definition demo_queue : CommandQueue :=
  queue_push (buffer_ops demo_buffer.1.1) (RemoveEntityCommand 40).

Example demo_reserved : demo_buffer.2 = [40%N; 100%N; 101%N].
Proof. vm_compute. reflexivity. Qed.

Lemma demo_queue_ok : queue_ok demo_queue.
Proof.
  intros s Hs. injection Hs as <-. split_and!; simpl; [by repeat constructor|lia|done].
Qed.

Lemma apply_or_defer_in_order_witness :
  ∃ w' target, apply_or_defer demo_queue demo_w0 (Some demo_owner) (Some queue_default) =
      ((apply_or_defer demo_queue demo_w0 (Some demo_owner) (Some queue_default)).1.1, Done w', Some target) ∧
    pending target = [DerivedOp (SpawnCommand demo_bundle 40); DerivedOp (SpawnCommand demo_bundle 100);
                      DerivedOp (SpawnCommand demo_bundle 101)] ∧
    apply_all (Some demo_owner) demo_w0 [DerivedOp (RemoveEntityCommand 40)] = Done w'.
Proof.
  destruct (apply_or_defer demo_queue demo_w0 (Some demo_owner) (Some queue_default))
    as [[q' r] target] eqn:Hrun.
  destruct (apply_or_defer_in_order demo_queue demo_w0 (Some demo_owner) (Some queue_default) q' r target
    demo_queue_ok ltac:(by intros ? [= <-]) Hrun) as (_ & _ & Hr & Ht).
  destruct r as [w'|f]; [|vm_compute in Hr; discriminate].
  specialize (Ht eq_refl). destruct target as [target|]; [|vm_compute in Ht; discriminate].
  exists w', target. split; [done|]. injection Ht as Ht. split; [|by rewrite Hr].
  rewrite Ht. reflexivity.
Defined.

(** A storage that was used and dropped comes back empty. *)
Definition demo_leased : Pool * list CommandQueue :=
  (queue_drop (MkPool [] []) (base_push (MkQueue None true) (DespawnBaseCommand 3)), []).

Lemma demo_pool_run : rtc pool_step (MkPool [] [], []) demo_leased.
Proof.
  eapply rtc_l; [by apply (ps_take (MkPool [] []) [] (MkPool [] []) (MkQueue None true))|].
  eapply rtc_l; [by apply (ps_push _ _ 0 (MkQueue None true) (BaseOp (DespawnBaseCommand 3)))|].
  apply rtc_once.
  exact (ps_drop (MkPool [] []) [base_push (MkQueue None true) (DespawnBaseCommand 3)] 0 _ eq_refl).
Qed.

Lemma pool_never_leaks_witness :
  pool_take demo_leased.1 = (MkPool [] [], MkQueue (Some storage_default) true) ∧
  pending (buffer_ops (with_queue [8%N] (MkQueue (Some storage_default) true))) = [].
Proof.
  split; [reflexivity|].
  apply (pool_never_leaks demo_leased.1 demo_leased.2 (MkPool [] [])
    (MkQueue (Some storage_default) true) [8%N]).
  - exact demo_pool_run.
  - reflexivity.
Defined.

Lemma spawns_reuse_slots_witness :
  demo_buffer.2 = [40%N] ++ fresh_ids 100 2 ∧ fresh_ids 100 2 = [100%N; 101%N].
Proof.
  destruct (spawns_reuse_slots [40%N] 100 [demo_bundle; demo_bundle; demo_bundle] demo_buffer.1.1
    demo_buffer.1.2 demo_buffer.2) as [Hids _].
  - reflexivity.
  - split; [exact Hids|reflexivity].
Defined.
