(* ===== verification/Query.v ===== *)
(** * Queries: row enumeration and filters ([query.rs], [prepared/rows.rs])

    The query language of the engine is a family of type-level combinators.
    Here it is syntax, and the trait methods are functions on it: how a query
    enumerates its rows (smallest store, facet scan, presence bitmap, candidate
    hint), how filters restrict them, and the prepared matcher the planner
    uses.  The theorems say that all of these agree with the one-line meaning
    of a query, [row_matches]. *)
From stdpp Require Import base numbers sets gmap fin_maps sorting list.
From S2P Require Import Prelude Components Demo Stores Presence World WorldInv Ownership WorldOps.

(** ** Syntax *)

(** [FacetPart]; a facet is the list of its parts, empty for [Untyped]. *)
Record FacetPart := MkFacetPart { part_type : TypeId; part_optional : bool }.
Abbreviation Facet := (list FacetPart) (only parsing).

(** The parts of a [Related] projection: [&T] and [Option<&T>]. *)
Inductive ReadPart := ReadRef (ty : TypeId) | ReadOpt (ty : TypeId).

(** The parts of an entity tuple: [&T], [Option<&T>], [MutRef<T>],
    [Tracked<H>], [Related<R, P>] with the edge type of [R]. *)
Inductive QueryPart :=
  | PartRef (ty : TypeId)
  | PartOpt (ty : TypeId)
  | PartMut (ty : TypeId)
  | PartTracked (fac : Facet)
  | PartRelated (inv edge : TypeId) (ps : list ReadPart).

(** [Entity<H>], [&T], [(MutRef<T>,)] and [(Entity<H>, P, ..)]. *)
Inductive QueryParam :=
  | ParamEntity (fac : Facet)
  | ParamRef (ty : TypeId)
  | ParamMut (ty : TypeId)
  | ParamRow (fac : Facet) (parts : list QueryPart).

(** [()], [With<T>], [Without<T>], [Where<Eq<T>>], [Where<In<R>>],
    [And<L, R>] and [Where<And<L, R>>], whose sides stand for [Where<L>] and
    [Where<R>]. *)
Inductive QueryFilter :=
  | FNone
  | FWith (ty : TypeId)
  | FWithout (ty : TypeId)
  | FEq (ty : TypeId)
  | FIn (inv edge : TypeId)
  | FAnd (l r : QueryFilter)
  | FWhereAnd (l r : QueryFilter).

Section query.
Context `{ComponentTypes} `{HashOrder}.
Implicit Types (w : World) (e : Entity) (ty : TypeId) (fac : list FacetPart) (part : QueryPart)
  (q : QueryParam) (f : QueryFilter).

(** ** Enumerating rows *)

Definition required_types fac : list TypeId :=
  part_type <$> filter (λ p, part_optional p = false) fac.

(** [(0..next_entity_raw()).map(Entity::from_raw)] *)
Definition dense_scan w : list Entity := N.of_nat <$> seq 0 (N.to_nat (next_entity (shared w))).

Definition store_len_dyn w ty : N :=
  match store_of w ty with Some s => N.of_nat (size (entries s)) | None => u64_max end.

Definition entities_with_dyn w ty : list Entity :=
  match store_of w ty with Some s => store_entities s | None => [] end.

(** [Iterator::min_by_key]: the first of the least elements. *)
Fixpoint min_by_key {A} (key : A → N) (best : A) (l : list A) : A :=
  match l with
  | [] => best
  | x :: l => min_by_key key (if bool_decide (key x < key best)%N then x else best) l
  end.

(** [snapshot.presence().and_then(|presence| presence.mask(required))] *)
Definition world_mask w (required : list TypeId) : result (option (list N)) :=
  match presence w with None => Done None | Some p => presence_mask p required end.

Definition probe w (required : list TypeId) e : bool := forallb (λ ty, has w ty e) required.

Definition facet_rows w fac : result (list Entity) :=
  match required_types fac with
  | [] => Done (dense_scan w)
  | ty :: tys =>
      let required := ty :: tys in
      mask ← world_mask w required;
      match mask, presence w with
      | Some mask, Some p => Done (entities_matching p mask)
      | _, _ =>
          let driver := min_by_key (store_len_dyn w) ty tys in
          Done (filter (λ e, probe w required e = true) (entities_with_dyn w driver))
      end
  end.

(** *** Parts *)

Inductive PresenceReq := Opaque | Free | Requires (ty : TypeId).

Definition presence_requirement part : PresenceReq :=
  match part with PartRef ty | PartMut ty => Requires ty | _ => Free end.

Definition part_store_len w part : N :=
  match part with PartRef ty | PartMut ty => N.of_nat (store_len w ty) | _ => u64_max end.

Definition part_candidates w part : result (list Entity) :=
  match part with
  | PartRef ty | PartMut ty => Done (entities_with w ty)
  | PartOpt _ | PartRelated _ _ _ => Done (dense_scan w)
  | PartTracked fac => facet_rows w fac
  end.

Definition part_matches w part e : bool :=
  match part with PartRef ty | PartMut ty => has w ty e | _ => true end.

(** The requirements of all parts, unless one of them is opaque. *)
Fixpoint parts_required (parts : list QueryPart) : option (list TypeId) :=
  match parts with
  | [] => Some []
  | part :: parts =>
      match presence_requirement part with
      | Opaque => None
      | Free => parts_required parts
      | Requires ty => cons ty <$> parts_required parts
      end
  end.

Definition parts_match w (parts : list QueryPart) e : bool := forallb (λ p, part_matches w p e) parts.

(** [retain_matching_parts!] *)
Definition retain_matching_parts w (parts : list QueryPart) (candidates : list Entity)
    : result (list Entity) :=
  mask ← match parts_required parts with
         | Some required => world_mask w required
         | None => Done None
         end;
  match mask, presence w with
  | Some mask, Some p => Done (filter (λ e, presence_matches p e mask = true) candidates)
  | _, _ => Done (filter (λ e, parts_match w parts e = true) candidates)
  end.

(** The index of the smallest participating store, strictly smaller ones win. *)
Definition best_index w (parts : list QueryPart) : nat :=
  (foldl (λ '(best_len, best, index) part,
      let len := part_store_len w part in
      if bool_decide (len < best_len)%N then (len, index, S index) else (best_len, best, S index))
    (u64_max, 0, 0) parts).1.2.

(** *** Params *)

Definition param_rows w q : result (list Entity) :=
  match q with
  | ParamEntity fac => facet_rows w fac
  | ParamRef ty | ParamMut ty => Done (entities_with w ty)
  | ParamRow fac parts =>
      if existsb (λ p, negb (part_optional p)) fac then
        candidates ← facet_rows w fac;
        if bool_decide (0 < length parts) then retain_matching_parts w parts candidates
        else Done candidates
      else
        candidates ← match parts !! best_index w parts with
                     | Some part => part_candidates w part
                     | None => Done []
                     end;
        if bool_decide (1 < length parts) then retain_matching_parts w parts candidates
        else Done candidates
  end.

Definition rows_hinted w q (hint : option (list Entity)) : result (list Entity) :=
  match hint with
  | None => param_rows w q
  | Some candidates =>
      match q with
      | ParamEntity _ => Done candidates
      | ParamRef ty | ParamMut ty => Done (filter (λ e, has w ty e = true) candidates)
      | ParamRow fac parts =>
          let facet_required := required_types fac in
          let candidates :=
            if bool_decide (facet_required = []) then candidates
            else filter (λ e, probe w facet_required e = true) candidates in
          retain_matching_parts w parts candidates
      end
  end.

(** *** Filters *)

Fixpoint filter_matches w f e : bool :=
  match f with
  | FNone => true
  | FWith ty | FEq ty => has w ty e
  | FWithout ty => negb (has w ty e)
  | FIn _ _ => true
  | FAnd l r | FWhereAnd l r => filter_matches w l e && filter_matches w r e
  end.

(** [entity_candidates] *)
Fixpoint filter_candidates w f : option (list Entity) :=
  match f with
  | FNone | FWithout _ | FIn _ _ => None
  | FWith ty | FEq ty => Some (entities_with w ty)
  | FAnd l r | FWhereAnd l r =>
      match filter_candidates w l, filter_candidates w r with
      | Some cl, Some cr => Some (filter (λ e, e ∈ cr) cl)
      | Some cl, None => Some cl
      | None, cr => cr
      end
  end.

Definition filtered_rows w q f : result (list Entity) :=
  rows ← rows_hinted w q (filter_candidates w f);
  Done (filter (λ e, filter_matches w f e = true) rows).

Definition filtered_rows_from_candidates w q f (candidates : list Entity) : result (list Entity) :=
  rows ← rows_hinted w q (Some candidates);
  Done (filter (λ e, filter_matches w f e = true) rows).

(** *** Prepared rows *)

(** [EntityRows]: the facet requirements, and the mask of facet and parts. *)
Record EntityRows := MkEntityRows { er_required : list TypeId; er_mask : option (list N) }.

Definition entity_rows_new w fac (parts : list QueryPart) : result EntityRows :=
  let required := required_types fac in
  mask ← match parts_required parts with
         | Some more => world_mask w (required ++ more)
         | None => Done None
         end;
  Done (MkEntityRows required mask).

Definition entity_rows_match w (r : EntityRows) (parts : list QueryPart) e : bool :=
  match er_mask r, presence w with
  | Some mask, Some p => presence_matches p e mask
  | _, _ => probe w (er_required r) e && parts_match w parts e
  end.

(** [ResolvedStore::contains]: the entries the prepared value holds. *)
Definition resolved_contains (entries : option (gmap Entity ComponentEntry)) e : bool :=
  match entries with Some m => bool_decide (is_Some (m !! e)) | None => false end.
Definition resolve_entries w ty : option (gmap Entity ComponentEntry) := entries <$> store_of w ty.

(** [prepare_rows(snapshot).extend(snapshot, candidates, ..)] through the
    filter sink. *)
Definition prepared_rows w q f (candidates : list Entity) : result (list Entity) :=
  rows ← match q with
         | ParamEntity _ => rows_hinted w q (Some candidates)
         | ParamRef ty | ParamMut ty =>
             Done (filter (λ e, resolved_contains (resolve_entries w ty) e = true) candidates)
         | ParamRow fac parts =>
             r ← entity_rows_new w fac parts;
             Done (filter (λ e, entity_rows_match w r parts e = true) candidates)
         end;
  Done (filter (λ e, filter_matches w f e = true) rows).

(** ** The meaning of a query *)

Definition row_matches w q e : bool :=
  match q with
  | ParamEntity fac => probe w (required_types fac) e
  | ParamRef ty | ParamMut ty => has w ty e
  | ParamRow fac parts => probe w (required_types fac) e && parts_match w parts e
  end.

(** Ids come from the allocator. *)
Definition ids_allocated w : Prop := ∀ ty e, has w ty e = true → (e < next_entity (shared w))%N.

(** [l] lists exactly the entities that satisfy [P], each once, ascending. *)
Definition exactly (l : list Entity) (P : Entity → Prop) : Prop :=
  StronglySorted N.lt l ∧ ∀ e, e ∈ l ↔ P e.

Lemma exactly_filter l P (b : Entity → Prop) `{!∀ e, Decision (b e)} :
  exactly l P → exactly (filter b l) (λ e, P e ∧ b e).
Proof.
  intros [Hs Hin]. split.
  - clear Hin. induction Hs as [|x l Hs IH Hall]; [constructor|]. rewrite filter_cons.
    case_decide; [|done]. constructor; [done|]. rewrite List.Forall_forall in Hall |- *.
    intros y Hy%list_elem_of_In%list_elem_of_filter. apply Hall, list_elem_of_In, Hy.
  - intros e. rewrite list_elem_of_filter, Hin. tauto.
Qed.

Lemma exactly_iff l P Q : (∀ e, P e ↔ Q e) → exactly l P → exactly l Q.
Proof. intros HPQ [Hs Hin]. split; [done|]. intros e. by rewrite Hin. Qed.

Lemma exactly_NoDup l P : exactly l P → NoDup l.
Proof.
  intros [Hs _]. induction Hs as [|x l Hs IH Hall]; constructor; [|done].
  rewrite List.Forall_forall in Hall. intros Hx%list_elem_of_In%Hall. lia.
Qed.

Lemma exactly_unique l1 l2 P : exactly l1 P → exactly l2 P → l1 = l2.
Proof.
  intros Hex1 Hex2. pose proof (exactly_NoDup _ _ Hex1). pose proof (exactly_NoDup _ _ Hex2).
  destruct Hex1 as [H1s H1i], Hex2 as [H2s H2i].
  apply (StronglySorted_unique_strong N.lt); [intros; lia|done..|].
  apply NoDup_Permutation; [done..|]. intros e. by rewrite H1i, H2i.
Qed.

Lemma exactly_ascending (X : gset Entity) : exactly (ascending X) (λ e, e ∈ X).
Proof.
  unfold ascending. assert (StronglySorted N.le (merge_sort N.le (elements X))) as Hs.
  { apply StronglySorted_merge_sort; apply _. }
  pose proof (merge_sort_Permutation N.le (elements X)) as Hp.
  assert (NoDup (merge_sort N.le (elements X))) as Hn by (rewrite Hp; apply NoDup_elements).
  split; [|intros e; rewrite Hp; apply elem_of_elements].
  revert Hs Hn. generalize (merge_sort N.le (elements X)). clear.
  induction 1 as [|x l Hs IH Hall]; intros Hn; [constructor|].
  apply NoDup_cons in Hn as [Hx Hn]. constructor; [by apply IH|].
  rewrite List.Forall_forall in Hall |- *. intros y Hy. specialize (Hall y Hy).
  apply list_elem_of_In in Hy. assert (x ≠ y) by (by intros ->). lia.
Qed.

Lemma has_row w ty e : has w ty e = true ↔ is_Some (row w ty e).
Proof. unfold has. by rewrite bool_decide_eq_true. Qed.

Lemma exactly_entities_with w ty : exactly (entities_with w ty) (λ e, has w ty e = true).
Proof.
  unfold entities_with, has, row. destruct (store_of w ty) as [s|]; simpl.
  - eapply exactly_iff; [|apply exactly_ascending]. intros e. simpl.
    rewrite bool_decide_eq_true, elem_of_dom. done.
  - split; [constructor|]. intros e. rewrite elem_of_nil. by split.
Qed.

Lemma entities_with_dyn_eq w ty : entities_with_dyn w ty = entities_with w ty.
Proof. unfold entities_with_dyn, entities_with. by destruct (store_of w ty). Qed.

Lemma exactly_dense w : exactly (dense_scan w) (λ e, (e < next_entity (shared w))%N).
Proof.
  unfold dense_scan. split.
  - assert (∀ n k, StronglySorted N.lt (N.of_nat <$> seq k n)) as Hs; [|apply Hs].
    induction n as [|n IH]; intros k; [constructor|]. csimpl. constructor; [apply IH|].
    rewrite List.Forall_forall. intros y Hy%list_elem_of_In.
    apply list_elem_of_fmap in Hy as (j & -> & [Hj _]%elem_of_seq). lia.
  - intros e. rewrite list_elem_of_fmap. split.
    + intros (j & -> & Hj%elem_of_seq). lia.
    + intros He. exists (N.to_nat e). rewrite elem_of_seq. split; [lia|lia].
Qed.

(** *** The presence bitmap is the probe *)

Lemma probe_spec w tys e : probe w tys e = true ↔ ∀ ty, ty ∈ tys → is_Some (row w ty e).
Proof. unfold probe. rewrite forallb_elem_of. by setoid_rewrite has_row. Qed.

Lemma world_mask_spec X w tys :
  wf X w → ∃ mask, world_mask w tys = Done mask ∧
    (∀ m, mask = Some m → ∃ p, presence w = Some p ∧
       (∀ e, presence_matches p e m = true ↔ probe w tys e = true) ∧
       (tys ≠ [] → exactly (entities_matching p m) (λ e, probe w tys e = true))).
Proof.
  intros Hwf. unfold world_mask. pose proof (wf_pres _ _ Hwf) as Hp.
  destruct (presence w) as [p|]; [|by eexists]. destruct Hp as (Hwp & _ & Hex).
  destruct (presence_mask_spec p tys Hwp) as (out & Hout & Hspec). exists out. split; [done|].
  intros m ->. destruct Hspec as [_ Hknown]. exists p. split; [done|].
  assert (∀ e, (∀ ty, ty ∈ tys → present p ty e) ↔ probe w tys e = true) as Hpr.
  { intros e. rewrite probe_spec. split; intros Hall ty Hty; specialize (Hall ty Hty).
    - by apply Hex in Hall as [_ ?].
    - apply Hex. split; [by apply Hknown|done]. }
  split.
  - intros e. rewrite <-Hpr. by apply presence_matches_aux.
  - intros Hne. destruct (entities_matching_aux p tys m Hwp Hout Hne) as [Hs Hin].
    split; [done|]. intros e. by rewrite Hin, Hpr.
Qed.

Lemma min_by_key_elem {A} (key : A → N) best l : min_by_key key best l ∈ best :: l.
Proof.
  revert best. induction l as [|x l IH]; intros best; simpl; [by left|].
  destruct (bool_decide _).
  - specialize (IH x). by right.
  - specialize (IH best). rewrite !elem_of_cons in *. tauto.
Qed.

(** The entities a handle of a facet enumerates. *)
Definition facet_member w fac e : Prop :=
  match required_types fac with
  | [] => (e < next_entity (shared w))%N
  | tys => probe w tys e = true
  end.

Lemma facet_rows_exact X w fac :
  wf X w → ∃ l, facet_rows w fac = Done l ∧ exactly l (facet_member w fac).
Proof.
  intros Hwf. unfold facet_rows, facet_member. destruct (required_types fac) as [|ty tys].
  { eexists. split; [done|]. apply exactly_dense. }
  destruct (world_mask_spec X w (ty :: tys) Hwf) as (mask & -> & Hmask). simpl.
  destruct mask as [m|].
  - destruct (Hmask m eq_refl) as (p & -> & _ & Hex). eexists. split; [done|].
    by apply Hex.
  - set (driver := min_by_key (store_len_dyn w) ty tys).
    pose proof (min_by_key_elem (store_len_dyn w) ty tys) as Hd. fold driver in Hd.
    eexists. split; [done|]. eapply exactly_iff; [|apply exactly_filter; rewrite entities_with_dyn_eq; apply exactly_entities_with].
    intros e. simpl. split; [tauto|]. intros Hpr. split; [|done].
    apply has_row. by apply (probe_spec w (ty :: tys) e).
Qed.

(** *** Matching the parts *)

Lemma parts_required_spec w parts tys e :
  parts_required parts = Some tys → probe w tys e = parts_match w parts e.
Proof.
  revert tys. induction parts as [|part parts IH]; intros tys; simpl; [by intros [= <-]|].
  destruct part; simpl; try (intros; by apply IH);
    (destruct (parts_required parts) as [more|]; simpl; [|done]); intros [= <-]; simpl;
    by rewrite (IH more eq_refl).
Qed.

Lemma retain_exact X w parts l P :
  wf X w → exactly l P → ∃ l', retain_matching_parts w parts l = Done l' ∧
    exactly l' (λ e, P e ∧ parts_match w parts e = true).
Proof.
  intros Hwf Hl. unfold retain_matching_parts.
  destruct (parts_required parts) as [tys|] eqn:Hreq; simpl.
  - destruct (world_mask_spec X w tys Hwf) as (mask & -> & Hmask). simpl. destruct mask as [m|].
    + destruct (Hmask m eq_refl) as (p & -> & Hm & _). eexists. split; [done|].
      eapply exactly_iff; [|by apply exactly_filter]. intros e. simpl.
      by rewrite Hm, (parts_required_spec w parts tys).
    + eexists. split; [done|]. by apply exactly_filter.
  - eexists. split; [done|]. by apply exactly_filter.
Qed.

Lemma retain_list X w parts l :
  wf X w → retain_matching_parts w parts l = Done (filter (λ e, parts_match w parts e = true) l).
Proof.
  intros Hwf. unfold retain_matching_parts.
  destruct (parts_required parts) as [tys|] eqn:Hreq; simpl; [|done].
  destruct (world_mask_spec X w tys Hwf) as (mask & -> & Hmask). simpl. destruct mask as [m|]; [|done].
  destruct (Hmask m eq_refl) as (p & -> & Hm & _). f_equal. apply list_filter_iff. intros e.
  by rewrite Hm, (parts_required_spec w parts tys).
Qed.

(** The parts a row must have rule out the others only when one of them
    drives: a required part, or, failing that, no [Tracked] one. *)
Definition part_drives part : bool := match part with PartRef _ | PartMut _ => true | _ => false end.
Definition part_tracked part : bool := match part with PartTracked _ => true | _ => false end.

Lemma existsb_required fac :
  existsb (λ p, negb (part_optional p)) fac = negb (bool_decide (required_types fac = [])).
Proof.
  unfold required_types. induction fac as [|p fac IH]; simpl; [done|]. rewrite filter_cons.
  destruct (part_optional p); simpl; [by rewrite IH|done].
Qed.

(** The chosen part is a smallest one. *)
Lemma best_index_spec w parts :
  parts ≠ [] → (∃ p, p ∈ parts ∧ (part_store_len w p < u64_max)%N) →
  ∃ part, parts !! best_index w parts = Some part ∧ (part_store_len w part < u64_max)%N.
Proof.
  intros _ Hex. unfold best_index.
  set (step := λ '(best_len, best, index) part,
      let len := part_store_len w part in
      if bool_decide (len < best_len)%N then (len, index, S index) else (best_len, best, S index)).
  assert (∀ done todo bl b, let st := foldl step (bl, b, length done) todo in
    (bl < u64_max → ∃ p, done !! b = Some p ∧ part_store_len w p = bl)%N → (bl ≤ u64_max)%N →
    (bl < u64_max)%N ∨ (∃ p, p ∈ todo ∧ part_store_len w p < u64_max)%N →
    ∃ p, (done ++ todo) !! st.1.2 = Some p ∧ (part_store_len w p < u64_max)%N) as Hloop.
  { intros done todo. revert done. induction todo as [|part todo IH]; intros done bl b; simpl.
    - intros Hb _ [Hlt|(p & Hin & _)]; [|by apply elem_of_nil in Hin].
      destruct (Hb Hlt) as (p & Hp & <-). exists p. rewrite app_nil_r. done.
    - intros Hb Hle Hor. specialize (IH (done ++ [part])). rewrite length_app in IH. simpl in IH.
      rewrite Nat.add_1_r in IH. rewrite <-app_assoc in IH. simpl in IH.
      case_bool_decide as Hlt.
      + apply IH; [|lia|left; lia]. intros _. exists part. split; [|done].
        by rewrite lookup_app_r, Nat.sub_diag by lia.
      + apply IH; [|done|].
        * intros Hm. destruct (Hb Hm) as (p & Hp & Hl). exists p. split; [|done]. by apply lookup_app_l_Some.
        * destruct Hor as [?|(p & [->|Hin]%elem_of_cons & Hp)]; [by left|left; lia|right; by exists p]. }
  apply (Hloop [] parts u64_max 0); [lia|done|by right].
Qed.

Lemma best_index_none w parts :
  (∀ p, p ∈ parts → part_store_len w p = u64_max) → best_index w parts = 0.
Proof.
  intros Hall. unfold best_index.
  assert (∀ index, (foldl (λ '(best_len, best, index) part,
      let len := part_store_len w part in
      if bool_decide (len < best_len)%N then (len, index, S index) else (best_len, best, S index))
      (u64_max, 0, index) parts).1.2 = 0) as Hloop; [|apply Hloop].
  induction parts as [|p parts IH]; intros index; [done|]. simpl.
  rewrite (Hall p) by by left. rewrite bool_decide_eq_false_2 by lia. apply IH.
  intros p' Hp'. apply Hall. by right.
Qed.

(** No store holds [usize::MAX] rows. *)
Definition sizes_fit w : Prop := ∀ ty, (N.of_nat (store_len w ty) < u64_max)%N.
Definition addressable w : Prop := ids_allocated w ∧ sizes_fit w.

(** Some part restricts the rows, or none pretends to. *)
Definition row_driven q : Prop :=
  match q with
  | ParamRow fac parts => parts ≠ [] ∧
      (required_types fac ≠ [] ∨ existsb part_drives parts = true ∨ existsb part_tracked parts = false)
  | _ => True
  end.

Lemma part_drives_len w p : part_drives p = false → part_store_len w p = u64_max.
Proof. by destruct p. Qed.

Lemma parts_match_elem w parts p e : parts_match w parts e = true → p ∈ parts → part_matches w p e = true.
Proof. unfold parts_match. rewrite forallb_elem_of. eauto. Qed.

(** The candidates of the chosen part are enough, and few enough. *)
Lemma best_candidates X w parts :
  wf X w → addressable w → parts ≠ [] →
  existsb part_drives parts = true ∨ existsb part_tracked parts = false →
  ∃ part l P, parts !! best_index w parts = Some part ∧ part_candidates w part = Done l ∧ exactly l P ∧
    ∀ e, P e ↔ (e < next_entity (shared w))%N ∧ part_matches w part e = true.
Proof.
  intros Hwf [Hids Hfit] Hne Hor.
  destruct (existsb part_drives parts) eqn:Hdr.
  - apply existsb_elem_of in Hdr as (p & Hp & Hd).
    destruct (best_index_spec w parts Hne) as (part & Hl & Hlen).
    { exists p. split; [done|]. destruct p; simpl in *; try done; apply Hfit. }
    assert (∀ ty, part_candidates w part = Done (entities_with w ty) → (∀ e, part_matches w part e = has w ty e) →
      ∃ part l P, parts !! best_index w parts = Some part ∧ part_candidates w part = Done l ∧ exactly l P ∧
        ∀ e, P e ↔ (e < next_entity (shared w))%N ∧ part_matches w part e = true) as Hty.
    { intros ty Hc Hm. exists part, (entities_with w ty), (λ e, has w ty e = true).
      split; [done|]. split; [done|]. split; [apply exactly_entities_with|].
      intros e. rewrite Hm. split; [|tauto]. intros He. split; [by eapply Hids|done]. }
    destruct part; simpl in Hlen; try lia; by eapply Hty.
  - destruct Hor as [|Htr]; [done|].
    assert (∀ p, p ∈ parts → part_drives p = false ∧ part_tracked p = false) as Hall.
    { intros p Hp. split; apply not_true_is_false; intros Hx.
      - assert (existsb part_drives parts = true) by (apply existsb_elem_of; eauto). congruence.
      - assert (existsb part_tracked parts = true) by (apply existsb_elem_of; eauto). congruence. }
    rewrite best_index_none by (intros p Hp; by apply part_drives_len, Hall).
    destruct parts as [|part parts]; [done|]. destruct (Hall part ltac:(left)) as [Hd Ht].
    exists part, (dense_scan w), (λ e, (e < next_entity (shared w))%N).
    split; [done|]. split; [by destruct part|]. split; [apply exactly_dense|].
    intros e. assert (part_matches w part e = true) as -> by by destruct part. tauto.
Qed.

Lemma param_rows_exact X w q :
  wf X w → addressable w → row_driven q →
  ∃ l, param_rows w q = Done l ∧
    exactly l (λ e, (e < next_entity (shared w))%N ∧ row_matches w q e = true).
Proof.
  intros Hwf [Hids Hfit] Hdriven.
  assert (∀ fac e, facet_member w fac e ↔
    (e < next_entity (shared w))%N ∧ probe w (required_types fac) e = true) as Hmember.
  { intros fac e. unfold facet_member. destruct (required_types fac) as [|ty tys].
    - simpl. tauto.
    - split; [|tauto]. intros Hp. split; [|done].
      apply (Hids ty), has_row. eapply probe_spec; [exact Hp|by left]. }
  destruct q as [fac|ty|ty|fac parts]; simpl.
  - destruct (facet_rows_exact X w fac Hwf) as (l & -> & Hl). exists l. split; [done|].
    by eapply exactly_iff; [|exact Hl].
  - eexists. split; [done|]. eapply exactly_iff; [|apply exactly_entities_with].
    intros e. simpl. split; [|tauto]. intros He. split; [by eapply Hids|done].
  - eexists. split; [done|]. eapply exactly_iff; [|apply exactly_entities_with].
    intros e. simpl. split; [|tauto]. intros He. split; [by eapply Hids|done].
  - destruct Hdriven as [Hne Hor]. rewrite existsb_required.
    case_bool_decide as Hreq; simpl.
    + rewrite Hreq. simpl. destruct Hor as [|Hor]; [done|].
      destruct (best_candidates X w parts Hwf (conj Hids Hfit) Hne Hor) as (part & l & P & Hp & Hc & Hl & HP).
      rewrite Hp, Hc. simpl. case_bool_decide as Hmany.
      * destruct (retain_exact X w parts l P Hwf Hl) as (l' & -> & Hl'). exists l'. split; [done|].
        eapply exactly_iff; [|exact Hl']. intros e. simpl. rewrite HP. split; [tauto|].
        intros [? Hm]. split; [|done]. split; [done|]. eapply parts_match_elem; [exact Hm|].
        by eapply list_elem_of_lookup_2.
      * exists l. split; [done|]. eapply exactly_iff; [|exact Hl]. intros e. rewrite HP.
        destruct parts as [|p1 [|]]; [done| |simpl in Hmany; lia].
        assert (part = p1) as ->.
        { apply list_elem_of_lookup_2 in Hp. by apply list_elem_of_singleton in Hp. }
        simpl. by rewrite andb_true_r.
    + destruct (facet_rows_exact X w fac Hwf) as (l & -> & Hl). simpl.
      rewrite bool_decide_eq_true_2 by (destruct parts; [done|simpl; lia]).
      destruct (retain_exact X w parts l _ Hwf Hl) as (l' & -> & Hl'). exists l'. split; [done|].
      eapply exactly_iff; [|exact Hl']. intros e. simpl. rewrite Hmember, andb_true_iff. tauto.
Qed.

(** *** Filters *)

(** Whether a filter offers candidates. *)
Fixpoint offers f : bool :=
  match f with
  | FWith _ | FEq _ => true
  | FNone | FWithout _ | FIn _ _ => false
  | FAnd l r | FWhereAnd l r => offers l || offers r
  end.

Lemma filter_candidates_exact w f :
  ids_allocated w →
  match filter_candidates w f with
  | None => offers f = false
  | Some l => offers f = true ∧ ∃ P, exactly l P ∧
      (∀ e, P e → (e < next_entity (shared w))%N) ∧ (∀ e, filter_matches w f e = true → P e)
  end.
Proof.
  intros Hids.
  assert (∀ ty, ∃ P, exactly (entities_with w ty) P ∧ (∀ e, P e → (e < next_entity (shared w))%N) ∧
    (∀ e, has w ty e = true → P e)) as Hwith.
  { intros ty. exists (λ e, has w ty e = true). split; [apply exactly_entities_with|].
    split; [apply Hids|done]. }
  assert (∀ l r, match filter_candidates w l with
      | None => offers l = false
      | Some cl => offers l = true ∧ ∃ P, exactly cl P ∧
          (∀ e, P e → (e < next_entity (shared w))%N) ∧ (∀ e, filter_matches w l e = true → P e)
      end → match filter_candidates w r with
      | None => offers r = false
      | Some cl => offers r = true ∧ ∃ P, exactly cl P ∧
          (∀ e, P e → (e < next_entity (shared w))%N) ∧ (∀ e, filter_matches w r e = true → P e)
      end → match filter_candidates w (FAnd l r) with
      | None => offers (FAnd l r) = false
      | Some cl => offers (FAnd l r) = true ∧ ∃ P, exactly cl P ∧
          (∀ e, P e → (e < next_entity (shared w))%N) ∧ (∀ e, filter_matches w (FAnd l r) e = true → P e)
      end) as Hand.
  { intros l r Hl Hr. simpl. destruct (filter_candidates w l) as [cl|].
    - destruct Hl as (-> & P & HP & Hb & Hm). destruct (filter_candidates w r) as [cr|].
      + destruct Hr as (_ & Q & [_ HQ] & _ & Hm2). split; [done|].
        exists (λ e, P e ∧ e ∈ cr). split; [|split].
        * by apply exactly_filter.
        * intros e [? _]. by apply Hb.
        * intros e [? ?]%andb_true_iff. split; [by apply Hm|]. by apply HQ, Hm2.
      + split; [done|]. exists P. split; [done|]. split; [done|].
        intros e [? _]%andb_true_iff. by apply Hm.
    - rewrite Hl. destruct (filter_candidates w r) as [cr|]; [|done].
      destruct Hr as (-> & P & HP & Hb & Hm). split; [done|]. exists P. split; [done|]. split; [done|].
      intros e [_ ?]%andb_true_iff. by apply Hm. }
  induction f; simpl; try done; try (split; [done|apply Hwith]); by apply Hand.
Qed.

(** ** Properties of enumeration *)

(** A bare facet anchor does not check the candidates of a filter. *)
Definition hint_checked q f : Prop :=
  match q with ParamEntity fac => required_types fac = [] ∨ offers f = false | _ => True end.

Lemma rows_hinted_some X w q l :
  wf X w →
  rows_hinted w q (Some l) =
  Done (match q with ParamEntity _ => l | _ => filter (λ e, row_matches w q e = true) l end).
Proof.
  intros Hwf. destruct q as [fac|ty|ty|fac parts]; simpl; try done.
  rewrite (retain_list X) by done. f_equal. case_bool_decide as Hr.
  - rewrite Hr. simpl. done.
  - rewrite list_filter_filter. apply list_filter_iff. intros e. rewrite andb_true_iff. tauto.
Qed.

Lemma filtered_rows_aux X w q f :
  wf X w → addressable w → row_driven q → hint_checked q f →
  ∃ l, filtered_rows w q f = Done l ∧
    exactly l (λ e, (e < next_entity (shared w))%N ∧ row_matches w q e = true ∧
                    filter_matches w f e = true).
Proof.
  intros Hwf Hadd Hdriven Hchecked. unfold filtered_rows.
  pose proof (filter_candidates_exact w f (proj1 Hadd)) as Hc.
  destruct (filter_candidates w f) as [l|].
  - destruct Hc as (Hoff & P & Hl & Hb & Hm). rewrite (rows_hinted_some X) by done. simpl.
    eexists. split; [done|].
    assert (∀ l' Q, exactly l' Q → (∀ e, Q e ∧ filter_matches w f e = true ↔
      (e < next_entity (shared w))%N ∧ row_matches w q e = true ∧ filter_matches w f e = true) →
      exactly (filter (λ e, filter_matches w f e = true) l')
        (λ e, (e < next_entity (shared w))%N ∧ row_matches w q e = true ∧ filter_matches w f e = true)) as Hfin.
    { intros l' Q Hl' HQ. eapply exactly_iff; [|by apply exactly_filter]. exact HQ. }
    destruct q as [fac|ty|ty|fac parts].
    + eapply Hfin; [exact Hl|]. intros e. destruct Hchecked as [Hreq|Hoff']; [|congruence].
      simpl. rewrite Hreq. simpl. split; [|naive_solver]. intros [? ?]. split; [by apply Hb|done].
    + eapply Hfin; [by apply exactly_filter|]. intros e. simpl. specialize (Hb e). specialize (Hm e). tauto.
    + eapply Hfin; [by apply exactly_filter|]. intros e. simpl. specialize (Hb e). specialize (Hm e). tauto.
    + eapply Hfin; [by apply exactly_filter|]. intros e. specialize (Hb e). specialize (Hm e). tauto.
  - destruct (param_rows_exact X w q Hwf Hadd Hdriven) as (l & Hl & Hex).
    change (rows_hinted w q None) with (param_rows w q). rewrite Hl. simpl.
    eexists. split; [done|]. eapply exactly_iff; [|by apply exactly_filter]. intros e. simpl. tauto.
Qed.

(** The rows of a bare anchor whose filter offers candidates. *)
Definition unchecked_anchor q f : bool :=
  match q with ParamEntity fac => negb (bool_decide (required_types fac = [])) && offers f | _ => false end.

Lemma hint_checked_iff q f : hint_checked q f ↔ unchecked_anchor q f = false.
Proof.
  unfold hint_checked, unchecked_anchor. destruct q as [fac| | |]; try done.
  case_bool_decide; destruct (offers f); simpl; naive_solver.
Qed.

Lemma unchecked_anchor_rows X w q f :
  wf X w → addressable w → unchecked_anchor q f = true →
  ∃ l, filtered_rows w q f = Done l ∧
    exactly l (λ e, (e < next_entity (shared w))%N ∧ filter_matches w f e = true).
Proof.
  intros Hwf Hadd. unfold unchecked_anchor, filtered_rows. destruct q as [fac| | |]; try done.
  intros [_ Hoff]%andb_true_iff. pose proof (filter_candidates_exact w f (proj1 Hadd)) as Hc.
  destruct (filter_candidates w f) as [l|]; [|congruence]. destruct Hc as (_ & P & Hl & Hb & Hm).
  rewrite (rows_hinted_some X) by done. simpl. eexists. split; [done|].
  eapply exactly_iff; [|by apply exactly_filter]. intros e. simpl. specialize (Hb e). specialize (Hm e). tauto.
Qed.

(** C11: enumeration yields exactly what it should, and never fails.  Whichever
    store drives it, whether the facet is probed or scanned in the presence
    bitmap, and whether or not the filter offers candidates, the rows are exactly
    the allocated entities that satisfy the query and its filter, each once, in
    ascending order.  One kind of query is an exception, and the theorem says
    what it yields: a bare [Entity<H>] whose facet requires components, under
    a filter that offers candidates, yields the entities that satisfy the filter,
    members of the facet or not ([facet_anchor_unchecked]).  Two side conditions: the
    world has handed out the ids it stores and no store holds [usize::MAX] rows,
    and a tuple without any required part (of the facet or of the tuple) has no
    [Tracked] part, which would drive the enumeration of the others
    ([row_driven]). *)
Theorem filtered_rows_exact X w q f :
  wf X w → addressable w → row_driven q →
  ∃ l, filtered_rows w q f = Done l ∧ StronglySorted N.lt l ∧
    ∀ e, e ∈ l ↔ (e < next_entity (shared w))%N ∧
                 (unchecked_anchor q f = true ∨ row_matches w q e = true) ∧
                 filter_matches w f e = true.
Proof.
  intros Hwf Hadd Hd. destruct (unchecked_anchor q f) eqn:Hu.
  - destruct (unchecked_anchor_rows X w q f Hwf Hadd Hu) as (l & Hl & Hs & Hin).
    exists l. split; [done|]. split; [done|]. intros e. rewrite Hin. tauto.
  - destruct (filtered_rows_aux X w q f Hwf Hadd Hd (proj2 (hint_checked_iff q f) Hu)) as (l & Hl & Hs & Hin).
    exists l. split; [done|]. split; [done|]. intros e. rewrite Hin. naive_solver.
Qed.

Lemma prepared_rows_plain X w q f candidates :
  wf X w → prepared_rows w q f candidates = filtered_rows_from_candidates w q f candidates.
Proof.
  intros Hwf. unfold prepared_rows, filtered_rows_from_candidates.
  assert (∀ ty e, resolved_contains (resolve_entries w ty) e = has w ty e) as Hres.
  { intros ty e. unfold resolved_contains, resolve_entries, has, row. destruct (store_of w ty); done. }
  destruct q as [fac|ty|ty|fac parts]; try done.
  - simpl. do 2 f_equal. apply list_filter_iff. intros e. by rewrite Hres.
  - simpl. do 2 f_equal. apply list_filter_iff. intros e. by rewrite Hres.
  - rewrite (rows_hinted_some X) by done. unfold entity_rows_new.
    set (required := required_types fac).
    assert (∀ mask, (∀ m, mask = Some m → ∃ p more, presence w = Some p ∧ parts_required parts = Some more ∧
        ∀ e, presence_matches p e m = true ↔ probe w (required ++ more) e = true) →
      filter (λ e, entity_rows_match w (MkEntityRows required mask) parts e = true) candidates =
      filter (λ e, row_matches w (ParamRow fac parts) e = true) candidates) as Hmask.
    { intros mask Hm. apply list_filter_iff. intros e. unfold entity_rows_match. simpl.
      destruct mask as [m|]; [|done]. destruct (Hm m eq_refl) as (p & more & -> & Hmore & ->).
      unfold probe. rewrite forallb_app, <-(parts_required_spec w parts more e Hmore). done. }
    destruct (parts_required parts) as [more|] eqn:Hreq.
    + destruct (world_mask_spec X w (required ++ more) Hwf) as (mask & -> & Hm). simpl.
      rewrite Hmask; [done|]. intros m Hx. destruct (Hm m Hx) as (p & Hp & Hm' & _). by exists p, more.
    + simpl. by rewrite Hmask.
Qed.

(** The prepared matcher of the planner is the plain one: for every list
    of candidates it selects the same rows in the same order. *)
Theorem prepared_rows_agree X w q f candidates :
  wf X w → prepared_rows w q f candidates = filtered_rows_from_candidates w q f candidates.
Proof. apply prepared_rows_plain. Qed.

End query.

(** ** A facet anchor under a driving filter

    [Query<Entity<H>, With<T>>] enumerates the candidates of [With<T>] without
    checking them against [H]: a handle [Entity<H>] is built for an entity
    that lacks a required part of [H]. *)
Definition demo_anchor : QueryParam := ParamEntity [MkFacetPart ty_num false; MkFacetPart ty_edge false].
(** Entity 3 carries an edge and no number. *)
Definition demo_only_edge : World := run demo_w0 (insert demo_w0 3 ty_edge (v_edge 5) None).

Lemma facet_anchor_unchecked :
  filtered_rows demo_only_edge demo_anchor (FWith ty_edge) = Done [3%N] ∧
  row_matches demo_only_edge demo_anchor 3 = false ∧
  filtered_rows demo_only_edge demo_anchor FNone = Done [].
Proof. split_and!; vm_compute; reflexivity. Qed.

(** ** Concrete runs *)

(** Deciding [addressable] by walking the stores. *)
Definition addressable_b `{ComponentTypes} `{HashOrder} (w : World) : bool :=
  forallb (λ '(_, s), forallb (λ e, bool_decide (e < next_entity (shared w))%N) (store_entities s)
                      && bool_decide (N.of_nat (size (entries s)) < u64_max)%N) (stores_iter (stores w)).

Lemma addressable_b_spec `{ComponentTypes} `{HashOrder} X w :
  wf X w → addressable_b w = true → addressable w.
Proof.
  intros Hwf. unfold addressable_b. rewrite forallb_elem_of. intros Hall.
  assert (∀ ty s, store_of w ty = Some s →
    (∀ e, e ∈ dom (entries s) → (e < next_entity (shared w))%N) ∧ (N.of_nat (size (entries s)) < u64_max)%N) as Hs.
  { intros ty s Hst. specialize (Hall (ty, s)). rewrite elem_of_stores_iter in Hall by apply (wf_st _ _ Hwf).
    specialize (Hall Hst). apply andb_true_iff in Hall as [Ha Hb]. apply bool_decide_eq_true in Hb.
    split; [|done]. intros e He. rewrite forallb_elem_of in Ha.
    apply (bool_decide_eq_true (e < _)%N), Ha. by apply (exactly_ascending (dom (entries s))). }
  split.
  - intros ty e Hh. apply has_row in Hh as [entry He]. unfold row in He.
    destruct (store_of w ty) as [s|] eqn:Hst; [|done]. apply (Hs _ _ Hst), elem_of_dom. by exists entry.
  - intros ty. unfold store_len. destruct (store_of w ty) as [s|] eqn:Hst; simpl; [|done].
    by apply (Hs _ _ Hst).
Qed.

(** Six ids are allocated; 3 carries an edge to 5, which carries the inverse. *)
Definition demo_spawned : World :=
  Nat.iter 6 (λ w, fst (spawn_empty w)) demo_w0.
Definition demo_rows : World := run demo_spawned (insert demo_spawned 3 ty_edge (v_edge 5) None).
Definition demo_query : QueryParam := ParamRow [] [PartOpt ty_num; PartRef ty_edge].

Lemma demo_wf_rows : wf nothing_taken demo_rows.
Proof.
  apply (world_steps_good (nothing_taken, demo_w0) (nothing_taken, demo_rows)); [|exact demo_wf0].
  do 6 (eapply rtc_l; [apply ws_apply, as_spawn|]).
  apply rtc_once, ws_apply, (as_insert _ 3 ty_edge (v_edge 5) None). vm_compute. reflexivity.
Qed.

Lemma filtered_rows_exact_witness :
  filtered_rows demo_rows demo_query (FWithout ty_num) = Done [3%N] ∧
  ∃ l, filtered_rows demo_rows demo_query (FWithout ty_num) = Done l ∧ StronglySorted N.lt l ∧
    ∀ e, e ∈ l ↔ (e < 6)%N ∧ (false = true ∨ row_matches demo_rows demo_query e = true) ∧
                 filter_matches demo_rows (FWithout ty_num) e = true.
Proof.
  split; [vm_compute; reflexivity|].
  apply (filtered_rows_exact nothing_taken demo_rows demo_query (FWithout ty_num) demo_wf_rows).
  - apply (addressable_b_spec nothing_taken _ demo_wf_rows). vm_compute. reflexivity.
  - split; [discriminate|]. right. left. reflexivity.
Defined.

Lemma prepared_rows_agree_witness :
  prepared_rows demo_rows demo_query FNone [5%N; 3%N] = Done [3%N] ∧
  prepared_rows demo_rows demo_query FNone [5%N; 3%N] =
    filtered_rows_from_candidates demo_rows demo_query FNone [5%N; 3%N].
Proof.
  split; [vm_compute; reflexivity|].
  apply (prepared_rows_agree nothing_taken demo_rows demo_query FNone [5%N; 3%N] demo_wf_rows).
Defined.
