(* ===== verification/ExternalQuery.v ===== *)
(** * External queries and runtime arguments ([query.rs])

    [Bowl::scoop] filters rows with expressions over arguments bound at run
    time.  Equality goes through the fingerprint index when the argument has a
    fingerprint; the theorem says the shortcut returns the same rows. *)
From stdpp Require Import base numbers sets gmap fin_maps sorting list.
From S2P Require Import Prelude Components Demo Stores Presence World WorldInv Ownership WorldOps Query.

(** ** External filters

    [Bowl::scoop] queries filter with runtime arguments: [QueryArgs], the
    expressions inside [Where], and the fingerprint index behind [Eq]. *)

(** [PartialEq] and [PartialOrd] of component values; equal values hash
    equally, as [Hash] requires. *)
Class ValueOrder `{ComponentTypes} := {
  value_eqb : TypeId → Value → Value → bool;
  value_geb : TypeId → Value → Value → bool;
  value_eqb_fingerprint ty v1 v2 :
    value_eqb ty v1 v2 = true → value_fingerprint ty v1 = value_fingerprint ty v2;
}.

Section external.
Context `{ValueOrder} `{HashOrder}.
Implicit Types (w : World) (e : Entity) (ty : TypeId) (q : QueryParam).

Record QueryArgs := MkArgs {
  args_shared : gmap TypeId Value;
  args_scoped : gmap (N * TypeId) Value;
}.

Definition args_insert (a : QueryArgs) (scope : option N) ty (v : Value) : result QueryArgs :=
  match scope with
  | Some s =>
      _ ← check DuplicateArgument (bool_decide (args_scoped a !! (s, ty) = None));
      Done (MkArgs (args_shared a) (<[(s, ty) := v]> (args_scoped a)))
  | None =>
      _ ← check DuplicateArgument (bool_decide (args_shared a !! ty = None));
      Done (MkArgs (<[ty := v]> (args_shared a)) (args_scoped a))
  end.

Definition args_lookup (a : QueryArgs) (scope : option N) ty : option Value :=
  match (s ← scope; args_scoped a !! (s, ty)) with Some v => Some v | None => args_shared a !! ty end.

Definition args_get (a : QueryArgs) (scope : option N) ty : result Value :=
  expect MissingArgument (args_lookup a scope ty).

Inductive FilterExpr :=
  | EEq (ty : TypeId)
  | EGte (ty : TypeId)
  | EWith (ty : TypeId)
  | EWithout (ty : TypeId)
  | EAnd (a b : FilterExpr)
  | EOr (a b : FilterExpr)
  | ENot (a : FilterExpr).

Fixpoint expr_matches w (a : QueryArgs) (scope : option N) (x : FilterExpr) e : result bool :=
  match x with
  | EEq ty =>
      match row_value w ty e with
      | None => Done false
      | Some v => arg ← args_get a scope ty; Done (value_eqb ty v arg)
      end
  | EGte ty =>
      match row_value w ty e with
      | None => Done false
      | Some v => arg ← args_get a scope ty; Done (value_geb ty v arg)
      end
  | EWith ty => Done (has w ty e)
  | EWithout ty => Done (negb (has w ty e))
  | EAnd x y => m ← expr_matches w a scope x e; if m : bool then expr_matches w a scope y e else Done false
  | EOr x y => m ← expr_matches w a scope x e; if m : bool then Done true else expr_matches w a scope y e
  | ENot x => m ← expr_matches w a scope x e; Done (negb m)
  end.

Fixpoint expr_candidates w (a : QueryArgs) (scope : option N) (x : FilterExpr)
    : result (option (list Entity)) :=
  match x with
  | EEq ty =>
      arg ← args_get a scope ty;
      Done (entities_with_fingerprint w ty <$> value_fingerprint ty arg)
  | EWith ty => Done (Some (entities_with w ty))
  | EAnd x y =>
      c ← expr_candidates w a scope x;
      match c with Some l => Done (Some l) | None => expr_candidates w a scope y end
  | _ => Done None
  end.

(** [ExternalFilter]: [()], [Where<F>], [With<T>], [Without<T>]. *)
Inductive ExternalFilter := XNone | XWhere (x : FilterExpr) | XWith (ty : TypeId) | XWithout (ty : TypeId).

Definition external_matches w (a : QueryArgs) (scope : option N) (x : ExternalFilter) e : result bool :=
  match x with
  | XNone => Done true
  | XWhere x => expr_matches w a scope x e
  | XWith ty => Done (has w ty e)
  | XWithout ty => Done (negb (has w ty e))
  end.

Definition external_candidates w (a : QueryArgs) (scope : option N) (x : ExternalFilter)
    : result (option (list Entity)) :=
  match x with
  | XWhere x => expr_candidates w a scope x
  | XWith ty => Done (Some (entities_with w ty))
  | _ => Done None
  end.

Definition external_filtered_rows w q (a : QueryArgs) (scope : option N) (x : ExternalFilter)
    : result (list Entity) :=
  candidates ← external_candidates w a scope x;
  rows ← rows_hinted w q candidates;
  filter_result (external_matches w a scope x) rows.

Definition external_mut_rows w ty (a : QueryArgs) (scope : option N) (x : ExternalFilter)
    : result (list (Entity * option Revision)) :=
  candidates ← external_candidates w a scope x;
  let candidates := match candidates with
                    | Some l => filter (λ e, has w ty e = true) l
                    | None => entities_with w ty
                    end in
  filter_result (external_matches w a scope x) candidates ≫= λ rows : list Entity,
  Done ((λ e, (e, row_revision w ty e)) <$> rows).

(** Every argument the filter reads is bound. *)
Fixpoint expr_bound (a : QueryArgs) (scope : option N) (x : FilterExpr) : Prop :=
  match x with
  | EEq ty | EGte ty => is_Some (args_lookup a scope ty)
  | EAnd x y | EOr x y => expr_bound a scope x ∧ expr_bound a scope y
  | ENot x => expr_bound a scope x
  | _ => True
  end.
Definition external_bound (a : QueryArgs) (scope : option N) (x : ExternalFilter) : Prop :=
  match x with XWhere x => expr_bound a scope x | _ => True end.

(** No in-place write is waiting to be reconciled. *)
Definition reconciled w : Prop :=
  ∀ ty e entry v, row w ty e = Some entry → cell_get w (entry_value entry) = Some v →
    entry_fingerprint entry = value_fingerprint ty v.

Lemma exactly_fingerprint X w ty fp :
  wf X w → exactly (entities_with_fingerprint w ty fp) (λ e, row_fingerprint w ty e = Some fp).
Proof.
  intros Hwf. unfold entities_with_fingerprint, row_fingerprint, row.
  destruct (store_of w ty) as [s|] eqn:Hs; simpl.
  - destruct (wf_store _ _ Hwf _ _ Hs) as [Hok _].
    destruct (so_index _ Hok) as [Hix _]. unfold fingerprint_bucket.
    assert (∀ e, e ∈ default ∅ (by_fingerprint s !! fp) ↔
      (entry ← entries s !! e; entry_fingerprint entry) = Some fp) as Hmem.
    { intros e. rewrite Hix. unfold fingerprint_pairs. rewrite bind_Some. done. }
    destruct (by_fingerprint s !! fp) as [X0|]; simpl in *.
    + eapply exactly_iff; [|apply exactly_ascending]. exact Hmem.
    + split; [constructor|]. intros e. rewrite elem_of_nil, <-Hmem. set_solver.
  - split; [constructor|]. intros e. rewrite elem_of_nil. by split.
Qed.

Lemma row_value_fingerprint w ty e v :
  reconciled w → row_value w ty e = Some v → row_fingerprint w ty e = value_fingerprint ty v.
Proof.
  intros Hrec. unfold row_value, row_fingerprint. destruct (row w ty e) as [entry|] eqn:Hr; simpl; [|done].
  intros Hv. by apply (Hrec ty e).
Qed.

Lemma row_value_has w ty e v : row_value w ty e = Some v → has w ty e = true.
Proof. unfold row_value. intros Hv. apply has_row. destruct (row w ty e); [by eexists|done]. Qed.

(** Candidates never leave out a row that matches. *)
Lemma expr_candidates_exact X w a scope x :
  wf X w → ids_allocated w → reconciled w → expr_bound a scope x →
  ∃ c, expr_candidates w a scope x = Done c ∧
    ∀ l, c = Some l → ∃ P, exactly l P ∧ (∀ e, P e → (e < next_entity (shared w))%N) ∧
      (∀ e, expr_matches w a scope x e = Done true → P e).
Proof.
  intros Hwf Hids Hrec. induction x as [ty|ty|ty|ty|x IHx y IHy|x IHx y IHy|x IHx]; simpl;
    intros Hb; try by eexists.
  - destruct Hb as [arg Harg]. unfold args_get. rewrite Harg. simpl. eexists. split; [done|].
    intros l Hl. apply fmap_Some in Hl as (fp & Hfp & ->).
    exists (λ e, row_fingerprint w ty e = Some fp). split; [by eapply exactly_fingerprint|]. split.
    + intros e He. apply (Hids ty), has_row. unfold row_fingerprint in He.
      destruct (row w ty e); [by eexists|done].
    + intros e. destruct (row_value w ty e) as [v|] eqn:Hv; [|done]. intros [= Heq].
      rewrite (row_value_fingerprint w ty e v Hrec Hv), <-Hfp. by apply value_eqb_fingerprint.
  - eexists. split; [done|]. intros l [= <-]. exists (λ e, has w ty e = true).
    split; [apply exactly_entities_with|]. split; [apply Hids|]. by intros e [= ->].
  - destruct Hb as [Hbx Hby]. destruct (IHx Hbx) as (cx & -> & Hcx). simpl. destruct cx as [l|].
    + eexists. split; [done|]. intros ? [= <-]. destruct (Hcx l eq_refl) as (P & ? & ? & Hm).
      exists P. split_and!; try done. intros e (m & Hx & Hy)%bind_Done. apply Hm. by destruct m.
    + destruct (IHy Hby) as (cy & -> & Hcy). eexists. split; [done|]. intros l ->.
      destruct (Hcy l eq_refl) as (P & ? & ? & Hm). exists P. split_and!; try done.
      intros e (m & Hx & Hy)%bind_Done. apply Hm. by destruct m.
Qed.

Lemma expr_matches_total w a scope x e : expr_bound a scope x → ∃ b, expr_matches w a scope x e = Done b.
Proof.
  induction x as [ty|ty|ty|ty|x IHx y IHy|x IHx y IHy|x IHx]; simpl; intros Hb; try by eexists.
  - destruct (row_value w ty e); [|by eexists]. destruct Hb as [arg Harg].
    unfold args_get. rewrite Harg. by eexists.
  - destruct (row_value w ty e); [|by eexists]. destruct Hb as [arg Harg].
    unfold args_get. rewrite Harg. by eexists.
  - destruct Hb as [Hx Hy]. destruct (IHx Hx) as [[] ->], (IHy Hy) as [b ->]; by eexists.
  - destruct Hb as [Hx Hy]. destruct (IHx Hx) as [[] ->], (IHy Hy) as [b ->]; by eexists.
  - destruct (IHx Hb) as [b ->]. by eexists.
Qed.

Lemma external_candidates_exact X w a scope x :
  wf X w → ids_allocated w → reconciled w → external_bound a scope x →
  ∃ c, external_candidates w a scope x = Done c ∧
    ∀ l, c = Some l → ∃ P, exactly l P ∧ (∀ e, P e → (e < next_entity (shared w))%N) ∧
      (∀ e, external_matches w a scope x e = Done true → P e).
Proof.
  intros Hwf Hids Hrec Hb. destruct x as [|x|ty|ty]; simpl; try by eexists.
  - by eapply expr_candidates_exact.
  - eexists. split; [done|]. intros l [= <-]. exists (λ e, has w ty e = true).
    split; [apply exactly_entities_with|]. split; [apply Hids|]. by intros e [= ->].
Qed.

Lemma external_matches_total w a scope x e :
  external_bound a scope x → ∃ b, external_matches w a scope x e = Done b.
Proof. intros Hb. destruct x; simpl; try by eexists. by apply expr_matches_total. Qed.

Lemma filter_result_exact (p : Entity → result bool) l P :
  (∀ e, ∃ b, p e = Done b) → exactly l P →
  ∃ l', filter_result p l = Done l' ∧ exactly l' (λ e, P e ∧ p e = Done true).
Proof.
  intros Hp Hl. assert (filter_result p l = Done (filter (λ e, p e = Done true) l)) as ->.
  { clear Hl. induction l as [|e l IH]; simpl; [done|]. destruct (Hp e) as [b Hb].
    rewrite filter_cons, Hb. simpl. rewrite IH. simpl. destruct b.
    - by rewrite decide_True.
    - by rewrite decide_False. }
  eexists. split; [done|]. by apply exactly_filter.
Qed.

(** An external query returns what it says.  With every argument it reads
    bound, a query never fails, and its rows are exactly the allocated entities
    that satisfy the query and its expression, each once, in ascending order:
    the fingerprint index behind [Eq] and the store behind [With] are shortcuts
    that change nothing. *)
Theorem external_rows_exact X w q a scope x :
  wf X w → addressable w → reconciled w → row_driven q → external_bound a scope x →
  (∀ fac, q = ParamEntity fac → required_types fac = []) →
  ∃ l, external_filtered_rows w q a scope x = Done l ∧ StronglySorted N.lt l ∧
    ∀ e, e ∈ l ↔ ((e < next_entity (shared w))%N ∧ row_matches w q e = true) ∧
                 external_matches w a scope x e = Done true.
Proof.
  intros Hwf Hadd Hrec Hdriven Hb Hanchor. unfold external_filtered_rows.
  destruct (external_candidates_exact X w a scope x Hwf) as (c & -> & Hc); [apply Hadd|done..|].
  pose proof (λ e, external_matches_total w a scope x e Hb) as Htotal.
  simpl. destruct c as [l|].
  - destruct (Hc l eq_refl) as (P & Hl & Hlt & Hm). rewrite (rows_hinted_some X) by done. simpl.
    assert (∀ l' Q, exactly l' Q → (∀ e, Q e ∧ external_matches w a scope x e = Done true ↔
      ((e < next_entity (shared w))%N ∧ row_matches w q e = true) ∧ external_matches w a scope x e = Done true) →
      ∃ l0, filter_result (external_matches w a scope x) l' = Done l0 ∧ exactly l0 (λ e,
        ((e < next_entity (shared w))%N ∧ row_matches w q e = true) ∧ external_matches w a scope x e = Done true)) as Hfin.
    { intros l' Q Hl' HQ. destruct (filter_result_exact _ _ _ Htotal Hl') as (l0 & -> & Hl0).
      exists l0. split; [done|]. eapply exactly_iff; [exact HQ|exact Hl0]. }
    destruct q as [fac|ty|ty|fac parts].
    + eapply Hfin; [exact Hl|]. intros e. simpl. rewrite (Hanchor fac eq_refl). simpl.
      split; [intros [? ?]; split_and!; auto|intros [_ ?]; auto].
    + eapply Hfin; [by apply exactly_filter|]. intros e. specialize (Hlt e). specialize (Hm e). simpl in *. tauto.
    + eapply Hfin; [by apply exactly_filter|]. intros e. specialize (Hlt e). specialize (Hm e). simpl in *. tauto.
    + eapply Hfin; [by apply exactly_filter|]. intros e. specialize (Hlt e). specialize (Hm e). tauto.
  - destruct (param_rows_exact X w q Hwf Hadd Hdriven) as (l & Hl & Hex).
    change (rows_hinted w q None) with (param_rows w q). rewrite Hl. simpl.
    by apply filter_result_exact.
Qed.

End external.

(** ** A concrete run *)

Definition demo_eqb (_ : TypeId) (v1 v2 : Value) : bool :=
  match v1, v2 with
  | Plain (DNum a), Plain (DNum b) => bool_decide (a = b)
  | _, _ => false
  end.

#[export] Instance demo_value_order : ValueOrder.
Proof.
  refine {| value_eqb := demo_eqb;
            value_geb _ v1 v2 := match v1, v2 with
                                 | Plain (DNum a), Plain (DNum b) => bool_decide (b ≤ a)%N
                                 | _, _ => false
                                 end |}.
  intros ty [[]|] [[]|]; simpl; try done. intros ->%bool_decide_eq_true. done.
Defined.

Definition demo_args : QueryArgs := MkArgs {[ty_num := v_num 5]} ∅.

(** Entities 2 and 4 hold 5, entity 3 holds 8. *)
Definition demo_numbers : World :=
  let put w e n := run w (insert w e ty_num (v_num n) None) in
  put (put (put demo_spawned 2%N 5%N) 4%N 5%N) 3%N 8%N.

Lemma demo_numbers_steps : rtc world_step (nothing_taken, demo_w0) (nothing_taken, demo_numbers).
Proof.
  do 6 (eapply rtc_l; [apply ws_apply, as_spawn|]).
  eapply rtc_l; [apply ws_apply, (as_insert _ 2 ty_num (v_num 5) None); vm_compute; reflexivity|].
  eapply rtc_l; [apply ws_apply, (as_insert _ 4 ty_num (v_num 5) None); vm_compute; reflexivity|].
  apply rtc_once, ws_apply, (as_insert _ 3 ty_num (v_num 8) None). vm_compute. reflexivity.
Qed.

Lemma demo_wf_numbers : wf nothing_taken demo_numbers.
Proof. exact (proj1 (world_steps_good _ _ demo_numbers_steps demo_wf0)). Qed.

(** Deciding [reconciled] by walking the stores. *)
Definition reconciled_b `{ComponentTypes} `{HashOrder} (w : World) : bool :=
  forallb (λ '(ty, s), forallb (λ '(_, entry),
      match cell_get w (entry_value entry) with
      | Some v => bool_decide (entry_fingerprint entry = value_fingerprint ty v)
      | None => true
      end) (map_to_list (entries s))) (stores_iter (stores w)).

Lemma reconciled_b_spec `{ComponentTypes} `{HashOrder} X w :
  wf X w → reconciled_b w = true → reconciled w.
Proof.
  intros Hwf. unfold reconciled_b. rewrite forallb_elem_of. intros Hall ty e entry v Hrow Hv.
  unfold row in Hrow. destruct (store_of w ty) as [s|] eqn:Hst; [|done]. simpl in Hrow.
  specialize (Hall (ty, s)). rewrite elem_of_stores_iter in Hall by apply (wf_st _ _ Hwf).
  specialize (Hall Hst). simpl in Hall. rewrite forallb_elem_of in Hall.
  specialize (Hall (e, entry)). rewrite elem_of_map_to_list in Hall. specialize (Hall Hrow).
  simpl in Hall. rewrite Hv in Hall. by apply bool_decide_eq_true in Hall.
Qed.

Lemma external_rows_exact_witness :
  external_filtered_rows demo_numbers (ParamRow [] [PartRef ty_num]) demo_args None
    (XWhere (EAnd (EEq ty_num) (EWithout ty_edge))) = Done [2%N; 4%N] ∧
  ∃ l, external_filtered_rows demo_numbers (ParamRow [] [PartRef ty_num]) demo_args None
         (XWhere (EAnd (EEq ty_num) (EWithout ty_edge))) = Done l ∧ StronglySorted N.lt l ∧
    ∀ e, e ∈ l ↔ ((e < 6)%N ∧ row_matches demo_numbers (ParamRow [] [PartRef ty_num]) e = true) ∧
      external_matches demo_numbers demo_args None (XWhere (EAnd (EEq ty_num) (EWithout ty_edge))) e = Done true.
Proof.
  split; [vm_compute; reflexivity|].
  apply (external_rows_exact nothing_taken demo_numbers (ParamRow [] [PartRef ty_num]) demo_args None
    (XWhere (EAnd (EEq ty_num) (EWithout ty_edge))) demo_wf_numbers).
  - apply (addressable_b_spec nothing_taken _ demo_wf_numbers). vm_compute. reflexivity.
  - apply (reconciled_b_spec nothing_taken _ demo_wf_numbers). vm_compute. reflexivity.
  - split; [discriminate|]. right. left. reflexivity.
  - split; [eexists; reflexivity|exact I].
  - intros fac [=].
Defined.
