(* ===== verification/Deps.v ===== *)
(** * Dependencies, accesses and planner interest of a query ([query.rs], [system.rs], [prepared.rs])

    What a memoized invocation remembers about the rows it read, what the
    scheduler reserves for it, and which stores can change its plan.  The
    theorems: the dependencies of a row are current exactly when every tracked
    row it reads is unmoved, so a memo hit means the inputs did not change;
    computing them never fails on an enumerated row; the prepared dependencies
    are the plain ones; and while no interested store moves, the enumerated
    rows stay the same. *)
From stdpp Require Import base numbers sets gmap fin_maps sorting list.
From S2P Require Import Prelude Access.
From S2P Require Import Components Demo Stores Presence World WorldInv Ownership WorldOps Query.

Section deps.
Context `{ComponentTypes} `{HashOrder}.
Implicit Types (w : World) (e : Entity) (ty : TypeId) (fac : list FacetPart) (part : QueryPart)
  (q : QueryParam) (f : QueryFilter).

(** ** One dependency *)

Record Dep := MkDep {
  dep_type : TypeId;
  dep_slot : option nat;
  dep_entity : Entity;
  dep_revision : option Revision;
  dep_store_scoped : bool;
}.

(** [PartialEq]: the slot is not part of the identity. *)
Definition dep_eqb (a b : Dep) : bool :=
  bool_decide (dep_type a = dep_type b) && bool_decide (dep_entity a = dep_entity b)
  && bool_decide (dep_revision a = dep_revision b)
  && Bool.eqb (dep_store_scoped a) (dep_store_scoped b).

Definition dep_component ty e (r : option Revision) (slot : option nat) : Dep := MkDep ty slot e r false.

Definition dep_revision_raw (d : Dep) : Revision := default 0%N (dep_revision d).

Definition dep_lookup w (d : Dep) : option Revision :=
  match dep_slot d with
  | Some slot => revision_by_slot w slot (dep_type d) (dep_entity d)
  | None => row_revision w (dep_type d) (dep_entity d)
  end.

Definition dep_is_current w (d : Dep) : bool :=
  if dep_store_scoped d
  then bool_decide (store_watermark w (dep_type d) = default 0%N (dep_revision d))
  else bool_decide (dep_lookup w d = dep_revision d).

Definition dep_refresh_written w (writes : list (TypeId * Entity)) (d : Dep) : Dep :=
  let written := existsb (λ '(ty, e), bool_decide (ty = dep_type d) && bool_decide (e = dep_entity d)) writes in
  if negb written then d
  else if dep_store_scoped d then d
  else MkDep (dep_type d) (dep_slot d) (dep_entity d) (dep_lookup w d) false.

Definition component_dep_if_tracked w ty e : result (list Dep) :=
  if value_tracked ty
  then r ← expect MissingComponent (row_revision w ty e); Done [MkDep ty None e (Some r) false]
  else Done [].

Definition optional_component_dep w ty e : list Dep :=
  if value_tracked ty then [MkDep ty None e (row_revision w ty e) false] else [].

Definition store_watermark_dep w ty : Dep := MkDep ty None 0%N (Some (store_watermark w ty)) true.

(** ** Dependencies of a query row *)

Definition read_part_type (p : ReadPart) : TypeId := match p with ReadRef ty | ReadOpt ty => ty end.

(** [observed_member_deps]: presence and absence are both observed. *)
Definition observed_member_deps w (p : ReadPart) e : list Dep := optional_component_dep w (read_part_type p) e.

Definition related_members w (inv : TypeId) (owner : Entity) : list Entity :=
  default [] (v ← row_value w inv owner; value_members inv v).

(** [Tracked<H>] observes presence and absence of every tracked part of its facet. *)
Definition tracked_deps w fac e : list Dep :=
  (λ p, MkDep (part_type p) None e (row_revision w (part_type p) e) false) <$>
    filter (λ p, value_tracked (part_type p) = true) fac.

Definition related_deps w (inv : TypeId) (ps : list ReadPart) (owner : Entity) : list Dep :=
  optional_component_dep w inv owner ++
    (m ← related_members w inv owner; p ← ps; observed_member_deps w p m).

Definition part_deps w part e : result (list Dep) :=
  match part with
  | PartRef ty | PartMut ty => component_dep_if_tracked w ty e
  | PartOpt ty => Done (optional_component_dep w ty e)
  | PartTracked fac => Done (tracked_deps w fac e)
  | PartRelated inv _ ps => Done (related_deps w inv ps e)
  end.

Fixpoint parts_deps w (parts : list QueryPart) e : result (list Dep) :=
  match parts with
  | [] => Done []
  | part :: parts => d ← part_deps w part e; ds ← parts_deps w parts e; Done (d ++ ds)
  end.

Definition param_deps w q e : result (list Dep) :=
  match q with
  | ParamEntity _ => Done []
  | ParamRef ty | ParamMut ty => component_dep_if_tracked w ty e
  | ParamRow _ parts => parts_deps w parts e
  end.

Fixpoint filter_deps w f e : result (list Dep) :=
  match f with
  | FWith ty | FEq ty => component_dep_if_tracked w ty e
  | FNone | FWithout _ | FIn _ _ => Done []
  | FAnd l r | FWhereAnd l r => a ← filter_deps w l e; b ← filter_deps w r e; Done (a ++ b)
  end.

Definition filtered_deps w q f e : result (list Dep) :=
  a ← param_deps w q e; b ← filter_deps w f e; Done (a ++ b).

(** *** Prepared dependencies *)

(** [ResolvedStore::dependency] *)
Definition resolved_dependency w ty e (optional : bool) : result (list Dep) :=
  if negb (value_tracked ty) then Done []
  else
    let revision := entries ← resolve_entries w ty; entry ← entries !! e; Some (entry_revision entry) in
    _ ← check MissingComponent (optional || bool_decide (is_Some revision));
    Done [dep_component ty e revision (stores_slot (stores w) ty)].

Definition prepared_part_deps w part e : result (list Dep) :=
  match part with
  | PartRef ty | PartMut ty => resolved_dependency w ty e false
  | PartOpt ty => resolved_dependency w ty e true
  | PartTracked _ | PartRelated _ _ _ => part_deps w part e
  end.

Fixpoint prepared_parts_deps w (parts : list QueryPart) e : result (list Dep) :=
  match parts with
  | [] => Done []
  | part :: parts => d ← prepared_part_deps w part e; ds ← prepared_parts_deps w parts e; Done (d ++ ds)
  end.

Definition prepared_deps w q f e : result (list Dep) :=
  a ← match q with
      | ParamEntity _ => Done []
      | ParamRef ty | ParamMut ty => resolved_dependency w ty e false
      | ParamRow _ parts => prepared_parts_deps w parts e
      end;
  b ← filter_deps w f e; Done (a ++ b).

(** ** Accesses of a query row *)

Definition tracked_access fac e : list Access := (λ p, access_read (part_type p) e) <$> fac.

Definition related_access w (inv : TypeId) (ps : list ReadPart) (owner : Entity) : list Access :=
  access_read inv owner ::
    (m ← related_members w inv owner; p ← ps; [access_read (read_part_type p) m]).

Definition part_access w part e : list Access :=
  match part with
  | PartRef ty | PartOpt ty => [access_read ty e]
  | PartMut ty => [access_write ty e]
  | PartTracked fac => tracked_access fac e
  | PartRelated inv _ ps => related_access w inv ps e
  end.

(** [access_all]; the type id of the [Tracked<H>] marker is opaque. *)
Definition part_access_all (marker : list FacetPart → TypeId) part : Access :=
  match part with
  | PartRef ty | PartOpt ty | PartRelated ty _ _ => access_read_all ty
  | PartMut ty => access_write_all ty
  | PartTracked fac => access_read_all (marker fac)
  end.

Definition param_access w q e : list Access :=
  match q with
  | ParamEntity _ => []
  | ParamRef ty => [access_read ty e]
  | ParamMut ty => [access_write ty e]
  | ParamRow _ parts => p ← parts; part_access w p e
  end.

Definition param_access_all (marker : list FacetPart → TypeId) q : list Access :=
  match q with
  | ParamEntity _ => []
  | ParamRef ty => [access_read_all ty]
  | ParamMut ty => [access_write_all ty]
  | ParamRow _ parts => part_access_all marker <$> parts
  end.

Fixpoint filter_access f e : list Access :=
  match f with
  | FWith ty | FWithout ty | FEq ty => [access_read ty e]
  | FNone | FIn _ _ => []
  | FAnd l r | FWhereAnd l r => filter_access l e ++ filter_access r e
  end.

Fixpoint filter_access_all f : list Access :=
  match f with
  | FWith ty | FWithout ty | FEq ty => [access_read_all ty]
  | FNone | FIn _ _ => []
  | FAnd l r | FWhereAnd l r => filter_access_all l ++ filter_access_all r
  end.

Definition filtered_access w q f e : list Access := param_access w q e ++ filter_access f e.

(** [written_rows]: the rows an invocation holds exclusively. *)
Definition written_rows (accs : list Access) : list (TypeId * Entity) :=
  omap (λ a, e ← acc_entity a; Some (acc_component a, e))
       (filter (λ a, acc_kind a = Write) accs).

(** ** Planner interest *)

Definition part_interest part : list TypeId :=
  match part with
  | PartRef ty | PartOpt ty | PartMut ty => [ty]
  | PartTracked fac => part_type <$> fac
  | PartRelated inv _ ps => inv :: (read_part_type <$> ps)
  end.

Definition param_interest q : option (list TypeId) :=
  match q with
  | ParamEntity fac => if bool_decide (fac = []) then None else Some (part_type <$> fac)
  | ParamRef ty => Some [ty]
  | ParamMut _ => None
  | ParamRow fac parts =>
      let interest := part_type <$> fac in
      if bool_decide (length parts = 0) && bool_decide (interest = []) then None
      else Some (interest ++ (p ← parts; part_interest p))
  end.

Fixpoint filter_interest f : list TypeId :=
  match f with
  | FNone => []
  | FWith ty | FWithout ty | FEq ty => [ty]
  | FIn inv _ => [inv]
  | FAnd l r | FWhereAnd l r => filter_interest l ++ filter_interest r
  end.

Fixpoint drives_candidates f : bool :=
  match f with
  | FWith _ => true
  | FAnd l r => drives_candidates l || drives_candidates r
  | _ => false
  end.

(** [Query::interest_types] *)
Definition query_interest q f : option (list TypeId) :=
  match param_interest q with
  | Some interest => Some (interest ++ filter_interest f)
  | None => if drives_candidates f then Some (filter_interest f) else None
  end.

(** ** What the dependencies observe *)

(** The filter reads the absence of nothing: [Without] contributes no
    dependency. *)
Fixpoint positive f : bool :=
  match f with
  | FWithout _ => false
  | FAnd l r | FWhereAnd l r => positive l && positive r
  | _ => true
  end.

(** A tracked row was neither inserted, removed nor moved. *)
Definition unmoved w w' (a : Access) : Prop :=
  ∀ e, acc_entity a = Some e → value_tracked (acc_component a) = true →
    row_revision w' (acc_component a) e = row_revision w (acc_component a) e.

Definition current w (ds : list Dep) : Prop := ∀ d, d ∈ ds → dep_is_current w d = true.

Lemma dep_lookup_row w d :
  wf_stores (stores w) → dep_lookup w d = row_revision w (dep_type d) (dep_entity d).
Proof.
  intros Hwf. unfold dep_lookup, revision_by_slot, row_revision, store_of.
  destruct (dep_slot d) as [slot|]; [|done].
  assert (stores_get_slot (stores w) slot (dep_type d) = stores_get (stores w) (dep_type d)) as ->; [|done].
  unfold stores_get_slot. destruct (st_slots (stores w) !! slot) as [[actual st]|] eqn:Hl; [|done].
  case_bool_decide as Ha; [|done]. subst. unfold stores_get.
  by rewrite (ws_registered _ Hwf _ _ _ Hl), Hl.
Qed.

Lemma row_dep_current w ty slot e r :
  wf_stores (stores w) →
  dep_is_current w (MkDep ty slot e r false) = true ↔ row_revision w ty e = r.
Proof.
  intros Hwf. unfold dep_is_current. simpl. rewrite bool_decide_eq_true.
  by rewrite dep_lookup_row by done.
Qed.

Lemma current_app w a b : current w (a ++ b) ↔ current w a ∧ current w b.
Proof. unfold current. setoid_rewrite elem_of_app. naive_solver. Qed.

Lemma unmoved_read w w' ty e :
  unmoved w w' (access_read ty e) ↔ (value_tracked ty = true → row_revision w' ty e = row_revision w ty e).
Proof. unfold unmoved. simpl. split; [intros Ha; by apply Ha|]. intros Ha ? [= <-]. exact Ha. Qed.

Lemma component_dep_current w w' ty e ds :
  wf_stores (stores w') → component_dep_if_tracked w ty e = Done ds →
  current w' ds ↔ (value_tracked ty = true → row_revision w' ty e = row_revision w ty e).
Proof.
  intros Hwf. unfold component_dep_if_tracked, current. destruct (value_tracked ty).
  - intros (r & Hr%expect_Done & [= <-])%bind_Done. rewrite Hr. split.
    + intros Hc _. apply (row_dep_current w' ty None e (Some r) Hwf), Hc. by left.
    + intros Hc d ->%list_elem_of_singleton. by apply row_dep_current, Hc.
  - intros [= <-]. split; [done|]. by intros _ d ?%elem_of_nil.
Qed.

Lemma optional_dep_current w w' ty e :
  wf_stores (stores w') →
  current w' (optional_component_dep w ty e) ↔
  (value_tracked ty = true → row_revision w' ty e = row_revision w ty e).
Proof.
  intros Hwf. unfold optional_component_dep, current. destruct (value_tracked ty).
  - split.
    + intros Hc _. apply (row_dep_current w' ty None e (row_revision w ty e) Hwf), Hc. by left.
    + intros Hc d ->%list_elem_of_singleton. by apply row_dep_current, Hc.
  - split; [done|]. by intros _ d ?%elem_of_nil.
Qed.

(** The dependencies [ds] are current later exactly when the rows accessed
    are unmoved. *)
Definition observes w w' (ds : list Dep) (accs : list Access) : Prop :=
  current w' ds ↔ ∀ a, a ∈ accs → unmoved w w' a.

Lemma observes_app w w' d1 d2 a1 a2 :
  observes w w' d1 a1 → observes w w' d2 a2 → observes w w' (d1 ++ d2) (a1 ++ a2).
Proof.
  unfold observes. intros Ha Hb. rewrite current_app, Ha, Hb. setoid_rewrite elem_of_app. naive_solver.
Qed.

Lemma observes_nil w w' : observes w w' [] [].
Proof. split; intros _ x ?%elem_of_nil; done. Qed.

Lemma observes_one w w' ds ty e k :
  current w' ds ↔ (value_tracked ty = true → row_revision w' ty e = row_revision w ty e) →
  observes w w' ds [MkAccess k ty (Some e)].
Proof.
  intros Hc. unfold observes. rewrite Hc. split.
  - intros Hu a ->%list_elem_of_singleton. intros ? [= <-]. exact Hu.
  - intros Hu. apply (Hu (MkAccess k ty (Some e))); [by left|done].
Qed.

Lemma observes_bind {A} w w' (l : list A) (d : A → list Dep) (g : A → list Access) :
  (∀ x, x ∈ l → observes w w' (d x) (g x)) → observes w w' (l ≫= d) (l ≫= g).
Proof.
  induction l as [|x l IH]; intros Hall; [apply observes_nil|]. simpl.
  apply observes_app; [apply Hall; by left|]. apply IH. intros y Hy. apply Hall. by right.
Qed.

Lemma part_observes w w' part e ds :
  wf_stores (stores w') → part_deps w part e = Done ds → observes w w' ds (part_access w part e).
Proof.
  intros Hwf. destruct part as [ty|ty|ty|fac|inv edge ps]; simpl.
  - intros Hd. apply observes_one. by apply component_dep_current.
  - intros [= <-]. apply observes_one. by apply optional_dep_current.
  - intros Hd. apply observes_one. by apply component_dep_current.
  - intros [= <-]. unfold observes, current, tracked_deps, tracked_access. setoid_rewrite list_elem_of_fmap.
    setoid_rewrite list_elem_of_filter. split.
    + intros Hc a (p & -> & Hp). apply unmoved_read. intros Ht.
      apply (row_dep_current w' (part_type p) None e _ Hwf), Hc. by exists p.
    + intros Hu d (p & -> & Ht & Hp). apply row_dep_current; [done|].
      apply unmoved_read; [|exact Ht]. apply Hu. by exists p.
  - intros [= <-]. unfold related_deps. apply (observes_app w w' _ _ [access_read inv e]).
    + apply observes_one. by apply optional_dep_current.
    + apply observes_bind. intros m _. apply observes_bind. intros p _.
      apply observes_one. by apply optional_dep_current.
Qed.

Lemma parts_observe w w' parts e ds :
  wf_stores (stores w') → parts_deps w parts e = Done ds →
  observes w w' ds (p ← parts; part_access w p e).
Proof.
  intros Hwf. revert ds. induction parts as [|part parts IH]; intros ds; simpl.
  - intros [= <-]. apply observes_nil.
  - intros (d & Hd & Hr)%bind_Done. apply bind_Done in Hr as (ds' & Hds & [= <-]).
    apply observes_app; [by apply part_observes|by apply IH].
Qed.

Lemma filter_observes w w' f e ds :
  wf_stores (stores w') → positive f = true → filter_deps w f e = Done ds →
  observes w w' ds (filter_access f e).
Proof.
  intros Hwf. revert ds. induction f as [|ty|ty|ty|inv edge|l IHl r IHr|l IHl r IHr]; intros ds Hpos; simpl.
  - intros [= <-]. apply observes_nil.
  - intros Hd. apply observes_one. by apply component_dep_current.
  - done.
  - intros Hd. apply observes_one. by apply component_dep_current.
  - intros [= <-]. apply observes_nil.
  - apply andb_true_iff in Hpos as [? ?]. intros (a & Ha & Hr)%bind_Done.
    apply bind_Done in Hr as (b & Hb & [= <-]). apply observes_app; auto.
  - apply andb_true_iff in Hpos as [? ?]. intros (a & Ha & Hr)%bind_Done.
    apply bind_Done in Hr as (b & Hb & [= <-]). apply observes_app; auto.
Qed.

Lemma filtered_observes w w' q f e ds :
  wf_stores (stores w') → positive f = true → filtered_deps w q f e = Done ds →
  observes w w' ds (filtered_access w q f e).
Proof.
  intros Hwf Hpos (a & Ha & Hr)%bind_Done. apply bind_Done in Hr as (b & Hb & [= <-]).
  apply observes_app; [|by apply filter_observes].
  destruct q as [fac|ty|ty|fac parts]; simpl in *.
  - injection Ha as <-. apply observes_nil.
  - apply observes_one. by apply component_dep_current.
  - apply observes_one. by apply component_dep_current.
  - by apply parts_observe.
Qed.

(** *** Enumerated rows have their dependencies *)

Lemma component_dep_has w ty e :
  has w ty e = true → ∃ ds, component_dep_if_tracked w ty e = Done ds.
Proof.
  intros [entry He]%has_row. unfold component_dep_if_tracked. rewrite row_revision_row, He.
  destruct (value_tracked ty); by eexists.
Qed.

Lemma part_deps_matched w part e : part_matches w part e = true → ∃ ds, part_deps w part e = Done ds.
Proof. destruct part; simpl; intros Hm; try by eexists. all: by apply component_dep_has. Qed.

Lemma parts_deps_matched w parts e :
  parts_match w parts e = true → ∃ ds, parts_deps w parts e = Done ds.
Proof.
  induction parts as [|part parts IH]; simpl; [by eexists|]. intros [Hp Hps]%andb_true_iff.
  destruct (part_deps_matched w part e Hp) as [d ->]. destruct (IH Hps) as [ds ->]. by eexists.
Qed.

Lemma filter_deps_matched w f e : filter_matches w f e = true → ∃ ds, filter_deps w f e = Done ds.
Proof.
  induction f as [| | | | |l IHl r IHr|l IHl r IHr]; simpl; intros Hm;
    try (by eexists); try (by apply component_dep_has).
  all: apply andb_true_iff in Hm as [Hl Hr]; destruct (IHl Hl) as [a ->]; destruct (IHr Hr) as [b ->];
    by eexists.
Qed.

Lemma filtered_deps_matched w q f e :
  row_matches w q e = true → filter_matches w f e = true → ∃ ds, filtered_deps w q f e = Done ds.
Proof.
  intros Hq (b & Hb)%filter_deps_matched. unfold filtered_deps. rewrite Hb.
  assert (∃ a, param_deps w q e = Done a) as [a ->]; [|by eexists].
  destruct q; simpl in *; [by eexists| | |]; try by apply component_dep_has.
  apply andb_true_iff in Hq as [_ ?]. by apply parts_deps_matched.
Qed.

(** *** Prepared dependencies are the plain ones *)

(** Equal up to the slot, as [PartialEq] has it. *)
Definition deps_eq (a b : list Dep) : Prop := Forall2 (λ x y, dep_eqb x y = true) a b.

Lemma dep_eqb_refl d : dep_eqb d d = true.
Proof. unfold dep_eqb. by rewrite !bool_decide_eq_true_2, Bool.eqb_reflx. Qed.
Lemma deps_eq_refl a : deps_eq a a.
Proof. induction a; constructor; [apply dep_eqb_refl|done]. Qed.

Lemma resolved_dependency_optional w ty e :
  ∃ ds, resolved_dependency w ty e true = Done ds ∧ deps_eq ds (optional_component_dep w ty e).
Proof.
  unfold resolved_dependency, optional_component_dep. destruct (value_tracked ty); simpl.
  - eexists. split; [done|]. constructor; [|constructor]. unfold dep_eqb, row_revision, resolve_entries. simpl.
    destruct (store_of w ty) as [s|]; simpl.
    + unfold revision_for_entity. by destruct (entries s !! e); simpl; rewrite !bool_decide_eq_true_2.
    + by rewrite !bool_decide_eq_true_2.
  - eexists. split; [done|]. constructor.
Qed.

Lemma resolved_dependency_plain w ty e ds :
  component_dep_if_tracked w ty e = Done ds →
  ∃ ds', resolved_dependency w ty e false = Done ds' ∧ deps_eq ds' ds.
Proof.
  unfold component_dep_if_tracked. intros Hd.
  destruct (resolved_dependency_optional w ty e) as (ds' & Hr & Heq). exists ds'.
  unfold resolved_dependency, optional_component_dep in *. destruct (value_tracked ty); simpl in *.
  - apply bind_Done in Hd as (r & Hrow%expect_Done & [= <-]). rewrite Hrow in Heq. split; [|done].
    rewrite <-Hr. unfold row_revision, resolve_entries in *. destruct (store_of w ty) as [s|]; [|done].
    simpl in *. unfold revision_for_entity in Hrow. destruct (entries s !! e); done.
  - injection Hd as <-. split; [exact Hr|exact Heq].
Qed.

Lemma prepared_part_deps_plain w part e ds :
  part_deps w part e = Done ds → ∃ ds', prepared_part_deps w part e = Done ds' ∧ deps_eq ds' ds.
Proof.
  destruct part; simpl.
  - apply resolved_dependency_plain.
  - intros [= <-]. apply resolved_dependency_optional.
  - apply resolved_dependency_plain.
  - intros ?. exists ds. split; [done|apply deps_eq_refl].
  - intros ?. exists ds. split; [done|apply deps_eq_refl].
Qed.

Lemma prepared_parts_deps_plain w parts e ds :
  parts_deps w parts e = Done ds → ∃ ds', prepared_parts_deps w parts e = Done ds' ∧ deps_eq ds' ds.
Proof.
  revert ds. induction parts as [|part parts IH]; intros ds; simpl.
  - intros [= <-]. exists []. split; [done|constructor].
  - intros (d & Hd & Hr)%bind_Done. apply bind_Done in Hr as (ds2 & Hds & [= <-]).
    destruct (prepared_part_deps_plain _ _ _ _ Hd) as (d' & -> & ?).
    destruct (IH _ Hds) as (ds2' & -> & ?). simpl. eexists. split; [done|]. by apply Forall2_app.
Qed.

(** *** Planner interest *)

(** Some store restricts the rows of the query: [Query] without such an anchor
    scans every allocated entity. *)
Definition anchored q f : bool :=
  match q with
  | ParamEntity fac => negb (bool_decide (required_types fac = [])) || drives_candidates f
  | ParamRef _ | ParamMut _ => true
  | ParamRow fac parts =>
      negb (bool_decide (required_types fac = [])) || existsb part_drives parts || drives_candidates f
  end.

(** The interest of the query names the stores its rows come from. *)
Definition names_its_stores q : bool := match q with ParamMut _ => false | _ => true end.

(** The stores [tys] hold the same entities; the entity is in the same ones. *)
Definition same_members w w' (tys : list TypeId) : Prop :=
  ∀ ty, ty ∈ tys → ∀ e, has w' ty e = has w ty e.
Definition same_at w w' e (tys : list TypeId) : Prop := ∀ ty, ty ∈ tys → has w' ty e = has w ty e.

Lemma filter_matches_same w w' f e :
  same_at w w' e (filter_interest f) → filter_matches w' f e = filter_matches w f e.
Proof.
  unfold same_at. induction f as [|ty|ty|ty|inv edge|l IHl r IHr|l IHl r IHr]; simpl; intros Hs; try done.
  - apply Hs. by left.
  - f_equal. apply Hs. by left.
  - apply Hs. by left.
  - setoid_rewrite elem_of_app in Hs. rewrite IHl, IHr; naive_solver.
  - setoid_rewrite elem_of_app in Hs. rewrite IHl, IHr; naive_solver.
Qed.

Lemma required_types_in fac ty : ty ∈ required_types fac → ty ∈ part_type <$> fac.
Proof.
  unfold required_types. intros (p & -> & [_ Hp]%list_elem_of_filter)%list_elem_of_fmap.
  apply list_elem_of_fmap. by exists p.
Qed.

Lemma probe_same w w' tys e :
  same_at w w' e tys → probe w' tys e = probe w tys e.
Proof.
  unfold same_at, probe. induction tys as [|ty tys IH]; simpl; intros Hs; [done|].
  rewrite (Hs ty), IH; [done| |by left]. intros ty' ?. apply Hs. by right.
Qed.

Lemma parts_match_same w w' parts e :
  same_at w w' e (p ← parts; part_interest p) → parts_match w' parts e = parts_match w parts e.
Proof.
  unfold parts_match. induction parts as [|p parts IH]; simpl; intros Hs; [done|]. f_equal.
  - destruct p; simpl in *; try done; apply Hs; by left.
  - apply IH. intros ty Hty. apply Hs. apply elem_of_app. by right.
Qed.

Lemma row_matches_same w w' q interest e :
  names_its_stores q = true → (param_interest q = Some interest ∨ param_interest q = None ∧ interest = []) →
  same_at w w' e interest → row_matches w' q e = row_matches w q e.
Proof.
  intros Hn Hi Hs. destruct q as [fac|ty|ty|fac parts]; simpl in *; [| |done|].
  - case_bool_decide as Hf; [by subst|]. destruct Hi as [[= <-]|[? _]]; [|done].
    apply probe_same. intros ty ?%required_types_in. by apply Hs.
  - destruct Hi as [[= <-]|[? _]]; [|done]. apply Hs. by left.
  - destruct (bool_decide (length parts = 0) && bool_decide (part_type <$> fac = [])) eqn:Hb.
    + apply andb_true_iff in Hb as [Hp Hf]. apply bool_decide_eq_true in Hp, Hf.
      destruct parts; [|done]. destruct fac; [|done]. done.
    + destruct Hi as [[= <-]|[? _]]; [|done]. f_equal.
      * apply probe_same. intros ty ?%required_types_in. apply Hs. apply elem_of_app. by left.
      * apply parts_match_same. intros ty ?. apply Hs. apply elem_of_app. by right.
Qed.

Lemma drives_has w f e : drives_candidates f = true → filter_matches w f e = true → ∃ ty, has w ty e = true.
Proof.
  intros Hd Hm. induction f as [|ty|ty|ty|inv edge|l IHl r IHr|l IHl r IHr]; simpl in *; try done.
  - by exists ty.
  - apply orb_true_iff in Hd as [?|?]; apply andb_true_iff in Hm as [? ?]; auto.
Qed.

Lemma parts_drive_has w parts e :
  existsb part_drives parts = true → parts_match w parts e = true → ∃ ty, has w ty e = true.
Proof.
  intros (p & Hin & Hd)%existsb_exists Hm. rewrite <-list_elem_of_In in Hin.
  pose proof (parts_match_elem _ _ _ _ Hm Hin). destruct p; try done; by eexists.
Qed.

Lemma required_has w fac e : required_types fac ≠ [] → probe w (required_types fac) e = true → ∃ ty, has w ty e = true.
Proof.
  destruct (required_types fac) as [|ty tys]; [done|]. simpl. intros _ [? _]%andb_true_iff. by exists ty.
Qed.

Lemma anchored_has w q f e :
  anchored q f = true → row_matches w q e = true → filter_matches w f e = true → ∃ ty, has w ty e = true.
Proof.
  destruct q as [fac|ty|ty|fac parts]; simpl; intros Ha Hq Hf.
  - apply orb_true_iff in Ha as [Hr|Hd]; [|by eapply drives_has].
    apply negb_true_iff, bool_decide_eq_false in Hr. by eapply required_has.
  - by exists ty.
  - by exists ty.
  - apply andb_true_iff in Hq as [Hq Hp]. apply orb_true_iff in Ha as [Ha|Hd]; [|by eapply drives_has].
    apply orb_true_iff in Ha as [Hr|Hd]; [|by eapply parts_drive_has].
    apply negb_true_iff, bool_decide_eq_false in Hr. by eapply required_has.
Qed.

Lemma gated_members X w X' w' tys :
  wf X w → rtc world_step (X, w) (X', w') →
  (∀ ty, ty ∈ tys → store_watermark w' ty ≤ revision w)%N → same_members w w' tys.
Proof.
  intros Hwf Hsteps Hle ty Hty e. pose proof (watermark_gates_aux _ _ _ _ ty e Hwf Hsteps (Hle _ Hty)) as Hr.
  rewrite !row_revision_row in Hr. unfold has. apply bool_decide_ext. rewrite <-!not_eq_None_Some.
  destruct (row w' ty e), (row w ty e); naive_solver.
Qed.

Lemma query_interest_cases q f tys :
  query_interest q f = Some tys →
  ∃ interest, (param_interest q = Some interest ∨ param_interest q = None ∧ interest = []) ∧
              tys = interest ++ filter_interest f.
Proof.
  unfold query_interest. destruct (param_interest q) as [interest|].
  - intros [= <-]. exists interest. by split; [left|].
  - destruct (drives_candidates f); [|done]. intros [= <-]. exists []. by split; [right|].
Qed.

(** ** Properties of dependencies *)

(** A memo hit is sound.  While the dependencies recorded for a row of a
    query stay current, whatever ran in between, every tracked row the
    invocation may access still has the revision, the fingerprint and, when it
    has no fingerprint, the very cell it had when the invocation read it; and a
    row that was absent is still absent.  Conversely the dependencies stay
    current as long as these rows do not move. *)
Theorem memo_sound X w X' w' q f e ds :
  wf X w → rtc world_step (X, w) (X', w') → positive f = true → filtered_deps w q f e = Done ds →
  (current w' ds ↔ ∀ a, a ∈ filtered_access w q f e → unmoved w w' a) ∧
  (current w' ds → ∀ a e', a ∈ filtered_access w q f e → acc_entity a = Some e' →
     value_tracked (acc_component a) = true →
     has w' (acc_component a) e' = has w (acc_component a) e' ∧
     row_fingerprint w' (acc_component a) e' = row_fingerprint w (acc_component a) e' ∧
     (row_fingerprint w (acc_component a) e' = None →
      entry_value <$> row w' (acc_component a) e' = entry_value <$> row w (acc_component a) e')).
Proof.
  intros Hwf Hsteps Hpos Hds. destruct (world_steps_good _ _ Hsteps Hwf) as [Hwf' _].
  pose proof (filtered_observes w w' q f e ds (wf_st _ _ Hwf') Hpos Hds) as Hobs.
  split; [exact Hobs|]. intros Hc a e' Hin He Ht. pose proof (proj1 Hobs Hc a Hin e' He Ht) as Hr0.
  clear Hc. rename Hr0 into Hc. pose proof Hc as Hrow. rewrite !row_revision_row in Hrow.
  assert (has w' (acc_component a) e' = has w (acc_component a) e') as ->.
  { apply bool_decide_ext. rewrite <-!not_eq_None_Some.
    destruct (row w' _ _), (row w _ _); naive_solver. }
  split; [done|]. destruct (row_revision w (acc_component a) e') as [r|] eqn:Hr.
  - by apply (revision_identifies_aux X w X' w' (acc_component a) e' r).
  - rewrite row_revision_row in Hr. apply fmap_None in Hr. rewrite Hr in Hrow. simpl in Hrow.
    apply fmap_None in Hrow. unfold row_fingerprint. unfold row in Hr, Hrow.
    unfold row. by rewrite Hr, Hrow.
Qed.

(** The dependencies of an enumerated row are always there: for a row that
    matches the query and its filter, no [revision_for] lookup comes back
    empty, and the dependencies computed from the prepared stores are the plain
    ones up to the store slot. *)
Theorem dependencies_total w q f e :
  row_matches w q e = true → filter_matches w f e = true →
  ∃ ds ds', filtered_deps w q f e = Done ds ∧ prepared_deps w q f e = Done ds' ∧ deps_eq ds' ds.
Proof.
  intros Hq Hf. destruct (filtered_deps_matched w q f e Hq Hf) as [ds Hds].
  pose proof Hds as (a & Ha & Hb)%bind_Done. apply bind_Done in Hb as (b & Hb & [= <-]).
  assert (∃ a', match q with
      | ParamEntity _ => Done []
      | ParamRef ty | ParamMut ty => resolved_dependency w ty e false
      | ParamRow _ parts => prepared_parts_deps w parts e
      end = Done a' ∧ deps_eq a' a) as (a' & Ha' & Heq).
  { destruct q; simpl in *.
    - injection Ha as <-. exists []. split; [done|constructor].
    - by apply resolved_dependency_plain.
    - by apply resolved_dependency_plain.
    - by apply prepared_parts_deps_plain. }
  exists (a ++ b), (a' ++ b). split; [done|]. unfold prepared_deps. rewrite Ha'. simpl. rewrite Hb.
  split; [done|]. by apply Forall2_app, deps_eq_refl.
Qed.

(** The planner may skip a system whose interesting stores did not move:
    if a query is anchored by a store, its interest names the stores its rows
    come from, and none of its interest types has a watermark above the revision
    it was last planned at, then enumerating it again gives the very same rows. *)
Theorem rows_gated X w X' w' q f tys :
  wf X w → rtc world_step (X, w) (X', w') → addressable w → addressable w' →
  row_driven q → hint_checked q f → anchored q f = true → names_its_stores q = true →
  query_interest q f = Some tys → (∀ ty, ty ∈ tys → store_watermark w' ty ≤ revision w)%N →
  filtered_rows w' q f = filtered_rows w q f ∧ ∃ l, filtered_rows w q f = Done l.
Proof.
  intros Hwf Hsteps Ha Ha' Hd Hh Hanch Hnames Hint Hle.
  destruct (world_steps_good _ _ Hsteps Hwf) as [Hwf' _].
  destruct (filtered_rows_aux X w q f Hwf Ha Hd Hh) as (l & -> & Hl).
  destruct (filtered_rows_aux X' w' q f Hwf' Ha' Hd Hh) as (l' & -> & Hl').
  split; [|by exists l]. f_equal. eapply exactly_unique; [exact Hl'|]. eapply exactly_iff; [|exact Hl].
  intros e. destruct (query_interest_cases _ _ _ Hint) as (interest & Hi & ->).
  pose proof (gated_members X w X' w' _ Hwf Hsteps Hle) as Hs. unfold same_members in Hs.
  assert (row_matches w' q e = row_matches w q e) as Hq.
  { apply (row_matches_same w w' q interest e Hnames Hi). intros ty ?. apply Hs, elem_of_app. by left. }
  assert (filter_matches w' f e = filter_matches w f e) as Hf.
  { apply filter_matches_same. intros ty ?. apply Hs, elem_of_app. by right. }
  split; intros (_ & Hrow & Hfil).
  - rewrite Hq, Hf. rewrite <-Hq in Hrow. rewrite <-Hf in Hfil.
    destruct (anchored_has w' q f e Hanch Hrow Hfil) as [ty Hhas].
    split; [by apply (proj1 Ha' ty)|]. by rewrite <-Hq, <-Hf.
  - rewrite Hq, Hf in *. destruct (anchored_has w q f e Hanch) as [ty Hhas]; [done..|].
    split; [by apply (proj1 Ha ty)|done].
Qed.
End deps.

(** ** What a query without an anchor misses

    [Query<(Entity, Option<&T>)>] reports the interest [T], but it scans every
    allocated entity: a spawn adds a row without moving any watermark. *)
Definition demo_optional : QueryParam := ParamRow [] [PartOpt ty_num].

Lemma dense_rows_ungated :
  let w' := fst (spawn_empty demo_spawned) in
  query_interest demo_optional FNone = Some [ty_num] ∧
  world_step (nothing_taken, demo_spawned) (nothing_taken, w') ∧
  (store_watermark w' ty_num ≤ revision demo_spawned)%N ∧
  filtered_rows demo_spawned demo_optional FNone = Done [0; 1; 2; 3; 4; 5]%N ∧
  filtered_rows w' demo_optional FNone = Done [0; 1; 2; 3; 4; 5; 6]%N.
Proof.
  split_and!; try (vm_compute; reflexivity).
  - apply ws_apply, as_spawn.
  - vm_compute. discriminate.
Qed.

(** ** What a mutable row query misses under a driving filter

    [(MutRef<T>,)] reports no interest of its own, and [With<M>] then bounds the
    query: its interest is [M] alone, so a row that gains [T] later moves no
    interesting watermark. *)
Definition demo_mutable : QueryParam := ParamMut ty_num.
Definition demo_edge_then_num : World := run demo_rows (insert demo_rows 3 ty_num (v_num 8) None).

Lemma mutable_rows_ungated :
  query_interest demo_mutable (FWith ty_edge) = Some [ty_edge] ∧
  world_step (nothing_taken, demo_rows) (nothing_taken, demo_edge_then_num) ∧
  (store_watermark demo_edge_then_num ty_edge ≤ revision demo_rows)%N ∧
  filtered_rows demo_rows demo_mutable (FWith ty_edge) = Done [] ∧
  filtered_rows demo_edge_then_num demo_mutable (FWith ty_edge) = Done [3%N].
Proof.
  split_and!; try (vm_compute; reflexivity).
  - apply ws_apply, (as_insert _ 3 ty_num (v_num 8) None). vm_compute. reflexivity.
  - vm_compute. discriminate.
Qed.

(** ** Concrete runs *)

Definition demo_numbered : World := run demo_rows (insert demo_rows 3 ty_num (v_num 8) None).

Lemma demo_number_step : world_step (nothing_taken, demo_rows) (nothing_taken, demo_numbered).
Proof. apply ws_apply, (as_insert _ 3 ty_num (v_num 8) None). vm_compute. reflexivity. Qed.

(** The edge of 3 and the absence of its number were observed. *)
Definition demo_deps : list Dep :=
  [MkDep ty_num None 3 None false; MkDep ty_edge None 3 (row_revision demo_rows ty_edge 3) false].

Lemma memo_sound_witness :
  forallb (dep_is_current demo_rows) demo_deps = true ∧
  forallb (dep_is_current demo_numbered) demo_deps = false ∧
  (current demo_numbered demo_deps ↔
   ∀ a, a ∈ filtered_access demo_rows demo_query FNone 3 → unmoved demo_rows demo_numbered a).
Proof.
  split; [vm_compute; reflexivity|]. split; [vm_compute; reflexivity|].
  apply (memo_sound nothing_taken demo_rows nothing_taken demo_numbered demo_query FNone 3 demo_deps).
  - exact demo_wf_rows.
  - apply rtc_once, demo_number_step.
  - reflexivity.
  - vm_compute. reflexivity.
Defined.

Lemma dependencies_total_witness :
  ∃ ds ds', filtered_deps demo_rows demo_query FNone 3 = Done ds ∧
    prepared_deps demo_rows demo_query FNone 3 = Done ds' ∧ deps_eq ds' ds.
Proof. apply dependencies_total; vm_compute; reflexivity. Defined.

(** A number somewhere else does not change who carries an edge. *)
Lemma rows_gated_witness :
  filtered_rows demo_numbered (ParamRef ty_edge) FNone = filtered_rows demo_rows (ParamRef ty_edge) FNone ∧
  ∃ l, filtered_rows demo_rows (ParamRef ty_edge) FNone = Done l.
Proof.
  assert (wf nothing_taken demo_numbered) as Hwf.
  { apply (world_steps_good (nothing_taken, demo_rows) (nothing_taken, demo_numbered));
      [apply rtc_once, demo_number_step|exact demo_wf_rows]. }
  apply (rows_gated nothing_taken demo_rows nothing_taken demo_numbered (ParamRef ty_edge) FNone [ty_edge]).
  - exact demo_wf_rows.
  - apply rtc_once, demo_number_step.
  - apply (addressable_b_spec nothing_taken _ demo_wf_rows). vm_compute. reflexivity.
  - apply (addressable_b_spec nothing_taken _ Hwf). vm_compute. reflexivity.
  - exact I.
  - exact I.
  - reflexivity.
  - reflexivity.
  - reflexivity.
  - intros ty ->%list_elem_of_singleton. vm_compute. discriminate.
Defined.
