(* ===== verification/Planner.v ===== *)
(** * The planner of a registered system ([system.rs], [dispatch/plan.rs], [bowl.rs])

    When a system is planned again, from which entities, and what happens to
    the rows it plans: the watermark gate, the cursor into the write log and its
    compaction, the rows forced back into planning, and the admission of a plan
    in batches.  The theorems: no change to an interesting store is lost between
    two plans, whatever compactions, conflicts, stale commits and resets happen
    in between; a skipped system has nothing new to see; and every dispatched
    row either runs or is planned again. *)
From stdpp Require Import base numbers sets gmap fin_maps sorting list.
From S2P Require Import Prelude Access.
From S2P Require Import Components Demo Stores Presence World WorldInv Ownership WorldOps Frame.

Inductive Phase := Startup | Evaluate | Complete | Settle.
#[export] Instance Phase_eq_dec : EqDecision Phase.
Proof. solve_decision. Defined.

(** [Phase::ordered]: the phases of one generation. *)
Definition phase_ordered (startup : bool) : list Phase :=
  if startup then [Startup; Evaluate; Complete] else [Evaluate; Complete].

(** The planning half of [BoxedSystem]. *)
Record BoxedSystem := MkSystem {
  sys_phase : Phase;
  view_sets : list (list TypeId);
  view_freshness : list TypeId;
  tracked_store_types : list TypeId;
  written_types : list TypeId;
  declared_outputs : option (list TypeId);
  interest : option (list TypeId);
  planned_mark : N;
  delta_eligible : bool;
  pair_bound : bool;
  sys_epoch : N;
  log_pos : nat;
  forced_dirty : list Entity;
}.

Definition set_phase (x : Phase) (s : BoxedSystem) : BoxedSystem :=
  MkSystem x (view_sets s) (view_freshness s) (tracked_store_types s) (written_types s) (declared_outputs s)
    (interest s) (planned_mark s) (delta_eligible s) (pair_bound s) (sys_epoch s) (log_pos s) (forced_dirty s).
Definition set_mark (x : N) (s : BoxedSystem) : BoxedSystem :=
  MkSystem (sys_phase s) (view_sets s) (view_freshness s) (tracked_store_types s) (written_types s) (declared_outputs s)
    (interest s) x (delta_eligible s) (pair_bound s) (sys_epoch s) (log_pos s) (forced_dirty s).
Definition set_cursor (epoch : N) (pos : nat) (s : BoxedSystem) : BoxedSystem :=
  MkSystem (sys_phase s) (view_sets s) (view_freshness s) (tracked_store_types s) (written_types s) (declared_outputs s)
    (interest s) (planned_mark s) (delta_eligible s) (pair_bound s) epoch pos (forced_dirty s).
Definition set_forced (x : list Entity) (s : BoxedSystem) : BoxedSystem :=
  MkSystem (sys_phase s) (view_sets s) (view_freshness s) (tracked_store_types s) (written_types s) (declared_outputs s)
    (interest s) (planned_mark s) (delta_eligible s) (pair_bound s) (sys_epoch s) (log_pos s) x.

(** [validate_tracked_store_writes] *)
Definition validate_tracked_store_writes (tracked written : list TypeId) (outputs : option (list TypeId))
    : result unit :=
  if bool_decide (tracked = []) then Done ()
  else match outputs with
       | None => Panic TrackedStoreWrite
       | Some outputs =>
           check TrackedStoreWrite
             (negb (existsb (λ c, bool_decide (c ∈ written) || bool_decide (c ∈ outputs)) tracked))
       end.

(** [BoxedSystem::new] *)
Definition system_new (view_sets : list (list TypeId)) (freshness tracked written : list TypeId)
    (outputs : option (list TypeId)) (interest : option (list TypeId)) (delta pair : bool)
    : result BoxedSystem :=
  _ ← validate_tracked_store_writes tracked written outputs;
  Done (MkSystem Evaluate view_sets freshness tracked written outputs interest u64_max
          (delta && bool_decide (is_Some interest)) pair u64_max 0 []).

(** [run_during] *)
Definition run_during (s : BoxedSystem) (phase : Phase) : BoxedSystem := set_phase phase s.

(** [sort_unstable(); dedup()] *)
Fixpoint dedup (l : list Entity) : list Entity :=
  match l with
  | x :: (y :: _) as l => if bool_decide (x = y) then dedup l else x :: dedup l
  | l => l
  end.
Definition sort_dedup (l : list Entity) : list Entity := dedup (merge_sort N.le l).

Section planner.
Context `{ComponentTypes} `{HashOrder}.
Implicit Types (w : World) (s : BoxedSystem) (e : Entity) (ty : TypeId).

(** The highest watermark of the interest stores. *)
Definition interest_mark w (tys : list TypeId) : N := foldr N.max 0%N (store_watermark w <$> tys).

Definition peek_needs_planning s w : bool :=
  if negb (bool_decide (forced_dirty s = [])) then true
  else match interest s with
       | None => true
       | Some tys =>
           if bool_decide (planned_mark s = u64_max) then true
           else bool_decide (planned_mark s < interest_mark w tys)%N
       end.

Definition needs_planning s w : BoxedSystem * bool :=
  if negb (peek_needs_planning s w) then (s, false)
  else match interest s with
       | Some tys => (set_mark (interest_mark w tys) s, true)
       | None => (s, true)
       end.

Definition reset_full s : BoxedSystem := set_cursor u64_max (log_pos s) (set_mark u64_max s).

Definition force_replan s (keys : list Entity) : BoxedSystem :=
  if delta_eligible s && negb (bool_decide (keys = []))
  then set_forced (forced_dirty s ++ keys) s
  else reset_full s.

Definition take_forced_dirty s : BoxedSystem * list Entity := (set_forced [] s, forced_dirty s).

Definition compact_plan_log s (epoch : N) (log : list (TypeId * Entity)) w : result BoxedSystem :=
  if negb (delta_eligible s) || bool_decide (sys_phase s = Startup) || bool_decide (sys_epoch s ≠ epoch)
  then Done s
  else
    let pos := log_pos s in
    _ ← check CursorPastLog (bool_decide (pos ≤ length log));
    s ← (if peek_needs_planning s w
         then tys ← expect UnboundedInterest (interest s);
              Done (set_forced (sort_dedup (forced_dirty s ++
                      (snd <$> filter (λ p, p.1 ∈ tys) (drop pos log)))) s)
         else Done s);
    next ← expect Overflow (u64_checked_succ epoch);
    Done (set_cursor next 0 s).

(** One system in the planning loop of a phase: skipped, or planned with a
    hint ([None] plans every row). *)
Definition plan_system s w (log : list (TypeId * Entity)) (epoch : N)
    : result (BoxedSystem * option (option (list Entity))) :=
  let '(s, planned) := needs_planning s w in
  if negb planned then Done (s, None)
  else
    let '(s, forced) := take_forced_dirty s in
    hint ← (if delta_eligible s && bool_decide (sys_epoch s = epoch)
            then tys ← expect UnboundedInterest (interest s);
                 Done (Some (sort_dedup ((snd <$> filter (λ p, p.1 ∈ tys)
                                            (drop (log_pos s `min` length log) log)) ++ forced)))
            else Done None);
    Done (if delta_eligible s then set_cursor epoch (length log) s else s, Some hint).

(** [compact_plan_log] of [bowl.rs]: at a generation boundary. *)
Definition compact_systems (systems : list BoxedSystem) w : result (list BoxedSystem * World) :=
  '(w, rolled) ← maybe_roll_plan_epoch w;
  match rolled with
  | None => Done (systems, w)
  | Some (epoch, log) =>
      systems ← fold_result (λ done s, s ← compact_plan_log s epoch log w; Done (done ++ [s])) [] systems;
      Done (systems, w)
  end.

(** ** Sorting and deduplication *)

Lemma elem_of_dedup l e : e ∈ dedup l ↔ e ∈ l.
Proof.
  induction l as [|x [|y l] IH]; [done|done|]. cbn [dedup]. case_bool_decide as Hxy.
  - subst y. rewrite IH, !elem_of_cons. tauto.
  - rewrite elem_of_cons, IH, (elem_of_cons (y :: l)). done.
Qed.

Lemma elem_of_sort_dedup l e : e ∈ sort_dedup l ↔ e ∈ l.
Proof. unfold sort_dedup. rewrite elem_of_dedup. by rewrite merge_sort_Permutation. Qed.

(** ** Nothing is lost between two plans *)

(** What can happen between two plans of one system: the world moves (commits,
    external writes), a generation boundary compacts the log, rows are forced
    back into planning (conflict deferral, a stale commit, retired outputs),
    or the system is reset (an abandoned run).  [K] collects the forced rows. *)
Inductive planner_step : taken * World * BoxedSystem * list Entity →
                         taken * World * BoxedSystem * list Entity → Prop :=
  | ps_world X w s K X' w' :
      world_step (X, w) (X', w') → planner_step (X, w, s, K) (X', w', s, K)
  | ps_compact X w s K w' epoch log s' :
      maybe_roll_plan_epoch w = Done (w', Some (epoch, log)) →
      compact_plan_log s epoch log w' = Done s' → planner_step (X, w, s, K) (X, w', s', K)
  | ps_force X w s K keys :
      planner_step (X, w, s, K) (X, w, force_replan s keys, K ++ keys)
  | ps_reset X w s K : planner_step (X, w, s, K) (X, w, reset_full s, K).

Definition was_reset s : Prop := planned_mark s = u64_max ∧ sys_epoch s = u64_max.

(** What a system must still see, after its last plan at [w0]. *)
Record covers w0 (tys : list TypeId) X w s (K : list Entity) : Prop := {
  cov_wf : wf X w;
  cov_interest : interest s = Some tys;
  cov_mark : planned_mark s = u64_max ∨ (planned_mark s ≤ revision w0)%N;
  cov_revision : (revision w0 ≤ revision w)%N;
  cov_moved ty e : row_revision w0 ty e ≠ row_revision w ty e → (revision w0 < store_watermark w ty)%N;
  cov_keys : was_reset s ∨ K ⊆ forced_dirty s;
  cov_cursor : delta_eligible s = false ∨ sys_epoch s = u64_max ∨ (sys_epoch s < plan_epoch w)%N ∨
    (sys_epoch s = plan_epoch w ∧ log_pos s ≤ length (write_log w) ∧
     ∀ ty e, ty ∈ tys → row_revision w0 ty e ≠ row_revision w ty e →
       e ∈ forced_dirty s ∨ (ty, e) ∈ drop (log_pos s) (write_log w));
}.

Lemma interest_mark_le w tys ty : ty ∈ tys → (store_watermark w ty ≤ interest_mark w tys)%N.
Proof.
  unfold interest_mark. induction 1 as [ty tys|ty ty' tys _ IH]; [apply N.le_max_l|].
  etrans; [exact IH|]. apply N.le_max_r.
Qed.

Lemma interest_mark_bound X w tys : wf X w → (interest_mark w tys ≤ revision w)%N.
Proof.
  intros Hwf. unfold interest_mark. induction tys as [|ty tys IH]; [apply N.le_0_l|].
  apply N.max_lub; [|exact IH]. unfold store_watermark. destruct (store_of w ty) as [st|] eqn:Hs; simpl; [|lia].
  by apply (wf_store _ _ Hwf _ _ Hs).
Qed.

Lemma peek_ext s w w' :
  (∀ ty, store_watermark w' ty = store_watermark w ty) → peek_needs_planning s w = peek_needs_planning s w'.
Proof.
  intros Hwm. unfold peek_needs_planning, interest_mark. destruct (interest s) as [tys|]; [|done].
  assert ((store_watermark w' <$> tys) = (store_watermark w <$> tys)) as -> by (by apply list_fmap_ext; intros).
  done.
Qed.

(** A quiet system has nothing new to see. *)
Lemma covers_quiet w0 tys X w s K :
  covers w0 tys X w s K → peek_needs_planning s w = false →
  forced_dirty s = [] ∧ ∀ ty e, ty ∈ tys → row_revision w ty e = row_revision w0 ty e.
Proof.
  intros C. unfold peek_needs_planning. case_bool_decide as Hf; [|done]. simpl.
  rewrite (cov_interest _ _ _ _ _ _ C). case_bool_decide as Hm; [done|].
  intros Hq%bool_decide_eq_false. split; [done|]. intros ty e Hty.
  destruct (decide (row_revision w0 ty e = row_revision w ty e)) as [|Hne]; [done|].
  apply (cov_moved _ _ _ _ _ _ C) in Hne. pose proof (interest_mark_le w tys ty Hty).
  destruct (cov_mark _ _ _ _ _ _ C); [done|lia].
Qed.

Lemma maybe_roll_frame w w' epoch log :
  maybe_roll_plan_epoch w = Done (w', Some (epoch, log)) →
  epoch = plan_epoch w ∧ log = write_log w ∧ (plan_epoch w < u64_max)%N ∧ plan_epoch w' = (plan_epoch w + 1)%N ∧ write_log w' = [] ∧
  stores w' = stores w ∧ revision w' = revision w ∧ ∀ X, wf X w → wf X w'.
Proof.
  unfold maybe_roll_plan_epoch. case_bool_decide; [done|]. intros (next & Hn & [= <- <- <-])%bind_Done.
  apply expect_Done, u64_checked_succ_Some in Hn as [-> Hlt]. split_and!; try done; [lia|].
  intros X Hwf. eapply (frame_wf X X); [..|exact Hwf]; try done. intros. by apply elem_of_union_r.
Qed.

Lemma covers_evolves w0 tys X w s K X' w' :
  covers w0 tys X w s K → wf X' w' → evolves w w' → plan_epoch w' = plan_epoch w → covers w0 tys X' w' s K.
Proof.
  intros C Hwf E He. destruct (ev_log _ _ E) as (l & Hl & Hmoved). pose proof (ev_revision _ _ E).
  destruct C as [_ Ci Cm Cr Cmv Ck Cc]. split; try done.
  - lia.
  - intros ty e Hne. pose proof (ev_watermark _ _ E ty).
    destruct (decide (row_revision w0 ty e = row_revision w ty e)) as [Heq|Hne'].
    + rewrite Heq in Hne. apply (ev_moved _ _ E) in Hne. lia.
    + apply Cmv in Hne'. lia.
  - rewrite He. destruct Cc as [?|[?|[?|(? & Hpos & Hc)]]]; [by left|by right; left|by do 2 right; left|].
    do 3 right. split; [done|]. rewrite Hl. split; [rewrite length_app; lia|]. intros ty e Hty Hne.
    rewrite drop_app_le by done.
    destruct (decide (row_revision w0 ty e = row_revision w ty e)) as [Heq|Hne'].
    + right. apply elem_of_app. right. apply Hmoved. congruence.
    + destruct (Hc ty e Hty Hne') as [?|?]; [by left|]. right. apply elem_of_app. by left.
Qed.

Lemma covers_world w0 tys X w s K X' w' :
  covers w0 tys X w s K → world_step (X, w) (X', w') → covers w0 tys X' w' s K.
Proof.
  intros C Hstep. destruct (world_step_good _ _ _ _ (cov_wf _ _ _ _ _ _ C) Hstep) as [Hwf E].
  eapply covers_evolves; [exact C|exact Hwf|exact E|]. by eapply world_step_epoch.
Qed.

(** What is seen from an earlier world is seen from the present one. *)
Lemma covers_now w0 tys X w s K : covers w0 tys X w s K → covers w tys X w s [].
Proof.
  intros [Hwf Ci Cm Cr _ _ Cc]. split; try done.
  - destruct Cm; [by left|right; lia].
  - right. by intros e ?%elem_of_nil.
  - destruct Cc as [?|[?|[?|(? & ? & _)]]]; [by left|by right; left|by do 2 right; left|]. do 3 right.
    by split_and!.
Qed.

Lemma covers_compact w0 tys X w s K w' epoch log s' :
  covers w0 tys X w s K → maybe_roll_plan_epoch w = Done (w', Some (epoch, log)) →
  compact_plan_log s epoch log w' = Done s' → covers w0 tys X w' s' K.
Proof.
  intros C (-> & -> & Hmax & Hep & Hlog & Hst & Hrev & Hwf)%maybe_roll_frame.
  assert (∀ ty e, row_revision w' ty e = row_revision w ty e) as Hrow
    by (intros; rewrite !row_revision_row; by rewrite (frame_row w w')).
  assert (∀ ty, store_watermark w' ty = store_watermark w ty) as Hwm
    by (intros; unfold store_watermark, store_of; by rewrite Hst).
  assert (covers w0 tys X w' s K ∨ sys_epoch s = plan_epoch w) as Hsame.
  { destruct (decide (sys_epoch s = plan_epoch w)); [by right|]. left.
    destruct C as [? ? ? ? Cmv ? Cc]. split; try done; [auto|lia| |].
    - intros ty e. rewrite Hrow, Hwm. apply Cmv.
    - destruct Cc as [?|[?|[?|[? _]]]]; [by left|by right; left| |done]. do 2 right. left. lia. }
  unfold compact_plan_log. destruct (delta_eligible s) eqn:Hdelta; simpl.
  2: { intros [= <-]. destruct C as [? ? ? ? Cmv ? Cc]. split; try done; [auto|lia| |by left].
       intros ty e. rewrite Hrow, Hwm. apply Cmv. }
  case_bool_decide as Hph; simpl.
  { intros [= <-]. destruct C as [? ? ? ? Cmv ? Cc]. split; try done; [auto|lia| |].
    - intros ty e. rewrite Hrow, Hwm. apply Cmv.
    - right. destruct Cc as [?|[?|[?|[? _]]]]; [congruence|by left| |]; right; left; lia. }
  case_bool_decide as Hse.
  { intros [= <-]. by destruct Hsame. }
  assert (sys_epoch s = plan_epoch w) as He.
  { destruct (decide (sys_epoch s = plan_epoch w)); [done|]. by destruct Hse. }
  intros ([] & _ & Hr)%bind_Done. apply bind_Done in Hr as (s1 & Hs1 & Hr).
  apply bind_Done in Hr as (next & Hn%expect_Done & [= <-]).
  apply u64_checked_succ_Some in Hn as [-> _].
  assert (peek_needs_planning s w' = false →
    ∀ ty e, ty ∈ tys → row_revision w0 ty e = row_revision w' ty e) as Hnow.
  { intros Hq ty e Hty. rewrite Hrow. symmetry. apply (covers_quiet w0 tys X w s K C); [|done].
    rewrite <-Hq. apply peek_ext. apply Hwm. }
  destruct C as [? Ci Cm ? Cmv Ck Cc].
  assert (sys_phase s1 = sys_phase s ∧ interest s1 = interest s ∧ planned_mark s1 = planned_mark s ∧
    delta_eligible s1 = delta_eligible s ∧ sys_epoch s1 = sys_epoch s ∧
    (∀ e, e ∈ forced_dirty s → e ∈ forced_dirty s1) ∧
    (∀ ty e, ty ∈ tys → row_revision w0 ty e ≠ row_revision w' ty e → e ∈ forced_dirty s1 ∨ sys_epoch s = u64_max))
    as (Hp1 & Hi1 & Hm1 & Hd1 & He1 & Hf1 & Hc1).
  { destruct (peek_needs_planning s w') eqn:Hpeek.
    - apply bind_Done in Hs1 as (tys' & Htys%expect_Done & [= <-]). rewrite Ci in Htys. injection Htys as <-.
      simpl. split_and!; try done.
      + intros e ?. apply elem_of_sort_dedup, elem_of_app. by left.
      + intros ty e Hty Hne. rewrite Hrow in Hne.
        destruct Cc as [?|[?|[?|(_ & _ & Hc)]]]; [congruence|by right|lia|]. left.
        apply elem_of_sort_dedup, elem_of_app. destruct (Hc ty e Hty Hne) as [?|Hin]; [by left|]. right.
        apply list_elem_of_fmap. exists (ty, e). split; [done|]. by apply list_elem_of_filter.
    - injection Hs1 as <-. split_and!; try done. intros ty e Hty Hne. by destruct Hne; apply Hnow. }
  assert (sys_epoch s ≠ u64_max) as Hne by lia.
  split; simpl.
  - auto.
  - congruence.
  - by rewrite Hm1.
  - lia.
  - intros ty e. rewrite Hrow, Hwm. apply Cmv.
  - destruct Ck as [[_ ?]|Hk]; [done|]. right. intros e ?. by apply Hf1, Hk.
  - right. right. right. rewrite Hlog. simpl. split; [done|]. split; [lia|].
    intros ty e Hty Hch. destruct (Hc1 ty e Hty Hch) as [?|?]; [by left|done].
Qed.

Lemma covers_reset w0 tys X w s K : covers w0 tys X w s K → covers w0 tys X w (reset_full s) K.
Proof.
  intros []. split; try done; simpl; [by left|by left|]. right. by left.
Qed.

Lemma covers_keys w0 tys X w s K K' :
  covers w0 tys X w s K → was_reset s ∨ K' ⊆ forced_dirty s → covers w0 tys X w s K'.
Proof. intros [] Hk. by split. Qed.

Lemma covers_force w0 tys X w s K ks :
  covers w0 tys X w s K → covers w0 tys X w (force_replan s ks) (K ++ ks).
Proof.
  intros C. unfold force_replan. destruct (delta_eligible s && _) eqn:Hb.
  - destruct C as [Hwf Ci Cm Cr Cmv Ck Cc]. split; try done; simpl.
    + destruct Ck as [?|Hk]; [by left|]. right. apply list_subseteq_app_iff_l. set_solver.
    + destruct Cc as [?|[?|[?|(? & ? & Hc)]]]; [by left|by right; left|by do 2 right; left|]. do 3 right.
      split_and!; try done. intros ty e Hty Hne.
      destruct (Hc ty e Hty Hne) as [?|?]; [|by right]. left. apply elem_of_app. by left.
  - eapply covers_keys; [by apply covers_reset|]. by left.
Qed.

Lemma covers_step w0 tys X w s K X' w' s' K' :
  covers w0 tys X w s K → planner_step (X, w, s, K) (X', w', s', K') → covers w0 tys X' w' s' K'.
Proof.
  intros C Hstep. inversion Hstep; subst.
  - by eapply covers_world.
  - by eapply covers_compact.
  - by apply covers_force.
  - by apply covers_reset.
Qed.

Lemma covers_steps w0 tys c c' :
  rtc planner_step c c' → covers w0 tys c.1.1.1 c.1.1.2 c.1.2 c.2 →
  covers w0 tys c'.1.1.1 c'.1.1.2 c'.1.2 c'.2.
Proof.
  induction 1 as [|[[[X w] s] K] [[[X1 w1] s1] K1] c' Hs _ IH]; [done|]. intros C. apply IH.
  by eapply covers_step.
Qed.

Lemma plan_system_spec s w log epoch s' hint :
  plan_system s w log epoch = Done (s', Some hint) →
  peek_needs_planning s w = true ∧ interest s' = interest s ∧ delta_eligible s' = delta_eligible s ∧
  planned_mark s' = from_option (interest_mark w) (planned_mark s) (interest s) ∧
  (delta_eligible s = true → sys_epoch s' = epoch ∧ log_pos s' = length log).
Proof.
  unfold plan_system, needs_planning. destruct (peek_needs_planning s w); simpl; [|done].
  destruct (interest s) as [tys|] eqn:Hi; simpl; intros (h & _ & [= <- <-])%bind_Done.
  - split; [done|]. destruct (delta_eligible s) eqn:Hd; simpl; rewrite ?Hd, ?Hi; done.
  - split; [done|]. destruct (delta_eligible s) eqn:Hd; simpl; rewrite ?Hd, ?Hi; done.
Qed.

(** Right after planning there is nothing left to see. *)
Lemma covers_planned X w s s' hint tys :
  wf X w → interest s = Some tys → plan_system s w (write_log w) (plan_epoch w) = Done (s', Some hint) →
  covers w tys X w s' [].
Proof.
  intros Hwf Hi (_ & Hi' & Hd & Hm & Hc)%plan_system_spec. rewrite Hi in Hi', Hm. simpl in Hm. split; try done.
  - right. rewrite Hm. by eapply interest_mark_bound.
  - right. apply list_subseteq_nil.
  - destruct (delta_eligible s); [|by left]. destruct (Hc eq_refl) as [-> ->]. do 3 right.
    split; [done|]. split; [lia|]. intros ?? _ Hne. by destruct Hne.
Qed.

(** Planning a covered system. *)
Lemma plan_covered w0 tys X w s K :
  covers w0 tys X w s K → (plan_epoch w < u64_max)%N →
  ∃ s' out, plan_system s w (plan_log w).1 (plan_log w).2 = Done (s', out) ∧
  match out with
  | Some None => True
  | Some (Some hint) =>
      (∀ e, e ∈ K → e ∈ hint) ∧
      ∀ ty e, ty ∈ tys → row_revision w ty e ≠ row_revision w0 ty e → e ∈ hint
  | None => K = [] ∧ ∀ ty e, ty ∈ tys → row_revision w ty e = row_revision w0 ty e
  end.
Proof.
  intros C Hmax. simpl in *.
  unfold plan_system, needs_planning. destruct (peek_needs_planning s w) eqn:Hpeek; simpl.
  2: { destruct (covers_quiet _ _ _ _ _ _ C Hpeek) as [Hf Hq]. exists s, None. split; [done|]. split; [|done].
       destruct (cov_keys _ _ _ _ _ _ C) as [[Hm _]|Hk].
       - unfold peek_needs_planning in Hpeek. rewrite Hf, (cov_interest _ _ _ _ _ _ C), Hm in Hpeek.
         by rewrite bool_decide_eq_true_2 in Hpeek.
       - rewrite Hf in Hk. by apply list_nil_subseteq. }
  destruct C as [_ Ci _ _ _ Ck Cc]. rewrite Ci. simpl. rewrite ?Ci.
  destruct (delta_eligible s) eqn:Hd; simpl; [|by eexists _, _].
  case_bool_decide as He; simpl; [|by eexists _, _]. eexists _, _. split; [done|]. simpl. split.
  - intros e He'. apply elem_of_sort_dedup, elem_of_app. right.
    destruct Ck as [[_ ?]|Hk]; [lia|]. by apply Hk.
  - intros ty e Hty Hne. apply elem_of_sort_dedup, elem_of_app.
    destruct Cc as [?|[?|[?|(_ & Hpos & Hc)]]]; [done|lia|lia|].
    destruct (Hc ty e Hty) as [?|Hin]; [congruence|by right|]. left. rewrite Nat.min_l by done.
    apply list_elem_of_fmap. exists (ty, e). split; [done|]. by apply list_elem_of_filter.
Qed.

(** ** Properties of the planner *)

(** C8: the planner loses nothing.  Plan a system at a world [w0]; let any
    commits, removals, sweeps, compactions of the write log, conflict
    deferrals, stale commits and resets follow.  Then planning it again never
    panics, and it is either planned in full, or from a hint that contains every
    entity with a changed row in an interest store and every row forced back
    into planning, or skipped, and then no row of an interest store changed and
    no row was forced. *)
Theorem planner_loses_nothing X0 w0 s0 hint0 s1 tys X w s K :
  wf X0 w0 → interest s0 = Some tys →
  plan_system s0 w0 (plan_log w0).1 (plan_log w0).2 = Done (s1, Some hint0) →
  rtc planner_step (X0, w0, s1, []) (X, w, s, K) → (plan_epoch w < u64_max)%N →
  ∃ s' out, plan_system s w (plan_log w).1 (plan_log w).2 = Done (s', out) ∧
  match out with
  | Some None => True
  | Some (Some hint) =>
      (∀ e, e ∈ K → e ∈ hint) ∧
      ∀ ty e, ty ∈ tys → row_revision w ty e ≠ row_revision w0 ty e → e ∈ hint
  | None => K = [] ∧ ∀ ty e, ty ∈ tys → row_revision w ty e = row_revision w0 ty e
  end.
Proof.
  intros Hwf Hi Hplan Hsteps Hmax. simpl in *.
  pose proof (covers_planned _ _ _ _ _ _ Hwf Hi Hplan) as C.
  apply (covers_steps w0 tys _ _ Hsteps) in C. by apply (plan_covered w0 tys X).
Qed.

(** Compaction acts on every system by itself. *)
Lemma compact_systems_spec systems w systems' w' epoch log :
  maybe_roll_plan_epoch w = Done (w', Some (epoch, log)) →
  compact_systems systems w = Done (systems', w') ↔
  Forall2 (λ s s', compact_plan_log s epoch log w' = Done s') systems systems'.
Proof.
  intros Hroll. unfold compact_systems. rewrite Hroll. simpl.
  assert (∀ l acc out, fold_result (λ done s, s ← compact_plan_log s epoch log w'; Done (done ++ [s])) acc l = Done out ↔
    ∃ l', out = acc ++ l' ∧ Forall2 (λ s s', compact_plan_log s epoch log w' = Done s') l l') as Hfold.
  { induction l as [|s l IH]; intros acc out; simpl.
    - split; [intros [= <-]; exists []; by rewrite app_nil_r|].
      intros (l' & -> & Hnil%Forall2_nil_inv_l). by rewrite Hnil, app_nil_r.
    - destruct (compact_plan_log s epoch log w') as [s'|] eqn:Hc; simpl.
      + rewrite IH. split; intros (l' & -> & Hl).
        * exists (s' :: l'). rewrite <-app_assoc. split; [done|]. by constructor.
        * inversion Hl as [|? s2 ? l2 Hs2 Hl2]; subst. rewrite Hc in Hs2. injection Hs2 as <-.
          exists l2. by rewrite <-app_assoc.
      + split; [done|]. intros (l' & _ & Hl). inversion Hl as [|? s2 ? l2 Hs2 Hl2]; subst. congruence. }
  split.
  - intros (systems1 & Hf & [= <-])%bind_Done. apply Hfold in Hf as (l' & -> & Hl). done.
  - intros Hl. assert (fold_result (λ done s, s ← compact_plan_log s epoch log w'; Done (done ++ [s])) [] systems
      = Done systems') as ->; [|done]. apply Hfold. by exists systems'.
Qed.

(** Compaction never fails: whatever happened since the last plan, the
    cursor of a system is within the log that is reclaimed. *)
Theorem compaction_total X0 w0 s0 hint0 s1 tys X w s K w' epoch log :
  wf X0 w0 → interest s0 = Some tys →
  plan_system s0 w0 (plan_log w0).1 (plan_log w0).2 = Done (s1, Some hint0) →
  rtc planner_step (X0, w0, s1, []) (X, w, s, K) →
  maybe_roll_plan_epoch w = Done (w', Some (epoch, log)) →
  ∃ s', compact_plan_log s epoch log w' = Done s'.
Proof.
  intros Hwf Hi Hplan Hsteps Hroll. simpl in *.
  pose proof (covers_planned _ _ _ _ _ _ Hwf Hi Hplan) as C.
  apply (covers_steps w0 tys _ _ Hsteps) in C. simpl in C.
  apply maybe_roll_frame in Hroll as (-> & -> & Hmax & _). unfold compact_plan_log.
  destruct (delta_eligible s) eqn:Hd; simpl; [|by eexists].
  case_bool_decide; simpl; [by eexists|]. case_bool_decide as He; [by eexists|].
  destruct C as [_ Ci _ _ _ _ Cc].
  assert (log_pos s ≤ length (write_log w)) as Hpos.
  { destruct (decide (sys_epoch s = plan_epoch w)); [|by destruct He].
    destruct Cc as [?|[?|[?|(_ & ? & _)]]]; [congruence|lia|lia|done]. }
  rewrite bool_decide_eq_true_2 by done. simpl.
  assert (u64_checked_succ (plan_epoch w) = Some (plan_epoch w + 1)%N) as ->.
  { unfold u64_checked_succ. by rewrite bool_decide_eq_true_2. }
  rewrite Ci. destruct (peek_needs_planning s w'); by eexists.
Qed.

(** ** Dispatching a plan *)

(** [grain]: [workers] is the number of worker threads, if a runtime is there. *)
Definition grain (workers : option N) (ready maximum : N) : result N :=
  match workers with
  | Some n =>
      let per := N.max 1 (N.min (n * 4) u64_max) in
      let x := ((ready + (per - 1)) / per)%N in
      _ ← check EmptyDispatch (bool_decide (1 ≤ maximum)%N);
      Done (if bool_decide (x < 1)%N then 1%N else if bool_decide (maximum < x)%N then maximum else x)
  | None => Done maximum
  end.

(** [Admission]; a queue is the list of the batches pushed to it. *)
Record Admission := MkAdmission {
  adm_system : BoxedSystem;
  adm_reservations : Reservations;
  adm_deferred : bool;
  adm_readers : list (list RunId);
  adm_writers : list (list RunId);
}.

(** The batch being filled, pushed when it is full. *)
Definition push_run (size : N) (queue : list (list RunId)) (batch : list RunId) (id : RunId)
    : list (list RunId) * list RunId :=
  let batch := batch ++ [id] in
  if bool_decide (N.of_nat (length batch) = size) then (queue ++ [batch], []) else (queue, batch).

Definition dispatch_row (size : N) (st : Admission * list RunId * list RunId)
    (planned : SystemInvocation * list Access) : result (Admission * list RunId * list RunId) :=
  let '(a, readers, writers) := st in
  '(r, out) ← admit_invocation (adm_reservations a) planned.1 planned.2;
  match out with
  | inr Duplicate =>
      Done (MkAdmission (adm_system a) r (adm_deferred a) (adm_readers a) (adm_writers a), readers, writers)
  | inr (Conflict owner) =>
      Done (MkAdmission (force_replan (adm_system a) (keys owner)) r true (adm_readers a) (adm_writers a),
            readers, writers)
  | inl id =>
      writer ← is_writer r id;
      if writer : bool
      then let '(queue, batch) := push_run size (adm_writers a) writers id in
           Done (MkAdmission (adm_system a) r (adm_deferred a) (adm_readers a) queue, readers, batch)
      else let '(queue, batch) := push_run size (adm_readers a) readers id in
           Done (MkAdmission (adm_system a) r (adm_deferred a) queue (adm_writers a), batch, writers)
  end.

Definition push_rest (queue : list (list RunId)) (batch : list RunId) : list (list RunId) :=
  if bool_decide (batch = []) then queue else queue ++ [batch].

Definition dispatch_rows (workers : option N) (maximum : N) (a : Admission)
    (runs : list (SystemInvocation * list Access)) : result Admission :=
  size ← grain workers (N.of_nat (length runs)) maximum;
  '(a, readers, writers) ← fold_result (dispatch_row size) (a, [], []) runs;
  Done (MkAdmission (adm_system a) (adm_reservations a) (adm_deferred a)
          (push_rest (adm_readers a) readers) (push_rest (adm_writers a) writers)).

(** The rows [ks] are planned again: in full, or from the forced rows. *)
Definition replanned s (ks : list Entity) : Prop := was_reset s ∨ ks ⊆ forced_dirty s.

Lemma replanned_force s ks ks' : replanned s ks → replanned (force_replan s ks') ks.
Proof.
  unfold replanned, force_replan. destruct (delta_eligible s && _); [|by left].
  intros [?|?]; [by left|]. right. simpl. set_solver.
Qed.
Lemma force_replanned s ks : replanned (force_replan s ks) ks.
Proof.
  unfold replanned, force_replan. destruct (delta_eligible s && _); [|by left]. right. simpl. set_solver.
Qed.

(** Runs admitted since [t0], by whether they write. *)
Definition admitted (t0 t : Spec.table) (writer : bool) (id : RunId) : Prop :=
  ∃ o accs, t !! id = Some (o, accs) ∧ t0 !! id = None ∧ Spec.writes accs = writer.

Record queued (size : N) (t0 t : Spec.table) (writer : bool) (q0 q : list (list RunId)) (batch : list RunId)
    : Prop := {
  qd_batches : ∃ bs, q = q0 ++ bs ∧ Forall (λ b, (0 < N.of_nat (length b) ≤ size)%N) bs ∧
    NoDup (concat bs ++ batch) ∧ ∀ id, id ∈ concat bs ++ batch ↔ admitted t0 t writer id;
  qd_open : (N.of_nat (length batch) < size)%N;
}.

Lemma queued_push size t0 t writer q0 q batch id o accs :
  queued size t0 t writer q0 q batch → t !! id = None → t0 ⊆ t → Spec.writes accs = writer →
  queued size t0 (<[id := (o, accs)]> t) writer q0 (push_run size q batch id).1 (push_run size q batch id).2.
Proof.
  intros [(bs & -> & Hlen & Hnd & Hin) Hopen] Hfresh Hle Hw.
  assert (id ∉ concat bs ++ batch) as Hni.
  { rewrite Hin. intros (? & ? & Hs & _). congruence. }
  assert (∀ id', id' ∈ (concat bs ++ batch) ++ [id] ↔ admitted t0 (<[id := (o, accs)]> t) writer id') as Hin'.
  { intros id'. rewrite elem_of_app, Hin, list_elem_of_singleton. unfold admitted.
    destruct (decide (id' = id)) as [->|Hne].
    - split; [|by right]. intros _. exists o, accs. rewrite lookup_insert_eq. split_and!; [done| |done].
      destruct (t0 !! id) eqn:H0'; [|done]. eapply lookup_weaken in H0'; [|done]. congruence.
    - rewrite lookup_insert_ne by done. naive_solver. }
  assert (NoDup ((concat bs ++ batch) ++ [id])) as Hnd'.
  { apply NoDup_app. split; [done|]. split; [|apply NoDup_singleton].
    intros x Hx ->%list_elem_of_singleton. by apply Hni. }
  unfold push_run. case_bool_decide as Hfull; simpl.
  - split; [|simpl in *; lia]. exists (bs ++ [batch ++ [id]]).
    rewrite concat_app. simpl. rewrite !app_nil_r, !app_assoc. split_and!; [done| |done|done].
    apply Forall_app. split; [done|]. constructor; [|done].
    rewrite <-Hfull. rewrite length_app in *. simpl in *. lia.
  - split; [|rewrite length_app in *; simpl in *; lia].
    exists bs. rewrite app_assoc. done.
Qed.

Lemma queued_other size t0 t writer q0 q batch id o accs :
  queued size t0 t writer q0 q batch → t !! id = None → Spec.writes accs ≠ writer →
  queued size t0 (<[id := (o, accs)]> t) writer q0 q batch.
Proof.
  intros [(bs & -> & Hlen & Hnd & Hin) Hopen] Hfresh Hw. split; [|done]. exists bs. split_and!; try done.
  intros id'. rewrite Hin. unfold admitted. destruct (decide (id' = id)) as [->|Hne].
  - rewrite Hfresh, lookup_insert_eq. naive_solver.
  - by rewrite lookup_insert_ne.
Qed.

(** An admission takes at most one new slot. *)
Lemma admit_slots r o accs r' out :
  admit_invocation r o accs = Done (r', out) →
  length (rec_slots (records r')) ≤ S (length (rec_slots (records r))).
Proof.
  unfold admit_invocation. destruct (owners r !! o); [intros [= <- <-]; lia|].
  destruct (resolve_all (components r) accs) as [cs rs]. intros (b & _ & Hr)%bind_Done.
  destruct b; [injection Hr as <- <-; simpl; lia|].
  apply bind_Done in Hr as (slots & _ & Hr). apply bind_Done in Hr as ([recs id] & Hins & [= <- <-]). simpl.
  unfold records_insert in Hins. apply bind_Done in Hins as ([i r1] & Hpick & Hins).
  apply bind_Done in Hins as (slot & _ & Hins). apply bind_Done in Hins as (u & _ & [= <- <-]). simpl.
  rewrite length_insert. unfold records_pick in Hpick. destruct (rec_free (records r)).
  - case_bool_decide; [|done]. injection Hpick as <- <-. simpl. rewrite length_app. simpl. lia.
  - injection Hpick as <- <-. simpl. lia.
Qed.

Definition table_ok (r : Reservations) (t : Spec.table) : Prop :=
  represents r t ∧ Spec.exclusive t ∧ Spec.single_flight t.

(** What the dispatch loop keeps while it goes through the plan. *)
Definition dispatching (size : N) (t0 t : Spec.table) (a0 : Admission)
    (st : Admission * list RunId * list RunId) : Prop :=
  let '(a, readers, writers) := st in
  table_ok (adm_reservations a) t ∧ t0 ⊆ t ∧
  queued size t0 t false (adm_readers a0) (adm_readers a) readers ∧
  queued size t0 t true (adm_writers a0) (adm_writers a) writers ∧
  (∀ ks, replanned (adm_system a0) ks → replanned (adm_system a) ks) ∧
  (adm_deferred a0 = true → adm_deferred a = true) ∧
  (adm_deferred a = true → adm_deferred a0 = true ∨ t ≠ ∅) ∧
  (adm_system a = adm_system a0 ∨ adm_deferred a = true) ∧
  sys_phase (adm_system a) = sys_phase (adm_system a0) ∧ interest (adm_system a) = interest (adm_system a0).

Definition handled (t : Spec.table) (a : Admission) (o : SystemInvocation) : Prop :=
  Spec.running t o ∨ (adm_deferred a = true ∧ replanned (adm_system a) (keys o)).

Lemma force_replan_fields s ks :
  sys_phase (force_replan s ks) = sys_phase s ∧ interest (force_replan s ks) = interest s.
Proof. unfold force_replan. by destruct (_ && _). Qed.

Lemma clashes_nonempty t accs : Spec.clashes t accs → t ≠ ∅.
Proof. intros (a & id & o & held & b & _ & Ht & _) ->. by rewrite lookup_empty in Ht. Qed.

Lemma subseteq_nonempty (t t' : Spec.table) : t ⊆ t' → t ≠ ∅ → t' ≠ ∅.
Proof. intros Hle Hne ->. apply Hne, map_eq. intros id. rewrite lookup_empty. destruct (t !! id) eqn:Hid; [|done]. eapply lookup_weaken in Hid; [|exact Hle]. by rewrite lookup_empty in Hid. Qed.

Lemma dispatch_row_step size t0 t a0 st o accs st' :
  dispatching size t0 t a0 st → dispatch_row size st (o, accs) = Done st' →
  ∃ t', dispatching size t0 t' a0 st' ∧ t ⊆ t' ∧
    (∀ id o' accs', t' !! id = Some (o', accs') → t !! id = Some (o', accs') ∨ o' = o) ∧
    handled t' st'.1.1 o ∧ (∀ o', handled t st.1.1 o' → handled t' st'.1.1 o').
Proof.
  destruct st as [[a readers] writers].
  intros ((Hr & Hex & Hsf) & Hle & Hqr & Hqw & Hrep & Hdef & Hwhy & Hsame & Hph & Hint).
  unfold dispatch_row. simpl. intros ([r out] & Hadm & Hrest)%bind_Done.
  destruct (admit_refines_aux _ _ _ _ _ _ Hr Hadm) as (t' & Hspec & Hr').
  assert (table_ok r t') as Hok.
  { split_and!; [done|by eapply Spec.admits_exclusive|by eapply Spec.admits_single_flight]. }
  destruct Hspec as [Hrun|Hrun Hclash|id Hrun Hclash Hfresh].
  - injection Hrest as <-. exists t. split; [by split_and!|]. split; [done|]. split; [by left|]. split; [by left|done].
  - injection Hrest as <-. exists t. destruct (force_replan_fields (adm_system a) (keys o)) as [Hf1 Hf2]. split.
    { split_and!; try done; simpl.
      - intros ks Hk. by apply replanned_force, Hrep.
      - intros _. right. by eapply clashes_nonempty.
      - by right.
      - by rewrite Hf1.
      - by rewrite Hf2. }
    split; [done|]. split; [by left|]. split; [right; split; [done|by apply force_replanned]|].
    intros o' [?|[? ?]]; [by left|]. right. split; [done|]. by apply replanned_force.
  - assert (is_writer r id = Done (Spec.writes accs)) as Hw.
    { unfold is_writer. destruct (represents_lookup r _ id o accs Hr') as (rec & Hrec & Hof);
        [apply lookup_insert_eq|]. rewrite Hrec. destruct Hof as (_ & _ & Hwr). simpl in *. by rewrite Hwr. }
    rewrite Hw in Hrest. simpl in Hrest. set (t' := <[id := (o, accs)]> t) in *.
    assert (t ⊆ t') as Hsub by by apply insert_subseteq.
    assert (t0 ⊆ t') as Hle' by by etrans.
    assert (Spec.running t' o) as Hrun' by (exists id, accs; apply lookup_insert_eq).
    assert (∀ id' o' accs', t' !! id' = Some (o', accs') → t !! id' = Some (o', accs') ∨ o' = o) as Hnew.
    { intros id' o' accs' [[_ [= <- <-]]|[_ ?]]%lookup_insert_Some; [by right|by left]. }
    assert (adm_deferred a = true → adm_deferred a0 = true ∨ t' ≠ ∅) as Hwhy'.
    { intros [?|?]%Hwhy; [by left|]. right. eapply subseteq_nonempty; [exact Hsub|done]. }
    assert (∀ a', adm_system a' = adm_system a → adm_deferred a' = adm_deferred a →
      ∀ o', handled t a o' → handled t' a' o') as Hkeep.
    { intros a' Hs Hd o' [(id' & accs' & Hr0)|[? ?]]; [left; exists id', accs'; by eapply lookup_weaken|].
      right. by rewrite Hs, Hd. }
    exists t'. destruct (Spec.writes accs) eqn:Hwr.
    + pose proof (queued_push _ _ _ _ _ _ _ id o accs Hqw Hfresh Hle Hwr) as Hpush.
      destruct (push_run size (adm_writers a) writers id) as [queue batch]. injection Hrest as <-. simpl in Hpush.
      split; [split_and!; try done; apply queued_other; [done..|congruence]|].
      split; [done|]. split; [done|]. split; [by left|by apply Hkeep].
    + pose proof (queued_push _ _ _ _ _ _ _ id o accs Hqr Hfresh Hle Hwr) as Hpush.
      destruct (push_run size (adm_readers a) readers id) as [queue batch]. injection Hrest as <-. simpl in Hpush.
      split; [split_and!; try done; apply queued_other; [done..|congruence]|].
      split; [done|]. split; [done|]. split; [by left|by apply Hkeep].
Qed.

(** A row is dispatched as long as slots are left. *)
Lemma dispatch_row_done size t st o accs :
  represents (adm_reservations st.1.1) t →
  (N.of_nat (length (rec_slots (records (adm_reservations st.1.1)))) ≤ u32_max)%N →
  ∃ st', dispatch_row size st (o, accs) = Done st' ∧
    length (rec_slots (records (adm_reservations st'.1.1))) ≤
      S (length (rec_slots (records (adm_reservations st.1.1)))).
Proof.
  destruct st as [[a readers] writers]. simpl. intros Hr Hlen.
  pose proof (admit_total_aux _ t o accs Hr Hlen) as Hdone. unfold dispatch_row. simpl.
  destruct (admit_invocation (adm_reservations a) o accs) as [[r out]|] eqn:Hadm; [|done].
  pose proof (admit_slots _ _ _ _ _ Hadm) as Hslots. simpl.
  destruct out as [id|[|o']]; [|eauto..].
  destruct (admit_refines_aux _ _ _ _ _ _ Hr Hadm) as (t' & Hspec & Hr').
  inversion Hspec as [| |id' Hrun Hclash Hfresh Ht Hid]; subst.
  destruct (represents_lookup r _ id o accs Hr') as (rec & Hrec & _); [apply lookup_insert_eq|].
  unfold is_writer. rewrite Hrec. simpl.
  destruct (rec_writer rec).
  - destruct (push_run size (adm_writers a) writers id). eauto.
  - destruct (push_run size (adm_readers a) readers id). eauto.
Qed.

Lemma dispatch_loop_step size t0 a0 runs t st st' :
  dispatching size t0 t a0 st → fold_result (dispatch_row size) st runs = Done st' →
  ∃ t', dispatching size t0 t' a0 st' ∧ t ⊆ t' ∧
    (∀ id o accs, t' !! id = Some (o, accs) → t !! id = Some (o, accs) ∨ o ∈ runs.*1) ∧
    (∀ o accs, (o, accs) ∈ runs → handled t' st'.1.1 o) ∧ ∀ o, handled t st.1.1 o → handled t' st'.1.1 o.
Proof.
  revert t st. induction runs as [|[o accs] runs IH]; intros t st Hd; cbn [fold_result].
  - intros [= <-]. exists t. split_and!; try done; [by left|]. by intros ?? ?%elem_of_nil.
  - intros (st1 & H1 & Hrest)%bind_Done.
    destruct (dispatch_row_step _ _ _ _ _ _ _ _ Hd H1) as (t1 & Hd1 & Hle1 & Hnew1 & Ho & Hk).
    destruct (IH t1 st1 Hd1 Hrest) as (t2 & Hd2 & Hle2 & Hnew2 & Hall & Hk2).
    exists t2. split_and!; [done|by etrans| | |auto].
    + intros id o' accs' Hlk. cbn [fmap list_fmap fst]. rewrite elem_of_cons.
      destruct (Hnew2 _ _ _ Hlk) as [Hlk1|?]; [|by right; right].
      destruct (Hnew1 _ _ _ Hlk1) as [?|?]; [by left|by right; left].
    + intros o' accs' [[= -> ->]|?]%elem_of_cons; [auto|eauto].
Qed.

Lemma dispatch_loop_done size t0 a0 runs t st :
  dispatching size t0 t a0 st →
  (N.of_nat (length (rec_slots (records (adm_reservations st.1.1))) + length runs) ≤ u32_max)%N →
  is_Some (match fold_result (dispatch_row size) st runs with Done st' => Some st' | Panic _ => None end).
Proof.
  revert t st. induction runs as [|[o accs] runs IH]; intros t st Hd Hlen; cbn [fold_result]; [by eexists|].
  simpl in Hlen. assert (represents (adm_reservations st.1.1) t) as Hr by (destruct st as [[a rd] wr]; apply Hd).
  destruct (dispatch_row_done size t st o accs Hr) as (st1 & H1 & Hl1); [lia|]. rewrite H1. cbn [mbind result_bind].
  destruct (dispatch_row_step _ _ _ _ _ _ _ _ Hd H1) as (t1 & Hd1 & _). apply (IH t1 st1 Hd1). lia.
Qed.

Lemma grain_spec workers ready maximum :
  (1 ≤ maximum)%N → ∃ size, grain workers ready maximum = Done size ∧ (1 ≤ size ≤ maximum)%N.
Proof.
  intros Hm. unfold grain. destruct workers as [n|]; [|by exists maximum].
  rewrite (bool_decide_eq_true_2 (1 ≤ maximum)%N) by done. simpl. eexists. split; [done|].
  repeat case_bool_decide; lia.
Qed.

(** What a dispatch that returns has done. *)
Record dispatched (maximum : N) (t : Spec.table) (a a' : Admission) (runs : list (SystemInvocation * list Access))
    (t' : Spec.table) (readers writers : list (list RunId)) : Prop := {
  dd_table : table_ok (adm_reservations a') t';
  dd_kept : t ⊆ t';
  dd_new id o accs : t' !! id = Some (o, accs) → t !! id = Some (o, accs) ∨ o ∈ runs.*1;
  dd_handled o accs : (o, accs) ∈ runs → handled t' a' o;
  dd_readers : adm_readers a' = adm_readers a ++ readers ∧ NoDup (concat readers) ∧
    ∀ id, id ∈ concat readers ↔ admitted t t' false id;
  dd_writers : adm_writers a' = adm_writers a ++ writers ∧ NoDup (concat writers) ∧
    ∀ id, id ∈ concat writers ↔ admitted t t' true id;
  dd_batches : Forall (λ b, (0 < N.of_nat (length b) ≤ maximum)%N) (readers ++ writers);
  dd_deferred : adm_deferred a = true → adm_deferred a' = true;
  dd_why : adm_deferred a' = true → adm_deferred a = true ∨ t' ≠ ∅;
  dd_system : adm_system a' = adm_system a ∨ adm_deferred a' = true;
  dd_fields : sys_phase (adm_system a') = sys_phase (adm_system a) ∧ interest (adm_system a') = interest (adm_system a);
}.

Lemma dispatching_start size t a : table_ok (adm_reservations a) t → (1 ≤ size)%N → dispatching size t t a (a, [], []).
Proof.
  intros Hok Hsize. assert (∀ wr q, queued size t t wr q q []) as Hq0.
  { intros wr q. split; [|simpl; lia]. exists []. rewrite app_nil_r. split_and!; try done; [constructor|].
    intros id. simpl. split; [by intros ?%elem_of_nil|]. intros (? & ? & ? & ? & _). congruence. }
  split_and!; try done; auto.
Qed.

Lemma dispatch_rows_spec workers maximum a runs t a' :
  table_ok (adm_reservations a) t → (1 ≤ maximum)%N → dispatch_rows workers maximum a runs = Done a' →
  ∃ t' readers writers, dispatched maximum t a a' runs t' readers writers.
Proof.
  intros Hok Hm. unfold dispatch_rows.
  destruct (grain_spec workers (N.of_nat (length runs)) maximum Hm) as (size & -> & Hsize). cbn [mbind result_bind].
  intros ([[a1 rd] wr] & Hloop & [= <-])%bind_Done.
  destruct (dispatch_loop_step _ _ _ _ _ _ _ (dispatching_start size t a Hok (proj1 Hsize)) Hloop)
    as (t' & (Hok' & Hle & Hqr & Hqw & _ & Hdef & Hwhy & Hsys & Hph & Hint) & _ & Hnew & Hall & _).
  assert (∀ writer q0 q batch, queued size t t' writer q0 q batch →
    ∃ bs, push_rest q batch = q0 ++ bs ∧ NoDup (concat bs) ∧ (∀ id, id ∈ concat bs ↔ admitted t t' writer id) ∧
      Forall (λ b, (0 < N.of_nat (length b) ≤ maximum)%N) bs) as Hrest.
  { clear -Hsize. intros writer q0 q batch [(bs & -> & Hlen & Hnd & Hin) Hopen].
    assert (Forall (λ b, (0 < N.of_nat (length b) ≤ maximum)%N) bs) as Hlen'.
    { eapply Forall_impl; [exact Hlen|]. intros b ?. simpl in *. lia. }
    unfold push_rest. case_bool_decide as Hb; [subst batch; rewrite app_nil_r in *; by exists bs|].
    exists (bs ++ [batch]). rewrite concat_app. simpl. rewrite app_nil_r, app_assoc. split_and!; try done.
    apply Forall_app. split; [done|]. constructor; [|done]. destruct batch; [done|]. simpl in *. lia. }
  destruct (Hrest _ _ _ _ Hqr) as (brd & Hrd & ? & ? & ?).
  destruct (Hrest _ _ _ _ Hqw) as (bwr & Hwr & ? & ? & ?).
  exists t', brd, bwr. split; simpl; try done; rewrite ?Hrd, ?Hwr; try done. by apply Forall_app.
Qed.

Lemma dispatch_rows_done workers maximum a runs t :
  table_ok (adm_reservations a) t → (1 ≤ maximum)%N →
  (N.of_nat (length (rec_slots (records (adm_reservations a))) + length runs) ≤ u32_max)%N →
  ∃ a', dispatch_rows workers maximum a runs = Done a'.
Proof.
  intros Hok Hm Hlen. unfold dispatch_rows.
  destruct (grain_spec workers (N.of_nat (length runs)) maximum Hm) as (size & -> & Hsize). cbn [mbind result_bind].
  pose proof (dispatch_loop_done _ _ _ runs _ _ (dispatching_start size t a Hok (proj1 Hsize)) Hlen) as [st' Hst].
  destruct (fold_result _ _ _) as [[[a1 rd] wr]|]; [|done]. eauto.
Qed.

(** Dispatch loses and duplicates nothing.  For any plan and any positive
    batch size, dispatching returns; the runs in flight stay pairwise conflict
    free and single flight, and nobody is dropped.  Every planned row is in
    flight afterwards, or the conflict is recorded and its rows are planned
    again.  The batches pushed to the reader queue are exactly the new runs
    without a write, those pushed to the writer queue exactly the new runs with
    one, each exactly once, in batches of at most the batch size. *)
Theorem dispatch_exact workers maximum a runs t :
  represents (adm_reservations a) t → Spec.exclusive t → Spec.single_flight t → (1 ≤ maximum)%N →
  (N.of_nat (length (rec_slots (records (adm_reservations a))) + length runs) ≤ u32_max)%N →
  ∃ a' t' readers writers, dispatch_rows workers maximum a runs = Done a' ∧
    represents (adm_reservations a') t' ∧ Spec.exclusive t' ∧ Spec.single_flight t' ∧ t ⊆ t' ∧
    (∀ o accs, (o, accs) ∈ runs →
       Spec.running t' o ∨ (adm_deferred a' = true ∧ replanned (adm_system a') (keys o))) ∧
    adm_readers a' = adm_readers a ++ readers ∧ adm_writers a' = adm_writers a ++ writers ∧
    NoDup (concat readers) ∧ NoDup (concat writers) ∧
    (∀ id, id ∈ concat readers ↔ admitted t t' false id) ∧
    (∀ id, id ∈ concat writers ↔ admitted t t' true id) ∧
    Forall (λ b, (0 < N.of_nat (length b) ≤ maximum)%N) (readers ++ writers).
Proof.
  intros Hr Hex Hsf Hm Hlen. assert (table_ok (adm_reservations a) t) as Hok by by split_and!.
  destruct (dispatch_rows_done workers maximum a runs t Hok Hm Hlen) as [a' Ha'].
  destruct (dispatch_rows_spec workers maximum a runs t a' Hok Hm Ha') as (t' & brd & bwr & D).
  destruct D as [(? & ? & ?) ? _ Hall (? & ? & ?) (? & ? & ?) ? _ _ _ _].
  exists a', t', brd, bwr. by split_and!.
Qed.
End planner.

(** ** Concrete runs *)

Definition demo_system : BoxedSystem :=
  MkSystem Evaluate [] [] [] [] (Some []) (Some [ty_num]) u64_max true false u64_max 0 [].
(** Planned in full at [demo_w1]. *)
Definition demo_planned : BoxedSystem :=
  fst (run (demo_system, None) (plan_system demo_system demo_w1 (plan_log demo_w1).1 (plan_log demo_w1).2)).

Lemma demo_planned_eq :
  plan_system demo_system demo_w1 (plan_log demo_w1).1 (plan_log demo_w1).2 = Done (demo_planned, Some None).
Proof. vm_compute. reflexivity. Qed.

(** Row 7 changes and row 9 is forced: the next plan has both as its hint. *)
Lemma planner_loses_nothing_witness :
  ∃ s' out, plan_system (force_replan demo_planned [9%N]) demo_w3 (plan_log demo_w3).1 (plan_log demo_w3).2 = Done (s', out) ∧
  match out with
  | Some None => True
  | Some (Some hint) =>
      (∀ e, e ∈ [9%N] → e ∈ hint) ∧
      ∀ ty e, ty ∈ [ty_num] → row_revision demo_w3 ty e ≠ row_revision demo_w1 ty e → e ∈ hint
  | None => [9%N] = [] ∧ ∀ ty e, ty ∈ [ty_num] → row_revision demo_w3 ty e = row_revision demo_w1 ty e
  end.
Proof.
  apply (planner_loses_nothing nothing_taken demo_w1 demo_system None demo_planned [ty_num]
           nothing_taken demo_w3 (force_replan demo_planned [9%N]) [9%N]).
  - exact demo_wf1.
  - reflexivity.
  - exact demo_planned_eq.
  - eapply rtc_l; [apply ps_world; exact demo_step2|].
    eapply rtc_l; [apply ps_world; exact demo_step3|].
    apply rtc_once. exact (ps_force nothing_taken demo_w3 demo_planned [] [9%N]).
  - vm_compute. reflexivity.
Defined.

Lemma demo_hint :
  snd (run (demo_system, None) (plan_system (force_replan demo_planned [9%N]) demo_w3
         (plan_log demo_w3).1 (plan_log demo_w3).2)) = Some (Some [7; 9]%N).
Proof. vm_compute. reflexivity. Qed.

(** A log long enough to be reclaimed. *)
Definition demo_long : World :=
  run demo_w1 (reconcile_written demo_w1 (replicate (N.to_nat 4097) (ty_num, 7%N))).
Definition demo_reclaimed : World := set_write_log [] (set_plan_epoch 1 demo_long).

Lemma demo_long_roll :
  maybe_roll_plan_epoch demo_long = Done (demo_reclaimed, Some (0%N, write_log demo_long)).
Proof. vm_compute. reflexivity. Qed.

Lemma compaction_total_witness :
  ∃ s', compact_plan_log (force_replan demo_planned [9%N]) 0 (write_log demo_long) demo_reclaimed = Done s'.
Proof.
  apply (compaction_total nothing_taken demo_w1 demo_system None demo_planned [ty_num]
           nothing_taken demo_long (force_replan demo_planned [9%N]) [9%N]).
  - exact demo_wf1.
  - reflexivity.
  - exact demo_planned_eq.
  - eapply rtc_l.
    + apply ps_world, ws_apply, (as_reconcile demo_w1 (replicate (N.to_nat 4097) (ty_num, 7%N))). vm_compute. reflexivity.
    + apply rtc_once. exact (ps_force nothing_taken demo_long demo_planned [] [9%N]).
  - exact demo_long_roll.
Defined.

(** Two writers of one row: the second is deferred and planned again. *)
Definition demo_plan : list (SystemInvocation * list Access) :=
  [(Invocation 0 [7%N], [access_write ty_num 7]); (Invocation 0 [7%N; 8%N], [access_write ty_num 7]);
   (Invocation 0 [8%N], [access_read ty_num 8])].
Definition demo_admission : Admission := MkAdmission demo_planned (reservations_new ∅) false [] [].

Lemma demo_dispatched :
  match dispatch_rows (Some 2%N) 16 demo_admission demo_plan with
  | Done a => adm_deferred a = true ∧ forced_dirty (adm_system a) = [7; 8]%N ∧
      adm_writers a = [[MkRunId 0 0]] ∧ adm_readers a = [[MkRunId 1 0]]
  | Panic _ => False
  end.
Proof. vm_compute. done. Qed.

Lemma dispatch_exact_witness :
  ∃ a' t' readers writers, dispatch_rows (Some 2%N) 16 demo_admission demo_plan = Done a' ∧
    represents (adm_reservations a') t' ∧ Spec.exclusive t' ∧ Spec.single_flight t' ∧ ∅ ⊆ t' ∧
    (∀ o accs, (o, accs) ∈ demo_plan →
       Spec.running t' o ∨ (adm_deferred a' = true ∧ replanned (adm_system a') (keys o))) ∧
    adm_readers a' = [] ++ readers ∧ adm_writers a' = [] ++ writers ∧
    NoDup (concat readers) ∧ NoDup (concat writers) ∧
    (∀ id, id ∈ concat readers ↔ admitted ∅ t' false id) ∧
    (∀ id, id ∈ concat writers ↔ admitted ∅ t' true id) ∧
    Forall (λ b, (0 < N.of_nat (length b) ≤ 16)%N) (readers ++ writers).
Proof.
  apply (dispatch_exact (Some 2%N) 16 demo_admission demo_plan ∅).
  - apply represents_new. split; intros *; rewrite lookup_empty; discriminate.
  - intros ?? *. by rewrite lookup_empty.
  - intros ?? *. by rewrite lookup_empty.
  - vm_compute. discriminate.
  - vm_compute. discriminate.
Defined.
