(* ===== verification/Commit.v ===== *)
(** * Commits ([bowl.rs], [system.rs])

    What happens when an invocation finishes: its memo entry is compared with
    the live world, its outputs replace the previous ones, its in-place writes
    are reconciled, the memo is updated, and the invocations whose rows vanished
    are retired.  The theorems: a stale run changes nothing but the revisions of
    what it wrote in place; an accepted run leaves its owner with exactly the
    outputs it emitted and its memo current; settle-phase inserts are held back
    in order; retirement reaches a fixed point; a rerun gets the same ids. *)
From stdpp Require Import base numbers sets gmap fin_maps sorting list.
From S2P Require Import Prelude Access.
From S2P Require Import Components Demo Stores Presence World WorldInv Ownership WorldOps Relations Frame.
From S2P Require Import Commands Query Deps Planner.

Section commit.
Context `{ComponentTypes} `{HashOrder}.
Implicit Types (w : World) (e : Entity) (ty : TypeId) (owner : SystemInvocation).

(** The rows a system matches now: the executable behind a system is erased. *)
Variable row_counts : SystemId → World → nat.

(** ** Memo entries and runs *)

Record MemoEntry := MkMemo {
  memo_deps : list Dep;
  planned_revision : N;
  memo_epoch : N;
}.
Abbreviation Memo := (gmap SystemInvocation MemoEntry) (only parsing).

Definition memo_is_current w (m : MemoEntry) : bool := forallb (dep_is_current w) (memo_deps m).

Definition memo_refresh_written w (writes : list (TypeId * Entity)) (m : MemoEntry) : MemoEntry :=
  MkMemo (dep_refresh_written w writes <$> memo_deps m) (planned_revision m) (memo_epoch m).

Record SystemOutput := MkOutput { out_owner : SystemInvocation; out_commands : CommandQueue }.

Record SystemRun := MkRun {
  run_completed : bool;
  run_outputs : list SystemOutput;
  run_updates : list (SystemInvocation * MemoEntry);
  run_writes : list (TypeId * Entity);
}.

Definition run_empty : SystemRun := MkRun false [] [] [].

Definition finish_invocation owner (deps : list Dep) (revision : N) (unique : bool) (b : CommandBuffer)
    : SystemOutput * (SystemInvocation * MemoEntry) :=
  (MkOutput owner (commands_take unique b), (owner, MkMemo deps revision 0)).

Definition collect_invocations
    (rows : list (SystemOutput * (SystemInvocation * MemoEntry) * list (TypeId * Entity))) : SystemRun :=
  foldl (λ run '(output, update, writes),
           MkRun (run_completed run) (run_outputs run ++ [output]) (run_updates run ++ [update])
             (run_writes run ++ writes)) run_empty rows.

(** ** The commit budget *)

Inductive CommitLimit := NoLimit | MaxCommits (limit : N).
Record CommitBudget := MkBudget { budget_limit : CommitLimit; budget_commits : N }.

Definition budget_new (limit : CommitLimit) : CommitBudget := MkBudget limit 0.

Definition budget_record (b : CommitBudget) (commits : N) : result CommitBudget :=
  if bool_decide (commits = 0%N) then Done b
  else
    let total := (budget_commits b + commits)%N in
    _ ← check Overflow (bool_decide (total ≤ u64_max)%N);
    _ ← match budget_limit b with
        | NoLimit => Done ()
        | MaxCommits limit => check LimitExceeded (bool_decide (total ≤ limit)%N)
        end;
    Done (MkBudget (budget_limit b) total).

(** ** Conformance of what was written *)

Definition shape_contains (s : ShapeDesc) ty : bool :=
  existsb (λ t, bool_decide (t = ty)) (shape_required s) || existsb (λ t, bool_decide (t = ty)) (shape_optional s).

(** [check_shape_conformance]; the wording of the panic is left out. *)
Fixpoint check_shape_conformance w (schema : list ShapeDesc) e (bundle : list TypeId) : result unit :=
  match schema with
  | [] => Panic ShapeMismatch
  | shape :: schema =>
      let covered := length (filter (λ ty, shape_contains shape ty = true) bundle) in
      if bool_decide (covered = length bundle)
      then let missing := filter (λ ty, has w ty e = false) (shape_required shape) in
           if bool_decide (missing = []) then Done ()
           else check_shape_conformance w schema e bundle
      else check_shape_conformance w schema e bundle
  end.

(** The write bundles of a commit, per entity. *)
Definition write_bundles (written : list (TypeId * Entity)) : gmap Entity (list TypeId) :=
  foldl (λ m '(ty, e), <[e := default [] (m !! e) ++ [ty]]> m) ∅ written.

Definition check_schema w (schema : option (list ShapeDesc)) (written : list (TypeId * Entity)) : result unit :=
  match schema with
  | None => Done ()
  | Some schema =>
      let bundles := write_bundles written in
      fold_result (λ _ e, check_shape_conformance w schema e (default [] (bundles !! e))) ()
        (hash_iter (dom bundles))
  end.

(** The view of [system] sees the entity completed by the write. *)
Definition view_races w (system : BoxedSystem) ty e : bool :=
  existsb (λ required, bool_decide (ty ∈ required) && forallb (λ c, has w c e) required) (view_sets system).

Definition check_races w (systems : list BoxedSystem) (writer : SystemId) (phase : option Phase)
    (written : list (TypeId * Entity)) : result unit :=
  match phase with
  | None => Done ()
  | Some phase =>
      fold_result (λ _ '(ty, e),
        fold_result (λ _ '(index, system),
          if bool_decide (index = writer) || negb (bool_decide (sys_phase system = phase)) then Done ()
          else check AmbientRace
                 (negb (view_races w system ty e && bool_decide (0 < row_counts index w))))
          () (imap pair systems)) () written
  end.

(** ** The state a commit touches *)

(** [pool_home]: the planning storage is not out with the driver. *)
Record CommitState := MkState {
  cs_world : World;
  cs_memo : gmap SystemInvocation MemoEntry;
  cs_systems : list BoxedSystem;
  deferred_settle : list SystemOutput;
  cs_pool : Pool;
  pool_home : bool;
  cs_schema : option (list ShapeDesc);
  settle_epoch : N;
  normal_clean : bool;
}.

Definition set_world (x : World) (st : CommitState) : CommitState :=
  MkState x (cs_memo st) (cs_systems st) (deferred_settle st) (cs_pool st) (pool_home st) (cs_schema st)
    (settle_epoch st) (normal_clean st).
Definition set_memo (x : gmap SystemInvocation MemoEntry) (st : CommitState) : CommitState :=
  MkState (cs_world st) x (cs_systems st) (deferred_settle st) (cs_pool st) (pool_home st) (cs_schema st)
    (settle_epoch st) (normal_clean st).
Definition set_systems (x : list BoxedSystem) (st : CommitState) : CommitState :=
  MkState (cs_world st) (cs_memo st) x (deferred_settle st) (cs_pool st) (pool_home st) (cs_schema st)
    (settle_epoch st) (normal_clean st).
Definition set_deferred (x : list SystemOutput) (st : CommitState) : CommitState :=
  MkState (cs_world st) (cs_memo st) (cs_systems st) x (cs_pool st) (pool_home st) (cs_schema st)
    (settle_epoch st) (normal_clean st).
Definition set_pool (x : Pool) (st : CommitState) : CommitState :=
  MkState (cs_world st) (cs_memo st) (cs_systems st) (deferred_settle st) x (pool_home st) (cs_schema st)
    (settle_epoch st) (normal_clean st).
Definition set_schema (x : option (list ShapeDesc)) (st : CommitState) : CommitState :=
  MkState (cs_world st) (cs_memo st) (cs_systems st) (deferred_settle st) (cs_pool st) (pool_home st)
    x (settle_epoch st) (normal_clean st).
Definition set_epoch (x : N) (st : CommitState) : CommitState :=
  MkState (cs_world st) (cs_memo st) (cs_systems st) (deferred_settle st) (cs_pool st) (pool_home st)
    (cs_schema st) x (normal_clean st).
Definition set_clean (x : bool) (st : CommitState) : CommitState :=
  MkState (cs_world st) (cs_memo st) (cs_systems st) (deferred_settle st) (cs_pool st) (pool_home st)
    (cs_schema st) (settle_epoch st) x.

Record CommitProgress := MkProgress { needs_followup : bool; progress_stale : bool; progress_commits : N }.

(** ** Retiring invocations *)

Definition remove_memo_touched_by (memo : gmap SystemInvocation MemoEntry) (keyset : gset Entity)
    : gmap SystemInvocation MemoEntry :=
  filter (λ p, existsb (λ k, bool_decide (k ∈ keyset)) (keys p.1) = false) memo.

(** [system_defs[owner.system.0].force_replan(&owner.keys)] *)
Definition force_owner (systems : list BoxedSystem) owner : result (list BoxedSystem) :=
  s ← expect SystemOutOfRange (systems !! system owner);
  Done (<[system owner := force_replan s (keys owner)]> systems).

Definition retire_owner (selected : option (gset SystemId))
    (st : gmap SystemInvocation MemoEntry * list BoxedSystem * bool) owner
    : result (gmap SystemInvocation MemoEntry * list BoxedSystem * bool) :=
  let '(memo, systems, retired) := st in
  if match selected with Some ids => negb (bool_decide (system owner ∈ ids)) | None => false end then Done st
  else match memo !! owner with
       | None => Done st
       | Some _ => systems ← force_owner systems owner; Done (delete owner memo, systems, true)
       end.

Definition reconcile_removed_output_owners (memo : gmap SystemInvocation MemoEntry)
    (systems : list BoxedSystem) (owners : list SystemInvocation) (selected : option (gset SystemId))
    : result (gmap SystemInvocation MemoEntry * list BoxedSystem * bool) :=
  fold_result (retire_owner selected) (memo, systems, false) owners.

(** The loop over the frontier; each round but the last retires an owner. *)
Fixpoint retire_frontier (fuel : nat) w (memo : gmap SystemInvocation MemoEntry)
    (selected : option (gset SystemId)) (seen frontier : gset Entity) (retired : bool)
    : result (World * gmap SystemInvocation MemoEntry * bool) :=
  if bool_decide (frontier = ∅) then Done (w, memo, retired)
  else match fuel with
  | 0 => Panic NestingTooDeep
  | S fuel =>
      let memo := remove_memo_touched_by memo frontier in
      '(w, removed) ← remove_derived_touched_by_systems w frontier selected;
      let fresh := list_to_set removed ∖ seen in
      retire_frontier fuel w memo selected (seen ∪ fresh) fresh
        (retired || negb (bool_decide (removed = [])))
  end.

Definition frontier_fuel w : nat := S (size (dom (derived_owners w))).

Definition reconcile_removed_invocations w (memo : gmap SystemInvocation MemoEntry)
    (systems : list BoxedSystem) (removed : list Entity) (removed_owners : list SystemInvocation)
    (selected : option (gset SystemId))
    : result (World * gmap SystemInvocation MemoEntry * list BoxedSystem * bool) :=
  '(memo, systems, retired) ← reconcile_removed_output_owners memo systems removed_owners selected;
  let seen := list_to_set removed in
  '(w, memo, retired) ← retire_frontier (frontier_fuel w) w memo selected seen seen retired;
  Done (w, memo, systems, retired).

(** The frontier loop of [cleanup_bound_entities]. *)
Fixpoint cleanup_frontier (fuel : nat) w (memo : gmap SystemInvocation MemoEntry)
    (removed_entities frontier : gset Entity) : result (World * gmap SystemInvocation MemoEntry) :=
  if bool_decide (frontier = ∅) then Done (w, memo)
  else match fuel with
  | 0 => Panic NestingTooDeep
  | S fuel =>
      let memo := remove_memo_touched_by memo frontier in
      '(w, removed) ← remove_derived_touched_by w frontier;
      let fresh := list_to_set removed ∖ removed_entities in
      cleanup_frontier fuel w memo (removed_entities ∪ fresh) fresh
  end.

Definition cleanup_bound_entities (st : CommitState) (entities : list Entity) : result CommitState :=
  let roots : gset Entity := list_to_set entities in
  if bool_decide (roots = ∅) then Done st
  else
    '(w, memo) ← cleanup_frontier (frontier_fuel (cs_world st)) (cs_world st) (cs_memo st) ∅ roots;
    '(w, removed_owners) ← fold_result (λ '(w, owners) e,
        '(w, more) ← remove_entity w e; Done (w, owners ∪ list_to_set more)) (w, ∅) (hash_iter roots);
    '(w, memo) ← fold_result (λ '(w, memo) owner,
        w ← remove_derived_owned w owner; Done (w, delete owner memo)) (w, memo)
        (hash_iter (removed_owners : gset SystemInvocation));
    Done (set_memo memo (set_world w st)).

(** ** The commit *)

Definition commit_output (phase : option Phase) (st : CommitState) (output : SystemOutput)
    : result CommitState :=
  let owner := out_owner output in
  let defer_inserts := bool_decide (phase = Some Settle) in
  let '(w, previous) := take_derived_outputs (cs_world st) owner in
  let '(pool, deferred) := if defer_inserts && pool_home st then pool_take (cs_pool st) else (cs_pool st, queue_default) in
  let '(drained, r, target) :=
    apply_or_defer (out_commands output) w (Some owner) (if defer_inserts then Some deferred else None) in
  w ← r;
  w ← flush_derived_from w;
  let w := finish_derived_spawns w owner in
  w ← remove_derived_stale w owner previous;
  let deferred := default deferred target in
  let empty := queue_is_empty deferred in
  let '(w, written) := take_written_derived w in
  _ ← check_schema w (cs_schema st) written;
  _ ← check_races w (cs_systems st) (system owner) phase written;
  let pool := queue_drop (if empty then queue_drop pool deferred else pool) drained in
  Done (set_world w (set_pool pool
          (set_deferred (if empty then deferred_settle st
                         else deferred_settle st ++ [MkOutput owner deferred]) st))).

Definition pair_bound_systems (systems : list BoxedSystem) : gset SystemId :=
  list_to_set (omap (λ '(index, s), if pair_bound s : bool then Some index else None) (imap pair systems)).

Definition commit_memo w (epoch : N) (writes : list (TypeId * Entity))
    (memo : gmap SystemInvocation MemoEntry) (update : SystemInvocation * MemoEntry)
    : gmap SystemInvocation MemoEntry :=
  let entry := memo_refresh_written w writes update.2 in
  <[update.1 := MkMemo (memo_deps entry) (planned_revision entry) epoch]> memo.

(** The retirement cascade at the end of a commit: [||] evaluates its right
    side only when the left one is false. *)
Definition commit_retire (st : CommitState) : result CommitState :=
  let '(w, removed) := take_removed_entities (cs_world st) in
  let '(w, removed_owners) := take_removed_owners w in
  let '(w, component_owners) := take_removed_component_owners w in
  let st := set_world w st in
  if bool_decide (removed = []) && bool_decide (removed_owners = []) && bool_decide (component_owners = [])
  then Done st
  else
    let selected := pair_bound_systems (cs_systems st) in
    '(memo, systems, retired) ← reconcile_removed_output_owners (cs_memo st) (cs_systems st) component_owners None;
    let st := set_systems systems (set_memo memo st) in
    if retired : bool then Done (set_clean false st)
    else
      '(w, memo, systems, retired) ←
        reconcile_removed_invocations w memo systems removed removed_owners (Some selected);
      let st := set_systems systems (set_memo memo (set_world w st)) in
      Done (if retired : bool then set_clean false st else st).

Definition moved w w' : bool :=
  negb (bool_decide (revision w' = revision w)) || negb (bool_decide (mutations w' = mutations w)).

Definition commit_system_run (st : CommitState) (run : SystemRun) (phase : option Phase)
    : result (CommitState * CommitProgress) :=
  let before := cs_world st in
  if negb (forallb (λ '(_, entry), memo_is_current before entry) (run_updates run))
  then
    w ← reconcile_written before (run_writes run);
    let followup := negb (bool_decide (revision w = revision before)) in
    Done (set_world w st, MkProgress followup true (if followup then 1 else 0)%N)
  else
    st ← fold_result (commit_output phase) st (run_outputs run);
    w ← reconcile_written (cs_world st) (run_writes run);
    let memo := foldl (commit_memo w (settle_epoch st) (run_writes run)) (cs_memo st) (run_updates run) in
    st ← commit_retire (set_memo memo (set_world w st));
    let followup := moved before (cs_world st) in
    Done (st, MkProgress followup false (if followup then 1 else 0)%N).

Definition commit_system_runs (st : CommitState) (runs : list SystemRun) : result (CommitState * bool * N) :=
  fold_result (λ '(st, followup, commits) run,
    '(st, next) ← commit_system_run st run None;
    let total := (commits + progress_commits next)%N in
    _ ← check Overflow (bool_decide (total ≤ u64_max)%N);
    Done (st, followup || needs_followup next, total)) (st, false, 0%N) runs.

(** ** Reconciliation and the memo *)

(** An invocation's own in-place writes do not invalidate its memo entry. *)
Lemma refresh_written_current X w writes w' m :
  wf X w → reconcile_written w writes = Done w' →
  Forall (λ d, dep_store_scoped d = false) (memo_deps m) →
  memo_is_current w m = true → memo_is_current w' (memo_refresh_written w' writes m) = true.
Proof using H H0.
  intros Hwf Hr Hscoped. unfold memo_is_current. rewrite !forallb_elem_of. simpl. intros Hcur d' Hd'.
  apply list_elem_of_fmap in Hd' as (d & -> & Hd). specialize (Hcur d Hd).
  rewrite List.Forall_forall in Hscoped. assert (dep_store_scoped d = false) as Hsc
    by (by apply Hscoped, list_elem_of_In).
  destruct (reconcile_written_good _ _ _ _ Hwf Hr) as [Hwf' _]. unfold dep_refresh_written.
  rewrite Hsc. destruct (existsb _ writes) eqn:Hw; simpl.
  - unfold dep_is_current. simpl. by rewrite bool_decide_eq_true_2.
  - unfold dep_is_current in *. rewrite Hsc in *. rewrite bool_decide_eq_true in Hcur |- *.
    rewrite dep_lookup_row in Hcur |- * by (apply Hwf || apply Hwf'). rewrite <-Hcur, !row_revision_row.
    f_equal. eapply reconcile_written_frame; [exact Hwf|exact Hr|]. intros Hin.
    apply not_true_iff_false in Hw. apply Hw. apply existsb_elem_of. exists (dep_type d, dep_entity d).
    split; [done|]. by rewrite !bool_decide_eq_true_2.
Qed.

(** ** One output of a commit *)

(** What a settle-phase commit holds back. *)
Definition holds_back (phase : option Phase) (op : Operation) : bool :=
  bool_decide (phase = Some Settle) && operation_deferred op.

Lemma apply_loop_shape n s w (owner : option SystemInvocation) d r d' :
  apply_loop n s w owner d = (r, d') → is_Some d' ↔ is_Some d.
Proof using H H0.
  revert s w d. induction n as [|n IH]; intros s w d; simpl; [by intros [= _ ->]|].
  destruct (consume s) as [[entry s']|]; [|by intros [= _ ->]].
  destruct (if entry_deferred entry then d else None) as [t|] eqn:Ht.
  - intros ->%IH. destruct (entry_deferred entry); [subst d|done]. by split; eexists.
  - destruct (operation_apply w owner (entry_op entry)); [apply IH|by intros [= _ ->]].
Qed.

Lemma apply_or_defer_shape q w (owner : option SystemInvocation) d q' r d' :
  apply_or_defer q w owner d = (q', r, d') → is_Some d' ↔ is_Some d.
Proof using H H0.
  unfold apply_or_defer. destruct (queue_storage q) as [s|]; [|by intros [= _ _ ->]].
  destruct (apply_loop _ _ _ _ _) as [r0 d0] eqn:Hl. intros [= _ _ <-]. by eapply apply_loop_shape.
Qed.

Lemma queue_len_pending q : queue_len q = length (pending q).
Proof using H H0.
  unfold queue_len, pending. destruct (queue_storage q) as [x|]; [|done].
  unfold storage_pending. by rewrite length_fmap, length_drop.
Qed.

Lemma queue_drop_ok p q : pool_ok (p, []) → queue_ok q → pool_ok (queue_drop p q, []).
Proof using H H0.
  intros Hp Hq. assert (pool_step (p, [q]) (queue_drop p q, [])) as Hs by exact (ps_drop p [q] 0 q eq_refl).
  eapply pool_step_ok; [|exact Hs]. destruct Hp as [Hp _]. split; [exact Hp|]. by constructor.
Qed.

Lemma commit_output_inv phase st output st' :
  queue_ok (out_commands output) → pool_ok (cs_pool st, []) → commit_output phase st output = Done st' →
  let owner := out_owner output in
  let taken := take_derived_outputs (cs_world st) owner in
  ∃ wa wb wc,
    apply_all (Some owner) taken.1
      (filter (λ op, holds_back phase op = false) (pending (out_commands output))) = Done wa ∧
    flush_derived_from wa = Done wb ∧
    remove_derived_stale (finish_derived_spawns wb owner) owner taken.2 = Done wc ∧
    cs_world st' = (take_written_derived wc).1 ∧
    cs_memo st' = cs_memo st ∧ cs_systems st' = cs_systems st ∧ settle_epoch st' = settle_epoch st ∧
    pool_ok (cs_pool st', []) ∧
    let held := filter (λ op, holds_back phase op = true) (pending (out_commands output)) in
    (∃ queues, deferred_settle st' = deferred_settle st ++ queues ∧
       ((held = [] ∧ queues = []) ∨
         held ≠ [] ∧ ∃ q, queues = [MkOutput owner q] ∧ queue_ok q ∧ pending q = held)).
Proof.
  intros Hq Hpool. unfold commit_output. cbv zeta.
  destruct (take_derived_outputs (cs_world st) (out_owner output)) as [w previous] eqn:Htake. simpl.
  set (settle := bool_decide (phase = Some Settle)).
  set (pd := if settle && pool_home st then pool_take (cs_pool st) else (cs_pool st, queue_default)).
  assert (pool_ok (pd.1, []) ∧ queue_ok pd.2 ∧ pending pd.2 = []) as (Hpool' & Hdq & Hdp).
  { unfold pd. destruct (settle && pool_home st); [|split_and!; [done|apply queue_default_ok|done]].
    destruct (pool_take (cs_pool st)) as [p' q] eqn:Hp.
    by destruct (pool_take_ok _ _ _ _ Hpool Hp) as (? & ? & ? & _). }
  destruct pd as [pool deferred]. simpl in Hpool', Hdq, Hdp.
  destruct (apply_or_defer _ w _ _) as [[drained r] target] eqn:Happ.
  assert (target = None ∧ settle = false ∨ ∃ t, target = Some t ∧ settle = true ∧ queue_ok t) as Hshape.
  { pose proof (apply_or_defer_shape _ _ _ _ _ _ _ Happ) as Hiff. destruct settle.
    - right. destruct target as [t|]; [|by destruct (proj2 Hiff ltac:(by eexists))]. exists t.
      split_and!; try done. by apply (apply_or_defer_ok _ _ _ _ _ _ _ Hq Hdq Happ).
    - left. split; [|done]. destruct target as [t|]; [|done]. by destruct (proj1 Hiff ltac:(by eexists)). }
  apply apply_or_defer_aux in Happ as (Hdrained & _ & Hr & Htarget); [|done|by destruct settle; intros ? [= <-]].
  assert (∀ op, held_back (if settle then Some deferred else None) op = holds_back phase op) as Hhold.
  { intros op. unfold held_back, holds_back. fold settle. by destruct settle. }
  intros (wa & Hwa & Hrest)%bind_Done. rewrite Hwa in Hr, Htarget. specialize (Htarget eq_refl).
  apply bind_Done in Hrest as (wb & Hwb & Hrest). apply bind_Done in Hrest as (wc & Hwc & Hrest).
  apply bind_Done in Hrest as (u1 & _ & Hrest). apply bind_Done in Hrest as (u2 & _ & [= <-]).
  exists wa, wb, wc. split.
  { rewrite Hr. f_equal. apply list_filter_iff. intros op. by rewrite Hhold. }
  split; [done|]. split; [done|]. do 4 (split; [done|]). simpl.
  assert (pending (default deferred target) =
    filter (λ op, holds_back phase op = true) (pending (out_commands output)) ∧ queue_ok (default deferred target)) as [Hp Hqo].
  { destruct Hshape as [[-> Hs]|(t & -> & Hs & Ht)]; rewrite Hs in Hhold, Htarget; simpl in *.
    - split; [|by apply queue_default_ok || done]. rewrite Hdp. symmetry.
      clear -Hhold. induction (pending (out_commands output)) as [|op ops IH]; [done|].
      rewrite filter_cons, <-Hhold. apply IH.
    - split; [|done]. injection Htarget as ->. rewrite Hdp. simpl. apply list_filter_iff. intros op.
      by rewrite Hhold. }
  split.
  { apply queue_drop_ok; [|done]. destruct (queue_is_empty _); [by apply queue_drop_ok|done]. }
  unfold queue_is_empty. rewrite queue_len_pending, Hp.
  set (held := filter (λ op, holds_back phase op = true) (pending (out_commands output))) in *.
  destruct held as [|op ops]; simpl.
  - exists []. rewrite app_nil_r. split; [done|]. by left.
  - eexists. split; [done|]. right. split; [done|]. eexists. split; [done|]. done.
Qed.

(** Between taking the previous outputs and the stale diff. *)
Lemma commit_output_spec phase st output st' :
  wf nothing_taken (cs_world st) → queue_ok (out_commands output) → pool_ok (cs_pool st, []) →
  commit_output phase st output = Done st' →
  let owner := out_owner output in
  ∃ wd wc, rtc apply_step (take_derived_outputs (cs_world st) owner).1 wd ∧
    remove_derived_stale wd owner (outputs_of (cs_world st) owner) = Done wc ∧
    cs_world st' = (take_written_derived wc).1 ∧
    wf nothing_taken (cs_world st') ∧ shrinks wd (cs_world st') ∧ evolves (cs_world st) (cs_world st').
Proof.
  intros Hwf Hq Hpool Hrun. cbv zeta.
  apply commit_output_inv in Hrun as (wa & wb & wc & Ha & Hb & Hc & Hw & _); [|done..].
  exists (finish_derived_spawns wb (out_owner output)), wc.
  assert (rtc apply_step (take_derived_outputs (cs_world st) (out_owner output)).1
    (finish_derived_spawns wb (out_owner output))) as Hsteps.
  { etrans; [by eapply apply_all_steps|]. eapply rtc_l; [by apply as_flush|]. apply rtc_once, as_finish_spawns. }
  destruct (commit_aux _ _ _ _ _ _ _ Hwf eq_refl eq_refl Hsteps Hc) as (W & S & E).
  destruct (apply_step_good _ _ _ W (as_drain_written wc)) as [W' E']. rewrite Hw.
  split_and!; try done. by eapply evolves_trans.
Qed.

(** *** Retirement *)

Definition owner_count w : nat := size (dom (derived_owners w)).

Lemma owners_dom w o : wf nothing_taken w → o ∈ dom (derived_owners w) ↔ ∃ x, x ∈ outputs_of w o.
Proof using H H0.
  intros Hwf. rewrite elem_of_dom. unfold outputs_of. destruct (derived_owners w !! o) as [outs|] eqn:Ho; simpl.
  - split; [|by eexists]. intros _. apply set_choose_L. intros ->. by apply (wf_nonempty _ _ Hwf o).
  - split; [by intros [? ?]|]. intros (x & Hx). by apply not_elem_of_empty in Hx.
Qed.

(** A round of retirement that reports an output retires an owner. *)
Lemma retire_measure w keyset selected w' removed :
  wf nothing_taken w → remove_derived_touched_by_systems w keyset selected = Done (w', removed) →
  wf nothing_taken w' ∧ evolves w w' ∧ shrinks w w' ∧
  (∀ o ty e, owner_touched keyset selected o = true → owner_of w' ty e ≠ Some o) ∧
  (removed ≠ [] → owner_count w' < owner_count w).
Proof using H H0.
  intros Hwf Hrun. destruct (touched_aux nothing_taken _ _ _ _ _ Hwf (λ _, eq_refl) Hrun) as ([W E] & S & Hgone).
  split_and!; try done. intros Hne. unfold owner_count. apply subset_size, strict_spec_alt.
  assert (dom (derived_owners w') ⊆ dom (derived_owners w)) as Hsub.
  { intros o (x & Hx%S)%(owners_dom w' o W). apply owners_dom; [done|by exists x]. }
  split; [done|]. intros Heq. unfold remove_derived_touched_by_systems in Hrun.
  destruct (filter _ (hash_iter (dom (derived_owners w)))) as [|o l] eqn:Hl.
  { injection Hrun as <- <-. by apply Hne. }
  assert (o ∈ filter (λ o, owner_touched keyset selected o = true) (hash_iter (dom (derived_owners w)))) as Ho
    by (rewrite Hl; by left).
  apply list_elem_of_filter in Ho as [Ht Hin]. rewrite elem_of_hash_iter, <-Heq in Hin.
  apply (owners_dom w' o W) in Hin as ([ty e] & Hx). apply (wf_sound _ _ W) in Hx. by eapply Hgone.
Qed.

(** The bound on the rounds is never the reason for a result. *)
Lemma retire_frontier_fuel n m w memo selected seen frontier retired :
  wf nothing_taken w → owner_count w < n → owner_count w < m →
  retire_frontier n w memo selected seen frontier retired =
  retire_frontier m w memo selected seen frontier retired.
Proof using H H0.
  revert m w memo seen frontier retired. induction n as [|n IH]; intros m w memo seen frontier retired Hwf Hn Hm; [lia|].
  destruct m as [|m]; [lia|]. simpl. case_bool_decide; [done|].
  destruct (remove_derived_touched_by_systems w frontier selected) as [[w' removed]|] eqn:Hrun; [|done].
  destruct (retire_measure _ _ _ _ _ Hwf Hrun) as (W & _ & _ & _ & Hlt). simpl.
  destruct (decide (removed = [])) as [->|Hne].
  - assert (list_to_set [] ∖ seen = (∅ : gset Entity)) as -> by set_solver.
    destruct n, m; simpl; by rewrite bool_decide_eq_true_2.
  - apply IH; [done| |]; specialize (Hlt Hne); lia.
Qed.

Lemma touched_union X Y selected o :
  owner_touched (X ∪ Y) selected o = true ↔
  owner_touched X selected o = true ∨ owner_touched Y selected o = true.
Proof using H H0.
  unfold owner_touched. rewrite !andb_true_iff, !existsb_elem_of.
  setoid_rewrite bool_decide_eq_true. setoid_rewrite elem_of_union. naive_solver.
Qed.

Lemma touched_empty selected o : owner_touched ∅ selected o = false.
Proof using H H0.
  unfold owner_touched. apply andb_false_iff. right. apply not_true_iff_false.
  rewrite existsb_elem_of. intros (k & _ & Hk%bool_decide_eq_true). set_solver.
Qed.

Definition retired_by (S : gset Entity) (selected : option (gset SystemId)) w
    (memo : gmap SystemInvocation MemoEntry) : Prop :=
  (∀ o ty e, owner_touched S selected o = true → owner_of w ty e ≠ Some o) ∧
  (∀ o m k, memo !! o = Some m → k ∈ keys o → k ∉ S).

Lemma retire_frontier_spec n w memo selected seen frontier retired w' memo' retired' D :
  wf nothing_taken w → retired_by D selected w memo → seen = D ∪ frontier →
  retire_frontier n w memo selected seen frontier retired = Done (w', memo', retired') →
  wf nothing_taken w' ∧ evolves w w' ∧ shrinks w w' ∧ memo' ⊆ memo ∧
  ∃ S, seen ⊆ S ∧ retired_by S selected w' memo'.
Proof using H H0.
  clear row_counts.
  revert w memo seen frontier retired D. induction n as [|n IH]; intros w memo seen frontier retired D Hwf [Hd Hm] Hseen;
    cbn [retire_frontier]; case_bool_decide as Hf; try done.
  1,2: intros [= <- <- <-]; split_and!; try done; [apply evolves_refl|]; exists seen; split; [done|];
    subst frontier; rewrite Hseen, union_empty_r_L; done.
  intros ([w1 removed] & Hrun & Hrest)%bind_Done.
  destruct (retire_measure _ _ _ _ _ Hwf Hrun) as (W1 & E1 & S1 & Hgone & _).
  eapply (IH _ _ _ _ _ seen) in Hrest as (W2 & E2 & S2 & Hsub & Hcl); try done.
  - split_and!; [done|by eapply evolves_trans|by eapply shrinks_trans| |].
    + etrans; [exact Hsub|]. apply map_filter_subseteq.
    + destruct Hcl as (S & HS & Hr). exists S. split; [set_solver|done].
  - subst seen. split.
    + intros o ty e [Ht|Ht]%touched_union; [|by apply Hgone]. intros Ho%S1. by eapply Hd.
    + intros o m k [Hlk Hno]%map_lookup_filter_Some Hk [Hin|Hin]%elem_of_union; [by eapply Hm|].
      simpl in Hno. apply not_true_iff_false in Hno. apply Hno. apply existsb_elem_of.
      exists k. by rewrite bool_decide_eq_true.
Qed.

Lemma sweep_owner_reported w r o w' r' :
  sweep_owner (w, r) o = Done (w', r') → ∀ k, k ∈ r' → k ∈ r ∨ ∃ ty, (ty, k) ∈ outputs_of w o.
Proof using H H0.
  unfold sweep_owner, outputs_of. cbv zeta. simpl. destruct (derived_owners w !! o) as [outs|]; simpl; [|intros [= <- <-]; by left].
  set (w1 := set_derived_owners _ _). intros Hrun. change r' with (w', r').2.
  apply (fold_result_inv (λ p, ∀ k, k ∈ p.2 → k ∈ r ∨ ∃ ty, (ty, k) ∈ outs) (sweep_output o)
    (hash_iter outs) (w1, r) (w', r')); [|by left|exact Hrun].
  intros [w2 r2] [ty e] [w3 r3] Hin%elem_of_hash_iter Hr2. simpl. intros ([w4 gone] & _ & [= <- <-])%bind_Done k.
  destruct gone; [|apply Hr2]. intros [?|Hk]%elem_of_app; [by apply Hr2|]. apply list_elem_of_singleton in Hk as ->. right. by exists ty.
Qed.

(** A round reports entities that carried a row of a touched owner. *)
Lemma touched_reported w keyset selected w' removed :
  wf nothing_taken w → remove_derived_touched_by_systems w keyset selected = Done (w', removed) →
  ∀ k, k ∈ removed → ∃ ty o, owner_touched keyset selected o = true ∧ owner_of w ty k = Some o.
Proof using H H0.
  intros Hwf. unfold remove_derived_touched_by_systems. intros Hrun.
  refine (proj2 (proj2 (fold_result_inv (λ p, wf nothing_taken p.1 ∧ shrinks w p.1 ∧
    ∀ k, k ∈ p.2 → ∃ ty o, owner_touched keyset selected o = true ∧ owner_of w ty k = Some o) _ _ (w, []) (w', removed) _ _ Hrun))).
  - intros [w1 r1] o [w2 r2] [Ho _]%list_elem_of_filter (Hwf1 & Hs1 & Hr1) H2. simpl in *.
    pose proof (sweep_owner_run _ _ _ _ _ H2) as H2'.
    destruct (remove_derived_owned_aux _ _ _ _ Hwf1 eq_refl H2') as ([Hwf2 _] & Hs2 & _).
    split_and!; [done|by eapply shrinks_trans|]. intros k Hk.
    destruct (sweep_owner_reported _ _ _ _ _ H2 k Hk) as [?|(ty & Hout%(wf_sound _ _ Hwf1))]; [by apply Hr1|].
    exists ty, o. split; [done|]. by apply (proj2 Hs1).
  - split_and!; [done|by split|]. by intros k ?%elem_of_nil.
Qed.

(** Entity [k] lost a derived row. *)
Definition lost_output w w' (k : Entity) : Prop :=
  ∃ ty o, owner_of w ty k = Some o ∧ owner_of w' ty k ≠ Some o.

Lemma retire_frontier_shrinks n w memo selected seen frontier retired w' memo' retired' :
  wf nothing_taken w → retire_frontier n w memo selected seen frontier retired = Done (w', memo', retired') →
  shrinks w w' ∧ memo' ⊆ memo.
Proof using H H0.
  clear row_counts.
  revert w memo seen frontier retired. induction n as [|n IH]; intros w memo seen frontier retired Hwf;
    cbn [retire_frontier]; case_bool_decide as Hf; try done.
  1,2: intros [= <- <- <-]; by repeat split.
  intros ([w1 removed] & Hrun & Hrest)%bind_Done.
  destruct (retire_measure _ _ _ _ _ Hwf Hrun) as (W1 & _ & S1 & _).
  destruct (IH _ _ _ _ _ W1 Hrest) as [S2 Hsub]. split; [by eapply shrinks_trans|].
  etrans; [exact Hsub|]. apply map_filter_subseteq.
Qed.

(** Memo entries are dropped for a reason: a key in the frontier, or a key that
    lost a derived row on the way. *)
Lemma retire_frontier_dropped n w memo selected seen frontier retired w' memo' retired' o m :
  wf nothing_taken w → retire_frontier n w memo selected seen frontier retired = Done (w', memo', retired') →
  memo !! o = Some m →
  memo' !! o = Some m ∨ memo' !! o = None ∧ ∃ k, k ∈ keys o ∧ (k ∈ frontier ∨ lost_output w w' k).
Proof using H H0.
  clear row_counts.
  revert w memo seen frontier retired. induction n as [|n IH]; intros w memo seen frontier retired Hwf;
    cbn [retire_frontier]; case_bool_decide as Hf; try done.
  1,2: intros [= <- <- <-]; by left.
  intros ([w1 removed] & Hrun & Hrest)%bind_Done Ho.
  destruct (retire_measure _ _ _ _ _ Hwf Hrun) as (W1 & _ & S1 & Hgone & _).
  pose proof (touched_reported _ _ _ _ _ Hwf Hrun) as Hrep.
  destruct (remove_memo_touched_by memo frontier !! o) as [m1|] eqn:Hm1.
  - apply map_lookup_filter_Some in Hm1 as Hx. destruct Hx as [Hx _]. assert (m1 = m) as -> by congruence.
    destruct (retire_frontier_shrinks _ _ _ _ _ _ _ _ _ _ W1 Hrest) as [S2 _].
    destruct (IH _ _ _ _ _ W1 Hrest Hm1) as [?|(Hnone & k & Hk & Hwhy)]; [by left|]. right. split; [done|].
    exists k. split; [done|]. right. destruct Hwhy as [Hfresh|(ty & o' & Ho1 & Ho2)].
    + apply elem_of_difference in Hfresh as [Hin%elem_of_list_to_set _].
      destruct (Hrep k Hin) as (ty & o' & Ht & Ho'). exists ty, o'. split; [done|].
      intros Hx2. by eapply Hgone, (proj2 S2).
    + exists ty, o'. split; [by apply (proj2 S1)|done].
  - right. assert (∃ k, k ∈ keys o ∧ k ∈ frontier) as (k & Hk & Hkf).
    { apply map_lookup_filter_None in Hm1 as [?|Hx]; [congruence|]. specialize (Hx _ Ho). simpl in Hx.
      apply not_false_iff_true, existsb_elem_of in Hx as (k & ? & ?%bool_decide_eq_true). by exists k. }
    split; [|exists k; by split; [|left]].
    destruct (memo' !! o) as [m'|] eqn:Hm'; [|done]. exfalso.
    destruct (retire_frontier_shrinks _ _ _ _ _ _ _ _ _ _ W1 Hrest) as [_ Hsub].
    eapply lookup_weaken in Hm'; [|exact Hsub]. congruence.
Qed.

(** The outputs of a retired invocation are gone, and so is its memo entry; a
    retired memo entry forces its rows back into planning. *)
Lemma retire_owners_spec memo systems owners selected memo' systems' retired :
  reconcile_removed_output_owners memo systems owners selected = Done (memo', systems', retired) →
  memo' ⊆ memo ∧
  (∀ o, o ∉ owners → memo' !! o = memo !! o) ∧
  ∀ o, o ∈ owners → from_option (λ ids, system o ∈ ids) True selected →
    memo' !! o = None ∧
    (is_Some (memo !! o) → retired = true ∧
       ∃ s, systems' !! system o = Some s ∧ replanned s (keys o)).
Proof using H H0.
  unfold reconcile_removed_output_owners. revert memo systems.
  assert (∀ l memo systems r0 memo' systems' retired,
    fold_result (retire_owner selected) (memo, systems, r0) l = Done (memo', systems', retired) →
    memo' ⊆ memo ∧ (∀ o, o ∉ l → memo' !! o = memo !! o) ∧ (r0 = true → retired = true) ∧
    (∀ i s ks, systems !! i = Some s → replanned s ks → ∃ s', systems' !! i = Some s' ∧ replanned s' ks) ∧
    ∀ o, o ∈ l → from_option (λ ids, system o ∈ ids) True selected →
      memo' !! o = None ∧ (is_Some (memo !! o) → retired = true ∧
        ∃ s, systems' !! system o = Some s ∧ replanned s (keys o))) as Hloop; last first.
  { intros memo systems Hrun. by destruct (Hloop _ _ _ _ _ _ _ Hrun) as (? & ? & _ & _ & ?). }
  clear memo' systems' retired owners. intros l. induction l as [|o l IH]; intros memo systems r0 memo' systems' retired; simpl.
  { intros [= <- <- <-]. split_and!; try done; [eauto|]. by intros ? ?%elem_of_nil. }
  intros ([[memo1 systems1] r1] & H1 & Hrest)%bind_Done. unfold retire_owner in H1.
  destruct (match selected with Some ids => negb (bool_decide (system o ∈ ids)) | None => false end) eqn:Hsel.
  { injection H1 as <- <- <-. destruct (IH _ _ _ _ _ _ Hrest) as (Hsub & Hsame & Hr & Hkeep & Hgone).
    split_and!; try done; [intros o' [_ ?]%not_elem_of_cons; by apply Hsame|].
    intros o' [->|?]%elem_of_cons Hin; [|by apply Hgone]. exfalso. destruct selected as [ids|]; [|done].
    simpl in Hin. by rewrite bool_decide_eq_true_2 in Hsel. }
  destruct (memo !! o) as [m|] eqn:Hmo.
  - apply bind_Done in H1 as (systems2 & Hf & H1). injection H1 as <- <- <-. unfold force_owner in Hf.
    apply bind_Done in Hf as (s & Hs%expect_Done & [= <-]).
    destruct (IH _ _ _ _ _ _ Hrest) as (Hsub & Hsame & Hr & Hkeep & Hgone).
    assert (∀ i s0 ks, systems !! i = Some s0 → replanned s0 ks → ∃ s', systems' !! i = Some s' ∧ replanned s' ks) as Hkeep'.
    { intros i s0 ks Hi Hk. destruct (decide (i = system o)) as [->|Hne].
      - apply (Hkeep _ (force_replan s (keys o))); [by apply list_lookup_insert_eq, (lookup_lt_Some _ _ _ Hs)|].
        apply replanned_force. congruence.
      - apply (Hkeep _ s0); [by rewrite list_lookup_insert_ne|done]. }
    split_and!.
    + etrans; [exact Hsub|apply delete_subseteq].
    + intros o' [Hne ?]%not_elem_of_cons. rewrite Hsame by done. by rewrite lookup_delete_ne.
    + auto.
    + exact Hkeep'.
    + intros o' Hin Hsel'. destruct (decide (o' = o)) as [->|Hne].
      * split.
        { destruct (memo' !! o) eqn:Hx; [|done]. eapply lookup_weaken in Hx; [|exact Hsub]. by rewrite lookup_delete_eq in Hx. }
        intros _. split; [by apply Hr|].
        apply (Hkeep _ (force_replan s (keys o))); [by apply list_lookup_insert_eq, (lookup_lt_Some _ _ _ Hs)|].
        apply force_replanned.
      * apply elem_of_cons in Hin as [?|Hin]; [done|]. destruct (Hgone o' Hin Hsel') as [? Hg]. split; [done|].
        rewrite lookup_delete_ne in Hg by done. exact Hg.
  - injection H1 as <- <- <-. destruct (IH _ _ _ _ _ _ Hrest) as (Hsub & Hsame & Hr & Hkeep & Hgone).
    split_and!; try done; [intros o' [_ ?]%not_elem_of_cons; by apply Hsame|].
    intros o' [->|?]%elem_of_cons Hin; [|by apply Hgone]. split; [|by intros [? ?]; congruence].
    destruct (memo' !! o) eqn:Hx; [|done]. eapply lookup_weaken in Hx; [|exact Hsub]. congruence.
Qed.

(** *** Whole commits *)

Record state_ok (st : CommitState) : Prop := {
  so_world : wf nothing_taken (cs_world st);
  so_pool : pool_ok (cs_pool st, []);
  so_held : Forall (λ o, queue_ok (out_commands o)) (deferred_settle st);
}.
Definition run_ok (run : SystemRun) : Prop := Forall (λ o, queue_ok (out_commands o)) (run_outputs run).

Lemma commit_outputs_ok phase st outputs st' :
  state_ok st → Forall (λ o, queue_ok (out_commands o)) outputs →
  fold_result (commit_output phase) st outputs = Done st' →
  state_ok st' ∧ evolves (cs_world st) (cs_world st') ∧ cs_memo st' = cs_memo st ∧
  cs_systems st' = cs_systems st ∧ settle_epoch st' = settle_epoch st.
Proof.
  intros Hok Hq. rewrite List.Forall_forall in Hq. setoid_rewrite <-list_elem_of_In in Hq.
  apply (fold_result_inv (λ s, state_ok s ∧ evolves (cs_world st) (cs_world s) ∧ cs_memo s = cs_memo st ∧
    cs_systems s = cs_systems st ∧ settle_epoch s = settle_epoch st)).
  - intros s output s' Hin ([W P Q] & E & Hm & Hs & He) Hrun.
    pose proof (commit_output_inv _ _ _ _ (Hq _ Hin) P Hrun)
      as (wa & wb & wc & _ & _ & _ & _ & Hm' & Hs' & He' & P' & queues & Hheld & Hqueues).
    assert (Forall (λ o, queue_ok (out_commands o)) (deferred_settle s')) as Q'.
    { rewrite Hheld. apply Forall_app. split; [done|].
      destruct Hqueues as [[_ ->]|(_ & q & -> & Hq' & _)]; [constructor|]. by constructor. }
    destruct (commit_output_spec _ _ _ _ W (Hq _ Hin) P Hrun) as (wd & we & _ & _ & _ & W' & _ & E').
    split_and!; [by split|by eapply evolves_trans|congruence..].
  - split_and!; try done. apply evolves_refl.
Qed.

Lemma commit_retire_ok st st' :
  state_ok st → commit_retire st = Done st' →
  state_ok st' ∧ evolves (cs_world st) (cs_world st') ∧ shrinks (cs_world st) (cs_world st') ∧
  cs_memo st' ⊆ cs_memo st ∧ deferred_settle st' = deferred_settle st.
Proof using H H0.
  intros [W P Q]. unfold commit_retire.
  destruct (apply_step_good _ _ _ W (as_drain_entities (cs_world st))) as [W1 E1].
  destruct (apply_step_good _ _ _ W1 (as_drain_owners _)) as [W2 E2].
  destruct (apply_step_good _ _ _ W2 (as_drain_component_owners _)) as [W3 E3]. cbv zeta in *.
  pose proof (evolves_trans _ _ _ E1 (evolves_trans _ _ _ E2 E3)) as E.
  unfold take_removed_entities, take_removed_owners, take_removed_component_owners in *. cbn [fst snd] in *.
  set (w := set_removed_component_owners [] _) in *.
  assert (shrinks (cs_world st) w) as S by by split.
  destruct (bool_decide _ && _ && _); [intros [= <-]; by split_and!|].
  intros ([[memo systems] retired] & (Hsub & _ & _)%retire_owners_spec & Hr)%bind_Done.
  destruct retired; [injection Hr as <-; by split_and!|].
  apply bind_Done in Hr as ([[[w' memo'] systems'] retired'] & Hrun & [= <-]).
  unfold reconcile_removed_invocations in Hrun.
  apply bind_Done in Hrun as ([[memo1 systems1] r1] & (Hsub1 & _ & _)%retire_owners_spec & Hrun).
  apply bind_Done in Hrun as ([[w2 memo2] r2] & Hf & [= <- <- <- <-]).
  eapply (retire_frontier_spec _ _ _ _ _ _ _ _ _ _ ∅) in Hf as (W' & E' & S' & Hsub2 & _); [|done| |set_solver].
  - assert (memo2 ⊆ cs_memo st) by (etrans; [exact Hsub2|by etrans]).
    destruct r2; split_and!; try done; try (by eapply evolves_trans); by eapply shrinks_trans.
  - split; [|set_solver]. intros o ty e. by rewrite touched_empty.
Qed.

Lemma stale_commit_inv st run phase st' p :
  forallb (λ '(_, entry), memo_is_current (cs_world st) entry) (run_updates run) = false →
  commit_system_run st run phase = Done (st', p) →
  ∃ w, reconcile_written (cs_world st) (run_writes run) = Done w ∧ st' = set_world w st ∧
    progress_stale p = true ∧ needs_followup p = negb (bool_decide (revision w = revision (cs_world st))) ∧
    progress_commits p = if needs_followup p then 1%N else 0%N.
Proof.
  intros Hc. unfold commit_system_run. rewrite Hc. simpl.
  intros (w & Hw & [= <- <-])%bind_Done. by exists w.
Qed.

Lemma moved_false w w' : moved w w' = false → revision w' = revision w ∧ mutations w' = mutations w.
Proof using H H0. unfold moved. do 2 case_bool_decide; done. Qed.

Lemma commit_state_aux st run phase st' p :
  state_ok st → run_ok run → commit_system_run st run phase = Done (st', p) →
  state_ok st' ∧ evolves (cs_world st) (cs_world st') ∧
  (needs_followup p = false → revision (cs_world st') = revision (cs_world st)) ∧
  (needs_followup p = false → progress_stale p = false → mutations (cs_world st') = mutations (cs_world st)) ∧
  progress_commits p = if needs_followup p then 1%N else 0%N.
Proof.
  intros Hok Hq Hrun. destruct (forallb (λ '(_, entry), memo_is_current (cs_world st) entry) (run_updates run)) eqn:Hc.
  - unfold commit_system_run in Hrun. rewrite Hc in Hrun. simpl in Hrun.
    apply bind_Done in Hrun as (st1 & H1 & Hrun). apply bind_Done in Hrun as (w & Hw & Hrun).
    apply bind_Done in Hrun as (st2 & H2 & [= <- <-]). simpl.
    destruct (commit_outputs_ok _ _ _ _ Hok Hq H1) as ([W1 P1 Q1] & E1 & _).
    destruct (reconcile_written_good _ _ _ _ W1 Hw) as [W2 E2].
    destruct (commit_retire_ok _ _ (Build_state_ok (set_memo _ (set_world w st1)) W2 P1 Q1) H2) as (Hok2 & E3 & _).
    split_and!; [done|by eapply evolves_trans, evolves_trans| | |done];
      intros Hm; apply moved_false in Hm as [? ?]; done.
  - apply stale_commit_inv in Hrun as (w & Hw & -> & Hs & Hn & Hp); [|done]. destruct Hok as [W P Q].
    destruct (reconcile_written_good _ _ _ _ W Hw) as [W' E].
    split_and!; [by split|done| |congruence|done].
    rewrite Hn. simpl. case_bool_decide; [done|]. done.
Qed.

(** *** Cleanup of bound entities *)

Lemma remove_memo_sub (memo : gmap SystemInvocation MemoEntry) keyset : remove_memo_touched_by memo keyset ⊆ memo.
Proof. apply map_filter_subseteq. Qed.

Lemma cleanup_frontier_ok n w memo removed frontier w' memo' :
  wf nothing_taken w → cleanup_frontier n w memo removed frontier = Done (w', memo') →
  wf nothing_taken w' ∧ evolves w w' ∧ memo' ⊆ memo.
Proof using H H0.
  revert w memo removed frontier. induction n as [|n IH]; intros w memo removed frontier Hwf;
    cbn [cleanup_frontier]; case_bool_decide; try done.
  1,2: intros [= <- <-]; split_and!; [done|apply evolves_refl|done].
  intros ([w1 out] & Hrun & Hrest)%bind_Done. unfold remove_derived_touched_by in Hrun.
  destruct (touched_aux nothing_taken _ _ _ _ _ Hwf (λ _, eq_refl) Hrun) as ([W1 E1] & _).
  destruct (IH _ _ _ _ W1 Hrest) as (W2 & E2 & Hsub).
  split_and!; [done|by eapply evolves_trans|]. etrans; [exact Hsub|apply remove_memo_sub].
Qed.

Lemma cleanup_bound_ok st entities st' :
  state_ok st → cleanup_bound_entities st entities = Done st' →
  state_ok st' ∧ evolves (cs_world st) (cs_world st') ∧ cs_memo st' ⊆ cs_memo st ∧
  st' = set_memo (cs_memo st') (set_world (cs_world st') st).
Proof using H H0.
  intros [W P Q]. unfold cleanup_bound_entities. case_bool_decide.
  { intros [= <-]. split_and!; [done|apply evolves_refl|done|by destruct st]. }
  intros ([w1 memo1] & Hf & Hrest)%bind_Done.
  destruct (cleanup_frontier_ok _ _ _ _ _ _ _ W Hf) as (W1 & E1 & Hsub1).
  apply bind_Done in Hrest as ([w2 owners] & He & Hrest). apply bind_Done in Hrest as ([w3 memo3] & Ho & [= <-]).
  assert (wf nothing_taken w2 ∧ evolves w1 w2) as [W2 E2].
  { revert He. apply (fold_result_inv (λ p, wf nothing_taken p.1 ∧ evolves w1 p.1)); [|split; [done|apply evolves_refl]].
    intros [w0 os] e [w0' os'] _ [Wa Ea] Hstep. apply bind_Done in Hstep as ([w4 more] & Hr & [= <- <-]).
    destruct (remove_entity_good _ _ _ _ _ Wa Hr) as [[Wb Eb] _]. split; [done|]. by eapply evolves_trans. }
  assert (wf nothing_taken w3 ∧ evolves w2 w3 ∧ memo3 ⊆ memo1) as (W3 & E3 & Hsub3).
  { revert Ho. apply (fold_result_inv (λ p, wf nothing_taken p.1 ∧ evolves w2 p.1 ∧ p.2 ⊆ memo1));
      [|split_and!; [done|apply evolves_refl|done]].
    intros [w0 m] o [w0' m'] _ (Wa & Ea & Sa) Hstep. apply bind_Done in Hstep as (w4 & Hr & [= <- <-]).
    destruct (remove_derived_owned_aux nothing_taken _ _ _ Wa eq_refl Hr) as ([Wb Eb] & _). simpl in *.
    split_and!; [done|by eapply evolves_trans|]. etrans; [apply delete_subseteq|done]. }
  split_and!; [by split|by eapply evolves_trans; [|eapply evolves_trans]|by etrans|by destruct st].
Qed.

(** ** Properties of commits *)

(** A commit keeps the state well formed.  Whatever the run did and whatever
    its phase, the world after the commit, outputs, in-place writes and the
    retirement of vanished invocations included, is well formed and follows the
    one before (revisions only move forward, the write log covers every moved
    row); the pool holds only cleared storages; and a commit that reports no
    follow-up left the revision and the mutation count alone. *)
Theorem commit_keeps_state st run phase st' p :
  state_ok st → run_ok run → commit_system_run st run phase = Done (st', p) →
  state_ok st' ∧ evolves (cs_world st) (cs_world st') ∧
  (needs_followup p = false → revision (cs_world st') = revision (cs_world st)) ∧
  (needs_followup p = false → progress_stale p = false → mutations (cs_world st') = mutations (cs_world st)) ∧
  progress_commits p = if needs_followup p then 1%N else 0%N.
Proof. apply commit_state_aux. Qed.

(** C7: a stale run is discarded.  If a dependency of the run is no longer
    current, the commit applies none of its commands and stores no memo entry:
    memo, planners, deferred outputs and pool are untouched, every row keeps its
    value and its owner, and only rows the run wrote in place may get a new
    revision. *)
Theorem stale_run_discarded st run phase st' p :
  state_ok st → forallb (λ '(_, entry), memo_is_current (cs_world st) entry) (run_updates run) = false →
  commit_system_run st run phase = Done (st', p) →
  progress_stale p = true ∧ st' = set_world (cs_world st') st ∧
  ∀ ty e, row_value (cs_world st') ty e = row_value (cs_world st) ty e ∧
    owner_of (cs_world st') ty e = owner_of (cs_world st) ty e ∧
    (row_revision (cs_world st') ty e ≠ row_revision (cs_world st) ty e → (ty, e) ∈ run_writes run).
Proof.
  intros [W _] Hc Hrun. apply stale_commit_inv in Hrun as (w & Hw & -> & Hs & _); [|done]. simpl.
  split; [done|]. split; [done|]. intros ty e.
  destruct (reconcile_written_payload _ _ _ _ ty e W Hw). split_and!; try done.
  intros Hne. destruct (decide ((ty, e) ∈ run_writes run)) as [|Hni]; [done|]. exfalso. apply Hne.
  rewrite !row_revision_row. f_equal. by eapply reconcile_written_frame.
Qed.

(** A rerun spawns the same entities.  After an output was committed, the
    buffer prepared for the next run of the same invocation hands out, slot by
    slot, the entity ids its previous spawns used, and turns to the allocator
    only for the spawns beyond them; spawning as many entities again gives back
    exactly the previous ids. *)
Theorem rerun_spawns_same_ids phase st output st' bundles allocator b' allocator' ids :
  state_ok st → queue_ok (out_commands output) → phase ≠ Some Settle →
  plain_spawns (pending (out_commands output)) → spawn_cursors (cs_world st) !! out_owner output = None →
  commit_output phase st output = Done st' →
  commands_insert_all (commands_new (spawn_slots (cs_world st') (out_owner output))) allocator bundles =
    (b', allocator', ids) →
  let reserved := omap op_reserved (pending (out_commands output)) in
  ids = take (length bundles) reserved ++ fresh_ids allocator (length bundles - length reserved) ∧
  (length bundles = length reserved → ids = reserved ∧ allocator' = allocator) ∧
  spawn_cursors (cs_world st') !! out_owner output = None.
Proof.
  intros [W P Q] Hq Hphase Hplain Hcur Hrun Hins. cbv zeta.
  set (o := out_owner output) in *. set (ops := pending (out_commands output)) in *.
  pose proof (commit_output_inv _ _ _ _ Hq P Hrun) as (wa & wb & wc & Ha & Hb & Hc & Hw & _). fold o ops in Ha, Hc.
  assert (filter (λ op, holds_back phase op = false) ops = ops) as Hall.
  { clear -Hphase. induction ops as [|op ops IH]; [done|]. rewrite filter_cons, IH.
    unfold holds_back. rewrite bool_decide_eq_false_2 by done. done. }
  rewrite Hall in Ha.
  assert (cursor_ok (take_derived_outputs (cs_world st) o).1 o) as Hok.
  { unfold cursor_ok, spawn_cursor. simpl. rewrite Hcur. simpl. lia. }
  destruct (apply_all_recorded _ _ _ _ Ha Hplain Hok) as [_ Hrec].
  assert (recorded (take_derived_outputs (cs_world st) o).1 o = []) as Hstart.
  { unfold recorded, spawn_cursor. simpl. by rewrite Hcur. }
  rewrite Hstart in Hrec. simpl in Hrec.
  destruct (kept_recorded _ _ o (flush_derived_from_kept _ _ Hb)) as [Hrec' _].
  destruct (finish_spawns_recorded wb o) as [Hfin Hnone]. rewrite Hrec', Hrec in Hfin.
  assert (spawn_slots (cs_world st') o = omap op_reserved ops ∧ spawn_cursors (cs_world st') !! o = None) as [Hs Hn].
  { rewrite Hw. apply remove_derived_stale_kept in Hc as [_ Hsk Hck _].
    unfold spawn_slots in *. simpl. rewrite Hsk, Hck. done. }
  rewrite Hs in Hins. apply commands_insert_all_from in Hins as (_ & -> & Halloc). simpl in *.
  rewrite drop_0 in *. split; [done|]. split; [|done]. intros Hlen. split; [|apply Halloc; lia].
  rewrite Hlen, Nat.sub_diag, take_ge by done. simpl. by rewrite app_nil_r.
Qed.

(** The last update a run reports for an invocation. *)
Definition last_update (o : SystemInvocation) (updates : list (SystemInvocation * MemoEntry)) : option MemoEntry :=
  foldl (λ acc '(o', m), if decide (o' = o) then Some m else acc) None updates.

(** What the memo stores of a dependency: the same row, at the revision the
    run's own in-place write gave it, or at the one it was read at. *)
Definition dep_stored w (writes : list (TypeId * Entity)) (d d' : Dep) : Prop :=
  dep_type d' = dep_type d ∧ dep_entity d' = dep_entity d ∧ dep_slot d' = dep_slot d ∧
  dep_store_scoped d' = dep_store_scoped d ∧
  dep_revision d' = if decide ((dep_type d, dep_entity d) ∈ writes ∧ dep_store_scoped d = false)
                    then row_revision w (dep_type d) (dep_entity d) else dep_revision d.

(** Why an invocation has no memo entry after a commit although it had one: a
    component it derived was removed by another, it lost its outputs, or it is
    keyed by an entity that vanished or lost a derived row in the cascade. *)
Definition retired_from w w' (o : SystemInvocation) : Prop :=
  o ∈ removed_component_owners w ∨ o ∈ removed_owners w ∨
  ∃ k, k ∈ keys o ∧ (k ∈ removed_entities w ∨ lost_output w w' k).

Lemma dep_refresh_stored X w writes d : wf X w → dep_stored w writes d (dep_refresh_written w writes d).
Proof using H H0.
  intros Hwf. unfold dep_stored, dep_refresh_written.
  assert (existsb (λ '(ty, e), bool_decide (ty = dep_type d) && bool_decide (e = dep_entity d)) writes = true ↔
    (dep_type d, dep_entity d) ∈ writes) as Hiff.
  { rewrite existsb_elem_of. split.
    - intros ([ty e] & Hin & [->%bool_decide_eq_true ->%bool_decide_eq_true]%andb_true_iff). done.
    - intros ?. exists (dep_type d, dep_entity d). by rewrite !bool_decide_eq_true_2. }
  destruct (existsb _ writes); simpl.
  - destruct (dep_store_scoped d) eqn:Hs; simpl; (split_and!; [done..|]).
    + by rewrite decide_False by naive_solver.
    + rewrite decide_True by naive_solver. apply dep_lookup_row, Hwf.
  - split_and!; try done. rewrite decide_False; [done|]. intros [Hin%Hiff _]. done.
Qed.

Lemma commit_memo_fold X w epoch writes memo updates o :
  wf X w →
  match last_update o updates with
  | None => foldl (commit_memo w epoch writes) memo updates !! o = memo !! o
  | Some entry => ∃ m, foldl (commit_memo w epoch writes) memo updates !! o = Some m ∧
      planned_revision m = planned_revision entry ∧ memo_epoch m = epoch ∧
      memo_deps m = memo_deps (memo_refresh_written w writes entry) ∧
      Forall2 (dep_stored w writes) (memo_deps entry) (memo_deps m)
  end.
Proof using H H0.
  intros Hwf. unfold last_update. induction updates as [|[o1 m1] updates IH] using rev_ind; [done|].
  rewrite !foldl_app. simpl. unfold commit_memo at 1 3. simpl. destruct (decide (o1 = o)) as [->|Hne].
  - rewrite lookup_insert_eq. eexists. split_and!; try done. simpl.
    apply Forall2_fmap_r, Forall_Forall2_diag, Forall_true. intros d. by eapply dep_refresh_stored.
  - rewrite lookup_insert_ne by done. exact IH.
Qed.

(** An entry of the updated memo is an old one or the refreshed one of an update. *)
Lemma commit_memo_source w epoch writes memo updates o m :
  foldl (commit_memo w epoch writes) memo updates !! o = Some m →
  (memo !! o = Some m ∧ o ∉ updates.*1) ∨
  ∃ entry, (o, entry) ∈ updates ∧ memo_deps m = memo_deps (memo_refresh_written w writes entry) ∧
    planned_revision m = planned_revision entry ∧ memo_epoch m = epoch.
Proof using H H0.
  revert memo. induction updates as [|[o1 m1] updates IH]; intros memo; simpl.
  - intros ?. left. split; [done|]. by intros ?%elem_of_nil.
  - intros [[Hl Hni]|(entry & Hin & Heq)]%IH.
    + unfold commit_memo in Hl. simpl in Hl. apply lookup_insert_Some in Hl as [[<- <-]|[Hne Hl]].
      * right. exists m1. split; [by left|done].
      * left. split; [done|]. apply not_elem_of_cons. by split.
    + right. exists entry. split; [by right|done].
Qed.

(** What the cascade at the end of a commit leaves of the memo. *)
Lemma commit_retire_memo st st' o :
  state_ok st → commit_retire st = Done st' →
  cs_memo st' !! o = cs_memo st !! o ∨ cs_memo st' !! o = None ∧ retired_from (cs_world st) (cs_world st') o.
Proof using H H0.
  intros Hok Hrun. destruct (commit_retire_ok _ _ Hok Hrun) as (_ & _ & _ & Hsub & _).
  destruct (cs_memo st' !! o) as [m|] eqn:Hm'.
  { left. symmetry. by eapply lookup_weaken. }
  destruct (cs_memo st !! o) as [m|] eqn:Hm; [right; split; [done|]|by left].
  destruct Hok as [W _ _]. revert Hrun. unfold commit_retire.
  assert (∀ l memo systems sel memo' systems' r, reconcile_removed_output_owners memo systems l sel = Done (memo', systems', r) →
    memo !! o = Some m → memo' !! o = None → o ∈ l) as Hown.
  { intros l memo systems sel memo' systems' r (_ & Hsame & _)%retire_owners_spec H1 H2.
    destruct (decide (o ∈ l)) as [|Hni]; [done|]. specialize (Hsame _ Hni). congruence. }
  unfold take_removed_entities, take_removed_owners, take_removed_component_owners. cbn [fst snd].
  set (w := set_removed_component_owners [] _).
  destruct (bool_decide _ && _ && _). { intros [= <-]. simpl in Hm'. congruence. }
  intros ([[memo systems] retired] & H1 & Hr)%bind_Done. simpl in H1.
  destruct (memo !! o) as [mx|] eqn:Hmx; [|left; by eapply Hown].
  destruct (retire_owners_spec _ _ _ _ _ _ _ H1) as (Hsub1 & _ & _).
  eapply lookup_weaken in Hsub1; [|exact Hmx]. assert (mx = m) as -> by congruence.
  destruct retired. { injection Hr as <-. simpl in Hm'. congruence. }
  apply bind_Done in Hr as ([[[w' memo'] systems'] retired'] & H2 & Hst). unfold reconcile_removed_invocations in H2.
  assert (cs_memo st' = memo' ∧ cs_world st' = w') as [Hmemo ->] by (injection Hst as <-; by destruct retired').
  rewrite Hmemo in Hm'. clear Hst Hmemo.
  apply bind_Done in H2 as ([[memo1 systems1] r1] & H2 & Hrun).
  apply bind_Done in Hrun as ([[w2 memo2] r2] & Hf & [= <- <- <- <-]).
  destruct (memo1 !! o) as [my|] eqn:Hmy; [|right; left; by eapply Hown].
  destruct (retire_owners_spec _ _ _ _ _ _ _ H2) as (Hsub2 & _ & _).
  eapply lookup_weaken in Hsub2; [|exact Hmy]. assert (my = m) as -> by congruence.
  assert (wf nothing_taken w) as Ww by (eapply frame_wf; [..|exact W]; done || set_solver).
  destruct (retire_frontier_dropped _ _ _ _ _ _ _ _ _ _ _ _ Ww Hf Hmy) as [?|(_ & k & Hk & Hwhy)]; [congruence|].
  right. right. exists k. split; [done|]. destruct Hwhy as [Hin%elem_of_list_to_set|Hl]; [by left|by right].
Qed.

(** C14: an invocation's own in-place writes do not invalidate it, and the memo
    after an accepted commit is exactly what the run reported.  The run leaves
    every invocation the entry of its last update, with the same dependencies in
    the same order, each at the revision the run's in-place write gave the row
    (or the one it was read at), stamped with the epoch; an invocation the run
    did not report keeps its entry.  After the cascade the entry is that one,
    unless the invocation was retired, and then it is gone for one of the
    reasons [retired_from] lists.  A stored entry on component rows that was
    still current when the in-place writes were reconciled is current afterwards,
    although the rows it wrote moved to new revisions. *)
Theorem own_writes_absorbed st run phase st' p :
  state_ok st → run_ok run →
  forallb (λ '(_, entry), memo_is_current (cs_world st) entry) (run_updates run) = true →
  commit_system_run st run phase = Done (st', p) →
  ∃ st1 w, fold_result (commit_output phase) st (run_outputs run) = Done st1 ∧
    reconcile_written (cs_world st1) (run_writes run) = Done w ∧ progress_stale p = false ∧
    ∀ o, ∃ stored,
      match last_update o (run_updates run) with
      | None => stored = cs_memo st !! o
      | Some entry => ∃ m, stored = Some m ∧ planned_revision m = planned_revision entry ∧
          memo_epoch m = settle_epoch st ∧
          Forall2 (dep_stored w (run_writes run)) (memo_deps entry) (memo_deps m) ∧
          (Forall (λ d, dep_store_scoped d = false) (memo_deps entry) →
           memo_is_current (cs_world st1) entry = true → memo_is_current w m = true)
      end ∧
      (cs_memo st' !! o = stored ∨ cs_memo st' !! o = None ∧ retired_from w (cs_world st') o).
Proof.
  intros Hok Hq Hc Hrun. unfold commit_system_run in Hrun. rewrite Hc in Hrun. simpl in Hrun.
  apply bind_Done in Hrun as (st1 & H1 & Hrun). apply bind_Done in Hrun as (w & Hw & Hrun).
  apply bind_Done in Hrun as (st2 & H2 & [= <- <-]).
  destruct (commit_outputs_ok _ _ _ _ Hok Hq H1) as ([W1 P1 Q1] & _ & Hm1 & _ & He1).
  destruct (reconcile_written_good _ _ _ _ W1 Hw) as [W2 _].
  exists st1, w. split_and!; try done. intros o.
  pose proof (commit_retire_memo _ _ o (Build_state_ok (set_memo _ (set_world w st1)) W2 P1 Q1) H2) as Hmemo.
  pose proof (commit_memo_fold _ w (settle_epoch st1) (run_writes run) (cs_memo st1) (run_updates run) o W2) as Hfold.
  eexists. split; [|exact Hmemo]. simpl. destruct (last_update o (run_updates run)) as [entry|]; [|by rewrite Hfold, Hm1].
  destruct Hfold as (m & -> & Hrev & Hep & Hdeps & Hall). exists m. split_and!; try done; [congruence|].
  intros Hsc Hcur. unfold memo_is_current. rewrite Hdeps. exact (refresh_written_current _ _ _ _ _ W1 Hw Hsc Hcur).
Qed.

Lemma filter_all {A} (P : A → Prop) `{!∀ x, Decision (P x)} l :
  length (filter P l) = length l ↔ ∀ x, x ∈ l → P x.
Proof using H H0.
  induction l as [|x l IH]; [split; [by intros _ ? ?%elem_of_nil|done]|].
  rewrite filter_cons. pose proof (length_filter P l). case_decide as Hx; simpl.
  - split; [intros [= Hl] y [->|?]%elem_of_cons; [done|by apply IH]|].
    intros Hall. f_equal. apply IH. intros y ?. apply Hall. by right.
  - split; [lia|]. intros Hall. destruct Hx. apply Hall. by left.
Qed.

(** Conformance is what the schema says: a write bundle is accepted exactly
    when one shape contains all of it and the entity carries every component
    that shape requires. *)
Theorem conformance_exact w schema e bundle :
  check_shape_conformance w schema e bundle = Done () ↔
  ∃ shape, shape ∈ schema ∧ (∀ ty, ty ∈ bundle → ty ∈ shape_required shape ∨ ty ∈ shape_optional shape) ∧
    ∀ ty, ty ∈ shape_required shape → is_Some (row w ty e).
Proof using H H0.
  assert (∀ shape, length (filter (λ ty, shape_contains shape ty = true) bundle) = length bundle ↔
    ∀ ty, ty ∈ bundle → ty ∈ shape_required shape ∨ ty ∈ shape_optional shape) as Hcov.
  { intros shape. rewrite filter_all. unfold shape_contains. setoid_rewrite orb_true_iff.
    setoid_rewrite existsb_elem_of. setoid_rewrite bool_decide_eq_true. naive_solver. }
  assert (∀ shape, filter (λ ty, has w ty e = false) (shape_required shape) = [] ↔
    ∀ ty, ty ∈ shape_required shape → is_Some (row w ty e)) as Hreq.
  { intros shape. induction (shape_required shape) as [|ty tys IH]; [split; [by intros _ ? ?%elem_of_nil|done]|].
    rewrite filter_cons. case_decide as Hh.
    - split; [done|]. intros Hall. apply not_true_iff_false in Hh. destruct Hh. apply has_row, Hall. by left.
    - apply not_false_iff_true, has_row in Hh. rewrite IH. setoid_rewrite elem_of_cons. naive_solver. }
  induction schema as [|shape schema IH]; cbn [check_shape_conformance].
  - split; [done|]. by intros (? & ?%elem_of_nil & _).
  - setoid_rewrite elem_of_cons. case_bool_decide as Hc.
    + case_bool_decide as Hm.
      * split; [|done]. intros _. exists shape. split; [by left|]. by rewrite <-Hcov, <-Hreq.
      * rewrite IH. split; [intros (s & ? & ?); exists s; tauto|].
        intros (s & [->|?] & Hs1 & Hs2); [by destruct Hm; apply Hreq|by exists s].
    + rewrite IH. split; [intros (s & ? & ?); exists s; tauto|].
      intros (s & [->|?] & Hs1 & Hs2); [by destruct Hc; apply Hcov|by exists s].
Qed.

Definition within (limit : CommitLimit) (n : N) : bool :=
  bool_decide (n ≤ u64_max)%N && match limit with NoLimit => true | MaxCommits m => bool_decide (n ≤ m)%N end.

Lemma within_le limit n m : (n ≤ m)%N → within limit m = true → within limit n = true.
Proof using H H0.
  unfold within. rewrite !andb_true_iff, !bool_decide_eq_true. intros Hle [? Hm]. split; [lia|].
  destruct limit; [done|]. rewrite bool_decide_eq_true in Hm |- *. lia.
Qed.

Lemma budget_step limit n c :
  within limit n = true →
  budget_record (MkBudget limit n) c =
  if within limit (n + c) then Done (MkBudget limit (n + c)%N)
  else Panic (if bool_decide (n + c ≤ u64_max)%N then LimitExceeded else Overflow).
Proof using H H0.
  intros Hn. unfold budget_record. simpl. case_bool_decide as Hc.
  - subst c. rewrite N.add_0_r, Hn. done.
  - unfold within. destruct (bool_decide (n + c ≤ u64_max)%N) eqn:Ho; simpl; [|done].
    destruct limit as [|m]; simpl; [done|]. by destruct (bool_decide (n + c ≤ m)%N).
Qed.

(** The commit budget is exact: recording a sequence of commits succeeds
    exactly while their sum fits the limit and the counter, and then the budget
    holds the sum; the first commit beyond either stops the evaluation. *)
Theorem budget_exact limit counts :
  let total := foldr N.add 0%N counts in
  (within limit total = true → fold_result budget_record (budget_new limit) counts = Done (MkBudget limit total)) ∧
  (within limit total = false → is_done (fold_result budget_record (budget_new limit) counts) = false).
Proof using H H0.
  cbv zeta. unfold budget_new.
  assert (∀ n, within limit n = true →
    (within limit (n + foldr N.add 0%N counts) = true →
       fold_result budget_record (MkBudget limit n) counts = Done (MkBudget limit (n + foldr N.add 0%N counts))) ∧
    (within limit (n + foldr N.add 0%N counts) = false →
       is_done (fold_result budget_record (MkBudget limit n) counts) = false)) as Hgen.
  { induction counts as [|c counts IH]; intros n Hn; cbn [foldr fold_result].
    - rewrite N.add_0_r. split; [done|congruence].
    - rewrite (budget_step _ _ _ Hn), N.add_assoc. destruct (within limit (n + c)) eqn:Hc; cbn [mbind result_bind].
      + by apply IH.
      + split; [|done]. intros Hw. eapply within_le in Hw; [|apply (N.le_add_r (n + c))]. congruence. }
  apply (Hgen 0%N). unfold within. rewrite bool_decide_eq_true_2 by done.
  destruct limit; [done|]. apply bool_decide_eq_true_2. lia.
Qed.
End commit.

(** ** Replacing outputs and retiring invocations

    Where relationships are involved: the sweeps of a commit and of a retirement
    maintain inverses. *)
Section replace.
Context `{RelationshipLaws} `{HashOrder}.
Variable row_counts : SystemId → World → nat.
Local Abbreviation commit_output := (commit_output row_counts).

(** C6: an accepted output replaces the previous one.  Committing an output
    takes the owner's previous rows aside, applies in order exactly the
    operations that the phase does not hold back, flushes the anchors, and then
    sweeps what was not emitted again.  In the world after it, every previous
    row of the owner that was not emitted again and is still the owner's is gone;
    every other row that is not a maintained inverse has the entry and the value
    the commands gave it, and inverses that the commands left exact are exact.  The owner's
    rows are exactly its index, and a previous row that the commands did not emit
    is no longer its own.  A settle-phase commit holds back exactly its inserts
    and spawns, in order, as one deferred output of the same owner; other phases
    hold back nothing. *)
Theorem output_replaces phase st output st' :
  state_ok st → queue_ok (out_commands output) → commit_output phase st output = Done st' →
  let o := out_owner output in
  let ops := pending (out_commands output) in
  let previous := outputs_of (cs_world st) o in
  ∃ wa wb,
    apply_all (Some o) (take_derived_outputs (cs_world st) o).1 (filter (λ op, holds_back phase op = false) ops) = Done wa ∧
    flush_derived_from wa = Done wb ∧
    (∀ ty e, edge_of ty = None →
       let gone := (ty, e) ∈ previous ∧ (ty, e) ∉ outputs_of wb o ∧ owner_of wb ty e = Some o in
       (gone → row (cs_world st') ty e = None) ∧
       (¬ gone → row (cs_world st') ty e = row wb ty e ∧ row_value (cs_world st') ty e = row_value wb ty e)) ∧
    (rel_ok wb → rel_ok (cs_world st')) ∧
    (∀ ty e, owner_of (cs_world st') ty e = Some o ↔ (ty, e) ∈ outputs_of (cs_world st') o) ∧
    (∀ ty e, (ty, e) ∈ previous → (ty, e) ∉ outputs_of wb o → owner_of (cs_world st') ty e ≠ Some o) ∧
    match filter (λ op, holds_back phase op = true) ops with
    | [] => deferred_settle st' = deferred_settle st
    | held => ∃ q, deferred_settle st' = deferred_settle st ++ [MkOutput o q] ∧ queue_ok q ∧ pending q = held
    end.
Proof.
  intros [W P Q] Hq Hrun. cbv zeta.
  pose proof (commit_output_inv _ _ _ _ _ Hq P Hrun) as (wa & wb & wc & Ha & Hb & Hc & Hw & _ & _ & _ & _ & Hd).
  set (o := out_owner output) in *.
  exists wa, wb. split; [done|]. split; [done|].
  assert (rtc apply_step (take_derived_outputs (cs_world st) o).1 (finish_derived_spawns wb o)) as Hsteps.
  { etrans; [by eapply apply_all_steps|]. eapply rtc_l; [by apply as_flush|]. apply rtc_once, as_finish_spawns. }
  destruct (commit_aux _ _ _ _ _ _ _ W eq_refl eq_refl Hsteps Hc) as (Wc & [Sc _] & _).
  assert (∀ ty e, owner_of wc ty e = Some o ↔ (ty, e) ∈ outputs_of wc o) as Hown.
  { intros ty e. split; [|apply (wf_sound _ _ Wc)]. intros Ho%(wf_complete _ _ Wc).
    apply elem_of_union in Ho as [?|Ho]; [done|]. by apply not_elem_of_empty in Ho. }
  destruct (apply_steps_good _ _ _ Hsteps (take_wf _ _ o W)) as [Wd _].
  assert (∀ ty e, row (finish_derived_spawns wb o) ty e = row wb ty e ∧ row_value (finish_derived_spawns wb o) ty e = row_value wb ty e) as Hfin.
  { intros ty e. unfold finish_derived_spawns. by case_match. }
  assert (∀ o', outputs_of (finish_derived_spawns wb o) o' = outputs_of wb o') as Hout.
  { intros o'. unfold finish_derived_spawns. by case_match. }
  unfold remove_derived_stale in Hc. rewrite Hw. split; [|split; [|split; [exact Hown|split]]].
  - intros ty e Hty. cbv zeta. destruct (stale_rows _ _ _ _ _ ty e Wd Hty Hc) as [Hgone Hkept].
    unfold swept, owner_of in *. rewrite elem_of_hash_iter, Hout in Hgone, Hkept. destruct (Hfin ty e) as [-> ->] in Hgone, Hkept.
    by split.
  - intros Hrel. assert (rel_ok (finish_derived_spawns wb o)) as Hrel'.
    { apply (rel_ok_frame wb); [..|done]; unfold finish_derived_spawns; by case_match. }
    pose proof (stale_rel _ _ _ _ _ Wd Hrel' Hc) as Hrel2. by apply (rel_ok_frame wc).
  - intros ty e _ Hni Ho. apply Hown, Sc in Ho. by rewrite Hout in Ho.
  - destruct Hd as (queues & Hdef & [[Hnil ->]|(Hne & q & -> & Hqq & Hp)]).
    + rewrite Hnil. by rewrite Hdef, app_nil_r.
    + destruct (filter _ _) as [|op ops'] eqn:Hpq in Hne, Hp |- *; [done|]. by exists q.
Qed.

(** Enough rounds: the loop over the frontier ends before its bound. *)
Lemma retire_frontier_ends n w memo selected seen frontier retired :
  wf nothing_taken w → owner_count w < n →
  avoids NestingTooDeep (retire_frontier n w memo selected seen frontier retired).
Proof using H H0 H1.
  revert w memo seen frontier retired. induction n as [|n IH]; intros w memo seen frontier retired Hwf Hn; [lia|].
  cbn [retire_frontier]. case_bool_decide; [done|]. apply avoids_bind; [apply touched_deep|].
  intros [w' removed] Hrun. destruct (retire_measure _ _ _ _ _ Hwf Hrun) as (W & _ & _ & _ & Hlt).
  destruct (decide (removed = [])) as [->|Hne].
  - assert (list_to_set [] ∖ seen = (∅ : gset Entity)) as -> by set_solver.
    destruct n; simpl; by rewrite bool_decide_eq_true_2.
  - apply IH; [done|]. specialize (Hlt Hne). lia.
Qed.

Lemma reconcile_owners_deep memo systems owners selected :
  avoids NestingTooDeep (reconcile_removed_output_owners memo systems owners selected).
Proof using H H0 H1.
  apply avoids_fold. intros [[m s] r] o _. unfold retire_owner, force_owner. avoids_tac.
Qed.

(** C13: retirement reaches a fixed point.  When entities vanish, retiring the
    invocations keyed by them, round after round, terminates: the bound on the
    rounds (one more than the invocations that own outputs) is never what stops
    it, and more rounds would change nothing.  Afterwards there is a set [S]
    of entities, the vanished ones among them, such that no selected invocation
    keyed by a member of [S] owns a row, and no memo entry at all is keyed by
    one; a retired output owner loses its memo entry and its rows are planned
    again. *)
Theorem retirement_fixed_point w memo systems removed owners selected :
  wf nothing_taken w →
  reconcile_removed_invocations w memo systems removed owners selected ≠ Panic NestingTooDeep ∧
  (∀ n memo0 seen frontier r0, frontier_fuel w ≤ n →
     retire_frontier n w memo0 selected seen frontier r0 ≠ Panic NestingTooDeep ∧
     retire_frontier n w memo0 selected seen frontier r0 =
     retire_frontier (frontier_fuel w) w memo0 selected seen frontier r0) ∧
  ∀ w' memo' systems' retired,
    reconcile_removed_invocations w memo systems removed owners selected = Done (w', memo', systems', retired) →
    wf nothing_taken w' ∧ shrinks w w' ∧ memo' ⊆ memo ∧
    (∃ S : gset Entity, list_to_set removed ⊆ S ∧ retired_by S selected w' memo') ∧
    ∀ o, o ∈ owners → from_option (λ ids, system o ∈ ids) True selected → memo' !! o = None ∧
       (is_Some (memo !! o) → ∃ s, systems' !! system o = Some s ∧ replanned s (keys o)).
Proof using H H0 H1.
  intros Hwf. split; [|split].
  - unfold reconcile_removed_invocations. apply avoids_bind; [apply reconcile_owners_deep|]. intros [[m1 s1] r1] _.
    apply avoids_bind; [|by intros [[??]?] _]. apply retire_frontier_ends; [done|]. unfold frontier_fuel, owner_count. lia.
  - intros n memo0 seen frontier r0 Hn. unfold frontier_fuel in *.
    split; [apply retire_frontier_ends|apply retire_frontier_fuel]; try done; unfold owner_count; lia.
  - intros w' memo' systems' retired Hrun. unfold reconcile_removed_invocations in Hrun.
    apply bind_Done in Hrun as ([[memo1 systems1] r1] & Ho%retire_owners_spec & Hrun).
    apply bind_Done in Hrun as ([[w2 memo2] r2] & Hf & [= <- <- <- <-]). destruct Ho as (Hsub1 & _ & Hown).
    eapply (retire_frontier_spec _ _ _ _ _ _ _ _ _ _ ∅) in Hf as (W' & E' & S' & Hsub2 & HS); [|done| |set_solver].
    + split_and!; [done|done|by etrans|exact HS|].
      intros o Hin Hsel. destruct (Hown o Hin Hsel) as [Hnone Hfor]. split; [|intros Hs; by apply Hfor].
      destruct (memo2 !! o) eqn:Hx; [|done]. eapply lookup_weaken in Hx; [|exact Hsub2]. congruence.
    + split; [|set_solver]. intros o ty e. by rewrite touched_empty.
Qed.
End replace.

(** ** Concrete runs *)

Definition nobody_matches `{ComponentTypes} `{HashOrder} (i : SystemId) (w : World) : nat := 0.

Definition demo_queue_of (ops : list CommandOp) : CommandQueue := foldl queue_push queue_default ops.

Lemma demo_queue_of_ok ops : queue_ok (demo_queue_of ops).
Proof.
  unfold demo_queue_of. assert (queue_ok queue_default) as Hq by apply queue_default_ok. revert Hq.
  generalize queue_default. induction ops as [|op ops IH]; intros q Hq; simpl; [done|].
  apply IH. by apply push_operation_spec.
Qed.

(** *** The cascade that the commit skips

    Invocation [a] derived a number on 10, the pair-bound invocation [b],
    keyed by 5, a number on 11.  A third one removes entity 5. *)
Definition demo_a : SystemInvocation := Invocation 0 [1%N].
Definition demo_b : SystemInvocation := Invocation 1 [5%N].
Definition demo_c : SystemInvocation := Invocation 2 [7%N].
Definition demo_pair : BoxedSystem :=
  MkSystem Evaluate [] [] [] [] (Some []) (Some [ty_num]) u64_max false true u64_max 0 [].
Definition demo_ab : World :=
  run demo_w0 (w ← insert demo_w0 10 ty_num (v_num 1) (Some demo_a); insert w 11 ty_num (v_num 2) (Some demo_b)).
Definition demo_state : CommitState :=
  MkState demo_ab {[demo_a := MkMemo [] 0 0; demo_b := MkMemo [] 0 0]} [demo_system; demo_pair; demo_system] []
    (MkPool [] []) true None 3 true.

Definition demo_commit (ops : list CommandOp) : result (CommitState * CommitProgress) :=
  commit_system_run nobody_matches demo_state
    (MkRun true [MkOutput demo_c (demo_queue_of ops)] [(demo_c, MkMemo [] 1 0)] []) (Some Evaluate).

(** [||] between the two retirement steps evaluates the second only when the
    first retired nothing.  Removing entity 5 retires the pair keyed by it; when
    the same commit also removes a component that another invocation derived,
    the pair keeps its memo entry and its row on 11, and the removal of 5 has
    been drained and is not seen again. *)
Lemma cascade_short_circuited :
  match demo_commit [RemoveEntityCommand 5], demo_commit [RemoveComponentCommand 10 ty_num; RemoveEntityCommand 5] with
  | Done (one, _), Done (both, _) =>
      cs_memo one !! demo_b = None ∧ row (cs_world one) ty_num 11 = None ∧
      cs_memo both !! demo_b = Some (MkMemo [] 0 0) ∧ owner_of (cs_world both) ty_num 11 = Some demo_b ∧
      removed_entities (cs_world both) = []
  | _, _ => False
  end.
Proof. vm_compute. done. Qed.

Lemma demo_ab_steps : rtc apply_step demo_w0 demo_ab.
Proof.
  eapply rtc_l; [apply (as_insert _ 10 ty_num (v_num 1) (Some demo_a)); vm_compute; reflexivity|].
  apply rtc_once, (as_insert _ 11 ty_num (v_num 2) (Some demo_b)). vm_compute. reflexivity.
Qed.

Lemma demo_state_ok : state_ok demo_state.
Proof.
  split; [|by repeat split; try constructor|constructor].
  exact (proj1 (apply_steps_good _ _ _ demo_ab_steps demo_wf0)).
Qed.

(** [c] spawns a number on 40 and writes 10 in place. *)
Definition demo_output : SystemOutput := MkOutput demo_c (demo_queue_of [SpawnCommand [(ty_num, v_num 9)] 40]).
Definition demo_run (d : Dep) : SystemRun :=
  MkRun true [demo_output] [(demo_c, MkMemo [d] 1 0)] [(ty_num, 10%N)].
Definition demo_fresh : Dep := MkDep ty_num None 10 (row_revision demo_ab ty_num 10) false.
Definition demo_stale : Dep := MkDep ty_num None 10 None false.
Definition demo_done (d : Dep) (phase : Phase) : CommitState * CommitProgress :=
  run (demo_state, MkProgress false false 0) (commit_system_run nobody_matches demo_state (demo_run d) (Some phase)).
Definition demo_after (phase : Phase) : CommitState :=
  run demo_state (commit_output nobody_matches (Some phase) demo_state demo_output).

Lemma demo_run_ok d : run_ok (demo_run d).
Proof. constructor; [apply demo_queue_of_ok|constructor]. Qed.

Lemma commit_keeps_state_witness :
  state_ok (demo_done demo_fresh Evaluate).1 ∧
  needs_followup (demo_done demo_fresh Evaluate).2 = true ∧ progress_stale (demo_done demo_fresh Evaluate).2 = false.
Proof.
  split; [|vm_compute; done].
  apply (commit_keeps_state nobody_matches demo_state (demo_run demo_fresh) (Some Evaluate) _
           (demo_done demo_fresh Evaluate).2 demo_state_ok (demo_run_ok _)).
  vm_compute. reflexivity.
Defined.

Lemma stale_run_discarded_witness :
  progress_stale (demo_done demo_stale Evaluate).2 = true ∧
  (demo_done demo_stale Evaluate).1 = set_world (cs_world (demo_done demo_stale Evaluate).1) demo_state ∧
  ∀ ty e, row_value (cs_world (demo_done demo_stale Evaluate).1) ty e = row_value (cs_world demo_state) ty e ∧
    owner_of (cs_world (demo_done demo_stale Evaluate).1) ty e = owner_of (cs_world demo_state) ty e ∧
    (row_revision (cs_world (demo_done demo_stale Evaluate).1) ty e ≠ row_revision (cs_world demo_state) ty e →
     (ty, e) ∈ [(ty_num, 10%N)]).
Proof.
  apply (stale_run_discarded nobody_matches demo_state (demo_run demo_stale) (Some Evaluate) _
           (demo_done demo_stale Evaluate).2 demo_state_ok).
  - vm_compute. reflexivity.
  - vm_compute. reflexivity.
Defined.

(** In the settle phase the spawn of [a] is held back, and the number it derived
    on 10 before is swept; the number of [b] on 11 stays. *)
Definition demo_output_a : SystemOutput := MkOutput demo_a (demo_queue_of [SpawnCommand [(ty_num, v_num 9)] 40]).
Definition demo_after_a : CommitState :=
  run demo_state (commit_output nobody_matches (Some Settle) demo_state demo_output_a).

Lemma output_replaces_witness :
  row (cs_world demo_after_a) ty_num 40 = None ∧ length (deferred_settle demo_after_a) = 1 ∧
  row (cs_world demo_after_a) ty_num 10 = None ∧
  row (cs_world demo_after_a) ty_num 11 = row demo_ab ty_num 11 ∧
  ∃ q, deferred_settle demo_after_a = [] ++ [MkOutput demo_a q] ∧ queue_ok q ∧
       pending q = [DerivedOp (SpawnCommand [(ty_num, v_num 9)] 40)].
Proof.
  split; [vm_compute; reflexivity|]. split; [vm_compute; reflexivity|].
  destruct (output_replaces nobody_matches (Some Settle) demo_state demo_output_a demo_after_a demo_state_ok)
    as (wa & wb & Ha & Hb & Hrows & _ & _ & _ & Hheld); [apply demo_queue_of_ok|vm_compute; reflexivity|].
  vm_compute in Ha. injection Ha as <-. vm_compute in Hb. injection Hb as <-. split_and!.
  - apply (Hrows ty_num 10%N); [vm_compute; reflexivity|]. vm_compute. by split_and!.
  - apply (Hrows ty_num 11%N); [vm_compute; reflexivity|]. intros (_ & _ & Ho). vm_compute in Ho. discriminate.
  - exact Hheld.
Defined.

(** The next run of [c] spawns on 40 again, then asks the allocator. *)
Definition demo_rerun : CommandBuffer * Entity * list Entity :=
  commands_insert_all (commands_new (spawn_slots (cs_world (demo_after Evaluate)) demo_c)) 90
    [[(ty_num, v_num 1)]; [(ty_num, v_num 2)]].

Lemma rerun_spawns_same_ids_witness :
  demo_rerun.2 = [40; 90]%N ∧
  demo_rerun.2 = take 2 [40%N] ++ fresh_ids 90 1 ∧
  (2 = 1 → demo_rerun.2 = [40%N] ∧ demo_rerun.1.2 = 90%N) ∧
  spawn_cursors (cs_world (demo_after Evaluate)) !! demo_c = None.
Proof.
  split; [vm_compute; reflexivity|].
  apply (rerun_spawns_same_ids nobody_matches (Some Evaluate) demo_state demo_output (demo_after Evaluate)
           [[(ty_num, v_num 1)]; [(ty_num, v_num 2)]] 90 demo_rerun.1.1 demo_rerun.1.2 demo_rerun.2 demo_state_ok).
  - apply demo_queue_of_ok.
  - discriminate.
  - intros bundle e Hin. apply list_elem_of_singleton in Hin. injection Hin as -> ->. reflexivity.
  - vm_compute. reflexivity.
  - vm_compute. reflexivity.
  - vm_compute. reflexivity.
Defined.

(** [c] wrote 10 itself: its entry is kept, at the row's new revision. *)
Lemma own_writes_absorbed_witness :
  ∃ st1 w m, fold_result (commit_output nobody_matches (Some Evaluate)) demo_state [demo_output] = Done st1 ∧
    reconcile_written (cs_world st1) [(ty_num, 10%N)] = Done w ∧
    cs_memo (demo_done demo_fresh Evaluate).1 !! demo_c = Some m ∧ memo_epoch m = 3%N ∧
    Forall2 (dep_stored w [(ty_num, 10%N)]) [demo_fresh] (memo_deps m).
Proof.
  assert (is_Some (cs_memo (demo_done demo_fresh Evaluate).1 !! demo_c)) as [m0 Hm0] by (vm_compute; by eexists).
  destruct (own_writes_absorbed nobody_matches demo_state (demo_run demo_fresh) (Some Evaluate)
           (demo_done demo_fresh Evaluate).1 (demo_done demo_fresh Evaluate).2 demo_state_ok (demo_run_ok _))
    as (st1 & w & H1 & H2 & _ & Hmemo); [vm_compute; reflexivity|vm_compute; reflexivity|].
  destruct (Hmemo demo_c) as (stored & (m & -> & _ & Hep & Hdeps & _) & [Hkept|[Hnone _]]).
  - exists st1, w, m. split_and!; done.
  - rewrite Hm0 in Hnone. discriminate.
Defined.

Definition demo_retired : World * gmap SystemInvocation MemoEntry * list BoxedSystem * bool :=
  run (demo_ab, cs_memo demo_state, cs_systems demo_state, false)
    (reconcile_removed_invocations demo_ab (cs_memo demo_state) (cs_systems demo_state) [5%N] [] (Some {[1]})).

Lemma retirement_fixed_point_witness :
  row demo_retired.1.1.1 ty_num 11 = None ∧ demo_retired.2 = true ∧
  ∃ S : gset Entity, list_to_set [5%N] ⊆ S ∧ retired_by S (Some {[1]}) demo_retired.1.1.1 demo_retired.1.1.2.
Proof.
  split; [vm_compute; reflexivity|]. split; [vm_compute; reflexivity|].
  destruct (retirement_fixed_point demo_ab (cs_memo demo_state) (cs_systems demo_state) [5%N] [] (Some {[1]}))
    as (_ & _ & Hfix); [apply demo_state_ok|].
  apply (Hfix demo_retired.1.1.1 demo_retired.1.1.2 demo_retired.1.2 demo_retired.2).
  vm_compute. reflexivity.
Defined.
