(* ===== verification/Params.v ===== *)
(** * System parameters ([system.rs], [query.rs], [prepared/rows.rs])

    What the parameters of a system function make the planner do: which rows a
    parameter contributes, how a tuple joins them (the product of its parameters,
    with bound joins enumerated from their provider's row), how a dirty-entity
    hint narrows the product, what identifies an invocation and what it depends
    on, and which systems are rejected at registration. *)
From stdpp Require Import base numbers sets gmap fin_maps sorting list.
From S2P Require Import Prelude Access.
From S2P Require Import Components Demo Stores Presence World WorldInv Ownership WorldOps Frame.
From S2P Require Import Commands Query Deps Planner Commit.

(** ** Syntax *)

(** [Query<Q, F>], [Option<Query<Q, F>>], [View<Q, F>], [TrackedView<Q, F>],
    [Commands<S>] with its declared types ([None] is the wildcard), and
    [WorldMetaView]. *)
Inductive SystemParam :=
  | PQuery (q : QueryParam) (f : QueryFilter)
  | POuter (q : QueryParam) (f : QueryFilter)
  | PView (q : QueryParam) (f : QueryFilter)
  | PTrackedView (q : QueryParam) (f : QueryFilter)
  | PCommands (outputs : option (list TypeId))
  | PMeta.

(** The states: a row, the absent placeholder of an outer join, or unit. *)
Inductive ParamState := SRow (e : Entity) | SAbsent | SUnit.
#[export] Instance ParamState_eq_dec : EqDecision ParamState.
Proof. solve_decision. Defined.

Definition row_states (rows : list Entity) : list ParamState := SRow <$> rows.

Inductive DeltaShape := Inert | Driver | PairBound | OpaqueShape.
#[export] Instance DeltaShape_eq_dec : EqDecision DeltaShape.
Proof. solve_decision. Defined.

(** How a row buffer is filled. *)
Inductive Binding := Unbound | Membership (key : TypeId) | Equality (key : TypeId) | Invalid.

(** Why [validate_bindings] rejects a system. *)
Inductive BindingError :=
  | OuterUnbound | ViewRelated | ViewBound (key : TypeId) | TrackedRelated | TrackedWrites
  | TrackedBound (key : TypeId) | TrackedIn (key : TypeId) | ProviderCount (key : TypeId) (found : nat).

Section params.
Context `{ComponentTypes} `{HashOrder}.
Implicit Types (w : World) (e : Entity) (ty key : TypeId) (q : QueryParam) (f : QueryFilter)
  (p : SystemParam) (s : ParamState) (hint : list Entity).

(** The type ids of the [Tracked<H>] markers. *)
Variable marker : list FacetPart → TypeId.

(** ** Join keys, providers and bounds of queries and filters *)

Fixpoint filter_bound_keys w f e : list (TypeId * option N) :=
  match f with
  | FEq ty => [(ty, row_fingerprint w ty e)]
  | FAnd l r | FWhereAnd l r => filter_bound_keys w l e ++ filter_bound_keys w r e
  | _ => []
  end.

Fixpoint filter_bound_key_types f : list TypeId :=
  match f with
  | FEq ty => [ty]
  | FAnd l r | FWhereAnd l r => filter_bound_key_types l ++ filter_bound_key_types r
  | _ => []
  end.

Fixpoint filter_in_keys f e : list (TypeId * Entity) :=
  match f with
  | FIn inv _ => [(inv, e)]
  | FAnd l r | FWhereAnd l r => filter_in_keys l e ++ filter_in_keys r e
  | _ => []
  end.

Fixpoint filter_in_key_types f : list TypeId :=
  match f with
  | FIn inv _ => [inv]
  | FAnd l r | FWhereAnd l r => filter_in_key_types l ++ filter_in_key_types r
  | _ => []
  end.

(** The targets of the [edge] components of the hinted entities. *)
Definition edge_targets w (edge : TypeId) hint : list Entity :=
  omap (λ m, v ← row_value w edge m; snd <$> value_edge edge v) hint.

Fixpoint filter_hint_providers w f hint : list Entity :=
  match f with
  | FEq ty => m ← hint; match row_fingerprint w ty m with
                        | Some k => entities_with_fingerprint w ty k
                        | None => []
                        end
  | FIn _ edge => edge_targets w edge hint
  | FAnd l r => filter_hint_providers w l hint ++ filter_hint_providers w r hint
  | _ => []
  end.

Definition filter_candidate_bound w f : N :=
  match f with FWith ty => N.min (store_len_dyn w ty) (u64_max - 1) | _ => u64_max end.

Definition part_hint_providers w part hint : list Entity :=
  match part with PartRelated _ edge _ => edge_targets w edge hint | _ => [] end.

Definition query_hint_providers w q hint : list Entity :=
  match q with ParamRow _ parts => part ← parts; part_hint_providers w part hint | _ => [] end.

Definition query_row_bound w q : N :=
  match q with
  | ParamRow fac parts =>
      foldl N.min (foldl N.min u64_max (part_store_len w <$> parts)) (store_len_dyn w <$> required_types fac)
  | _ => u64_max
  end.

Definition part_provides_key part key : bool :=
  match part with PartRef ty => bool_decide (key = ty) | _ => false end.
Definition query_provides_key q key : bool :=
  match q with
  | ParamRef ty => bool_decide (key = ty)
  | ParamRow _ parts => existsb (λ part, part_provides_key part key) parts
  | _ => false
  end.

Definition part_provided_key w part e key : option (option N) :=
  match part with
  | PartRef ty => if bool_decide (key = ty) then Some (row_fingerprint w ty e) else None
  | _ => None
  end.
Definition query_provided_key w q e key : option (option N) :=
  match q with
  | ParamRef ty => if bool_decide (key = ty) then Some (row_fingerprint w ty e) else None
  | ParamRow _ parts => first_some (λ part, part_provided_key w part e key) parts
  | _ => None
  end.

(** [snapshot.get::<T>(e).and_then(relationship_members)] *)
Definition members_of w ty e : option (list Entity) := v ← row_value w ty e; value_members ty v.

Definition part_provided_members w part e key : option (list Entity) :=
  match part with
  | PartRef ty => if bool_decide (key = ty) then members_of w ty e else None
  | _ => None
  end.
Definition query_provided_members w q e key : option (list Entity) :=
  match q with
  | ParamRef ty => if bool_decide (key = ty) then members_of w ty e else None
  | ParamRow _ parts => first_some (λ part, part_provided_members w part e key) parts
  | _ => None
  end.

Definition supports_whole_store_view q : bool :=
  match q with
  | ParamRow _ parts => forallb (λ part, match part with PartRelated _ _ _ => false | _ => true end) parts
  | _ => true
  end.

(** ** One parameter *)

Definition access_types q f : list TypeId :=
  acc_component <$> (param_access_all marker q ++ filter_access_all f).

(** [tracked_view_types]: sorted, without duplicates. *)
Definition tracked_view_types q f : list TypeId := sort_dedup (access_types q f).

Definition sp_interest p : option (list TypeId) :=
  match p with
  | PQuery q f | POuter q f => query_interest q f
  | PView _ _ | PCommands _ => Some []
  | PTrackedView q f => Some (tracked_view_types q f)
  | PMeta => None
  end.

Definition sp_states w p : result (list ParamState) :=
  match p with
  | PQuery q f => rows ← filtered_rows w q f; Done (row_states rows)
  | POuter q f => rows ← filtered_rows w q f; Done ((row_states rows) ++ [SAbsent])
  | PView _ _ | PTrackedView _ _ | PCommands _ | PMeta => Done [SUnit]
  end.

Definition sp_states_hinted w p hint : result (list ParamState) :=
  match p with
  | PQuery q f => rows ← filtered_rows_from_candidates w q f hint; Done (row_states rows)
  | _ => sp_states w p
  end.

Definition sp_row_bound w p : N :=
  match p with PQuery q f => N.min (query_row_bound w q) (filter_candidate_bound w f) | _ => u64_max end.

Definition sp_bound_key_types p : list TypeId :=
  match p with PQuery _ f | POuter _ f => filter_bound_key_types f | _ => [] end.
Definition sp_in_key_types p : list TypeId :=
  match p with PQuery _ f => filter_in_key_types f | _ => [] end.

Definition sp_pair_expandable p : bool :=
  match p with
  | PQuery _ f => bool_decide (length (filter_in_key_types f) + length (filter_bound_key_types f) = 1)
  | _ => false
  end.

Definition sp_delta_shape p : DeltaShape :=
  match p with
  | PQuery _ f =>
      if bool_decide (filter_bound_key_types f = []) && bool_decide (filter_in_key_types f = []) then Driver
      else if sp_pair_expandable p then PairBound
      else OpaqueShape
  | PView _ _ | PCommands _ => Inert
  | POuter _ _ | PTrackedView _ _ | PMeta => OpaqueShape
  end.

Definition sp_has_pair_bound p : bool :=
  match p with
  | PQuery _ f | POuter _ f =>
      negb (bool_decide (filter_bound_key_types f = [])) || negb (bool_decide (filter_in_key_types f = []))
  | _ => false
  end.

Definition sp_hint_providers w p hint : list Entity :=
  match p with PQuery q f => query_hint_providers w q hint ++ filter_hint_providers w f hint | _ => [] end.

Definition sp_keys s : list Entity := match s with SRow e => [e] | _ => [] end.

(** The absent invocation observes the joined stores as a whole. *)
Definition absent_deps w q f : list Dep :=
  (store_watermark_dep w <$> (acc_component <$> param_access_all marker q)) ++
  (store_watermark_dep w <$> filter_bound_key_types f).

Definition sp_deps w p s : result (list Dep) :=
  match p, s with
  | PQuery q f, SRow e | POuter q f, SRow e => filtered_deps w q f e
  | POuter q f, _ => Done (absent_deps w q f)
  | PTrackedView q f, _ => Done (store_watermark_dep w <$> tracked_view_types q f)
  | _, _ => Done []
  end.

(** Through [prepare]: only a query resolves its stores. *)
Definition sp_prepared_deps w p s : result (list Dep) :=
  match p, s with PQuery q f, SRow e => prepared_deps w q f e | _, _ => sp_deps w p s end.

Definition sp_access w p s : list Access :=
  match p, s with
  | PQuery q f, SRow e | POuter q f, SRow e => filtered_access w q f e
  | POuter q f, _ | PView q f, _ | PTrackedView q f, _ => param_access_all marker q ++ filter_access_all f
  | _, _ => []
  end.

Definition sp_written_types p : list TypeId :=
  match p with
  | PQuery q _ => acc_component <$> filter (λ a, acc_kind a = Write) (param_access_all marker q)
  | _ => []
  end.

Definition sp_view_sets p : list (list TypeId) :=
  match p with PView q _ => [acc_component <$> param_access_all marker q] | _ => [] end.
Definition sp_view_freshness p : list TypeId := match p with PView q f => access_types q f | _ => [] end.
Definition sp_tracked_store_types p : list TypeId :=
  match p with PTrackedView q f => tracked_view_types q f | _ => [] end.
Definition sp_declared_outputs p : option (list TypeId) :=
  match p with PCommands outputs => outputs | _ => Some [] end.
Definition sp_always_run p : bool := match p with PMeta => true | _ => false end.

Definition sp_bound_keys w p s : list (TypeId * option N) :=
  match p, s with PQuery _ f, SRow e | POuter _ f, SRow e => filter_bound_keys w f e | _, _ => [] end.
Definition sp_in_keys p s : list (TypeId * Entity) :=
  match p, s with PQuery _ f, SRow e => filter_in_keys f e | _, _ => [] end.
Definition sp_absent_keys p s : list TypeId :=
  match p, s with POuter _ f, SAbsent => filter_bound_key_types f | _, _ => [] end.

(** No row of the inner query carries the provider's key. *)
Definition sp_absent_binding_matches w p key (fingerprint : N) : result bool :=
  match p with
  | POuter q f =>
      rows ← filtered_rows w q f;
      Done (negb (existsb (λ e, existsb (λ '(row_key, row_fingerprint),
        bool_decide (row_key = key) && bool_decide (row_fingerprint = Some fingerprint))
        (filter_bound_keys w f e)) rows))
  | _ => Done true
  end.

Definition sp_provides_key p key : bool := match p with PQuery q _ => query_provides_key q key | _ => false end.
Definition sp_provided_key w p s key : option (option N) :=
  match p, s with PQuery q _, SRow e => query_provided_key w q e key | _, _ => None end.
Definition sp_provided_members w p s key : option (list Entity) :=
  match p, s with PQuery q _, SRow e => query_provided_members w q e key | _, _ => None end.

Definition sp_validate_local p : option BindingError :=
  match p with
  | POuter _ f => if bool_decide (filter_bound_key_types f = []) then Some OuterUnbound else None
  | PView q f =>
      if negb (supports_whole_store_view q) then Some ViewRelated
      else ViewBound <$> head (filter_bound_key_types f)
  | PTrackedView q f =>
      if negb (supports_whole_store_view q) then Some TrackedRelated
      else if existsb (λ a, bool_decide (acc_kind a = Write)) (param_access_all marker q) then Some TrackedWrites
      else match filter_bound_key_types f, filter_in_key_types f with
           | key :: _, _ => Some (TrackedBound key)
           | [], key :: _ => Some (TrackedIn key)
           | [], [] => None
           end
  | _ => None
  end.

(** ** Tuples of parameters *)

Implicit Types (ps : list SystemParam) (picked rows : list (SystemParam * ParamState)) (st : list ParamState).

Fixpoint concat_option {A} (l : list (option (list A))) : option (list A) :=
  match l with
  | [] => Some []
  | o :: l => match o, concat_option l with Some a, Some b => Some (a ++ b) | _, _ => None end
  end.

Definition tuple_interest ps : option (list TypeId) := concat_option (sp_interest <$> ps).

Definition tuple_delta_shape ps : DeltaShape :=
  if existsb (λ p, bool_decide (sp_delta_shape p = OpaqueShape)) ps then OpaqueShape
  else if existsb (λ p, bool_decide (sp_delta_shape p = Driver)) ps then Driver
  else OpaqueShape.

Definition tuple_has_pair_bound ps : bool := existsb sp_has_pair_bound ps.
Definition tuple_always_run ps : bool := existsb sp_always_run ps.
Definition tuple_declared_outputs ps : option (list TypeId) := concat_option (sp_declared_outputs <$> ps).

Definition tuple_keys st : list Entity := s ← st; sp_keys s.
Definition tuple_access w ps st : list Access := concat (zip_with (sp_access w) ps st).

Fixpoint tuple_deps (deps : SystemParam → ParamState → result (list Dep)) ps st : result (list Dep) :=
  match ps, st with
  | p :: ps, s :: st => a ← deps p s; b ← tuple_deps deps ps st; Done (a ++ b)
  | _, _ => Done []
  end.

(** *** Joining *)

Definition binding_of p : Binding :=
  if negb (sp_pair_expandable p) then Unbound
  else match sp_in_key_types p, sp_bound_key_types p with
       | key :: _, _ => Membership key
       | [], key :: _ => Equality key
       | [], [] => Invalid
       end.

(** [PreparedStates::extend] of the collector of a parameter. *)
Definition extend_rows w p (candidates : list Entity) : result (list ParamState) :=
  match p with
  | PQuery q f => rows ← prepared_rows w q f candidates; Done (row_states rows)
  | _ => sp_states w p
  end.

(** The rows of a parameter, given the rows picked for the ones before it. *)
Definition head_rows w p (buffer : list ParamState) picked : result (list ParamState) :=
  match binding_of p with
  | Unbound => Done buffer
  | Membership key =>
      members ← expect ProviderMissing (first_some (λ '(p, s), sp_provided_members w p s key) picked);
      extend_rows w p members
  | Equality key =>
      provided ← expect ProviderMissing (first_some (λ '(p, s), sp_provided_key w p s key) picked);
      fingerprint ← expect NotHashable provided;
      extend_rows w p (entities_with_fingerprint w key fingerprint)
  | Invalid => Panic ProviderMissing
  end.

(** [for_each_state!] *)
Fixpoint for_each_state w (buffers : list (SystemParam * list ParamState)) picked
    : result (list (list ParamState)) :=
  match buffers with
  | [] => Done [picked.*2]
  | (p, buffer) :: buffers =>
      rows ← head_rows w p buffer picked;
      flat_result (λ s, for_each_state w buffers (picked ++ [(p, s)])) rows
  end.

(** The first sibling that provides: parameter [i] itself is left out. *)
Definition sibling {A} (provide : SystemParam → ParamState → option A) rows (i : nat) : option A :=
  first_some (λ '(j, (p, s)), if bool_decide (j = i) then None else provide p s) (imap pair rows).

(** One entry per key a parameter of the tuple requires, with its index. *)
Definition indexed {A} (g : SystemParam → ParamState → list A) rows : list (nat * A) :=
  '(i, (p, s)) ← imap pair rows; pair i <$> g p s.

Definition check_bound w rows (x : nat * (TypeId * option N)) : result bool :=
  let '(i, (key, fingerprint)) := x in
  fingerprint ← expect NotHashable fingerprint;
  match sibling (λ p s, sp_provided_key w p s key) rows i with
  | Some (Some provider) => Done (bool_decide (provider = fingerprint))
  | Some None => Panic NotHashable
  | None => Done false
  end.

Definition check_membership w rows (x : nat * (TypeId * Entity)) : result bool :=
  let '(i, (key, member)) := x in
  members ← expect NoMembers (sibling (λ p s, sp_provided_members w p s key) rows i);
  Done (match binary_search members member with inl _ => true | inr _ => false end).

Definition check_absent w rows (x : nat * TypeId) : result bool :=
  let '(i, key) := x in
  provided ← expect NotHashable (sibling (λ p s, sp_provided_key w p s key) rows i);
  fingerprint ← expect NotHashable provided;
  match rows !! i with
  | Some (p, _) => sp_absent_binding_matches w p key fingerprint
  | None => Done true
  end.

Definition binding_matches w ps st : result bool :=
  let rows := zip ps st in
  bound ← all_result (check_bound w rows) (indexed (sp_bound_keys w) rows);
  if negb bound then Done false
  else
    membership ← all_result (check_membership w rows) (indexed sp_in_keys rows);
    if negb membership then Done false
    else all_result (check_absent w rows) (indexed sp_absent_keys rows).

Definition fill {A} (g : SystemParam → result A) ps : result (list (SystemParam * A)) :=
  flat_result (λ p, a ← g p; Done [(p, a)]) ps.

Definition needs_prune ps : bool :=
  existsb (λ p, (negb (bool_decide (sp_bound_key_types p = [])) || negb (bool_decide (sp_in_key_types p = [])))
                && negb (sp_pair_expandable p)) ps.

Definition tuple_states w ps : result (list (list ParamState)) :=
  buffers ← fill (λ p, if sp_pair_expandable p then Done [] else sp_states w p) ps;
  states ← for_each_state w buffers [];
  if needs_prune ps then filter_result (binding_matches w ps) states else Done states.

(** *** Narrowing to a hint *)

(** A driver that may have more than one row. *)
Definition large w p : bool := bool_decide (sp_delta_shape p = Driver) && bool_decide (1 < sp_row_bound w p)%N.

Definition expand_hint w ps hint : list Entity :=
  sort_dedup (hint ++ (p ← ps; sp_hint_providers w p hint)).

(** [None] when a tiny driver is dirty: everything is planned. *)
Definition hinted_buffer w hint p : result (option (list ParamState)) :=
  if bool_decide (sp_delta_shape p = PairBound) then Done (Some [])
  else if large w p then rows ← sp_states_hinted w p hint; Done (Some rows)
  else
    rows ← sp_states w p;
    Done (if bool_decide (sp_delta_shape p = Driver)
             && existsb (λ s, existsb (λ k, bool_decide (k ∈ hint)) (sp_keys s)) rows
          then None else Some rows).

(** The buffers, left to right up to the first dirty tiny driver. *)
Fixpoint hinted_buffers w hint ps : result (option (list (SystemParam * list ParamState))) :=
  match ps with
  | [] => Done (Some [])
  | p :: ps =>
      buffer ← hinted_buffer w hint p;
      match buffer with
      | None => Done None
      | Some buffer => buffers ← hinted_buffers w hint ps; Done (option_map (cons (p, buffer)) buffers)
      end
  end.

Definition tuple_states_hinted w ps hint : result (list (list ParamState)) :=
  if bool_decide (1 < length (filter (λ p, large w p = true) ps)) then tuple_states w ps
  else
    buffers ← hinted_buffers w (expand_hint w ps hint) ps;
    match buffers with
    | None => tuple_states w ps
    | Some buffers => for_each_state w buffers []
    end.

(** *** Registration *)

Definition count_providers ps (i : nat) key : nat :=
  length (filter (λ x : nat * SystemParam, x.1 ≠ i ∧ sp_provides_key x.2 key = true) (imap pair ps)).

Definition required_keys ps : list (nat * TypeId) :=
  '(i, p) ← imap pair ps; pair i <$> (sp_bound_key_types p ++ sp_in_key_types p).

Definition validate_bindings ps : option BindingError :=
  match first_some sp_validate_local ps with
  | Some err => Some err
  | None => first_some (λ '(i, key), let n := count_providers ps i key in
                          if bool_decide (n = 1) then None else Some (ProviderCount key n)) (required_keys ps)
  end.

(** [into_system] of a function with these parameters. *)
Definition into_system ps : result BoxedSystem :=
  _ ← check BindingRejected (bool_decide (validate_bindings ps = None));
  system_new (p ← ps; sp_view_sets p) (sort_dedup (p ← ps; sp_view_freshness p))
    (sort_dedup (p ← ps; sp_tracked_store_types p)) (sort_dedup (p ← ps; sp_written_types p))
    (tuple_declared_outputs ps) (tuple_interest ps) (bool_decide (tuple_delta_shape ps = Driver))
    (tuple_has_pair_bound ps).

(** [merge_declarations] of a hook around a system. *)
Definition merge_declarations (inner hook : option (list TypeId)) : option (list TypeId) :=
  match inner, hook with Some inner, Some hook => Some (inner ++ hook) | _, _ => None end.

(** A hook wraps the system under a fresh planning state. *)
Definition hooked_system (s : BoxedSystem) (hook : option (list TypeId)) : result BoxedSystem :=
  let outputs := merge_declarations (declared_outputs s) hook in
  _ ← validate_tracked_store_writes (tracked_store_types s) (written_types s) outputs;
  Done (MkSystem (sys_phase s) (view_sets s) (view_freshness s) (tracked_store_types s) (written_types s) outputs
          (interest s) u64_max (delta_eligible s) (pair_bound s) u64_max 0 []).

(** ** Planning *)

Record PlannedInvocation := MkPlanned {
  pl_state : list ParamState;
  pl_owner : SystemInvocation;
  pl_deps : list Dep;
  pl_access : list Access;
}.

Definition deps_eqb (a b : list Dep) : bool :=
  bool_decide (length a = length b) && forallb (λ '(x, y), dep_eqb x y) (zip a b).

(** The memo entry of [owner] records these dependencies. *)
Definition memo_hit (memo : gmap SystemInvocation MemoEntry) (owner : SystemInvocation) (deps : list Dep) : bool :=
  match memo !! owner with Some entry => deps_eqb (memo_deps entry) deps | None => false end.

Definition plan_state (system : SystemId) w ps (memo : gmap SystemInvocation MemoEntry) st
    : result (list PlannedInvocation) :=
  let owner := Invocation system (tuple_keys st) in
  deps ← tuple_deps (sp_prepared_deps w) ps st;
  if negb (tuple_always_run ps) && memo_hit memo owner deps then Done []
  else Done [MkPlanned st owner deps (tuple_access w ps st)].

(** [plan_prepared_with_scratch]: whether there was any row, and the rows the
    memo does not cover. *)
Definition plan_invocations (system : SystemId) w ps (memo : gmap SystemInvocation MemoEntry)
    (hint : option (list Entity)) : result (bool * list PlannedInvocation) :=
  states ← match hint with Some hint => tuple_states_hinted w ps hint | None => tuple_states w ps end;
  invocations ← flat_result (plan_state system w ps memo) states;
  Done (negb (bool_decide (states = [])), invocations).

(** [count_rows]: matched rows, and those the planner would skip. *)
Definition count_rows (system : SystemId) w ps (memo : gmap SystemInvocation MemoEntry) : result (nat * nat) :=
  states ← tuple_states w ps;
  memoized ← filter_result (λ st,
    deps ← tuple_deps (sp_deps w) ps st;
    Done (negb (tuple_always_run ps) && memo_hit memo (Invocation system (tuple_keys st)) deps)) states;
  Done (length states, length memoized).

(** ** Rows and hooks of a registered system *)

Definition run_rows (planned : list PlannedInvocation) : list (SystemInvocation * list Access) :=
  (λ i, (pl_owner i, pl_access i)) <$> planned.

(** [FunctionSystem::plan_rows]: the owner and the reservation of each row. *)
Definition plan_rows (system : SystemId) w ps (memo : gmap SystemInvocation MemoEntry)
    (hint : option (list Entity)) : result (list (SystemInvocation * list Access)) :=
  planned ← plan_invocations system w ps memo hint;
  Done (run_rows planned.2).

Definition has_work (system : SystemId) w ps (memo : gmap SystemInvocation MemoEntry) : result bool :=
  planned ← plan_invocations system w ps memo None;
  Done (negb (bool_decide (planned.2 = []))).

(** [on_start], [on_complete] and [on_settled] around a system. *)
Inductive Hook := OnStart | OnComplete | OnSettled.

(** A start or completion hook turns the rows of the system into one run, owned
    by the system without keys and without a reservation. *)
Definition hooked_rows (system : SystemId) (inner : list (SystemInvocation * list Access)) (hook : Hook)
    : list (SystemInvocation * list Access) :=
  match hook with
  | OnSettled => inner
  | OnStart | OnComplete => if bool_decide (inner = []) then [] else [(Invocation system [], [])]
  end.

(** [stream_runs] of a system with its hooks, innermost first. *)
Definition stream_runs (system : SystemId) w ps (hooks : list Hook) (memo : gmap SystemInvocation MemoEntry)
    (hint : option (list Entity)) : result (list (SystemInvocation * list Access)) :=
  rows ← plan_rows system w ps memo hint;
  Done (foldl (hooked_rows system) rows hooks).

(** The run of a batch: the rows' runs in order. *)
Definition merge_runs (runs : list SystemRun) : SystemRun :=
  foldl (λ merged run,
    MkRun (run_completed merged && run_completed run) (run_outputs merged ++ run_outputs run)
      (run_updates merged ++ run_updates run) (run_writes merged ++ run_writes run))
    (MkRun true [] [] []) runs.

Definition on_start_batch (start : SystemOutput) (runs : list SystemRun) : SystemRun :=
  let merged := merge_runs runs in
  MkRun (run_completed merged) (start :: run_outputs merged) (run_updates merged) (run_writes merged).

Definition on_complete_batch (complete : SystemOutput) (runs : list SystemRun) : SystemRun :=
  let merged := merge_runs runs in
  if bool_decide (length (run_outputs merged) = 0) then merged
  else MkRun (run_completed merged) (run_outputs merged ++ [complete]) (run_updates merged) (run_writes merged).

(** [run_settled]: the hook fires when every row is memoized and its previous
    output is gone. *)
Definition run_settled w (settled : SystemOutput) (run : SystemRun) : SystemRun :=
  if run_completed run && bool_decide (length (run_outputs run) = 0) && negb (has_derived_owned w (out_owner settled))
  then MkRun true [settled] [] []
  else run_empty.

(** Every run belongs to its system, as the phase loop assumes. *)
Lemma stream_runs_own system w ps hooks memo narrowed out owner accs :
  stream_runs system w ps hooks memo narrowed = Done out → (owner, accs) ∈ out → Prelude.system owner = system.
Proof.
  intros (inner & Hplan & [= <-])%bind_Done. unfold plan_rows in Hplan.
  apply bind_Done in Hplan as ([completed planned] & Hplan & [= <-]). simpl.
  assert (∀ o a, (o, a) ∈ run_rows planned → Prelude.system o = system) as Hinner.
  { intros o a (i & [= -> _] & Hi)%list_elem_of_fmap. unfold plan_invocations in Hplan.
    apply bind_Done in Hplan as (states & _ & Hp). apply bind_Done in Hp as (invs & Hinvs & [= _ ->]).
    apply (elem_of_flat_result _ _ _ i Hinvs) in Hi as (st & b & _ & Hb & Hi). unfold plan_state in Hb.
    apply bind_Done in Hb as (ds & _ & Hb). destruct (negb _ && _); injection Hb as <-;
      [by apply elem_of_nil in Hi|]. by apply list_elem_of_singleton in Hi as ->. }
  revert Hinner. generalize (run_rows planned). induction hooks as [|hook hooks IH]; intros l Hl.
  - apply Hl.
  - simpl. apply IH. intros o a. destruct hook; simpl; try apply Hl;
      (case_bool_decide; [by intros ?%elem_of_nil|]; by intros [= -> _]%list_elem_of_singleton).
Qed.

(** A start or completion hook releases the rows from the conflict rule: the
    batch holds no reservation, whatever its rows write in place. *)
Lemma hooked_batch_unreserved system w ps hook memo narrowed out :
  hook ≠ OnSettled → stream_runs system w ps [hook] memo narrowed = Done out → ∀ owner accs, (owner, accs) ∈ out → accs = [].
Proof.
  intros Hh (inner & _ & [= <-])%bind_Done owner accs. destruct hook; simpl; try done;
    (case_bool_decide; [by intros ?%elem_of_nil|]; by intros [= -> ->]%list_elem_of_singleton).
Qed.

Lemma merge_runs_updates runs : run_updates (merge_runs runs) = runs ≫= run_updates.
Proof.
  unfold merge_runs. assert (∀ m, run_updates (foldl (λ merged run,
    MkRun (run_completed merged && run_completed run) (run_outputs merged ++ run_outputs run)
      (run_updates merged ++ run_updates run) (run_writes merged ++ run_writes run)) m runs) =
    run_updates m ++ (runs ≫= run_updates)) as Hall; [|by rewrite Hall].
  induction runs as [|run runs IH]; intros m; simpl; [by rewrite app_nil_r|]. rewrite IH. simpl. by rewrite app_assoc.
Qed.
End params.
