(* ===== verification/Joins.v ===== *)
(** * What a tuple of parameters enumerates ([system.rs])

    The rows a system is planned for are the product of its parameters' rows
    restricted by the bound joins.  The engine does not build that product: rows
    of a bound join are enumerated from the row already picked for its provider,
    by membership or by fingerprint bucket, and only compound joins and outer
    joins are pruned afterwards.  The theorems: this gives the same rows as
    pruning the product, each once, and never fails for a system the engine
    registers; an invocation identifies its rows. *)
From stdpp Require Import base numbers sets gmap fin_maps sorting list.
From S2P Require Import Prelude Access.
From S2P Require Import Components Demo Stores Presence World WorldInv Ownership WorldOps Relations Frame.
From S2P Require Import Commands Query ExternalQuery Deps Planner Commit Params.

Section joins.
Context `{RelationshipLaws} `{HashOrder}.
Implicit Types (w : World) (e : Entity) (ty key : TypeId) (q : QueryParam) (f : QueryFilter)
  (p : SystemParam) (s : ParamState) (ps : list SystemParam) (rows picked : list (SystemParam * ParamState))
  (st : list ParamState).

(** ** Rows of one parameter *)

(** A facet handle on its own does not check the candidates it is given. *)
Definition checked q : Prop := match q with ParamEntity fac => required_types fac = [] | _ => True end.

Definition sound_param p : Prop :=
  match p with PQuery q f | POuter q f => row_driven q ∧ checked q | _ => True end.

Definition query_row w q f e : Prop :=
  (e < next_entity (shared w))%N ∧ row_matches w q e = true ∧ filter_matches w f e = true.

Definition param_row w p s : Prop :=
  match p, s with
  | PQuery q f, SRow e | POuter q f, SRow e => query_row w q f e
  | POuter _ _, SAbsent => True
  | PView _ _, SUnit | PTrackedView _ _, SUnit | PCommands _, SUnit | PMeta, SUnit => True
  | _, _ => False
  end.

Lemma sorted_NoDup (l : list N) : StronglySorted N.lt l → NoDup l.
Proof.
  induction 1 as [|x l Hs IH Hall]; constructor; [|done].
  rewrite List.Forall_forall in Hall. intros Hx%list_elem_of_In%Hall. lia.
Qed.

Lemma row_states_spec l s : s ∈ row_states l ↔ ∃ e, s = SRow e ∧ e ∈ l.
Proof. unfold row_states. rewrite list_elem_of_fmap. naive_solver. Qed.
Lemma row_states_NoDup l : NoDup l → NoDup (row_states l).
Proof. intros Hl. apply NoDup_fmap; [by intros ? ? [= ->]|done]. Qed.

Lemma hint_checked_checked q f : checked q → hint_checked q f.
Proof. destruct q; simpl; [by left|done..]. Qed.

Lemma query_rows_spec X w q f :
  wf X w → addressable w → row_driven q → checked q →
  ∃ l, filtered_rows w q f = Done l ∧ NoDup l ∧ ∀ e, e ∈ l ↔ query_row w q f e.
Proof.
  intros Hwf Hadd Hd Hc.
  destruct (filtered_rows_aux X w q f Hwf Hadd Hd (hint_checked_checked _ _ Hc)) as (l & -> & Hs & Hin).
  exists l. split; [done|]. split; [by apply sorted_NoDup|exact Hin].
Qed.

Lemma sp_states_spec X w p :
  wf X w → addressable w → sound_param p →
  ∃ l, sp_states w p = Done l ∧ NoDup l ∧ ∀ s, s ∈ l ↔ param_row w p s.
Proof.
  intros Hwf Hadd Hp.
  destruct p as [q f|q f|q f|q f|o|]; simpl in *.
  3-6: exists [SUnit]; (split; [done|]); (split; [apply NoDup_singleton|]); intros s;
    rewrite list_elem_of_singleton; destruct s; naive_solver.
  - destruct Hp as [Hd Hc]. destruct (query_rows_spec X w q f Hwf Hadd Hd Hc) as (l & -> & Hnd & Hin). simpl.
    eexists. split; [done|]. split; [by apply row_states_NoDup|]. intros s. rewrite row_states_spec.
    setoid_rewrite Hin. destruct s; naive_solver.
  - destruct Hp as [Hd Hc]. destruct (query_rows_spec X w q f Hwf Hadd Hd Hc) as (l & -> & Hnd & Hin). simpl.
    eexists. split; [done|]. split.
    + apply NoDup_app. split; [by apply row_states_NoDup|]. split; [|apply NoDup_singleton].
      intros s (e & -> & _)%row_states_spec ?%list_elem_of_singleton. done.
    + intros s. rewrite elem_of_app, row_states_spec, list_elem_of_singleton.
      setoid_rewrite Hin. destruct s; naive_solver.
Qed.

(** The candidates of a collector, restricted to the rows of the query. *)
Lemma prepared_rows_spec X w q f l :
  wf X w → checked q → NoDup l → (∀ e, e ∈ l → (e < next_entity (shared w))%N) →
  ∃ out, prepared_rows w q f l = Done out ∧ NoDup out ∧ ∀ e, e ∈ out ↔ e ∈ l ∧ query_row w q f e.
Proof.
  intros Hwf Hc Hnd Hb. rewrite (prepared_rows_plain X) by done. unfold filtered_rows_from_candidates.
  rewrite (rows_hinted_some X) by done. simpl. eexists. split; [done|].
  assert (∀ e, e ∈ l ∧ query_row w q f e ↔ e ∈ l ∧ row_matches w q e = true ∧ filter_matches w f e = true) as Hq.
  { intros e. unfold query_row. specialize (Hb e). tauto. }
  setoid_rewrite Hq. split.
  - apply NoDup_filter. destruct q; try done; by apply NoDup_filter.
  - intros e. rewrite list_elem_of_filter. destruct q as [fac|ty|ty|fac parts]; simpl.
    + rewrite Hc. simpl. tauto.
    + rewrite list_elem_of_filter. tauto.
    + rewrite list_elem_of_filter. tauto.
    + rewrite list_elem_of_filter. tauto.
Qed.

(** ** Providers *)

(** The first provider among the parameters picked so far. *)
Definition picked_key w picked key : option (option N) := first_some (λ '(p, s), sp_provided_key w p s key) picked.
Definition picked_members w picked key : option (list Entity) :=
  first_some (λ '(p, s), sp_provided_members w p s key) picked.

Lemma query_provided_key_inv w q e key x :
  query_provided_key w q e key = Some x → query_provides_key q key = true ∧ x = row_fingerprint w key e.
Proof.
  destruct q as [fac|ty|ty|fac parts]; simpl; try done.
  - case_bool_decide as Hk; [|done]. intros [= <-]. by subst.
  - intros (part & Hin & Hp)%first_some_Some. split.
    + apply existsb_elem_of. exists part. split; [done|]. destruct part; simpl in *; try done. by case_bool_decide.
    + destruct part; simpl in *; try done. case_bool_decide; naive_solver.
Qed.

Lemma query_provided_members_inv w q e key ms :
  query_provided_members w q e key = Some ms → query_provides_key q key = true ∧ members_of w key e = Some ms.
Proof.
  destruct q as [fac|ty|ty|fac parts]; simpl; try done.
  - case_bool_decide as Hk; [|done]. intros ?. by subst.
  - intros (part & Hin & Hp)%first_some_Some. split.
    + apply existsb_elem_of. exists part. split; [done|]. destruct part; simpl in *; try done. by case_bool_decide.
    + destruct part; simpl in *; try done. case_bool_decide; naive_solver.
Qed.

Lemma query_provides w q e key :
  query_provides_key q key = true → row_matches w q e = true →
  has w key e = true ∧ query_provided_key w q e key = Some (row_fingerprint w key e) ∧
  (∀ ms, members_of w key e = Some ms → query_provided_members w q e key = Some ms).
Proof.
  destruct q as [fac|ty|ty|fac parts]; simpl; try done.
  - intros Hk%bool_decide_eq_true Hm. subst. rewrite bool_decide_eq_true_2 by done. done.
  - intros (part & Hin & Hk)%existsb_elem_of [_ Hm]%andb_true_iff.
    destruct part as [ty| | | |]; try done. simpl in Hk. apply bool_decide_eq_true in Hk. subst ty.
    split; [exact (parts_match_elem w parts _ e Hm Hin)|]. split.
    + destruct (first_some_is_Some (λ part, part_provided_key w part e key) parts (PartRef key) Hin) as [x Hx].
      { simpl. rewrite bool_decide_eq_true_2 by done. by eexists. }
      rewrite Hx. f_equal. by apply (query_provided_key_inv w (ParamRow fac parts) e key).
    + intros ms Hms.
      destruct (first_some_is_Some (λ part, part_provided_members w part e key) parts (PartRef key) Hin) as [x Hx].
      { simpl. rewrite bool_decide_eq_true_2 by done. by eexists. }
      rewrite Hx. f_equal. apply (query_provided_members_inv w (ParamRow fac parts) e key) in Hx as [_ Hx]. congruence.
Qed.

(** A parameter that provides a key is a query, and its state a row. *)
Lemma sp_provides w p s key :
  sp_provides_key p key = true → param_row w p s →
  ∃ q f e, p = PQuery q f ∧ s = SRow e ∧ has w key e = true ∧
    sp_provided_key w p s key = Some (row_fingerprint w key e) ∧
    (∀ ms, members_of w key e = Some ms → sp_provided_members w p s key = Some ms).
Proof.
  destruct p as [q f|q f|q f|q f|o|]; try done. destruct s as [e| |]; try done. simpl.
  intros Hk (_ & Hm & _). destruct (query_provides w q e key Hk Hm) as (? & ? & ?). by exists q, f, e.
Qed.

(** What a system needs of the world for its joins: key components have
    fingerprints, inverses are maintained ones. *)
Definition hashed w key : Prop := ∀ e, has w key e = true → is_Some (row_fingerprint w key e).

Record joinable w ps : Prop := {
  jn_sound p : p ∈ ps → sound_param p;
  jn_hashed p key : p ∈ ps → key ∈ sp_bound_key_types p → hashed w key;
  jn_inverse p key : p ∈ ps → key ∈ sp_in_key_types p → is_Some (edge_of key);
}.

(** The provider of an expandable join comes before it. *)
Definition bound_key p : option TypeId :=
  match binding_of p with Membership key | Equality key => Some key | _ => None end.
Fixpoint providers_precede (before : list SystemParam) ps : bool :=
  match ps with
  | [] => true
  | p :: ps =>
      match bound_key p with Some key => existsb (λ p', sp_provides_key p' key) before | None => true end
      && providers_precede (before ++ [p]) ps
  end.

Lemma binding_cases p :
  match binding_of p with
  | Unbound => sp_pair_expandable p = false
  | Membership key => ∃ q f, p = PQuery q f ∧ sp_pair_expandable p = true ∧
      filter_in_key_types f = [key] ∧ filter_bound_key_types f = []
  | Equality key => ∃ q f, p = PQuery q f ∧ sp_pair_expandable p = true ∧
      filter_in_key_types f = [] ∧ filter_bound_key_types f = [key]
  | Invalid => False
  end.
Proof.
  unfold binding_of. destruct (sp_pair_expandable p) eqn:He; simpl; [|done].
  destruct p as [q f|q f|q f|q f|o|]; try done. simpl in *. apply bool_decide_eq_true in He.
  destruct (filter_in_key_types f) as [|k l] eqn:Hi; simpl in *.
  - destruct (filter_bound_key_types f) as [|k [|]] eqn:Hb; simpl in *; try lia. exists q, f. auto.
  - destruct l, (filter_bound_key_types f) eqn:Hb; simpl in *; try lia. exists q, f. auto.
Qed.

(** ** Rows of a bound join *)

(** The state agrees with the row picked for the provider. *)
Definition bound_ok w picked p s : Prop :=
  match binding_of p with
  | Unbound | Invalid => True
  | Membership key => ∃ ms e, picked_members w picked key = Some ms ∧ s = SRow e ∧ e ∈ ms
  | Equality key => ∃ k e, picked_key w picked key = Some (Some k) ∧ s = SRow e ∧ row_fingerprint w key e = Some k
  end.

(** Every state picked so far is a row of its parameter. *)
Definition all_rows w rows : Prop := Forall (λ x, param_row w x.1 x.2) rows.

Lemma picked_provider w picked key :
  all_rows w picked → existsb (λ p', sp_provides_key p' key) picked.*1 = true →
  ∃ p s q f e, (p, s) ∈ picked ∧ p = PQuery q f ∧ s = SRow e ∧ has w key e = true ∧
    is_Some (picked_key w picked key) ∧
    (∀ ms, members_of w key e = Some ms → is_Some (picked_members w picked key)).
Proof.
  intros Hall (p & Hin & Hk)%existsb_elem_of. apply list_elem_of_fmap in Hin as ([p' s] & -> & Hin).
  pose proof (proj1 (Forall_forall _ _) Hall _ Hin) as Hrow. simpl in *.
  destruct (sp_provides w p' s key Hk Hrow) as (q & f & e & -> & -> & Hhas & Hkey & Hms).
  exists (PQuery q f), (SRow e), q, f, e. split_and!; try done.
  - eapply first_some_is_Some; [exact Hin|]. simpl in *. rewrite Hkey. by eexists.
  - intros ms Hm. eapply first_some_is_Some; [exact Hin|]. simpl in *. rewrite (Hms _ Hm). by eexists.
Qed.

Lemma picked_key_inv w picked key x :
  picked_key w picked key = Some x →
  ∃ p q f e, (p, SRow e) ∈ picked ∧ p = PQuery q f ∧ sp_provides_key p key = true ∧ x = row_fingerprint w key e.
Proof.
  intros ([p s] & Hin & Hk)%first_some_Some.
  destruct p as [q f|q f|q f|q f|o|], s as [e| |]; try done. simpl in Hk.
  apply query_provided_key_inv in Hk as [? ->]. by exists (PQuery q f), q, f, e.
Qed.

Lemma picked_members_inv w picked key ms :
  picked_members w picked key = Some ms →
  ∃ p q f e, (p, SRow e) ∈ picked ∧ p = PQuery q f ∧ sp_provides_key p key = true ∧ members_of w key e = Some ms.
Proof.
  intros ([p s] & Hin & Hk)%first_some_Some.
  destruct p as [q f|q f|q f|q f|o|], s as [e| |]; try done. simpl in Hk.
  apply query_provided_members_inv in Hk as [? ?]. by exists (PQuery q f), q, f, e.
Qed.

(** A row of the inverse has a list of members: the sources pointing at it. *)
Lemma members_spec w key e :
  rel_ok w → is_Some (edge_of key) → has w key e = true →
  ∃ ms, members_of w key e = Some ms ∧ StronglySorted N.lt ms ∧ ∀ m, m ∈ ms ↔ points_to w key e m.
Proof.
  intros Hrel Hinv [entry He]%has_row. destruct (Hrel key e Hinv) as [Hex _]. unfold exact in Hex.
  change (members_of w key e) with (members_at w key e).
  destruct (members_at w key e) as [ms|]; [|by destruct Hex as [? _]; congruence].
  destruct Hex as (? & _ & ?). by exists ms.
Qed.

Lemma points_to_has w key e m : points_to w key e m → ∃ ty, has w ty m = true.
Proof.
  intros (ty & He). exists ty. apply has_row. unfold edge_target, row_value in He.
  destruct (row w ty m); [by eexists|done].
Qed.

Lemma bucket_spec X w key k :
  wf X w → NoDup (entities_with_fingerprint w key k) ∧
    ∀ e, e ∈ entities_with_fingerprint w key k ↔ row_fingerprint w key e = Some k.
Proof. intros Hwf. destruct (exactly_fingerprint X w key k Hwf) as [Hs Hin]. split; [by apply sorted_NoDup|done]. Qed.

Lemma fingerprint_has w ty e k : row_fingerprint w ty e = Some k → has w ty e = true.
Proof. intros Hk. apply has_row. unfold row_fingerprint, row in *. destruct (store_of w ty) as [st|]; [|done].
  simpl in *. destruct (entries st !! e); [by eexists|done]. Qed.

Section world.
Context (X : taken) (w : World).
Hypothesis (Hwf : wf X w) (Hadd : addressable w) (Hrel : rel_ok w).

Lemma head_rows_spec ps p buffer picked :
  joinable w ps → p ∈ ps → all_rows w picked → NoDup buffer →
  (∀ key, bound_key p = Some key → existsb (λ p', sp_provides_key p' key) picked.*1 = true) →
  ∃ out, head_rows w p buffer picked = Done out ∧ NoDup out ∧
    ∀ s, s ∈ out ↔ match binding_of p with
                   | Unbound => s ∈ buffer
                   | _ => param_row w p s ∧ bound_ok w picked p s
                   end.
Proof.
  intros Hj Hp Hpicked Hnd Hprov. unfold head_rows, bound_ok, bound_key in *.
  pose proof (binding_cases p) as Hcase.
  destruct (binding_of p) as [|key|key|]; [by eexists| | |done];
    destruct Hcase as (q & f & -> & _ & Hin & Hbound);
    destruct (jn_sound _ _ Hj _ Hp) as [_ Hc];
    destruct (picked_provider w picked key Hpicked (Hprov _ eq_refl)) as (p' & s' & q' & f' & e' & Hin' & -> & -> & Hhas & Hkey & Hms).
  - assert (is_Some (edge_of key)) as Hinv by (eapply (jn_inverse _ _ Hj); [exact Hp|]; simpl; rewrite Hin; by left).
    destruct (members_spec w key e' Hrel Hinv Hhas) as (ms' & Hms' & _).
    destruct (Hms _ Hms') as [ms Hpm]. unfold picked_members in *. rewrite Hpm. simpl.
    apply picked_members_inv in Hpm as Hpi. destruct Hpi as (p2 & q2 & f2 & e2 & _ & _ & _ & Hm2).
    assert (has w key e2 = true) as Hhas2.
    { apply has_row. unfold members_of, row_value in Hm2. destruct (row w key e2); [by eexists|done]. }
    destruct (members_spec w key e2 Hrel Hinv Hhas2) as (ms2 & Heq & Hsort & Hpoint).
    assert (ms2 = ms) as -> by congruence.
    destruct (prepared_rows_spec X w q f ms Hwf Hc (sorted_NoDup _ Hsort)) as (out & -> & Hnd' & Hout).
    { intros m (ty & Hty)%Hpoint%points_to_has. by apply (proj1 Hadd ty). }
    simpl. eexists. split; [done|]. split; [by apply row_states_NoDup|]. intros s. rewrite row_states_spec.
    setoid_rewrite Hout. destruct s; naive_solver.
  - unfold picked_key in *. destruct Hkey as [x Hx]. rewrite Hx. simpl.
    apply picked_key_inv in Hx as Hpi. destruct Hpi as (p2 & q2 & f2 & e2 & Hin2 & -> & Hk2 & ->).
    pose proof (proj1 (Forall_forall _ _) Hpicked _ Hin2) as Hrow2. simpl in Hrow2.
    destruct (sp_provides w (PQuery q2 f2) (SRow e2) key Hk2 Hrow2) as (? & ? & ? & [= <- <-] & [= <-] & Hhas2 & _).
    destruct (jn_hashed _ _ Hj (PQuery q f) key Hp) with (e := e2) as [k Hk]; [simpl; rewrite Hbound; by left|done|]. rewrite Hk. simpl.
    destruct (bucket_spec X w key k Hwf) as [Hbn Hbs].
    destruct (prepared_rows_spec X w q f _ Hwf Hc Hbn) as (out & -> & Hnd' & Hout).
    { intros m Hm%Hbs%fingerprint_has. by apply (proj1 Hadd key). }
    simpl. eexists. split; [done|]. split; [by apply row_states_NoDup|]. intros s. rewrite row_states_spec.
    setoid_rewrite Hout. setoid_rewrite Hbs. destruct s; naive_solver.
Qed.

(** ** The product *)

Fixpoint joined picked rows : Prop :=
  match rows with
  | [] => True
  | (p, s) :: rows => bound_ok w picked p s ∧ joined (picked ++ [(p, s)]) rows
  end.

Definition buffered (x : SystemParam * list ParamState) s : Prop :=
  match binding_of x.1 with Unbound => s ∈ x.2 | _ => param_row w x.1 s end.

Lemma for_each_exact ps buffers picked :
  joinable w ps → (∀ x, x ∈ buffers → x.1 ∈ ps ∧ NoDup x.2 ∧ ∀ s, s ∈ x.2 → param_row w x.1 s) →
  all_rows w picked → providers_precede picked.*1 buffers.*1 = true →
  ∃ out, for_each_state w buffers picked = Done out ∧ NoDup out ∧
    ∀ x, x ∈ out ↔ ∃ st, x = picked.*2 ++ st ∧ Forall2 buffered buffers st ∧ joined picked (zip buffers.*1 st).
Proof.
  intros Hj. revert picked. induction buffers as [|[p buffer] buffers IH]; intros picked Hbufs Hpicked Hprec; simpl in *.
  - eexists. split; [done|]. split; [apply NoDup_singleton|]. intros x. rewrite list_elem_of_singleton. split.
    + intros ->. exists []. rewrite app_nil_r. split_and!; [done|constructor|done].
    + intros (st & -> & Hst & _). apply Forall2_nil_inv_l in Hst as ->. by rewrite app_nil_r.
  - apply andb_true_iff in Hprec as [Hprov Hprec].
    destruct (Hbufs (p, buffer) ltac:(left)) as (Hp & Hnd & Hsub).
    destruct (head_rows_spec ps p buffer picked Hj Hp Hpicked Hnd) as (rows & -> & Hrnd & Hrows).
    { intros key Hkey. by rewrite Hkey in Hprov. }
    simpl. set (g s := for_each_state w buffers (picked ++ [(p, s)])).
    assert (∀ s, s ∈ rows → param_row w p s) as Hok.
    { intros s Hs%Hrows. destruct (binding_of p); [by apply Hsub|tauto..]. }
    assert (∀ s, param_row w p s → ∃ out, g s = Done out ∧ NoDup out ∧ ∀ x, x ∈ out ↔
      ∃ st, x = (picked ++ [(p, s)]).*2 ++ st ∧ Forall2 buffered buffers st ∧
            joined (picked ++ [(p, s)]) (zip buffers.*1 st)) as Hg.
    { intros s Hs. apply IH.
      - intros x Hx. apply Hbufs. by right.
      - apply Forall_app. split; [done|]. by apply Forall_singleton.
      - by rewrite fmap_app. }
    destruct (flat_result_total g rows) as [out Hout].
    { intros s Hs. destruct (Hg s (Hok s Hs)) as (o & ? & _). by exists o. }
    exists out. split; [done|]. split.
    + assert (∀ s, s ∈ rows → ∃ o, g s = Done o ∧ NoDup o ∧ ∀ x, x ∈ o → x !! length picked = Some s) as Hat.
      { intros s Hs. destruct (Hg s (Hok s Hs)) as (o & Ho & Hon & Hox). exists o. split; [done|]. split; [done|].
        intros x (st & -> & _)%Hox. rewrite fmap_app, <-app_assoc. rewrite lookup_app_r by (by rewrite length_fmap).
        by rewrite length_fmap, Nat.sub_diag. }
      clear -Hout Hrnd Hat. revert out Hout. induction rows as [|s rows IHr]; intros out; simpl; [intros [= <-]; constructor|].
      intros (o & Ho & Hr)%bind_Done. apply bind_Done in Hr as (os & Hos & [= <-]).
      apply NoDup_cons in Hrnd as [Hs Hrnd]. destruct (Hat s ltac:(left)) as (o' & Ho' & Hon & Hox).
      rewrite Ho in Ho'. injection Ho' as <-. apply NoDup_app. split; [done|]. split.
      * intros x Hx Hx'. apply (elem_of_flat_result g rows os x Hos) in Hx' as (s' & o' & Hs' & Ho' & Hx').
        destruct (Hat s' ltac:(by right)) as (o'' & Ho'' & _ & Hox'). rewrite Ho' in Ho''. injection Ho'' as <-.
        apply Hox in Hx. apply Hox' in Hx'. congruence.
      * apply IHr; [done| |done]. intros s' ?. apply Hat. by right.
    + intros x. rewrite (elem_of_flat_result g rows out x Hout). split.
      * intros (s & o & Hs & Ho & Hx). destruct (Hg s (Hok s Hs)) as (o' & Ho' & _ & Hox).
        rewrite Ho in Ho'. injection Ho' as <-. apply Hox in Hx as (st & -> & Hst & Hjoin).
        exists (s :: st). rewrite fmap_app, <-app_assoc. split; [done|]. apply Hrows in Hs. split.
        -- constructor; [|done]. unfold buffered. simpl. destruct (binding_of p); tauto.
        -- simpl. split; [|done]. unfold bound_ok in *. destruct (binding_of p); tauto.
      * intros (st & -> & Hst & Hjoin). apply Forall2_cons_inv_l in Hst as (s & st' & Hs & Hst & ->).
        destruct Hjoin as [Hb Hjoin]. assert (s ∈ rows) as Hin.
        { apply Hrows. unfold buffered, bound_ok in *. simpl in Hs. destruct (binding_of p); tauto. }
        destruct (Hg s (Hok s Hin)) as (o & Ho & _ & Hox). exists s, o. split; [done|]. split; [done|].
        apply Hox. exists st'. rewrite fmap_app, <-app_assoc. done.
Qed.
End world.

(** ** Bindings of a whole tuple *)

Lemma filter_bound_keys_types w f e :
  filter_bound_keys w f e = (λ key, (key, row_fingerprint w key e)) <$> filter_bound_key_types f.
Proof. induction f; simpl; try done; rewrite fmap_app; congruence. Qed.

Lemma filter_in_keys_types f e : filter_in_keys f e = (λ key, (key, e)) <$> filter_in_key_types f.
Proof. induction f; simpl; try done; rewrite fmap_app; congruence. Qed.

(** The row of a filter has the components it binds on. *)
Lemma filter_bound_has w f e key :
  filter_matches w f e = true → key ∈ filter_bound_key_types f → has w key e = true.
Proof.
  induction f as [|ty|ty|ty|inv edge|l IHl r IHr|l IHl r IHr]; simpl; try (by intros _ ?%elem_of_nil).
  - by intros ? ->%list_elem_of_singleton.
  - intros [? ?]%andb_true_iff [?|?]%elem_of_app; auto.
  - intros [? ?]%andb_true_iff [?|?]%elem_of_app; auto.
Qed.

Lemma elem_of_indexed {A} (g : SystemParam → ParamState → list A) rows i a :
  (i, a) ∈ indexed g rows ↔ ∃ p s, rows !! i = Some (p, s) ∧ a ∈ g p s.
Proof.
  unfold indexed. rewrite list_elem_of_bind. split.
  - intros ([j [p s]] & Hin & Hrow). apply list_elem_of_fmap in Hin as (x & [= <- <-] & Hx).
    apply elem_of_lookup_imap in Hrow as (j0 & [p0 s0] & Heq & Hrow). injection Heq as -> -> ->. by exists p0, s0.
  - intros (p & s & Hrow & Ha). exists (i, (p, s)). split; [apply list_elem_of_fmap; by exists a|].
    apply elem_of_lookup_imap. by exists i, (p, s).
Qed.

Lemma first_some_imap {A} (provide : SystemParam → ParamState → option A) rows i k :
  k + length rows ≤ i →
  first_some (λ '(j, (p, s)), if bool_decide (j = i) then None else provide p s) (imap (λ j x, (k + j, x)) rows)
  = first_some (λ '(p, s), provide p s) rows.
Proof.
  revert k. induction rows as [|[p s] rows IH]; intros k Hk; [done|]. simpl in *.
  rewrite bool_decide_eq_false_2 by lia. destruct (provide p s); [done|].
  rewrite <-(IH (S k)) by lia. f_equal. apply imap_ext. intros j x _. simpl. f_equal. lia.
Qed.

Lemma sibling_prefix {A} (provide : SystemParam → ParamState → option A) rows i x :
  first_some (λ '(p, s), provide p s) (take i rows) = Some x → sibling provide rows i = Some x.
Proof.
  intros Hx. unfold sibling. rewrite <-(take_drop i rows), imap_app, first_some_app.
  pose proof (first_some_imap provide (take i rows) i 0 ltac:(rewrite length_take; lia)) as Hpre.
  simpl in Hpre. change (imap (λ j x, (j, x)) (take i rows)) with (imap pair (take i rows)) in Hpre.
  by rewrite Hpre, Hx.
Qed.

(** Some other parameter that provides makes the sibling known. *)
Lemma sibling_known {A} (provide : SystemParam → ParamState → option A) rows i j p s :
  rows !! j = Some (p, s) → j ≠ i → is_Some (provide p s) → is_Some (sibling provide rows i).
Proof.
  intros Hrow Hne Hp. eapply (first_some_is_Some _ _ (j, (p, s))).
  - apply elem_of_lookup_imap. by exists j, (p, s).
  - simpl. by rewrite bool_decide_eq_false_2.
Qed.

Lemma sibling_inv {A} (provide : SystemParam → ParamState → option A) rows i x :
  sibling provide rows i = Some x → ∃ p s, (p, s) ∈ rows ∧ provide p s = Some x.
Proof.
  intros ([j [p s]] & Hin & Hp)%first_some_Some.
  apply elem_of_lookup_imap in Hin as (j0 & [p0 s0] & Heq & Hrow). injection Heq as -> -> ->.
  case_bool_decide; [done|]. exists p0, s0. split; [|done]. by eapply list_elem_of_lookup_2.
Qed.

Lemma joined_lookup w picked rows :
  joined w picked rows ↔ ∀ i p s, rows !! i = Some (p, s) → bound_ok w (picked ++ take i rows) p s.
Proof.
  revert picked. induction rows as [|[p s] rows IH]; intros picked; simpl; [done|]. rewrite IH. split.
  - intros [Hb Hr] [|i] p' s' Hi; simpl in *; [injection Hi as <- <-; by rewrite app_nil_r|].
    specialize (Hr i p' s' Hi). by rewrite <-app_assoc in Hr.
  - intros Hall. split; [specialize (Hall 0 p s eq_refl); by rewrite app_nil_r in Hall|].
    intros i p' s' Hi. specialize (Hall (S i) p' s' Hi). by rewrite <-app_assoc.
Qed.

Lemma binary_search_elem l x :
  StronglySorted N.lt l → (match binary_search l x with inl _ => true | inr _ => false end) = bool_decide (x ∈ l).
Proof.
  intros Hs. destruct (binary_search l x) eqn:Hb; symmetry.
  - apply bool_decide_eq_true. by eapply list_elem_of_lookup_2, binary_search_found.
  - apply bool_decide_eq_false. exact (proj1 (binary_search_missing _ _ _ Hs Hb)).
Qed.


Variable marker : list FacetPart → TypeId.

Lemma validated ps i p key :
  validate_bindings marker ps = None → ps !! i = Some p → key ∈ sp_bound_key_types p ++ sp_in_key_types p →
  ∃ j p', j ≠ i ∧ ps !! j = Some p' ∧ sp_provides_key p' key = true.
Proof.
  unfold validate_bindings. destruct (first_some (sp_validate_local marker) ps); [done|].
  intros Hall Hp Hkey. rewrite first_some_None in Hall. specialize (Hall (i, key)). simpl in Hall.
  case_bool_decide as Hn; [clear Hall|exfalso; assert ((i, key) ∈ required_keys ps) as Hr; [|by apply Hall in Hr]].
  2: { unfold required_keys. apply list_elem_of_bind. exists (i, p). split; [by apply list_elem_of_fmap; exists key|].
       apply elem_of_lookup_imap. by exists i, p. }
  unfold count_providers in Hn. destruct (filter _ (imap pair ps)) as [|[j p'] l] eqn:Hf; [done|].
  assert ((j, p') ∈ (j, p') :: l) as Hin by by left. rewrite <-Hf in Hin.
  apply list_elem_of_filter in Hin as [[Hne Hpr] Hin]. apply elem_of_lookup_imap in Hin as (j0 & p0 & Heq & Hl).
  injection Heq as -> ->. by exists j0, p0.
Qed.

Lemma precede_lookup before ps i p key :
  providers_precede before ps = true → ps !! i = Some p → bound_key p = Some key →
  existsb (λ p', sp_provides_key p' key) (before ++ take i ps) = true.
Proof.
  revert before i. induction ps as [|p0 ps IH]; intros before i; [done|]. simpl.
  intros [Hp Hps]%andb_true_iff. destruct i as [|i]; simpl.
  - intros [= ->] Hk. rewrite Hk in Hp. by rewrite app_nil_r.
  - intros Hi Hk. specialize (IH _ _ Hps Hi Hk). by rewrite <-app_assoc in IH.
Qed.

(** What the engine checks of a system before it plans it. *)
Record registered ps : Prop := {
  rg_valid : validate_bindings marker ps = None;
  rg_precede : providers_precede [] ps = true;
}.

Section tuple.
Context (X : taken) (w : World) (ps : list SystemParam).
Hypothesis (Hwf : wf X w) (Hadd : addressable w) (Hrel : rel_ok w).
Hypothesis (Hj : joinable w ps) (Hreg : registered ps).

Lemma zip_rows st i p s :
  zip ps st !! i = Some (p, s) → Forall2 (param_row w) ps st → ps !! i = Some p ∧ st !! i = Some s ∧ param_row w p s.
Proof.
  intros Hi Hst. apply lookup_zip_Some in Hi as [Hp Hs]. split_and!; try done. by eapply Forall2_lookup_lr.
Qed.

Lemma rows_all st : Forall2 (param_row w) ps st → all_rows w (zip ps st).
Proof.
  intros Hst. apply Forall_forall. intros [p s] [i Hi]%list_elem_of_lookup. by apply (zip_rows st i p s Hi Hst).
Qed.

(** Whoever needs a key finds its provider's row. *)
Lemma sibling_provider st i p s key :
  Forall2 (param_row w) ps st → zip ps st !! i = Some (p, s) → key ∈ sp_bound_key_types p ++ sp_in_key_types p →
  is_Some (sibling (λ p s, sp_provided_key w p s key) (zip ps st) i) ∧
  (is_Some (edge_of key) → is_Some (sibling (λ p s, sp_provided_members w p s key) (zip ps st) i)).
Proof.
  intros Hst Hi Hkey. destruct (zip_rows st i p s Hi Hst) as (Hp & _ & _).
  destruct (validated ps i p key (rg_valid _ Hreg) Hp Hkey) as (j & p' & Hne & Hp' & Hprov).
  destruct (Forall2_lookup_l _ _ _ _ _ Hst Hp') as (s' & Hs' & Hrow').
  assert (zip ps st !! j = Some (p', s')) as Hz by (apply lookup_zip_Some; done).
  destruct (sp_provides w p' s' key Hprov Hrow') as (q & f & e & -> & -> & Hhas & Hk & Hms).
  split; [|intros Hinv; destruct (members_spec w key e Hrel Hinv Hhas) as (ms & Hm & _)];
    (eapply sibling_known; [exact Hz|done|]); [rewrite Hk|rewrite (Hms _ Hm)]; by eexists.
Qed.

Lemma sibling_key_hashed st p key i x :
  Forall2 (param_row w) ps st → p ∈ ps → key ∈ sp_bound_key_types p →
  sibling (λ p s, sp_provided_key w p s key) (zip ps st) i = Some x → is_Some x.
Proof.
  intros Hst Hp Hkey (p' & s' & Hin & Hx)%sibling_inv.
  pose proof (proj1 (Forall_forall _ _) (rows_all st Hst) _ Hin) as Hrow. simpl in Hrow.
  destruct p' as [q f|q f|q f|q f|o|], s' as [e| |]; try done. simpl in Hx.
  apply query_provided_key_inv in Hx as [Hk ->]. eapply (jn_hashed _ _ Hj); [done..|].
  by destruct (query_provides w q e key Hk (proj1 (proj2 Hrow))).
Qed.

(** No check panics on rows of the product. *)
Lemma checks_total st :
  Forall2 (param_row w) ps st → ∃ b, binding_matches w ps st = Done b.
Proof.
  intros Hst. unfold binding_matches. set (rows := zip ps st).
  destruct (all_result_total (check_bound w rows) (indexed (sp_bound_keys w) rows)) as [b1 ->].
  { intros [i [key fp]] Hin. apply elem_of_indexed in Hin as (p & s & Hi & Ha).
    destruct (zip_rows st i p s Hi Hst) as (Hp & _ & Hrow).
    assert (p ∈ ps) as Hpin by by eapply list_elem_of_lookup_2.
    assert (key ∈ sp_bound_key_types p ∧ ∃ e, fp = row_fingerprint w key e ∧ has w key e = true) as (Hkey & e & -> & Hhas).
    { destruct p as [q f|q f|q f|q f|o|], s as [e| |]; simpl in *; try (by apply elem_of_nil in Ha);
        rewrite filter_bound_keys_types in Ha; apply list_elem_of_fmap in Ha as (key' & [= <- ->] & Hkey);
        (split; [done|]); exists e; (split; [done|]); eapply filter_bound_has; [apply Hrow|done|apply Hrow|done]. }
    simpl. destruct (jn_hashed _ _ Hj p key Hpin Hkey e Hhas) as [k ->]. simpl.
    destruct (sibling_provider st i p s key Hst Hi) as [[x Hx] _]; [apply elem_of_app; by left|].
    fold rows in Hx. rewrite Hx. destruct (sibling_key_hashed st p key i x Hst Hpin Hkey Hx) as [k' ->]. by eexists. }
  simpl. destruct b1; simpl; [|by eexists].
  destruct (all_result_total (check_membership w rows) (indexed sp_in_keys rows)) as [b2 ->].
  { intros [i [key m]] Hin. apply elem_of_indexed in Hin as (p & s & Hi & Ha).
    destruct (zip_rows st i p s Hi Hst) as (Hp & _ & Hrow).
    assert (p ∈ ps) as Hpin by by eapply list_elem_of_lookup_2.
    assert (key ∈ sp_in_key_types p) as Hkey.
    { destruct p as [q f|q f|q f|q f|o|], s as [e| |]; simpl in *; try (by apply elem_of_nil in Ha).
      rewrite filter_in_keys_types in Ha. by apply list_elem_of_fmap in Ha as (key' & [= <- ->] & Hkey). }
    simpl. destruct (sibling_provider st i p s key Hst Hi) as [_ Hms]; [apply elem_of_app; by right|].
    destruct (Hms (jn_inverse _ _ Hj p key Hpin Hkey)) as [ms Hx]. fold rows in Hx. rewrite Hx. by eexists. }
  simpl. destruct b2; simpl; [|by eexists]. apply all_result_total.
  intros [i key] Hin. apply elem_of_indexed in Hin as (p & s & Hi & Ha).
  destruct (zip_rows st i p s Hi Hst) as (Hp & _ & Hrow).
  assert (p ∈ ps) as Hpin by by eapply list_elem_of_lookup_2.
  destruct p as [q f|q f|q f|q f|o|], s as [e| |]; simpl in Ha; try (by apply elem_of_nil in Ha).
  unfold check_absent. destruct (sibling_provider st i _ _ key Hst Hi) as [[x Hx] _]; [apply elem_of_app; by left|].
  fold rows in Hx. rewrite Hx. simpl.
  destruct (sibling_key_hashed st (POuter q f) key i x Hst Hpin Ha Hx) as [k ->]. simpl.
  change (rows !! i = Some (POuter q f, SAbsent)) in Hi. rewrite Hi. simpl.
  destruct (jn_sound _ _ Hj _ Hpin) as [Hd Hc]. destruct (query_rows_spec X w q f Hwf Hadd Hd Hc) as (l & -> & _).
  by eexists.
Qed.

Lemma take_rows st i : Forall2 (param_row w) ps st → (take i (zip ps st)).*1 = take i ps.
Proof. intros Hst. rewrite fmap_take, fst_zip; [done|]. by rewrite (Forall2_length _ _ _ Hst). Qed.

Lemma rows_before st i : Forall2 (param_row w) ps st → all_rows w (take i (zip ps st)).
Proof. intros Hst. by apply Forall_take, rows_all. Qed.

(** The provider of an expandable join has been picked before it. *)
Lemma picked_before st i p s key :
  Forall2 (param_row w) ps st → zip ps st !! i = Some (p, s) → bound_key p = Some key →
  existsb (λ p', sp_provides_key p' key) (take i (zip ps st)).*1 = true.
Proof.
  intros Hst Hi Hk. rewrite take_rows by done. destruct (zip_rows st i p s Hi Hst) as (Hp & _).
  by apply (precede_lookup [] ps i p key (rg_precede _ Hreg)).
Qed.

Lemma members_sorted st i key ms :
  Forall2 (param_row w) ps st → is_Some (edge_of key) → picked_members w (take i (zip ps st)) key = Some ms →
  StronglySorted N.lt ms.
Proof.
  intros Hst Hinv (p & q & f & e & _ & _ & _ & Hms)%picked_members_inv.
  assert (has w key e = true) as Hhas.
  { apply has_row. unfold members_of, row_value in Hms. destruct (row w key e); [by eexists|done]. }
  destruct (members_spec w key e Hrel Hinv Hhas) as (ms' & Hms' & Hs & _). congruence.
Qed.

Lemma joined_of_checks st :
  Forall2 (param_row w) ps st → binding_matches w ps st = Done true → joined w [] (zip ps st).
Proof.
  intros Hst Hb. apply joined_lookup. intros i p s Hi. simpl.
  destruct (zip_rows st i p s Hi Hst) as (Hp & _ & Hrow).
  assert (p ∈ ps) as Hpin by by eapply list_elem_of_lookup_2.
  unfold binding_matches in Hb. apply bind_Done in Hb as ([] & Hbound & Hb); [|done].
  apply bind_Done in Hb as ([] & Hmem & Hb); [|done]. clear Hb. rewrite all_result_true in Hbound. rewrite all_result_true in Hmem.
  assert (∀ key, bound_key p = Some key → existsb (λ p', sp_provides_key p' key) (take i (zip ps st)).*1 = true) as Hprov.
  { intros key. by apply picked_before with s. }
  unfold bound_ok, bound_key in *. pose proof (binding_cases p) as Hcase.
  destruct (binding_of p) as [|key|key|]; [done| | |done]; destruct Hcase as (q & f & -> & _ & Hin & Hbk);
    destruct s as [e| |]; try done;
    destruct (picked_provider w _ key (rows_before st i Hst) (Hprov _ eq_refl))
      as (p' & s' & q' & f' & e' & Hin' & -> & -> & Hhas & Hkey & Hms).
  - assert (is_Some (edge_of key)) as Hinv by (eapply (jn_inverse _ _ Hj); [exact Hpin|]; simpl; rewrite Hin; by left).
    destruct (members_spec w key e' Hrel Hinv Hhas) as (ms' & Hms' & _).
    destruct (Hms _ Hms') as [ms Hpm]. exists ms, e. split_and!; [done..|].
    specialize (Hmem (i, (key, e))). rewrite elem_of_indexed in Hmem. simpl in Hmem.
    unfold picked_members in Hpm. rewrite (sibling_prefix _ _ i ms Hpm) in Hmem. simpl in Hmem.
    rewrite binary_search_elem in Hmem by by eapply members_sorted.
    assert (Done (bool_decide (e ∈ ms)) = Done true) as [= Hd].
    { apply Hmem. exists (PQuery q f), (SRow e). split; [done|]. simpl. rewrite filter_in_keys_types, Hin. by left. }
    by apply bool_decide_eq_true in Hd.
  - destruct Hkey as [x Hx].
    assert (key ∈ sp_bound_key_types (PQuery q f)) as Hkt by (simpl; rewrite Hbk; by left).
    pose proof (sibling_prefix _ _ i x Hx) as Hsib.
    destruct (sibling_key_hashed st (PQuery q f) key i x Hst Hpin Hkt Hsib) as [k ->]. exists k, e. split_and!; [done..|].
    destruct Hrow as (_ & _ & Hf). assert (has w key e = true) as Hhas' by (eapply filter_bound_has; [exact Hf|done]).
    destruct (jn_hashed _ _ Hj _ key Hpin Hkt e Hhas') as [k' Hk'].
    specialize (Hbound (i, (key, row_fingerprint w key e))). rewrite elem_of_indexed in Hbound. simpl in Hbound.
    rewrite Hsib, Hk' in Hbound. simpl in Hbound.
    assert (Done (bool_decide (k = k')) = Done true) as [= Heq].
    { apply Hbound. exists (PQuery q f), (SRow e). split; [done|]. simpl.
      rewrite filter_bound_keys_types, Hbk. simpl. rewrite Hk'. by left. }
    apply bool_decide_eq_true in Heq. congruence.
Qed.

Lemma prune_expandable p :
  needs_prune ps = false → p ∈ ps → sp_bound_key_types p ++ sp_in_key_types p ≠ [] → sp_pair_expandable p = true.
Proof.
  intros Hn Hp Hne. apply not_false_is_true. intros He.
  assert (needs_prune ps = true) as Ht; [|congruence]. apply existsb_elem_of. exists p. split; [done|].
  rewrite He. simpl. rewrite andb_true_r, orb_true_iff, !negb_true_iff, !bool_decide_eq_false.
  destruct (sp_bound_key_types p); [by right|by left].
Qed.

Lemma checks_of_joined st :
  needs_prune ps = false → Forall2 (param_row w) ps st → joined w [] (zip ps st) → binding_matches w ps st = Done true.
Proof.
  intros Hn Hst Hjoin. rewrite joined_lookup in Hjoin. unfold binding_matches.
  assert (all_result (check_bound w (zip ps st)) (indexed (sp_bound_keys w) (zip ps st)) = Done true) as ->.
  { apply all_result_true. intros [i [key fp]] Hin. apply elem_of_indexed in Hin as (p & s & Hi & Ha).
    specialize (Hjoin i p s Hi). destruct (zip_rows st i p s Hi Hst) as (Hp & _ & Hrow).
    assert (p ∈ ps) as Hpin by by eapply list_elem_of_lookup_2.
    pose proof (prune_expandable p Hn Hpin) as He. pose proof (binding_cases p) as Hcase.
    destruct p as [q f|q f|q f|q f|o|], s as [e| |]; simpl in Ha; try (by apply elem_of_nil in Ha);
      rewrite filter_bound_keys_types in Ha; apply list_elem_of_fmap in Ha as (key' & [= <- ->] & Hkey).
    2: { simpl in He. destruct (filter_bound_key_types f); [by apply elem_of_nil in Hkey|]. by specialize (He ltac:(done)). }
    unfold bound_ok in Hjoin. simpl in Hjoin, He.
    destruct (binding_of (PQuery q f)) as [|k0|k0|]; [| | |done].
    - simpl in Hcase. destruct (filter_bound_key_types f); [by apply elem_of_nil in Hkey|].
      specialize (He ltac:(done)). congruence.
    - destruct Hcase as (? & ? & [= <- <-] & _ & _ & Hb). rewrite Hb in Hkey. by apply elem_of_nil in Hkey.
    - destruct Hcase as (? & ? & [= <- <-] & _ & _ & Hb). rewrite Hb in Hkey.
      apply list_elem_of_singleton in Hkey as ->. destruct Hjoin as (k & e' & Hpk & [= <-] & Hk).
      simpl. rewrite Hk. simpl. rewrite (sibling_prefix _ _ i (Some k) Hpk). by rewrite bool_decide_eq_true_2. }
  simpl.
  assert (all_result (check_membership w (zip ps st)) (indexed sp_in_keys (zip ps st)) = Done true) as ->.
  { apply all_result_true. intros [i [key m]] Hin. apply elem_of_indexed in Hin as (p & s & Hi & Ha).
    specialize (Hjoin i p s Hi). destruct (zip_rows st i p s Hi Hst) as (Hp & _ & Hrow).
    assert (p ∈ ps) as Hpin by by eapply list_elem_of_lookup_2.
    pose proof (prune_expandable p Hn Hpin) as He. pose proof (binding_cases p) as Hcase.
    destruct p as [q f|q f|q f|q f|o|], s as [e| |]; simpl in Ha; try (by apply elem_of_nil in Ha).
    rewrite filter_in_keys_types in Ha; apply list_elem_of_fmap in Ha as (key' & [= <- ->] & Hkey).
    unfold bound_ok in Hjoin. simpl in Hjoin, He.
    destruct (binding_of (PQuery q f)) as [|k0|k0|]; [| | |done].
    - simpl in Hcase. destruct (filter_in_key_types f); [by apply elem_of_nil in Hkey|].
      rewrite He in Hcase; [done|]. by destruct (filter_bound_key_types f).
    - destruct Hcase as (? & ? & [= <- <-] & _ & Hb & _). rewrite Hb in Hkey.
      apply list_elem_of_singleton in Hkey as ->. destruct Hjoin as (ms & e' & Hpm & [= <-] & Hm).
      simpl. rewrite (sibling_prefix _ _ i ms Hpm). simpl. f_equal. rewrite binary_search_elem.
      + by apply bool_decide_eq_true.
      + eapply members_sorted; [exact Hst| |exact Hpm]. apply (jn_inverse _ _ Hj _ k0 Hpin). simpl. rewrite Hb. by left.
    - destruct Hcase as (? & ? & [= <- <-] & _ & Hb & _). rewrite Hb in Hkey. by apply elem_of_nil in Hkey. }
  simpl. apply all_result_true. intros [i key] Hin. apply elem_of_indexed in Hin as (p & s & Hi & Ha).
  destruct (zip_rows st i p s Hi Hst) as (Hp & _ & _).
  assert (p ∈ ps) as Hpin by by eapply list_elem_of_lookup_2. pose proof (prune_expandable p Hn Hpin) as He.
  destruct p as [q f|q f|q f|q f|o|], s as [e| |]; simpl in Ha; try (by apply elem_of_nil in Ha).
  simpl in He. destruct (filter_bound_key_types f); [by apply elem_of_nil in Ha|]. by specialize (He ltac:(done)).
Qed.

Lemma fill_spec {A} (g : SystemParam → result A) (l : list SystemParam) :
  (∀ p, p ∈ l → ∃ a, g p = Done a) →
  ∃ buffers, fill g l = Done buffers ∧ buffers.*1 = l ∧ ∀ x, x ∈ buffers → g x.1 = Done x.2.
Proof.
  unfold fill. induction l as [|p l IH]; intros Hall; simpl; [by exists []; split_and!; [..|intros x ?%elem_of_nil]|].
  destruct (Hall p) as [a Ha]; [by left|]. rewrite Ha. simpl.
  destruct IH as (buffers & -> & <- & Hb); [intros p' ?; apply Hall; by right|]. simpl.
  exists ((p, a) :: buffers). split_and!; [done..|]. intros x [->|?]%elem_of_cons; [done|auto].
Qed.

(** The full product and the pairs found from the providers are the same rows. *)
Lemma tuple_states_aux :
  ∃ states, tuple_states w ps = Done states ∧ NoDup states ∧
    ∀ st, st ∈ states ↔ Forall2 (param_row w) ps st ∧ binding_matches w ps st = Done true.
Proof.
  unfold tuple_states.
  set (g p := if sp_pair_expandable p then Done [] else sp_states w p).
  assert (∀ p, p ∈ ps → ∃ l, g p = Done l ∧ NoDup l ∧ ∀ s, (s ∈ l → param_row w p s) ∧
    (sp_pair_expandable p = false → param_row w p s → s ∈ l)) as Hg.
  { intros p Hp. unfold g. destruct (sp_pair_expandable p).
    - exists []. split_and!; [done|constructor|]. intros s. split; [by intros ?%elem_of_nil|done].
    - destruct (sp_states_spec X w p Hwf Hadd (jn_sound _ _ Hj p Hp)) as (l & ? & ? & Hl). exists l.
      split_and!; [done..|]. intros s. by rewrite Hl. }
  destruct (fill_spec g ps) as (buffers & -> & Hfst & Hbufs).
  { intros p Hp. destruct (Hg p Hp) as (l & ? & _). by exists l. }
  assert (∀ x, x ∈ buffers → x.1 ∈ ps) as Hin.
  { intros x Hx. rewrite <-Hfst. by apply list_elem_of_fmap_2. }
  destruct (for_each_exact X w Hwf Hadd Hrel ps buffers [] Hj) as (out & Hout & Hnd & Hspec).
  { intros x Hx. destruct (Hg x.1 (Hin x Hx)) as (l & Hl & ? & Hsub). rewrite (Hbufs x Hx) in Hl. injection Hl as <-.
    split_and!; [by apply Hin|done|]. intros s. apply Hsub. }
  { constructor. }
  { rewrite Hfst. apply (rg_precede _ Hreg). }
  rewrite Hfst in Hspec. simpl in Hspec |- *. rewrite Hout. simpl.
  assert (∀ st, Forall2 (buffered w) buffers st ↔ Forall2 (param_row w) ps st) as Hbuf.
  { intros st. rewrite <-Hfst, Forall2_fmap_l. unfold buffered.
    assert (∀ x s, x ∈ buffers →
      match binding_of x.1 with Unbound => s ∈ x.2 | _ => param_row w x.1 s end ↔ param_row w x.1 s) as Heq.
    { intros x s Hx. pose proof (binding_cases x.1) as Hcase. destruct (binding_of x.1); try done.
      destruct (Hg x.1 (Hin x Hx)) as (l & Hl & _ & Hsub). rewrite (Hbufs x Hx) in Hl. injection Hl as <-.
      destruct (Hsub s). naive_solver. }
    clear -Heq. revert st. induction buffers as [|x buffers IH]; intros st.
    - split; intros ->%Forall2_nil_inv_l; constructor.
    - split; intros (s & st' & Hs & Hst & ->)%Forall2_cons_inv_l; (constructor; [by apply Heq; [left|]|]);
        apply IH; try done; intros y s' ?; apply Heq; by right. }
  assert (∀ st, st ∈ out ↔ Forall2 (param_row w) ps st ∧ joined w [] (zip ps st)) as Hmem.
  { intros st. rewrite Hspec. setoid_rewrite Hbuf. simpl. naive_solver. }
  destruct (needs_prune ps) eqn:Hprune.
  - destruct (filter_result_total (binding_matches w ps) out) as [sts Hsts].
    { intros st [Hst _]%Hmem. by apply checks_total. }
    rewrite Hsts. exists sts. destruct (filter_result_spec _ _ _ Hsts) as (_ & Hel & Hn). split_and!; [done|auto|].
    intros st. rewrite Hel, Hmem. split; [tauto|]. intros [Hst Hb]. split_and!; try done. by apply joined_of_checks.
  - exists out. split_and!; [done..|]. intros st. rewrite Hmem. split; intros [Hst Hb]; (split; [done|]).
    + by apply checks_of_joined.
    + by apply joined_of_checks.
Qed.
End tuple.

(** ** Identity of an invocation *)

Definition is_outer p : bool := match p with POuter _ _ => true | _ => false end.

Lemma param_row_keys w p s s' :
  param_row w p s → param_row w p s' → length (sp_keys s) = length (sp_keys s') → sp_keys s = sp_keys s' → s = s'.
Proof. destruct p, s, s'; simpl; try done; naive_solver. Qed.

Lemma inner_length w p s s' :
  is_outer p = false → param_row w p s → param_row w p s' → length (sp_keys s) = length (sp_keys s').
Proof. by destruct p, s, s'. Qed.

Lemma tuple_keys_cons s st : tuple_keys (s :: st) = sp_keys s ++ tuple_keys st.
Proof. done. Qed.

Lemma inner_lengths w ps st st' :
  existsb is_outer ps = false → Forall2 (param_row w) ps st → Forall2 (param_row w) ps st' →
  length (tuple_keys st) = length (tuple_keys st').
Proof.
  intros Ho Hst. revert st' Ho. induction Hst as [|p s ps st Hs Hst IH]; intros st' Ho Hst'.
  - by apply Forall2_nil_inv_l in Hst' as ->.
  - apply Forall2_cons_inv_l in Hst' as (s' & st2 & Hs' & Hst2 & ->). simpl in Ho.
    apply orb_false_iff in Ho as [Hp Ho]. rewrite !tuple_keys_cons, !length_app.
    rewrite (IH st2 Ho Hst2). by rewrite (inner_length w p s s' Hp Hs Hs').
Qed.

Lemma keys_identify_aux w ps st st' :
  length (filter (λ p, is_outer p = true) ps) ≤ 1 →
  Forall2 (param_row w) ps st → Forall2 (param_row w) ps st' → tuple_keys st = tuple_keys st' → st = st'.
Proof.
  intros Ho Hst. revert st' Ho. induction Hst as [|p s ps st Hs Hst IH]; intros st' Ho Hst'.
  - by apply Forall2_nil_inv_l in Hst' as ->.
  - apply Forall2_cons_inv_l in Hst' as (s' & st2 & Hs' & Hst2 & ->). intros Hkeys.
    rewrite !tuple_keys_cons in Hkeys. rewrite filter_cons in Ho.
    assert (length (sp_keys s) = length (sp_keys s')) as Hlen.
    { case_decide as Hp; [|apply (inner_length w p); try done; by destruct (is_outer p)].
      assert (existsb is_outer ps = false) as Hno.
      { simpl in Ho. apply not_true_is_false. intros (p' & Hin & Hp')%existsb_elem_of.
        assert (p' ∈ filter (λ p, is_outer p = true) ps) as Hf by by apply list_elem_of_filter.
        destruct (filter _ ps); [by apply elem_of_nil in Hf|simpl in Ho; lia]. }
      pose proof (inner_lengths w ps st st2 Hno Hst Hst2) as Hl.
      apply (f_equal length) in Hkeys. rewrite !length_app in Hkeys. lia. }
    apply app_inj_1 in Hkeys as [Hk Hrest]; [|done].
    f_equal; [by apply (param_row_keys w p)|]. apply IH; [|done|done]. case_decide; simpl in Ho; lia.
Qed.

(** ** Properties of joins *)

(** C10: planning enumerates exactly the join.  For a system the engine registers
    whose providers precede their joins, the rows are the combinations of one row
    per parameter that satisfy every equality, membership and absence binding,
    each once, although bound joins are read off the provider's member list or
    fingerprint bucket instead of being filtered out of the product; and
    enumeration never panics.  The scope is [joinable]: the bound key components
    have fingerprints and the membership keys are inverses the engine
    maintains (an unhashed key or a hand-made inverse does panic), and no
    parameter is a bare [Entity<H>] with required parts or a tuple without
    required parts that has a [Tracked] part ([checked], [row_driven]), whose rows
    are not those of its query alone. *)
Theorem join_exact X w ps :
  wf X w → addressable w → rel_ok w → joinable w ps → registered ps →
  ∃ states, tuple_states w ps = Done states ∧ NoDup states ∧
    ∀ st, st ∈ states ↔ Forall2 (param_row w) ps st ∧ binding_matches w ps st = Done true.
Proof. intros ?????. by eapply tuple_states_aux. Qed.

(** An invocation is identified by its keys: two rows of a system with at
    most one outer join have the same keys only when they are the same row, so
    memo entries and reservations are never shared. *)
Theorem keys_identify X w ps states st st' :
  wf X w → addressable w → rel_ok w → joinable w ps → registered ps →
  length (filter (λ p, is_outer p = true) ps) ≤ 1 →
  tuple_states w ps = Done states → st ∈ states → st' ∈ states → tuple_keys st = tuple_keys st' → st = st'.
Proof.
  intros Hwf Hadd Hrel Hj Hreg Ho Hstates Hst Hst' Hkeys.
  destruct (tuple_states_aux X w ps Hwf Hadd Hrel Hj Hreg) as (states' & Heq & _ & Hin).
  rewrite Hstates in Heq. injection Heq as <-. apply Hin in Hst as [Hst _], Hst' as [Hst' _].
  by eapply keys_identify_aux.
Qed.
End joins.

(** ** Concrete runs *)

(** No query of the examples uses [Tracked]. *)
Definition no_marker : list FacetPart → N := λ _, 0%N.

Definition demo_provider : SystemParam := PQuery (ParamRow [] [PartRef ty_members]) FNone.
Definition demo_member : SystemParam := PQuery (ParamRow [] [PartRef ty_edge]) (FIn ty_members ty_edge).

Lemma spawn_rel `{RelationshipLaws} `{HashOrder} (w : World) : rel_ok w → rel_ok (fst (spawn_empty w)).
Proof. by apply rel_ok_frame. Qed.

Lemma demo_rel_rows : rel_ok demo_rows.
Proof.
  assert (rel_ok demo_spawned) as Hrel.
  { unfold demo_spawned. cbn [Nat.iter nat_rect]. do 6 apply spawn_rel. exact (proj2 (init_ok _ _ demo_init)). }
  assert (wf nothing_taken demo_spawned) as Hwf.
  { apply (world_steps_good (nothing_taken, demo_w0) (nothing_taken, demo_spawned)); [|exact demo_wf0].
    do 6 (eapply rtc_l; [apply ws_apply, as_spawn|]). apply rtc_refl. }
  refine (rel_step_ok (nothing_taken, demo_spawned) (nothing_taken, demo_rows) Hwf Hrel _).
  apply (rs_insert nothing_taken demo_spawned 3 ty_edge (v_edge 5) None demo_rows); vm_compute; reflexivity.
Qed.

Lemma demo_members_row : members_of demo_rows ty_members 5 = Some [3%N].
Proof. vm_compute. reflexivity. Qed.

Lemma elem_of_two {A} (x a b : A) : x ∈ [a; b] ↔ x = a ∨ x = b.
Proof. by rewrite elem_of_cons, list_elem_of_singleton. Qed.

Lemma demo_joinable w : joinable w [demo_provider; demo_member].
Proof.
  split.
  - intros p [-> | ->]%elem_of_two; simpl; (split; [|done]); (split; [done|]); right; left; done.
  - intros p key [-> | ->]%elem_of_two; simpl; by intros ?%elem_of_nil.
  - intros p key [-> | ->]%elem_of_two; simpl; [by intros ?%elem_of_nil|].
    intros ->%list_elem_of_singleton. by exists ty_edge.
Qed.

Lemma demo_registered : registered no_marker [demo_provider; demo_member].
Proof. split; vm_compute; reflexivity. Qed.

Lemma demo_addressable : addressable demo_rows.
Proof. apply (addressable_b_spec nothing_taken _ demo_wf_rows). vm_compute. reflexivity. Qed.

Lemma demo_pairs : tuple_states demo_rows [demo_provider; demo_member] = Done [[SRow 5; SRow 3]].
Proof. vm_compute. reflexivity. Qed.

Lemma join_exact_witness :
  ∃ states, tuple_states demo_rows [demo_provider; demo_member] = Done states ∧ NoDup states ∧
    ∀ st, st ∈ states ↔ Forall2 (param_row demo_rows) [demo_provider; demo_member] st ∧
                        binding_matches demo_rows [demo_provider; demo_member] st = Done true.
Proof.
  exact (join_exact no_marker nothing_taken demo_rows [demo_provider; demo_member] demo_wf_rows demo_addressable
           demo_rel_rows (demo_joinable _) demo_registered).
Defined.

Lemma keys_identify_witness : [SRow 5; SRow 3] = [SRow 5; SRow 3].
Proof.
  apply (keys_identify no_marker nothing_taken demo_rows [demo_provider; demo_member] [[SRow 5; SRow 3]] _ _
           demo_wf_rows demo_addressable demo_rel_rows (demo_joinable _) demo_registered).
  - vm_compute. lia.
  - exact demo_pairs.
  - by left.
  - by left.
  - reflexivity.
Defined.

