(* ===== verification/Delta.v ===== *)
(** * Planning from dirty entities ([system.rs], [query.rs])

    A system that was planned before is planned again from the entities written
    since: only the driver with many rows is restricted to them, and a write to
    the partner of a bound join or to a member of a relationship is translated to
    the row it belongs to.  The theorems: the narrowed plan has only rows of the
    full one, and it misses only rows that were there at the previous plan with
    the same dependencies, so with the memo of that plan both plans run the same
    invocations.  Where the translation does not reach, a row is lost. *)
From stdpp Require Import base numbers sets gmap fin_maps sorting list.
From S2P Require Import Prelude Access.
From S2P Require Import Components Demo Stores Presence World WorldInv Ownership WorldOps Relations Frame.
From S2P Require Import Commands Query ExternalQuery Deps Planner Commit Params Joins.

(** ** Lists *)

Lemma dedup_sorted (l : list N) : StronglySorted N.le l → StronglySorted N.lt (dedup l).
Proof.
  intros Hs. induction l as [|x [|y l] IH]; [constructor|repeat constructor|].
  apply StronglySorted_cons in Hs as [Hall Hs]. specialize (IH Hs). cbn [dedup].
  case_bool_decide as Hxy; [done|]. apply StronglySorted_cons. split; [|done].
  rewrite List.Forall_forall in Hall |- *. intros z Hz%list_elem_of_In.
  apply (elem_of_dedup (y :: l) z) in Hz. apply elem_of_cons in Hz as [->|Hz].
  - specialize (Hall y ltac:(by left)). lia.
  - apply StronglySorted_cons in Hs as [Hy _]. rewrite List.Forall_forall in Hy.
    pose proof (Hall y ltac:(by left)). pose proof (Hy z (proj1 (list_elem_of_In _ _) Hz)). lia.
Qed.

Lemma NoDup_sort_dedup (l : list N) : NoDup (sort_dedup l).
Proof. apply sorted_NoDup, dedup_sorted, StronglySorted_merge_sort; apply _. Qed.

Lemma concat_option_elem {A} (l : list (option (list A))) r o :
  concat_option l = Some r → o ∈ l → ∃ a, o = Some a ∧ a ⊆ r.
Proof.
  revert r. induction l as [|o' l IH]; intros r; simpl; [by intros _ ?%elem_of_nil|].
  destruct o' as [a|], (concat_option l) as [b|]; try done. intros [= <-] [->|Ho]%elem_of_cons.
  - exists a. split; [done|]. intros x ?. apply elem_of_app. by left.
  - destruct (IH b eq_refl Ho) as (a' & -> & Hsub). exists a'. split; [done|].
    intros x ?. apply elem_of_app. right. by apply Hsub.
Qed.

Lemma filter_single {A} (P : A → Prop) `{!∀ a, Decision (P a)} (l : list A) i j a b :
  length (filter P l) ≤ 1 → l !! i = Some a → l !! j = Some b → P a → P b → i = j.
Proof.
  assert (∀ l j b, l !! j = Some b → P b → 0 < length (filter P l)) as Hpos.
  { clear. intros l j b Hj Hb. assert (b ∈ filter P l) as Hin.
    { apply list_elem_of_filter. split; [done|]. by eapply list_elem_of_lookup_2. }
    destruct (filter P l); [by apply elem_of_nil in Hin|simpl; lia]. }
  revert i j. induction l as [|x l IH]; intros i j Hlen Hi Hj Ha Hb; [done|].
  rewrite filter_cons in Hlen. destruct i as [|i], j as [|j]; simpl in *; [done| | |].
  - injection Hi as ->. rewrite decide_True in Hlen by done. pose proof (Hpos l j b Hj Hb). simpl in Hlen. lia.
  - injection Hj as ->. rewrite decide_True in Hlen by done. pose proof (Hpos l i a Hi Ha). simpl in Hlen. lia.
  - f_equal. apply (IH i j); try done. case_decide; simpl in Hlen; lia.
Qed.

Lemma first_some_ext {A B} (f g : A → option B) l : (∀ a, a ∈ l → f a = g a) → first_some f l = first_some g l.
Proof.
  induction l as [|a l IH]; intros Hall; simpl; [done|]. rewrite (Hall a) by by left.
  destruct (g a); [done|]. apply IH. intros a' ?. apply Hall. by right.
Qed.

Lemma Forall2_mono_zip {A B} (P Q : A → B → Prop) l k :
  (∀ x y, (x, y) ∈ zip l k → P x y → Q x y) → Forall2 P l k → Forall2 Q l k.
Proof.
  intros HPQ Hl. induction Hl as [|x y l k Hx Hl IH]; constructor.
  - apply HPQ; [by left|done].
  - apply IH. intros x' y' ?. apply HPQ. by right.
Qed.

Lemma elem_of_zip_fst {A B C} (g : A → C) (l : list A) (k : list B) x y : (x, y) ∈ zip l k → (g x, y) ∈ zip (g <$> l) k.
Proof.
  intros [i Hi]%list_elem_of_lookup. apply lookup_zip_Some in Hi as [Hx Hy].
  eapply list_elem_of_lookup_2, lookup_zip_Some. split; [|exact Hy]. by rewrite list_lookup_fmap, Hx.
Qed.

Section delta.
Context `{RelationshipLaws} `{HashOrder}.
Implicit Types (w : World) (e m : Entity) (ty key inv edge : TypeId) (q : QueryParam) (f : QueryFilter)
  (p : SystemParam) (s : ParamState) (ps : list SystemParam) (rows picked : list (SystemParam * ParamState))
  (st : list ParamState) (tys hint : list TypeId).

Variable marker : list FacetPart → TypeId.

(** ** Systems planned from a hint *)

Fixpoint no_where_and f : bool :=
  match f with
  | FWhereAnd _ _ => false
  | FAnd l r => no_where_and l && no_where_and r
  | _ => true
  end.

(** The relationships a query projects and a filter joins on. *)
Definition part_edges part : list (TypeId * TypeId) :=
  match part with PartRelated inv edge _ => [(inv, edge)] | _ => [] end.
Definition query_edges q : list (TypeId * TypeId) :=
  match q with ParamRow _ parts => parts ≫= part_edges | _ => [] end.
Fixpoint filter_edges f : list (TypeId * TypeId) :=
  match f with
  | FIn inv edge => [(inv, edge)]
  | FAnd l r | FWhereAnd l r => filter_edges l ++ filter_edges r
  | _ => []
  end.

(** The provider of a bound join is a driver of the tuple, not itself a joined
    query. *)
Fixpoint direct_pairs (before : list SystemParam) ps : bool :=
  match ps with
  | [] => true
  | p :: ps =>
      match bound_key p with
      | Some key => forallb (λ p', negb (sp_provides_key p' key) || bool_decide (sp_delta_shape p' = Driver)) before
      | None => true
      end && direct_pairs (before ++ [p]) ps
  end.

Record delta_ready ps tys : Prop := {
  dr_shape : tuple_delta_shape ps = Driver;
  dr_interest : tuple_interest marker ps = Some tys;
  dr_anchored q f : PQuery q f ∈ ps → anchored q f = true ∧ names_its_stores q = true;
  dr_edges q f inv edge : PQuery q f ∈ ps → (inv, edge) ∈ query_edges q ++ filter_edges f →
    edge_of inv = Some edge ∧ value_tracked inv = true;
  dr_keys q f key : PQuery q f ∈ ps → key ∈ filter_bound_key_types f → value_tracked key = true;
  dr_pairs q f : PQuery q f ∈ ps → sp_delta_shape (PQuery q f) = PairBound →
    no_where_and f = true ∧ query_edges q = [];
  dr_direct : direct_pairs [] ps = true;
}.

(** The fingerprint of an inverse tells its member lists apart. *)
Definition separates w0 w inv : Prop :=
  hashed w inv ∧ ∀ e k, row_fingerprint w0 inv e = Some k → row_fingerprint w inv e = Some k →
    members_of w0 inv e = members_of w inv e.

Lemma direct_lookup before ps i p key :
  direct_pairs before ps = true → ps !! i = Some p → bound_key p = Some key →
  ∀ p', p' ∈ before ++ take i ps → sp_provides_key p' key = true → sp_delta_shape p' = Driver.
Proof.
  revert before i. induction ps as [|p0 ps IH]; intros before i; [done|]. simpl.
  intros [Hp Hps]%andb_true_iff. destruct i as [|i]; simpl.
  - intros [= ->] Hk p'. rewrite app_nil_r. intros Hin Hprov. rewrite Hk, forallb_elem_of in Hp.
    specialize (Hp _ Hin). rewrite Hprov in Hp. by apply bool_decide_eq_true in Hp.
  - intros Hi Hk p' Hin. apply (IH (before ++ [p0]) i Hps Hi Hk). by rewrite <-app_assoc.
Qed.

Lemma query_shape ps q f :
  tuple_delta_shape ps = Driver → PQuery q f ∈ ps →
  match binding_of (PQuery q f) with
  | Unbound => sp_delta_shape (PQuery q f) = Driver
  | Invalid => False
  | _ => sp_delta_shape (PQuery q f) = PairBound
  end.
Proof.
  intros Hs Hin. assert (sp_delta_shape (PQuery q f) ≠ OpaqueShape) as Hne.
  { intros Ho. unfold tuple_delta_shape in Hs.
    assert (existsb (λ p, bool_decide (sp_delta_shape p = OpaqueShape)) ps = true) as He; [|by rewrite He in Hs].
    apply existsb_elem_of. eexists. split; [exact Hin|]. by apply bool_decide_eq_true. }
  pose proof (binding_cases (PQuery q f)) as Hcase.
  destruct (binding_of (PQuery q f)) as [|key|key|]; [| | |done].
  - unfold sp_delta_shape in *. rewrite Hcase in *. by destruct (bool_decide _ && bool_decide _).
  - destruct Hcase as (? & ? & [= <- <-] & He & Hi & Hb). unfold sp_delta_shape. by rewrite He, Hi, Hb.
  - destruct Hcase as (? & ? & [= <- <-] & He & Hi & Hb). unfold sp_delta_shape. by rewrite He, Hi, Hb.
Qed.

Lemma driver_query p : sp_delta_shape p = Driver → ∃ q f, p = PQuery q f ∧ sp_pair_expandable p = false.
Proof.
  destruct p as [q f|q f|q f|q f|o|]; try done. intros Hs. exists q, f. split; [done|]. unfold sp_delta_shape in Hs.
  destruct (bool_decide (filter_bound_key_types f = [])) eqn:Hb, (bool_decide (filter_in_key_types f = [])) eqn:Hi;
    cbn [andb] in Hs; [|by destruct (sp_pair_expandable _)..].
  apply bool_decide_eq_true in Hb, Hi. simpl. by rewrite Hb, Hi.
Qed.

Lemma ready_no_prune ps tys : delta_ready ps tys → needs_prune ps = false.
Proof.
  intros D. apply not_true_is_false. intros (p & Hin & Hp)%existsb_elem_of.
  apply andb_true_iff in Hp as [Hk He]. apply negb_true_iff in He.
  assert (sp_delta_shape p = OpaqueShape) as Ho.
  { destruct p as [q f|q f|q f|q f|o|]; try done. unfold sp_delta_shape. rewrite He. simpl in Hk.
    by destruct (bool_decide (filter_bound_key_types f = [])), (bool_decide (filter_in_key_types f = [])). }
  pose proof (dr_shape _ _ D) as Hs. unfold tuple_delta_shape in Hs.
  assert (existsb (λ p, bool_decide (sp_delta_shape p = OpaqueShape)) ps = true) as Hx; [|by rewrite Hx in Hs].
  apply existsb_elem_of. exists p. split; [done|]. by apply bool_decide_eq_true.
Qed.

(** ** Rows that did not move *)

Definition unmoved_row w0 w e tys : Prop := ∀ ty, ty ∈ tys → row_revision w ty e = row_revision w0 ty e.

Lemma unmoved_sub w0 w e tys tys' : unmoved_row w0 w e tys → tys' ⊆ tys → unmoved_row w0 w e tys'.
Proof. intros Hu Hs ty ?. by apply Hu, Hs. Qed.

Lemma unmoved_has w0 w ty e : row_revision w ty e = row_revision w0 ty e → has w ty e = has w0 ty e.
Proof.
  rewrite !row_revision_row. intros Hr. apply bool_decide_ext. rewrite <-!not_eq_None_Some.
  destruct (row w ty e), (row w0 ty e); naive_solver.
Qed.

Lemma component_dep_same w0 w ty e :
  row_revision w ty e = row_revision w0 ty e → component_dep_if_tracked w0 ty e = component_dep_if_tracked w ty e.
Proof. intros Hr. unfold component_dep_if_tracked. by rewrite Hr. Qed.

Lemma filter_deps_same w0 w f e :
  unmoved_row w0 w e (filter_interest f) → filter_deps w0 f e = filter_deps w f e.
Proof.
  unfold unmoved_row. induction f as [|ty|ty|ty|inv edge|l IHl r IHr|l IHl r IHr]; simpl; intros Hu; try done;
    try (apply component_dep_same, Hu; by left).
  all: setoid_rewrite elem_of_app in Hu; rewrite IHl, IHr; naive_solver.
Qed.

(** The members a related part projects, and their rows. *)
Definition part_still w0 w e part : Prop :=
  match part with
  | PartRelated inv _ ps => related_members w0 inv e = related_members w inv e ∧
      ∀ m, m ∈ related_members w inv e → unmoved_row w0 w m (read_part_type <$> ps)
  | _ => True
  end.

Lemma part_deps_same w0 w part e :
  unmoved_row w0 w e (part_interest part) → part_still w0 w e part → part_deps w0 part e = part_deps w part e.
Proof.
  destruct part as [ty|ty|ty|fac|inv edge ps]; simpl; intros Hu Hs.
  - apply component_dep_same, Hu. by left.
  - unfold optional_component_dep. rewrite (Hu ty); [done|by left].
  - apply component_dep_same, Hu. by left.
  - f_equal. unfold tracked_deps. apply list_fmap_ext. intros i p Hp.
    apply list_elem_of_lookup_2, list_elem_of_filter in Hp as [_ Hp]. rewrite (Hu (part_type p)); [done|].
    by apply list_elem_of_fmap_2.
  - f_equal. unfold related_deps. destruct Hs as [Hm Hs]. f_equal.
    + unfold optional_component_dep. rewrite (Hu inv); [done|by left].
    + rewrite Hm. clear Hm Hu. revert Hs. generalize (related_members w inv e). intros l Hs.
      induction l as [|m l IH]; [done|]. simpl. f_equal; [|apply IH; intros m' ?; apply Hs; by right].
      specialize (Hs m ltac:(left)). clear -Hs. induction ps as [|p ps IH]; [done|]. simpl. f_equal.
      * unfold observed_member_deps, optional_component_dep. rewrite (Hs (read_part_type p)); [done|by left].
      * apply IH. intros ty ?. apply Hs. by right.
Qed.

Definition query_still w0 w e q : Prop :=
  match q with ParamRow _ parts => ∀ part, part ∈ parts → part_still w0 w e part | _ => True end.

Lemma filtered_deps_same w0 w q f e tys :
  query_interest q f = Some tys → names_its_stores q = true → unmoved_row w0 w e tys → query_still w0 w e q →
  filtered_deps w0 q f e = filtered_deps w q f e.
Proof.
  intros Hint Hn Hu Hs. destruct (query_interest_cases _ _ _ Hint) as (interest & Hi & ->).
  unfold unmoved_row in Hu. setoid_rewrite elem_of_app in Hu. unfold filtered_deps.
  rewrite (filter_deps_same w0 w f e) by (intros ty ?; apply Hu; by right).
  assert (param_deps w0 q e = param_deps w q e) as ->; [|done].
  destruct q as [fac|ty|ty|fac parts]; simpl in *; [done| |done|].
  - destruct Hi as [[= <-]|[? _]]; [|done]. apply component_dep_same, Hu. left. by left.
  - assert (∀ part ty, part ∈ parts → ty ∈ part_interest part → row_revision w ty e = row_revision w0 ty e) as Hp.
    { intros part ty Hpart Hty. apply Hu. left. destruct parts as [|p0 parts]; [by apply elem_of_nil in Hpart|].
      simpl in Hi. destruct Hi as [[= <-]|[? _]]; [|done]. apply elem_of_app. right.
      change (ty ∈ (p0 :: parts) ≫= part_interest). apply list_elem_of_bind. by exists part. }
    clear Hu Hi Hint. induction parts as [|part parts IH]; [done|]. simpl.
    rewrite (part_deps_same w0 w part e), IH; [done| | | |].
    + intros part' ?. apply Hs. by right.
    + intros part' ty ?. apply Hp. by right.
    + intros ty ?. apply (Hp part); [by left|done].
    + apply Hs. by left.
Qed.

(** A query row that did not move was a row before. *)
Lemma query_row_back w0 w q f e tys :
  addressable w0 → query_interest q f = Some tys → names_its_stores q = true → anchored q f = true →
  unmoved_row w0 w e tys → query_row w q f e → query_row w0 q f e.
Proof.
  intros [Hids _] Hint Hn Ha Hu (_ & Hq & Hf). destruct (query_interest_cases _ _ _ Hint) as (interest & Hi & ->).
  assert (∀ ty, ty ∈ interest ++ filter_interest f → has w ty e = has w0 ty e) as Hhas.
  { intros ty ?. by apply unmoved_has, Hu. }
  setoid_rewrite elem_of_app in Hhas.
  assert (row_matches w q e = row_matches w0 q e) as Hq0.
  { apply (row_matches_same w0 w q interest e Hn Hi). intros ty ?. apply Hhas. by left. }
  assert (filter_matches w f e = filter_matches w0 f e) as Hf0.
  { apply filter_matches_same. intros ty ?. apply Hhas. by right. }
  rewrite Hq0 in Hq. rewrite Hf0 in Hf. split_and!; [|done..].
  destruct (anchored_has w0 q f e Ha Hq Hf) as [ty Hty]. by apply (Hids ty).
Qed.

(** A row whose revision did not move keeps its fingerprint. *)
Lemma fingerprint_same X0 w0 w key e :
  wf X0 w0 → progressed w0 w → value_tracked key = true →
  row_revision w key e = row_revision w0 key e → row_fingerprint w key e = row_fingerprint w0 key e.
Proof.
  intros Hwf P Ht Hr. destruct (row_revision w0 key e) as [r|] eqn:Hr0.
  - by destruct (progressed_identifies X0 w0 w key e r Hwf P Ht Hr0 Hr).
  - assert (∀ w', row_revision w' key e = None → row_fingerprint w' key e = None) as Hnone.
    { intros w' Hn. rewrite row_revision_row in Hn. apply fmap_None in Hn. unfold row_fingerprint, row in *.
      destruct (store_of w' key) as [st|]; [|done]. simpl in *. by rewrite Hn. }
    by rewrite !Hnone.
Qed.

Lemma members_same X0 w0 w inv e :
  wf X0 w0 → progressed w0 w → value_tracked inv = true → separates w0 w inv →
  row_revision w inv e = row_revision w0 inv e → members_of w0 inv e = members_of w inv e.
Proof.
  intros Hwf P Ht [Hh Hs] Hr. pose proof (fingerprint_same X0 w0 w inv e Hwf P Ht Hr) as Hf.
  destruct (has w inv e) eqn:Hhas.
  - destruct (Hh e Hhas) as [k Hk]. apply (Hs e k); [by rewrite <-Hf|done].
  - assert (∀ w', has w' inv e = false → members_of w' inv e = None) as Hnone.
    { intros w' Hn. unfold members_of, row_value. unfold has in Hn. apply bool_decide_eq_false in Hn.
      destruct (row w' inv e); [|done]. destruct Hn. by eexists. }
    rewrite !Hnone; [done|done|]. by rewrite <-(unmoved_has w0 w inv e Hr).
Qed.

(** ** Hints translated to providers *)

Lemma edge_target_hinted w inv edge e m hint :
  edge_of inv = Some edge → points_to w inv e m → m ∈ hint → e ∈ edge_targets w edge hint.
Proof.
  intros Hinv (ty & He) Hm. unfold edge_target in He. destruct (row_value w ty m) as [v|] eqn:Hv; [|done].
  simpl in He. assert (ty = edge) as ->.
  { destruct v as [p|]; simpl in He; [|done]. apply edge_inverse in He. congruence. }
  unfold edge_targets. apply list_elem_of_omap. exists m. split; [done|]. rewrite Hv. simpl. by rewrite He.
Qed.

Lemma filter_in_hinted w f inv edge e m hint :
  no_where_and f = true → (inv, edge) ∈ filter_edges f → edge_of inv = Some edge → points_to w inv e m → m ∈ hint →
  e ∈ filter_hint_providers w f hint.
Proof.
  intros Hn Hin Hinv Hp Hm. induction f as [|ty|ty|ty|inv' edge'|l IHl r IHr|l IHl r IHr]; simpl in *;
    try (by apply elem_of_nil in Hin).
  - apply list_elem_of_singleton in Hin as [= <- <-]. by eapply edge_target_hinted.
  - apply andb_true_iff in Hn as [? ?]. apply elem_of_app. apply elem_of_app in Hin as [?|?]; auto.
  - done.
Qed.

Lemma filter_eq_hinted X w f key k e m hint :
  wf X w → no_where_and f = true → key ∈ filter_bound_key_types f →
  row_fingerprint w key m = Some k → row_fingerprint w key e = Some k → m ∈ hint → e ∈ filter_hint_providers w f hint.
Proof.
  intros Hwf Hn Hin Hkm Hke Hm. induction f as [|ty|ty|ty|inv' edge'|l IHl r IHr|l IHl r IHr]; simpl in *;
    try (by apply elem_of_nil in Hin).
  - apply list_elem_of_singleton in Hin as <-. apply list_elem_of_bind. exists m. split; [|done]. rewrite Hkm.
    by apply (bucket_spec X).
  - apply andb_true_iff in Hn as [? ?]. apply elem_of_app. apply elem_of_app in Hin as [?|?]; auto.
  - done.
Qed.

Lemma related_hinted w q inv edge e m hint :
  (inv, edge) ∈ query_edges q → edge_of inv = Some edge → points_to w inv e m → m ∈ hint →
  e ∈ query_hint_providers w q hint.
Proof.
  destruct q as [fac|ty|ty|fac parts]; simpl; try (by intros ?%elem_of_nil).
  intros (part & Hin & Hpart)%list_elem_of_bind Hinv Hp Hm. apply list_elem_of_bind. exists part. split; [|done].
  destruct part; simpl in *; try (by apply elem_of_nil in Hin).
  apply list_elem_of_singleton in Hin as [= <- <-]. by eapply edge_target_hinted.
Qed.

Lemma expand_hint_spec w ps hint e :
  e ∈ expand_hint w ps hint ↔ e ∈ hint ∨ ∃ p, p ∈ ps ∧ e ∈ sp_hint_providers w p hint.
Proof.
  unfold expand_hint. rewrite elem_of_sort_dedup, elem_of_app, list_elem_of_bind. naive_solver.
Qed.

Lemma part_interest_in fac parts f t part :
  query_interest (ParamRow fac parts) f = Some t → part ∈ parts → part_interest part ⊆ t.
Proof.
  intros Hint Hpart ty Hty. destruct (query_interest_cases _ _ _ Hint) as (interest & Hi & ->).
  apply elem_of_app. left. destruct parts as [|p0 parts]; [by apply elem_of_nil in Hpart|].
  simpl in Hi. destruct Hi as [[= <-]|[? _]]; [|done]. apply elem_of_app. right.
  change (ty ∈ (p0 :: parts) ≫= part_interest). apply list_elem_of_bind. by exists part.
Qed.

Lemma provides_interest q f t key :
  query_interest q f = Some t → query_provides_key q key = true → key ∈ t.
Proof.
  intros Hint Hk. destruct q as [fac|ty|ty|fac parts]; simpl in Hk; try done.
  - apply bool_decide_eq_true in Hk. subst ty. simpl in Hint. injection Hint as <-. by left.
  - apply existsb_elem_of in Hk as (part & Hpart & Hk). destruct part; try done.
    apply bool_decide_eq_true in Hk. subst. eapply part_interest_in; [exact Hint|exact Hpart|]. by left.
Qed.

Lemma bound_interest q f t key :
  query_interest q f = Some t → key ∈ filter_bound_key_types f ∨ key ∈ filter_in_key_types f → key ∈ t.
Proof.
  intros Hint Hk. destruct (query_interest_cases _ _ _ Hint) as (interest & _ & ->). apply elem_of_app. right.
  clear Hint. induction f as [|ty|ty|ty|inv edge|l IHl r IHr|l IHl r IHr]; simpl in *;
    try (destruct Hk as [Hk|Hk]; by apply elem_of_nil in Hk).
  - destruct Hk as [Hk|Hk]; [exact Hk|by apply elem_of_nil in Hk].
  - destruct Hk as [Hk|Hk]; [by apply elem_of_nil in Hk|exact Hk].
  - rewrite !elem_of_app in *. naive_solver.
  - rewrite !elem_of_app in *. naive_solver.
Qed.

Lemma in_key_edge f inv : inv ∈ filter_in_key_types f → ∃ edge, (inv, edge) ∈ filter_edges f.
Proof.
  induction f as [|ty|ty|ty|inv' edge|l IHl r IHr|l IHl r IHr]; simpl; try (by intros ?%elem_of_nil).
  - intros ->%list_elem_of_singleton. exists edge. by left.
  - intros [(edge & ?)%IHl|(edge & ?)%IHr]%elem_of_app; exists edge; apply elem_of_app; tauto.
  - intros [(edge & ?)%IHl|(edge & ?)%IHr]%elem_of_app; exists edge; apply elem_of_app; tauto.
Qed.

Lemma query_provided_members_eq w q e key :
  query_provides_key q key = true → row_matches w q e = true → query_provided_members w q e key = members_of w key e.
Proof.
  intros Hk Hm. destruct (query_provides w q e key Hk Hm) as (_ & _ & Hms).
  destruct (members_of w key e) as [ms|] eqn:He; [by apply Hms|].
  destruct (query_provided_members w q e key) as [ms|] eqn:Hp; [|done].
  apply query_provided_members_inv in Hp as [_ ?]. congruence.
Qed.

(** ** Between two plans *)

Section between.
Context (X0 X : taken) (w0 w : World) (ps : list SystemParam) (tys : list TypeId) (hint : list Entity).
Hypothesis (Hwf0 : wf X0 w0) (Hwf : wf X w) (Hprog : progressed w0 w).
Hypothesis (Hadd0 : addressable w0) (Hadd : addressable w) (Hrel0 : rel_ok w0) (Hrel : rel_ok w).
Hypothesis (Hj0 : joinable w0 ps) (Hj : joinable w ps) (Hreg : registered marker ps) (D : delta_ready ps tys).
Hypothesis (Hmoved : ∀ ty e, ty ∈ tys → row_revision w ty e ≠ row_revision w0 ty e → e ∈ hint).
Hypothesis (Hsep : ∀ q f inv edge, PQuery q f ∈ ps → (inv, edge) ∈ query_edges q ++ filter_edges f → separates w0 w inv).

Notation dirty := (expand_hint w ps hint).

Lemma unhinted e : e ∉ hint → unmoved_row w0 w e tys.
Proof.
  intros He ty Hty. destruct (decide (row_revision w ty e = row_revision w0 ty e)) as [|Hne]; [done|].
  by apply Hmoved in Hne.
Qed.

Lemma clean_unhinted e : e ∉ dirty → e ∉ hint.
Proof. intros He Hh. apply He, expand_hint_spec. by left. Qed.

Lemma clean_providers q f e :
  PQuery q f ∈ ps → e ∉ dirty → e ∉ query_hint_providers w q hint ∧ e ∉ filter_hint_providers w f hint.
Proof.
  intros Hp He. split; intros Hx; apply He, expand_hint_spec; right; exists (PQuery q f);
    (split; [done|]); simpl; apply elem_of_app; [by left|by right].
Qed.

Lemma interest_of q f : PQuery q f ∈ ps → ∃ t, query_interest q f = Some t ∧ t ⊆ tys.
Proof.
  intros Hp. destruct (concat_option_elem _ _ (sp_interest marker (PQuery q f)) (dr_interest _ _ D)) as (t & Ht & ?);
    [by apply list_elem_of_fmap_2|]. by exists t.
Qed.

(** A row that was not written, and whose related members were not. *)
Lemma row_still q f e :
  PQuery q f ∈ ps → query_row w q f e → e ∉ hint →
  (query_edges q = [] ∨ e ∉ dirty) → query_row w0 q f e ∧ filtered_deps w0 q f e = filtered_deps w q f e.
Proof.
  intros Hp Hrow He Hrelated. destruct (interest_of q f Hp) as (t & Ht & Hsub).
  destruct (dr_anchored _ _ D q f Hp) as [Ha Hn].
  assert (unmoved_row w0 w e t) as Hu by (eapply unmoved_sub; [by apply unhinted|done]).
  split; [by eapply query_row_back|]. eapply filtered_deps_same; [exact Ht|exact Hn|exact Hu|].
  destruct q as [fac|ty|ty|fac parts]; try done. intros part Hpart.
  destruct part as [| | | |inv edge rps]; try done.
  assert ((inv, edge) ∈ query_edges (ParamRow fac parts)) as Hedge.
  { simpl. apply list_elem_of_bind. exists (PartRelated inv edge rps). split; [by left|done]. }
  destruct Hrelated as [Hno|Hclean]; [rewrite Hno in Hedge; by apply elem_of_nil in Hedge|].
  pose proof (part_interest_in _ _ _ _ _ Ht Hpart) as Hpi. simpl in Hpi.
  destruct (dr_edges _ _ D _ _ inv edge Hp) as [Hinv Htr]; [apply elem_of_app; by left|].
  assert (members_of w0 inv e = members_of w inv e) as Hms.
  { eapply (members_same X0 w0 w); try done.
    - eapply Hsep; [exact Hp|]. apply elem_of_app. by left.
    - apply Hu, Hpi. by left. }
  split; [unfold related_members; unfold members_of in Hms; by rewrite Hms|].
  intros m Hm. eapply unmoved_sub; [apply unhinted|]. 2: { intros ty ?. apply Hsub, Hpi. by right. }
  intros Hhint. apply (proj1 (clean_providers _ _ _ Hp Hclean)). eapply related_hinted; [exact Hedge|exact Hinv| |exact Hhint].
  unfold related_members in Hm. fold (members_of w inv e) in Hm.
  destruct (members_of w inv e) as [ms|] eqn:Hms'; simpl in Hm; [|by apply elem_of_nil in Hm].
  assert (has w inv e = true) as Hhas.
  { apply has_row. unfold members_of, row_value in Hms'. destruct (row w inv e); [by eexists|done]. }
  destruct (members_spec w inv e Hrel (mk_is_Some _ _ Hinv) Hhas) as (ms2 & Heq & _ & Hpt). rewrite Hms' in Heq.
  injection Heq as <-. by apply Hpt.
Qed.

(** The rows picked so far are where they were. *)
Definition clean (x : SystemParam * ParamState) : Prop :=
  x.1 ∈ ps ∧ param_row w x.1 x.2 ∧
  ∀ q f e, x = (PQuery q f, SRow e) → e ∉ hint ∧ (sp_delta_shape (PQuery q f) = Driver → e ∉ dirty).

Lemma clean_still q f e :
  clean (PQuery q f, SRow e) → query_row w0 q f e ∧ filtered_deps w0 q f e = filtered_deps w q f e.
Proof.
  intros (Hp & Hrow & Hc). simpl in *. destruct (Hc _ _ _ eq_refl) as [He Hd]. apply row_still; try done.
  pose proof (query_shape ps q f (dr_shape _ _ D) Hp) as Hshape.
  destruct (binding_of (PQuery q f)); [right; by apply Hd|left..|done]; by apply (dr_pairs _ _ D q f Hp).
Qed.

Lemma provided_same x key :
  clean x → value_tracked key = true →
  (sp_provided_key w0 x.1 x.2 key = sp_provided_key w x.1 x.2 key) ∧
  (separates w0 w key → sp_provided_members w0 x.1 x.2 key = sp_provided_members w x.1 x.2 key).
Proof.
  intros Hc Ht. destruct x as [p s]. destruct p as [q f|q f|q f|q f|o|], s as [e| |]; try done. simpl.
  pose proof Hc as (Hp & Hrow & Hcl). destruct (clean_still q f e Hc) as [Hrow0 _].
  destruct (Hcl _ _ _ eq_refl) as [He _]. simpl in *.
  destruct (interest_of q f Hp) as (t & Hint & Hsub).
  destruct (query_provides_key q key) eqn:Hk.
  - assert (row_revision w key e = row_revision w0 key e) as Hr.
    { apply (unhinted e He), Hsub. by eapply provides_interest. }
    destruct Hrow as (_ & Hm & _), Hrow0 as (_ & Hm0 & _).
    destruct (query_provides w q e key Hk Hm) as (_ & -> & _).
    destruct (query_provides w0 q e key Hk Hm0) as (_ & -> & _). split.
    + f_equal. symmetry. by eapply (fingerprint_same X0 w0 w).
    + intros Hs. rewrite !query_provided_members_eq by done. by eapply (members_same X0 w0 w).
  - split.
    + destruct (query_provided_key w0 q e key) eqn:H1'; [apply query_provided_key_inv in H1' as [? _]; congruence|].
      destruct (query_provided_key w q e key) eqn:H2'; [apply query_provided_key_inv in H2' as [? _]; congruence|done].
    + intros _. destruct (query_provided_members w0 q e key) eqn:H1'; [apply query_provided_members_inv in H1' as [? _]; congruence|].
      destruct (query_provided_members w q e key) eqn:H2'; [apply query_provided_members_inv in H2' as [? _]; congruence|done].
Qed.

Lemma picked_same picked key :
  Forall clean picked → value_tracked key = true →
  picked_key w0 picked key = picked_key w picked key ∧
  (separates w0 w key → picked_members w0 picked key = picked_members w picked key).
Proof.
  intros Hc Ht. rewrite Forall_forall in Hc. split; [|intros Hs]; apply first_some_ext; intros x Hx;
    destruct (provided_same x key (Hc x Hx) Ht) as [Hk Hms]; destruct x as [p s]; [done|by apply Hms].
Qed.

(** The provider a join was read from is a clean driver. *)
Lemma provider_clean picked p key p' e' :
  Forall clean picked → bound_key p = Some key →
  forallb (λ p', negb (sp_provides_key p' key) || bool_decide (sp_delta_shape p' = Driver)) picked.*1 = true →
  (p', SRow e') ∈ picked → sp_provides_key p' key = true →
  ∃ q f, p' = PQuery q f ∧ e' ∉ dirty ∧ query_row w q f e'.
Proof.
  intros Hc Hk Hd Hin Hprov. rewrite Forall_forall in Hc. destruct (Hc _ Hin) as (Hp & Hrow & Hcl). simpl in *.
  rewrite forallb_elem_of in Hd. specialize (Hd p' (list_elem_of_fmap_2 fst _ _ Hin)). rewrite Hprov in Hd.
  apply bool_decide_eq_true in Hd. destruct (driver_query p' Hd) as (q & f & -> & _).
  exists q, f. split; [done|]. split; [|done]. by apply (Hcl q f e' eq_refl).
Qed.

Lemma bound_back picked p s :
  Forall clean picked → p ∈ ps → param_row w p s →
  (∀ q f e, (p, s) = (PQuery q f, SRow e) → sp_delta_shape (PQuery q f) = Driver → e ∉ dirty) →
  match bound_key p with
  | Some key => forallb (λ p', negb (sp_provides_key p' key) || bool_decide (sp_delta_shape p' = Driver)) picked.*1
  | None => true
  end = true →
  bound_ok w picked p s → clean (p, s) ∧ bound_ok w0 picked p s.
Proof.
  intros Hc Hp Hrow Hdriver Hdirect Hbound.
  assert (∀ q f, p = PQuery q f → sp_delta_shape (PQuery q f) = PairBound → ∀ m, s = SRow m → m ∉ hint → clean (p, s)) as Hpair.
  { intros q f -> Hs m -> Hm. split_and!; [done..|]. intros q' f' e' [= <- <- <-]. split; [done|]. by rewrite Hs. }
  assert (∀ q f, p = PQuery q f → match binding_of (PQuery q f) with
    | Unbound => sp_delta_shape (PQuery q f) = Driver | Invalid => False
    | _ => sp_delta_shape (PQuery q f) = PairBound end) as Hshape.
  { intros q f ->. by eapply query_shape; [apply (dr_shape _ _ D)|]. }
  unfold bound_ok in *. pose proof (binding_cases p) as Hcase.
  assert (∀ key, binding_of p = Membership key ∨ binding_of p = Equality key → bound_key p = Some key) as Hbk.
  { intros key [Hb|Hb]; unfold bound_key; by rewrite Hb. }
  destruct (binding_of p) as [|key|key|] eqn:Hb; [| | |done].
  - split; [|done]. split_and!; [done..|]. intros q f e [= -> ->]. specialize (Hshape q f eq_refl). rewrite Hb in Hshape.
    specialize (Hdriver q f e eq_refl Hshape). split; [by apply clean_unhinted|done].
  - destruct Hcase as (q & f & -> & _ & Hin & _). specialize (Hshape q f eq_refl). rewrite Hb in Hshape.
    specialize (Hbk key (or_introl eq_refl)). rewrite Hbk in Hdirect.
    destruct (in_key_edge f key) as [edge Hedge]; [rewrite Hin; by left|].
    assert ((key, edge) ∈ query_edges q ++ filter_edges f) as Hedge' by (apply elem_of_app; by right).
    destruct (dr_edges _ _ D q f key edge Hp Hedge') as [Hinv Htr].
    destruct Hbound as (ms & m & Hms & -> & Hm).
    apply picked_members_inv in Hms as Hpi. destruct Hpi as (p' & q' & f' & e' & Hin' & -> & Hprov & Hme).
    destruct (provider_clean picked _ key _ _ Hc Hbk Hdirect Hin' Hprov) as (q2 & f2 & [= <- <-] & Hclean & Hrow').
    assert (m ∉ hint) as Hmh.
    { intros Hmh. apply (proj2 (clean_providers q f e' Hp Hclean)).
      assert (has w key e' = true) as Hhas.
      { apply has_row. unfold members_of, row_value in Hme. destruct (row w key e'); [by eexists|done]. }
      destruct (members_spec w key e' Hrel (mk_is_Some _ _ Hinv) Hhas) as (ms2 & Heq & _ & Hpt).
      assert (ms2 = ms) as -> by congruence. apply Hpt in Hm.
      eapply filter_in_hinted; [by apply (dr_pairs _ _ D q f Hp)|exact Hedge|exact Hinv|exact Hm|exact Hmh]. }
    split; [by eapply Hpair|]. exists ms, m. split_and!; [|done..].
    rewrite (proj2 (picked_same picked key Hc Htr)); [done|]. by eapply Hsep.
  - destruct Hcase as (q & f & -> & _ & _ & Hin). specialize (Hshape q f eq_refl). rewrite Hb in Hshape.
    specialize (Hbk key (or_intror eq_refl)). rewrite Hbk in Hdirect.
    assert (key ∈ filter_bound_key_types f) as Hkt by (rewrite Hin; by left).
    pose proof (dr_keys _ _ D q f key Hp Hkt) as Htr.
    destruct Hbound as (k & m & Hk & -> & Hm).
    apply picked_key_inv in Hk as Hpi. destruct Hpi as (p' & q' & f' & e' & Hin' & -> & Hprov & Hke).
    destruct (provider_clean picked _ key _ _ Hc Hbk Hdirect Hin' Hprov) as (q2 & f2 & [= <- <-] & Hclean & Hrow').
    assert (m ∉ hint) as Hmh.
    { intros Hmh. apply (proj2 (clean_providers q f e' Hp Hclean)).
      eapply filter_eq_hinted; [exact Hwf|by apply (dr_pairs _ _ D q f Hp)|exact Hkt|exact Hm|by rewrite <-Hke|exact Hmh]. }
    split; [by eapply Hpair|]. exists k, m. split_and!; [|done|].
    + by rewrite (proj1 (picked_same picked key Hc Htr)).
    + rewrite <-Hm. symmetry. eapply (fingerprint_same X0 w0 w); try done. apply (unhinted m Hmh).
      destruct (interest_of q f Hp) as (t & Ht & Hsub). apply Hsub. eapply bound_interest; [exact Ht|by left].
Qed.

Lemma joined_back rows picked :
  Forall clean picked →
  (∀ p s, (p, s) ∈ rows → p ∈ ps ∧ param_row w p s ∧
     ∀ q f e, (p, s) = (PQuery q f, SRow e) → sp_delta_shape (PQuery q f) = Driver → e ∉ dirty) →
  direct_pairs picked.*1 rows.*1 = true → joined w picked rows → Forall clean rows ∧ joined w0 picked rows.
Proof.
  revert picked. induction rows as [|[p s] rows IH]; intros picked Hc Hrows; simpl; [by split|].
  intros [Hd Hds]%andb_true_iff [Hb Hjs]. destruct (Hrows p s ltac:(left)) as (Hp & Hrow & Hdr).
  destruct (bound_back picked p s Hc Hp Hrow Hdr Hd Hb) as [Hcl Hb0].
  destruct (IH (picked ++ [(p, s)])) as [Hcs Hj0'].
  - apply Forall_app. split; [done|]. by apply Forall_singleton.
  - intros p' s' ?. apply Hrows. by right.
  - by rewrite fmap_app.
  - done.
  - split; [by constructor|done].
Qed.

(** ** The narrowed buffers *)

Record narrowed (x : SystemParam * list ParamState) : Prop := {
  nw_nodup : NoDup x.2;
  nw_rows s : s ∈ x.2 → param_row w x.1 s;
  nw_all s : sp_delta_shape x.1 ≠ PairBound → param_row w x.1 s →
    (large w x.1 = true → ∀ e, s = SRow e → e ∈ dirty) → s ∈ x.2;
  nw_tiny e : sp_delta_shape x.1 = Driver → large w x.1 = false → SRow e ∈ x.2 → e ∉ dirty;
}.

Lemma hinted_buffer_spec p :
  p ∈ ps → ∃ out, hinted_buffer w dirty p = Done out ∧ match out with None => True | Some b => narrowed (p, b) end.
Proof.
  intros Hp. unfold hinted_buffer. case_bool_decide as Hpair.
  { eexists. split; [done|]. split; simpl; [constructor|by intros s ?%elem_of_nil|done|by intros e _ _ ?%elem_of_nil]. }
  destruct (large w p) eqn:Hl.
  - pose proof Hl as Hlarge. apply andb_true_iff in Hlarge as [Hd%bool_decide_eq_true _].
    destruct (driver_query p Hd) as (q & f & -> & _). destruct (jn_sound _ _ Hj _ Hp) as [_ Hc].
    destruct (dr_anchored _ _ D q f Hp) as [Ha _]. unfold sp_states_hinted, filtered_rows_from_candidates.
    rewrite (rows_hinted_some X) by done. simpl. eexists. split; [done|].
    assert (∀ e, e ∈ filter (λ e, filter_matches w f e = true)
        (match q with ParamEntity _ => dirty | _ => filter (λ e, row_matches w q e = true) dirty end) ↔
      e ∈ dirty ∧ query_row w q f e) as Hin.
    { intros e. rewrite list_elem_of_filter. unfold query_row.
      assert (row_matches w q e = true → filter_matches w f e = true → (e < next_entity (shared w))%N) as Hal.
      { intros Hq Hf. destruct (anchored_has w q f e Ha Hq Hf) as [ty Hty]. by apply (proj1 Hadd ty). }
      destruct q as [fac|ty|ty|fac parts]; [simpl in Hc; simpl; simpl in Hal; rewrite Hc in *; simpl in *|..];
        rewrite ?list_elem_of_filter; tauto. }
    split; simpl.
    + apply row_states_NoDup, NoDup_filter. pose proof (NoDup_sort_dedup (hint ++ (p ← ps; sp_hint_providers w p hint))).
      destruct q; try done; by apply NoDup_filter.
    + intros s (e & -> & [_ ?]%Hin)%row_states_spec. done.
    + intros s _ Hrow Hs. destruct s as [e| |]; try done. apply row_states_spec. exists e. split; [done|].
      apply Hin. split; [by apply (Hs Hl)|done].
    + rewrite Hl. done.
  - destruct (sp_states_spec X w p Hwf Hadd (jn_sound _ _ Hj p Hp)) as (l & -> & Hnd & Hin). simpl.
    eexists. split; [done|]. destruct (_ && _) eqn:Htiny; [done|]. split; simpl; [done|..].
    + intros s. by apply Hin.
    + intros s _ ? _. by apply Hin.
    + intros e Hd _ He. rewrite bool_decide_eq_true_2 in Htiny by done. simpl in Htiny. intros Hdirty.
      assert (existsb (λ s, existsb (λ k, bool_decide (k ∈ dirty)) (sp_keys s)) l = true) as Hx; [|congruence].
      apply existsb_elem_of. exists (SRow e). split; [done|]. simpl. by rewrite bool_decide_eq_true_2.
Qed.

Lemma hinted_buffers_spec l :
  l ⊆ ps → ∃ out, hinted_buffers w dirty l = Done out ∧
    match out with None => True | Some buffers => buffers.*1 = l ∧ ∀ x, x ∈ buffers → narrowed x end.
Proof.
  induction l as [|p l IH]; intros Hl; simpl.
  { eexists. split; [done|]. simpl. split; [done|]. by intros x ?%elem_of_nil. }
  destruct (hinted_buffer_spec p) as (b & -> & Hb); [apply Hl; by left|]. simpl. destruct b as [b|]; [|by eexists].
  destruct IH as (out & -> & Hout); [intros p' ?; apply Hl; by right|]. simpl. destruct out as [buffers|]; [|by eexists].
  simpl. eexists. split; [done|]. simpl. destruct Hout as [<- Hout]. split; [done|].
  intros x [->|?]%elem_of_cons; auto.
Qed.

(** Every driver row of the tuple is clean when one of the large driver is. *)
Definition in_hint (x : SystemParam * ParamState) : bool :=
  negb (large w x.1) || existsb (λ k, bool_decide (k ∈ dirty)) (sp_keys x.2).

(** A row all of whose entities are hinted is planned. *)
Lemma keyed_in_hint st : Forall2 (param_row w) ps st → tuple_keys st ⊆ hint → forallb in_hint (zip ps st) = true.
Proof.
  intros Hst Hkeys. apply forallb_elem_of. intros [p s] [i Hi]%list_elem_of_lookup.
  destruct (zip_rows w ps st i p s Hi Hst) as (_ & Hs & Hrow). unfold in_hint. simpl.
  destruct (large w p) eqn:Hl; [simpl|done]. apply andb_true_iff in Hl as [Hd%bool_decide_eq_true _].
  destruct (driver_query p Hd) as (q & f & -> & _). destruct s as [e| |]; try done. simpl.
  rewrite orb_false_r. apply bool_decide_eq_true, expand_hint_spec. left. apply Hkeys.
  unfold tuple_keys. apply list_elem_of_bind. exists (SRow e). split; [by left|]. by eapply list_elem_of_lookup_2.
Qed.

Lemma tuple_deps_same st :
  Forall clean (zip ps st) → tuple_deps (sp_deps marker w0) ps st = tuple_deps (sp_deps marker w) ps st.
Proof.
  assert (∀ l st, l ⊆ ps → Forall clean (zip l st) → tuple_deps (sp_deps marker w0) l st = tuple_deps (sp_deps marker w) l st)
    as Hall; [|by apply Hall].
  clear st. intros l. induction l as [|p l IH]; intros [|s st] Hl Hc; [done..|]. simpl in *.
  apply Forall_cons in Hc as [Hx Hc]. rewrite (IH st) by (done || (intros p' ?; apply Hl; by right)).
  assert (sp_deps marker w0 p s = sp_deps marker w p s) as ->; [|done].
  assert (sp_delta_shape p ≠ OpaqueShape) as Hne.
  { intros Ho. pose proof (dr_shape _ _ D) as Hs. unfold tuple_delta_shape in Hs.
    assert (existsb (λ p, bool_decide (sp_delta_shape p = OpaqueShape)) ps = true) as Hx'; [|by rewrite Hx' in Hs].
    apply existsb_elem_of. exists p. split; [apply Hl; by left|]. by apply bool_decide_eq_true. }
  destruct p as [q f|q f|q f|q f|o|]; try done. destruct s as [e| |]; try done.
  by destruct (clean_still q f e Hx).
Qed.

Lemma buffers_filled buffers st :
  buffers.*1 = ps → (∀ x, x ∈ buffers → narrowed x) → Forall2 (param_row w) ps st →
  forallb in_hint (zip ps st) = true → Forall2 (buffered w) buffers st.
Proof.
  intros Hfst Hnarrow Hst Hin. rewrite forallb_elem_of in Hin. rewrite <-Hfst, Forall2_fmap_l in Hst.
  eapply Forall2_mono_zip; [|exact Hst]. intros x s Hx Hs. simpl in Hs. unfold buffered.
  pose proof (Hnarrow x (elem_of_zip_l _ _ _ _ Hx)) as Hn. pose proof (binding_cases x.1) as Hcase.
  destruct (binding_of x.1); [|done..]. apply (nw_all _ Hn); [|done|].
  - destruct x.1 as [q f|q f|q f|q f|o|]; try done. unfold sp_delta_shape. rewrite Hcase. by case_match.
  - intros Hl e ->. apply (elem_of_zip_fst fst) in Hx. rewrite Hfst in Hx. specialize (Hin _ Hx).
    unfold in_hint in Hin. simpl in Hin. rewrite Hl in Hin. simpl in Hin. rewrite orb_false_r in Hin.
    by apply bool_decide_eq_true in Hin.
Qed.

Lemma clean_back st :
  Forall2 (param_row w) ps st → joined w [] (zip ps st) →
  (∀ p s, (p, s) ∈ zip ps st → p ∈ ps ∧ param_row w p s ∧
     ∀ q f e, (p, s) = (PQuery q f, SRow e) → sp_delta_shape (PQuery q f) = Driver → e ∉ dirty) →
  Forall2 (param_row w0) ps st ∧ binding_matches w0 ps st = Done true ∧
  tuple_deps (sp_deps marker w0) ps st = tuple_deps (sp_deps marker w) ps st.
Proof.
  intros Hst Hjoin Hrows.
  assert ((zip ps st).*1 = ps) as Hzip by (apply fst_zip; by rewrite (Forall2_length _ _ _ Hst)).
  destruct (joined_back (zip ps st) []) as [Hc Hj0'].
  - constructor.
  - exact Hrows.
  - rewrite Hzip. apply (dr_direct _ _ D).
  - done.
  - assert (Forall2 (param_row w0) ps st) as Hst0.
    { eapply Forall2_mono_zip; [|exact Hst]. intros p' s' Hin' Hr'. rewrite Forall_forall in Hc.
      specialize (Hc _ Hin'). destruct p' as [q f|q f|q f|q f|o|], s' as [e| |]; try done.
      - by apply clean_still.
      - exfalso. pose proof (dr_shape _ _ D) as Hs0. unfold tuple_delta_shape in Hs0.
        assert (existsb (λ p, bool_decide (sp_delta_shape p = OpaqueShape)) ps = true) as Hx; [|by rewrite Hx in Hs0].
        apply existsb_elem_of. exists (POuter q f). split; [apply Hc|done]. }
    split_and!; [done| |by apply tuple_deps_same].
    eapply (checks_of_joined w0 ps); try done. by eapply ready_no_prune.
Qed.

Lemma rows_back buffers st :
  buffers.*1 = ps → (∀ x, x ∈ buffers → narrowed x) → length (filter (λ p, large w p = true) ps) ≤ 1 →
  Forall2 (param_row w) ps st → joined w [] (zip ps st) → forallb in_hint (zip ps st) ≠ true →
  Forall2 (param_row w0) ps st ∧ binding_matches w0 ps st = Done true ∧
  tuple_deps (sp_deps marker w0) ps st = tuple_deps (sp_deps marker w) ps st.
Proof.
  intros Hfst Hnarrow Hone Hst Hjoin Hin.
  assert (∃ i p s, zip ps st !! i = Some (p, s) ∧ in_hint (p, s) = false) as (i & p & s & Hi & Hout).
  { clear -Hin. induction (zip ps st) as [|[p s] l IH]; [done|]. simpl in Hin.
    destruct (in_hint (p, s)) eqn:Hx; [|by exists 0, p, s]. destruct IH as (i & p' & s' & ? & ?); [done|].
    by exists (S i), p', s'. }
  unfold in_hint in Hout. simpl in Hout. apply orb_false_iff in Hout as [Hl%negb_false_iff Hk].
  destruct (zip_rows w ps st i p s Hi Hst) as (Hp & Hs & Hrow).
  assert (∀ p' s', (p', s') ∈ zip ps st → p' ∈ ps ∧ param_row w p' s' ∧
     ∀ q f e, (p', s') = (PQuery q f, SRow e) → sp_delta_shape (PQuery q f) = Driver → e ∉ dirty) as Hrows.
  { intros p' s' [j Hj']%list_elem_of_lookup. destruct (zip_rows w ps st j p' s' Hj' Hst) as (Hp' & Hs' & Hrow').
    split_and!; [by eapply list_elem_of_lookup_2|done|]. intros q f e [= -> ->] Hd.
    destruct (large w (PQuery q f)) eqn:Hl'.
    - pose proof (filter_single (λ p, large w p = true) ps i j p _ Hone Hp Hp' Hl Hl') as <-.
      rewrite Hs in Hs'. injection Hs' as ->. intros Hdirty. simpl in Hk.
      rewrite bool_decide_eq_true_2 in Hk by done. done.
    - rewrite <-Hfst, list_lookup_fmap in Hp'. apply fmap_Some in Hp' as (x & Hx & Heq).
      apply list_elem_of_lookup_2 in Hx. apply (nw_tiny _ (Hnarrow x Hx)); rewrite <-?Heq; try done.
      apply (nw_all _ (Hnarrow x Hx)); rewrite <-Heq; [by rewrite Hd|done|by rewrite Hl']. }
  by apply clean_back.
Qed.

Lemma hinted_states_aux :
  ∃ full out, tuple_states w ps = Done full ∧ tuple_states_hinted w ps hint = Done out ∧ NoDup out ∧
    (∀ st, st ∈ out → st ∈ full) ∧ (∀ st, st ∈ full → tuple_keys st ⊆ hint → st ∈ out) ∧
    ∀ st, st ∈ full → st ∈ out ∨
      (Forall2 (param_row w0) ps st ∧ binding_matches w0 ps st = Done true ∧
       tuple_deps (sp_deps marker w0) ps st = tuple_deps (sp_deps marker w) ps st).
Proof.
  destruct (tuple_states_aux marker X w ps Hwf Hadd Hrel Hj Hreg) as (full & Hfull & Hfn & Hfin).
  unfold tuple_states_hinted. rewrite Hfull.
  case_bool_decide as Hmany.
  { exists full, full. split_and!; try done. by left. }
  destruct (hinted_buffers_spec ps) as (out & -> & Hout); [done|]. simpl. destruct out as [buffers|].
  2: { exists full, full. split_and!; try done. by left. }
  destruct Hout as [Hfst Hnarrow].
  destruct (for_each_exact X w Hwf Hadd Hrel ps buffers [] Hj) as (out & Hout & Hnd & Hspec).
  { intros x Hx. destruct (Hnarrow x Hx). split_and!; try done. rewrite <-Hfst. by apply list_elem_of_fmap_2. }
  { constructor. }
  { rewrite Hfst. apply (rg_precede _ _ Hreg). }
  rewrite Hfst in Hspec. simpl in Hspec. rewrite Hout. exists full, out. split_and!; try done.
  - intros st (st' & -> & Hbuf & Hjoin)%Hspec. simpl. apply Hfin.
    assert (Forall2 (param_row w) ps st') as Hst.
    { rewrite <-Hfst. apply Forall2_fmap_l. eapply Forall2_mono_zip; [|exact Hbuf].
      intros x s Hx%elem_of_zip_l Hs. unfold buffered in Hs. destruct (Hnarrow x Hx). destruct (binding_of x.1); auto. }
    split; [done|]. eapply (checks_of_joined w ps); try done. by eapply ready_no_prune.
  - intros st [Hst Hb]%Hfin Hkeys.
    apply Hspec. exists st. split_and!; [done| |by eapply joined_of_checks].
    apply buffers_filled; [done..|]. by apply keyed_in_hint.
  - intros st [Hst Hb]%Hfin.
    pose proof (joined_of_checks marker w ps Hrel Hj Hreg st Hst Hb) as Hjoin.
    destruct (forallb in_hint (zip ps st)) eqn:Hin; [left|right].
    + apply Hspec. exists st. split_and!; [done|by apply buffers_filled|done].
    + apply not_true_iff_false in Hin. apply (rows_back buffers); try done. apply Nat.nlt_ge. exact Hmany.
Qed.
End between.

(** ** Invocations of a plan *)

Lemma dep_eqb_spec a b :
  dep_eqb a b = true ↔ dep_type a = dep_type b ∧ dep_entity a = dep_entity b ∧ dep_revision a = dep_revision b ∧
    dep_store_scoped a = dep_store_scoped b.
Proof. unfold dep_eqb. rewrite !andb_true_iff, !bool_decide_eq_true, Bool.eqb_true_iff. tauto. Qed.

Lemma deps_eq_sym a b : deps_eq a b → deps_eq b a.
Proof. induction 1 as [|x y a b Hx _ IH]; constructor; [|done]. rewrite dep_eqb_spec in *. naive_solver. Qed.

Lemma deps_eqb_spec a b : deps_eqb a b = true ↔ deps_eq a b.
Proof.
  unfold deps_eqb, deps_eq. rewrite andb_true_iff, bool_decide_eq_true, forallb_elem_of. split.
  - intros [Hlen Hall]. revert b Hlen Hall. induction a as [|x a IH]; intros [|y b] Hlen Hall; try done; constructor.
    + apply (Hall (x, y)). by left.
    + apply IH; [simpl in Hlen; lia|]. intros z ?. apply Hall. by right.
  - intros Hab. split; [by apply Forall2_length in Hab|]. intros [x y] [i Hi]%list_elem_of_lookup.
    apply lookup_zip_Some in Hi as [Hx Hy]. by apply (Forall2_lookup_lr _ _ _ _ _ _ Hab Hx Hy).
Qed.

Lemma deps_eq_hit memo owner a b : deps_eq a b → memo_hit memo owner a = memo_hit memo owner b.
Proof.
  intros Hab. unfold memo_hit. destruct (memo !! owner) as [entry|]; [|done].
  assert (∀ l l' : list Dep, deps_eq l l' → ∀ k, deps_eq k l → deps_eq k l') as Htrans.
  { intros l l' Hl k Hk. revert l' Hl. induction Hk as [|x y k l Hx Hk IH]; intros l' Hl.
    - apply Forall2_nil_inv_l in Hl. subst. constructor.
    - apply Forall2_cons_inv_l in Hl as (z & l2 & Hz & Hl & ->). constructor; [|by apply IH].
      rewrite dep_eqb_spec in *. naive_solver congruence. }
  pose proof (deps_eq_sym a b Hab) as Hba.
  apply eq_true_iff_eq. rewrite !deps_eqb_spec. split; by apply Htrans.
Qed.

Lemma sp_deps_total w p s :
  param_row w p s → ∃ ds ds', sp_deps marker w p s = Done ds ∧ sp_prepared_deps marker w p s = Done ds' ∧ deps_eq ds' ds.
Proof.
  intros Hrow. destruct p as [q f|q f|q f|q f|o|], s as [e| |]; try done; simpl in *;
    try (by eexists _, _; split_and!; [done|done|apply deps_eq_refl]).
  - destruct Hrow as (_ & Hq & Hf). destruct (dependencies_total w q f e Hq Hf) as (ds & ds' & ? & ? & ?). by exists ds, ds'.
  - destruct Hrow as (_ & Hq & Hf). destruct (dependencies_total w q f e Hq Hf) as (ds & ds' & Hd & _).
    exists ds, ds. split_and!; [done..|apply deps_eq_refl].
Qed.

Lemma tuple_deps_total w ps st :
  Forall2 (param_row w) ps st → ∃ ds ds', tuple_deps (sp_deps marker w) ps st = Done ds ∧
    tuple_deps (sp_prepared_deps marker w) ps st = Done ds' ∧ deps_eq ds' ds.
Proof.
  induction 1 as [|p s ps st Hs Hst IH]; [by exists [], []; split_and!; [..|constructor]|].
  destruct (sp_deps_total w p s Hs) as (a & a' & Ha & Ha' & Haa). destruct IH as (b & b' & Hb & Hb' & Hbb).
  exists (a ++ b), (a' ++ b'). simpl. rewrite Ha, Ha'. simpl. rewrite Hb, Hb'. split_and!; [done..|]. by apply Forall2_app.
Qed.

Lemma plan_state_spec system w ps memo st :
  Forall2 (param_row w) ps st →
  ∃ ds ds', tuple_deps (sp_deps marker w) ps st = Done ds ∧
    plan_state marker system w ps memo st =
      Done (if negb (tuple_always_run ps) && memo_hit memo (Invocation system (tuple_keys st)) ds then []
            else [MkPlanned st (Invocation system (tuple_keys st)) ds' (tuple_access marker w ps st)]).
Proof.
  intros Hst. destruct (tuple_deps_total w ps st Hst) as (ds & ds' & Hds & Hds' & Heq). exists ds, ds'. split; [done|].
  unfold plan_state. rewrite Hds'. simpl. rewrite (deps_eq_hit memo _ ds' ds Heq).
  by destruct (negb _ && _).
Qed.

Lemma plan_once system w ps memo states out :
  flat_result (plan_state marker system w ps memo) states = Done out → sublist (pl_state <$> out) states.
Proof.
  revert out. induction states as [|st states IH]; intros out; simpl; [intros [= <-]; constructor|].
  intros (b & Hb & Hr)%bind_Done. apply bind_Done in Hr as (bs & Hbs & [= <-]). rewrite fmap_app. specialize (IH _ Hbs).
  unfold plan_state in Hb. apply bind_Done in Hb as (ds & _ & Hb). destruct (negb _ && _); injection Hb as <-.
  - by constructor.
  - by constructor.
Qed.

Lemma ready_not_always ps tys : delta_ready ps tys → tuple_always_run ps = false.
Proof.
  intros D. apply not_true_is_false. intros (p & Hin & Hp)%existsb_elem_of. destruct p; try done.
  pose proof (dr_shape _ _ D) as Hs. unfold tuple_delta_shape in Hs.
  assert (existsb (λ p, bool_decide (sp_delta_shape p = OpaqueShape)) ps = true) as Hx; [|by rewrite Hx in Hs].
  apply existsb_elem_of. exists PMeta. split; [done|]. by apply bool_decide_eq_true.
Qed.

(** ** Properties of planning *)

(** C9: planning from the dirty entities is planning.  Take a system whose joins
    are read off drivers, planned at [w0]; let the world evolve to [w] and let
    the hint name every entity with a changed row in an interest store.  If the
    memo records the rows of the previous plan whose dependencies did not move,
    then the narrowed plan succeeds and runs exactly the invocations of the full
    plan, each once. *)
Theorem delta_plan_exact X0 w0 X w ps tys hint system memo states0 :
  wf X0 w0 → rtc world_step (X0, w0) (X, w) → addressable w0 → addressable w → rel_ok w0 → rel_ok w →
  joinable w0 ps → joinable w ps → registered marker ps → delta_ready ps tys →
  (∀ ty e, ty ∈ tys → row_revision w ty e ≠ row_revision w0 ty e → e ∈ hint) →
  (∀ q f inv edge, PQuery q f ∈ ps → (inv, edge) ∈ query_edges q ++ filter_edges f → separates w0 w inv) →
  tuple_states w0 ps = Done states0 →
  (∀ st ds, st ∈ states0 → tuple_deps (sp_deps marker w0) ps st = Done ds →
     tuple_deps (sp_deps marker w) ps st = Done ds → memo_hit memo (Invocation system (tuple_keys st)) ds = true) →
  ∃ full hinted, plan_invocations marker system w ps memo None = Done full ∧
    plan_invocations marker system w ps memo (Some hint) = Done hinted ∧ NoDup (pl_state <$> hinted.2) ∧
    ∀ i, i ∈ hinted.2 ↔ i ∈ full.2.
Proof.
  intros Hwf0 Hsteps Hadd0 Hadd Hrel0 Hrel Hj0 Hj Hreg D Hmoved Hsep Hstates0 Hmemo.
  destruct (world_steps_good _ _ Hsteps Hwf0) as [Hwf Hprog%evolves_progressed].
  destruct (hinted_states_aux X0 X w0 w ps tys hint) as (full & out & Hfull & Hout & Hnd & Hsub & _ & Hback); try done.
  destruct (tuple_states_aux marker X w ps Hwf Hadd Hrel Hj Hreg) as (full' & Hfull' & _ & Hin).
  rewrite Hfull in Hfull'. injection Hfull' as <-.
  destruct (tuple_states_aux marker X0 w0 ps Hwf0 Hadd0 Hrel0 Hj0 Hreg) as (s0 & Hs0 & _ & Hin0).
  rewrite Hstates0 in Hs0. injection Hs0 as <-.
  set (plan := plan_state marker system w ps memo).
  assert (∀ st, st ∈ full → ∃ b, plan st = Done b) as Htotal.
  { intros st [Hst _]%Hin. destruct (plan_state_spec system w ps memo st Hst) as (ds & ds' & _ & Hp). by eexists. }
  destruct (flat_result_total plan full Htotal) as [ifull Hifull].
  destruct (flat_result_total plan out) as [iout Hiout]; [intros st ?; by apply Htotal, Hsub|].
  exists (negb (bool_decide (full = [])), ifull), (negb (bool_decide (out = [])), iout).
  unfold plan_invocations. rewrite Hfull, Hout. simpl. fold plan. rewrite Hifull, Hiout. simpl. split_and!; try done.
  - apply (sublist_NoDup _ out); [exact Hnd|]. by eapply plan_once.
  - intros i. rewrite (elem_of_flat_result _ _ _ i Hiout), (elem_of_flat_result _ _ _ i Hifull). split.
    + intros (st & b & Hst & Hb & ?). exists st, b. split_and!; [by apply Hsub|done..].
    + intros (st & b & Hst & Hb & Hinv). destruct (Hback st Hst) as [|(Hst0 & Hb0 & Hdeps)]; [by exists st, b|].
      exfalso. apply Hin in Hst as [Hst _]. destruct (plan_state_spec system w ps memo st Hst) as (ds & ds' & Hds & Hp).
      fold plan in Hp. rewrite Hb in Hp. rewrite (ready_not_always _ _ D) in Hp. simpl in Hp.
      rewrite (Hmemo st ds) in Hp; [injection Hp as ->; by apply elem_of_nil in Hinv| |by rewrite Hdeps|done].
      by apply Hin0.
Qed.

(** The counts of [explain] are those of the planner: the matched rows are
    the memoized ones plus the invocations a full plan runs. *)
Theorem count_rows_exact X w ps system memo matched memoized completed planned :
  wf X w → addressable w → rel_ok w → joinable w ps → registered marker ps →
  count_rows marker system w ps memo = Done (matched, memoized) →
  plan_invocations marker system w ps memo None = Done (completed, planned) →
  matched = memoized + length planned ∧ completed = bool_decide (0 < matched).
Proof.
  intros Hwf Hadd Hrel Hj Hreg. unfold count_rows, plan_invocations.
  destruct (tuple_states_aux marker X w ps Hwf Hadd Hrel Hj Hreg) as (full & -> & _ & Hin). simpl.
  intros (hits & Hhits & [= <- <-])%bind_Done (invs & Hinvs & [= <- <-])%bind_Done. split.
  - assert (∀ st, st ∈ full → Forall2 (param_row w) ps st) as Hall by (by intros st [? _]%Hin). clear Hin.
    revert hits invs Hhits Hinvs. induction full as [|st full IH]; intros hits invs; simpl; [by intros [= <-] [= <-]|].
    destruct (plan_state_spec system w ps memo st (Hall st ltac:(left))) as (ds & ds' & Hds & Hplan).
    rewrite Hds, Hplan. simpl.
    intros (hits' & Hhits & [= <-])%bind_Done (invs' & Hinvs & [= <-])%bind_Done.
    rewrite (IH (λ st' Hst', Hall st' (list_elem_of_further _ _ _ Hst')) hits' invs' Hhits Hinvs).
    destruct (negb _ && _); simpl; lia.
  - destruct full; [done|]. rewrite bool_decide_eq_false_2 by done. by rewrite bool_decide_eq_true_2 by (simpl; lia).
Qed.
End delta.

(** ** Concrete runs *)

(** Deciding [separates] by walking the inverse. *)
Definition separates_b `{ComponentTypes} `{HashOrder} (w0 w : World) (inv : TypeId) : bool :=
  forallb (λ e, bool_decide (is_Some (row_fingerprint w inv e)) &&
                bool_decide (members_of w0 inv e = members_of w inv e)) (entities_with w inv).

Lemma separates_b_spec `{ComponentTypes} `{HashOrder} (w0 w : World) (inv : TypeId) :
  separates_b w0 w inv = true → separates w0 w inv.
Proof.
  unfold separates_b. rewrite forallb_elem_of. intros Hall.
  assert (∀ e, has w inv e = true → is_Some (row_fingerprint w inv e) ∧ members_of w0 inv e = members_of w inv e) as Hx.
  { intros e He. apply (exactly_entities_with w inv) in He. specialize (Hall e He).
    by apply andb_true_iff in Hall as [?%bool_decide_eq_true ?%bool_decide_eq_true]. }
  split; [intros e He; by apply Hx|]. intros e k _ Hk. by apply Hx, (fingerprint_has w inv e k).
Qed.

(** Two targets, 5 with member 3 and 1 with member 2; then 3 gets a number. *)
Definition demo_d0 : World := run demo_rows (insert demo_rows 2 ty_edge (v_edge 1) None).
Definition demo_d1 : World := run demo_d0 (insert demo_d0 3 ty_num (v_num 8) None).
Definition demo_numbered_member : SystemParam :=
  PQuery (ParamRow [] [PartRef ty_edge; PartOpt ty_num]) (FIn ty_members ty_edge).
Definition demo_delta : list SystemParam := [demo_provider; demo_numbered_member].
Definition demo_delta_types : list TypeId := [ty_members; ty_edge; ty_num; ty_members].

(** What a full plan at [w] leaves in the memo. *)
Definition planned_memo (system : SystemId) (w : World) (ps : list SystemParam) : gmap SystemInvocation MemoEntry :=
  list_to_map ((λ i, (pl_owner i, MkMemo (pl_deps i) (revision w) 0)) <$>
    (run (true, []) (plan_invocations no_marker system w ps ∅ None)).2).

Lemma demo_delta_step0 : world_step (nothing_taken, demo_rows) (nothing_taken, demo_d0).
Proof. apply ws_apply, (as_insert _ 2 ty_edge (v_edge 1) None). vm_compute. reflexivity. Qed.
Lemma demo_delta_step1 : world_step (nothing_taken, demo_d0) (nothing_taken, demo_d1).
Proof. apply ws_apply, (as_insert _ 3 ty_num (v_num 8) None). vm_compute. reflexivity. Qed.

Lemma demo_wf_d0 : wf nothing_taken demo_d0.
Proof. exact (proj1 (world_step_good _ _ _ _ demo_wf_rows demo_delta_step0)). Qed.
Lemma demo_wf_d1 : wf nothing_taken demo_d1.
Proof. exact (proj1 (world_step_good _ _ _ _ demo_wf_d0 demo_delta_step1)). Qed.

Lemma demo_rel_d0 : rel_ok demo_d0.
Proof.
  refine (rel_step_ok (nothing_taken, demo_rows) (nothing_taken, demo_d0) demo_wf_rows demo_rel_rows _).
  apply (rs_insert nothing_taken demo_rows 2 ty_edge (v_edge 1) None demo_d0); vm_compute; reflexivity.
Qed.
Lemma demo_rel_d1 : rel_ok demo_d1.
Proof.
  refine (rel_step_ok (nothing_taken, demo_d0) (nothing_taken, demo_d1) demo_wf_d0 demo_rel_d0 _).
  apply (rs_insert nothing_taken demo_d0 3 ty_num (v_num 8) None demo_d1); vm_compute; reflexivity.
Qed.

Lemma demo_delta_joinable w : joinable w demo_delta.
Proof.
  split.
  - intros p [-> | ->]%elem_of_two; simpl; (split; [|done]); (split; [done|]); right; left; done.
  - intros p key [-> | ->]%elem_of_two; simpl; by intros ?%elem_of_nil.
  - intros p key [-> | ->]%elem_of_two; simpl; [by intros ?%elem_of_nil|].
    intros ->%list_elem_of_singleton. by exists ty_edge.
Qed.

Lemma demo_delta_registered : registered no_marker demo_delta.
Proof. split; vm_compute; reflexivity. Qed.

Lemma demo_delta_edges q f inv edge :
  PQuery q f ∈ demo_delta → (inv, edge) ∈ query_edges q ++ filter_edges f → inv = ty_members ∧ edge = ty_edge.
Proof.
  intros [[= -> ->] | [= -> ->]]%elem_of_two; simpl; [by intros ?%elem_of_nil|].
  by intros [= -> ->]%list_elem_of_singleton.
Qed.

Lemma demo_delta_ready : delta_ready no_marker demo_delta demo_delta_types.
Proof.
  split.
  - reflexivity.
  - reflexivity.
  - by intros q f [[= -> ->] | [= -> ->]]%elem_of_two.
  - intros q f inv edge Hp Hin. destruct (demo_delta_edges q f inv edge Hp Hin) as [-> ->]. by split.
  - intros q f key [[= -> ->] | [= -> ->]]%elem_of_two; simpl; by intros ?%elem_of_nil.
  - intros q f [[= -> ->] | [= -> ->]]%elem_of_two; [done|]. by split.
  - reflexivity.
Qed.

(** The log names every changed row. *)
Lemma demo_delta_hint ty e :
  row_revision demo_d1 ty e ≠ row_revision demo_d0 ty e → e ∈ [3%N].
Proof.
  intros Hne. destruct (world_step_good _ _ _ _ demo_wf_d0 demo_delta_step1) as [_ E].
  destruct (ev_log _ _ E) as (l & Hl & Hall).
  assert (write_log demo_d1 = write_log demo_d0 ++ [(ty_num, 3%N)]) as Hlog by (vm_compute; reflexivity).
  rewrite Hlog in Hl. apply app_inv_head in Hl as <-.
  specialize (Hall ty e (λ Heq, Hne (eq_sym Heq))). apply list_elem_of_singleton in Hall as [= -> ->]. by left.
Qed.

Lemma demo_delta_states : tuple_states demo_d0 demo_delta = Done [[SRow 1; SRow 2]; [SRow 5; SRow 3]].
Proof. vm_compute. reflexivity. Qed.

Lemma demo_delta_remembers st :
  st ∈ [[SRow 1; SRow 2]; [SRow 5; SRow 3]] →
  memo_hit (planned_memo 0 demo_d0 demo_delta) (Invocation 0 (tuple_keys st))
    (run [] (tuple_deps (sp_deps no_marker demo_d0) demo_delta st)) = true.
Proof. intros [-> | ->]%elem_of_two; vm_compute; reflexivity. Qed.

(** The new number of 3 plans the pair (5, 3) again, and only that one. *)
Lemma demo_delta_plan :
  pl_state <$> (run (true, []) (plan_invocations no_marker 0 demo_d1 demo_delta (planned_memo 0 demo_d0 demo_delta)
    (Some [3%N]))).2 = [[SRow 5; SRow 3]].
Proof. vm_compute. reflexivity. Qed.

Lemma delta_plan_exact_witness :
  ∃ full hinted,
    plan_invocations no_marker 0 demo_d1 demo_delta (planned_memo 0 demo_d0 demo_delta) None = Done full ∧
    plan_invocations no_marker 0 demo_d1 demo_delta (planned_memo 0 demo_d0 demo_delta) (Some [3%N]) = Done hinted ∧
    NoDup (pl_state <$> hinted.2) ∧ ∀ i, i ∈ hinted.2 ↔ i ∈ full.2.
Proof.
  refine (delta_plan_exact no_marker nothing_taken demo_d0 nothing_taken demo_d1 demo_delta demo_delta_types [3%N] 0
    (planned_memo 0 demo_d0 demo_delta) [[SRow 1; SRow 2]; [SRow 5; SRow 3]] demo_wf_d0 (rtc_once _ _ demo_delta_step1)
    _ _ demo_rel_d0 demo_rel_d1 (demo_delta_joinable _) (demo_delta_joinable _) demo_delta_registered demo_delta_ready
    _ _ demo_delta_states _).
  - apply (addressable_b_spec nothing_taken _ demo_wf_d0). vm_compute. reflexivity.
  - apply (addressable_b_spec nothing_taken _ demo_wf_d1). vm_compute. reflexivity.
  - intros ty e _. apply demo_delta_hint.
  - intros q f inv edge Hp Hin. destruct (demo_delta_edges q f inv edge Hp Hin) as [-> _].
    apply separates_b_spec. vm_compute. reflexivity.
  - intros st ds Hst Hds _. pose proof (demo_delta_remembers st Hst) as Hr. by rewrite Hds in Hr.
Defined.

Lemma count_rows_exact_witness :
  count_rows no_marker 0 demo_d1 demo_delta (planned_memo 0 demo_d0 demo_delta) = Done (2, 1) ∧
  2 = 1 + length (run (true, []) (plan_invocations no_marker 0 demo_d1 demo_delta
                    (planned_memo 0 demo_d0 demo_delta) None)).2 ∧ true = bool_decide (0 < 2).
Proof.
  split; [vm_compute; reflexivity|].
  apply (count_rows_exact no_marker nothing_taken demo_d1 demo_delta 0 (planned_memo 0 demo_d0 demo_delta)).
  - exact demo_wf_d1.
  - apply (addressable_b_spec nothing_taken _ demo_wf_d1). vm_compute. reflexivity.
  - exact demo_rel_d1.
  - apply demo_delta_joinable.
  - exact demo_delta_registered.
  - vm_compute. reflexivity.
  - vm_compute. reflexivity.
Defined.

(** ** A join on a joined row

    The second join takes its key from the first joined query.  A hinted partner
    of the second join is translated to the row of the first one, which is not a
    driver and is only enumerated from its own provider, which is not hinted:
    the changed combination is not planned. *)
Definition demo_chain : list SystemParam :=
  [demo_provider; PQuery (ParamRow [] [PartRef ty_edge; PartRef ty_num]) (FIn ty_members ty_edge);
   PQuery (ParamRow [] [PartOpt ty_edge]) (FEq ty_num)].

(** 3 (a member of 5) and 4 carry the number 8; then 4 gets an edge to 0. *)
Definition demo_c : World := run demo_d1 (insert demo_d1 4 ty_num (v_num 8) None).
Definition demo_c' : World := run demo_c (insert demo_c 4 ty_edge (v_edge 0) None).

Lemma chained_join_lost :
  validate_bindings no_marker demo_chain = None ∧ tuple_delta_shape demo_chain = Driver ∧
  is_Some (tuple_interest no_marker demo_chain) ∧ direct_pairs [] demo_chain = false ∧
  drop (length (write_log demo_c)) (write_log demo_c') = [(ty_edge, 4); (ty_members, 0)]%N ∧
  tuple_states demo_c' demo_chain =
    Done [[SRow 0; SRow 4; SRow 3]; [SRow 0; SRow 4; SRow 4]; [SRow 5; SRow 3; SRow 3]; [SRow 5; SRow 3; SRow 4]] ∧
  tuple_deps (sp_deps no_marker demo_c') demo_chain [SRow 5; SRow 3; SRow 4] ≠
    tuple_deps (sp_deps no_marker demo_c) demo_chain [SRow 5; SRow 3; SRow 4] ∧
  tuple_states_hinted demo_c' demo_chain [0; 4]%N = Done [[SRow 0; SRow 4; SRow 3]; [SRow 0; SRow 4; SRow 4]].
Proof. split_and!; try (vm_compute; reflexivity); [by vm_compute; eexists|by vm_compute]. Qed.

(** ** A facet anchor planned from a hint

    [Query<Entity<H>>] takes the dirty entities as its rows: 3 has no number, and
    is planned as an [Entity<H>] nevertheless. *)
Lemma hinted_anchor_unchecked :
  tuple_delta_shape [PQuery demo_anchor FNone] = Driver ∧
  tuple_states demo_only_edge [PQuery demo_anchor FNone] = Done [] ∧
  tuple_states_hinted demo_only_edge [PQuery demo_anchor FNone] [3%N] = Done [[SRow 3]].
Proof. split_and!; vm_compute; reflexivity. Qed.

(** ** Whole-store views of a facet

    [TrackedView] observes the stores of [access_all], where neither a facet
    anchor nor [Tracked<H>] names the stores of the facet: no change of them
    makes the system stale, or even plans it again. *)
Lemma tracked_view_blind fac :
  validate_bindings no_marker [PTrackedView (ParamEntity fac) FNone] = None ∧
  tuple_interest no_marker [PTrackedView (ParamEntity fac) FNone] = Some [] ∧
  ∀ w : World, sp_deps no_marker w (PTrackedView (ParamEntity fac) FNone) SUnit = Done [].
Proof. by split_and!. Qed.

(** [View] rejects an equality join, which it cannot bind, but not a membership
    join, which then restricts nothing. *)
Lemma view_membership_accepted w q inv edge e :
  supports_whole_store_view q = true →
  sp_validate_local no_marker (PView q (FIn inv edge)) = None ∧ filter_matches w (FIn inv edge) e = true.
Proof. simpl. intros ->. done. Qed.
