(* ===== verification/Fetch.v ===== *)
(** * Fetching the rows of an invocation ([query.rs], [system.rs], [prepared.rs], [query/guards.rs])

    When a planned row runs, its parameters are fetched from the snapshot it was
    planned on: every component handed to the user function is locked in its
    cell, and the token is kept in the guard store of the invocation until the
    function has returned.  The theorems: fetching a planned row never panics
    and locks what the row reserved, for writing exactly the rows the commit
    reconciles; and because runs in flight reserve no conflicting rows, a fetch
    waits for no other invocation, whatever snapshots they run on.  The one
    thing it can wait for is a guard of its own. *)
From stdpp Require Import base numbers sets gmap fin_maps sorting list.
From S2P Require Import Prelude Locks Access.
From S2P Require Import Components Demo Stores Presence World WorldInv Ownership WorldOps Relations Frame.
From S2P Require Import Commands Query ExternalQuery Deps Planner Commit Params Joins Delta.

(** ** Guards *)

(** A token in a guard store, with the row whose cell it locks. *)
Record Taken := MkTaken { tk_kind : GuardKind; tk_type : TypeId; tk_entity : Entity; tk_cell : CellId }.

(** Fetching a list of things in order. *)
Fixpoint collect {A B} (f : A → result (list Taken * B)) (l : list A) : result (list Taken * list B) :=
  match l with
  | [] => Done ([], [])
  | a :: l => '(g, b) ← f a; '(g', bs) ← collect f l; Done (g ++ g', b :: bs)
  end.

(** ** Items

    What user code borrows is the address of a cell; it is locked as long as
    the token lives.  A view is handed over as its query: its rows are fetched
    while it is iterated. *)
Inductive ReadItem := RRef (c : CellId) | ROpt (c : option CellId).

Inductive PartItem :=
  | ItRef (c : CellId)
  | ItOpt (c : option CellId)
  | ItMut (e : Entity) (c : CellId)
  | ItTracked
  | ItRelated (rows : list (Entity * list ReadItem)).

Inductive QueryItem :=
  | QEntity (e : Entity)
  | QRef (c : CellId)
  | QMut (e : Entity) (c : CellId)
  | QRow (e : Entity) (parts : list PartItem).

Inductive ParamItem :=
  | PIQuery (i : QueryItem)
  | PIOuter (i : option QueryItem)
  | PIView (q : QueryParam) (f : QueryFilter)
  | PITrackedView (q : QueryParam) (f : QueryFilter)
  | PICommands
  | PIMeta.

Section fetch.
Context `{RelationshipLaws} `{HashOrder}.
Implicit Types (w : World) (e : Entity) (ty : TypeId) (q : QueryParam) (f : QueryFilter)
  (p : SystemParam) (s : ParamState) (ps : list SystemParam) (st : list ParamState) (g held : list Taken) (t : Taken).

Variable marker : list FacetPart → TypeId.

(** ** Fetching *)

(** [store_read_guard(..)] and [store_write_guard(..)] of an entry. *)
Definition guard (k : GuardKind) ty e (entry : ComponentEntry) : Taken := MkTaken k ty e (entry_value entry).

(** *** Members of a related projection *)

Definition read_part_matches w (part : ReadPart) e : bool :=
  match part with ReadRef ty => has w ty e | ReadOpt _ => true end.

Definition read_part_fetch w (part : ReadPart) e : result (list Taken * ReadItem) :=
  match part with
  | ReadRef ty =>
      entry ← expect MissingRow (row w ty e);
      Done ([guard Reading ty e entry], RRef (entry_value entry))
  | ReadOpt ty =>
      Done (match row w ty e with
            | Some entry => ([guard Reading ty e entry], ROpt (Some (entry_value entry)))
            | None => ([], ROpt None)
            end)
  end.

Definition member_fetch w (parts : list ReadPart) e : result (list Taken * (Entity * list ReadItem)) :=
  '(g, items) ← collect (λ part, read_part_fetch w part e) parts; Done (g, (e, items)).

(** The guard of the inverse is taken first and kept. *)
Definition related_fetch w (inv : TypeId) (parts : list ReadPart) (owner : Entity) : result (list Taken * PartItem) :=
  match row w inv owner with
  | None => Done ([], ItRelated [])
  | Some entry =>
      let members := default [] (v ← cell_get w (entry_value entry); value_members inv v) in
      '(g, rows) ← collect (member_fetch w parts)
        (filter (λ m, forallb (λ part, read_part_matches w part m) parts = true) members);
      Done (guard Reading inv owner entry :: g, ItRelated rows)
  end.

(** *** Parts and queries, given how an entry is found *)

Definition part_fetch_with (get : TypeId → Entity → option ComponentEntry) w (part : QueryPart) e
    : result (list Taken * PartItem) :=
  match part with
  | PartRef ty =>
      entry ← expect MissingRow (get ty e); Done ([guard Reading ty e entry], ItRef (entry_value entry))
  | PartOpt ty =>
      Done (match get ty e with
            | Some entry => ([guard Reading ty e entry], ItOpt (Some (entry_value entry)))
            | None => ([], ItOpt None)
            end)
  | PartMut ty =>
      entry ← expect MissingRow (get ty e); Done ([guard Writing ty e entry], ItMut e (entry_value entry))
  | PartTracked _ => Done ([], ItTracked)
  | PartRelated inv _ parts => related_fetch w inv parts e
  end.

Definition param_fetch_with (get : TypeId → Entity → option ComponentEntry) w q e : result (list Taken * QueryItem) :=
  match q with
  | ParamEntity _ => Done ([], QEntity e)
  | ParamRef ty =>
      entry ← expect MissingRow (get ty e); Done ([guard Reading ty e entry], QRef (entry_value entry))
  | ParamMut ty =>
      entry ← expect MissingRow (get ty e); Done ([guard Writing ty e entry], QMut e (entry_value entry))
  | ParamRow _ parts => '(g, items) ← collect (λ part, part_fetch_with get w part e) parts; Done (g, QRow e items)
  end.

(** [QueryParam::fetch] looks the store up, [PreparedQuery::fetch] resolved it
    once for all rows. *)
Definition param_fetch w q e : result (list Taken * QueryItem) := param_fetch_with (row w) w q e.

Definition resolved_get w ty e : option ComponentEntry := store ← resolve_entries w ty; store !! e.
Definition prepared_param_fetch w q e : result (list Taken * QueryItem) := param_fetch_with (resolved_get w) w q e.

(** *** System parameters *)

Definition sp_fetch w p s : result (list Taken * ParamItem) :=
  match p, s with
  | PQuery q _, SRow e => '(g, i) ← param_fetch w q e; Done (g, PIQuery i)
  | POuter q _, SRow e => '(g, i) ← param_fetch w q e; Done (g, PIOuter (Some i))
  | POuter _ _, _ => Done ([], PIOuter None)
  | PView q f, _ => Done ([], PIView q f)
  | PTrackedView q f, _ => Done ([], PITrackedView q f)
  | PCommands _, _ => Done ([], PICommands)
  | _, _ => Done ([], PIMeta)
  end.

(** Only an inner query resolves its stores. *)
Definition sp_prepared_fetch w p s : result (list Taken * ParamItem) :=
  match p, s with
  | PQuery q _, SRow e => '(g, i) ← prepared_param_fetch w q e; Done (g, PIQuery i)
  | _, _ => sp_fetch w p s
  end.

Definition tuple_fetch w ps st : result (list Taken * list ParamItem) :=
  collect (λ '(p, s), sp_fetch w p s) (zip ps st).
Definition tuple_prepared_fetch w ps st : result (list Taken * list ParamItem) :=
  collect (λ '(p, s), sp_prepared_fetch w p s) (zip ps st).

(** ** The locks behind the guards *)

Definition lock_at (locks : gmap CellId ComponentLockState) (c : CellId) : ComponentLockState :=
  default lock_default (locks !! c).

(** [ComponentCell::read] and [write]: [None] while the thread waits. *)
Definition grab (locks : gmap CellId ComponentLockState) t : result (option (gmap CellId ComponentLockState)) :=
  match tk_kind t with
  | Reading =>
      out ← cell_read (lock_at locks (tk_cell t)); Done (option_map (λ l, <[tk_cell t := l]> locks) out)
  | Writing => Done (option_map (λ l, <[tk_cell t := l]> locks) (cell_write (lock_at locks (tk_cell t))))
  end.

(** The guards in fetching order, up to the first one the thread waits for:
    the rest is what it still lacks. *)
Fixpoint grab_all (locks : gmap CellId ComponentLockState) g : result (gmap CellId ComponentLockState * list Taken) :=
  match g with
  | [] => Done (locks, [])
  | t :: g' =>
      out ← grab locks t;
      match out with Some locks' => grab_all locks' g' | None => Done (locks, g) end
  end.

(** [HeldGuard::drop], and [GuardStore::clear] once the function has returned. *)
Definition release (locks : gmap CellId ComponentLockState) t : result (gmap CellId ComponentLockState) :=
  match tk_kind t with
  | Reading => '(l, _) ← cell_release_read (lock_at locks (tk_cell t)); Done (<[tk_cell t := l]> locks)
  | Writing => Done (<[tk_cell t := (cell_release_write (lock_at locks (tk_cell t))).1]> locks)
  end.

Definition clear_guards (locks : gmap CellId ComponentLockState) g : result (gmap CellId ComponentLockState) :=
  fold_result release locks g.

(** ** A fetch takes what the row reserved *)

(** The access a guard exercises. *)
Definition access_of t : Access :=
  MkAccess (match tk_kind t with Reading => Read | Writing => Write end) (tk_type t) (Some (tk_entity t)).

(** The guard locks the cell of its row. *)
Definition on_row w t : Prop := entry_value <$> row w (tk_type t) (tk_entity t) = Some (tk_cell t).

(** What a fetch takes, against what was reserved. *)
Record fetched w g (accs : list Access) : Prop := {
  fc_sub : sublist (access_of <$> g) accs;
  fc_written : written_rows (access_of <$> g) = written_rows accs;
  fc_rows : Forall (on_row w) g;
}.

Lemma written_rows_app (a b : list Access) : written_rows (a ++ b) = written_rows a ++ written_rows b.
Proof. unfold written_rows. by rewrite filter_app, omap_app. Qed.

Lemma fetched_nil w (accs : list Access) : written_rows accs = [] → fetched w [] accs.
Proof. intros Hw. split; [apply sublist_nil_l|by rewrite Hw|constructor]. Qed.

Lemma fetched_app w g1 g2 (a1 a2 : list Access) :
  fetched w g1 a1 → fetched w g2 a2 → fetched w (g1 ++ g2) (a1 ++ a2).
Proof.
  intros [S1 W1 R1] [S2 W2 R2]. split.
  - rewrite fmap_app. by apply sublist_app.
  - by rewrite fmap_app, !written_rows_app, W1, W2.
  - by apply Forall_app.
Qed.

Lemma fetched_one w k ty e entry :
  row w ty e = Some entry → fetched w [guard k ty e entry] [access_of (guard k ty e entry)].
Proof. intros Hr. split; [done|done|]. constructor; [|constructor]. unfold on_row. simpl. by rewrite Hr. Qed.

(** Reads reserved beyond those taken. *)
Lemma fetched_more w g (a b : list Access) : fetched w g a → written_rows b = [] → fetched w g (a ++ b).
Proof. intros F Hb. rewrite <-(app_nil_r g). apply fetched_app; [done|by apply fetched_nil]. Qed.

Lemma reads_written {A} (h : A → Access) (l : list A) :
  (∀ a, acc_kind (h a) = Read) → written_rows (h <$> l) = [].
Proof.
  intros Hr. unfold written_rows. induction l as [|a l IH]; [done|]. rewrite fmap_cons, filter_cons.
  rewrite decide_False; [done|]. by rewrite Hr.
Qed.

Lemma collect_fetched {A B} w (fetch : A → result (list Taken * B)) (accs : A → list Access) (l : list A) :
  (∀ a, a ∈ l → ∃ g b, fetch a = Done (g, b) ∧ fetched w g (accs a)) →
  ∃ g bs, collect fetch l = Done (g, bs) ∧ fetched w g (l ≫= accs).
Proof.
  induction l as [|a l IH]; intros Hl; simpl.
  { exists [], []. split; [done|by apply fetched_nil]. }
  destruct (Hl a) as (g1 & b & -> & F1); [by left|]. simpl.
  destruct IH as (g2 & bs & -> & F2); [intros a' ?; apply Hl; by right|]. simpl.
  exists (g1 ++ g2), (b :: bs). split; [done|]. by apply fetched_app.
Qed.

Lemma collect_ext {A B} (f1 f2 : A → result (list Taken * B)) (l : list A) :
  (∀ a, a ∈ l → f1 a = f2 a) → collect f1 l = collect f2 l.
Proof.
  induction l as [|a l IH]; intros Hl; [done|]. simpl. rewrite (Hl a) by by left.
  rewrite IH; [done|]. intros a' ?. apply Hl. by right.
Qed.

Lemma resolved_get_row w ty e : resolved_get w ty e = row w ty e.
Proof. unfold resolved_get, resolve_entries, row. by destruct (store_of w ty). Qed.

Lemma member_fetched w (parts : list ReadPart) m :
  forallb (λ part, read_part_matches w part m) parts = true →
  ∃ g x, member_fetch w parts m = Done (g, x) ∧
    fetched w g (part ← parts; [access_read (read_part_type part) m]).
Proof.
  intros Hm. unfold member_fetch.
  destruct (collect_fetched w (λ part, read_part_fetch w part m)
              (λ part, [access_read (read_part_type part) m]) parts) as (g & items & -> & F).
  - intros part Hp. pose proof (proj1 (forallb_forall _ _) Hm part) as Hmp. rewrite <-list_elem_of_In in Hmp.
    specialize (Hmp Hp). destruct part as [ty|ty]; simpl in *.
    + apply has_row in Hmp as [entry He]. rewrite He. simpl. do 2 eexists. split; [done|].
      by apply (fetched_one w Reading).
    + destruct (row w ty m) as [entry|] eqn:He; do 2 eexists; (split; [done|]).
      * by apply (fetched_one w Reading).
      * by apply fetched_nil.
  - simpl. by exists g, (m, items).
Qed.

Lemma related_fetched w inv (parts : list ReadPart) owner :
  ∃ g i, related_fetch w inv parts owner = Done (g, i) ∧ fetched w g (related_access w inv parts owner).
Proof.
  unfold related_fetch, related_access, related_members, row_value.
  set (acc m := part ← parts; [access_read (read_part_type part) m]).
  assert (∀ ms, written_rows (m ← ms; acc m) = []) as Hacc.
  { intros ms. induction ms as [|m ms IH]; [done|]. rewrite bind_cons, written_rows_app, IH, app_nil_r. unfold acc.
    clear. by induction parts as [|part parts IH]. }
  destruct (row w inv owner) as [entry|] eqn:Hr; simpl.
  2:{ exists [], (ItRelated []). split; [done|]. apply fetched_nil. exact (Hacc []). }
  set (ms := default [] _).
  assert (∀ l, ∃ g rows, collect (member_fetch w parts)
    (filter (λ m, forallb (λ part, read_part_matches w part m) parts = true) l) = Done (g, rows) ∧
    fetched w g (m ← l; acc m)) as Hms.
  { intros l. induction l as [|m l (g & rows & Hc & F)].
    - exists [], []. split; [done|]. by apply fetched_nil.
    - rewrite filter_cons. case_decide as Hm; simpl.
      + destruct (member_fetched w parts m Hm) as (g1 & x & -> & F1). simpl. rewrite Hc. simpl.
        do 2 eexists. split; [done|]. by apply fetched_app.
      + do 2 eexists. split; [exact Hc|]. change g with ([] ++ g). apply fetched_app; [|done].
        apply fetched_nil. specialize (Hacc [m]). simpl in Hacc. by rewrite app_nil_r in Hacc. }
  destruct (Hms ms) as (g & rows & -> & F). simpl. do 2 eexists. split; [done|].
  exact (fetched_app w [_] g [_] _ (fetched_one w Reading inv owner entry Hr) F).
Qed.

Lemma part_fetched w part e :
  part_matches w part e = true →
  ∃ g i, part_fetch_with (row w) w part e = Done (g, i) ∧ fetched w g (part_access w part e).
Proof.
  destruct part as [ty|ty|ty|fac|inv edge parts]; simpl.
  - intros [entry He]%has_row. rewrite He. simpl. do 2 eexists. split; [done|]. by apply (fetched_one w Reading).
  - intros _. destruct (row w ty e) as [entry|] eqn:He; do 2 eexists; (split; [done|]).
    + by apply (fetched_one w Reading).
    + by apply fetched_nil.
  - intros [entry He]%has_row. rewrite He. simpl. do 2 eexists. split; [done|]. by apply (fetched_one w Writing).
  - intros _. do 2 eexists. split; [done|]. apply fetched_nil. by apply reads_written.
  - intros _. apply related_fetched.
Qed.

Lemma param_fetched w q e :
  row_matches w q e = true → ∃ g i, param_fetch w q e = Done (g, i) ∧ fetched w g (param_access w q e).
Proof.
  unfold param_fetch. destruct q as [fac|ty|ty|fac parts]; simpl.
  - intros _. do 2 eexists. split; [done|]. by apply fetched_nil.
  - intros [entry He]%has_row. rewrite He. simpl. do 2 eexists. split; [done|]. by apply (fetched_one w Reading).
  - intros [entry He]%has_row. rewrite He. simpl. do 2 eexists. split; [done|]. by apply (fetched_one w Writing).
  - intros [_ Hm]%andb_true_iff.
    destruct (collect_fetched w (λ part, part_fetch_with (row w) w part e) (λ part, part_access w part e) parts)
      as (g & items & -> & F); [|by do 2 eexists].
    intros part Hp. apply part_fetched. by apply (parts_match_elem w parts).
Qed.

Lemma prepared_param_fetch_same w q e : prepared_param_fetch w q e = param_fetch w q e.
Proof.
  unfold prepared_param_fetch, param_fetch. destruct q as [fac|ty|ty|fac parts]; simpl; rewrite ?resolved_get_row; try done.
  rewrite (collect_ext _ (λ part, part_fetch_with (row w) w part e)); [done|].
  intros part _. destruct part; simpl; by rewrite ?resolved_get_row.
Qed.

Lemma sp_prepared_fetch_same w p s : sp_prepared_fetch w p s = sp_fetch w p s.
Proof. destruct p, s; try done. simpl. by rewrite prepared_param_fetch_same. Qed.

Lemma filter_access_written f e : written_rows (filter_access f e) = [].
Proof.
  induction f as [| | | | |l IHl r IHr|l IHl r IHr]; try done; simpl; by rewrite written_rows_app, IHl, IHr.
Qed.

(** Accesses to whole stores name no row. *)
Lemma stores_written (accs : list Access) : Forall (λ a, acc_entity a = None) accs → written_rows accs = [].
Proof.
  unfold written_rows. induction 1 as [|a accs Ha _ IH]; [done|]. rewrite filter_cons. case_decide; [|done].
  simpl. by rewrite Ha.
Qed.

Lemma access_all_rows q f : Forall (λ a, acc_entity a = None) (param_access_all marker q ++ filter_access_all f).
Proof.
  apply Forall_app. split.
  - destruct q as [fac|ty|ty|fac parts]; simpl; repeat constructor. apply Forall_fmap, Forall_forall.
    intros part _. by destruct part.
  - induction f as [| | | | |l IHl r IHr|l IHl r IHr]; simpl; repeat constructor; by apply Forall_app.
Qed.

Lemma sp_fetched w p s :
  param_row w p s → ∃ g i, sp_fetch w p s = Done (g, i) ∧ fetched w g (sp_access marker w p s).
Proof.
  pose proof (λ q f, stores_written _ (access_all_rows q f)) as Hall.
  destruct p as [q f|q f|q f|q f|o|], s as [e| |]; simpl; try done.
  1,2: intros (_ & Hq & _); destruct (param_fetched w q e Hq) as (g & i & -> & F); simpl;
    do 2 eexists; (split; [done|]); apply fetched_more; [done|apply filter_access_written].
  all: intros _; do 2 eexists; (split; [done|]); by apply fetched_nil.
Qed.

Lemma tuple_fetched w ps st :
  Forall2 (param_row w) ps st →
  ∃ g items, tuple_fetch w ps st = Done (g, items) ∧ tuple_prepared_fetch w ps st = Done (g, items) ∧
    fetched w g (tuple_access marker w ps st).
Proof.
  intros Hst. unfold tuple_fetch, tuple_prepared_fetch.
  destruct (collect_fetched w (λ '(p, s), sp_fetch w p s) (λ '(p, s), sp_access marker w p s) (zip ps st))
    as (g & items & Hc & F).
  { intros [p s] [i [Hp Hs]%lookup_zip_Some]%list_elem_of_lookup. apply sp_fetched. by eapply Forall2_lookup_lr. }
  assert (zip ps st ≫= (λ '(p, s), sp_access marker w p s) = tuple_access marker w ps st) as <-.
  { unfold tuple_access. clear. revert st. induction ps as [|p ps IH]; intros [|s st]; [done..|].
    simpl. by rewrite IH. }
  exists g, items. split_and!; [done| |done].
  rewrite <-Hc. apply collect_ext. intros [p s] _. apply sp_prepared_fetch_same.
Qed.

(** ** Locks held by guards *)

Definition is_kind (k : GuardKind) (c : CellId) t : bool := bool_decide (tk_kind t = k) && bool_decide (tk_cell t = c).

Definition held_on (k : GuardKind) (c : CellId) held : nat := length (filter (λ t, is_kind k c t = true) held).

Definition lock_for (c : CellId) held : ComponentLockState :=
  MkLock (N.of_nat (held_on Reading c held)) (bool_decide (held_on Writing c held ≠ 0)).

(** The locks are those of the guards in [held], and of nothing else. *)
Definition locks_hold (locks : gmap CellId ComponentLockState) held : Prop := ∀ c, lock_at locks c = lock_for c held.

(** Two guards that can be held together. *)
Definition compatible (a b : Taken) : Prop := tk_cell a = tk_cell b → tk_kind a = Reading ∧ tk_kind b = Reading.

Lemma held_on_app k c a b : held_on k c (a ++ b) = held_on k c a + held_on k c b.
Proof. unfold held_on. by rewrite filter_app, length_app. Qed.

Lemma held_on_cons k c t held : held_on k c (t :: held) = (if is_kind k c t then 1 else 0) + held_on k c held.
Proof. unfold held_on. rewrite filter_cons. destruct (is_kind k c t); by simpl. Qed.

Lemma held_on_le k c held : held_on k c held ≤ length held.
Proof. unfold held_on. apply length_filter. Qed.

Lemma held_on_zero k c held :
  (∀ t, t ∈ held → tk_cell t = c → tk_kind t ≠ k) ↔ held_on k c held = 0.
Proof.
  unfold held_on. rewrite length_zero_iff_nil. split.
  - intros Hall. destruct (filter _ held) as [|t l] eqn:Hf; [done|].
    assert (t ∈ filter (λ t, is_kind k c t = true) held) as [Hk Hin]%list_elem_of_filter by (rewrite Hf; by left).
    unfold is_kind in Hk. apply andb_true_iff in Hk as [Hk%bool_decide_eq_true Hc%bool_decide_eq_true].
    by destruct (Hall t Hin Hc).
  - intros Hf t Hin Hc Hk. assert (t ∈ filter (λ t, is_kind k c t = true) held) as Ht.
    { apply list_elem_of_filter. split; [|done]. unfold is_kind. by rewrite !bool_decide_eq_true_2. }
    rewrite Hf in Ht. by apply elem_of_nil in Ht.
Qed.

Lemma lock_at_insert (locks : gmap CellId ComponentLockState) (c c' : CellId) l :
  lock_at (<[c := l]> locks) c' = if decide (c = c') then l else lock_at locks c'.
Proof. unfold lock_at. rewrite lookup_insert. by case_decide. Qed.

(** Taking one guard: what it does, and when it waits. *)
Lemma grab_spec (locks : gmap CellId ComponentLockState) held t :
  locks_hold locks held → (N.of_nat (length held) < u64_max)%N →
  (Forall (compatible t) held ∧ ∃ locks', grab locks t = Done (Some locks') ∧ locks_hold locks' (held ++ [t])) ∨
  (¬ Forall (compatible t) held ∧ grab locks t = Done None).
Proof.
  intros Hl Hlen. unfold grab. set (c := tk_cell t).
  assert (lock_at locks c = lock_for c held) as -> by apply Hl.
  assert (∀ k c', held_on k c' (held ++ [t]) = held_on k c' held + (if is_kind k c' t then 1 else 0)) as Hadd.
  { intros k c'. rewrite held_on_app, held_on_cons. change (held_on k c' []) with 0. lia. }
  assert (u64_checked_succ (N.of_nat (held_on Reading c held)) = Some (N.of_nat (held_on Reading c held) + 1)%N) as Hsucc.
  { pose proof (held_on_le Reading c held). unfold u64_checked_succ. rewrite bool_decide_eq_true_2 by lia. done. }
  destruct (tk_kind t) eqn:Hk.
  - unfold cell_read, lock_for. cbn [Locks.readers Locks.writer]. case_bool_decide as Hw.
    + right. split; [|done]. intros Hc. apply Hw. apply held_on_zero. intros t' Hin Hc' Hk'.
      rewrite Forall_forall in Hc. destruct (Hc t' Hin) as [_ ?]; [done|congruence].
    + left. rewrite <-held_on_zero in Hw. split.
      { apply Forall_forall. intros t' Hin Hc. split; [done|]. destruct (tk_kind t') eqn:Hk'; [done|].
        by destruct (Hw t' Hin (eq_sym Hc)). }
      rewrite Hsucc. simpl. eexists. split; [done|].
      intros c'. rewrite lock_at_insert. unfold lock_for at 1. rewrite !Hadd. unfold is_kind. rewrite Hk. fold c.
      case_decide as Hc; [subst c'|by rewrite (bool_decide_eq_false_2 _ Hc), !andb_false_r, !Nat.add_0_r; apply Hl].
      rewrite (bool_decide_eq_true_2 (c = c)) by done. apply held_on_zero in Hw. rewrite Hw.
      change (bool_decide (Reading = Reading) && true) with true. f_equal. lia.
  - unfold cell_write, contended, lock_for. cbn [Locks.readers Locks.writer].
    destruct (decide (held_on Writing c held = 0 ∧ held_on Reading c held = 0)) as [[Hw Hr]|Hn].
    + left. rewrite Hw, Hr. simpl. split.
      { apply Forall_forall. intros t' Hin Hc. exfalso. rewrite <-held_on_zero in Hw, Hr.
        destruct (tk_kind t') eqn:Hk'; [by destruct (Hr t' Hin)|by destruct (Hw t' Hin)]. }
      eexists. split; [done|]. intros c'. rewrite lock_at_insert. unfold lock_for. rewrite !Hadd. unfold is_kind.
      rewrite Hk. fold c.
      case_decide as Hc; [subst c'|by rewrite (bool_decide_eq_false_2 _ Hc), !andb_false_r, !Nat.add_0_r; apply Hl].
      rewrite Hr, Hw. by rewrite (bool_decide_eq_true_2 (c = c)).
    + right. split.
      * intros Hc. apply Hn. rewrite Forall_forall in Hc.
        split; apply held_on_zero; intros t' Hin Hc' Hk'; destruct (Hc t' Hin (eq_sym Hc')) as [? _]; congruence.
      * destruct (held_on Writing c held) as [|n] eqn:Hw; simpl; [|done].
        rewrite bool_decide_eq_false_2; [done|]. intros Hz. apply Hn. split; [done|]. lia.
Qed.

Lemma held_on_perm k c held held' : held ≡ₚ held' → held_on k c held = held_on k c held'.
Proof. intros Hp. unfold held_on. by rewrite Hp. Qed.

Lemma locks_hold_perm (locks : gmap CellId ComponentLockState) held held' :
  held ≡ₚ held' → locks_hold locks held → locks_hold locks held'.
Proof. intros Hp Hl c. unfold lock_for. by rewrite Hl, <-!(held_on_perm _ c held held'). Qed.

(** The fetch gets everything exactly when its guards go with those held and
    with each other. *)
Lemma grab_all_spec (locks : gmap CellId ComponentLockState) held g :
  locks_hold locks held → (N.of_nat (length held + length g) ≤ u64_max)%N →
  ∃ locks' rest, grab_all locks g = Done (locks', rest) ∧
    (rest = [] ↔ Forall (λ t, Forall (compatible t) held) g ∧ List.ForallOrdPairs compatible g) ∧
    (rest = [] → locks_hold locks' (held ++ g)).
Proof.
  revert locks held. induction g as [|t g IH]; intros locks held Hl Hlen.
  { exists locks, []. simpl. rewrite app_nil_r. repeat split; try done; constructor. }
  simpl in Hlen. cbn [grab_all].
  destruct (grab_spec locks held t Hl) as [(Hc & locks1 & -> & Hl1)|(Hc & ->)]; [lia| |]; cbn [mbind result_bind].
  - destruct (IH locks1 (held ++ [t]) Hl1) as (locks' & rest & -> & Hiff & Hr); [rewrite length_app; simpl; lia|].
    exists locks', rest. split; [done|]. rewrite <-app_assoc in Hr. split; [|exact Hr]. rewrite Hiff. split.
    + intros [Hg Ho]. rewrite Forall_forall in Hg. split.
      * constructor; [done|]. apply Forall_forall. intros t' Hin.
        pose proof (Hg t' Hin) as Hx. rewrite Forall_app in Hx. apply Hx.
      * constructor; [|done]. apply List.Forall_forall. intros t' Hin%list_elem_of_In. pose proof (Hg t' Hin) as Hx.
        rewrite Forall_app, Forall_singleton in Hx. destruct Hx as [_ Hx]. intros Heq. destruct (Hx (eq_sym Heq)). by split.
    + intros [[_ Hg]%Forall_cons Ho]. inversion Ho as [|? ? Ht Hog]; subst. split; [|done].
      rewrite List.Forall_forall in Ht. rewrite Forall_forall in Hg. apply Forall_forall. intros t' Hin.
      rewrite Forall_app, Forall_singleton. split; [by apply Hg|]. intros Heq.
      destruct (Ht t'); [by apply list_elem_of_In|done|by split].
  - exists locks, (t :: g). split; [done|]. split; [|done]. split; [done|].
    by intros [[? _]%Forall_cons _].
Qed.

Lemma release_spec (locks : gmap CellId ComponentLockState) held t :
  locks_hold locks (t :: held) → Forall (compatible t) held →
  ∃ locks', release locks t = Done locks' ∧ locks_hold locks' held.
Proof.
  intros Hl Hc. unfold release. set (c := tk_cell t). rewrite Forall_forall in Hc.
  assert (∀ c', c ≠ c' → lock_at locks c' = lock_for c' held) as Hother.
  { intros c' Hne. rewrite Hl. unfold lock_for. rewrite !held_on_cons. unfold is_kind. fold c.
    by rewrite (bool_decide_eq_false_2 _ Hne), !andb_false_r. }
  assert (lock_at locks c = lock_for c (t :: held)) as -> by apply Hl.
  assert (held_on Writing c held = 0) as Hw.
  { apply held_on_zero. intros t' Hin Ht' Hk. destruct (Hc t' Hin (eq_sym Ht')). congruence. }
  unfold lock_for at 1 2. rewrite !held_on_cons, Hw. unfold is_kind. fold c. rewrite (bool_decide_eq_true_2 (c = c)) by done.
  destruct (tk_kind t) eqn:Hk.
  - change (bool_decide (Reading = Reading) && true) with true. change (bool_decide (Reading = Writing) && true) with false.
    unfold cell_release_read. cbn [Locks.readers Locks.writer]. rewrite bool_decide_eq_false_2 by lia.
    cbn [expect mbind result_bind]. eexists. split; [done|]. intros c'. rewrite lock_at_insert.
    case_decide as Hcc; [subst c'|by apply Hother]. unfold lock_for. rewrite Hw. f_equal. lia.
  - eexists. split; [done|]. intros c'. rewrite lock_at_insert.
    case_decide as Hcc; [subst c'|by apply Hother]. unfold cell_release_write, lock_for. rewrite Hw. done.
Qed.

Lemma clear_guards_spec (locks : gmap CellId ComponentLockState) held g :
  locks_hold locks (g ++ held) → Forall (λ t, Forall (compatible t) held) g → List.ForallOrdPairs compatible g →
  ∃ locks', clear_guards locks g = Done locks' ∧ locks_hold locks' held.
Proof.
  unfold clear_guards. revert locks. induction g as [|t g IH]; intros locks Hl Hg Ho; [by exists locks|].
  apply Forall_cons in Hg as [Ht Hg]. inversion Ho as [|? ? Htg Hog]; subst.
  destruct (release_spec locks (g ++ held) t Hl) as (locks1 & Hr & Hl1).
  { apply Forall_app. split; [|done]. apply Forall_forall. intros t' Hin. rewrite List.Forall_forall in Htg.
    by apply Htg, list_elem_of_In. }
  cbn [fold_result]. rewrite Hr. cbn [mbind result_bind]. by apply IH.
Qed.

(** ** Cells and rows *)

(** A cell seen in two states of one history belongs to one row. *)
Lemma cells_identify X X' w w' ty e entry ty' e' entry' :
  wf X w → wf X' w' → own_cells w → progressed w w' →
  row w ty e = Some entry → row w' ty' e' = Some entry' → entry_value entry = entry_value entry' → ty = ty' ∧ e = e'.
Proof.
  intros W W' Ho P Hr Hr' Heq. destruct (pl_cell _ _ (pg_placed _ _ P) _ _ _ Hr') as [Hc|Hge].
  - destruct (row w ty' e') as [old|] eqn:Hold; simpl in Hc; [|done]. injection Hc as Hc.
    eapply Ho; [exact Hr|exact Hold|congruence].
  - destruct (wf_cell _ _ W _ _ _ Hr) as [v Hv]. assert (entry_value entry < next_cell (shared w))%N; [|lia].
    apply (wf_next _ _ W). eauto.
Qed.

(** No reachable world shares a cell between two rows. *)
Lemma reachable_own_cells shapes w0 X w :
  init_presence world_new (universe_of shapes) = Done w0 → rtc world_step (nothing_taken, w0) (X, w) → own_cells w.
Proof.
  intros Hinit Hsteps. destruct (wf_init (universe_of shapes)) as (w0' & Hw0 & Hwf); [apply universe_of_spec|].
  rewrite Hinit in Hw0. injection Hw0 as <-. destruct (world_steps_good _ _ Hsteps Hwf) as [_ E]. simpl in E.
  apply E. intros ty e entry ty' e' entry' Hr. exfalso.
  destruct (wf_cell _ _ Hwf _ _ _ Hr) as [v Hv]. unfold init_presence in Hinit.
  apply bind_Done in Hinit as (_ & _ & [= <-]). unfold cell_get in Hv. simpl in Hv. by rewrite lookup_empty in Hv.
Qed.

(** A reservation of the row, or of its whole store, that allows the guard. *)
Definition backs (a : Access) t : Prop :=
  acc_component a = tk_type t ∧ (acc_entity a = None ∨ acc_entity a = Some (tk_entity t)) ∧
  (tk_kind t = Writing → acc_kind a = Write).
Definition backed (accs : list Access) t : Prop := ∃ a, a ∈ accs ∧ backs a t.

Lemma access_of_backed (accs : list Access) t : access_of t ∈ accs → backed accs t.
Proof. intros Ha. exists (access_of t). split; [done|]. split_and!; [done|by right|]. simpl. by intros ->. Qed.

(** Guards whose accesses do not conflict can be held together. *)
Lemma apart_compatible t t' a b :
  (tk_cell t = tk_cell t' → tk_type t = tk_type t' ∧ tk_entity t = tk_entity t') →
  backs a t → backs b t' → access_conflicts a b = false → compatible t t'.
Proof.
  intros Hrow (Hta & Hea & Hka) (Htb & Heb & Hkb) Hc Heq. destruct (Hrow Heq) as [Hty He].
  unfold access_conflicts in Hc. rewrite (bool_decide_eq_true_2 (acc_component a = acc_component b)) in Hc by congruence.
  assert (match acc_entity a, acc_entity b with Some own, Some other => bool_decide (own = other) | _, _ => true end = true)
    as Hsame.
  { destruct (acc_entity a), (acc_entity b); try done. apply bool_decide_eq_true. destruct Hea, Heb; congruence. }
  rewrite Hsame, andb_true_r in Hc. apply orb_false_iff in Hc as [Ha Hb].
  destruct (tk_kind t); [|rewrite Hka in Ha by done; done]. destruct (tk_kind t'); [done|]. by rewrite Hkb in Hb.
Qed.

(** A planned row is a row of the join, with the access list of its parameters. *)
Lemma planned_row X w ps system memo c planned i :
  wf X w → addressable w → rel_ok w → joinable w ps → registered marker ps →
  plan_invocations marker system w ps memo None = Done (c, planned) → i ∈ planned →
  Forall2 (param_row w) ps (pl_state i) ∧ pl_access i = tuple_access marker w ps (pl_state i).
Proof.
  intros Hwf Hadd Hrel Hj Hreg Hplan Hi. unfold plan_invocations in Hplan.
  destruct (tuple_states_aux marker X w ps Hwf Hadd Hrel Hj Hreg) as (states & Hst & _ & Hin). rewrite Hst in Hplan.
  cbn [mbind result_bind] in Hplan. apply bind_Done in Hplan as (invs & Hinvs & [= _ ->]).
  apply (elem_of_flat_result _ _ _ i Hinvs) in Hi as (st & b & [Hrow _]%Hin & Hb & Hi).
  destruct (plan_state_spec marker system w ps memo st Hrow) as (ds & ds' & _ & Hp). rewrite Hp in Hb.
  destruct (negb _ && _); injection Hb as <-; [by apply elem_of_nil in Hi|].
  apply list_elem_of_singleton in Hi as ->. done.
Qed.

Lemma written_guards g :
  (λ t, (tk_type t, tk_entity t)) <$> filter (λ t, tk_kind t = Writing) g = written_rows (access_of <$> g).
Proof.
  unfold written_rows. induction g as [|t g IH]; [done|]. rewrite fmap_cons, !filter_cons. unfold access_of at 1. simpl.
  destruct (tk_kind t); simpl; [exact IH|f_equal; exact IH].
Qed.

(** ** Properties *)

(** C15: fetching a planned row takes what it reserved.  The fetch never panics,
    through the prepared stores or not; its guards, in the order they are
    taken, are a subsequence of the reservation and lock the cells of their rows
    in the snapshot; and the rows locked for writing are exactly the rows whose
    revisions the commit reconciles. *)
Theorem fetch_exact X w ps system memo c planned i :
  wf X w → addressable w → rel_ok w → joinable w ps → registered marker ps →
  plan_invocations marker system w ps memo None = Done (c, planned) → i ∈ planned →
  ∃ g items, tuple_fetch w ps (pl_state i) = Done (g, items) ∧
    tuple_prepared_fetch w ps (pl_state i) = Done (g, items) ∧
    sublist (access_of <$> g) (pl_access i) ∧ Forall (on_row w) g ∧
    (λ t, (tk_type t, tk_entity t)) <$> filter (λ t, tk_kind t = Writing) g = written_rows (pl_access i).
Proof.
  intros Hwf Hadd Hrel Hj Hreg Hplan Hi.
  destruct (planned_row X w ps system memo c planned i Hwf Hadd Hrel Hj Hreg Hplan Hi) as [Hrow ->].
  destruct (tuple_fetched w ps (pl_state i) Hrow) as (g & items & Hf & Hp & [S W R]).
  exists g, items. split_and!; try done. by rewrite written_guards, W.
Qed.

(** An invocation in flight: the snapshot it runs on, what it reserved, and the
    guards it has by now, those of the views it iterated included. *)
Record Holder := MkHolder { hd_world : World; hd_access : list Access; hd_guards : list Taken }.

Record holder_ok w (h : Holder) : Prop := {
  ho_wf : wf nothing_taken (hd_world h);
  ho_own : own_cells (hd_world h);
  ho_history : progressed (hd_world h) w ∨ progressed w (hd_world h);
  ho_guards t : t ∈ hd_guards h → on_row (hd_world h) t ∧ backed (hd_access h) t;
}.

Lemma on_row_entry w t : on_row w t → ∃ entry, row w (tk_type t) (tk_entity t) = Some entry ∧ entry_value entry = tk_cell t.
Proof. unfold on_row. destruct (row w (tk_type t) (tk_entity t)) as [entry|]; [|done]. intros [= <-]. by exists entry. Qed.

Lemma holder_compatible w h t t' (accs : list Access) :
  wf nothing_taken w → own_cells w → holder_ok w h →
  (∀ a b, a ∈ hd_access h → b ∈ accs → access_conflicts b a = false) →
  on_row w t → backed accs t → t' ∈ hd_guards h → compatible t t'.
Proof.
  intros Hwf Hown [W O P G] Hno Ht (a & Ha & Hat) Hin. destruct (G t' Hin) as [Ht' (b & Hb & Hbt)].
  apply (apart_compatible t t' a b); [|done..|by apply Hno]. intros Heq.
  apply on_row_entry in Ht as (entry & Hr & Hc), Ht' as (entry' & Hr' & Hc').
  destruct P as [P|P].
  - destruct (cells_identify nothing_taken nothing_taken (hd_world h) w (tk_type t') (tk_entity t') entry'
                (tk_type t) (tk_entity t) entry W Hwf O P Hr' Hr) as [? ?]; [congruence|done].
  - destruct (cells_identify nothing_taken nothing_taken w (hd_world h) (tk_type t) (tk_entity t) entry
                (tk_type t') (tk_entity t') entry' Hwf W Hown P Hr Hr') as [? ?]; [congruence|done].
Qed.

(** C16: a fetch waits for no other invocation.  Take invocations in flight on
    snapshots of one history, none of whose reservations conflicts with that of
    a planned row, and the locks of the guards they have by now.  Fetching the
    row succeeds without waiting unless two of its own guards exclude each
    other (a row both read and written, or written twice, by one invocation), in
    which case it waits for itself; and dropping its guards afterwards never
    fails and leaves the locks as they were. *)
Theorem fetch_waits_only_on_itself w ps system memo c planned i holders locks :
  wf nothing_taken w → addressable w → rel_ok w → joinable w ps → registered marker ps → own_cells w →
  plan_invocations marker system w ps memo None = Done (c, planned) → i ∈ planned →
  Forall (holder_ok w) holders →
  (∀ h a b, h ∈ holders → a ∈ hd_access h → b ∈ pl_access i → access_conflicts b a = false) →
  locks_hold locks (holders ≫= hd_guards) →
  (N.of_nat (length (holders ≫= hd_guards) + length (pl_access i)) ≤ u64_max)%N →
  ∃ g items locks' rest, tuple_prepared_fetch w ps (pl_state i) = Done (g, items) ∧
    grab_all locks g = Done (locks', rest) ∧
    (rest = [] ↔ List.ForallOrdPairs compatible g) ∧
    (rest = [] → locks_hold locks' ((holders ≫= hd_guards) ++ g) ∧
       ∃ locks'', clear_guards locks' g = Done locks'' ∧ locks_hold locks'' (holders ≫= hd_guards)).
Proof.
  intros Hwf Hadd Hrel Hj Hreg Hown Hplan Hi Hh Hno Hl Hlen.
  destruct (planned_row nothing_taken w ps system memo c planned i Hwf Hadd Hrel Hj Hreg Hplan Hi) as [Hrow Hacc].
  destruct (tuple_fetched w ps (pl_state i) Hrow) as (g & items & _ & Hp & [S _ R]). rewrite <-Hacc in S.
  assert (Forall (λ t, Forall (compatible t) (holders ≫= hd_guards)) g) as Hcomp.
  { rewrite Forall_forall in R. pose proof (proj1 (Forall_forall _ _) Hh) as Hh'.
    apply Forall_forall. intros t Ht. apply Forall_forall. intros t' (h & Ht' & Hin)%list_elem_of_bind. apply (holder_compatible w h t t' (pl_access i)); auto.
    - intros a b. by apply Hno.
    - apply access_of_backed, (sublist_subseteq _ _ S). by apply list_elem_of_fmap_2. }
  destruct (grab_all_spec locks (holders ≫= hd_guards) g Hl) as (locks' & rest & Hg & Hiff & Hr).
  { apply sublist_length in S. rewrite length_fmap in S. lia. }
  assert (rest = [] ↔ List.ForallOrdPairs compatible g) as Hiff' by (rewrite Hiff; tauto).
  exists g, items, locks', rest. split_and!; [done..|]. intros Hz. split; [by apply Hr|].
  apply clear_guards_spec; [|done|by apply Hiff']. eapply locks_hold_perm; [|by apply Hr]. apply Permutation_app_comm.
Qed.
End fetch.

(** ** Concrete runs *)

(** A system that reads the members of an entity and writes edges in place. *)
Definition demo_edge_writer : list SystemParam := [demo_provider; PQuery (ParamMut ty_edge) FNone].

Lemma demo_writer_joinable w : joinable w demo_edge_writer.
Proof.
  split.
  - intros p [-> | ->]%elem_of_two; simpl; (split; [|done]); [|done]. split; [done|]. right. left. done.
  - intros p key [-> | ->]%elem_of_two; simpl; by intros ?%elem_of_nil.
  - intros p key [-> | ->]%elem_of_two; simpl; by intros ?%elem_of_nil.
Qed.

Lemma demo_writer_registered : registered no_marker demo_edge_writer.
Proof. split; vm_compute; reflexivity. Qed.

Definition demo_write_row : PlannedInvocation :=
  MkPlanned [SRow 5; SRow 3] (Invocation 0 [5; 3]%N)
    [MkDep ty_members None 5 (Some 2%N) false; MkDep ty_edge (Some 1) 3 (Some 1%N) false]
    [access_read ty_members 5; access_write ty_edge 3].

Lemma demo_own_cells : own_cells demo_rows.
Proof.
  apply (reachable_own_cells demo_shapes demo_w0 nothing_taken); [exact demo_init|].
  do 6 (eapply rtc_l; [apply ws_apply, as_spawn|]).
  apply rtc_once, ws_apply, (as_insert _ 3 ty_edge (v_edge 5) None). vm_compute. reflexivity.
Qed.

Lemma demo_write_plan : plan_invocations no_marker 0 demo_rows demo_edge_writer ∅ None = Done (true, [demo_write_row]).
Proof. vm_compute. reflexivity. Qed.

Definition demo_write_guards : list Taken := [MkTaken Reading ty_members 5 1; MkTaken Writing ty_edge 3 0].

Lemma fetch_exact_witness :
  ∃ items, tuple_fetch demo_rows demo_edge_writer [SRow 5; SRow 3] = Done (demo_write_guards, items) ∧
    [(ty_edge, 3%N)] = written_rows (pl_access demo_write_row).
Proof.
  destruct (fetch_exact no_marker nothing_taken demo_rows demo_edge_writer 0 ∅ true [demo_write_row] demo_write_row
              demo_wf_rows demo_addressable demo_rel_rows (demo_writer_joinable _) demo_writer_registered demo_write_plan)
    as (g & items & Hf & _ & _ & _ & <-); [by left|].
  assert (∃ items', tuple_fetch demo_rows demo_edge_writer (pl_state demo_write_row) = Done (demo_write_guards, items'))
    as [items' Heq] by (eexists; vm_compute; reflexivity).
  rewrite Heq in Hf. injection Hf as <- <-. exists items'. split; [exact Heq|]. vm_compute. reflexivity.
Defined.

(** Another invocation in flight reads the same members. *)
Definition demo_reader : Holder := MkHolder demo_rows [access_read ty_members 5] [MkTaken Reading ty_members 5 1].

Lemma demo_reader_ok : holder_ok demo_rows demo_reader.
Proof.
  split; [exact demo_wf_rows|exact demo_own_cells|left; apply progressed_refl|].
  intros t ->%list_elem_of_singleton. split; [vm_compute; reflexivity|]. apply access_of_backed. left.
Qed.

Lemma fetch_waits_only_on_itself_witness :
  ∃ locks', grab_all (<[1%N := MkLock 1 false]> ∅) demo_write_guards = Done (locks', []) ∧
    lock_at locks' 1 = MkLock 2 false ∧ lock_at locks' 0 = MkLock 0 true.
Proof.
  destruct (fetch_waits_only_on_itself no_marker demo_rows demo_edge_writer 0 ∅ true [demo_write_row] demo_write_row
              [demo_reader] (<[1%N := MkLock 1 false]> ∅) demo_wf_rows demo_addressable demo_rel_rows
              (demo_writer_joinable _) demo_writer_registered demo_own_cells demo_write_plan)
    as (g & items & locks' & rest & Hf & Hg & Hiff & Hr).
  - by left.
  - constructor; [exact demo_reader_ok|constructor].
  - intros h a b ->%list_elem_of_singleton ->%list_elem_of_singleton [-> | ->]%elem_of_two; vm_compute; reflexivity.
  - intros c. destruct (decide (1%N = c)) as [<-|Hne].
    + vm_compute. reflexivity.
    + rewrite lock_at_insert, decide_False by done. unfold lock_at. rewrite lookup_empty.
      assert (∀ k, held_on k c ([demo_reader] ≫= hd_guards) = 0) as Hz.
      { intros k. apply held_on_zero. intros t ->%list_elem_of_singleton Hc. by destruct Hne. }
      unfold lock_for. by rewrite !Hz.
  - vm_compute. discriminate.
  - assert (∃ items', tuple_prepared_fetch demo_rows demo_edge_writer (pl_state demo_write_row) = Done (demo_write_guards, items'))
      as [items' Heq] by (eexists; vm_compute; reflexivity).
    rewrite Heq in Hf. injection Hf as <- <-.
    assert (rest = []) as ->.
    { apply Hiff. constructor; [|constructor; [constructor|constructor]]. constructor; [|constructor]. discriminate. }
    destruct (Hr eq_refl) as [Hl _]. exists locks'. split; [exact Hg|].
    split; rewrite Hl; vm_compute; reflexivity.
Defined.

(** A registered system whose parameters read and write the same component is
    planned for a row and itself, admitted, and waits for its own read guard. *)
Definition demo_aliased : list SystemParam := [PQuery (ParamRef ty_edge) FNone; PQuery (ParamMut ty_edge) FNone].

Lemma aliased_row_waits :
  validate_bindings no_marker demo_aliased = None ∧
  ∃ row g items l t rest, plan_invocations no_marker 0 demo_rows demo_aliased ∅ None = Done (true, [row]) ∧
    (∃ r id, admit_invocation (reservations_new ∅) (pl_owner row) (pl_access row) = Done (r, inl id)) ∧
    tuple_prepared_fetch demo_rows demo_aliased (pl_state row) = Done (g, items) ∧
    grab_all ∅ g = Done (l, t :: rest).
Proof.
  split; [vm_compute; reflexivity|]. do 6 eexists. split; [vm_compute; reflexivity|].
  split; [do 2 eexists; vm_compute; reflexivity|].
  split; [vm_compute; reflexivity|]. vm_compute. reflexivity.
Qed.
