(* ===== verification/Skip.v ===== *)
(** * Skipping a row is unobservable ([system.rs], [query.rs])

    The planner does not run a row whose recorded dependencies are the ones it
    computes again.  The theorem of this file is what makes that correct: the
    skipped run would have been handed the same guards on the same rows, and
    what it can tell apart about them (their fingerprints, or the very cell of a
    value without one) has not changed since the run that recorded them. *)
From stdpp Require Import base numbers sets gmap fin_maps sorting list.
From S2P Require Import Prelude Locks Access.
From S2P Require Import Components Demo Stores Presence World WorldInv Ownership WorldOps Relations Frame.
From S2P Require Import Commands Query ExternalQuery Deps Planner Commit Params Joins Delta Fetch.

Section skip.
Context `{RelationshipLaws} `{HashOrder}.
Implicit Types (w : World) (e : Entity) (ty inv : TypeId) (q : QueryParam) (f : QueryFilter) (part : QueryPart)
  (p : SystemParam) (s : ParamState) (ps : list SystemParam) (st : list ParamState) (g : list Taken) (t : Taken)
  (ds : list Dep).

Variable marker : list FacetPart → TypeId.

(** The same input as far as the engine can tell: the same row, in the same
    mode, and for a tracked component the same value. *)
Record same_input w w' t t' : Prop := {
  si_kind : tk_kind t' = tk_kind t;
  si_type : tk_type t' = tk_type t;
  si_entity : tk_entity t' = tk_entity t;
  si_value : value_tracked (tk_type t) = true →
    row_fingerprint w' (tk_type t) (tk_entity t) = row_fingerprint w (tk_type t) (tk_entity t) ∧
    (row_fingerprint w (tk_type t) (tk_entity t) = None → tk_cell t' = tk_cell t);
}.

(** The presence of an untracked component is not observed, so it must not
    decide what is fetched. *)
Definition part_observed part : bool :=
  match part with
  | PartRef _ | PartMut _ | PartTracked _ => true
  | PartOpt ty => value_tracked ty
  | PartRelated inv _ parts => value_tracked inv && forallb (λ r, value_tracked (read_part_type r)) parts
  end.
Definition query_observed q : bool :=
  match q with ParamRow _ parts => forallb part_observed parts | _ => true end.
Definition sp_query p : option QueryParam := match p with PQuery q _ | POuter q _ => Some q | _ => None end.

Record observed w w' ps : Prop := {
  ob_parts p q : p ∈ ps → sp_query p = Some q → query_observed q = true;
  ob_inverses p q inv edge : p ∈ ps → sp_query p = Some q → (inv, edge) ∈ query_edges q → separates w w' inv;
}.

(** ** Equal dependencies are current *)

Lemma filter_deps_current w f e ds : wf_stores (stores w) → filter_deps w f e = Done ds → current w ds.
Proof.
  intros Hwf. revert ds. induction f as [|ty|ty|ty|inv edge|l IHl r IHr|l IHl r IHr]; intros ds; simpl.
  1,3,5: by intros [= <-] d ?%elem_of_nil.
  1,2: intros Hd; by apply (component_dep_current w w ty e ds Hwf Hd).
  all: intros (a & Ha & Hr)%bind_Done; apply bind_Done in Hr as (b & Hb & [= <-]); apply current_app; auto.
Qed.

Lemma param_observes w w' q e ds :
  wf_stores (stores w') → param_deps w q e = Done ds → observes w w' ds (param_access w q e).
Proof.
  intros Hwf. destruct q as [fac|ty|ty|fac parts]; simpl.
  - intros [= <-]. apply observes_nil.
  - intros Hd. apply observes_one. by apply component_dep_current.
  - intros Hd. apply observes_one. by apply component_dep_current.
  - by apply parts_observe.
Qed.

Lemma filtered_deps_current w q f e ds : wf_stores (stores w) → filtered_deps w q f e = Done ds → current w ds.
Proof.
  intros Hwf (a & Ha & Hr)%bind_Done. apply bind_Done in Hr as (b & Hb & [= <-]). apply current_app. split.
  - apply (param_observes w w q e a Hwf Ha). by intros x _ e' _ _.
  - by eapply filter_deps_current.
Qed.

Lemma store_deps_current w (tys : list TypeId) : current w (store_watermark_dep w <$> tys).
Proof. intros d (ty & -> & _)%list_elem_of_fmap. by apply bool_decide_eq_true. Qed.

Lemma sp_deps_current w p s ds : wf_stores (stores w) → sp_deps marker w p s = Done ds → current w ds.
Proof.
  intros Hwf. assert (current w []) as Hnil by by intros d ?%elem_of_nil.
  destruct p as [q f|q f|q f|q f|o|], s as [e| |]; simpl;
    try (by apply filtered_deps_current); try (by intros [= <-]).
  1,2: intros [= <-]; apply current_app; split; apply store_deps_current.
  all: intros [= <-]; apply store_deps_current.
Qed.

Lemma tuple_deps_current w ps st ds :
  wf_stores (stores w) → tuple_deps (sp_deps marker w) ps st = Done ds → current w ds.
Proof.
  intros Hwf. revert st ds. induction ps as [|p ps IH]; intros [|s st] ds; simpl; try (by intros [= <-] d ?%elem_of_nil).
  intros (a & Ha & Hr)%bind_Done. apply bind_Done in Hr as (b & Hb & [= <-]).
  apply current_app. split; [by eapply sp_deps_current|by eapply IH].
Qed.

Lemma deps_eq_current w ds ds' : wf_stores (stores w) → deps_eq ds ds' → current w ds' → current w ds.
Proof.
  intros Hwf Heq Hc d [i Hi]%list_elem_of_lookup.
  destruct (Forall2_lookup_l _ _ _ _ _ Heq Hi) as (d' & Hi' & (Ht & He & Hr & Hs)%dep_eqb_spec).
  specialize (Hc d' (list_elem_of_lookup_2 _ _ _ Hi')). unfold dep_is_current in *. rewrite Hs, Ht, Hr.
  destruct (dep_store_scoped d'); [done|]. rewrite (dep_lookup_row _ d' Hwf) in Hc. by rewrite (dep_lookup_row _ d Hwf), Ht, He.
Qed.

(** ** Fetching the same inputs *)

Lemma collect_same {A B} (R : Taken → Taken → Prop) (fetch fetch' : A → result (list Taken * B)) (l : list A) :
  (∀ a, a ∈ l → ∃ g b g' b', fetch a = Done (g, b) ∧ fetch' a = Done (g', b') ∧ Forall2 R g g') →
  ∃ g bs g' bs', collect fetch l = Done (g, bs) ∧ collect fetch' l = Done (g', bs') ∧ Forall2 R g g'.
Proof.
  induction l as [|a l IH]; intros Hl; simpl; [exists [], [], [], []; split; [done|split; [done|constructor]]|].
  destruct (Hl a) as (g1 & b & g1' & b' & -> & -> & R1); [by left|]. simpl.
  destruct IH as (g2 & bs & g2' & bs' & -> & -> & R2); [intros a' ?; apply Hl; by right|]. simpl.
  do 4 eexists. split_and!; [done|done|]. by apply Forall2_app.
Qed.

Section between.
Context (X : taken) (w : World) (X' : taken) (w' : World).
Hypothesis (Hwf : wf X w) (Hwf' : wf X' w') (Hprog : progressed w w').

(** A tracked row that did not move shows the same. *)
Lemma unmoved_guard k ty e entry entry' :
  row w ty e = Some entry → row w' ty e = Some entry' →
  (value_tracked ty = true → row_revision w' ty e = row_revision w ty e) →
  same_input w w' (guard k ty e entry) (guard k ty e entry').
Proof.
  intros Hr Hr' Hrev. split; simpl; try done. intros Ht. specialize (Hrev Ht).
  assert (row_revision w ty e = Some (entry_revision entry)) as Hrr by by rewrite row_revision_row, Hr.
  destruct (progressed_identifies X w w' ty e _ Hwf Hprog Ht Hrr) as [Hf Hc]; [congruence|].
  split; [done|]. intros Hn. specialize (Hc Hn). rewrite Hr, Hr' in Hc. by injection Hc.
Qed.

(** Presence of a row that did not move. *)
Lemma unmoved_row ty e : row_revision w' ty e = row_revision w ty e → is_Some (row w' ty e) ↔ is_Some (row w ty e).
Proof. rewrite !row_revision_row. intros Hr. destruct (row w' ty e), (row w ty e); try done; by split. Qed.

Definition still (accs : list Access) : Prop := ∀ a, a ∈ accs → unmoved w w' a.

(** What is fetched in both states, guard by guard the same. *)
Definition refetched {B} (m m' : result (list Taken * B)) : Prop :=
  ∃ g b g' b', m = Done (g, b) ∧ m' = Done (g', b') ∧ Forall2 (same_input w w') g g'.

Lemma refetched_required {B} k ty e (h : ComponentEntry → B) :
  is_Some (row w ty e) → is_Some (row w' ty e) → still [MkAccess (if k is Reading then Read else Write) ty (Some e)] →
  refetched (entry ← expect MissingRow (row w ty e); Done ([guard k ty e entry], h entry))
            (entry ← expect MissingRow (row w' ty e); Done ([guard k ty e entry], h entry)).
Proof.
  intros [entry Hr] [entry' Hr'] Hs. rewrite Hr, Hr'. simpl. do 4 eexists. split_and!; [done|done|].
  constructor; [|constructor]. apply unmoved_guard; [done|done|]. intros Ht. exact (Hs _ ltac:(by left) e eq_refl Ht).
Qed.

Lemma refetched_optional {B} ty e (h : option CellId → B) :
  value_tracked ty = true → still [access_read ty e] →
  refetched (Done (match row w ty e with
                   | Some entry => ([guard Reading ty e entry], h (Some (entry_value entry))) | None => ([], h None) end))
            (Done (match row w' ty e with
                   | Some entry => ([guard Reading ty e entry], h (Some (entry_value entry))) | None => ([], h None) end)).
Proof.
  intros Ht Hs. assert (row_revision w' ty e = row_revision w ty e) as Hrev
    by exact (Hs _ ltac:(by left) e eq_refl Ht).
  pose proof (unmoved_row ty e Hrev) as Hiff.
  destruct (row w' ty e) as [entry'|] eqn:Hr', (row w ty e) as [entry|] eqn:Hr.
  - do 4 eexists. split_and!; [done|done|]. constructor; [|constructor]. by apply unmoved_guard.
  - destruct (proj1 Hiff) as [? ?]; [by eexists|done].
  - destruct (proj2 Hiff) as [? ?]; [by eexists|done].
  - do 4 eexists. split_and!; [done|done|]. constructor.
Qed.

Lemma still_app (a b : list Access) : still (a ++ b) → still a ∧ still b.
Proof. intros Hs. split; intros x Hx; apply Hs, elem_of_app; auto. Qed.

Lemma still_bind {A} (h : A → list Access) (l : list A) a : still (l ≫= h) → a ∈ l → still (h a).
Proof. intros Hs Ha x Hx. apply Hs, list_elem_of_bind. by exists a. Qed.

Lemma member_refetched (parts : list ReadPart) m :
  forallb (λ r, value_tracked (read_part_type r)) parts = true →
  forallb (λ r, read_part_matches w r m) parts = true → forallb (λ r, read_part_matches w' r m) parts = true →
  still (r ← parts; [access_read (read_part_type r) m]) →
  refetched (member_fetch w parts m) (member_fetch w' parts m).
Proof.
  rewrite !forallb_elem_of. intros Ht Hm Hm' Hs. unfold member_fetch.
  destruct (collect_same (same_input w w') (λ r, read_part_fetch w r m) (λ r, read_part_fetch w' r m) parts)
    as (g & b & g' & b' & -> & -> & R).
  { intros r Hr. specialize (Ht r Hr). specialize (Hm r Hr). specialize (Hm' r Hr). pose proof (still_bind _ _ r Hs Hr) as Hsr.
    destruct r as [ty|ty]; simpl in *.
    - apply refetched_required; [by apply has_row|by apply has_row|done].
    - by apply refetched_optional. }
  simpl. do 4 eexists. by split_and!.
Qed.

Lemma matches_same (parts : list ReadPart) m :
  forallb (λ r, value_tracked (read_part_type r)) parts = true →
  still (r ← parts; [access_read (read_part_type r) m]) →
  forallb (λ r, read_part_matches w' r m) parts = forallb (λ r, read_part_matches w r m) parts.
Proof.
  intros Ht Hs. apply eq_true_iff_eq. rewrite !forallb_elem_of in *.
  assert (∀ r, r ∈ parts → read_part_matches w' r m = read_part_matches w r m) as Hr.
  { intros r Hr. pose proof (still_bind _ _ r Hs Hr) as Hsr. specialize (Ht r Hr). destruct r as [ty|ty]; [|done]. simpl in *.
    apply bool_decide_ext, unmoved_row. exact (Hsr _ ltac:(by left) m eq_refl Ht). }
  split; intros Hall r Hin; [rewrite <-Hr by done|rewrite Hr by done]; by apply Hall.
Qed.

Lemma related_refetched inv edge (parts : list ReadPart) owner :
  part_observed (PartRelated inv edge parts) = true → separates w w' inv → still (related_access w inv parts owner) →
  refetched (related_fetch w inv parts owner) (related_fetch w' inv parts owner).
Proof.
  intros [Ht Hts]%andb_true_iff Hsep Hs.
  assert (row_revision w' inv owner = row_revision w inv owner) as Hrev
    by exact (Hs (access_read inv owner) ltac:(by left) owner eq_refl Ht).
  pose proof (members_same X w w' inv owner Hwf Hprog Ht Hsep Hrev) as Hmem.
  assert (still (m ← related_members w inv owner; r ← parts; [access_read (read_part_type r) m])) as Hsm.
  { intros a Ha. apply Hs. by right. }
  unfold related_fetch. unfold members_of, row_value in Hmem. unfold related_members, row_value in Hsm.
  pose proof (unmoved_row inv owner Hrev) as Hiff.
  destruct (row w' inv owner) as [entry'|] eqn:Hr', (row w inv owner) as [entry|] eqn:Hr; simpl in *.
  - rewrite <-Hmem. set (ms := default [] _) in *.
    assert (filter (λ m, forallb (λ r, read_part_matches w' r m) parts = true) ms =
            filter (λ m, forallb (λ r, read_part_matches w r m) parts = true) ms) as ->.
    { clear Hmem. induction ms as [|m ms IH]; [done|]. rewrite bind_cons in Hsm. apply still_app in Hsm as [Hm Hms].
      rewrite !filter_cons, (matches_same parts m Hts Hm), (IH Hms). done. }
    destruct (collect_same (same_input w w') (member_fetch w parts) (member_fetch w' parts)
      (filter (λ m, forallb (λ r, read_part_matches w r m) parts = true) ms)) as (g & b & g' & b' & -> & -> & R).
    { intros m [Hm Hin]%list_elem_of_filter. pose proof (still_bind _ _ m Hsm Hin) as Hsr.
      apply member_refetched; try done. by rewrite (matches_same parts m). }
    simpl. do 4 eexists. split_and!; [done|done|]. constructor; [|done]. by apply unmoved_guard.
  - destruct (proj1 Hiff) as [? ?]; [by eexists|done].
  - destruct (proj2 Hiff) as [? ?]; [by eexists|done].
  - do 4 eexists. split_and!; [done|done|constructor].
Qed.

Lemma part_refetched part e :
  part_matches w part e = true → part_matches w' part e = true → part_observed part = true →
  (∀ inv edge, (inv, edge) ∈ part_edges part → separates w w' inv) → still (part_access w part e) →
  refetched (part_fetch_with (row w) w part e) (part_fetch_with (row w') w' part e).
Proof.
  destruct part as [ty|ty|ty|fac|inv edge parts]; intros Hm Hm' Ho Hsep Hs; simpl in *.
  - apply (refetched_required Reading); [by apply has_row|by apply has_row|done].
  - by apply refetched_optional.
  - apply (refetched_required Writing); [by apply has_row|by apply has_row|done].
  - do 4 eexists. split_and!; [done|done|constructor].
  - apply (related_refetched inv edge); [done|apply (Hsep inv edge); by left|done].
Qed.

Lemma query_refetched q e :
  row_matches w q e = true → row_matches w' q e = true → query_observed q = true →
  (∀ inv edge, (inv, edge) ∈ query_edges q → separates w w' inv) → still (param_access w q e) →
  refetched (param_fetch w q e) (param_fetch w' q e).
Proof.
  unfold param_fetch. destruct q as [fac|ty|ty|fac parts]; intros Hm Hm' Ho Hsep Hs; simpl in *.
  - do 4 eexists. split_and!; [done|done|constructor].
  - apply (refetched_required Reading); [by apply has_row|by apply has_row|done].
  - apply (refetched_required Writing); [by apply has_row|by apply has_row|done].
  - apply andb_true_iff in Hm as [_ Hm], Hm' as [_ Hm']. rewrite forallb_elem_of in Ho.
    destruct (collect_same (same_input w w') (λ part, part_fetch_with (row w) w part e)
      (λ part, part_fetch_with (row w') w' part e) parts) as (g & b & g' & b' & -> & -> & R).
    { intros part Hp. apply part_refetched.
      - by apply (parts_match_elem w parts).
      - by apply (parts_match_elem w' parts).
      - by apply Ho.
      - intros inv edge Hin. apply (Hsep inv edge). apply list_elem_of_bind. by exists part.
      - by apply (still_bind (λ part, part_access w part e) parts). }
    simpl. do 4 eexists. by split_and!.
Qed.

Lemma sp_refetched p s a :
  param_row w p s → param_row w' p s → (∀ q, sp_query p = Some q → query_observed q = true) →
  (∀ q inv edge, sp_query p = Some q → (inv, edge) ∈ query_edges q → separates w w' inv) →
  sp_deps marker w p s = Done a → current w' a → refetched (sp_fetch w p s) (sp_fetch w' p s).
Proof.
  assert (∀ q f e, query_row w q f e → query_row w' q f e → query_observed q = true →
    (∀ inv edge, (inv, edge) ∈ query_edges q → separates w w' inv) → filtered_deps w q f e = Done a → current w' a →
    refetched (param_fetch w q e) (param_fetch w' q e)) as Hq.
  { intros q f e (_ & Hm & _) (_ & Hm' & _) Ho Hsep (b & Hb & Hr)%bind_Done Hc.
    apply bind_Done in Hr as (b' & _ & [= <-]). apply current_app in Hc as [Hc _].
    apply query_refetched; try done. intros x Hx. by apply (param_observes w w' q e b (wf_st _ _ Hwf') Hb). }
  destruct p as [q f|q f|q f|q f|o|], s as [e| |]; simpl; intros Hr Hr' Ho Hsep Hd Hc; try done;
    try (do 4 eexists; split_and!; [done|done|constructor]).
  all: destruct (Hq q f e Hr Hr' (Ho q eq_refl) (λ inv edge, Hsep q inv edge eq_refl) Hd Hc)
         as (g & b & g' & b' & -> & -> & R); simpl; do 4 eexists; by split_and!.
Qed.

Lemma tuple_deps_elem ps st ds p s :
  tuple_deps (sp_deps marker w) ps st = Done ds → (p, s) ∈ zip ps st →
  ∃ a, sp_deps marker w p s = Done a ∧ a ⊆ ds.
Proof.
  revert st ds. induction ps as [|p' ps IH]; intros [|s' st] ds; simpl; try (by intros _ ?%elem_of_nil).
  intros (a & Ha & Hr)%bind_Done. apply bind_Done in Hr as (b & Hb & [= <-]).
  intros [[= -> ->]|Hin]%elem_of_cons.
  - exists a. split; [done|]. intros d Hd. apply elem_of_app. by left.
  - destruct (IH st b Hb Hin) as (a' & Ha' & Hsub). exists a'. split; [done|].
    intros d Hd. apply elem_of_app. right. by apply Hsub.
Qed.

Lemma tuple_refetched ps st ds :
  Forall2 (param_row w) ps st → Forall2 (param_row w') ps st → observed w w' ps →
  tuple_deps (sp_deps marker w) ps st = Done ds → current w' ds →
  refetched (tuple_fetch w ps st) (tuple_fetch w' ps st).
Proof.
  intros Hst Hst' [Ho Hsep] Hd Hc. unfold tuple_fetch.
  apply collect_same. intros [p s] Hin. destruct (tuple_deps_elem ps st ds p s Hd Hin) as (a & Ha & Hsub).
  pose proof Hin as [i [Hp Hs]%lookup_zip_Some]%list_elem_of_lookup.
  pose proof (list_elem_of_lookup_2 _ _ _ Hp) as Hpin.
  apply (sp_refetched p s a).
  - by eapply Forall2_lookup_lr.
  - by eapply Forall2_lookup_lr.
  - intros q. by apply Ho.
  - intros q inv edge. by apply Hsep.
  - done.
  - intros d Hda. by apply Hc, Hsub.
Qed.
End between.

(** A row whose recorded dependencies are the ones computed again. *)
Lemma skipped_same X w X' w' ps st system memo0 memo i entry :
  wf X w → wf X' w' → progressed w w' →
  Forall2 (param_row w) ps st → Forall2 (param_row w') ps st → observed w w' ps →
  plan_state marker system w ps memo0 st = Done [i] →
  memo !! pl_owner i = Some entry → memo_deps entry = pl_deps i →
  plan_state marker system w' ps memo st = Done [] →
  ∃ g items g' items', tuple_fetch w ps (pl_state i) = Done (g, items) ∧ tuple_fetch w' ps st = Done (g', items') ∧
    Forall2 (same_input w w') g g'.
Proof.
  intros Hwf Hwf' P Hst Hst' Hob Hplan Hentry Hdeps Hskip.
  destruct (tuple_deps_total marker w ps st Hst) as (ds & ds1 & Hds & Hds1 & Heq1).
  destruct (tuple_deps_total marker w' ps st Hst') as (ds' & ds1' & Hds' & Hds1' & Heq1').
  unfold plan_state in Hplan, Hskip. rewrite Hds1 in Hplan. rewrite Hds1' in Hskip. simpl in Hplan, Hskip.
  destruct (negb _ && memo_hit memo0 _ _); [done|]. injection Hplan as <-. simpl in *.
  destruct (negb (tuple_always_run ps) && _) eqn:Hhit; [|done]. apply andb_true_iff in Hhit as [_ Hhit].
  assert (current w' ds1') as Hc'.
  { eapply deps_eq_current; [apply Hwf'|exact Heq1'|]. by eapply tuple_deps_current; [apply Hwf'|]. }
  unfold memo_hit in Hhit. rewrite Hentry, Hdeps in Hhit. apply deps_eqb_spec in Hhit.
  assert (current w' ds1) as Hc1 by (eapply deps_eq_current; [apply Hwf'|exact Hhit|exact Hc']).
  assert (current w' ds) as Hc.
  { eapply deps_eq_current; [apply Hwf'| |exact Hc1]. by apply deps_eq_sym. }
  destruct (tuple_refetched X w X' w' Hwf Hwf' P ps st ds Hst Hst' Hob Hds Hc) as (g & items & g' & items' & Hg & Hg' & R).
  by exists g, items, g', items'.
Qed.

(** ** Properties *)

(** C18: the planner skips a row only when its run would be handed the same
    inputs.  Take a row that was planned at [w], whose dependencies are in the
    memo (they were recorded as planned, or refreshed to what its own writes
    left behind and planned again there), and let the world move to [w'], where
    the row still matches.  If the planner skips it there, then fetching it
    succeeds and takes the same guards in the same order, and every tracked
    component behind them has the fingerprint it had, or is the same cell if it
    has none.  The presence of untracked components must not decide what is
    fetched, and the fingerprint of a projected inverse must tell its member
    lists apart. *)
Theorem skip_sound X w X' w' ps st system memo0 memo i entry :
  wf X w → rtc world_step (X, w) (X', w') →
  Forall2 (param_row w) ps st → Forall2 (param_row w') ps st → observed w w' ps →
  plan_state marker system w ps memo0 st = Done [i] →
  memo !! pl_owner i = Some entry → memo_deps entry = pl_deps i →
  plan_state marker system w' ps memo st = Done [] →
  ∃ g items g' items', tuple_fetch w ps (pl_state i) = Done (g, items) ∧ tuple_fetch w' ps st = Done (g', items') ∧
    Forall2 (same_input w w') g g'.
Proof.
  intros Hwf Hsteps. destruct (world_steps_good _ _ Hsteps Hwf) as [Hwf' P%evolves_progressed].
  by apply (skipped_same X w X' w').
Qed.
End skip.

(** ** Concrete runs *)

(** The row of [demo_edge_writer] ran on [demo_rows]; then a number was written
    elsewhere. *)
Definition demo_skip_memo : gmap SystemInvocation MemoEntry :=
  {[pl_owner demo_write_row := MkMemo (pl_deps demo_write_row) 2 0]}.

Lemma demo_write_rows w :
  row_matches w (ParamRow [] [PartRef ty_members]) 5 = true → has w ty_edge 3 = true → (5 < next_entity (shared w))%N →
  Forall2 (param_row w) demo_edge_writer [SRow 5; SRow 3].
Proof.
  intros Hm He Hn. constructor; [by split_and!|]. constructor; [|constructor]. split_and!; [lia|done|done].
Qed.

Lemma demo_observed w w' : observed w w' demo_edge_writer.
Proof.
  split.
  - intros p q [-> | ->]%elem_of_two; intros [= <-]; reflexivity.
  - intros p q inv edge [-> | ->]%elem_of_two; intros [= <-]; vm_compute; by intros ?%elem_of_nil.
Qed.

Lemma skip_sound_witness :
  ∃ g items g' items', tuple_fetch demo_rows demo_edge_writer [SRow 5; SRow 3] = Done (g, items) ∧
    tuple_fetch demo_numbered demo_edge_writer [SRow 5; SRow 3] = Done (g', items') ∧
    Forall2 (same_input demo_rows demo_numbered) g g'.
Proof.
  apply (skip_sound no_marker nothing_taken demo_rows nothing_taken demo_numbered demo_edge_writer [SRow 5; SRow 3]
           0 ∅ demo_skip_memo demo_write_row (MkMemo (pl_deps demo_write_row) 2 0)).
  - exact demo_wf_rows.
  - apply rtc_once, demo_number_step.
  - apply demo_write_rows; vm_compute; reflexivity.
  - apply demo_write_rows; vm_compute; reflexivity.
  - apply demo_observed.
  - vm_compute. reflexivity.
  - vm_compute. reflexivity.
  - reflexivity.
  - vm_compute. reflexivity.
Defined.
