(* ===== verification/Incremental.v ===== *)
(** * Incremental evaluation of a system ([bowl.rs], [system.rs])

    The history of one registered system: the world moves, the write log is
    compacted, the system is planned in full, planned from a hint or skipped, its
    rows are dispatched, committed, found stale, dropped by a preemption or retired
    by a cascade, and the memo changes with each of them.  The theorems: planning
    incrementally is planning from scratch, at every point of every history; and a
    system that has come to rest is up to date, each of its rows having run on the
    inputs it would be handed now. *)
From stdpp Require Import base numbers sets gmap fin_maps sorting relations list.
From S2P Require Import Prelude Access.
From S2P Require Import Components Demo Stores Presence World WorldInv Ownership WorldOps Relations Frame.
From S2P Require Import Commands Query ExternalQuery Deps Planner Commit Params Joins Delta Fetch Skip.

Section incremental.
Context `{RelationshipLaws} `{HashOrder}.
Implicit Types (w : World) (e m : Entity) (ty inv edge : TypeId) (q : QueryParam) (f : QueryFilter)
  (part : QueryPart) (p : SystemParam) (s : BoxedSystem) (st : list ParamState) (hint : list Entity) (d : Dep)
  (ds : list Dep) (i : PlannedInvocation) (memo : gmap SystemInvocation MemoEntry) (o : SystemInvocation).

Variable marker : list FacetPart → TypeId.

(** ** Dependencies that are still current are computed again *)

Section again.
Context (X : taken) (w : World) (X' : taken) (w' : World).
Hypothesis (Hwf : wf X w) (Hwf' : wf X' w') (Hprog : progressed w w').

Lemma component_dep_again ty e ds :
  component_dep_if_tracked w ty e = Done ds → current w' ds → component_dep_if_tracked w' ty e = Done ds.
Proof using Hwf'.
  intros Hd Hc. pose proof (proj1 (component_dep_current w w' ty e ds (wf_st _ _ Hwf') Hd) Hc) as Hr.
  unfold component_dep_if_tracked in *. destruct (value_tracked ty); [|done]. by rewrite Hr.
Qed.

Lemma optional_dep_again ty e :
  current w' (optional_component_dep w ty e) → optional_component_dep w' ty e = optional_component_dep w ty e.
Proof using Hwf'.
  intros Hc. pose proof (proj1 (optional_dep_current w w' ty e (wf_st _ _ Hwf')) Hc) as Hr.
  unfold optional_component_dep. destruct (value_tracked ty); [|done]. by rewrite Hr.
Qed.

Lemma current_bind {A} (g : A → list Dep) (l : list A) x : current w' (l ≫= g) → x ∈ l → current w' (g x).
Proof. intros Hc Hx d Hd. apply Hc, list_elem_of_bind. by exists x. Qed.

Lemma bind_again {A} (g g' : A → list Dep) (l : list A) :
  (∀ x, x ∈ l → current w' (g x) → g' x = g x) → current w' (l ≫= g) → l ≫= g' = l ≫= g.
Proof.
  induction l as [|x l IH]; intros Hg Hc; [done|]. rewrite !bind_cons in *. apply current_app in Hc as [Hx Hc].
  rewrite (Hg x) by (done || by left). rewrite IH; [done| |done]. intros y Hy. apply Hg. by right.
Qed.

Lemma tracked_deps_again fac e : current w' (tracked_deps w fac e) → tracked_deps w' fac e = tracked_deps w fac e.
Proof using Hwf'.
  unfold tracked_deps. intros Hc. apply list_fmap_ext. intros k x Hx. apply list_elem_of_lookup_2 in Hx.
  f_equal. apply (row_dep_current w' (part_type x) None e _ (wf_st _ _ Hwf')), Hc.
  by apply (list_elem_of_fmap_2 (λ x, MkDep (part_type x) None e (row_revision w (part_type x) e) false)).
Qed.

Lemma related_deps_again inv (rps : list ReadPart) e :
  value_tracked inv = true → separates w w' inv → current w' (related_deps w inv rps e) →
  related_deps w' inv rps e = related_deps w inv rps e.
Proof using Hwf Hwf' Hprog.
  intros Ht Hsep [Hi Hm]%current_app. unfold related_deps. rewrite (optional_dep_again inv e Hi). f_equal.
  assert (row_revision w' inv e = row_revision w inv e) as Hr
    by by apply (optional_dep_current w w' inv e (wf_st _ _ Hwf')).
  pose proof (members_same X w w' inv e Hwf Hprog Ht Hsep Hr) as Hms.
  assert (related_members w' inv e = related_members w inv e) as ->.
  { unfold related_members. unfold members_of in Hms. by rewrite Hms. }
  apply bind_again; [|exact Hm]. intros x _ Hx. apply bind_again; [|exact Hx]. intros r _. apply optional_dep_again.
Qed.

Lemma part_deps_again part e ds :
  (∀ inv edge, (inv, edge) ∈ part_edges part → value_tracked inv = true ∧ separates w w' inv) →
  part_deps w part e = Done ds → current w' ds → part_deps w' part e = Done ds.
Proof using Hwf Hwf' Hprog.
  destruct part as [ty|ty|ty|fac|inv edge rps]; simpl; intros Hrel.
  - apply component_dep_again.
  - intros [= <-] Hc. f_equal. by apply optional_dep_again.
  - apply component_dep_again.
  - intros [= <-] Hc. f_equal. by apply tracked_deps_again.
  - intros [= <-] Hc. f_equal. destruct (Hrel inv edge); [by left|]. by apply related_deps_again.
Qed.

Lemma filter_deps_again f e ds : filter_deps w f e = Done ds → current w' ds → filter_deps w' f e = Done ds.
Proof using Hwf'.
  revert ds. induction f as [|ty|ty|ty|inv edge|l IHl r IHr|l IHl r IHr]; intros ds; simpl; try done;
    try apply component_dep_again.
  all: intros (a & Ha & Hr)%bind_Done; apply bind_Done in Hr as (b & Hb & [= <-]);
    intros [Hca Hcb]%current_app; by rewrite (IHl a Ha Hca), (IHr b Hb Hcb).
Qed.

Lemma filtered_deps_again q f e ds :
  (∀ inv edge, (inv, edge) ∈ query_edges q → value_tracked inv = true ∧ separates w w' inv) →
  filtered_deps w q f e = Done ds → current w' ds → filtered_deps w' q f e = Done ds.
Proof using Hwf Hwf' Hprog.
  intros Hrel (a & Ha & Hr)%bind_Done. apply bind_Done in Hr as (b & Hb & [= <-]). intros [Hca Hcb]%current_app.
  unfold filtered_deps. rewrite (filter_deps_again f e b Hb Hcb).
  assert (param_deps w' q e = Done a) as ->; [|done].
  destruct q as [fac|ty|ty|fac parts]; simpl in *; [done|by apply component_dep_again..|].
  clear Hb Hcb. revert a Ha Hca. induction parts as [|part parts IH]; intros a; simpl; [done|].
  intros (a1 & Ha1 & Hr)%bind_Done. apply bind_Done in Hr as (a2 & Ha2 & [= <-]). intros [Hc1 Hc2]%current_app.
  rewrite (part_deps_again part e a1); [| |done|done].
  2: { intros inv edge Hin. apply (Hrel inv edge). rewrite bind_cons. apply elem_of_app. by left. }
  simpl. rewrite (IH (λ inv edge Hin, Hrel inv edge ltac:(rewrite bind_cons; apply elem_of_app; by right)) a2 Ha2 Hc2).
  done.
Qed.

Lemma tuple_deps_again (ps : list SystemParam) st ds :
  (∀ p, p ∈ ps → sp_delta_shape p ≠ OpaqueShape) →
  (∀ q f inv edge, PQuery q f ∈ ps → (inv, edge) ∈ query_edges q → value_tracked inv = true ∧ separates w w' inv) →
  tuple_deps (sp_deps marker w) ps st = Done ds → current w' ds → tuple_deps (sp_deps marker w') ps st = Done ds.
Proof using Hwf Hwf' Hprog.
  revert st ds. induction ps as [|p ps IH]; intros [|s st] ds Hps Hrel; simpl; try done.
  intros (a & Ha & Hr)%bind_Done. apply bind_Done in Hr as (b & Hb & [= <-]). intros [Hca Hcb]%current_app.
  rewrite (IH st b (λ p' Hp', Hps p' (list_elem_of_further _ _ _ Hp'))
    (λ q f inv edge Hp', Hrel q f inv edge (list_elem_of_further _ _ _ Hp')) Hb Hcb).
  assert (sp_deps marker w' p s = Done a) as ->; [|done]. specialize (Hps p ltac:(left)).
  destruct p as [q f|q f|q f|q f|out|], s; try done. simpl in *. apply filtered_deps_again; try done.
  intros inv edge. apply (Hrel q f inv edge). by left.
Qed.

(** Between two states where a row shows the same, it shows the same. *)
Lemma revision_between X2 w2 ty e r :
  wf X2 w2 → progressed w' w2 → row_revision w ty e = Some r → row_revision w2 ty e = Some r →
  row_revision w' ty e = Some r.
Proof using Hwf Hprog.
  intros _ P2 Hr Hr2. pose proof (row_revision_bound _ _ _ _ _ Hwf Hr). pose proof (pg_revision _ _ Hprog).
  destruct (pg_fresh _ _ P2 ty e r Hr2) as [?|[? _]]; [lia|done].
Qed.
End again.

(** ** What an invocation writes in place is there *)

Lemma written_rows_in (accs : list Access) ty e :
  (ty, e) ∈ written_rows accs → ∃ a, a ∈ accs ∧ acc_kind a = Write ∧ acc_component a = ty ∧ acc_entity a = Some e.
Proof.
  unfold written_rows. intros (a & [Hk Ha]%list_elem_of_filter & He)%list_elem_of_omap. exists a.
  destruct (acc_entity a); [|done]. by injection He as <- <-.
Qed.

Lemma written_has w q e a :
  row_matches w q e = true → a ∈ param_access w q e → acc_kind a = Write →
  ∃ e', acc_entity a = Some e' ∧ has w (acc_component a) e' = true.
Proof.
  destruct q as [fac|ty|ty|fac parts]; simpl; intros Hm.
  - by intros ?%elem_of_nil.
  - by intros ->%list_elem_of_singleton.
  - intros ->%list_elem_of_singleton _. by exists e.
  - intros (part & Ha & Hp)%list_elem_of_bind Hk. apply andb_true_iff in Hm as [_ Hm].
    pose proof (parts_match_elem w parts part e Hm Hp) as Hpart. destruct part as [ty|ty|ty|fac'|inv edge rps]; simpl in *.
    1,2: apply list_elem_of_singleton in Ha as ->; done.
    + apply list_elem_of_singleton in Ha as ->. by exists e.
    + apply list_elem_of_fmap in Ha as (x & -> & _). done.
    + apply elem_of_cons in Ha as [->|Ha]; [done|]. apply list_elem_of_bind in Ha as (x & Ha & _).
      apply list_elem_of_bind in Ha as (r & ->%list_elem_of_singleton & _). done.
Qed.

Lemma tuple_written w ps st ty e :
  Forall2 (param_row w) ps st → (ty, e) ∈ written_rows (tuple_access marker w ps st) →
  ∃ p q f e' a, (p = PQuery q f ∨ p = POuter q f) ∧ p ∈ ps ∧ query_row w q f e' ∧
    a ∈ param_access w q e' ∧ acc_kind a = Write ∧ acc_component a = ty ∧ acc_entity a = Some e.
Proof.
  intros Hst (a & Ha & Hk & Hty & He)%written_rows_in. unfold tuple_access in Ha.
  apply list_elem_of_In, in_concat in Ha as (l & Hl & Ha). apply list_elem_of_In in Hl, Ha.
  apply list_elem_of_lookup in Hl as [k Hl]. apply lookup_zip_with_Some in Hl as (p & s & -> & Hp & Hs).
  pose proof (Forall2_lookup_lr _ _ _ _ _ _ Hst Hp Hs) as Hrow. apply list_elem_of_lookup_2 in Hp.
  assert (∀ q f e', a ∈ filtered_access w q f e' → a ∈ param_access w q e') as Hq.
  { intros q f e' [Hin|Hin]%elem_of_app; [done|].
    assert ((acc_component a, e) ∈ written_rows (filter_access f e')) as Hw.
    { unfold written_rows. apply list_elem_of_omap. exists a. rewrite He. split; [|done].
      by apply list_elem_of_filter. }
    rewrite filter_access_written in Hw. by apply elem_of_nil in Hw. }
  assert (∀ q f, a ∈ param_access_all marker q ++ filter_access_all f → acc_entity a = None) as Hall.
  { intros q f [Hin|Hin]%elem_of_app.
    - destruct q as [fac|ty'|ty'|fac parts]; simpl in Hin; [by apply elem_of_nil in Hin|..];
        [by apply list_elem_of_singleton in Hin as ->..|].
      apply list_elem_of_fmap in Hin as (part & -> & _). by destruct part.
    - induction f; simpl in Hin; try (by apply elem_of_nil in Hin); try (by apply list_elem_of_singleton in Hin as ->).
      all: apply elem_of_app in Hin as [?|?]; auto. }
  destruct p as [q f|q f|q f|q f|out|], s as [e'| |]; simpl in Ha, Hrow; try (by apply elem_of_nil in Ha); try done.
  all: try (exfalso; specialize (Hall _ _ Ha); congruence).
  all: eexists _, q, f, e', a; split_and!; [|exact Hp|exact Hrow|by eapply Hq|done..]; auto.
Qed.

Lemma tuple_written_has w ps st ty e :
  Forall2 (param_row w) ps st → (ty, e) ∈ written_rows (tuple_access marker w ps st) → has w ty e = true.
Proof.
  intros Hst (p & q & f & e' & a & _ & _ & (_ & Hm & _) & Ha & Hk & <- & He)%tuple_written; [|done].
  destruct (written_has w q e' a Hm Ha Hk) as (e2 & He2 & Hhas). congruence.
Qed.

(** ** The history of one system *)

Variable (id : SystemId) (ps : list SystemParam) (tys : list TypeId).
Variable decode : TypeId → N → option (list Entity).

(** A world the system is planned on: every row has an id, edges and inverses
    agree, keys are hashed, and a fingerprint of an inverse identifies its members. *)
Record fine w : Prop := {
  fn_addressable : addressable w;
  fn_rel : rel_ok w;
  fn_joinable : joinable w ps;
  fn_tells q f inv edge : PQuery q f ∈ ps → (inv, edge) ∈ query_edges q ++ filter_edges f →
    hashed w inv ∧ ∀ e k, row_fingerprint w inv e = Some k → members_of w inv e = decode inv k;
}.

Record History := MkHistory {
  h_taken : taken;
  h_world : World;
  h_system : BoxedSystem;
  h_memo : gmap SystemInvocation MemoEntry;
  h_flight : list PlannedInvocation;
  (** Rows whose run, or whose record, was thrown away without planning them again. *)
  h_owed : list SystemInvocation;
}.
Implicit Types (h : History) (flight planned : list PlannedInvocation) (owed : list SystemInvocation).

(** The dispatch of a plan, as the reservations decide it. *)
Inductive dispatches : list PlannedInvocation → BoxedSystem → list PlannedInvocation →
                       list PlannedInvocation → BoxedSystem → Prop :=
  | di_done flight s : dispatches flight s [] flight s
  | di_admitted flight s i planned flight' s' :
      dispatches (flight ++ [i]) s planned flight' s' → dispatches flight s (i :: planned) flight' s'
  | di_running flight s i planned flight' s' :
      pl_owner i ∈ pl_owner <$> flight → dispatches flight s planned flight' s' →
      dispatches flight s (i :: planned) flight' s'
  | di_conflict flight s i planned flight' s' :
      dispatches flight (force_replan s (keys (pl_owner i))) planned flight' s' →
      dispatches flight s (i :: planned) flight' s'.

Definition landed i flight : list PlannedInvocation := filter (λ j, pl_owner j ≠ pl_owner i) flight.
Definition unpaid planned owed : list SystemInvocation := filter (λ o, o ∉ pl_owner <$> planned) owed.
Definition record_of i (rev : N) : MemoEntry := MkMemo (pl_deps i) rev 0.

Inductive history_step : History → History → Prop :=
  (** Commits of other systems, external writes, cleanups. *)
  | hs_world X w s memo flight owed X' w' :
      wf X' w' → evolves w w' → plan_epoch w' = plan_epoch w →
      history_step (MkHistory X w s memo flight owed) (MkHistory X' w' s memo flight owed)
  | hs_compact X w s memo flight owed w' epoch log s' :
      maybe_roll_plan_epoch w = Done (w', Some (epoch, log)) → compact_plan_log s epoch log w' = Done s' →
      history_step (MkHistory X w s memo flight owed) (MkHistory X w' s' memo flight owed)
  (** A wave that plans the system, and dispatches what it planned. *)
  | hs_plan X w s memo flight owed s1 (hint : option (list Entity)) b planned flight' s' :
      fine w → (plan_epoch w < u64_max)%N → plan_system s w (plan_log w).1 (plan_log w).2 = Done (s1, Some hint) →
      plan_invocations marker id w ps memo hint = Done (b, planned) →
      dispatches flight s1 planned flight' s' →
      history_step (MkHistory X w s memo flight owed) (MkHistory X w s' memo flight' (unpaid planned owed))
  (** A run comes back: current, it applies its outputs, reconciles what it wrote
      in place and is recorded; stale, only what it wrote in place is reconciled
      and the row is forced, except while a preemption drains the writers. *)
  | hs_commit X w s memo flight owed i X1 w1 w' rev epoch :
      i ∈ flight → fine w → memo_is_current w (record_of i rev) = true →
      wf X1 w1 → evolves w w1 → plan_epoch w1 = plan_epoch w →
      reconcile_written w1 (written_rows (pl_access i)) = Done w' →
      history_step (MkHistory X w s memo flight owed)
        (MkHistory X1 w' s (commit_memo w' epoch (written_rows (pl_access i)) memo (pl_owner i, record_of i rev))
           (landed i flight) owed)
  | hs_stale X w s memo flight owed i w' rev force :
      i ∈ flight → memo_is_current w (record_of i rev) = false →
      reconcile_written w (written_rows (pl_access i)) = Done w' →
      history_step (MkHistory X w s memo flight owed)
        (MkHistory X w' (if force : bool then force_replan s (keys (pl_owner i)) else s) memo (landed i flight)
           (if force : bool then owed else owed ++ [pl_owner i]))
  (** Readers dropped by a preemption. *)
  | hs_drop X w s memo flight owed flight' dropped :
      flight ≡ₚ flight' ++ dropped →
      history_step (MkHistory X w s memo flight owed) (MkHistory X w s memo flight' (owed ++ (pl_owner <$> dropped)))
  (** The cascade: a retired owner is forgotten and forced, the rows keyed by a
      vanished entity are only forgotten. *)
  | hs_retire X w s memo flight owed o :
      system o = id →
      history_step (MkHistory X w s memo flight owed)
        (MkHistory X w (force_replan s (keys o)) (delete o memo) flight owed)
  | hs_forget X w s memo flight owed keyset owed' :
      owed ⊆ owed' →
      (∀ o, is_Some (memo !! o) → remove_memo_touched_by memo keyset !! o = None →
         o ∈ owed' ∨ (fine w ∧ ∀ st, Forall2 (param_row w) ps st → Invocation id (tuple_keys st) ≠ o)) →
      history_step (MkHistory X w s memo flight owed)
        (MkHistory X w s (remove_memo_touched_by memo keyset) flight owed')
  (** Records of other systems. *)
  | hs_others X w s memo flight owed memo' :
      (∀ o, system o = id → memo' !! o = memo !! o) →
      history_step (MkHistory X w s memo flight owed) (MkHistory X w s memo' flight owed)
  (** A generation abandoned or started over plans everything again. *)
  | hs_reset X w s memo flight owed :
      history_step (MkHistory X w s memo flight owed) (MkHistory X w (reset_full s) memo flight []).

(** A system as [BoxedSystem::new] leaves it, with nothing recorded. *)
Definition history_start h : Prop :=
  wf (h_taken h) (h_world h) ∧ interest (h_system h) = Some tys ∧ was_reset (h_system h) ∧
  (∀ o, system o = id → h_memo h !! o = None) ∧ h_flight h = [] ∧ h_owed h = [].

(** ** What is known of every row *)

Definition own st : SystemInvocation := Invocation id (tuple_keys st).
Definition joined_row w st : Prop := Forall2 (param_row w) ps st ∧ binding_matches w ps st = Done true.

(** If the row was there at [w0], a later plan that computes the same
    dependencies finds its record. *)
Definition recorded w memo w0 st : Prop :=
  joined_row w0 st → ∃ ds, tuple_deps (sp_deps marker w0) ps st = Done ds ∧
    ∀ X2 w2, wf X2 w2 → progressed w w2 → current w2 ds → memo_hit memo (own st) ds = true.

(** A row is in flight, owed, planned next time anyway, or was seen at a world
    since which every change reaches the next plan. *)
Inductive accounted X w s memo flight owed st : Prop :=
  | ac_flight : own st ∈ pl_owner <$> flight → accounted X w s memo flight owed st
  | ac_owed : own st ∈ owed → accounted X w s memo flight owed st
  | ac_forced : was_reset s ∨ (tuple_keys st ≠ [] ∧ tuple_keys st ⊆ forced_dirty s) →
      accounted X w s memo flight owed st
  | ac_seen X0 w0 : wf X0 w0 → fine w0 → progressed w0 w → covers w0 tys X w s [] → recorded w memo w0 st →
      accounted X w s memo flight owed st.

(** The world an invocation was planned on. *)
Definition planned_at w i : Prop :=
  ∃ X0 w0 memo0 st, wf X0 w0 ∧ fine w0 ∧ progressed w0 w ∧ joined_row w0 st ∧
    plan_state marker id w0 ps memo0 st = Done [i].

Record consistent h : Prop := {
  co_covers : covers (h_world h) tys (h_taken h) (h_world h) (h_system h) [];
  co_rows st : accounted (h_taken h) (h_world h) (h_system h) (h_memo h) (h_flight h) (h_owed h) st;
  co_flight i : i ∈ h_flight h → planned_at (h_world h) i;
  co_memo o (entry : MemoEntry) : system o = id → h_memo h !! o = Some entry → ∃ i, planned_at (h_world h) i ∧ pl_owner i = o ∧
    (written_rows (pl_access i) = [] → memo_deps entry = pl_deps i);
}.

Lemma planned_later w w' i : planned_at w i → progressed w w' → planned_at w' i.
Proof.
  intros (X0 & w0 & memo0 & st & ? & ? & P & ? & ?) P'. exists X0, w0, memo0, st. split_and!; try done.
  by eapply progressed_trans.
Qed.

Lemma fine_separates w0 w q f inv edge :
  fine w0 → fine w → PQuery q f ∈ ps → (inv, edge) ∈ query_edges q ++ filter_edges f → separates w0 w inv.
Proof.
  intros F0 F Hp Hin. destruct (fn_tells _ F0 q f inv edge Hp Hin) as [_ H0'], (fn_tells _ F q f inv edge Hp Hin) as [Hh H1'].
  split; [done|]. intros e k Hk0 Hk. by rewrite (H0' e k Hk0), (H1' e k Hk).
Qed.

(** Keeping the account of a row over a step. *)
Lemma accounted_kept X w s memo flight owed X' w' s' memo' flight' owed' st :
  accounted X w s memo flight owed st → progressed w w' →
  (∀ w0, covers w0 tys X w s [] → covers w0 tys X' w' s' []) →
  (was_reset s → was_reset s') → (was_reset s' ∨ forced_dirty s ⊆ forced_dirty s') →
  (own st ∈ pl_owner <$> flight → accounted X' w' s' memo' flight' owed' st) →
  (own st ∈ owed → accounted X' w' s' memo' flight' owed' st) →
  (memo !! own st = memo' !! own st ∨ accounted X' w' s' memo' flight' owed' st) →
  accounted X' w' s' memo' flight' owed' st.
Proof.
  intros Ha P Hcov Hr Hf Hfl How Hm. destruct Hm as [Hm|?]; [|done].
  destruct Ha as [?|?|[?|[Hne Hk]]|X0 w0 Hwf0 F0 P0 C0 Hrec]; [auto|auto| | |].
  - apply ac_forced. left. auto.
  - apply ac_forced. destruct Hf as [?|Hf]; [by left|]. right. split; [done|]. by etrans.
  - apply (ac_seen _ _ _ _ _ _ _ X0 w0); [done..|by eapply progressed_trans|by apply Hcov|].
    intros Hrow. destruct (Hrec Hrow) as (ds & Hds & Hall). exists ds. split; [done|].
    intros X2 w2 Hwf2 P2 Hc. unfold memo_hit. rewrite <-Hm. apply (Hall X2 w2); [done|by eapply progressed_trans|done].
Qed.

Lemma force_keeps s ks :
  (was_reset s → was_reset (force_replan s ks)) ∧
  (was_reset (force_replan s ks) ∨ forced_dirty s ⊆ forced_dirty (force_replan s ks)).
Proof.
  unfold force_replan. destruct (delta_eligible s && _).
  - split; [by intros []|]. right. intros e ?. simpl. apply elem_of_app. by left.
  - split; [by intros _|]. by left.
Qed.

Lemma force_covers w0 X w s ks : covers w0 tys X w s [] → covers w0 tys X w (force_replan s ks) [].
Proof.
  intros C. eapply covers_keys; [exact (covers_force _ _ _ _ _ _ ks C)|]. right. by intros e ?%elem_of_nil.
Qed.

Lemma forced_row X w s memo flight owed st :
  accounted X w (force_replan s (tuple_keys st)) memo flight owed st.
Proof.
  apply ac_forced. unfold force_replan. destruct (decide (tuple_keys st = [])) as [He|He].
  - rewrite (bool_decide_eq_true_2 (tuple_keys st = [])) by done. rewrite andb_false_r. by left.
  - rewrite (bool_decide_eq_false_2 (tuple_keys st = [])) by done. rewrite andb_true_r.
    destruct (delta_eligible s); [|by left]. right. split; [done|]. intros e ?. simpl. apply elem_of_app. by right.
Qed.

Lemma compact_keeps s epoch log w s' :
  epoch ≠ u64_max → compact_plan_log s epoch log w = Done s' →
  (was_reset s → was_reset s') ∧ (forced_dirty s ⊆ forced_dirty s') .
Proof.
  intros He. unfold compact_plan_log. case_match; [by intros [= <-]|].
  match goal with Hc : _ || _ = false |- _ => apply orb_false_iff in Hc as [_ Hse%bool_decide_eq_false] end.
  intros ([] & _ & Hr)%bind_Done. apply bind_Done in Hr as (s1 & Hs1 & Hr).
  apply bind_Done in Hr as (next & _ & [= <-]).
  assert (forced_dirty s ⊆ forced_dirty s1) as Hf.
  { destruct (peek_needs_planning s w); [|by injection Hs1 as <-].
    apply bind_Done in Hs1 as (tys' & _ & [= <-]). simpl. intros e ?. apply elem_of_sort_dedup, elem_of_app. by left. }
  split; [|exact Hf]. intros [_ Hs]. destruct (decide (sys_epoch s = epoch)); [congruence|done].
Qed.

(** ** The steps keep the account *)

Section steps.
Hypothesis (Hreg : registered marker ps) (D : delta_ready marker ps tys).

Lemma not_opaque p : p ∈ ps → sp_delta_shape p ≠ OpaqueShape.
Proof using H1 D.
  intros Hp Ho. pose proof (dr_shape _ _ _ D) as Hs. unfold tuple_delta_shape in Hs.
  assert (existsb (λ p, bool_decide (sp_delta_shape p = OpaqueShape)) ps = true) as Hx; [|by rewrite Hx in Hs].
  apply existsb_elem_of. exists p. split; [done|]. by apply bool_decide_eq_true.
Qed.

(** The keys are the row, across worlds too. *)
Lemma state_of_keys w w' st st' :
  Forall2 (param_row w) ps st → Forall2 (param_row w') ps st' → tuple_keys st = tuple_keys st' → st = st'.
Proof using H1 D.
  assert (∀ l, (∀ p, p ∈ l → sp_delta_shape p ≠ OpaqueShape) → Forall2 (param_row w) l st →
    Forall2 (param_row w') l st' → tuple_keys st = tuple_keys st' → st = st') as Hall; [|by apply Hall, not_opaque].
  intros l Hq Hst. revert st' Hq. induction Hst as [|p s ps' st Hs Hst IH]; intros st' Hq Hst';
    [by apply Forall2_nil_inv_l in Hst' as ->|].
  apply Forall2_cons_inv_l in Hst' as (s' & st2 & Hs' & Hst' & ->). rewrite !tuple_keys_cons. intros Hk.
  assert (∀ p', p' ∈ ps' → sp_delta_shape p' ≠ OpaqueShape) as Hq' by (intros p' ?; apply Hq; by right).
  specialize (Hq p ltac:(left)).
  destruct p as [q f|q f|q f|q f|out|], s as [e| |], s' as [e'| |]; simpl in *; try done.
  - injection Hk as -> Hk. f_equal. by apply IH.
  - f_equal. by apply IH.
  - f_equal. by apply IH.
Qed.

Lemma row_deps_again X0 w0 X w st ds :
  wf X0 w0 → wf X w → progressed w0 w → fine w0 → fine w →
  tuple_deps (sp_deps marker w0) ps st = Done ds → current w ds → tuple_deps (sp_deps marker w) ps st = Done ds.
Proof using H1 D.
  intros Hwf0 Hwf P F0 F. apply (tuple_deps_again X0 w0 X w Hwf0 Hwf P).
  { apply not_opaque. }
  intros q f inv edge Hp Hin.
  assert ((inv, edge) ∈ query_edges q ++ filter_edges f) as Hin' by (apply elem_of_app; by left).
  split; [by apply (dr_edges _ _ _ D q f inv edge Hp Hin')|]. by apply (fine_separates w0 w q f inv edge).
Qed.

Lemma dispatches_spec flight s planned flight' s' :
  dispatches flight s planned flight' s' →
  flight ⊆ flight' ∧ (∀ i, i ∈ flight' → i ∈ flight ∨ i ∈ planned) ∧
  (was_reset s → was_reset s') ∧ (was_reset s' ∨ forced_dirty s ⊆ forced_dirty s') ∧
  (∀ X w w0, covers w0 tys X w s [] → covers w0 tys X w s' []) ∧
  ∀ i X w memo owed st, i ∈ planned → pl_owner i = own st → accounted X w s' memo flight' owed st.
Proof.
  induction 1 as [flight s|flight s i planned flight' s' _ IH|flight s i planned flight' s' Hin _ IH|
                  flight s i planned flight' s' _ IH].
  - split_and!; try done; auto. by intros ???????%elem_of_nil.
  - destruct IH as (Hf & Hnew & Hr & Hd & Hc & Hp). split_and!; [| |done..|].
    + intros j ?. apply Hf, elem_of_app. by left.
    + intros j [[?| ->%list_elem_of_singleton]%elem_of_app|?]%Hnew; [by left|right; by left|right; by right].
    + intros j X w memo owed st [->|?]%elem_of_cons Ho; [|by eapply Hp].
      apply ac_flight. rewrite <-Ho. apply list_elem_of_fmap_2, Hf, elem_of_app. right. by left.
  - destruct IH as (Hf & Hnew & Hr & Hd & Hc & Hp). split_and!; [done| |done..|].
    + intros j [?|?]%Hnew; [by left|right; by right].
    + intros j X w memo owed st [->|?]%elem_of_cons Ho; [|by eapply Hp].
      apply ac_flight. rewrite <-Ho. apply list_elem_of_fmap in Hin as (j & -> & Hj). by apply list_elem_of_fmap_2, Hf.
  - destruct IH as (Hf & Hnew & Hr & Hd & Hc & Hp). destruct (force_keeps s (keys (pl_owner i))) as [Hr1 Hd1].
    split_and!; [done| |auto| | |].
    + intros j [?|?]%Hnew; [by left|right; by right].
    + destruct Hd1 as [?|Hd1]; [left; auto|]. destruct Hd as [?|Hd]; [by left|]. right. by etrans.
    + intros X w w0 C. by apply Hc, force_covers.
    + intros j X w memo owed st [->|?]%elem_of_cons Ho; [|by eapply Hp]. rewrite Ho in Hr, Hd. simpl in Hr, Hd.
      destruct (forced_row X w s memo flight' owed st) as [?|?|[?|[Hne Hk]]|X0 w0 Hwf0 F0 P0 C0 Hrec];
        [by apply ac_flight|by apply ac_owed|apply ac_forced; left; auto| |].
      * apply ac_forced. destruct Hd as [?|Hd]; [by left|]. right. split; [done|]. by etrans.
      * apply (ac_seen _ _ _ _ _ _ _ X0 w0); try done. apply Hc. rewrite Ho. exact C0.
Qed.

(** A dependency that is current before and after a write is not changed by it. *)
Lemma refresh_same X w X' w' X2 w2 writes d :
  wf X w → wf X' w' → wf X2 w2 → progressed w w' → progressed w' w2 →
  dep_is_current w d = true → dep_is_current w2 d = true →
  (dep_store_scoped d = false → (dep_type d, dep_entity d) ∈ writes → is_Some (dep_revision d)) →
  dep_eqb (dep_refresh_written w' writes d) d = true.
Proof.
  intros Hwf Hwf' Hwf2 P P2 Hc Hc2 Hw. apply dep_eqb_spec. unfold dep_refresh_written.
  destruct (existsb _ writes) eqn:He; [|done]. simpl. destruct (dep_store_scoped d) eqn:Hs; [done|]. simpl.
  split_and!; try done. apply existsb_elem_of in He as ([ty e] & Hin & [Ht%bool_decide_eq_true He%bool_decide_eq_true]%andb_true_iff).
  destruct (Hw eq_refl) as [r Hr]; [by rewrite <-Ht, <-He|].
  unfold dep_is_current in Hc, Hc2. rewrite Hs in Hc, Hc2. apply bool_decide_eq_true in Hc, Hc2.
  rewrite dep_lookup_row in Hc by apply Hwf. rewrite dep_lookup_row in Hc2 by apply Hwf2.
  rewrite dep_lookup_row by apply Hwf'. rewrite Hr in *. by eapply (revision_between X w w').
Qed.

(** The record a commit leaves. *)
Lemma commit_records X w w' X' i rev epoch memo st :
  wf X w → fine w → wf X' w' → progressed w w' → planned_at w i → own st = pl_owner i →
  memo_is_current w (record_of i rev) = true →
  recorded w' (commit_memo w' epoch (written_rows (pl_access i)) memo (pl_owner i, record_of i rev)) w st.
Proof using H1 D.
  intros Hwf F Hwf' P (X0 & w0 & memo0 & st0 & Hwf0 & F0 & P0 & [Hst0 _] & Hplan) Hown Hcur [Hst _].
  destruct (tuple_deps_total marker w0 ps st0 Hst0) as (ds & ds1 & Hds & Hds1 & Heq).
  unfold plan_state in Hplan. rewrite Hds1 in Hplan. simpl in Hplan.
  destruct (negb _ && _); [done|]. injection Hplan as <-. simpl in *.
  assert (st = st0) as ->.
  { apply (state_of_keys w w0); try done. unfold own in Hown. congruence. }
  unfold memo_is_current in Hcur. simpl in Hcur. rewrite forallb_elem_of in Hcur.
  assert (deps_eq ds ds1) as Heq' by by apply deps_eq_sym.
  assert (current w ds) as Hc by (eapply deps_eq_current; [apply Hwf|exact Heq'|exact Hcur]).
  exists ds. split; [by eapply (row_deps_again X0 w0 X w)|]. intros X2 w2 Hwf2 P2 Hc2.
  assert (current w2 ds1) as Hc21 by (eapply deps_eq_current; [apply Hwf2|exact Heq|exact Hc2]).
  unfold memo_hit, commit_memo. rewrite Hown. simpl. rewrite lookup_insert_eq. simpl.
  apply deps_eqb_spec. assert (∀ d, d ∈ ds1 →
    dep_eqb (dep_refresh_written w' (written_rows (tuple_access marker w0 ps st0)) d) d = true) as Hsame.
  { intros d Hd. eapply (refresh_same X w X' w' X2 w2); try done; [by apply Hcur|by apply Hc21|].
    intros Hs Hin. apply (tuple_written_has w0 ps st0 _ _ Hst0) in Hin as [entry Hrow]%has_row.
    assert (current w0 ds1) as Hc0.
    { eapply deps_eq_current; [apply Hwf0|exact Heq|]. by eapply tuple_deps_current; [apply Hwf0|]. }
    specialize (Hc0 d Hd). unfold dep_is_current in Hc0. rewrite Hs in Hc0. apply bool_decide_eq_true in Hc0.
    rewrite dep_lookup_row in Hc0 by apply Hwf0. rewrite row_revision_row, Hrow in Hc0. simpl in Hc0.
    rewrite <-Hc0. by eexists. }
  clear -Heq Hsame. revert Hsame.
  induction Heq as [|x y a b Hx Hab IH]; intros Hsame; [constructor|]. rewrite fmap_cons. constructor.
  - specialize (Hsame x ltac:(left)). rewrite dep_eqb_spec in *. naive_solver congruence.
  - apply IH. intros d ?. apply Hsame. by right.
Qed.
(** A planned row is dispatched or found in the memo. *)
Lemma plan_state_cases w memo st :
  Forall2 (param_row w) ps st →
  (∃ i, plan_state marker id w ps memo st = Done [i] ∧ pl_owner i = own st) ∨
  (plan_state marker id w ps memo st = Done [] ∧
   ∃ ds, tuple_deps (sp_deps marker w) ps st = Done ds ∧ memo_hit memo (own st) ds = true).
Proof using H1 D.
  intros Hst. destruct (plan_state_spec marker id w ps memo st Hst) as (ds & ds' & Hds & Hp).
  rewrite (ready_not_always _ _ _ D) in Hp. simpl in Hp. destruct (memo_hit memo _ ds) eqn:Hhit; rewrite Hp.
  - right. split; [done|]. by exists ds.
  - left. eexists. by split.
Qed.

Lemma hit_recorded w memo st ds :
  tuple_deps (sp_deps marker w) ps st = Done ds → memo_hit memo (own st) ds = true → recorded w memo w st.
Proof. intros Hds Hhit _. by exists ds. Qed.

(** A row seen at [w0] since which nothing is hinted is the row it was. *)
Lemma seen_again X0 w0 X w memo st :
  wf X0 w0 → wf X w → progressed w0 w → fine w0 → fine w → joined_row w st → recorded w memo w0 st →
  Forall2 (param_row w0) ps st ∧ binding_matches w0 ps st = Done true ∧
    tuple_deps (sp_deps marker w0) ps st = tuple_deps (sp_deps marker w) ps st →
  ∃ ds, tuple_deps (sp_deps marker w) ps st = Done ds ∧ memo_hit memo (own st) ds = true.
Proof.
  intros Hwf0 Hwf P F0 F [Hst _] Hrec (Hst0 & Hb0 & Hsame). destruct (Hrec (conj Hst0 Hb0)) as (ds & Hds & Hall).
  rewrite Hsame in Hds. exists ds. split; [done|]. apply (Hall X w Hwf (progressed_refl w)).
  by eapply tuple_deps_current; [apply Hwf|].
Qed.

(** What a plan from a hint covers. *)
Lemma hinted_row X w s memo flight owed st s1 hint :
  wf X w → fine w → (plan_epoch w < u64_max)%N → covers w tys X w s [] →
  plan_system s w (plan_log w).1 (plan_log w).2 = Done (s1, Some (Some hint)) → joined_row w st →
  accounted X w s memo flight owed st →
  ∃ out, tuple_states_hinted w ps hint = Done out ∧
    (own st ∈ pl_owner <$> flight ∨ own st ∈ owed ∨ st ∈ out ∨
     ∃ ds, tuple_deps (sp_deps marker w) ps st = Done ds ∧ memo_hit memo (own st) ds = true).
Proof using H1 Hreg D.
  intros Hwf F Hmax C Hplan Hrow Ha.
  assert (∀ X0 w0, wf X0 w0 → fine w0 → progressed w0 w → covers w0 tys X w s [] →
    ∃ full out, tuple_states w ps = Done full ∧ tuple_states_hinted w ps hint = Done out ∧ NoDup out ∧
    (∀ st, st ∈ out → st ∈ full) ∧ (∀ st, st ∈ full → tuple_keys st ⊆ hint → st ∈ out) ∧
    ∀ st, st ∈ full → st ∈ out ∨ (Forall2 (param_row w0) ps st ∧ binding_matches w0 ps st = Done true ∧
       tuple_deps (sp_deps marker w0) ps st = tuple_deps (sp_deps marker w) ps st)) as Hstates.
  { intros X0 w0 Hwf0 F0 P0 C0. destruct (plan_covered _ _ _ _ _ _ C0 Hmax) as (s' & out & Hp & Hhint).
    rewrite Hp in Hplan. injection Hplan as _ ->. destruct Hhint as [_ Hmoved].
    apply (hinted_states_aux marker X0 X w0 w ps tys hint); try done; try apply F0; try apply F.
    intros q f inv edge. by apply fine_separates. }
  destruct (tuple_states_aux marker X w ps Hwf (fn_addressable _ F) (fn_rel _ F) (fn_joinable _ F) Hreg)
    as (full & Hfull & _ & Hin).
  destruct Ha as [?|?|Hforced|X0 w0 Hwf0 F0 P0 C0 Hrec].
  1,2: destruct (Hstates X w Hwf F (progressed_refl w) C) as (? & out & _ & Hout & _); exists out; tauto.
  - destruct (Hstates X w Hwf F (progressed_refl w) C) as (full' & out & Hfull' & Hout & _ & _ & Hkeyed & _).
    exists out. split; [done|]. do 2 right. left. rewrite Hfull in Hfull'. injection Hfull' as <-.
    apply Hkeyed; [by apply Hin|].
    assert (was_reset s ∨ tuple_keys st ⊆ forced_dirty s) as Hk by tauto.
    destruct (plan_covered _ _ _ _ _ _ (covers_keys _ _ _ _ _ _ _ C Hk) Hmax) as (s' & out' & Hp & Hhint).
    rewrite Hp in Hplan. injection Hplan as _ ->. destruct Hhint as [Hhint _]. exact Hhint.
  - destruct (Hstates X0 w0 Hwf0 F0 P0 C0) as (full' & out & Hfull' & Hout & _ & _ & _ & Hback).
    exists out. split; [done|]. do 2 right. rewrite Hfull in Hfull'. injection Hfull' as <-.
    destruct (Hback st) as [?|Hsame]; [by apply Hin|by left|]. right. by eapply (seen_again X0 w0 X w).
Qed.

(** A skipped system: its rows are where they were seen. *)
Lemma no_hint w e : e ∉ expand_hint w ps [].
Proof.
  intros [He|(p & _ & Hp)]%expand_hint_spec; [by apply elem_of_nil in He|].
  assert (∀ f, filter_hint_providers w f [] = []) as Hf.
  { induction f as [| | | | |l IHl r IHr|l IHl r IHr]; simpl; try done. by rewrite IHl, IHr. }
  assert (∀ q, query_hint_providers w q [] = []) as Hq.
  { intros [fac|ty|ty|fac parts]; simpl; try done. induction parts as [|part parts IH]; [done|].
    rewrite bind_cons, IH. by destruct part. }
  destruct p; simpl in Hp; try (by apply elem_of_nil in Hp). rewrite Hf, Hq in Hp. by apply elem_of_nil in Hp.
Qed.

Lemma quiet_row X w s memo flight owed st s1 :
  wf X w → fine w → (plan_epoch w < u64_max)%N → covers w tys X w s [] →
  plan_system s w (plan_log w).1 (plan_log w).2 = Done (s1, None) → joined_row w st →
  accounted X w s memo flight owed st →
  own st ∈ pl_owner <$> flight ∨ own st ∈ owed ∨
     ∃ ds, tuple_deps (sp_deps marker w) ps st = Done ds ∧ memo_hit memo (own st) ds = true.
Proof using H1 Hreg D.
  intros Hwf F Hmax C Hplan Hrow Ha.
  assert (∀ w0 K, covers w0 tys X w s K → K = [] ∧ ∀ ty e, ty ∈ tys → row_revision w ty e = row_revision w0 ty e) as Hquiet.
  { intros w0 K C0. destruct (plan_covered _ _ _ _ _ _ C0 Hmax) as (s' & out & Hp & Hq).
    rewrite Hp in Hplan. by injection Hplan as _ ->. }
  destruct Ha as [?|?|[Hreset|[Hne Hk]]|X0 w0 Hwf0 F0 P0 C0 Hrec]; [tauto|tauto|exfalso..|].
  - destruct (Hquiet w [0%N]) as [? _]; [|done]. apply (covers_keys _ _ _ _ _ _ _ C). by left.
  - destruct (Hquiet w (tuple_keys st)) as [? _]; [|done]. apply (covers_keys _ _ _ _ _ _ _ C). by right.
  - do 2 right. eapply (seen_again X0 w0 X w memo st); try done. destruct Hrow as [Hst Hb].
    apply (clean_back marker X0 X w0 w ps tys []); try done; try apply F0; try apply F.
    + intros ty e Hty Hne. by destruct Hne; apply (Hquiet w0 []).
    + intros q f inv edge. by apply fine_separates.
    + eapply (joined_of_checks marker w ps); try done; apply F.
    + intros p s' [k Hk]%list_elem_of_lookup. destruct (zip_rows w ps st k p s' Hk Hst) as (Hp & _ & Hr).
      split_and!; [by eapply list_elem_of_lookup_2|done|]. intros q f e _ _. apply no_hint.
Qed.
(** *** Every step *)

(** After planning, every row is dispatched, found, or not a row. *)
Lemma plan_consistent X w s memo flight owed s1 (hint : option (list Entity)) b planned flight' s' :
  consistent (MkHistory X w s memo flight owed) → fine w → (plan_epoch w < u64_max)%N →
  plan_system s w (plan_log w).1 (plan_log w).2 = Done (s1, Some hint) →
  plan_invocations marker id w ps memo hint = Done (b, planned) →
  dispatches flight s1 planned flight' s' → consistent (MkHistory X w s' memo flight' (unpaid planned owed)).
Proof using H1 Hreg D.
  intros [C Hrows Hflight Hmemo] F Hmax Hplan Hinv Hdisp. simpl in C, Hrows, Hflight, Hmemo.
  pose proof (cov_wf _ _ _ _ _ _ C) as Hwf.
  pose proof (covers_planned X w s s1 hint tys Hwf (cov_interest _ _ _ _ _ _ C) Hplan) as C1.
  destruct (dispatches_spec _ _ _ _ _ Hdisp) as (Hin & Hnew & _ & _ & Hcov & Hdone).
  pose proof (Hcov X w w C1) as C'.
  destruct (tuple_states_aux marker X w ps Hwf (fn_addressable _ F) (fn_rel _ F) (fn_joinable _ F) Hreg)
    as (full & Hfull & _ & Hjoined).
  unfold plan_invocations in Hinv. apply bind_Done in Hinv as (out & Hout & Hinv).
  apply bind_Done in Hinv as (planned' & Hflat & [= _ <-]).
  assert (∀ st, st ∈ out → st ∈ full) as Hsub.
  { destruct hint as [hint|]; [|rewrite Hfull in Hout; by injection Hout as <-].
    destruct (plan_covered _ _ _ _ _ _ C Hmax) as (s2 & out2 & Hp & Hhint). rewrite Hp in Hplan.
    injection Hplan as _ ->. destruct Hhint as [_ Hmoved].
    destruct (hinted_states_aux marker X X w w ps tys hint) as (full' & out' & Hf & Ho & _ & Hs & _);
      try done; try apply F; [apply progressed_refl|intros q f inv edge; by apply fine_separates|].
    rewrite Hout in Ho. rewrite Hfull in Hf. injection Ho as <-. by injection Hf as <-. }
  assert (∀ st, joined_row w st → (∃ ds, tuple_deps (sp_deps marker w) ps st = Done ds ∧ memo_hit memo (own st) ds = true) →
    accounted X w s' memo flight' (unpaid planned' owed) st) as Hhit.
  { intros st _ (ds & Hds & Hh). apply (ac_seen _ _ _ _ _ _ _ X w); try done; [apply progressed_refl|].
    by eapply hit_recorded. }
  assert (∀ st, st ∈ out → accounted X w s' memo flight' (unpaid planned' owed) st) as Hplanned.
  { intros st Hst. pose proof (proj1 (Hjoined st) (Hsub st Hst)) as Hrow.
    destruct (plan_state_cases w memo st (proj1 Hrow)) as [(i & Hi & Ho)|(_ & Hh)]; [|by apply Hhit].
    eapply Hdone; [|exact Ho]. apply (elem_of_flat_result _ _ _ i Hflat). exists st, [i]. split_and!; [done..|by left]. }
  split; simpl.
  - exact C'.
  - intros st. destruct (decide (st ∈ full)) as [Hst|Hst].
    2: { apply (ac_seen _ _ _ _ _ _ _ X w); try done; [apply progressed_refl|]. intros Hrow. by destruct Hst; apply Hjoined. }
    pose proof (proj1 (Hjoined st) Hst) as Hrow. destruct hint as [hint|].
    2: { rewrite Hfull in Hout. injection Hout as ->. by apply Hplanned. }
    destruct (hinted_row X w s memo flight owed st s1 hint Hwf F Hmax C Hplan Hrow (Hrows st))
      as (out' & Hout' & [Hc|[Hc|[Hc|Hc]]]); rewrite Hout in Hout'; injection Hout' as <-.
    + apply ac_flight. apply list_elem_of_fmap in Hc as (i & -> & Hi). by apply list_elem_of_fmap_2, Hin.
    + destruct (decide (own st ∈ pl_owner <$> planned')) as [Hp|Hp].
      * apply list_elem_of_fmap in Hp as (i & Ho & Hi). by eapply Hdone.
      * apply ac_owed. by apply list_elem_of_filter.
    + by apply Hplanned.
    + by apply Hhit.
  - intros i [Hi|Hi]%Hnew; [by apply Hflight|]. apply (elem_of_flat_result _ _ _ i Hflat) in Hi as (st & bs & Hst & Hp & Hi).
    exists X, w, memo, st. split_and!; try done; [apply progressed_refl|by apply Hjoined, Hsub|].
    destruct (plan_state_cases w memo st) as [(j & Hj & _)|[Hj _]]; [by apply Hjoined, Hsub| |].
    + rewrite Hp in Hj. injection Hj as ->. by apply list_elem_of_singleton in Hi as ->.
    + rewrite Hp in Hj. injection Hj as ->. by apply elem_of_nil in Hi.
  - exact Hmemo.
Qed.

(** Steps that move nothing the record of a row depends on. *)
Lemma kept_consistent X w s memo flight owed X' w' s' memo' flight' owed' :
  consistent (MkHistory X w s memo flight owed) → wf X' w' → progressed w w' →
  (∀ w0, covers w0 tys X w s [] → covers w0 tys X' w' s' []) →
  (was_reset s → was_reset s') → (was_reset s' ∨ forced_dirty s ⊆ forced_dirty s') →
  (∀ i, i ∈ flight' → i ∈ flight) →
  (∀ st, own st ∈ pl_owner <$> flight → accounted X' w' s' memo' flight' owed' st) →
  (∀ st, own st ∈ owed → accounted X' w' s' memo' flight' owed' st) →
  (∀ st, memo !! own st = memo' !! own st ∨ accounted X' w' s' memo' flight' owed' st) →
  (∀ o entry, system o = id → memo' !! o = Some entry → memo !! o = Some entry ∨
     ∃ i, i ∈ flight ∧ pl_owner i = o ∧ (written_rows (pl_access i) = [] → memo_deps entry = pl_deps i)) →
  consistent (MkHistory X' w' s' memo' flight' owed').
Proof.
  intros [C Hrows Hflight Hmemo] Hwf' P Hcov Hr Hd Hfl Hrun How Hm Hrec. simpl in *. split; simpl.
  - eapply covers_now. by apply Hcov.
  - intros st. eapply accounted_kept; [apply Hrows|done..| | |]; auto.
  - intros i Hi. eapply planned_later; [|done]. by apply Hflight, Hfl.
  - intros o entry Ho He. destruct (Hrec o entry Ho He) as [He'|(i & Hi & Hoi & Hw)].
    + destruct (Hmemo o entry Ho He') as (i & Hi & Hoi & Hw). exists i. split_and!; try done. by eapply planned_later.
    + exists i. split_and!; try done. eapply planned_later; [|done]. by apply Hflight.
Qed.

Lemma landed_row i flight st : own st ∈ pl_owner <$> flight → own st = pl_owner i ∨ own st ∈ pl_owner <$> landed i flight.
Proof.
  intros (j & Ho & Hj)%list_elem_of_fmap. destruct (decide (pl_owner j = pl_owner i)) as [Heq|Hne]; [left; congruence|].
  right. rewrite Ho. apply list_elem_of_fmap_2. by apply list_elem_of_filter.
Qed.

Lemma reconciled w writes w' X :
  wf X w → reconcile_written w writes = Done w' → wf X w' ∧ evolves w w' ∧ plan_epoch w' = plan_epoch w.
Proof.
  intros Hwf Hr. destruct (reconcile_written_good X w writes w' Hwf Hr) as [Hwf' E]. split_and!; [done..|].
  apply (world_step_epoch X w X). by eapply ws_apply, as_reconcile.
Qed.

Ltac keep_rows :=
  eapply kept_consistent; try done; try (by right); try (by apply progressed_refl); try (by apply evolves_progressed);
  try (by intros st ?; apply ac_flight); try (by intros st ?; apply ac_owed); try (by intros; left).

Lemma compact_consistent X w s memo flight owed w' epoch log s' :
  consistent (MkHistory X w s memo flight owed) →
  maybe_roll_plan_epoch w = Done (w', Some (epoch, log)) → compact_plan_log s epoch log w' = Done s' →
  consistent (MkHistory X w' s' memo flight owed).
Proof using H1 Hreg D.
  intros Hco Hroll Hcomp. pose proof (cov_wf _ _ _ _ _ _ (co_covers _ Hco)) as Hwf. simpl in Hwf.
  pose proof Hroll as Hroll'. apply maybe_roll_frame in Hroll' as (He & _ & Hlt & _ & _ & Hst & Hrev & Hw).
  destruct (compact_keeps s epoch log w' s') as [Hr Hf]; [by rewrite He; lia|done|].
  keep_rows; [by apply Hw| |].
  - apply progressed_frame; try done. by eapply maybe_roll_shared.
  - intros w0 C. by eapply covers_compact.
Qed.

(** An accepted run accounts for its own row. *)
Lemma commit_consistent X w s memo flight owed i X1 w1 w' rev epoch :
  consistent (MkHistory X w s memo flight owed) → i ∈ flight → fine w → memo_is_current w (record_of i rev) = true →
  wf X1 w1 → evolves w w1 → plan_epoch w1 = plan_epoch w →
  reconcile_written w1 (written_rows (pl_access i)) = Done w' →
  consistent (MkHistory X1 w' s (commit_memo w' epoch (written_rows (pl_access i)) memo (pl_owner i, record_of i rev))
    (landed i flight) owed).
Proof using H1 Hreg D.
  intros Hco Hi F Hcur Hwf1 E1 He1 Hrec. pose proof (cov_wf _ _ _ _ _ _ (co_covers _ Hco)) as Hwf. simpl in Hwf.
  destruct (reconciled w1 _ w' X1 Hwf1 Hrec) as (Hwf' & E2 & He2).
  assert (evolves w w') as E by by eapply evolves_trans.
  assert (plan_epoch w' = plan_epoch w) as He by congruence.
  assert (∀ st, own st = pl_owner i → accounted X1 w' s
    (commit_memo w' epoch (written_rows (pl_access i)) memo (pl_owner i, record_of i rev)) (landed i flight) owed st) as Hown.
  { intros st Ho. apply (ac_seen _ _ _ _ _ _ _ X w); [done|done|by apply evolves_progressed| |].
    - eapply covers_evolves; [apply (co_covers _ Hco)|done|done|exact He].
    - eapply (commit_records X w w' X1); try done; [by apply evolves_progressed|]. by apply (co_flight _ Hco). }
  keep_rows.
  - intros w0 C. eapply covers_evolves; [exact C|done|done|exact He].
  - intros j. unfold landed. by intros [_ ?]%list_elem_of_filter.
  - intros st [?|?]%(landed_row i); [by apply Hown|by apply ac_flight].
  - intros st. destruct (decide (own st = pl_owner i)) as [Ho|Ho]; [right; by apply Hown|left].
    unfold commit_memo. simpl. by rewrite lookup_insert_ne.
  - intros o entry Ho. unfold commit_memo. simpl. intros [[<- <-]|[_ ?]]%lookup_insert_Some; [right|by left].
    exists i. split_and!; try done. simpl. intros ->. clear. induction (pl_deps i) as [|d ds IH]; [done|].
    rewrite fmap_cons, IH. done.
Qed.

(** A stale run leaves its row forced, or owed. *)
Lemma stale_consistent X w s memo flight owed i w' (force : bool) :
  consistent (MkHistory X w s memo flight owed) →
  reconcile_written w (written_rows (pl_access i)) = Done w' →
  consistent (MkHistory X w' (if force then force_replan s (keys (pl_owner i)) else s) memo (landed i flight)
    (if force then owed else owed ++ [pl_owner i])).
Proof using H1 Hreg D.
  intros Hco Hrec. pose proof (cov_wf _ _ _ _ _ _ (co_covers _ Hco)) as Hwf. simpl in Hwf.
  destruct (reconciled w _ w' X Hwf Hrec) as (Hwf' & E & He).
  destruct (force_keeps s (keys (pl_owner i))) as [Hr Hf].
  keep_rows.
  - intros w0 C. eapply (covers_evolves _ _ _ _ _ _ X w') in C; [|done..]. destruct force; [by apply force_covers|done].
  - by destruct force.
  - destruct force; [done|by right].
  - intros j. unfold landed. by intros [_ ?]%list_elem_of_filter.
  - intros st [Ho|?]%(landed_row i); [|by apply ac_flight]. destruct force.
    + rewrite <-Ho. apply forced_row.
    + apply ac_owed. rewrite Ho. apply elem_of_app. right. by left.
  - intros st ?. apply ac_owed. destruct force; [done|]. apply elem_of_app. by left.
Qed.

Lemma retire_consistent X w s memo flight owed o :
  consistent (MkHistory X w s memo flight owed) →
  consistent (MkHistory X w (force_replan s (keys o)) (delete o memo) flight owed).
Proof using H1 Hreg D.
  intros Hco. pose proof (cov_wf _ _ _ _ _ _ (co_covers _ Hco)) as Hwf. simpl in Hwf.
  destruct (force_keeps s (keys o)) as [Hr Hf]. keep_rows.
  - intros w0 C. by apply force_covers.
  - intros st. destruct (decide (own st = o)) as [<-|Heq]; [right; apply forced_row|left].
    by rewrite lookup_delete_ne.
  - intros o' entry _ [_ ?]%lookup_delete_Some. by left.
Qed.

(** Records dropped with an entity are owed, unless no row has their keys. *)
Lemma forget_consistent X w s memo flight owed keyset owed' :
  consistent (MkHistory X w s memo flight owed) → owed ⊆ owed' →
  (∀ o, is_Some (memo !! o) → remove_memo_touched_by memo keyset !! o = None →
     o ∈ owed' ∨ (fine w ∧ ∀ st, Forall2 (param_row w) ps st → Invocation id (tuple_keys st) ≠ o)) →
  consistent (MkHistory X w s (remove_memo_touched_by memo keyset) flight owed').
Proof using H1 Hreg D.
  intros Hco Hsub Hforget. pose proof (cov_wf _ _ _ _ _ _ (co_covers _ Hco)) as Hwf. simpl in Hwf. keep_rows.
  - intros st ?. by apply ac_owed, Hsub.
  - intros st. destruct (memo !! own st) as [entry|] eqn:He.
    2: { left. symmetry. apply map_lookup_filter_None. by left. }
    destruct (remove_memo_touched_by memo keyset !! own st) as [entry'|] eqn:He'.
    { left. pose proof (proj1 (map_lookup_filter_Some _ _ _ _) He') as [? _]. congruence. }
    right. destruct (Hforget (own st)) as [?|[F Hno]]; [by eexists|done|by apply ac_owed|].
    apply (ac_seen _ _ _ _ _ _ _ X w); try done; [apply progressed_refl|apply (co_covers _ Hco)|].
    intros [Hst _]. by destruct (Hno st Hst).
  - intros o entry _ [? _]%map_lookup_filter_Some. by left.
Qed.

Lemma history_consistent h h' : consistent h → history_step h h' → consistent h'.
Proof using H1 Hreg D.
  intros Hco Hstep. pose proof (cov_wf _ _ _ _ _ _ (co_covers _ Hco)) as Hwf.
  inversion Hstep as
    [X w s memo flight owed X' w' Hwf' E He| | | | |X w s memo flight owed flight' dropped Hperm| |
    |X w s memo flight owed memo' Hsame|X w s memo flight owed]; subst; simpl in Hwf.
  - keep_rows. intros w0 C. by eapply covers_evolves.
  - by eapply compact_consistent.
  - by eapply plan_consistent.
  - by eapply commit_consistent.
  - by eapply stale_consistent.
  - keep_rows.
    + intros j ?. rewrite Hperm. apply elem_of_app. by left.
    + intros st. rewrite Hperm, fmap_app. intros [?|?]%elem_of_app; [by apply ac_flight|].
      apply ac_owed, elem_of_app. by right.
    + intros st ?. apply ac_owed, elem_of_app. by left.
  - by eapply retire_consistent.
  - by eapply forget_consistent.
  - keep_rows.
    + intros st. left. by rewrite Hsame.
    + intros o entry Ho He. left. by rewrite <-Hsame.
  - assert (∀ st, accounted X w (reset_full s) memo flight [] st) as Hall by (intros st; apply ac_forced; left; by split).
    keep_rows. intros w0 C. by apply covers_reset.
Qed.

Lemma history_reachable h h' : history_start h → rtc history_step h h' → consistent h'.
Proof using H1 Hreg D.
  intros (Hwf & Hi & Hreset & Hmemo & Hfl & How) Hsteps.
  assert (consistent h) as Hco.
  { destruct Hreset as [Hmark Hepoch]. split.
    - split; try done; [by left|right; by intros e ?%elem_of_nil|]. right. by left.
    - intros st. apply ac_forced. left. by split.
    - intros i. rewrite Hfl. by intros ?%elem_of_nil.
    - intros o entry Ho. by rewrite Hmemo. }
  clear Hwf Hi Hreset Hmemo Hfl How. induction Hsteps as [|h1 h2 h3 Hs _ IH]; [done|]. by apply IH; eapply history_consistent.
Qed.
(** A system without in-place queries writes no row in place. *)
Lemma reads_only w st :
  (∀ p, p ∈ ps → sp_written_types marker p = []) → Forall2 (param_row w) ps st →
  written_rows (tuple_access marker w ps st) = [].
Proof using H1 D.
  intros Hno Hst. destruct (written_rows _) as [|[ty e] l] eqn:Hw; [done|exfalso].
  destruct (tuple_written w ps st ty e Hst) as (p & q & f & e' & a & Hpq & Hp & _ & Ha & Hk & _); [rewrite Hw; by left|].
  destruct Hpq as [-> | ->]; [|by apply (not_opaque _ Hp)]. specialize (Hno _ Hp). simpl in Hno. apply fmap_nil_inv in Hno.
  assert (∃ a', a' ∈ param_access_all marker q ∧ acc_kind a' = Write) as (a' & Ha' & Hk').
  { destruct q as [fac|ty'|ty'|fac parts]; simpl in Ha |- *; [by apply elem_of_nil in Ha| | |].
    - apply list_elem_of_singleton in Ha as ->. done.
    - eexists. split; [by left|done].
    - apply list_elem_of_bind in Ha as (part & Ha & Hpart). exists (part_access_all marker part).
      split; [by apply list_elem_of_fmap_2|]. destruct part as [ty'|ty'|ty'|fac'|inv edge rps]; simpl in Ha |- *; try done.
      1,2: by apply list_elem_of_singleton in Ha as ->.
      + by apply list_elem_of_fmap in Ha as (x & -> & _).
      + apply elem_of_cons in Ha as [->|Ha]; [done|]. apply list_elem_of_bind in Ha as (x & Ha & _).
        by apply list_elem_of_bind in Ha as (r & ->%list_elem_of_singleton & _). }
  assert (a' ∈ filter (λ a, acc_kind a = Write) (param_access_all marker q)) as Hin by by apply list_elem_of_filter.
  rewrite Hno in Hin. by apply elem_of_nil in Hin.
Qed.
End steps.

(** ** Planning incrementally is planning from scratch *)

(** One turn of the planning loop for the system. *)
Definition plan_now h : result (BoxedSystem * list PlannedInvocation) :=
  '(s, planned) ← plan_system (h_system h) (h_world h) (plan_log (h_world h)).1 (plan_log (h_world h)).2;
  match planned with
  | None => Done (s, [])
  | Some hint => '(_, runs) ← plan_invocations marker id (h_world h) ps (h_memo h) hint; Done (s, runs)
  end.

Definition waiting h o : Prop := o ∈ pl_owner <$> h_flight h ∨ o ∈ h_owed h.

Lemma plan_now_exact h :
  registered marker ps → delta_ready marker ps tys → consistent h → fine (h_world h) →
  (plan_epoch (h_world h) < u64_max)%N →
  ∃ b full s' runs, plan_invocations marker id (h_world h) ps (h_memo h) None = Done (b, full) ∧
    plan_now h = Done (s', runs) ∧ NoDup (pl_state <$> runs) ∧ (∀ i, i ∈ runs → i ∈ full) ∧
    ∀ i, i ∈ full → i ∈ runs ∨ waiting h (pl_owner i).
Proof.
  intros Hreg D [C Hrows _ _] F Hmax. destruct h as [X w s memo flight owed]. unfold plan_now, waiting. simpl in C, Hrows, F, Hmax |- *.
  pose proof (cov_wf _ _ _ _ _ _ C) as Hwf.
  destruct (tuple_states_aux marker X w ps Hwf (fn_addressable _ F) (fn_rel _ F) (fn_joinable _ F) Hreg)
    as (full & Hfull & Hnd & Hjoined).
  set (plan := plan_state marker id w ps memo).
  assert (∀ st, st ∈ full → ∃ b, plan st = Done b) as Htotal.
  { intros st [Hst _]%Hjoined. destruct (plan_state_cases D w memo st Hst) as [(i & Hi & _)|[Hn _]]; by eexists. }
  destruct (flat_result_total plan full Htotal) as [ifull Hifull].
  assert (∀ i, i ∈ ifull → ∃ st, joined_row w st ∧ plan st = Done [i] ∧ pl_owner i = own st ∧ st ∈ full) as Hi.
  { intros i (st & bs & Hst & Hp & Hi)%(elem_of_flat_result _ _ _ i Hifull). pose proof (proj1 (Hjoined st) Hst) as Hrow.
    destruct (plan_state_cases D w memo st (proj1 Hrow)) as [(j & Hj & Ho)|[Hj _]]; fold plan in Hj; rewrite Hj in Hp;
      injection Hp as <-; [|by apply elem_of_nil in Hi]. apply list_elem_of_singleton in Hi as ->. by exists st. }
  assert (∀ st i ds, joined_row w st → plan st = Done [i] → tuple_deps (sp_deps marker w) ps st = Done ds →
    memo_hit memo (own st) ds = true → False) as Hno.
  { intros st i ds [Hst _] Hp Hds Hhit. destruct (plan_state_spec marker id w ps memo st Hst) as (ds' & ds1 & Hds' & Hp').
    fold plan in Hp'. rewrite (ready_not_always _ _ _ D), Hp in Hp'. simpl in Hp'. unfold own in Hhit. rewrite Hds in Hds'.
    injection Hds' as <-. by rewrite Hhit in Hp'. }
  exists (negb (bool_decide (full = []))), ifull.
  destruct (plan_covered _ _ _ _ _ _ C Hmax) as (s' & out & Hplan & Hout). exists s'. simpl in Hplan. rewrite Hplan. simpl.
  destruct out as [[hint|]|].
  - destruct Hout as [_ Hmoved].
    destruct (hinted_states_aux marker X X w w ps tys hint) as (full' & states & Hf & Ho & Hnd' & Hsub & _);
      try done; try apply F; [apply progressed_refl|intros q f inv edge; by apply fine_separates|].
    rewrite Hfull in Hf. injection Hf as <-.
    destruct (flat_result_total plan states) as [runs Hruns]; [intros st ?; by apply Htotal, Hsub|].
    exists runs. unfold plan_invocations. rewrite Hfull, Ho. simpl. fold plan. rewrite Hifull, Hruns. simpl.
    split_and!; [done|done|by eapply sublist_NoDup, plan_once| |].
    + intros i (st & bs & Hst & Hb & Hin)%(elem_of_flat_result _ _ _ i Hruns).
      apply (elem_of_flat_result _ _ _ i Hifull). exists st, bs. split_and!; [by apply Hsub|done..].
    + intros i (st & Hrow & Hp & Hown & Hst)%Hi. rewrite Hown.
      destruct (hinted_row Hreg D X w s memo flight owed st s' hint Hwf F Hmax C Hplan Hrow (Hrows st))
        as (out' & Hout' & [?|[?|[Hin|(ds & Hds & Hhit)]]]); [by right; left|by right; right| |].
      * left. apply (elem_of_flat_result _ _ _ i Hruns). rewrite Ho in Hout'. injection Hout' as <-.
        exists st, [i]. split_and!; [done..|by left].
      * by destruct (Hno st i ds).
  - exists ifull. unfold plan_invocations. rewrite Hfull. simpl. fold plan. rewrite Hifull. simpl.
    split_and!; [done|done|by eapply sublist_NoDup, plan_once|done|by left].
  - exists []. unfold plan_invocations. rewrite Hfull. simpl. fold plan. rewrite Hifull. simpl.
    split_and!; [done|done|constructor|by intros i ?%elem_of_nil|].
    intros i (st & Hrow & Hp & Hown & Hst)%Hi. rewrite Hown.
    destruct (quiet_row Hreg D X w s memo flight owed st s' Hwf F Hmax C Hplan Hrow (Hrows st))
      as [?|[?|(ds & Hds & Hhit)]]; [by right; left|by right; right|]. by destruct (Hno st i ds).
Qed.

(** ** Properties *)

(** C3: incremental evaluation is evaluation from scratch.  Take a system whose
    joins are read off drivers, right after it was registered, and let any
    history follow: commits of any system, external writes, log compactions,
    full and hinted plans, conflicts, stale runs, preemptions, retirements,
    dropped records and restarts.  At any point of it, planning the system (it
    may be skipped, planned from the dirty entities or planned in full) returns,
    plans no row twice, and plans exactly the invocations a plan from scratch
    over the whole world would, except those whose row is in flight or owed: a
    row whose run was dropped, or whose record was deleted by a cascade, and that
    no plan has taken up since. *)
Theorem incremental_exact h0 h :
  registered marker ps → delta_ready marker ps tys → history_start h0 → rtc history_step h0 h →
  fine (h_world h) → (plan_epoch (h_world h) < u64_max)%N →
  ∃ b full s' runs, plan_invocations marker id (h_world h) ps (h_memo h) None = Done (b, full) ∧
    plan_now h = Done (s', runs) ∧ NoDup (pl_state <$> runs) ∧ (∀ i, i ∈ runs → i ∈ full) ∧
    ∀ i, i ∈ full → i ∈ runs ∨ waiting h (pl_owner i).
Proof. intros Hreg D Hstart Hsteps. apply plan_now_exact; [done..|]. by eapply history_reachable. Qed.

(** C4: a system at rest is up to date.  When, at any point of any history, the
    planner has nothing to run for a system, and nothing of it is in flight or
    owed, then every row it matches now has a record of a run that was planned
    earlier on that row, and fetching the row now hands it the inputs of that
    run: the same guards in the same order, with the same fingerprints or cells
    behind them.  The system writes nothing in place, and the presence of
    untracked components does not decide what is fetched. *)
Theorem settled_inputs_current h0 h s' full st :
  registered marker ps → delta_ready marker ps tys → history_start h0 → rtc history_step h0 h →
  fine (h_world h) → (plan_epoch (h_world h) < u64_max)%N →
  (∀ p, p ∈ ps → sp_written_types marker p = []) →
  (∀ p q, p ∈ ps → sp_query p = Some q → query_observed q = true) →
  plan_now h = Done (s', []) → h_flight h = [] → h_owed h = [] →
  tuple_states (h_world h) ps = Done full → st ∈ full →
  ∃ w0 memo0 i entry g items g' items', progressed w0 (h_world h) ∧
    plan_state marker id w0 ps memo0 st = Done [i] ∧ h_memo h !! pl_owner i = Some entry ∧ memo_deps entry = pl_deps i ∧
    tuple_fetch w0 ps st = Done (g, items) ∧ tuple_fetch (h_world h) ps st = Done (g', items') ∧
    Forall2 (same_input w0 (h_world h)) g g'.
Proof.
  intros Hreg D Hstart Hsteps F Hmax Hreads Hobs Hnow Hfl How Hfull Hst.
  pose proof (history_reachable Hreg D _ _ Hstart Hsteps) as Hco.
  destruct (plan_now_exact h Hreg D Hco F Hmax) as (b' & all & s2 & runs & Hall & Hnow' & _ & _ & Hex).
  rewrite Hnow in Hnow'. injection Hnow' as <- <-. pose proof (cov_wf _ _ _ _ _ _ (co_covers _ Hco)) as Hwf.
  destruct (tuple_states_aux marker _ _ ps Hwf (fn_addressable _ F) (fn_rel _ F) (fn_joinable _ F) Hreg)
    as (full' & Hfull' & _ & Hjoined). rewrite Hfull in Hfull'. injection Hfull' as <-.
  pose proof (proj1 (Hjoined st) Hst) as [Hrow _].
  destruct (plan_state_cases D (h_world h) (h_memo h) st Hrow) as [(i & Hi & _)|(Hskip & ds & Hds & Hhit)].
  - exfalso. unfold plan_invocations in Hall. rewrite Hfull in Hall. simpl in Hall.
    apply bind_Done in Hall as (all' & Hflat & [= _ <-]).
    destruct (Hex i) as [?%elem_of_nil|[Hw|Hw]]; [|done|rewrite Hfl in Hw; by apply elem_of_nil in Hw|
      rewrite How in Hw; by apply elem_of_nil in Hw].
    apply (elem_of_flat_result _ _ _ i Hflat). exists st, [i]. split_and!; [done..|by left].
  - unfold memo_hit in Hhit. destruct (h_memo h !! own st) as [entry|] eqn:He; [|done].
    destruct (co_memo _ Hco (own st) entry eq_refl He) as (i & (X0 & w0 & memo0 & st0 & Hwf0 & F0 & P0 & [Hst0 _] & Hplan) & Hown & Hdeps).
    destruct (plan_state_cases D w0 memo0 st0 Hst0) as [(j & Hj & Ho)|[Hj _]]; rewrite Hplan in Hj; [injection Hj as ->|done].
    assert (st = st0) as <-.
    { apply (state_of_keys D (h_world h) w0); try done. unfold own in *. congruence. }
    assert (pl_access j = tuple_access marker w0 ps st ∧ pl_state j = st) as [Hacc Hpl].
    { unfold plan_state in Hplan. apply bind_Done in Hplan as (ds1 & _ & Hp). destruct (negb _ && _); [done|]. by injection Hp as <-. }
    rewrite Hacc, (reads_only D w0 st Hreads Hst0) in Hdeps. specialize (Hdeps eq_refl). rewrite <-Hown in He.
    destruct (skipped_same marker X0 w0 (h_taken h) (h_world h) ps st id memo0 (h_memo h) j entry) as (g & it & g' & it' & Hg & Hg' & R);
      try done.
    { split; [exact Hobs|]. intros p q inv edge Hp Hq Hin. destruct p as [q' f|q' f|q' f|q' f|out|]; try done; injection Hq as ->.
      - apply (fine_separates w0 (h_world h) q f inv edge); try done. apply elem_of_app. by left.
      - by destruct (not_opaque D _ Hp). }
    rewrite Hpl in Hg. exists w0, memo0, j, entry, g, it, g', it'. by split_and!.
Qed.
End incremental.

(** ** Concrete runs *)

(** The joins of [demo_delta], planned in full at [demo_d0]. *)
Definition demo_hsys : BoxedSystem :=
  MkSystem Evaluate [] [] [] [] (Some []) (Some demo_delta_types) u64_max true true u64_max 0 [].
Definition demo_hplanned : BoxedSystem :=
  fst (run (demo_hsys, None) (plan_system demo_hsys demo_d0 (plan_log demo_d0).1 (plan_log demo_d0).2)).
Definition demo_hruns : list PlannedInvocation :=
  (run (true, []) (plan_invocations no_marker 0 demo_d0 demo_delta ∅ None)).2.
Definition demo_hrow (n : nat) : PlannedInvocation :=
  default (MkPlanned [] (Invocation 0 []) [] []) (demo_hruns !! n).
Definition demo_hmemo : gmap SystemInvocation MemoEntry :=
  foldl (commit_memo demo_d0 1 []) ∅ ((λ i, (pl_owner i, record_of i 2)) <$> demo_hruns).

(** An untracked marker appears: nothing the joins look at. *)
Definition demo_d2 : World := run demo_d0 (insert demo_d0 4 ty_marker v_marker None).

(** What a fingerprint of the inverse says about its members. *)
Definition demo_decode (inv : TypeId) (k : N) : option (list Entity) :=
  head (omap (λ e, if bool_decide (row_fingerprint demo_d0 inv e = Some k) then members_of demo_d0 inv e else None)
          (entities_with demo_d0 inv)).

Lemma demo_delta_step2 : world_step (nothing_taken, demo_d0) (nothing_taken, demo_d2).
Proof. apply ws_apply, (as_insert _ 4 ty_marker v_marker None). vm_compute. reflexivity. Qed.
Lemma demo_wf_d2 : wf nothing_taken demo_d2.
Proof. exact (proj1 (world_step_good _ _ _ _ demo_wf_d0 demo_delta_step2)). Qed.
Lemma demo_rel_d2 : rel_ok demo_d2.
Proof.
  refine (rel_step_ok (nothing_taken, demo_d0) (nothing_taken, demo_d2) demo_wf_d0 demo_rel_d0 _).
  apply (rs_insert nothing_taken demo_d0 4 ty_marker v_marker None demo_d2); vm_compute; reflexivity.
Qed.

(** Deciding [fn_tells] on the rows of the inverse. *)
Definition decodes_b `{ComponentTypes} `{HashOrder} (decode : TypeId → N → option (list Entity)) (w : World)
    (inv : TypeId) : bool :=
  forallb (λ e, match row_fingerprint w inv e with
                | Some k => bool_decide (members_of w inv e = decode inv k)
                | None => false
                end) (entities_with w inv).

Lemma decodes_b_spec `{ComponentTypes} `{HashOrder} decode (w : World) (inv : TypeId) :
  decodes_b decode w inv = true →
  hashed w inv ∧ ∀ e k, row_fingerprint w inv e = Some k → members_of w inv e = decode inv k.
Proof.
  unfold decodes_b. rewrite forallb_elem_of. intros Hall.
  assert (∀ e, has w inv e = true → ∃ k, row_fingerprint w inv e = Some k ∧ members_of w inv e = decode inv k) as Hx.
  { intros e He. apply (exactly_entities_with w inv) in He. specialize (Hall e He).
    destruct (row_fingerprint w inv e) as [k|]; [|done]. apply bool_decide_eq_true in Hall. by exists k. }
  split.
  - intros e He. destruct (Hx e He) as (k & -> & _). by eexists.
  - intros e k Hk. destruct (Hx e) as (k' & Hk' & Hm); [by eapply fingerprint_has|]. congruence.
Qed.

Lemma demo_fine w :
  wf nothing_taken w → rel_ok w → addressable_b w = true → decodes_b demo_decode w ty_members = true →
  fine demo_delta demo_decode w.
Proof.
  intros Hwf Hrel Hadd Hdec. split; [by apply (addressable_b_spec nothing_taken)|done|apply demo_delta_joinable|].
  intros q f inv edge Hp Hin. destruct (demo_delta_edges q f inv edge Hp Hin) as [-> _]. by apply decodes_b_spec.
Qed.

Lemma demo_fine_d0 : fine demo_delta demo_decode demo_d0.
Proof. apply demo_fine; [exact demo_wf_d0|exact demo_rel_d0|vm_compute; reflexivity..]. Qed.
Lemma demo_fine_d1 : fine demo_delta demo_decode demo_d1.
Proof. apply demo_fine; [exact demo_wf_d1|exact demo_rel_d1|vm_compute; reflexivity..]. Qed.
Lemma demo_fine_d2 : fine demo_delta demo_decode demo_d2.
Proof. apply demo_fine; [exact demo_wf_d2|exact demo_rel_d2|vm_compute; reflexivity..]. Qed.

Lemma dispatches_all flight s planned : dispatches flight s planned (flight ++ planned) s.
Proof.
  revert flight. induction planned as [|i planned IH]; intros flight; [rewrite app_nil_r; constructor|].
  apply di_admitted. replace (flight ++ i :: planned) with ((flight ++ [i]) ++ planned) by by rewrite <-app_assoc.
  apply IH.
Qed.

Definition demo_h0 : History := MkHistory nothing_taken demo_d0 demo_hsys ∅ [] [].
Definition demo_h1 : History := MkHistory nothing_taken demo_d0 demo_hplanned ∅ demo_hruns [].
Definition demo_h2 (w : World) : History := MkHistory nothing_taken w demo_hplanned demo_hmemo [] [].

Lemma demo_start : history_start 0 demo_delta_types demo_h0.
Proof. by split_and!; [exact demo_wf_d0|..]. Qed.

Notation demo_step := (history_step no_marker 0 demo_delta demo_decode).

Lemma demo_planned_step : demo_step demo_h0 demo_h1.
Proof.
  apply (hs_plan _ _ _ _ nothing_taken demo_d0 demo_hsys ∅ [] [] demo_hplanned None true demo_hruns).
  - exact demo_fine_d0.
  - vm_compute. reflexivity.
  - vm_compute. reflexivity.
  - vm_compute. reflexivity.
  - apply (dispatches_all []).
Qed.

(** Both rows come back, and then the world moves. *)
Lemma demo_landed_steps : rtc demo_step demo_h1 (demo_h2 demo_d0).
Proof.
  assert (demo_hruns = [demo_hrow 0; demo_hrow 1]) as Hruns by (vm_compute; reflexivity).
  eapply rtc_l.
  - apply (hs_commit _ _ _ _ nothing_taken demo_d0 demo_hplanned ∅ demo_hruns [] (demo_hrow 0) nothing_taken demo_d0
             demo_d0 2 1); [|exact demo_fine_d0| |exact demo_wf_d0|apply evolves_refl|done|].
    + rewrite Hruns. by left.
    + vm_compute. reflexivity.
    + vm_compute. reflexivity.
  - eapply rtc_l; [|apply rtc_refl].
    assert (demo_hmemo = commit_memo demo_d0 1 (written_rows (pl_access (demo_hrow 1)))
         (commit_memo demo_d0 1 (written_rows (pl_access (demo_hrow 0))) ∅ (pl_owner (demo_hrow 0), record_of (demo_hrow 0) 2))
         (pl_owner (demo_hrow 1), record_of (demo_hrow 1) 2)) as Hmemo by (vm_compute; reflexivity).
    assert ([] = landed (demo_hrow 1) (landed (demo_hrow 0) demo_hruns)) as Hlanded by (vm_compute; reflexivity).
    unfold demo_h2. rewrite Hmemo, Hlanded.
    apply hs_commit with (X1 := nothing_taken) (w1 := demo_d0); [|exact demo_fine_d0| |exact demo_wf_d0|apply evolves_refl|done|].
    + rewrite Hruns. vm_compute. by left.
    + vm_compute. reflexivity.
    + vm_compute. reflexivity.
Qed.

Lemma demo_history w :
  world_step (nothing_taken, demo_d0) (nothing_taken, w) → rtc demo_step demo_h0 (demo_h2 w).
Proof.
  intros Hstep. destruct (world_step_good _ _ _ _ demo_wf_d0 Hstep) as [Hwf E].
  eapply rtc_l; [exact demo_planned_step|]. etrans; [exact demo_landed_steps|].
  apply rtc_once, hs_world; [done..|by eapply world_step_epoch].
Qed.

(** The number of 3 changed: one of the two rows is planned again. *)
Lemma incremental_exact_witness :
  (∃ b full s' runs, plan_invocations no_marker 0 demo_d1 demo_delta demo_hmemo None = Done (b, full) ∧
     plan_now no_marker 0 demo_delta (demo_h2 demo_d1) = Done (s', runs) ∧ NoDup (pl_state <$> runs) ∧
     (∀ i, i ∈ runs → i ∈ full) ∧ ∀ i, i ∈ full → i ∈ runs ∨ waiting (demo_h2 demo_d1) (pl_owner i)) ∧
  pl_state <$> (run (demo_hsys, []) (plan_now no_marker 0 demo_delta (demo_h2 demo_d1))).2 = [[SRow 5; SRow 3]].
Proof.
  split; [|vm_compute; reflexivity].
  apply (incremental_exact no_marker 0 demo_delta demo_delta_types demo_decode demo_h0 (demo_h2 demo_d1)
           demo_delta_registered demo_delta_ready demo_start (demo_history _ demo_delta_step1) demo_fine_d1).
  vm_compute. reflexivity.
Defined.

Definition demo_rest : BoxedSystem :=
  fst (run (demo_hsys, []) (plan_now no_marker 0 demo_delta (demo_h2 demo_d2))).

(** The marker of 4 is nothing to it: the system is at rest. *)
Lemma settled_inputs_current_witness :
  plan_now no_marker 0 demo_delta (demo_h2 demo_d2) = Done (demo_rest, []) ∧
  ∃ w0 memo0 i entry g items g' items', progressed w0 demo_d2 ∧
    plan_state no_marker 0 w0 demo_delta memo0 [SRow 5; SRow 3] = Done [i] ∧ demo_hmemo !! pl_owner i = Some entry ∧
    memo_deps entry = pl_deps i ∧ tuple_fetch w0 demo_delta [SRow 5; SRow 3] = Done (g, items) ∧
    tuple_fetch demo_d2 demo_delta [SRow 5; SRow 3] = Done (g', items') ∧ Forall2 (same_input w0 demo_d2) g g'.
Proof.
  assert (plan_now no_marker 0 demo_delta (demo_h2 demo_d2) = Done (demo_rest, [])) as Hrest by (vm_compute; reflexivity).
  split; [exact Hrest|].
  apply (settled_inputs_current no_marker 0 demo_delta demo_delta_types demo_decode demo_h0 (demo_h2 demo_d2) demo_rest
           [[SRow 1; SRow 2]; [SRow 5; SRow 3]] [SRow 5; SRow 3]
           demo_delta_registered demo_delta_ready demo_start (demo_history _ demo_delta_step2) demo_fine_d2).
  - vm_compute. reflexivity.
  - by intros p [-> | ->]%elem_of_two.
  - by intros p q [-> | ->]%elem_of_two [= <-].
  - exact Hrest.
  - reflexivity.
  - reflexivity.
  - vm_compute. reflexivity.
  - right. by left.
Defined.
