(* ===== verification/History.v ===== *)
(** * The engine makes histories ([bowl.rs], [dispatch.rs])

    The histories of [Incremental.v] are what the commit and the dispatch of the
    engine do to one system: dispatching a plan against the reservations, and
    committing a run of this system or of another one with its whole retirement
    cascade, are sequences of history steps. *)
From stdpp Require Import base numbers sets gmap fin_maps sorting relations list.
From S2P Require Import Prelude Access.
From S2P Require Import Components Demo Stores Presence World WorldInv Ownership WorldOps Relations Frame.
From S2P Require Import Commands Query ExternalQuery Deps Planner Commit Params Joins Delta Fetch Skip Incremental.

Section history.
Context `{RelationshipLaws} `{HashOrder}.
Implicit Types (w : World) (s : BoxedSystem) (systems : list BoxedSystem) (i : PlannedInvocation)
  (memo : gmap SystemInvocation MemoEntry) (o : SystemInvocation) (flight planned : list PlannedInvocation)
  (owed : list SystemInvocation).

Variable row_counts : SystemId → World → nat.
Variable marker : list FacetPart → TypeId.
Variable (id : SystemId) (ps : list SystemParam).
Variable decode : TypeId → N → option (list Entity).

Notation step := (history_step marker id ps decode).
Notation steps := (rtc step).

(** ** Moving the world *)

Lemma world_history X w X' w' s memo flight owed :
  wf X' w' → evolves w w' → plan_epoch w' = plan_epoch w →
  steps (MkHistory X w s memo flight owed) (MkHistory X' w' s memo flight owed).
Proof. intros. by apply rtc_once, hs_world. Qed.

Lemma commit_output_epoch phase st output st' :
  state_ok st → queue_ok (out_commands output) → commit_output row_counts phase st output = Done st' →
  plan_epoch (cs_world st') = plan_epoch (cs_world st).
Proof.
  intros [W P _] Hq Hrun.
  destruct (commit_output_spec row_counts phase st output st' W Hq P Hrun) as (wd & wc & Hd & Hc & -> & _).
  assert (plan_epoch wd = plan_epoch (cs_world st)) as <-.
  { assert (∀ a b, rtc apply_step a b → plan_epoch b = plan_epoch a) as Hsteps.
    { induction 1 as [|a b c Hab _ IH]; [done|]. rewrite IH. by apply apply_step_epoch. }
    by rewrite (Hsteps _ _ Hd). }
  apply remove_derived_stale_kept, sk_epoch in Hc. rewrite <-Hc. apply apply_step_epoch, as_drain_written.
Qed.

Lemma commit_outputs_epoch phase st outputs st' :
  state_ok st → Forall (λ x, queue_ok (out_commands x)) outputs →
  fold_result (commit_output row_counts phase) st outputs = Done st' → plan_epoch (cs_world st') = plan_epoch (cs_world st).
Proof.
  intros Hok Hq. revert st Hok. induction Hq as [|output outputs Ho Hq IH]; intros st Hok; simpl; [by intros [= <-]|].
  intros (st1 & H1' & Hr)%bind_Done.
  destruct (commit_outputs_ok row_counts phase st [output] st1) as (Hok1 & _); [done|by constructor|simpl; by rewrite H1'|].
  rewrite (IH st1 Hok1 Hr). by eapply commit_output_epoch.
Qed.

(** ** The cascade *)

(** Retired owners, one at a time. *)
Lemma retire_history X w memo systems owners selected memo' systems' retired s flight owed :
  reconcile_removed_output_owners memo systems owners selected = Done (memo', systems', retired) →
  systems !! id = Some s →
  ∃ s', systems' !! id = Some s' ∧
    steps (MkHistory X w s memo flight owed) (MkHistory X w s' memo' flight owed).
Proof.
  unfold reconcile_removed_output_owners. generalize false. revert memo systems s.
  induction owners as [|o owners IH]; intros memo systems s r0; simpl; [intros [= <- <- <-] Hs; by exists s|].
  intros ([[memo1 systems1] r1] & H1' & Hrest)%bind_Done Hs. unfold retire_owner in H1'.
  assert (∃ s1, systems1 !! id = Some s1 ∧
    steps (MkHistory X w s memo flight owed) (MkHistory X w s1 memo1 flight owed)) as (s1 & Hs1 & Hsteps).
  { destruct (match selected with Some ids => _ | None => false end); [injection H1' as <- <- <-; by exists s|].
    destruct (memo !! o); [|injection H1' as <- <- <-; by exists s].
    apply bind_Done in H1' as (systems2 & (s0 & Hs0%expect_Done & [= <-])%bind_Done & [= <- <- <-]).
    destruct (decide (system o = id)) as [Ho|Ho].
    - rewrite Ho in Hs0 |- *. assert (s0 = s) as -> by congruence. exists (force_replan s (keys o)). split.
      + by apply list_lookup_insert_eq, (lookup_lt_Some _ _ _ Hs).
      + by apply rtc_once, hs_retire.
    - exists s. split; [by rewrite list_lookup_insert_ne|]. apply rtc_once, hs_others. intros o' Ho'.
      rewrite lookup_delete_ne; [done|]. intros ->. by destruct Ho. }
  destruct (IH memo1 systems1 s1 r1 Hrest Hs1) as (s' & Hs' & Hsteps'). exists s'. split; [done|]. by etrans.
Qed.

Definition dropped memo (keyset : gset Entity) : list SystemInvocation :=
  filter (λ o, remove_memo_touched_by memo keyset !! o = None) (map_to_list memo).*1.

Lemma forget_history X w s memo flight owed keyset :
  steps (MkHistory X w s memo flight owed)
    (MkHistory X w s (remove_memo_touched_by memo keyset) flight (owed ++ dropped memo keyset)).
Proof.
  apply rtc_once, hs_forget.
  - intros o ?. apply elem_of_app. by left.
  - intros o [entry He] Hn. left. apply elem_of_app. right. apply list_elem_of_filter. split; [done|].
    apply list_elem_of_fmap. exists (o, entry). split; [done|]. by apply elem_of_map_to_list.
Qed.

(** The frontier: rows keyed by a vanished entity lose their record. *)
Lemma frontier_history n w memo selected seen frontier retired w' memo' retired' s flight owed :
  wf nothing_taken w → retire_frontier n w memo selected seen frontier retired = Done (w', memo', retired') →
  ∃ owed', steps (MkHistory nothing_taken w s memo flight owed) (MkHistory nothing_taken w' s memo' flight owed') ∧
    memo' ⊆ memo ∧ wf nothing_taken w' ∧ ∀ o, o ∈ owed' → o ∈ owed ∨ memo' !! o = None.
Proof.
  revert w memo seen frontier retired owed.
  induction n as [|n IH]; intros w memo seen frontier retired owed Hwf; cbn [retire_frontier]; case_bool_decide; try done.
  1,2: intros [= <- <- <-]; exists owed; split_and!; [done..|auto].
  intros ([w1 removed] & Hrun & Hrest)%bind_Done.
  assert (world_step (nothing_taken, w) (nothing_taken, w1)) as Hstep by by eapply ws_touched.
  destruct (world_step_good _ _ _ _ Hwf Hstep) as [Hwf1 E1].
  apply (IH _ _ _ _ _ (owed ++ dropped memo frontier) Hwf1) in Hrest as (owed' & Hsteps & Hsub & Hwf' & How).
  pose proof (remove_memo_sub memo frontier) as Hsub1. exists owed'. split_and!; [|by etrans|done|].
  - etrans; [apply forget_history|]. etrans; [|exact Hsteps]. apply world_history; [done..|by eapply world_step_epoch].
  - intros o [[?|[Hn _]%list_elem_of_filter]%elem_of_app|?]%How; [by left|right|by right].
    eapply lookup_weaken_None; [exact Hn|done].
Qed.

(** The whole retirement of a commit. *)
Lemma commit_retire_history st st' s flight owed :
  state_ok st → commit_retire st = Done st' → cs_systems st !! id = Some s →
  ∃ s' owed', cs_systems st' !! id = Some s' ∧
    steps (MkHistory nothing_taken (cs_world st) s (cs_memo st) flight owed)
      (MkHistory nothing_taken (cs_world st') s' (cs_memo st') flight owed') ∧
    ∀ o, o ∈ owed' → o ∈ owed ∨ cs_memo st' !! o = None.
Proof.
  intros [W _ _] Hrun Hs. unfold commit_retire in Hrun.
  destruct (apply_step_good _ _ _ W (as_drain_entities (cs_world st))) as [W1 E1].
  destruct (apply_step_good _ _ _ W1 (as_drain_owners _)) as [W2 E2].
  destruct (apply_step_good _ _ _ W2 (as_drain_component_owners _)) as [W3 E3]. cbv zeta in *.
  pose proof (evolves_trans _ _ _ E1 (evolves_trans _ _ _ E2 E3)) as E.
  unfold take_removed_entities, take_removed_owners, take_removed_component_owners in *. cbn [fst snd] in *.
  set (w := set_removed_component_owners [] _) in *.
  assert (steps (MkHistory nothing_taken (cs_world st) s (cs_memo st) flight owed)
    (MkHistory nothing_taken w s (cs_memo st) flight owed)) as Hdrain by by apply world_history.
  destruct (bool_decide _ && _ && _); [injection Hrun as <-; exists s, owed; split_and!; auto|].
  apply bind_Done in Hrun as ([[memo systems] retired] & Hretire & Hr).
  destruct (retire_history nothing_taken w _ _ _ _ _ _ _ s flight owed Hretire Hs) as (s1 & Hs1 & Hsteps1).
  destruct retired; [injection Hr as <-; exists s1, owed; split_and!; [done|by etrans|auto]|].
  apply bind_Done in Hr as ([[[w' memo'] systems'] retired'] & Hrec & [= <-]).
  unfold reconcile_removed_invocations in Hrec.
  apply bind_Done in Hrec as ([[memo1 systems1] r1] & Hretire1 & Hrec).
  apply bind_Done in Hrec as ([[w2 memo2] r2] & Hf & [= <- <- <- <-]).
  destruct (retire_history nothing_taken w _ _ _ _ _ _ _ s1 flight owed Hretire1 Hs1) as (s2 & Hs2 & Hsteps2).
  destruct (frontier_history _ _ _ _ _ _ _ _ _ _ s2 flight owed W3 Hf) as (owed' & Hsteps3 & _ & _ & How).
  assert (steps (MkHistory nothing_taken (cs_world st) s (cs_memo st) flight owed)
    (MkHistory nothing_taken w2 s2 memo2 flight owed')) as Hall.
  { etrans; [exact Hdrain|]. etrans; [exact Hsteps1|]. by etrans. }
  exists s2, owed'. by destruct r2.
Qed.

(** ** A commit *)

(** The run of one row, as [single_run] reports it. *)
Definition run_of_row i (q : CommandQueue) (rev : N) : SystemRun :=
  MkRun true [MkOutput (pl_owner i) q] [(pl_owner i, record_of i rev)] (written_rows (pl_access i)).

(** The systems after a commit: a stale row is forced, except by a draining
    preemption. *)
Definition after_commit (force : bool) (st : CommitState) (p : CommitProgress) o : result (list BoxedSystem) :=
  if force && progress_stale p then force_owner (cs_systems st) o else Done (cs_systems st).

Lemma commit_memo_other w epoch writes memo updates o :
  (∀ entry : MemoEntry, (o, entry) ∉ updates) →
  foldl (commit_memo w epoch writes) memo updates !! o = memo !! o.
Proof.
  revert memo. induction updates as [|[o1 m1] updates IH]; intros memo Hno; simpl; [done|].
  rewrite IH by (intros entry ?; apply (Hno entry); by right). unfold commit_memo. simpl.
  rewrite lookup_insert_ne; [done|]. intros ->. apply (Hno m1). by left.
Qed.

(** A commit of another system only moves the world, and retires rows. *)
Lemma foreign_history st run phase st' p s flight owed :
  state_ok st → run_ok run → commit_system_run row_counts st run phase = Done (st', p) →
  (∀ o entry, (o, entry) ∈ run_updates run → system o ≠ id) → cs_systems st !! id = Some s →
  ∃ s' owed', cs_systems st' !! id = Some s' ∧
    steps (MkHistory nothing_taken (cs_world st) s (cs_memo st) flight owed)
      (MkHistory nothing_taken (cs_world st') s' (cs_memo st') flight owed') ∧
    ∀ o, o ∈ owed' → o ∈ owed ∨ cs_memo st' !! o = None.
Proof.
  intros Hok Hq Hrun Hother Hs.
  destruct (forallb (λ '(_, entry), memo_is_current (cs_world st) entry) (run_updates run)) eqn:Hc.
  - unfold commit_system_run in Hrun. rewrite Hc in Hrun. simpl in Hrun.
    apply bind_Done in Hrun as (st1 & Hout & Hrun). apply bind_Done in Hrun as (w & Hw & Hrun).
    apply bind_Done in Hrun as (st2 & Hret & [= <- <-]).
    destruct (commit_outputs_ok _ _ _ _ _ Hok Hq Hout) as ([W1 P1 Q1] & E1 & Hm1 & Hs1 & _).
    pose proof (commit_outputs_epoch _ _ _ _ Hok Hq Hout) as He1.
    destruct (reconciled _ _ _ _ W1 Hw) as (W2 & E2 & He2).
    set (memo := foldl _ _ _) in *.
    destruct (commit_retire_history (set_memo memo (set_world w st1)) st2 s flight owed)
      as (s' & owed' & Hs' & Hsteps & How); [by split|done|simpl; by rewrite Hs1|].
    exists s', owed'. split_and!; [done| |done]. etrans; [|exact Hsteps]. simpl.
    etrans; [apply (world_history _ _ nothing_taken w); [done|by eapply evolves_trans|congruence]|].
    apply rtc_once, hs_others. intros o Ho. subst memo. rewrite Hm1.
    apply commit_memo_other. intros entry Hin. by destruct (Hother o entry Hin).
  - destruct (stale_commit_inv _ _ _ _ _ _ Hc Hrun) as (w & Hw & -> & _ & _ & _). destruct Hok as [W P Q].
    destruct (reconciled _ _ _ _ W Hw) as (W' & E & He). exists s, owed. split_and!; [done| |auto].
    by apply world_history.
Qed.

(** C5: a commit makes history.  Committing the run of a row that is in flight,
    and forcing the row if it was stale and the phase is not draining, is a
    sequence of history steps of the row's system: the world it moved, the record
    it left, the owners it retired and the records its cascade dropped are all
    accounted for, the row is no longer in flight, and a row becomes owed for one
    of two reasons: it has no record any more, or it is the run's own row, its
    run was discarded as stale, and the phase was draining for a preempting write
    and did not force it; that row keeps whatever record it had. *)
Theorem commit_is_history st i q rev phase st' p force systems' s flight owed :
  state_ok st → queue_ok q → cs_systems st !! id = Some s → system (pl_owner i) = id → i ∈ flight →
  (memo_is_current (cs_world st) (record_of i rev) = true → fine ps decode (cs_world st)) →
  commit_system_run row_counts st (run_of_row i q rev) phase = Done (st', p) →
  after_commit force st' p (pl_owner i) = Done systems' →
  ∃ s' owed', systems' !! id = Some s' ∧
    steps (MkHistory nothing_taken (cs_world st) s (cs_memo st) flight owed)
      (MkHistory nothing_taken (cs_world st') s' (cs_memo st') (landed i flight) owed') ∧
    ∀ o, o ∈ owed' → o ∈ owed ∨ cs_memo st' !! o = None ∨
      (progress_stale p = true ∧ force = false ∧ o = pl_owner i ∧ cs_memo st' !! o = cs_memo st !! o).
Proof.
  intros Hok Hq Hs Hid Hi Hfine Hrun Hafter. assert (run_ok (run_of_row i q rev)) as Hrok by by constructor.
  destruct (memo_is_current (cs_world st) (record_of i rev)) eqn:Hc.
  - unfold commit_system_run in Hrun. simpl in Hrun. rewrite Hc in Hrun. simpl in Hrun.
    apply bind_Done in Hrun as (st1 & Hout & Hrun). apply bind_Done in Hrun as (w & Hw & Hrun).
    apply bind_Done in Hrun as (st2 & Hret & [= <- <-]).
    destruct (commit_outputs_ok _ _ _ (run_outputs (run_of_row i q rev)) _ Hok Hrok Hout) as ([W1 P1 Q1] & E1 & Hm1 & Hs1 & _).
    pose proof (commit_outputs_epoch _ _ (run_outputs (run_of_row i q rev)) _ Hok Hrok Hout) as He1.
    destruct (reconciled _ _ _ _ W1 Hw) as (W2 & E2 & He2).
    unfold after_commit in Hafter. simpl in Hafter. rewrite andb_false_r in Hafter. injection Hafter as <-.
    set (memo := commit_memo _ _ _ _ _) in *.
    destruct (commit_retire_history (set_memo memo (set_world w st1)) st2 s (landed i flight) owed)
      as (s' & owed' & Hs' & Hsteps & How); [by split|done|simpl; by rewrite Hs1|].
    exists s', owed'. split_and!; [done| |intros o Ho; destruct (How o Ho); auto]. etrans; [|exact Hsteps].
    apply rtc_once. simpl. subst memo. rewrite Hm1.
    eapply (hs_commit _ _ _ _ _ _ _ _ _ _ _ nothing_taken (cs_world st1)); try done. by apply Hfine.
  - assert (forallb (λ '(_, entry), memo_is_current (cs_world st) entry) (run_updates (run_of_row i q rev)) = false) as Hc'
      by (simpl; by rewrite Hc).
    destruct (stale_commit_inv _ _ _ _ _ _ Hc' Hrun) as (w & Hw & -> & Hst & _ & _).
    destruct Hok as [W P Q]. destruct (reconciled _ _ _ _ W Hw) as (W' & E & He).
    unfold after_commit in Hafter. rewrite Hst, andb_true_r in Hafter.
    assert (∃ s', systems' !! id = Some s' ∧ s' = if force then force_replan s (keys (pl_owner i)) else s) as (s' & Hs' & ->).
    { destruct force; [|injection Hafter as <-; by exists s]. simpl in Hafter.
      apply bind_Done in Hafter as (s0 & Hs0%expect_Done & [= <-]). simpl in Hs0. rewrite Hid in Hs0 |- *.
      assert (s0 = s) as -> by congruence. eexists. split; [|done].
      by apply list_lookup_insert_eq, (lookup_lt_Some _ _ _ Hs). }
    eexists _, _. split_and!; [exact Hs'| |].
    + apply rtc_once. by apply (hs_stale _ _ _ _ _ _ _ _ _ _ i w rev force).
    + intros o. destruct force; [by left|]. intros [?| ->%list_elem_of_singleton]%elem_of_app; [by left|].
      do 2 right. by split_and!.
Qed.

(** ** A dispatch *)

(** The rows in flight are those the reservations run. *)
Definition tracks (t : Spec.table) flight : Prop :=
  ∀ o, system o = id → Spec.running t o ↔ o ∈ pl_owner <$> flight.

(** A dispatch makes history.  Dispatching a plan row by row against the
    reservations takes the decisions of the histories: a row is admitted, or is
    running already, or conflicts and is forced; and what is in flight stays what
    the reservations run. *)
Theorem dispatch_is_history size a readers writers planned a' readers' writers' t flight :
  represents (adm_reservations a) t → tracks t flight → Forall (λ i, system (pl_owner i) = id) planned →
  fold_result (dispatch_row size) (a, readers, writers) ((λ i, (pl_owner i, pl_access i)) <$> planned) =
    Done (a', readers', writers') →
  ∃ t' flight', represents (adm_reservations a') t' ∧ tracks t' flight' ∧
    dispatches flight (adm_system a) planned flight' (adm_system a').
Proof.
  intros Hr Ht Hown. revert a readers writers t flight Hr Ht.
  induction Hown as [|i planned Hi Hown IH]; intros a readers writers t flight Hr Ht; simpl.
  { intros [= <- <- <-]. exists t, flight. split_and!; [done..|constructor]. }
  intros ([[a1 rd1] wr1] & Hrow & Hrest)%bind_Done. unfold dispatch_row in Hrow. simpl in Hrow.
  apply bind_Done in Hrow as ([r out] & Hadm & Hrow).
  destruct (admit_refines_aux _ _ _ _ _ _ Hr Hadm) as (t1 & Hspec & Hr1).
  destruct Hspec as [Hrun|Hrun Hclash|rid Hrun Hclash Hfresh].
  - injection Hrow as <- <- <-. apply (IH _ _ _ t flight) in Hrest as (t' & flight' & ? & ? & Hd); [|exact Hr1|exact Ht].
    exists t', flight'. split_and!; try done. apply di_running; [by apply Ht|done].
  - injection Hrow as <- <- <-. apply (IH _ _ _ t flight) in Hrest as (t' & flight' & ? & ? & Hd); [|exact Hr1|exact Ht].
    exists t', flight'. split_and!; try done. by apply di_conflict.
  - apply bind_Done in Hrow as (wr & _ & Hrow).
    assert (adm_reservations a1 = r ∧ adm_system a1 = adm_system a) as [Ha1 Ha2].
    { destruct wr; destruct (push_run size _ _ rid); by injection Hrow as <- <- <-. }
    destruct (IH a1 rd1 wr1 (<[rid:=(pl_owner i, pl_access i)]> t) (flight ++ [i])) as (t' & flight' & ? & ? & Hd).
    + by rewrite Ha1.
    + intros o Ho. rewrite fmap_app, elem_of_app, <-(Ht o Ho). unfold Spec.running. split.
      * intros (k & accs & [[<- [= <- <-]]|[_ Hk]]%lookup_insert_Some); [right; by left|left; by exists k, accs].
      * intros [(k & accs & Hk)| ->%list_elem_of_singleton].
        -- exists k, accs. rewrite lookup_insert_ne; [done|]. intros ->. congruence.
        -- exists rid, (pl_access i). apply lookup_insert_eq.
    + done.
    + exists t', flight'. split_and!; try done. rewrite Ha2 in Hd. by apply di_admitted.
Qed.
End history.

(** ** Concrete runs *)

(** The first row of [demo_delta] comes back with a spawn. *)
Definition demo_hstate : CommitState :=
  MkState demo_d0 ∅ [demo_hplanned] [] (MkPool [] []) true None 1 true.
Definition demo_hqueue : CommandQueue := demo_queue_of [SpawnCommand [(ty_num, v_num 9)] 40].
Definition demo_hdone : CommitState * CommitProgress :=
  run (demo_hstate, MkProgress false false 0)
    (commit_system_run nobody_matches demo_hstate (run_of_row (demo_hrow 0) demo_hqueue 2) (Some Evaluate)).

Lemma demo_hstate_ok : state_ok demo_hstate.
Proof. split; [exact demo_wf_d0|by repeat split; try constructor|constructor]. Qed.

Lemma demo_hrow_in : demo_hrow 0 ∈ demo_hruns.
Proof.
  assert (demo_hruns = [demo_hrow 0; demo_hrow 1]) as -> by (vm_compute; reflexivity). by left.
Qed.

Lemma commit_is_history_witness :
  progress_stale demo_hdone.2 = false ∧
  ∃ s' owed', [demo_hplanned] !! 0 = Some s' ∧
    rtc (history_step no_marker 0 demo_delta demo_decode)
      (MkHistory nothing_taken demo_d0 demo_hplanned ∅ demo_hruns [])
      (MkHistory nothing_taken (cs_world demo_hdone.1) s' (cs_memo demo_hdone.1) (landed (demo_hrow 0) demo_hruns) owed') ∧
    ∀ o, o ∈ owed' → o ∈ [] ∨ cs_memo demo_hdone.1 !! o = None ∨
      (progress_stale demo_hdone.2 = true ∧ true = false ∧ o = pl_owner (demo_hrow 0) ∧ cs_memo demo_hdone.1 !! o = cs_memo demo_hstate !! o).
Proof.
  split; [vm_compute; reflexivity|].
  apply (commit_is_history nobody_matches no_marker 0 demo_delta demo_decode demo_hstate (demo_hrow 0) demo_hqueue 2
           (Some Evaluate) demo_hdone.1 demo_hdone.2 true [demo_hplanned] demo_hplanned demo_hruns [] demo_hstate_ok).
  - apply demo_queue_of_ok.
  - reflexivity.
  - vm_compute. reflexivity.
  - exact demo_hrow_in.
  - intros _. exact demo_fine_d0.
  - vm_compute. reflexivity.
  - vm_compute. reflexivity.
Defined.

Definition demo_hadmission : Admission := MkAdmission demo_hplanned (reservations_new ∅) false [] [].
Definition demo_hdispatched : Admission * list RunId * list RunId :=
  run (demo_hadmission, [], [])
    (fold_result (dispatch_row 4) (demo_hadmission, [], []) ((λ i, (pl_owner i, pl_access i)) <$> demo_hruns)).

Lemma dispatch_is_history_witness :
  ∃ t' flight', represents (adm_reservations demo_hdispatched.1.1) t' ∧ tracks 0 t' flight' ∧
    dispatches [] demo_hplanned demo_hruns flight' (adm_system demo_hdispatched.1.1).
Proof.
  apply (dispatch_is_history 0 4 demo_hadmission [] [] demo_hruns demo_hdispatched.1.1 demo_hdispatched.1.2
           demo_hdispatched.2 ∅ []).
  - apply represents_new. split; intros *; rewrite lookup_empty; discriminate.
  - intros o _. split; [|by intros ?%elem_of_nil]. intros (k & accs & Hk). by rewrite lookup_empty in Hk.
  - assert (demo_hruns = [demo_hrow 0; demo_hrow 1]) as -> by (vm_compute; reflexivity).
    constructor; [|constructor; [|constructor]]; vm_compute; reflexivity.
  - vm_compute. reflexivity.
Defined.

(** ** Records a cascade drops

    The pair invocation [b], keyed by 5, derived a number on 11; a third
    invocation is keyed by 11 and reads only its edge.  Removing 5 retracts the
    number, and 11, although alive and with its edge in place, is taken for a
    vanished entity: the third invocation loses its record and is not forced.  If
    its own output is removed later, nobody plans it again. *)
Definition demo_reader : SystemInvocation := Invocation 2 [11%N].
Definition demo_cascade : CommitState :=
  MkState (run demo_w0 (insert demo_ab 11 ty_edge (v_edge 7) None))
    {[demo_b := MkMemo [] 0 0; demo_reader := MkMemo [] 0 0]} [demo_planned; demo_pair; demo_planned] []
    (MkPool [] []) true None 3 true.

Lemma live_record_dropped :
  match commit_system_run nobody_matches demo_cascade
          (MkRun true [MkOutput demo_a (demo_queue_of [RemoveEntityCommand 5])] [(demo_a, MkMemo [] 1 0)] []) (Some Evaluate) with
  | Done (st, _) =>
      has (cs_world st) ty_edge 11 = true ∧
      row_revision (cs_world st) ty_edge 11 = row_revision (cs_world demo_cascade) ty_edge 11 ∧
      cs_memo st !! demo_reader = None ∧ cs_systems st !! 2 = Some demo_planned ∧
      reconcile_removed_output_owners (cs_memo st) (cs_systems st) [demo_reader] None =
        Done (cs_memo st, cs_systems st, false)
  | Panic _ => False
  end.
Proof. vm_compute. done. Qed.
