(* ===== verification/Declare.v ===== *)
(** * Output declarations and strict spawning ([declare.rs], [commands.rs])

    A system declares what it may write in the type of its command buffer, and
    the compiler searches for a proof that each write is declared.  The proof
    terms of that search are the marker types; here the trait implementations
    are the rules of inductive relations indexed by their markers.  [search]
    is the proof search.  The theorems: the search finds a component exactly as
    often as the run-time enumeration of the declaration lists it, so that a
    write is accepted without annotations when it is declared once; and a spawn
    the compiler accepts can never fail the conformance check at its commit. *)
From stdpp Require Import base numbers sets gmap fin_maps sorting list.
From S2P Require Import Prelude Access Components Demo Stores Presence World WorldInv Ownership WorldOps Relations.
From S2P Require Import Frame Commands Query Deps Planner Commit Params.

(** ** Declarations and markers *)

(** [Anything], a component, [Option<T>], and tuples; shapes and schema
    aliases are tuples. *)
Inductive Decl :=
  | DAnything
  | DComponent (ty : TypeId)
  | DOption (d : Decl)
  | DTuple (ds : list Decl).

(** [all_tuples!(.., 1, 12, ..)] *)
Definition tuple_width : nat := 12.

Inductive Marker := ExactMatch | Here (m : Marker) | There (m : Marker) | Optionally (m : Marker) | WildcardMatch.
#[export] Instance Marker_eq_dec : EqDecision Marker.
Proof. solve_decision. Defined.

(** [DeclaredIn<S, M>], one rule per implementation. *)
Inductive declared_in (c : TypeId) : Decl → Marker → Prop :=
  | declared_exact : declared_in c (DComponent c) ExactMatch
  | declared_anything : declared_in c DAnything WildcardMatch
  | declared_option d m : declared_in c d m → declared_in c (DOption d) (Optionally m)
  | declared_here d ds m :
      length (d :: ds) ≤ tuple_width → declared_in c d m → declared_in c (DTuple (d :: ds)) (Here m)
  | declared_there d ds m :
      length (d :: ds) ≤ tuple_width → declared_in c (DTuple ds) m → declared_in c (DTuple (d :: ds)) (There m).

(** [BundleDeclaredIn<S, (M,..)>]; a bundle is the list of its component types. *)
Definition bundle_declared_in (b : list TypeId) (s : Decl) (ms : list Marker) : Prop :=
  1 ≤ length b ≤ tuple_width ∧ Forall2 (λ c m, declared_in c s m) b ms.

Inductive PartMarker := RequiredHere (m : Marker) | OptionalSkip.

(** A bundle type as a declaration. *)
Definition bundle_decl (b : list TypeId) : Decl := DTuple (DComponent <$> b).

(** [RequiredPartIn<B, M>] *)
Inductive required_part_in (b : list TypeId) : Decl → PartMarker → Prop :=
  | part_optional_skip d : required_part_in b (DOption d) OptionalSkip
  | part_required c m : declared_in c (bundle_decl b) m → required_part_in b (DComponent c) (RequiredHere m).

Inductive CoverMarker := CoverPart (m : PartMarker) | CoverParts (ms : list PartMarker).

(** [CoveredBy<B, M>] *)
Inductive covered_by (b : list TypeId) : Decl → CoverMarker → Prop :=
  | covered_component c m :
      declared_in c (bundle_decl b) m → covered_by b (DComponent c) (CoverPart (RequiredHere m))
  | covered_tuple ds ms :
      1 ≤ length ds ≤ tuple_width → Forall2 (required_part_in b) ds ms → covered_by b (DTuple ds) (CoverParts ms).

(** [MatchesShape<H, (M1, M2)>] *)
Definition matches_shape (b : list TypeId) (h : Decl) (m : list Marker * CoverMarker) : Prop :=
  bundle_declared_in b h m.1 ∧ covered_by b h m.2.

Inductive SpawnMarker := SpawnHere (m : list Marker * CoverMarker) | SpawnThere (m : SpawnMarker) | SpawnWildcard.

(** [SpawnsAs<S, M>] with its [Shape]; [None] is [Untyped]. *)
Inductive spawns_as (b : list TypeId) : Decl → SpawnMarker → option Decl → Prop :=
  | spawns_here h hs m :
      length (h :: hs) ≤ tuple_width → matches_shape b h m → spawns_as b (DTuple (h :: hs)) (SpawnHere m) (Some h)
  | spawns_there h hs m shape :
      length (h :: hs) ≤ tuple_width → spawns_as b (DTuple hs) m shape → spawns_as b (DTuple (h :: hs)) (SpawnThere m) shape
  | spawns_anything : spawns_as b DAnything SpawnWildcard None.

(** [IncrementOf<H, M>]; the facet [None] is [Untyped]. *)
Inductive increment_of (c : TypeId) : option Decl → Marker → Prop :=
  | increment_untyped : increment_of c None ExactMatch
  | increment_option : increment_of c (Some (DOption (DComponent c))) (Optionally ExactMatch)
  | increment_here d ds m :
      length (d :: ds) ≤ tuple_width → increment_of c (Some d) m → increment_of c (Some (DTuple (d :: ds))) (Here m)
  | increment_there d ds m :
      length (d :: ds) ≤ tuple_width → increment_of c (Some (DTuple ds)) m →
      increment_of c (Some (DTuple (d :: ds))) (There m).

(** ** What the run time sees of a declaration *)

(** [DeclarationList::declared_types] *)
Fixpoint declared_types (s : Decl) : option (list TypeId) :=
  match s with
  | DAnything => None
  | DComponent ty => Some [ty]
  | DOption d => declared_types d
  | DTuple ds => concat_option (declared_types <$> ds)
  end.

(** [ShapePart::part]: components and optional components. *)
Definition shape_part (d : Decl) : option FacetPart :=
  match d with
  | DComponent ty => Some (MkFacetPart ty false)
  | DOption (DComponent ty) => Some (MkFacetPart ty true)
  | _ => None
  end.

(** [FacetKind::parts]: the untyped handle and shape tuples are facets. *)
Definition facet_parts (h : option Decl) : option (list FacetPart) :=
  match h with
  | None => Some []
  | Some (DTuple ds) => if bool_decide (1 ≤ length ds ≤ tuple_width) then mapM shape_part ds else None
  | Some _ => None
  end.

(** ** The proof search *)

(** Every tuple is within the width the implementations exist for. *)
Fixpoint decl_ok (s : Decl) : bool :=
  match s with
  | DAnything | DComponent _ => true
  | DOption d => decl_ok d
  | DTuple ds => bool_decide (length ds ≤ tuple_width) && forallb decl_ok ds
  end.

Fixpoint search (c : TypeId) (s : Decl) : list Marker :=
  match s with
  | DAnything => [WildcardMatch]
  | DComponent ty => if bool_decide (c = ty) then [ExactMatch] else []
  | DOption d => Optionally <$> search c d
  | DTuple ds =>
      if bool_decide (length ds ≤ tuple_width)
      then (fix go ds := match ds with [] => [] | d :: ds => (Here <$> search c d) ++ (There <$> go ds) end) ds
      else []
  end.

(** How often a list names a component. *)
Definition occurrences (c : TypeId) (l : list TypeId) : nat := length (filter (.= c) l).

(** Nested induction on declarations. *)
Lemma Decl_ind' (P : Decl → Prop) :
  P DAnything → (∀ ty, P (DComponent ty)) → (∀ d, P d → P (DOption d)) → (∀ ds, Forall P ds → P (DTuple ds)) →
  ∀ d, P d.
Proof.
  intros Ha Hc Ho Ht. fix IH 1. intros [| |d|ds]; [done|done|by apply Ho, IH|].
  apply Ht. induction ds; constructor; [apply IH|done].
Qed.

Lemma search_tuple c d ds :
  length (d :: ds) ≤ tuple_width →
  search c (DTuple (d :: ds)) = (Here <$> search c d) ++ (There <$> search c (DTuple ds)).
Proof. intros Hl. simpl search. rewrite !bool_decide_true; [done| |done]. simpl in Hl. lia. Qed.

Lemma search_wide c ds : ¬ length ds ≤ tuple_width → search c (DTuple ds) = [].
Proof. intros Hl. simpl. by rewrite bool_decide_false. Qed.

(** The search finds exactly the proofs. *)
Lemma elem_of_search c s m : m ∈ search c s ↔ declared_in c s m.
Proof.
  revert m. induction s as [|ty|d IH|ds IHds] using Decl_ind'; intros m.
  - simpl. rewrite list_elem_of_singleton. split; [intros ->; constructor|by inversion 1].
  - simpl. case_bool_decide as Hc.
    + subst ty. rewrite list_elem_of_singleton. split; [intros ->; constructor|by inversion 1].
    + split; [by intros ?%elem_of_nil|by inversion 1].
  - simpl. rewrite list_elem_of_fmap. split.
    + intros (m' & -> & Hm). constructor. by apply IH.
    + inversion 1; subst. eexists. split; [done|]. by apply IH.
  - revert m. induction IHds as [|d ds Hd _ IH]; intros m.
    + simpl. split; [by intros ?%elem_of_nil|by inversion 1].
    + destruct (decide (length (d :: ds) ≤ tuple_width)) as [Hl|Hl].
      * rewrite (search_tuple _ _ _ Hl), elem_of_app, !list_elem_of_fmap. split.
        -- intros [(m' & -> & Hm)|(m' & -> & Hm)].
           ++ apply declared_here; [done|]. by apply Hd.
           ++ apply declared_there; [done|]. by apply IH.
        -- inversion 1; subst; [left|right]; eexists; (split; [done|]); [by apply Hd|by apply IH].
      * rewrite (search_wide _ _ Hl). split; [by intros ?%elem_of_nil|by inversion 1].
Qed.

Lemma occurrences_app c l1 l2 : occurrences c (l1 ++ l2) = occurrences c l1 + occurrences c l2.
Proof. unfold occurrences. by rewrite filter_app, length_app. Qed.

Lemma concat_option_cons {A} (o : option (list A)) l :
  concat_option (o :: l) = match o, concat_option l with Some a, Some b => Some (a ++ b) | _, _ => None end.
Proof. done. Qed.

Lemma decl_ok_tail d ds : decl_ok (DTuple (d :: ds)) = true → decl_ok d = true ∧ decl_ok (DTuple ds) = true.
Proof.
  simpl. rewrite !andb_true_iff, !bool_decide_eq_true. simpl. intros (? & ? & ?). split_and!; [done|lia|done].
Qed.

Lemma decl_ok_width ds : decl_ok (DTuple ds) = true → length ds ≤ tuple_width.
Proof. simpl. rewrite andb_true_iff, bool_decide_eq_true. tauto. Qed.

Lemma search_counts_types c s :
  decl_ok s = true →
  match declared_types s with
  | Some l => length (search c s) = occurrences c l
  | None => 1 ≤ length (search c s)
  end.
Proof.
  induction s as [|ty|d IH|ds IHds] using Decl_ind'.
  - simpl. lia.
  - intros _. simpl. unfold occurrences. rewrite filter_cons, filter_nil.
    case_bool_decide as Hc; [rewrite decide_True by done|rewrite decide_False by done]; done.
  - intros Hok. simpl. rewrite length_fmap. by apply IH.
  - induction IHds as [|d ds Hd _ IH]; intros Hok; [done|].
    destruct (decl_ok_tail _ _ Hok) as [Hokd Hoks]. specialize (Hd Hokd). specialize (IH Hoks).
    rewrite (search_tuple _ _ _ (decl_ok_width _ Hok)), length_app, !length_fmap.
    change (declared_types (DTuple (d :: ds))) with (concat_option (declared_types d :: (declared_types <$> ds))).
    change (declared_types (DTuple ds)) with (concat_option (declared_types <$> ds)) in IH.
    rewrite concat_option_cons.
    destruct (declared_types d) as [a|]; [|lia].
    destruct (concat_option (declared_types <$> ds)) as [b|]; [|lia].
    rewrite occurrences_app. lia.
Qed.

Lemma NoDup_search c s : NoDup (search c s).
Proof.
  induction s as [|ty|d IH|ds IHds] using Decl_ind'.
  - apply NoDup_singleton.
  - simpl. case_bool_decide; [apply NoDup_singleton|constructor].
  - simpl. apply NoDup_fmap_2; [|done]. by intros ? ? [= ->].
  - induction IHds as [|d ds Hd _ IH]; [constructor|].
    destruct (decide (length (d :: ds) ≤ tuple_width)) as [Hl|Hl]; [|rewrite search_wide by done; constructor].
    rewrite (search_tuple _ _ _ Hl). apply NoDup_app. split_and!.
    + apply NoDup_fmap_2; [|done]. by intros ? ? [= ->].
    + intros m (m' & -> & _)%list_elem_of_fmap (m'' & [=] & _)%list_elem_of_fmap.
    + apply NoDup_fmap_2; [|done]. by intros ? ? [= ->].
Qed.

Lemma occurrences_pos c l : c ∈ l ↔ occurrences c l ≠ 0.
Proof.
  unfold occurrences. rewrite length_zero_iff_nil. split.
  - intros Hc Hf. assert (c ∈ filter (.= c) l) as Hin by by apply list_elem_of_filter. rewrite Hf in Hin. by apply elem_of_nil in Hin.
  - intros Hf. destruct (filter (.= c) l) as [|x l'] eqn:Hx; [done|].
    assert (x ∈ filter (.= c) l) as [-> ?]%list_elem_of_filter by (rewrite Hx; by left). done.
Qed.

Lemma singleton_length {A} (l : list A) : length l = 1 ↔ ∃ x, l = [x].
Proof. split; [|by intros [x ->]]. destruct l as [|x [|]]; simpl; try done. by exists x. Qed.

Lemma search_unique c s : (exists ! m, declared_in c s m) ↔ length (search c s) = 1.
Proof.
  rewrite singleton_length. split.
  - intros (m & Hm & Hu). exists m. apply elem_of_search in Hm. pose proof (NoDup_search c s) as Hnd.
    assert (∀ m', m' ∈ search c s → m = m') as Hu' by (intros m' ?%elem_of_search; by apply Hu). clear Hu.
    destruct (search c s) as [|a [|b l]]; [by apply elem_of_nil in Hm|by f_equal; symmetry; apply Hu'; left|].
    exfalso. apply NoDup_cons in Hnd as [Hn _]. apply Hn.
    rewrite <-(Hu' a), (Hu' b) by set_solver. by left.
  - intros [m Hm]. exists m. split.
    + apply elem_of_search. rewrite Hm. by left.
    + intros m' Hm'%elem_of_search. rewrite Hm in Hm'. by apply list_elem_of_singleton in Hm'.
Qed.

(** C36: a write is accepted exactly when the run-time declaration lists it, and
    needs no annotation exactly when it lists it once.  A wildcard anywhere in
    the declaration accepts every component. *)
Theorem declared_exactly c s :
  decl_ok s = true →
  match declared_types s with
  | Some l => ((∃ m, declared_in c s m) ↔ c ∈ l) ∧ ((exists ! m, declared_in c s m) ↔ occurrences c l = 1)
  | None => ∃ m, declared_in c s m
  end.
Proof.
  intros Hok. pose proof (search_counts_types c s Hok) as Hs.
  assert ((∃ m, declared_in c s m) ↔ length (search c s) ≠ 0) as Hex.
  { setoid_rewrite <-elem_of_search. destruct (search c s) as [|m l]; simpl.
    - split; [by intros (? & ?%elem_of_nil)|done].
    - split; [done|]. intros _. exists m. by left. }
  destruct (declared_types s) as [l|]; [|apply Hex; lia].
  rewrite Hex, search_unique, Hs. split; [|done]. symmetry. apply occurrences_pos.
Qed.

(** ** Strict spawns *)

Lemma declared_in_bundle c b m : declared_in c (bundle_decl b) m → c ∈ b.
Proof.
  revert m. unfold bundle_decl. induction b as [|a b IH]; intros m Hm; inversion Hm; subst.
  - match goal with Hd : declared_in _ (DComponent _) _ |- _ => inversion Hd; subst end. by left.
  - right. by eapply IH.
Qed.

Lemma parts_cons d ds (parts : list FacetPart) :
  mapM shape_part (d :: ds) = Some parts →
  ∃ part parts', shape_part d = Some part ∧ mapM shape_part ds = Some parts' ∧ parts = part :: parts'.
Proof.
  intros Hp%mapM_Some. apply Forall2_cons_inv_l in Hp as (part & parts' & ? & ?%mapM_Some & ->). eauto.
Qed.

(** A facet: the parts, and membership in its declaration. *)
Lemma declared_in_facet ds (parts : list FacetPart) c m :
  mapM shape_part ds = Some parts → declared_in c (DTuple ds) m → c ∈ part_type <$> parts.
Proof.
  revert parts m. induction ds as [|d ds IH]; intros parts m Hp Hm; [inversion Hm|].
  apply parts_cons in Hp as (part & parts' & Hpart & Hparts & ->). rewrite fmap_cons. apply elem_of_cons. inversion Hm; subst.
  - left. match goal with Hd : declared_in _ d _ |- _ => rename Hd into Hd0 end.
    destruct d as [|ty|[|ty|?|?]|?]; simplify_eq/=; inversion Hd0; subst; simpl; [done|].
    by match goal with Hd : declared_in _ (DComponent _) _ |- _ => inversion Hd end.
  - right. by eapply IH.
Qed.

Lemma required_part_facet b ds ms (parts : list FacetPart) ty :
  mapM shape_part ds = Some parts → Forall2 (required_part_in b) ds ms → ty ∈ required_types parts → ty ∈ b.
Proof.
  intros Hp Hf. revert parts Hp. induction Hf as [|d m ds ms Hd _ IH]; intros parts Hp.
  - simpl in Hp. injection Hp as <-. by intros ?%elem_of_nil.
  - apply parts_cons in Hp as (part & parts' & Hpart & Hparts & ->).
    unfold required_types. rewrite filter_cons. destruct Hd as [d|c m Hc].
    + destruct d as [|ty'|?|?]; simplify_eq/=. by apply IH.
    + injection Hpart as <-. simpl. rewrite elem_of_cons. intros [->|Hin]; [by eapply declared_in_bundle|by eapply IH].
Qed.

(** A bundle that spawns as a facet is within it, and complete for it. *)
Lemma matches_facet b h m parts :
  matches_shape b h m → facet_parts (Some h) = Some parts →
  (∀ ty, ty ∈ b → ty ∈ part_type <$> parts) ∧ (∀ ty, ty ∈ required_types parts → ty ∈ b).
Proof.
  intros [[_ Hb] Hc] Hp. destruct h as [| |?|ds]; try done. unfold facet_parts in Hp.
  case_bool_decide as Hl; [|done]. split.
  - intros ty Hty. apply list_elem_of_lookup in Hty as [i Hi].
    destruct (Forall2_lookup_l _ _ _ _ _ Hb Hi) as (mk & _ & Hd). by eapply declared_in_facet.
  - intros ty Hty. inversion Hc; subst. by eapply required_part_facet.
Qed.

Lemma declared_in_types c s m l : declared_in c s m → declared_types s = Some l → c ∈ l.
Proof.
  intros Hd. revert l. induction Hd as [| |d m _ IH|d ds m _ _ IH|d ds m _ _ IH]; intros l Hl.
  - injection Hl as <-. by left.
  - done.
  - by apply IH.
  - change (concat_option (declared_types d :: (declared_types <$> ds)) = Some l) in Hl.
    rewrite concat_option_cons in Hl.
    destruct (declared_types d), (concat_option (declared_types <$> ds)); simplify_eq. apply elem_of_app. left. by apply IH.
  - change (concat_option (declared_types d :: (declared_types <$> ds)) = Some l) in Hl.
    rewrite concat_option_cons in Hl. change (concat_option (declared_types <$> ds)) with (declared_types (DTuple ds)) in Hl.
    destruct (declared_types d), (declared_types (DTuple ds)); simplify_eq. apply elem_of_app. right. by apply IH.
Qed.

Lemma spawns_shape b s m h :
  spawns_as b s m (Some h) →
  (∃ mh, matches_shape b h mh) ∧ ∀ l ty, declared_types s = Some l → ty ∈ b → ty ∈ l.
Proof.
  assert (∀ shape, spawns_as b s m shape → shape = Some h →
    (∃ mh, matches_shape b h mh) ∧ ∀ l ty, declared_types s = Some l → ty ∈ b → ty ∈ l) as Hgen; [|intros Hs; by eapply Hgen].
  intros shape Hs Heq. induction Hs as [h' hs mh _ Hm|h' hs m shape _ _ IH|]; [simplify_eq| |done].
  - split; [by exists mh|]. intros l ty Hl Hty. destruct Hm as [[_ Hb] _].
    apply list_elem_of_lookup in Hty as [i Hi].
    destruct (Forall2_lookup_l _ _ _ _ _ Hb Hi) as (mk & _ & Hd).
    change (concat_option (declared_types h :: (declared_types <$> hs)) = Some l) in Hl. rewrite concat_option_cons in Hl.
    destruct (declared_types h) eqn:Hh, (concat_option (declared_types <$> hs)); simplify_eq.
    apply elem_of_app. left. by eapply declared_in_types.
  - destruct (IH Heq) as [? IHl]. split; [done|]. intros l ty Hl Hty.
    change (concat_option (declared_types h' :: (declared_types <$> hs)) = Some l) in Hl. rewrite concat_option_cons in Hl.
    change (concat_option (declared_types <$> hs)) with (declared_types (DTuple hs)) in Hl.
    destruct (declared_types h'), (declared_types (DTuple hs)); simplify_eq. apply elem_of_app. right. by eapply IHl.
Qed.

(** ** At the commit *)

Section declare.
Context `{RelationshipLaws} `{HashOrder}.
Implicit Types (w : World) (e : Entity) (ty : TypeId).

(** Relationship maintenance touches no row of an ordinary component. *)
Lemma maintain_only n X w e p q w' Q :
  wf X w → (∀ inv t, p = Some (inv, t) → is_Some (edge_of inv)) →
  (∀ inv t, q = Some (inv, t) → is_Some (edge_of inv)) → inverses w Q →
  maintain_edges (relops (S n)) w e p q = Done w' →
  ∀ ty' e', edge_of ty' = None → row w' ty' e' = row w ty' e'.
Proof.
  intros Hwf Hp Hq Hw Hrun ty' e' Hty. unfold maintain_edges in Hrun. case_bool_decide; [|by injection Hrun as <-].
  apply bind_Done in Hrun as (w1 & Hx1 & Hx2).
  assert (wf X w1 ∧ (∃ Q', inverses w1 Q') ∧ row w1 ty' e' = row w ty' e') as (Hwf1 & [Q' Hw1] & <-).
  { destruct p as [[inv t]|]; [|injection Hx1 as <-; eauto].
    destruct (inverses_remove _ _ _ _ _ _ _ _ Hwf (Hp _ _ eq_refl) Hw Hx1) as (? & ? & Honly).
    split_and!; [done|by eexists|]. apply Honly. intros [-> _]. destruct (Hp _ _ eq_refl). congruence. }
  destruct q as [[inv t]|]; [|by injection Hx2 as <-].
  destruct (inverses_add _ _ _ _ _ _ _ _ Hwf1 (Hq _ _ eq_refl) Hw1 Hx2) as (_ & _ & Honly).
  apply Honly. intros [-> _]. destruct (Hq _ _ eq_refl). congruence.
Qed.

(** Ordinary rows survive: those of [w] are in [w']. *)
Definition plain_rows_kept w w' : Prop :=
  ∀ ty e, edge_of ty = None → is_Some (row w ty e) → is_Some (row w' ty e).

Lemma insert_value_plain n X w e ty v owner w' :
  wf X w → rel_ok w → edge_of ty = None → insert_value (relops (S n)) w e ty v owner = Done w' →
  plain_rows_kept w w' ∧ is_Some (row w' ty e).
Proof.
  intros Hwf Hrel Hty. unfold insert_value. intros ([w1 pe] & Hins & Hm)%bind_Done.
  destruct (insert_row_values _ _ _ _ _ _ _ _ Hwf Hins) as (Hwf1 & -> & Hval & Hrow & _ & Hsome).
  assert (only_row w w1 ty e) as Honly.
  { intros ty' e' Hne. split; [by apply Hrow|]. by rewrite Hval, decide_False. }
  pose proof (inverses_other _ _ _ _ _ Hty Honly Hrel) as Hw1.
  pose proof (maintain_only n X w1 e _ _ w' _ Hwf1
    (λ inv t Hx, ex_intro _ _ (edge_target_of _ _ _ _ _ Hx))
    (λ inv t Hx, ex_intro _ _ (value_edge_inverse _ _ _ _ Hx)) Hw1 Hm) as Hkeep.
  split; [|by rewrite Hkeep]. intros ty' e' Hty' Hs. rewrite Hkeep by done.
  destruct (decide (ty' = ty ∧ e' = e)) as [[-> ->]|Hne]; [done|by rewrite Hrow].
Qed.

(** A component that reaches its row at the latest when anchors resolve. *)
Definition landed w ty e : Prop :=
  is_Some (row w ty e) ∨ ty = ct_derived_from ∧ ∃ anchors o, (e, anchors, o) ∈ pending_derived_from w.

(** Values have the type they are stored at. *)
Definition well_typed ty (v : Value) : Prop :=
  edge_of ty = None ∧ ∀ anchors, v = Derived anchors → ty = ct_derived_from.

Record insert_lands_at w w' ty e : Prop := {
  il_row : landed w' ty e;
  il_kept ty' e' : edge_of ty' = None → landed w ty' e' → landed w' ty' e';
}.

Lemma insert_value_lands n X w e ty v owner w' :
  wf X w → rel_ok w → edge_of ty = None → insert_value (relops (S n)) w e ty v owner = Done w' →
  insert_lands_at w w' ty e.
Proof.
  intros Hwf Hrel Hty Hi. destruct (insert_value_plain _ _ _ _ _ _ _ _ Hwf Hrel Hty Hi) as [Hk Hr].
  apply insert_value_kept in Hi as [_ Hp _]; [|apply relops_keep]. split; [by left|].
  intros ty' e' Hty' [?|(-> & a & o & Ha)]; [left; by apply Hk|]. right. rewrite Hp. eauto.
Qed.

Lemma insert_lands X w e ty v owner w' :
  wf X w → rel_ok w → well_typed ty v → insert w e ty v owner = Done w' → insert_lands_at w w' ty e.
Proof.
  intros Hwf Hrel [Hty Hd] Hi. unfold insert, insert_with in Hi. destruct v as [p|anchors].
  - by eapply (insert_value_lands 7).
  - destruct (flushing_anchors w); [by eapply (insert_value_lands 7)|]. injection Hi as <-. split.
    + right. split; [by eapply Hd|]. exists anchors, owner. apply elem_of_app. right. by left.
    + intros ty' e' _ [?|(-> & a & o & Ha)]; [by left|]. right. split; [done|]. exists a, o. apply elem_of_app. by left.
Qed.

Lemma bundle_lands X w e owner (b : list (TypeId * Value)) w' :
  wf X w → rel_ok w → (∀ ty v, (ty, v) ∈ b → well_typed ty v) → bundle_insert_derived w e owner b = Done w' →
  wf X w' ∧ rel_ok w' ∧ ∀ ty, ty ∈ b.*1 → landed w' ty e.
Proof.
  intros Hwf Hrel Htyped. unfold bundle_insert_derived.
  assert (∀ seen w, wf X w → rel_ok w → (∀ ty, ty ∈ seen → landed w ty e) → (∀ ty, ty ∈ seen → edge_of ty = None) →
    fold_result (λ w '(ty, v), insert_derived w e ty v owner) w b = Done w' →
    wf X w' ∧ rel_ok w' ∧ ∀ ty, ty ∈ seen ++ b.*1 → landed w' ty e) as Hgen.
  2:{ intros Hf. apply (Hgen [] w); try done; by intros ty ?%elem_of_nil. }
  clear w Hwf Hrel. induction b as [|[ty v] b IH]; intros seen w Hwf Hrel Hl He Hf; cbn [fold_result] in Hf.
  - injection Hf as <-. rewrite app_nil_r. done.
  - apply bind_Done in Hf as (w1 & Hi & Hf).
    destruct (Htyped ty v) as [Hty Hd]; [by left|].
    destruct (insert_good _ _ _ _ _ _ _ Hwf Hi) as [[Hwf1 _] _].
    pose proof (insert_rel _ _ _ _ _ _ _ Hwf Hrel Hty Hi) as Hrel1.
    destruct (insert_lands _ _ _ _ _ _ _ Hwf Hrel (conj Hty Hd) Hi) as [Hr Hk].
    simpl. rewrite cons_middle, app_assoc. eapply IH; [|exact Hwf1|exact Hrel1| | |exact Hf].
    + intros ty' v' ?. apply Htyped. by right.
    + intros ty' [?| ->%list_elem_of_singleton]%elem_of_app; [apply Hk; auto|exact Hr].
    + intros ty' [?| ->%list_elem_of_singleton]%elem_of_app; auto.
Qed.

(** Resolving the anchors lands every pending row. *)
Lemma flush_lands X w w' :
  wf X w → rel_ok w → flush_derived_from w = Done w' →
  ∀ ty e, edge_of ty = None → landed w ty e → is_Some (row w' ty e).
Proof.
  intros Hwf Hrel Hf ty e Hty Hl. unfold flush_derived_from in Hf. case_bool_decide as Hp.
  { injection Hf as <-. destruct Hl as [?|(_ & a & o & Ha)]; [done|]. rewrite Hp in Ha. by apply elem_of_nil in Ha. }
  apply bind_Done in Hf as (w1 & Hfold & [= <-]). change (is_Some (row w1 ty e)).
  set (w0 := set_flushing_anchors true _) in *.
  assert (good X w w0) as [Hwf0 _] by (by apply frame_good).
  assert (rel_ok w0) as Hrel0 by (by apply (rel_ok_frame w)).
  assert (flushing_anchors w0 = true) as Hfl by done.
  assert (is_Some (row w0 ty e) ∨ ty = ct_derived_from ∧ ∃ a o, (e, a, o) ∈ pending_derived_from w) as Hl0 by exact Hl.
  clear Hl Hp Hwf Hrel. clearbody w0. revert w0 Hwf0 Hrel0 Hfl Hl0 Hfold.
  induction (pending_derived_from w) as [|[[e1 a1] o1] l IH]; intros w0 Hwf0 Hrel0 Hfl Hl Hfold; cbn [fold_result] in Hfold.
  { injection Hfold as <-. by destruct Hl as [?|(_ & a & o & ?%elem_of_nil)]. }
  apply bind_Done in Hfold as (w2 & Hi & Hfold).
  destruct (insert_good _ _ _ _ _ _ _ Hwf0 Hi) as [[Hwf2 _] _].
  pose proof (insert_rel _ _ _ _ _ _ _ Hwf0 Hrel0 inverse_not_derived Hi) as Hrel2.
  change ((if flushing_anchors w0
    then insert_value the_relops w0 e1 ct_derived_from (Derived (derived_capture (entity_revision w0) a1)) o1
    else Done (set_pending_derived_from (pending_derived_from w0 ++ [(e1, a1, o1)]) w0)) = Done w2) in Hi.
  rewrite Hfl in Hi.
  destruct (insert_value_plain 7 _ _ _ _ _ _ _ Hwf0 Hrel0 inverse_not_derived Hi) as [Hk Hr].
  apply insert_value_kept in Hi as [_ _ Hfl2]; [|apply relops_keep].
  apply (IH w2); try done; [congruence|].
  destruct Hl as [?|(-> & a & o & [[= -> -> ->]|?]%elem_of_cons)].
  - left. by apply Hk.
  - by left.
  - right. eauto.
Qed.

(** The schema entry [derive(Schema)] generates for a shape. *)
Definition describes (shape : ShapeDesc) (parts : list FacetPart) : Prop :=
  shape_required shape = required_types parts ∧
  shape_optional shape = part_type <$> filter (λ p, part_optional p = true) parts.

Lemma describes_types shape (parts : list FacetPart) ty :
  describes shape parts → ty ∈ part_type <$> parts → ty ∈ shape_required shape ∨ ty ∈ shape_optional shape.
Proof.
  intros [-> ->] (p & -> & Hp)%list_elem_of_fmap. unfold required_types.
  destruct (part_optional p) eqn:Ho; [right|left]; apply list_elem_of_fmap_2, list_elem_of_filter; done.
Qed.

(** A bundle within a shape that is complete on the entity conforms. *)
Lemma complete_conforms w schema shape (parts : list FacetPart) e (b : list TypeId) :
  shape ∈ schema → describes shape parts → (∀ ty, ty ∈ b → ty ∈ part_type <$> parts) →
  (∀ ty, ty ∈ required_types parts → is_Some (row w ty e)) →
  check_shape_conformance w schema e b = Done () ∧ row_matches w (ParamEntity parts) e = true.
Proof.
  intros Hs Hd Hb Hr. split; [|by apply probe_spec].
  apply conformance_exact. exists shape. split_and!; [done| |].
  - intros ty Hty. eapply describes_types; eauto.
  - destruct Hd as [-> _]. done.
Qed.

(** A spawn the compiler accepts conforms.  If the proof search finds that a
    bundle spawns as shape [h] of the declaration, and [h] is a shape of the
    schema, then once the bundle is inserted and its anchors are resolved the
    conformance check of the commit accepts it, the typed handle the spawn
    returned holds, and the run-time declaration covers every component. *)
Theorem strict_spawn_conforms X w e owner (b : list (TypeId * Value)) s m h parts schema shape w1 w2 :
  wf X w → rel_ok w → (∀ ty v, (ty, v) ∈ b → well_typed ty v) →
  spawns_as b.*1 s m (Some h) → facet_parts (Some h) = Some parts → shape ∈ schema → describes shape parts →
  bundle_insert_derived w e owner b = Done w1 → flush_derived_from w1 = Done w2 →
  check_shape_conformance w2 schema e b.*1 = Done () ∧ row_matches w2 (ParamEntity parts) e = true ∧
  ∀ l ty, declared_types s = Some l → ty ∈ b.*1 → ty ∈ l.
Proof.
  intros Hwf Hrel Htyped Hspawn Hparts Hs Hd Hins Hflush.
  destruct (spawns_shape _ _ _ _ Hspawn) as [[mh Hm] Hdecl]. destruct (matches_facet _ _ _ _ Hm Hparts) as [Hin Hreq].
  destruct (bundle_lands _ _ _ _ _ _ Hwf Hrel Htyped Hins) as (Hwf1 & Hrel1 & Hland).
  assert (check_shape_conformance w2 schema e b.*1 = Done () ∧ row_matches w2 (ParamEntity parts) e = true) as [? ?]; [|done].
  eapply complete_conforms; eauto.
  intros ty Hty%Hreq. eapply (flush_lands X w1); eauto.
  apply list_elem_of_fmap in Hty as ([ty' v] & -> & Hx). by destruct (Htyped _ _ Hx).
Qed.

Lemma increment_optional c ds m (parts : list FacetPart) :
  increment_of c (Some (DTuple ds)) m → mapM shape_part ds = Some parts → c ∈ part_type <$> parts.
Proof.
  revert m parts. induction ds as [|d ds IH]; intros m parts Hi Hp; [inversion Hi|].
  apply parts_cons in Hp as (part & parts' & Hpart & Hparts & ->). rewrite fmap_cons. apply elem_of_cons.
  inversion Hi as [| |d' ds' m' _ Hd|d' ds' m' _ Hd]; subst; [left|right; by eapply IH].
  destruct d as [|ty|[|ty|?|?]|?]; simplify_eq/=; by inversion Hd.
Qed.

(** A write through a facet handle keeps the shape complete. *)
Lemma facet_write_conforms X w e owner c v h parts m schema shape w1 w2 :
  wf X w → rel_ok w → well_typed c v → increment_of c (Some h) m → facet_parts (Some h) = Some parts →
  shape ∈ schema → describes shape parts → (∀ ty, ty ∈ required_types parts → edge_of ty = None) →
  row_matches w (ParamEntity parts) e = true →
  insert_derived w e c v owner = Done w1 → flush_derived_from w1 = Done w2 →
  check_shape_conformance w2 schema e [c] = Done () ∧ row_matches w2 (ParamEntity parts) e = true.
Proof.
  intros Hwf Hrel Ht Hi Hparts Hs Hd Hplain Hmatch Hins Hflush.
  destruct (bundle_lands X w e owner [(c, v)] w1) as (Hwf1 & Hrel1 & _); [done|done| | |].
  { by intros ty v' [= -> ->]%list_elem_of_singleton. }
  { unfold bundle_insert_derived. cbn [fold_result]. by rewrite Hins. }
  eapply complete_conforms; eauto.
  - intros ty ->%list_elem_of_singleton. destruct h as [| |?|ds]; try done. unfold facet_parts in Hparts.
    case_bool_decide; [|done]. by eapply increment_optional.
  - intros ty Hty. eapply (flush_lands X w1); eauto. destruct (insert_lands _ _ _ _ _ _ _ Hwf Hrel Ht Hins) as [_ Hk].
    apply Hk; [auto|]. left. change (probe w (required_types parts) e = true) in Hmatch. rewrite probe_spec in Hmatch. auto.
Qed.
End declare.

(** ** A spawn of a number with its edge, and one missing the edge *)

Definition demo_shape : Decl := DTuple [DComponent ty_num; DComponent ty_edge; DOption (DComponent ty_marker)].
Definition demo_decl : Decl := DTuple [DTuple [DComponent ty_marker]; demo_shape].
Definition demo_spawn : list (TypeId * Value) := [(ty_num, v_num 5); (ty_edge, v_edge 9)].
Definition demo_facet : list FacetPart :=
  [MkFacetPart ty_num false; MkFacetPart ty_edge false; MkFacetPart ty_marker true].
Definition demo_spawned : World := run demo_w0 (bundle_insert_derived demo_w0 7 demo_owner demo_spawn).

Lemma declared_exactly_witness :
  (∃ m, declared_in ty_edge demo_decl m) ∧ ¬ (exists ! m, declared_in ty_marker demo_decl m).
Proof.
  pose proof (declared_exactly ty_edge demo_decl eq_refl) as [He _].
  pose proof (declared_exactly ty_marker demo_decl eq_refl) as [_ Hm].
  split; [apply He; by do 2 right; left|]. intros Hu%Hm. vm_compute in Hu. discriminate.
Defined.

Lemma demo_spawns_as :
  spawns_as [ty_num; ty_edge] demo_decl
    (SpawnThere (SpawnHere ([Here ExactMatch; There (Here ExactMatch)],
       CoverParts [RequiredHere (Here ExactMatch); RequiredHere (There (Here ExactMatch)); OptionalSkip])))
    (Some demo_shape).
Proof.
  apply spawns_there; [vm_compute; lia|]. apply spawns_here; [vm_compute; lia|]. split.
  - split; [vm_compute; lia|]. repeat constructor; vm_compute; lia.
  - constructor; [vm_compute; lia|]. repeat constructor; vm_compute; lia.
Qed.

(** The compiler rejects the bundle without its edge. *)
Example demo_partial_rejected m h : ¬ spawns_as [ty_num] demo_decl m (Some h).
Proof.
  intros Hs. inversion Hs as [? ? ? _ [[_ Hb] _]|? ? ? ? _ Hs'|]; subst.
  - apply Forall2_cons_inv_l in Hb as (? & ? & Hd & _). by apply elem_of_search, elem_of_nil in Hd.
  - inversion Hs' as [? ? ? _ [_ Hc]|? ? ? ? _ Hs2|]; subst; [|inversion Hs2].
    inversion Hc as [|? ? _ Hf]; subst. apply Forall2_cons_inv_l in Hf as (? & ? & _ & Hf & _).
    apply Forall2_cons_inv_l in Hf as (? & ? & Hp & _ & _). inversion Hp as [|? ? Hd]; subst.
    by apply elem_of_search, elem_of_nil in Hd.
Qed.

Lemma demo_rel_w0 : rel_ok demo_w0.
Proof. apply (init_ok demo_shapes). exact demo_init. Qed.

Lemma demo_spawn_typed ty v : (ty, v) ∈ demo_spawn → well_typed ty v.
Proof.
  unfold demo_spawn. intros [[= -> ->]|[= -> ->]%list_elem_of_singleton]%elem_of_cons; by split.
Qed.

Lemma strict_spawn_conforms_witness :
  check_shape_conformance demo_spawned demo_shapes 7 [ty_num; ty_edge] = Done () ∧
  row_matches demo_spawned (ParamEntity demo_facet) 7 = true ∧
  ∀ l ty, declared_types demo_decl = Some l → ty ∈ [ty_num; ty_edge] → ty ∈ l.
Proof.
  eapply (strict_spawn_conforms nothing_taken demo_w0 7 demo_owner demo_spawn demo_decl _ demo_shape demo_facet
    demo_shapes (MkShape 0 [ty_num; ty_edge] [ty_marker])).
  - exact demo_wf0.
  - exact demo_rel_w0.
  - exact demo_spawn_typed.
  - exact demo_spawns_as.
  - reflexivity.
  - by left.
  - by split.
  - vm_compute. reflexivity.
  - vm_compute. reflexivity.
Defined.
