(* ===== verification/Macros.v ===== *)
(** * The derive macros ([crates/macros/src/lib.rs])

    Three derives turn the tokens of a type definition into trait
    implementations: [Component] with its attributes, [Schema] with its shapes,
    and [SystemParam] for bundles of ambient parameters.  Token streams are the
    compiler's, so a token tree is an inductive type here; the parsers are
    functions on streams, and what a derive generates is kept as data instead
    of source text.  The theorems: a schema printed as a struct is read back
    exactly; attributes that contradict each other are rejected; substituting a
    lifetime leaves no use of it. *)
From Stdlib Require Import Ascii.
From stdpp Require Import base numbers strings list.

(** ** Token streams ([proc_macro]) *)

Inductive Delimiter := Parenthesis | Brace | Bracket | NoDelimiter.
#[export] Instance Delimiter_eq_dec : EqDecision Delimiter.
Proof. solve_decision. Defined.

Inductive TokenTree :=
  | TGroup (d : Delimiter) (stream : list TokenTree)
  | TIdent (name : string)
  | TPunct (c : ascii)
  | TLiteral (text : string).

Definition is_punct (c : ascii) (t : TokenTree) : bool :=
  match t with TPunct c' => bool_decide (c' = c) | _ => false end.

Local Open Scope string_scope.

Section macros.
(** [to_string] of a group: the compiler chooses its spacing. *)
Variable group_string : Delimiter → list TokenTree → string.

Definition token_string (t : TokenTree) : string :=
  match t with
  | TIdent s | TLiteral s => s
  | TPunct c => String c ""
  | TGroup d ts => group_string d ts
  end.

(** ** Attributes *)

Definition attribute_contains_component_ident (attribute : list TokenTree) (needle : string) : bool :=
  match attribute with
  | TIdent ident :: tokens =>
      bool_decide (ident = "component") &&
      existsb (λ token, match token with
                        | TGroup Parenthesis stream =>
                            existsb (λ inner, match inner with TIdent i => bool_decide (i = needle) | _ => false end) stream
                        | _ => false
                        end) tokens
  | _ => false
  end.

Fixpoint component_attribute_contains (input : list TokenTree) (needle : string) : bool :=
  match input with
  | [] => false
  | TPunct c :: rest =>
      if bool_decide (c = "#"%char)
      then match rest with
           | TGroup Bracket attribute :: rest =>
               attribute_contains_component_ident attribute needle || component_attribute_contains rest needle
           | _ :: rest => component_attribute_contains rest needle
           | [] => false
           end
      else component_attribute_contains rest needle
  | _ :: rest => component_attribute_contains rest needle
  end.

Definition has_hash_attribute input := component_attribute_contains input "hash".
Definition has_untracked_attribute input := component_attribute_contains input "untracked".
Definition has_revision_attribute input := component_attribute_contains input "revision".

(** The first non-empty [key = value] of an argument list; [value] is the text
    collected so far. *)
Fixpoint argument_value (key : string) (value : option string) (args : list TokenTree) : option string :=
  match args with
  | [] => match value with Some v => if bool_decide (v = "") then None else Some v | None => None end
  | token :: args =>
      match value with
      | Some v =>
          if is_punct "," token
          then if bool_decide (v = "") then argument_value key None args else Some v
          else argument_value key (Some (v ++ token_string token)) args
      | None =>
          match token with
          | TIdent ident =>
              if bool_decide (ident = key)
              then match args with
                   | eq :: args => argument_value key (if is_punct "=" eq then Some "" else None) args
                   | [] => None
                   end
              else argument_value key None args
          | _ => argument_value key None args
          end
      end
  end.

(** [attribute(key = value)] inside the brackets. *)
Definition bracket_value (group : list TokenTree) (attribute key : string) : option string :=
  match group with
  | TIdent name :: TGroup Parenthesis args :: _ =>
      if bool_decide (name = attribute) then argument_value key None args else None
  | _ => None
  end.

Fixpoint attribute_value (input : list TokenTree) (attribute key : string) : option string :=
  match input with
  | [] => None
  | TPunct c :: rest =>
      if bool_decide (c = "#"%char)
      then match rest with
           | TGroup Bracket group :: rest =>
               match bracket_value group attribute key with
               | Some v => Some v
               | None => attribute_value rest attribute key
               end
           | _ :: rest => attribute_value rest attribute key
           | [] => None
           end
      else attribute_value rest attribute key
  | _ :: rest => attribute_value rest attribute key
  end.

Fixpoint type_name_from (saw_type_keyword : bool) (input : list TokenTree) : option string :=
  match input with
  | [] => None
  | TIdent ident :: rest =>
      if bool_decide (ident = "struct") || bool_decide (ident = "enum") then type_name_from true rest
      else if saw_type_keyword then Some ident else type_name_from false rest
  | _ :: rest => type_name_from saw_type_keyword rest
  end.
Definition type_name (input : list TokenTree) : option string := type_name_from false input.

(** ** [derive(Component)] *)

(** How the generated [fingerprint] is computed; [FpDefault] is the trait's. *)
Inductive FingerprintImpl := FpDefault | FpRevision | FpHash | FpMembers.

Record ComponentImpl := MkComponentImpl {
  ci_name : string;
  ci_tracked : bool;
  ci_fingerprint : FingerprintImpl;
  ci_edge : option string;
  ci_inverse : option string;
}.

Inductive DeriveError :=
  | NotAType | HashAndRevision | InverseFingerprint | EdgeAndInverse
  | NotNamedFields | NoShape | EmptyShape | ShapeTooWide (field : string) (width : nat)
  | NotAStruct | MalformedLifetime | TwoLifetimes | TypeParameters | UnterminatedGenerics | MissingBody
  | ExpectedColon (field : string) | EmptyType (field : string) | NoBundleField.

Definition derive_component (input : list TokenTree) : DeriveError + ComponentImpl :=
  let use_hash := has_hash_attribute input in
  let untracked := has_untracked_attribute input in
  let use_revision := has_revision_attribute input in
  let edge_target := attribute_value input "relationship" "target" in
  let target_edge := attribute_value input "relationship_target" "relationship" in
  match type_name input with
  | None => inl NotAType
  | Some name =>
      if use_revision && use_hash then inl HashAndRevision
      else if bool_decide (is_Some target_edge) && (use_hash || use_revision) then inl InverseFingerprint
      else if bool_decide (is_Some edge_target) && bool_decide (is_Some target_edge) then inl EdgeAndInverse
      else inr (MkComponentImpl name (negb untracked)
                  (if use_revision then FpRevision else if use_hash then FpHash
                   else if bool_decide (is_Some target_edge) then FpMembers else FpDefault)
                  edge_target target_edge)
  end.

(** ** [derive(Schema)] *)

(** The first group in braces. *)
Fixpoint struct_body (input : list TokenTree) : option (list TokenTree) :=
  match input with
  | [] => None
  | TGroup Brace stream :: _ => Some stream
  | _ :: rest => struct_body rest
  end.

Definition push_element (elements : list string) (current : string) : list string :=
  if bool_decide (current = "") then elements else (elements ++ [current])%list.

(** The elements of a tuple, split at commas outside angle brackets. *)
Fixpoint tuple_elements (elements : list string) (current : string) (depth : nat) (tuple : list TokenTree)
    : list string :=
  match tuple with
  | [] => push_element elements current
  | token :: tuple =>
      if is_punct "," token && bool_decide (depth = 0)
      then tuple_elements (push_element elements current) "" depth tuple
      else if is_punct "<" token then tuple_elements elements (current ++ "<") (S depth) tuple
      else if is_punct ">" token then tuple_elements elements (current ++ ">") (pred depth) tuple
      else tuple_elements elements (current ++ token_string token) depth tuple
  end.

Fixpoint strip_prefix (prefix s : string) : option string :=
  match prefix, s with
  | "", _ => Some s
  | String a prefix, String b s => if bool_decide (a = b) then strip_prefix prefix s else None
  | String _ _, "" => None
  end.

(** [strip_suffix] of one character. *)
Fixpoint strip_last (c : ascii) (s : string) : option string :=
  match s with
  | "" => None
  | String a "" => if bool_decide (a = c) then Some "" else None
  | String a s => match strip_last c s with Some s => Some (String a s) | None => None end
  end.

(** [Option<T>] marks an optional part. *)
Definition classify (element : string) : string * bool :=
  match strip_prefix "Option<" element with
  | Some rest => match strip_last ">" rest with Some inner => (inner, true) | None => (element, false) end
  | None => (element, false)
  end.

Fixpoint body_fields (tokens : list TokenTree) : option (list (string * list (string * bool))) :=
  match tokens with
  | [] => Some []
  | TIdent field :: rest =>
      match rest with
      | colon :: rest =>
          if is_punct ":" colon
          then match rest with
               | TGroup Parenthesis tuple :: rest =>
                   let fields := match rest with
                                 | comma :: rest' => if is_punct "," comma then body_fields rest' else body_fields rest
                                 | [] => body_fields rest
                                 end in
                   match fields with
                   | Some fields => Some ((field, classify <$> tuple_elements [] "" 0 tuple) :: fields)
                   | None => None
                   end
               | _ => None
               end
          else body_fields rest
      | [] => Some []
      end
  | _ :: rest => body_fields rest
  end.

Definition named_fields (input : list TokenTree) : option (list (string * list (string * bool))) :=
  match struct_body input with Some body => body_fields body | None => None end.

Definition is_uppercase (c : ascii) : bool := (65 <=? nat_of_ascii c)%nat && (nat_of_ascii c <=? 90)%nat.
Definition is_lowercase (c : ascii) : bool := (97 <=? nat_of_ascii c)%nat && (nat_of_ascii c <=? 122)%nat.
Definition to_lowercase (c : ascii) : ascii :=
  if is_uppercase c then ascii_of_nat (nat_of_ascii c + 32)%nat else c.
Definition to_uppercase (c : ascii) : ascii :=
  if is_lowercase c then ascii_of_nat (nat_of_ascii c - 32)%nat else c.

Fixpoint snake_from (first : bool) (pascal : string) : string :=
  match pascal with
  | "" => ""
  | String ch pascal =>
      if is_uppercase ch
      then (if first then "" else "_") ++ String (to_lowercase ch) (snake_from false pascal)
      else String ch (snake_from false pascal)
  end.
Definition snake_case (pascal : string) : string := snake_from true pascal.

(** The parts between underscores, each with its first character raised:
    [start] holds at the start of a part. *)
Fixpoint pascal_from (start : bool) (snake : string) : string :=
  match snake with
  | "" => ""
  | String ch snake =>
      if bool_decide (ch = "_"%char) then pascal_from true snake
      else String (if start then to_uppercase ch else ch) (pascal_from false snake)
  end.
Definition pascal_case (snake : string) : string := pascal_from true snake.

Definition SHAPE_WIDTH_CAP : nat := 12.

(** A generated [ShapeDesc], and the alias of the shape's tuple. *)
Record ShapeImpl := MkShapeImpl {
  si_field : string;
  si_alias : string;
  si_required : list string;
  si_optional : list string;
  si_tuple : list (string * bool);
}.
Record SchemaImpl := MkSchemaImpl { sc_name : string; sc_module : string; sc_shapes : list ShapeImpl }.

Definition shape_impl (field : string * list (string * bool)) : DeriveError + ShapeImpl :=
  let '(name, elements) := field in
  if bool_decide (elements = []) then inl EmptyShape
  else if bool_decide (SHAPE_WIDTH_CAP < length elements)%nat then inl (ShapeTooWide name (length elements))
  else inr (MkShapeImpl name (pascal_case name)
              (fst <$> filter (λ x, x.2 = false) elements) (fst <$> filter (λ x, x.2 = true) elements) elements).

Fixpoint shape_impls (fields : list (string * list (string * bool))) : DeriveError + list ShapeImpl :=
  match fields with
  | [] => inr []
  | field :: fields =>
      match shape_impl field with
      | inl err => inl err
      | inr shape => match shape_impls fields with inl err => inl err | inr shapes => inr (shape :: shapes) end
      end
  end.

Definition derive_schema (input : list TokenTree) : DeriveError + SchemaImpl :=
  match type_name input with
  | None => inl NotAType
  | Some name =>
      match named_fields input with
      | None => inl NotNamedFields
      | Some fields =>
          if bool_decide (fields = []) then inl NoShape
          else match shape_impls fields with
               | inl err => inl err
               | inr shapes => inr (MkSchemaImpl name (snake_case name) shapes)
               end
      end
  end.

(** ** [derive(SystemParam)] *)

Record BundleField := MkBundleField { bf_name : string; bf_type : list TokenTree }.
Record BundleSyntax := MkBundle { bs_name : string; bs_lifetime : option string; bs_fields : list BundleField }.

(** [parse_fields]: at the start of a field ([None]), or inside a type with its
    name, the angle-bracket depth and the tokens so far. *)
Fixpoint parse_fields (inside : option (string * Z * list TokenTree)) (fields : list BundleField)
    (tokens : list TokenTree) : DeriveError + list BundleField :=
  match inside with
  | None =>
      match tokens with
      | TIdent ident :: rest =>
          if bool_decide (ident = "pub")
          then match rest with
               | TGroup Parenthesis _ :: rest => parse_fields None fields rest
               | _ => parse_fields None fields rest
               end
          else match rest with
               | colon :: rest => if is_punct ":" colon then parse_fields (Some (ident, 0%Z, [])) fields rest
                                  else inl (ExpectedColon ident)
               | [] => inl (ExpectedColon ident)
               end
      | TPunct c :: rest =>
          if bool_decide (c = "#"%char)
          then match rest with _ :: rest => parse_fields None fields rest | [] => inr fields end
          else inr fields
      | _ => inr fields
      end
  | Some (name, depth, ty) =>
      match tokens with
      | [] => if bool_decide (length ty = 0) then inl (EmptyType name) else inr (fields ++ [MkBundleField name ty])%list
      | token :: rest =>
          if is_punct "," token && bool_decide (depth = 0%Z)
          then if bool_decide (length ty = 0) then inl (EmptyType name)
               else parse_fields None (fields ++ [MkBundleField name ty])%list rest
          else
            let depth := if is_punct "<" token then (depth + 1)%Z
                         else if is_punct ">" token then (depth - 1)%Z else depth in
            parse_fields (Some (name, depth, (ty ++ [token])%list)) fields rest
      end
  end.

(** The head of a bundle: its name, lifetime and body. *)
Record BundleHead := MkHead { bh_name : option string; bh_lifetime : option string; bh_body : option (list TokenTree) }.

(** [parse_bundle]'s loop; [generics] holds inside the angle brackets. *)
Fixpoint bundle_head (generics : bool) (h : BundleHead) (tokens : list TokenTree) : DeriveError + BundleHead :=
  match tokens with
  | [] => if generics then inl UnterminatedGenerics else inr h
  | token :: rest =>
      if generics
      then
        if is_punct "'" token
        then match rest with
             | TIdent lifetime :: rest =>
                 match bh_lifetime h with
                 | Some _ => inl TwoLifetimes
                 | None => bundle_head true (MkHead (bh_name h) (Some lifetime) (bh_body h)) rest
                 end
             | _ => inl MalformedLifetime
             end
        else if is_punct ">" token then bundle_head false h rest
        else if is_punct "," token then bundle_head true h rest
        else inl TypeParameters
      else
        match token with
        | TPunct c =>
            if bool_decide (c = "#"%char)
            then match rest with _ :: rest => bundle_head false h rest | [] => inr h end
            else bundle_head false h rest
        | TIdent ident =>
            if bool_decide (ident = "struct")
            then match rest with
                 | TIdent name :: rest =>
                     let h := MkHead (Some name) (bh_lifetime h) (bh_body h) in
                     match rest with
                     | open :: rest' => if is_punct "<" open then bundle_head true h rest' else bundle_head false h rest
                     | [] => bundle_head false h rest
                     end
                 | _ => inl NotAStruct
                 end
            else bundle_head false h rest
        | TGroup Brace stream => bundle_head false (MkHead (bh_name h) (bh_lifetime h) (Some stream)) rest
        | _ => bundle_head false h rest
        end
  end.

Definition parse_bundle (input : list TokenTree) : DeriveError + BundleSyntax :=
  match bundle_head false (MkHead None None None) input with
  | inl err => inl err
  | inr h =>
      match bh_name h, bh_body h with
      | None, _ => inl NotAStruct
      | Some _, None => inl MissingBody
      | Some name, Some body =>
          match parse_fields None [] body with
          | inl err => inl err
          | inr fields => if bool_decide (length fields = 0) then inl NoBundleField
                          else inr (MkBundle name (bh_lifetime h) fields)
          end
      end
  end.
End macros.

(** [substitute_lifetime]: every ['lifetime], inside groups too. *)
Definition substitute_stream (f : TokenTree → TokenTree) (lifetime : string) (replacement : list TokenTree)
    : list TokenTree → list TokenTree :=
  fix go tokens :=
    match tokens with
    | [] => []
    | token :: rest =>
        match token, rest with
        | TPunct c, TIdent ident :: rest' =>
            if bool_decide (c = "'"%char) && bool_decide (ident = lifetime)
            then (replacement ++ go rest')%list
            else TPunct c :: go rest
        | _, _ => f token :: go rest
        end
    end.

Fixpoint substitute_tree (lifetime : string) (replacement : list TokenTree) (t : TokenTree) : TokenTree :=
  match t with
  | TGroup d stream => TGroup d (substitute_stream (substitute_tree lifetime replacement) lifetime replacement stream)
  | t => t
  end.

Definition substitute_lifetime (tokens : list TokenTree) (lifetime : string) (replacement : list TokenTree)
    : list TokenTree :=
  substitute_stream (substitute_tree lifetime replacement) lifetime replacement tokens.

Close Scope string_scope.

(** ** Substitution *)

(** The lifetime is used somewhere in the stream. *)
Definition stream_mentions (f : TokenTree → bool) (lifetime : string) : list TokenTree → bool :=
  fix go tokens :=
    match tokens with
    | [] => false
    | token :: rest =>
        match token, rest with
        | TPunct c, TIdent ident :: _ => bool_decide (c = "'"%char) && bool_decide (ident = lifetime) || go rest
        | _, _ => f token || go rest
        end
    end.

Fixpoint tree_mentions (lifetime : string) (t : TokenTree) : bool :=
  match t with TGroup _ stream => stream_mentions (tree_mentions lifetime) lifetime stream | _ => false end.

Definition mentions (lifetime : string) (tokens : list TokenTree) : bool :=
  stream_mentions (tree_mentions lifetime) lifetime tokens.

(** Nested induction on token trees. *)
Lemma TokenTree_ind' (P : TokenTree → Prop) :
  (∀ d stream, Forall P stream → P (TGroup d stream)) → (∀ s, P (TIdent s)) → (∀ c, P (TPunct c)) →
  (∀ s, P (TLiteral s)) → ∀ t, P t.
Proof.
  intros Hg Hi Hp Hl. fix IH 1. intros [d stream|s|c|s]; [|done..].
  apply Hg. induction stream; constructor; [apply IH|done].
Qed.

(** Nothing to substitute, nothing substituted. *)
Lemma substitute_tree_fresh lifetime replacement t :
  tree_mentions lifetime t = false → substitute_tree lifetime replacement t = t.
Proof.
  induction t as [d stream Hs| | |] using TokenTree_ind'; try done. simpl. intros Hm. f_equal.
  induction Hs as [|token rest Ht Hrest IH]; [done|]. simpl in Hm |- *.
  assert (substitute_stream (substitute_tree lifetime replacement) lifetime replacement rest = rest →
    tree_mentions lifetime token = false → substitute_tree lifetime replacement token ::
      substitute_stream (substitute_tree lifetime replacement) lifetime replacement rest = token :: rest) as Hplain.
  { intros -> ?. by rewrite Ht. }
  destruct token; try (apply orb_false_iff in Hm as [? ?]; apply Hplain; [by apply IH|done]).
  destruct rest as [|[] rest]; try (apply orb_false_iff in Hm as [? ?]; by rewrite IH).
  apply orb_false_iff in Hm as [-> ?]. by rewrite IH.
Qed.

Lemma substitute_clean_stream lifetime new (rest : list TokenTree) :
  lifetime ≠ new → Forall (λ t, tree_mentions lifetime (substitute_tree lifetime [TPunct "'"; TIdent new] t) = false) rest →
  stream_mentions (tree_mentions lifetime) lifetime
    (substitute_stream (substitute_tree lifetime [TPunct "'"; TIdent new]) lifetime [TPunct "'"; TIdent new] rest) = false.
Proof.
  intros Hne. set (g := substitute_stream _ _ _). set (m := stream_mentions _ _).
  assert (∀ n rest, length rest ≤ n → Forall (λ t, tree_mentions lifetime (substitute_tree lifetime [TPunct "'"; TIdent new] t) = false) rest →
    m (g rest) = false) as Hgen; [|intros Hall; by eapply (Hgen (length rest))].
  clear rest. induction n as [|n IH]; intros [|token rest] Hl Hall; try done; [simpl in Hl; lia|].
  apply Forall_cons in Hall as [Ht Hall]. simpl in Hl.
  assert (m (g rest) = false) as Hrest by (apply IH; [lia|done]).
  assert (∀ t', (∀ c, t' ≠ TPunct c) → tree_mentions lifetime t' = false → m (t' :: g rest) = false) as Hplain.
  { intros t' Hp Hm. destruct t' as [d s|s|c|s]; [|done|by destruct (Hp c)|done].
    change (tree_mentions lifetime (TGroup d s) || m (g rest) = false). by rewrite Hm, Hrest. }
  destruct token as [d s|s|c|s]; try by apply Hplain.
  destruct rest as [|[d s|ident|c'|s] rest'].
  - by simpl.
  - simpl. simpl in Hrest. fold g in Hrest |- *. fold m in Hrest |- *. done.
  - change (g (TPunct c :: TIdent ident :: rest')) with
      (if bool_decide (c = "'"%char) && bool_decide (ident = lifetime)
       then ([TPunct "'"; TIdent new] ++ g rest')%list else TPunct c :: g (TIdent ident :: rest')).
    destruct (bool_decide (c = "'"%char) && bool_decide (ident = lifetime)) eqn:Hc.
    + change (bool_decide ("'"%char = "'"%char) && bool_decide (new = lifetime) || (false || m (g rest')) = false).
      rewrite (bool_decide_false (new = lifetime)) by congruence. simpl. apply IH; [simpl in Hl; lia|].
      by apply Forall_cons in Hall as [_ Hall].
    + change (bool_decide (c = "'"%char) && bool_decide (ident = lifetime) || m (TIdent ident :: g rest') = false).
      rewrite Hc. exact Hrest.
  - change (m (TPunct c :: g (TPunct c' :: rest')) = false).
    assert (∃ c1 l, g (TPunct c' :: rest') = TPunct c1 :: l) as (c1 & l & Hg).
    { simpl. destruct rest' as [|[| | |] rest']; eauto. case_match; simpl; eauto. }
    rewrite Hg in Hrest |- *. exact Hrest.
  - simpl. simpl in Hrest. fold g in Hrest |- *. fold m in Hrest |- *. done.
Qed.

(** Substituting a lifetime by another leaves no use of it, at any depth. *)
Theorem substitute_clean lifetime new tokens :
  lifetime ≠ new → mentions lifetime (substitute_lifetime tokens lifetime [TPunct "'"; TIdent new]) = false.
Proof.
  intros Hne. apply substitute_clean_stream; [done|]. apply Forall_forall. intros t _.
  induction t as [d stream Hs| | |] using TokenTree_ind'; try done. by apply substitute_clean_stream.
Qed.

(** ** Printing a schema, and reading it back *)

(** Paths with type arguments, as they appear in shape tuples. *)
Inductive TypeSyntax := TyPath (name : string) (args : list TypeSyntax).

Fixpoint commas (l : list (list TokenTree)) : list TokenTree :=
  match l with
  | [] => []
  | [x] => x
  | x :: l => x ++ TPunct "," :: commas l
  end.

Fixpoint ty_tokens (t : TypeSyntax) : list TokenTree :=
  match t with
  | TyPath name [] => [TIdent name]
  | TyPath name args => TIdent name :: TPunct "<" :: commas (ty_tokens <$> args) ++ [TPunct ">"]
  end.

Fixpoint join (l : list string) : string :=
  match l with
  | [] => ""
  | [x] => x
  | x :: l => (x ++ "," ++ join l)%string
  end.

(** The type without spaces, as the macro names it. *)
Fixpoint ty_string (t : TypeSyntax) : string :=
  match t with
  | TyPath name [] => name
  | TyPath name args => (name ++ "<" ++ join (ty_string <$> args) ++ ">")%string
  end.

(** A part of a shape: a type, and whether it is wrapped in [Option]. *)
Definition part_tokens (part : TypeSyntax * bool) : list TokenTree :=
  let '(t, optional) := part in
  if optional : bool then TIdent "Option" :: TPunct "<" :: ty_tokens t ++ [TPunct ">"] else ty_tokens t.

Definition field_tokens (field : string * list (TypeSyntax * bool)) : list TokenTree :=
  [TIdent field.1; TPunct ":"; TGroup Parenthesis (commas (part_tokens <$> field.2))].

Definition schema_tokens (name : string) (fields : list (string * list (TypeSyntax * bool))) : list TokenTree :=
  [TIdent "struct"; TIdent name; TGroup Brace (commas (field_tokens <$> fields))].

(** Identifiers are not empty and hold no angle bracket. *)
Fixpoint no_bracket (s : string) : bool :=
  match s with EmptyString => true | String c s => negb (bool_decide (c = "<"%char)) && no_bracket s end.
Definition ident_ok (s : string) : bool := negb (bool_decide (s = ""%string)) && no_bracket s.

Fixpoint type_ok (t : TypeSyntax) : bool :=
  match t with TyPath name args => ident_ok name && forallb type_ok args end.

(** A part of a shape is printed in one way only. *)
Definition part_ok (part : TypeSyntax * bool) : bool :=
  let '(TyPath name args, optional) := part in
  type_ok (TyPath name args) && (optional || negb (bool_decide (name = "Option"%string)) || bool_decide (length args = 0)).

Lemma TypeSyntax_ind' (P : TypeSyntax → Prop) :
  (∀ name args, Forall P args → P (TyPath name args)) → ∀ t, P t.
Proof.
  intros Hp. fix IH 1. intros [name args]. apply Hp. induction args; constructor; [apply IH|done].
Qed.

#[local] Arguments String.append !_ _ : simpl nomatch.

Lemma string_app_assoc (a b c : string) : (a ++ (b ++ c) = (a ++ b) ++ c)%string.
Proof. induction a; simpl; congruence. Qed.
Lemma string_app_nil (a : string) : (a ++ "" = a)%string.
Proof. induction a; simpl; congruence. Qed.

#[local] Arguments part_tokens : simpl never.
#[local] Arguments part_ok : simpl never.

Section roundtrip.
Variable group_string : Delimiter → list TokenTree → string.
Notation elements := (tuple_elements group_string).

Lemma elements_args args els cur depth rest :
  Forall (λ t, ∀ els cur depth rest, elements els cur depth (ty_tokens t ++ rest) = elements els (cur ++ ty_string t) depth rest) args →
  elements els cur (S depth) (commas (ty_tokens <$> args) ++ rest) = elements els (cur ++ join (ty_string <$> args)) (S depth) rest.
Proof.
  intros Hall. revert cur. induction Hall as [|t args Ht Hall IH]; intros cur; simpl.
  - by rewrite string_app_nil.
  - destruct args as [|t' args]; [apply Ht|]. simpl in IH |- *. rewrite <-app_assoc, Ht. simpl.
    rewrite IH. by rewrite <-!string_app_assoc.
Qed.

(** A printed type is collected whole, at any depth. *)
Lemma elements_type t els cur depth rest :
  elements els cur depth (ty_tokens t ++ rest) = elements els (cur ++ ty_string t) depth rest.
Proof.
  revert els cur depth rest. induction t as [name args IH] using TypeSyntax_ind'. intros els cur depth rest.
  destruct args as [|t args]; [done|]. simpl ty_tokens. simpl ty_string.
  change (elements els ((cur ++ name) ++ "<") (S depth) ((commas (ty_tokens <$> (t :: args)) ++ [TPunct ">"]) ++ rest) =
          elements els (cur ++ (name ++ "<" ++ join (ty_string <$> (t :: args)) ++ ">")) depth rest).
  rewrite <-app_assoc, elements_args by done. simpl. by rewrite <-!string_app_assoc.
Qed.

Definition part_string (part : TypeSyntax * bool) : string :=
  if part.2 then ("Option<" ++ ty_string part.1 ++ ">")%string else ty_string part.1.

Lemma elements_part part els cur rest :
  elements els cur 0 (part_tokens part ++ rest) = elements els (cur ++ part_string part) 0 rest.
Proof.
  destruct part as [t [|]]; unfold part_string, part_tokens; simpl; [|apply elements_type].
  rewrite <-app_assoc, elements_type. simpl. by rewrite <-!string_app_assoc.
Qed.

Lemma ty_string_ok t : type_ok t = true → ty_string t ≠ ""%string.
Proof.
  destruct t as [name args]. simpl. unfold ident_ok. rewrite !andb_true_iff, negb_true_iff, bool_decide_eq_false.
  intros [[Hn _] _]. destruct args; [done|]. by destruct name.
Qed.

Lemma part_ok_string part : part_ok part = true → part_string part ≠ ""%string.
Proof.
  destruct part as [[name args] [|]]; unfold part_string, part_ok; simpl; [done|]. intros Hp. apply (ty_string_ok (TyPath name args)). simpl. by apply andb_true_iff in Hp as [? _].
Qed.

Lemma elements_parts parts els :
  forallb part_ok parts = true → elements els "" 0 (commas (part_tokens <$> parts)) = els ++ (part_string <$> parts).
Proof.
  revert els. induction parts as [|part parts IH]; intros els; simpl; [by rewrite app_nil_r|].
  rewrite andb_true_iff. intros [Hp Hps].
  assert (push_element els (part_string part) = els ++ [part_string part]) as Hpush.
  { unfold push_element. rewrite bool_decide_false; [done|]. by apply part_ok_string. }
  destruct parts as [|part' parts].
  - simpl. rewrite <-(app_nil_r (part_tokens part)), elements_part. simpl. by rewrite Hpush.
  - change (elements els "" 0 (part_tokens part ++ TPunct "," :: commas (part_tokens <$> part' :: parts)) =
            els ++ part_string part :: (part_string <$> part' :: parts)).
    rewrite elements_part.
    change (elements (push_element els (part_string part)) "" 0 (commas (part_tokens <$> part' :: parts)) =
            els ++ part_string part :: (part_string <$> part' :: parts)).
    by rewrite Hpush, IH, <-app_assoc.
Qed.

Lemma strip_last_app s : strip_last ">" (s ++ ">") = Some s.
Proof. induction s as [|c s IH]; [done|]. simpl. rewrite IH. by destruct s. Qed.

Lemma strip_option name rest r :
  no_bracket name = true → (rest = ""%string ∨ ∃ tail, rest = String "<" tail) →
  strip_prefix "Option<" (name ++ rest) = Some r → name = "Option"%string ∧ rest ≠ ""%string.
Proof.
  assert (∀ p, no_bracket p = true → ∀ name, no_bracket name = true → (rest = ""%string ∨ ∃ tail, rest = String "<" tail) →
    strip_prefix (p ++ "<") (name ++ rest) = Some r → name = p ∧ rest ≠ ""%string) as Hgen; [|by apply (Hgen "Option"%string)].
  induction p as [|a p IH]; intros Hp [|b n] Hn Hrest; simpl.
  - intros Hs. split; [done|]. intros ->. by simpl in Hs.
  - intros Hs. simpl in Hs. destruct (decide ("<"%char = b)) as [<-|Hb]; [done|by rewrite bool_decide_false in Hs].
  - simpl in Hp. intros Hs. destruct Hrest as [->|[tail ->]]; simpl in Hs; [done|].
    destruct (decide (a = "<"%char)) as [->|Hb]; [done|by rewrite bool_decide_false in Hs].
  - simpl in Hp, Hn. apply andb_true_iff in Hp as [_ Hp], Hn as [_ Hn]. intros Hs. simpl in Hs.
    destruct (decide (a = b)) as [<-|Hb]; [rewrite bool_decide_true in Hs by done|by rewrite bool_decide_false in Hs].
    destruct (IH Hp n Hn Hrest Hs) as [-> ?]. done.
Qed.

(** The classifier reads a printed part back. *)
Lemma classify_part part : part_ok part = true → classify (part_string part) = (ty_string part.1, part.2).
Proof.
  destruct part as [[name args] [|]]; unfold part_string, classify, part_ok; cbn [fst snd].
  - intros _. simpl strip_prefix. cbn match. by rewrite strip_last_app.
  - intros Hp. simpl in Hp. unfold ident_ok in Hp. rewrite !andb_true_iff, !orb_true_iff in Hp.
    destruct Hp as [[[_ Hn] _] Hopt]. rewrite negb_true_iff in Hopt.
    set (rest := match args with [] => ""%string | _ => ("<" ++ join (ty_string <$> args) ++ ">")%string end).
    assert (ty_string (TyPath name args) = (name ++ rest)%string) as ->.
    { unfold rest. destruct args; [by rewrite string_app_nil|done]. }
    destruct (strip_prefix "Option<" (name ++ rest)) as [r|] eqn:Hs; [|done].
    apply strip_option in Hs as [-> Hne]; [|done|].
    + destruct Hopt as [Ho|Hl]; [by apply bool_decide_eq_false in Ho|].
      apply bool_decide_eq_true in Hl. destruct args; [|done]. by destruct Hne.
    + unfold rest. destruct args; [by left|right]. simpl. eauto.
Qed.

(** ** The derives *)

Definition named_parts (parts : list (TypeSyntax * bool)) : list (string * bool) :=
  (λ part, (ty_string part.1, part.2)) <$> parts.

Lemma classify_parts parts :
  forallb part_ok parts = true → classify <$> elements [] "" 0 (commas (part_tokens <$> parts)) = named_parts parts.
Proof.
  intros Hp. rewrite elements_parts by done. simpl. rewrite <-list_fmap_compose. apply list_fmap_ext.
  intros i part Hi. simpl. apply classify_part. rewrite forallb_forall in Hp. apply Hp.
  by eapply list_elem_of_In, list_elem_of_lookup_2.
Qed.

Lemma body_printed fields :
  forallb (λ field, forallb part_ok field.2) fields = true →
  body_fields group_string (commas (field_tokens <$> fields)) = Some ((λ field, (field.1, named_parts field.2)) <$> fields).
Proof.
  induction fields as [|[f parts] fields IH]; [done|]. cbn [forallb]. rewrite andb_true_iff. intros [Hp Hps].
  specialize (IH Hps). cbn [snd] in Hp. destruct fields as [|field fields].
  - change (Some [(f, classify <$> elements [] "" 0 (commas (part_tokens <$> parts)))] = Some [(f, named_parts parts)]).
    by rewrite classify_parts.
  - change (match body_fields group_string (commas (field_tokens <$> field :: fields)) with
            | Some rest => Some ((f, classify <$> elements [] "" 0 (commas (part_tokens <$> parts))) :: rest)
            | None => None
            end = Some ((f, named_parts parts) :: ((λ field, (field.1, named_parts field.2)) <$> field :: fields))).
    by rewrite IH, classify_parts.
Qed.

(** Attributes and visibility before a type definition. *)
Definition prefix_token (t : TokenTree) : bool :=
  match t with
  | TIdent s => negb (bool_decide (s = "struct"%string)) && negb (bool_decide (s = "enum"%string))
  | TGroup Brace _ => false
  | _ => true
  end.

Lemma prefix_skipped attrs tokens :
  forallb prefix_token attrs = true →
  type_name (attrs ++ tokens) = type_name tokens ∧ struct_body (attrs ++ tokens) = struct_body tokens.
Proof.
  unfold type_name. induction attrs as [|t attrs IH]; [done|]. simpl. rewrite andb_true_iff. intros [Ht Hts].
  destruct (IH Hts) as [IH1 IH2]. destruct t as [[]| | |]; try done. simpl in Ht.
  apply andb_true_iff in Ht as [Hs%negb_true_iff He%negb_true_iff]. by rewrite Hs, He.
Qed.

(** What the derive generates for a shape. *)
Definition printed_shape (field : string * list (TypeSyntax * bool)) : ShapeImpl :=
  let parts := named_parts field.2 in
  MkShapeImpl field.1 (pascal_case field.1) (fst <$> filter (λ x, x.2 = false) parts)
    (fst <$> filter (λ x, x.2 = true) parts) parts.

Lemma shapes_printed fields :
  forallb (λ field, bool_decide (1 ≤ length field.2 ≤ SHAPE_WIDTH_CAP)) fields = true →
  shape_impls ((λ field, (field.1, named_parts field.2)) <$> fields) = inr (printed_shape <$> fields).
Proof.
  induction fields as [|[f parts] fields IH]; [done|]. cbn [forallb]. rewrite andb_true_iff, bool_decide_eq_true.
  intros [Hw Hws]. cbn [snd] in Hw.
  assert (length (named_parts parts) = length parts) as Hl by apply length_fmap.
  change (match shape_impl (f, named_parts parts) with
          | inl err => inl err
          | inr shape => match shape_impls ((λ field, (field.1, named_parts field.2)) <$> fields) with
                         | inl err => inl err | inr shapes => inr (shape :: shapes) end
          end = @inr DeriveError _ (printed_shape (f, parts) :: (printed_shape <$> fields))).
  rewrite IH by done. unfold shape_impl. rewrite !bool_decide_false; [done| |].
  - rewrite Hl. unfold SHAPE_WIDTH_CAP in *. lia.
  - intros Hn. rewrite Hn in Hl. simpl in Hl. lia.
Qed.

(** C39: the schema derive reads back what was written.  For a struct with one
    field per shape, of one to twelve parts, each a path or an [Option] of one,
    the derive succeeds and its shapes are the fields, in order, with the parts
    split into required and optional ones, whatever attributes come first. *)
Theorem schema_roundtrip attrs name fields :
  forallb prefix_token attrs = true → prefix_token (TIdent name) = true → fields ≠ [] →
  forallb (λ field, forallb part_ok field.2) fields = true →
  forallb (λ field, bool_decide (1 ≤ length field.2 ≤ SHAPE_WIDTH_CAP)) fields = true →
  derive_schema group_string (attrs ++ schema_tokens name fields) =
    inr (MkSchemaImpl name (snake_case name) (printed_shape <$> fields)).
Proof.
  intros Ha Hn Hne Hp Hw. destruct (prefix_skipped attrs (schema_tokens name fields) Ha) as [Ht Hb].
  unfold derive_schema, named_fields. rewrite Ht, Hb.
  assert (type_name (schema_tokens name fields) = Some name) as ->.
  { unfold type_name, schema_tokens. simpl. simpl in Hn. apply andb_true_iff in Hn as [Hs%negb_true_iff He%negb_true_iff].
    by rewrite Hs, He. }
  change (struct_body (schema_tokens name fields)) with (Some (commas (field_tokens <$> fields))). cbv beta iota.
  rewrite body_printed by done. rewrite bool_decide_false by (by destruct fields). by rewrite shapes_printed.
Qed.

(** What a derived component declares is consistent: never two fingerprints,
    never both sides of a relationship. *)
Lemma derived_consistent input i :
  derive_component group_string input = inr i →
  (ci_edge i = None ∨ ci_inverse i = None) ∧ (ci_fingerprint i = FpMembers ↔ is_Some (ci_inverse i)).
Proof.
  unfold derive_component. destruct (type_name input) as [name|]; [|done].
  destruct (has_revision_attribute input), (has_hash_attribute input); simpl; try done;
    destruct (attribute_value _ input "relationship" _), (attribute_value _ input "relationship_target" _); simpl;
    intros [= <-]; simpl; (split; [by auto|]); split; try done; try by eauto; by intros [? ?].
Qed.

(** *** Names *)

Lemma lowercase_ascii ch :
  is_uppercase ch = true → to_lowercase ch ≠ "_"%char ∧ to_uppercase (to_lowercase ch) = ch.
Proof. destruct ch as [[] [] [] [] [] [] [] []]; vm_compute; done. Qed.

Fixpoint no_underscore (s : string) : bool :=
  match s with EmptyString => true | String c s => negb (bool_decide (c = "_"%char)) && no_underscore s end.

Lemma pascal_snake_tail s : no_underscore s = true → pascal_from false (snake_from false s) = s.
Proof.
  induction s as [|ch s IH]; [done|]. simpl. rewrite andb_true_iff, negb_true_iff, bool_decide_eq_false. intros [Hu Hs].
  destruct (is_uppercase ch) eqn:Hup.
  - destruct (lowercase_ascii _ Hup) as [Hl Hr].
    change (pascal_from true (String (to_lowercase ch) (snake_from false s)) = String ch s).
    simpl. rewrite bool_decide_false by done. by rewrite Hr, IH.
  - simpl. rewrite bool_decide_false by done. by rewrite IH.
Qed.

(** The module and alias names lose nothing: raising the parts of the
    snake-case name of a Pascal-case identifier gives it back. *)
Lemma pascal_snake ch s :
  is_uppercase ch = true → no_underscore s = true → pascal_case (snake_case (String ch s)) = String ch s.
Proof.
  intros Hup Hs. unfold snake_case, pascal_case. simpl. rewrite Hup.
  destruct (lowercase_ascii _ Hup) as [Hl Hr]. simpl. rewrite bool_decide_false by done.
  by rewrite Hr, pascal_snake_tail.
Qed.
End roundtrip.

(** ** Concrete derives *)

Definition no_groups : Delimiter → list TokenTree → string := λ _ _, ""%string.

(** [struct LangSchema { diagnostic: (Diagnostic, Option<Span>), file: (Map<Key, Value>) }] *)
Definition demo_fields : list (string * list (TypeSyntax * bool)) :=
  [("diagnostic", [(TyPath "Diagnostic" [], false); (TyPath "Span" [], true)]);
   ("file", [(TyPath "Map" [TyPath "Key" []; TyPath "Value" []], false)])]%string.

Lemma schema_roundtrip_witness :
  derive_schema no_groups ([TPunct "#"; TGroup Bracket [TIdent "doc"]; TIdent "pub"] ++ schema_tokens "LangSchema" demo_fields) =
    inr (MkSchemaImpl "LangSchema" "lang_schema" (printed_shape <$> demo_fields)).
Proof. by apply (schema_roundtrip no_groups). Defined.

(** A field declared [pub] is not read: the token after [pub] is taken for the
    colon that is missing, and the shape is left out of the schema. *)
Lemma public_shape_dropped :
  derive_schema no_groups [TIdent "struct"; TIdent "S"; TGroup Brace
    [TIdent "a"; TPunct ":"; TGroup Parenthesis [TIdent "A"]; TPunct ",";
     TIdent "pub"; TIdent "b"; TPunct ":"; TGroup Parenthesis [TIdent "B"]]] =
  inr (MkSchemaImpl "S" "s" [MkShapeImpl "a" "A" ["A"] [] [("A", false)]])%string.
Proof. vm_compute. reflexivity. Qed.

(** A qualified [Option] is read as a required part. *)
Lemma qualified_option_required :
  classify "std::option::Option<A>" = ("std::option::Option<A>", false)%string.
Proof. reflexivity. Qed.
