(* ===== verification/Engine.v ===== *)
(** * The engine: generations, epochs and boundaries ([bowl.rs])

    The state behind the lock, and one definition per critical section: staging
    an input, starting, finishing and abandoning a generation, entering and
    leaving an epoch, preemption boundaries, external mutation, settling,
    cleanup.  Callers are numbered; a one-shot sender is the number of the
    caller that waits for it, and a section returns the callers it wakes. *)
From stdpp Require Import base numbers sets gmap fin_maps sorting list.
From S2P Require Import Prelude Access.
From S2P Require Import Components Demo Stores Presence World WorldInv Ownership WorldOps Frame.
From S2P Require Import Commands Query Deps Planner Commit.

Abbreviation CallerId := nat (only parsing).

(** ** State *)

(** Which generation is finished, running, next and pending. *)
Record Generations := MkGenerations {
  completed_generation : N;
  running_generation : option N;
  next_generation : N;
  pending_generation : option N;
}.

(** Preemption boundaries and everyone who waits. *)
Record Boundary := MkBoundary {
  preempt_window : bool;
  preempt_restart : bool;
  preempt_waiters : N;
  boundary_waiters : list CallerId;
  waiters : list (N * CallerId);
}.

Section engine.
Context `{ComponentTypes} `{HashOrder}.
Implicit Types (w : World) (e : Entity) (ty : TypeId) (owner : SystemInvocation).

Variable row_counts : SystemId → World → nat.

(** External inputs: for the pending generation, and held back by an epoch. *)
Record Inputs := MkInputs {
  pending_inputs : CommandQueue;
  deferred_inputs : list (N * CommandQueue);
  input_seq : N;
  settling : N;
}.

Abbreviation Bundle := (list (TypeId * Value)) (only parsing).
Abbreviation SnapshotKey := (N * N * N)%type (only parsing).

Definition snapshot_key w : SnapshotKey := (next_entity (shared w), revision w, mutations w).

(** What was published at the last settle. *)
Record Settled := MkSettled {
  snapshot_cache : option (SnapshotKey * World);
  settled_snapshot : option World;
  settled_revision : Revision;
  settle_watchers : list CallerId;
}.

Record Engine := MkEngine {
  commit : CommitState;
  gens : Generations;
  inputs : Inputs;
  boundary : Boundary;
  settled_state : Settled;
  startup_ran : bool;
  deferred_bound_cleanup : list Entity;
}.
Implicit Types en : Engine.

Definition set_commit (x : CommitState) en : Engine :=
  MkEngine x (gens en) (inputs en) (boundary en) (settled_state en) (startup_ran en) (deferred_bound_cleanup en).
Definition set_gens (x : Generations) en : Engine :=
  MkEngine (commit en) x (inputs en) (boundary en) (settled_state en) (startup_ran en) (deferred_bound_cleanup en).
Definition set_inputs (x : Inputs) en : Engine :=
  MkEngine (commit en) (gens en) x (boundary en) (settled_state en) (startup_ran en) (deferred_bound_cleanup en).
Definition set_boundary (x : Boundary) en : Engine :=
  MkEngine (commit en) (gens en) (inputs en) x (settled_state en) (startup_ran en) (deferred_bound_cleanup en).
Definition set_settled (x : Settled) en : Engine :=
  MkEngine (commit en) (gens en) (inputs en) (boundary en) x (startup_ran en) (deferred_bound_cleanup en).
Definition set_startup (x : bool) en : Engine :=
  MkEngine (commit en) (gens en) (inputs en) (boundary en) (settled_state en) x (deferred_bound_cleanup en).
Definition set_cleanup (x : list Entity) en : Engine :=
  MkEngine (commit en) (gens en) (inputs en) (boundary en) (settled_state en) (startup_ran en) x.

Definition world en : World := cs_world (commit en).
Definition on_commit (f : CommitState → CommitState) en : Engine := set_commit (f (commit en)) en.

(** [State] of [Bowl::new]. *)
Definition engine_new : Engine :=
  MkEngine (MkState world_new ∅ [] [] (MkPool [] []) true None 0 true)
    (MkGenerations 0 None 1 None) (MkInputs queue_default [] 0 0) (MkBoundary false false 0 [] [])
    (MkSettled None None 0 []) false [].

(** ** Snapshots *)

Definition snapshot_locked en : result (Engine * World) :=
  let key := snapshot_key (world en) in
  match snapshot_cache (settled_state en) with
  | Some (cached_key, snapshot) =>
      if bool_decide (cached_key = key) then Done (en, snapshot)
      else snapshot ← world_clone (world en);
           Done (set_settled (MkSettled (Some (key, snapshot)) (settled_snapshot (settled_state en))
                    (settled_revision (settled_state en)) (settle_watchers (settled_state en))) en, snapshot)
  | None =>
      snapshot ← world_clone (world en);
      Done (set_settled (MkSettled (Some (key, snapshot)) (settled_snapshot (settled_state en))
               (settled_revision (settled_state en)) (settle_watchers (settled_state en))) en, snapshot)
  end.

(** [settled_read] mirrors [settled_snapshot]. *)
Definition refresh_settled_snapshot en : result Engine :=
  '(en, snapshot) ← snapshot_locked en;
  Done (set_settled (MkSettled (snapshot_cache (settled_state en)) (Some snapshot)
          (settled_revision (settled_state en)) (settle_watchers (settled_state en))) en).

Definition publish_settled_revision en : result Engine :=
  let revision := revision (world en) in
  if bool_decide (settled_revision (settled_state en) = revision) then Done en
  else
    epoch ← expect Overflow (u64_checked_succ (settle_epoch (commit en)));
    Done (on_commit (set_epoch epoch)
            (set_settled (MkSettled (snapshot_cache (settled_state en)) (settled_snapshot (settled_state en))
               revision (settle_watchers (settled_state en))) en)).

Definition bowl_is_settled en : bool :=
  bool_decide (pending_generation (gens en) = None) && bool_decide (running_generation (gens en) = None) &&
  bool_decide (revision (world en) = settled_revision (settled_state en)).

(** ** Pending generations and inputs *)

(** [pending_generation.get_or_insert(next_generation)] *)
Definition get_or_insert_pending (g : Generations) : Generations :=
  MkGenerations (completed_generation g) (running_generation g) (next_generation g)
    (Some (default (next_generation g) (pending_generation g))).

Definition enqueue_next_generation en : Engine := set_gens (get_or_insert_pending (gens en)) en.

(** [pending_inputs.append(&mut commands)], then [commands] is dropped. *)
Definition push_pending en (commands : CommandQueue) : Engine :=
  let '(queue, rest) := queue_append (pending_inputs (inputs en)) commands in
  on_commit (λ st, set_pool (queue_drop (cs_pool st) rest) st)
    (set_inputs (MkInputs queue (deferred_inputs (inputs en)) (input_seq (inputs en)) (settling (inputs en))) en).

Fixpoint promote_loop (watermark : N) (deferred : list (N * CommandQueue)) en : Engine * bool :=
  match deferred with
  | (tag, input) :: rest =>
      if bool_decide (tag ≤ watermark)%N
      then
        let en := set_inputs (MkInputs (pending_inputs (inputs en)) rest (input_seq (inputs en)) (settling (inputs en))) en in
        ((promote_loop watermark rest (push_pending en input)).1, true)
      else (en, false)
  | [] => (en, false)
  end.

Definition promote_deferred_inputs en (watermark : N) : Engine * bool :=
  let '(en, promoted) := promote_loop watermark (deferred_inputs (inputs en)) en in
  (if promoted : bool then enqueue_next_generation en else en, promoted).

(** Where an input went: the generation that will drain it, the epoch's
    deferred queue (and the generation to report), or it waits for a boundary. *)
Inductive Staged := Queued (generation : N) | Deferred (generation : N) | NeedsBoundary (commands : CommandQueue).

Definition stage_input en (commands : CommandQueue) (preempting : bool) : result (Engine * Staged) :=
  if bool_decide (settling (inputs en) = 0%N)
  then
    let en := enqueue_next_generation (push_pending en commands) in
    Done (en, Queued (default 0%N (pending_generation (gens en))))
  else if negb preempting
  then
    tag ← expect Overflow (u64_checked_succ (input_seq (inputs en)));
    Done (set_inputs (MkInputs (pending_inputs (inputs en)) (deferred_inputs (inputs en) ++ [(tag, commands)]) tag
                        (settling (inputs en))) en,
          Deferred (completed_generation (gens en)))
  else Done (en, NeedsBoundary commands).

(** The entity of an insert: the target, the singleton, or a new one. *)
Definition insert_entity w (target : option Entity) (b : Bundle) : result (World * Entity) :=
  match target with
  | Some e => Done (w, e)
  | None =>
      key ← bundle_singleton_key b;
      Done (match key with Some key => singleton_entity_or_spawn w key | None => spawn_empty w end)
  end.

(** The first section of [insert_inner]. *)
Definition stage_insert en (b : Bundle) (preempting : bool) (target : option Entity)
    : result (Engine * Entity * Staged) :=
  '(w, e) ← insert_entity (world en) target b;
  let st := set_world w (commit en) in
  let '(pool, commands) :=
    if pool_home st then pool_take (cs_pool st) else (cs_pool st, queue_default) in
  '(en, staged) ← stage_input (set_commit (set_pool pool st) en) (bundle_queue b e commands) preempting;
  Done (en, e, staged).

Definition stage_despawn en e (preempting : bool) : result (Engine * Staged) :=
  stage_input en (base_push queue_default (DespawnBaseCommand e)) preempting.
Definition stage_remove en e ty (preempting : bool) : result (Engine * Staged) :=
  stage_input en (base_push queue_default (RemoveComponentBaseCommand e ty)) preempting.

(** ** Building a bowl *)

Definition phase_bit (p : Phase) : N :=
  match p with Startup => 1 | Evaluate => 2 | Complete => 4 | Settle => 8 end.

(** What [Inner] and the builder derive from the sealed set of systems. *)
Record Registry := MkRegistry {
  ambient_healing_enabled : bool;
  registered_phases : N;
  settled_hooks : list SystemId;
  settle_systems : list SystemId;
}.

(** [register_system]: the new system, and the healing flag. *)
Definition register_system (st : Engine * bool) (s : BoxedSystem) : Engine * bool :=
  let '(en, healing) := st in
  (enqueue_next_generation (on_commit (λ st, set_systems (cs_systems st ++ [s]) st) en),
   if negb (bool_decide (sys_phase s = Settle)) && negb (bool_decide (view_freshness s = [])) then true else healing).

Inductive BuildStep := StepSystem (s : BoxedSystem) | StepPlugin (shapes : list ShapeDesc) (systems : list BoxedSystem).

Definition run_step (st : Engine * bool) (step : BuildStep) : Engine * bool :=
  match step with
  | StepSystem s => register_system st s
  | StepPlugin _ systems => foldl register_system st systems
  end.

(** [BowlBuilder::build]; [has_hook] tells which executables have a settled
    hook. *)
Definition build (has_hook : SystemId → bool) (shapes : list ShapeDesc) (steps : list BuildStep)
    : result (Engine * Registry) :=
  let shapes := shapes ++ concat ((λ step, match step with StepPlugin l _ => l | StepSystem _ => [] end) <$> steps) in
  let en := engine_new in
  en ← (if bool_decide (shapes = []) then Done en
        else w ← init_presence (world en) (universe_of shapes);
             Done (on_commit (λ st, set_schema (Some shapes) (set_world w st)) en));
  let '(en, healing) := foldl run_step (en, false) steps in
  let systems := imap pair (cs_systems (commit en)) in
  Done (en,
        MkRegistry healing (foldl (λ mask s, N.lor mask (phase_bit (sys_phase s.2))) 0%N systems)
          (omap (λ '(id, s), if negb (bool_decide (sys_phase s = Settle)) && has_hook id then Some id else None) systems)
          (omap (λ '(id, s), if bool_decide (sys_phase s = Settle) then Some id else None) systems)).

(** ** Boundaries *)

Record PreemptWaiter := MkWaiter { registered : bool; waiter_deferred : bool }.

Definition set_restart (x : bool) (b : Boundary) : Boundary :=
  MkBoundary (preempt_window b) x (preempt_waiters b) (boundary_waiters b) (waiters b).
Definition set_waiters_count (x : N) (b : Boundary) : Boundary :=
  MkBoundary (preempt_window b) (preempt_restart b) x (boundary_waiters b) (waiters b).
Definition set_window (x : bool) (b : Boundary) : Boundary :=
  MkBoundary x (preempt_restart b) (preempt_waiters b) (boundary_waiters b) (waiters b).
Definition set_boundary_waiters (x : list CallerId) (b : Boundary) : Boundary :=
  MkBoundary (preempt_window b) (preempt_restart b) (preempt_waiters b) x (waiters b).
Definition set_waiters (x : list (N * CallerId)) (b : Boundary) : Boundary :=
  MkBoundary (preempt_window b) (preempt_restart b) (preempt_waiters b) (boundary_waiters b) x.

Definition boundary_reached (m : PreemptWaiter) en : PreemptWaiter * Engine * bool :=
  if bool_decide (settling (inputs en) = 0%N) && bool_decide (running_generation (gens en) = None)
  then (m, en, true)
  else if bool_decide (running_generation (gens en) = None) || preempt_window (boundary en)
  then (m, set_boundary (set_restart true (boundary en)) en, true)
  else if waiter_deferred m then (m, en, false)
  else if registered m then (m, en, false)
  else (MkWaiter true (waiter_deferred m),
        set_boundary (set_waiters_count (preempt_waiters (boundary en) + 1) (boundary en)) en, false).

(** [PreemptWaiter::finish], also its [Drop]. *)
Definition waiter_finish (m : PreemptWaiter) en : PreemptWaiter * Engine :=
  if registered m
  then (MkWaiter false (waiter_deferred m),
        set_boundary (set_waiters_count (preempt_waiters (boundary en) - 1) (boundary en)) en)
  else (m, en).

Definition await_boundary en (id : CallerId) : Engine :=
  set_boundary (set_boundary_waiters (boundary_waiters (boundary en) ++ [id]) (boundary en)) en.

(** One round of the preempting loop of [insert_inner], [despawn_inner] and
    [remove_component_inner]. *)
Definition stage_at_boundary (m : PreemptWaiter) en (id : CallerId) (commands : CommandQueue)
    : PreemptWaiter * Engine * Staged :=
  let '(m, en, reached) := boundary_reached m en in
  if reached : bool
  then
    let '(m, en) := waiter_finish m en in
    let en := enqueue_next_generation (push_pending en commands) in
    (m, en, Queued (default 0%N (pending_generation (gens en))))
  else (m, await_boundary en id, NeedsBoundary commands).

(** [apply_component_mutation] *)
Definition apply_component_mutation {R} en ty e (held : CellId → bool) (f : Value → Value * R)
    : result (Engine * TryUpdate R) :=
  '(w, outcome) ← try_update_component_live (world en) ty e held f;
  let en := on_commit (set_world w) en in
  Done (match outcome with
        | Applied _ true _ => enqueue_next_generation (on_commit (set_clean false) en)
        | _ => en
        end, outcome).

(** What an external mutation attempt found: its result, nothing to change,
    a held cell (it yields and retries), or no boundary yet (it sleeps). *)
Inductive Mutated (R : Type) := MutDone (out : R) | MutMissing | MutBusy | MutAsleep.

(** One round of [with_component_mut]; [with_component_original] also compares
    the revision it read, [original]. *)
Definition mutate {R} (m : PreemptWaiter) en (id : CallerId) ty e (original : option (option Revision))
    (held : CellId → bool) (f : Value → Value * R) : result (PreemptWaiter * Engine * Mutated R) :=
  if match original with Some r => negb (bool_decide (row_revision (world en) ty e = r)) | None => false end
  then let '(m, en) := waiter_finish m en in Done (m, en, MutMissing R)
  else
    let '(m, en, reached) := boundary_reached m en in
    if reached : bool
    then
      '(en, outcome) ← apply_component_mutation en ty e held f;
      match outcome with
      | Applied _ _ out => let '(m, en) := waiter_finish m en in Done (m, en, MutDone R out)
      | Missing _ => let '(m, en) := waiter_finish m en in Done (m, en, MutMissing R)
      | Busy _ => Done (m, en, MutBusy R)
      end
    else Done (m, await_boundary en id, MutAsleep R).

(** [ScoopBuilder::for_each], after its settle: the rows that match the live
    world are written one after the other under the state lock.  [f] is the
    closure with what it captured; a row that is gone is passed over. *)
Definition for_each_row {A} ty (f : A → Entity → Value → Value * A) (acc : World * A * bool) e
    : result (World * A * bool) :=
  let '(w, a, changed) := acc in
  '(w, out) ← update_component_live w ty e (f a e);
  Done (match out with Some (c, a) => (w, a, changed || c) | None => (w, a, changed) end).

Definition for_each {A} en (rows : World → result (list Entity)) ty (f : A → Entity → Value → Value * A) (a : A)
    : result (Engine * A) :=
  rows ← rows (world en);
  '(w, a, changed) ← fold_result (for_each_row ty f) (world en, a, false) rows;
  let en := on_commit (set_world w) en in
  Done (if changed : bool then enqueue_next_generation (on_commit (set_clean false) en) else en, a).

(** ** Generations *)

(** [EvaluationGuard]: the driver owns the memo while it runs. *)
Record Evaluation := MkEvaluation { eval_generation : N; eval_memo : gmap SystemInvocation MemoEntry }.

(** One output held back by the last settle phase, applied as a derived write. *)
Definition apply_deferred_settle (st : CommitState) (output : SystemOutput) : result CommitState :=
  let '(drained, w) := queue_apply (out_commands output) (cs_world st) (Some (out_owner output)) in
  w ← w;
  Done (set_pool (queue_drop (cs_pool st) drained) (set_world w st)).

(** What [start_evaluation] does to the world before the generation runs. *)
Definition open_generation (st : CommitState) (base : CommandQueue)
    : result (CommitState * CommandQueue) :=
  '(systems, w) ← compact_systems (cs_systems st) (cs_world st);
  let held := deferred_settle st in
  st ← fold_result apply_deferred_settle (set_deferred [] (set_systems systems (set_world w st))) held;
  let '(base, w) := queue_apply base (cs_world st) None in
  w ← w;
  w ← flush_derived_from w;
  let '(w, _) := take_written_derived w in
  let '(w, removed) := take_removed_entities w in
  let '(w, component_owners) := take_removed_component_owners w in
  let '(w, _) := take_removed_owners w in
  '(memo, systems, _) ← reconcile_removed_output_owners (cs_memo st) (cs_systems st) component_owners None;
  '(w, memo, systems, _) ← reconcile_removed_invocations w memo systems removed [] None;
  Done (set_systems systems (set_memo memo (set_world w st)), base).

(** The generation, the systems and the memo it runs with, and whether it
    opens with the startup phase. *)
Definition start_evaluation en : result (Engine * option (Evaluation * bool)) :=
  match pending_generation (gens en) with
  | None => Done (en, None)
  | Some generation =>
      '(st, base) ← open_generation (commit en) (pending_inputs (inputs en));
      next ← expect Overflow (u64_checked_succ generation);
      let '(startup, restart) :=
        if startup_ran en then (preempt_restart (boundary en), false) else (true, preempt_restart (boundary en)) in
      let memo := cs_memo st in
      Done (MkEngine (set_clean false (set_memo ∅ st))
              (MkGenerations (completed_generation (gens en)) (Some generation) next None)
              (MkInputs base (deferred_inputs (inputs en)) (input_seq (inputs en)) (settling (inputs en)))
              (set_window false (set_restart restart (boundary en)))
              (settled_state en) true (deferred_bound_cleanup en),
            Some (MkEvaluation generation memo, startup))
  end.

(** A run that finished while the generation was driving. *)
Definition commit_run en (ev : Evaluation) (run : SystemRun) (phase : Phase)
    : result (Engine * Evaluation * CommitProgress) :=
  '(st, progress) ← commit_system_run row_counts (set_memo (eval_memo ev) (commit en)) run (Some phase);
  Done (set_commit (set_memo (cs_memo (commit en)) st) en,
        MkEvaluation (eval_generation ev) (cs_memo st), progress).

Definition reset_systems en : Engine := on_commit (λ st, set_systems (reset_full <$> cs_systems st) st) en.

(** [open_preempt_window], up to the wait, and after it. *)
Definition open_window en : Engine * list CallerId :=
  (set_boundary (set_boundary_waiters [] (set_window true (boundary en))) en, boundary_waiters (boundary en)).
Definition close_window en : Engine := set_boundary (set_window false (boundary en)) en.

(** After a preempted phase the generation restarts: [run_evaluation]. *)
Definition restart_generation en : Engine :=
  reset_systems (set_boundary (set_restart false (boundary en)) en).

(** The end of [run_evaluation]: waiters whose generation is covered wake. *)
Definition complete_evaluation en (ev : Evaluation) (changed : bool) : Engine * list CallerId :=
  let generation := eval_generation ev in
  let satisfied := filter (λ p, p.1 ≤ generation)%N (waiters (boundary en)) in
  let rest := filter (λ p, ¬ p.1 ≤ generation)%N (waiters (boundary en)) in
  (set_commit (set_clean (negb changed) (set_memo (eval_memo ev) (commit en)))
     (set_gens (MkGenerations generation None (next_generation (gens en)) (pending_generation (gens en)))
        (set_boundary (set_waiters rest (set_boundary_waiters [] (boundary en))) en)),
   boundary_waiters (boundary en) ++ satisfied.*2).

(** [Drop for EvaluationGuard]: the run was abandoned. *)
Definition abandon_evaluation en (ev : Evaluation) : Engine * list CallerId :=
  let en := on_commit (set_memo (eval_memo ev)) en in
  let g := gens en in
  let en := set_gens (MkGenerations (completed_generation g) None (next_generation g)
                        (Some (default (eval_generation ev) (pending_generation g)))) en in
  let en := reset_systems en in
  (set_boundary (set_waiters [] (boundary en)) en, (waiters (boundary en)).*2).

(** [wait_for_generation]: whether the caller goes to sleep. *)
Definition wait_for_generation en (target : N) (id : CallerId) : Engine * bool :=
  if bool_decide (target ≤ completed_generation (gens en))%N then (en, false)
  else (set_boundary (set_waiters (waiters (boundary en) ++ [(target, id)]) (boundary en)) en, true).

(** ** Epochs *)

(** [EpochGuard::enter]: the watermark of the settle. *)
Definition epoch_enter en : Engine * N :=
  (set_inputs (MkInputs (pending_inputs (inputs en)) (deferred_inputs (inputs en)) (input_seq (inputs en))
                 (settling (inputs en) + 1)) en, input_seq (inputs en)).

(** [Drop for EpochGuard] *)
Definition epoch_leave en : result (Engine * list CallerId) :=
  _ ← check Overflow (bool_decide (settling (inputs en) ≠ 0%N));
  let en := set_inputs (MkInputs (pending_inputs (inputs en)) (deferred_inputs (inputs en)) (input_seq (inputs en))
                          (settling (inputs en) - 1)) en in
  let en := if bool_decide (settling (inputs en) = 0%N) then (promote_deferred_inputs en u64_max).1 else en in
  Done (set_boundary (set_boundary_waiters [] (boundary en)) en, boundary_waiters (boundary en)).

(** ** Settling *)

(** The fast path of [settle]. *)
Definition settle_fast en : result (Engine * bool) :=
  if bowl_is_settled en && bool_decide (deferred_inputs (inputs en) = [])
  then en ← refresh_settled_snapshot en; Done (en, true)
  else Done (en, false).

Inductive SettleStep :=
  | SettleReturn            (* the settle is over *)
  | SettleAgain             (* inputs were promoted: [continue] *)
  | SettleDrive (target : N) (* [ensure_evaluated(target)] *)
  | SettleClean (clean : bool). (* converged or not *)

(** The head of the settle loop. *)
Definition settle_head en (watermark : N) : result (Engine * SettleStep) :=
  if bowl_is_settled en
  then
    let '(en, promoted) := promote_deferred_inputs en watermark in
    if promoted : bool then Done (en, SettleAgain)
    else en ← refresh_settled_snapshot en; Done (en, SettleReturn)
  else
    let g := gens en in
    Done (en, SettleDrive (default (completed_generation g)
                             (match pending_generation g with Some p => Some p | None => running_generation g end))).

(** After [ensure_evaluated]. *)
Definition settle_check en (watermark : N) : result (Engine * SettleStep) :=
  let clean := bool_decide (pending_generation (gens en) = None) && bool_decide (running_generation (gens en) = None) in
  if clean && bool_decide (revision (world en) = settled_revision (settled_state en))
  then
    let '(en, promoted) := promote_deferred_inputs en watermark in
    if promoted : bool then Done (en, SettleAgain)
    else en ← refresh_settled_snapshot en; Done (en, SettleReturn)
  else Done (en, SettleClean (clean && normal_clean (commit en))).

(** The completion path: the revision is published and the watchers wake. *)
Definition settle_finish en (watermark : N) : result (Engine * SettleStep * list CallerId) :=
  let '(en, promoted) := promote_deferred_inputs en watermark in
  if promoted : bool then Done (en, SettleAgain, [])
  else
    en ← publish_settled_revision en;
    en ← refresh_settled_snapshot en;
    let s := settled_state en in
    Done (set_settled (MkSettled (snapshot_cache s) (settled_snapshot s) (settled_revision s) []) en,
          SettleReturn, settle_watchers s).

Definition next_settle en (id : CallerId) : Engine :=
  let s := settled_state en in
  set_settled (MkSettled (snapshot_cache s) (settled_snapshot s) (settled_revision s) (settle_watchers s ++ [id])) en.

(** ** Ambient healing *)

(** A viewer whose viewed stores moved after it planned, in this epoch. *)
Definition heal_victim w (systems : list BoxedSystem) (epoch : N) owner (entry : MemoEntry) : bool :=
  bool_decide (memo_epoch entry = epoch) &&
  match systems !! system owner with
  | None => false
  | Some s =>
      negb (bool_decide (sys_phase s = Settle)) && negb (bool_decide (view_freshness s = [])) &&
      existsb (λ ty, bool_decide (planned_revision entry < store_watermark w ty)%N) (view_freshness s)
  end.

Definition heal_limit : N := 128.

Definition heal_one (st : CommitState * gmap SystemInvocation N) owner
    : result (CommitState * gmap SystemInvocation N) :=
  let '(st, attempts) := st in
  let n := (default 0 (attempts !! owner) + 1)%N in
  _ ← check HealingDiverged (bool_decide (n ≤ heal_limit)%N);
  systems ← force_owner (cs_systems st) owner;
  Done (set_systems systems (set_memo (delete owner (cs_memo st)) st), <[owner := n]> attempts).

Definition heal_stale_ambient (enabled : bool) en (attempts : gmap SystemInvocation N)
    : result (Engine * gmap SystemInvocation N * bool) :=
  if negb enabled then Done (en, attempts, false)
  else
    let st := commit en in
    let victims := filter (λ o, match cs_memo st !! o with
                                | Some entry => heal_victim (cs_world st) (cs_systems st) (settle_epoch st) o entry
                                | None => false
                                end = true) (hash_iter (dom (cs_memo st))) in
    if bool_decide (victims = []) then Done (en, attempts, false)
    else '(st, attempts) ← fold_result heal_one (st, attempts) victims;
         Done (set_commit st en, attempts, true).

(** ** Settled hooks and the settle phase

    Both take the memo out, wait for their runs, commit them and put the memo
    back. *)
Definition take_memo en : Engine * gmap SystemInvocation MemoEntry :=
  (on_commit (set_memo ∅) en, cs_memo (commit en)).
Definition put_memo (memo : gmap SystemInvocation MemoEntry) en : Engine := on_commit (set_memo memo) en.

Definition commit_hooks en (memo : gmap SystemInvocation MemoEntry) (runs : list SystemRun)
    : result (Engine * gmap SystemInvocation MemoEntry * bool * N) :=
  '(st, followup, commits) ← commit_system_runs row_counts (set_memo memo (commit en)) runs;
  Done (set_commit (set_memo (cs_memo (commit en)) st) en, cs_memo st, followup, commits).

Definition commit_settle en (memo : gmap SystemInvocation MemoEntry) (run : SystemRun)
    : result (Engine * gmap SystemInvocation MemoEntry) :=
  '(st, _) ← commit_system_run row_counts (set_memo memo (commit en)) run (Some Settle);
  Done (set_commit (set_memo (cs_memo (commit en)) st) en, cs_memo st).

(** ** Consuming results *)

(** [drain_deferred_bound_cleanup]: dropped handles are cleaned up, and a
    settled bowl stays settled. *)
Definition drop_bound e en : Engine := set_cleanup (deferred_bound_cleanup en ++ [e]) en.

Definition cleanup_settled en (entities : list Entity) : result (Engine * bool) :=
  let was_settled := bowl_is_settled en in
  st ← cleanup_bound_entities (commit en) entities;
  let en := set_commit st en in
  if was_settled then en ← publish_settled_revision en; Done (en, true) else Done (en, false).

Definition drain_deferred_bound_cleanup en : result Engine :=
  let entities := deferred_bound_cleanup en in
  let en := set_cleanup [] en in
  if bool_decide (entities = []) then Done en
  else
    '(en, was_settled) ← cleanup_settled en entities;
    if was_settled : bool then refresh_settled_snapshot en else Done en.

(** [ScoopBuilder::drain]: the matched rows are read, then removed. *)
Definition drain en (matched : World → list Entity) : result (Engine * World * list Entity) :=
  '(en, snapshot) ← snapshot_locked en;
  let entities := matched snapshot in
  '(en, _) ← cleanup_settled en entities;
  Done (en, snapshot, entities).

(** [TakeBundle::take]: required ([false]) and optional components; a missing
    required one stops the take.  The value is the cell of the removed row. *)
Fixpoint take_bundle w e (parts : list (TypeId * bool)) : result (World * option (list (option CellId))) :=
  match parts with
  | [] => Done (w, Some [])
  | (ty, optional) :: parts =>
      let cell := entry_value <$> row w ty e in
      '(w, _) ← remove_component w ty e None;
      match cell, optional with
      | None, false => Done (w, None)
      | _, _ => '(w, rest) ← take_bundle w e parts; Done (w, option_map (cons cell) rest)
      end
  end.

(** The section of [BoundEntity::take]; [pinned] says which cells a snapshot
    or a result still shares. *)
Definition take_bound en e (parts : list (TypeId * bool)) (pinned : CellId → bool)
    : result (Engine * option (option (list (option CellId)))) :=
  let s := settled_state en in
  let en := set_settled (MkSettled None None (settled_revision s) (settle_watchers s)) en in
  if existsb (λ '(ty, _), match row (world en) ty e with Some entry => pinned (entry_value entry) | None => false end) parts
  then Done (en, None)
  else
    let was_settled := bowl_is_settled en in
    '(w, taken) ← take_bundle (world en) e parts;
    st ← cleanup_bound_entities (set_world w (commit en)) [e];
    let en := set_commit st en in
    en ← (if was_settled then publish_settled_revision en else Done en);
    Done (en, Some taken).

End engine.
