(* ===== verification/EngineInv.v ===== *)
(** * The engine as a transition system ([bowl.rs])

    Callers, drivers, settlers and mutators interleave at the granularity of
    the state lock; a driver may be dropped at every await, also at the last one,
    where its memo has left the guard.  The theorems: every generation handed out
    is completed, running or pending, so nobody waits for one that was never
    scheduled; inputs are
    neither lost nor duplicated and keep their order; an epoch drains exactly
    the inputs that arrived before it; a mutator sleeps only while there is no
    boundary. *)
From stdpp Require Import base numbers sets gmap fin_maps sorting list.
From S2P Require Import Prelude Access.
From S2P Require Import Components Demo Stores Presence World WorldInv Ownership WorldOps Frame.
From S2P Require Import Commands Query Deps Planner Commit Engine.

Section engine_inv.
Context `{ComponentTypes} `{HashOrder}.
Implicit Types (w : World) (e : Entity) (ty : TypeId) (owner : SystemInvocation) (en : Engine).

Variable row_counts : SystemId → World → nat.

(** ** Steps *)

(** The sections that leave generations, inputs and boundaries alone. *)
Inductive quiet_section : Engine → Engine → Prop :=
  | qs_snapshot en en' snap : snapshot_locked en = Done (en', snap) → quiet_section en en'
  | qs_refresh en en' : refresh_settled_snapshot en = Done en' → quiet_section en en'
  | qs_publish en en' : publish_settled_revision en = Done en' → quiet_section en en'
  | qs_heal enabled en attempts en' attempts' healed :
      heal_stale_ambient enabled en attempts = Done (en', attempts', healed) → quiet_section en en'
  | qs_take_memo en : quiet_section en (take_memo en).1
  | qs_put_memo en memo : quiet_section en (put_memo memo en)
  | qs_hooks en memo runs en' memo' followup commits :
      Forall run_ok runs → commit_hooks row_counts en memo runs = Done (en', memo', followup, commits) →
      quiet_section en en'
  | qs_settle en memo run en' memo' :
      run_ok run → commit_settle row_counts en memo run = Done (en', memo') → quiet_section en en'
  | qs_drop_bound en e : quiet_section en (drop_bound e en)
  | qs_cleanup en en' : drain_deferred_bound_cleanup en = Done en' → quiet_section en en'
  | qs_drain en matched en' snap rows : drain en matched = Done (en', snap, rows) → quiet_section en en'
  | qs_take en e parts pinned en' taken : take_bound en e parts pinned = Done (en', taken) → quiet_section en en'
  | qs_watch en id : quiet_section en (next_settle en id).

(** A configuration: the engine, the run that holds the runner lock, the
    watermarks of the active settles, the mutators that wait for a boundary
    with what they want to stage, the generations handed out, the operations
    accepted and applied so far, whether an input was staged at a boundary,
    whether a run was abandoned outside every epoch, whether the run has taken the
    memo out of its guard and waits for the lock to finish, and the running
    generation whose driver was dropped while it waited. *)
Record Conf := MkConf {
  c_engine : Engine;
  c_eval : option Evaluation;
  c_epochs : list N;
  c_mutators : gmap CallerId (PreemptWaiter * CommandQueue);
  c_promised : list N;
  c_staged : list Operation;
  c_applied : list Operation;
  c_preempted : bool;
  c_stranded : bool;
  c_finishing : bool;
  c_lost : option N;
}.

Definition moved_to en (c : Conf) : Conf :=
  MkConf en (c_eval c) (c_epochs c) (c_mutators c) (c_promised c) (c_staged c) (c_applied c)
    (c_preempted c) (c_stranded c) (c_finishing c) (c_lost c).
Definition promise (g : N) (ops : list Operation) (c : Conf) : Conf :=
  MkConf (c_engine c) (c_eval c) (c_epochs c) (c_mutators c) (c_promised c ++ [g]) (c_staged c ++ ops)
    (c_applied c) (c_preempted c) (c_stranded c) (c_finishing c) (c_lost c).
Definition with_mutators (m : gmap CallerId (PreemptWaiter * CommandQueue)) (c : Conf) : Conf :=
  MkConf (c_engine c) (c_eval c) (c_epochs c) m (c_promised c) (c_staged c) (c_applied c) (c_preempted c)
    (c_stranded c) (c_finishing c) (c_lost c).
(** The run that drives, before it finishes. *)
Definition with_eval (ev : option Evaluation) (c : Conf) : Conf :=
  MkConf (c_engine c) ev (c_epochs c) (c_mutators c) (c_promised c) (c_staged c) (c_applied c)
    (c_preempted c) (c_stranded c) false None.
(** [guard.complete()] *)
Definition guard_completed (c : Conf) : Conf :=
  MkConf (c_engine c) (c_eval c) (c_epochs c) (c_mutators c) (c_promised c) (c_staged c) (c_applied c)
    (c_preempted c) (c_stranded c) true (c_lost c).
(** The driver is gone and nobody knows. *)
Definition driver_lost (ev : Evaluation) (c : Conf) : Conf :=
  MkConf (c_engine c) None (c_epochs c) (c_mutators c) (c_promised c) (c_staged c) (c_applied c)
    (c_preempted c) (c_stranded c) false (Some (eval_generation ev)).
Definition with_epochs (l : list N) (c : Conf) : Conf :=
  MkConf (c_engine c) (c_eval c) l (c_mutators c) (c_promised c) (c_staged c) (c_applied c) (c_preempted c)
    (c_stranded c) (c_finishing c) (c_lost c).
Definition with_applied (l : list Operation) (c : Conf) : Conf :=
  MkConf (c_engine c) (c_eval c) (c_epochs c) (c_mutators c) (c_promised c) (c_staged c) (c_applied c ++ l)
    (c_preempted c) (c_stranded c) (c_finishing c) (c_lost c).
Definition with_flags (preempted stranded : bool) (c : Conf) : Conf :=
  MkConf (c_engine c) (c_eval c) (c_epochs c) (c_mutators c) (c_promised c) (c_staged c) (c_applied c)
    (c_preempted c || preempted) (c_stranded c || stranded) (c_finishing c) (c_lost c).

(** The run holds its guard: it can be abandoned, and has not finished. *)
Definition driving (c : Conf) (ev : Evaluation) : Prop := c_eval c = Some ev ∧ c_finishing c = false.

(** What staging leaves behind: a receipt, or a mutator that holds the queue. *)
Definition staged_conf (c : Conf) en (id : CallerId) (ops : list Operation) (s : Staged) : Conf :=
  match s with
  | Queued g | Deferred g => promise g ops (moved_to en c)
  | NeedsBoundary q => with_mutators (<[id := (MkWaiter false false, q)]> (c_mutators c)) (moved_to en c)
  end.

Definition held_ops en : list Operation := concat ((λ p, pending p.2) <$> deferred_inputs (inputs en)).

Inductive engine_step : Conf → Conf → Prop :=
  | es_quiet c en : quiet_section (c_engine c) en → engine_step c (moved_to en c)
  | es_input c q preempting en s id :
      queue_ok q → c_mutators c !! id = None →
      stage_input (c_engine c) q preempting = Done (en, s) →
      engine_step c (staged_conf c en id (pending q) s)
  | es_insert c b preempting target en e s id :
      c_mutators c !! id = None →
      stage_insert (c_engine c) b preempting target = Done (en, e, s) →
      engine_step c (staged_conf c en id ((λ p, BaseOp (InsertBaseCommand e p.1 p.2)) <$> b) s)
  | es_boundary c id m q m' en s :
      c_mutators c !! id = Some (m, q) → stage_at_boundary m (c_engine c) id q = (m', en, s) →
      engine_step c
        (match s with
         | Queued g | Deferred g =>
             with_flags true false (promise g (pending q) (with_mutators (delete id (c_mutators c)) (moved_to en c)))
         | NeedsBoundary _ => with_mutators (<[id := (m', q)]> (c_mutators c)) (moved_to en c)
         end)
  | es_mutator c id deferred :
      c_mutators c !! id = None →
      engine_step c (with_mutators (<[id := (MkWaiter false deferred, queue_default)]> (c_mutators c)) c)
  | es_mutate R c id m ty e original held f m' en (out : Mutated R) :
      c_mutators c !! id = Some (m, queue_default) →
      mutate m (c_engine c) id ty e original held f = Done (m', en, out) →
      engine_step c
        (with_mutators (match out with
                        | MutDone _ _ | MutMissing _ => delete id (c_mutators c)
                        | _ => <[id := (m', queue_default)]> (c_mutators c)
                        end) (moved_to en c))
  | es_cancel c id m q :
      c_mutators c !! id = Some (m, q) →
      engine_step c (with_mutators (delete id (c_mutators c)) (moved_to (waiter_finish m (c_engine c)).2 c))
  | es_start c en ev startup :
      c_eval c = None → start_evaluation (c_engine c) = Done (en, Some (ev, startup)) →
      engine_step c (with_applied (pending (pending_inputs (inputs (c_engine c)))) (with_eval (Some ev) (moved_to en c)))
  | es_commit c ev run phase en ev' progress :
      driving c ev → run_ok run →
      commit_run row_counts (c_engine c) ev run phase = Done (en, ev', progress) →
      engine_step c (with_eval (Some ev') (moved_to en c))
  | es_open c ev : driving c ev → engine_step c (moved_to (open_window (c_engine c)).1 c)
  | es_close c ev :
      driving c ev → preempt_waiters (boundary (c_engine c)) = 0%N →
      engine_step c (moved_to (close_window (c_engine c)) c)
  | es_restart c ev : driving c ev → engine_step c (moved_to (restart_generation (c_engine c)) c)
  (** The end of [run_evaluation]: the memo leaves the guard, the driver waits for
      the lock, and completes; or is dropped while it waits, and the guard, empty,
      restores nothing. *)
  | es_finishing c ev : driving c ev → engine_step c (guard_completed c)
  | es_complete c ev changed :
      c_eval c = Some ev → c_finishing c = true →
      engine_step c (with_eval None (moved_to (complete_evaluation (c_engine c) ev changed).1 c))
  | es_lose c ev : c_eval c = Some ev → c_finishing c = true → engine_step c (driver_lost ev c)
  | es_abandon c ev :
      driving c ev →
      engine_step c
        (with_flags false (bool_decide (c_epochs c = []))
           (with_eval None (moved_to (abandon_evaluation (c_engine c) ev).1 c)))
  | es_wait c target id :
      target ∈ c_promised c → engine_step c (moved_to (wait_for_generation (c_engine c) target id).1 c)
  | es_enter c :
      engine_step c (with_epochs ((epoch_enter (c_engine c)).2 :: c_epochs c) (moved_to (epoch_enter (c_engine c)).1 c))
  | es_leave c watermark en woken l1 l2 :
      c_epochs c = l1 ++ watermark :: l2 → epoch_leave (c_engine c) = Done (en, woken) →
      engine_step c (with_epochs (l1 ++ l2) (moved_to en c))
  | es_head c watermark en s :
      watermark ∈ c_epochs c → settle_head (c_engine c) watermark = Done (en, s) →
      engine_step c (match s with SettleDrive t => promise t [] (moved_to en c) | _ => moved_to en c end)
  | es_check c watermark en s :
      watermark ∈ c_epochs c → settle_check (c_engine c) watermark = Done (en, s) → engine_step c (moved_to en c)
  | es_finish c watermark en s woken :
      watermark ∈ c_epochs c → settle_finish (c_engine c) watermark = Done (en, s, woken) →
      engine_step c (moved_to en c)
  | es_for_each A c rows ty (f : A → Entity → Value → Value * A) a en a' :
      for_each (c_engine c) rows ty f a = Done (en, a') → engine_step c (moved_to en c)
  | es_enqueue c : engine_step c (moved_to (enqueue_next_generation (c_engine c)) c).

(** A bowl nobody has called yet. *)
Definition conf_of en : Conf := MkConf en None [] ∅ [] [] [] false false false None.

(** ** The state behind the lock stays well formed *)

Lemma compact_systems_ok systems w systems' w' X :
  wf X w → compact_systems systems w = Done (systems', w') →
  wf X w' ∧ stores w' = stores w ∧ revision w' = revision w ∧ shared w' = shared w.
Proof using H H0.
  intros Hwf. unfold compact_systems. intros ([w1 rolled] & Hroll & Hrest)%bind_Done.
  pose proof (maybe_roll_shared _ _ _ Hroll) as Hsh. destruct rolled as [[epoch log]|].
  - apply maybe_roll_frame in Hroll as (_ & _ & _ & _ & _ & Hs & Hr & Hw).
    apply bind_Done in Hrest as (? & _ & [= _ <-]). auto.
  - injection Hrest as _ <-. unfold maybe_roll_plan_epoch in Hroll. case_bool_decide; [by injection Hroll as <-|].
    by apply bind_Done in Hroll as (? & _ & ?).
Qed.

Lemma queue_apply_ok q w (o : option SystemInvocation) q' r :
  queue_ok q → queue_apply q w o = (q', r) →
  queue_ok q' ∧ pending q' = [] ∧ r = apply_all o w (pending q).
Proof using H H0.
  intros Hq. unfold queue_apply. destruct (apply_or_defer q w o None) as [[q1 r1] d1] eqn:Hrun. intros [= <- <-].
  apply apply_or_defer_aux in Hrun as (? & ? & -> & _); [|done|done]. split_and!; try done. f_equal.
  clear. induction (pending q) as [|op ops IH]; [done|]. rewrite filter_cons. case_decide as Hd; [by rewrite IH|by destruct Hd].
Qed.

(** The outputs the last settle phase held back, then the external inputs. *)
Definition opening_ops (outputs : list SystemOutput) : list (SystemInvocation * list Operation) :=
  (λ o, (out_owner o, pending (out_commands o))) <$> outputs.
Definition apply_owned w (l : list (SystemInvocation * list Operation)) : result World :=
  fold_result (λ w '(o, ops), apply_all (Some o) w ops) w l.

Lemma apply_deferred_ok outputs st st' :
  state_ok st → Forall (λ o, queue_ok (out_commands o)) outputs →
  fold_result apply_deferred_settle st outputs = Done st' →
  state_ok st' ∧ evolves (cs_world st) (cs_world st') ∧ cs_memo st' = cs_memo st ∧ cs_systems st' = cs_systems st ∧
  deferred_settle st' = deferred_settle st ∧ apply_owned (cs_world st) (opening_ops outputs) = Done (cs_world st').
Proof using H H0.
  intros Hok Hq. revert st Hok. induction Hq as [|o outputs Ho _ IH]; intros st Hok; cbn [fold_result].
  { intros [= <-]. split_and!; try done. apply evolves_refl. }
  intros (st1 & H1 & Hrest)%bind_Done. unfold apply_deferred_settle in H1. destruct Hok as [W P Q].
  destruct (queue_apply _ _ _) as [drained r] eqn:Hr. apply bind_Done in H1 as (w1 & -> & [= <-]).
  apply queue_apply_ok in Hr as (Hd & _ & Hr); [|done].
  destruct (apply_steps_good _ _ _ (apply_all_steps _ _ _ _ (eq_sym Hr)) W) as [W1 E1].
  destruct (IH (set_pool (queue_drop (cs_pool st) drained) (set_world w1 st))) as (Hok2 & E2 & Hm & Hs & Hd2 & Ha); [|done|].
  { split; [done| |done]. by apply queue_drop_ok. }
  split_and!; [done|by eapply evolves_trans|done|done|done|].
  unfold apply_owned. cbn [opening_ops fmap list_fmap fold_result]. rewrite <-Hr. exact Ha.
Qed.

Lemma reconcile_removed_ok w memo systems removed owners selected w' memo' systems' retired :
  wf nothing_taken w →
  reconcile_removed_invocations w memo systems removed owners selected = Done (w', memo', systems', retired) →
  wf nothing_taken w' ∧ evolves w w' ∧ memo' ⊆ memo.
Proof using H H0.
  intros W. unfold reconcile_removed_invocations.
  intros ([[memo1 systems1] r1] & (Hsub1 & _ & _)%retire_owners_spec & Hrun)%bind_Done.
  apply bind_Done in Hrun as ([[w2 memo2] r2] & Hf & [= <- <- <- <-]).
  eapply (retire_frontier_spec _ _ _ _ _ _ _ _ _ _ ∅) in Hf as (W' & E' & _ & Hsub2 & _); [|done| |set_solver].
  - split_and!; [done|done|by etrans].
  - split; [|set_solver]. intros o ty e. by rewrite touched_empty.
Qed.

Lemma drains_good w :
  wf nothing_taken w →
  let w' := (take_removed_owners (take_removed_component_owners
               (take_removed_entities (take_written_derived w).1).1).1).1 in
  wf nothing_taken w' ∧ evolves w w' ∧ stores w' = stores w.
Proof using H H0.
  intros W. cbv zeta.
  assert (rtc apply_step w (take_removed_owners (take_removed_component_owners
               (take_removed_entities (take_written_derived w).1).1).1).1) as Hsteps.
  { eapply rtc_l; [apply as_drain_written|]. eapply rtc_l; [apply as_drain_entities|].
    eapply rtc_l; [apply as_drain_component_owners|]. apply rtc_once, as_drain_owners. }
  destruct (apply_steps_good _ _ _ Hsteps W). done.
Qed.

(** What [open_generation] does, in the order it does it. *)
Lemma open_generation_spec st base st' base' :
  state_ok st → queue_ok base → open_generation st base = Done (st', base') →
  state_ok st' ∧ queue_ok base' ∧ pending base' = [] ∧ deferred_settle st' = [] ∧ cs_memo st' ⊆ cs_memo st ∧
  ∃ w0 w1 w2 w3, stores w0 = stores (cs_world st) ∧ revision w0 = revision (cs_world st) ∧
    shared w0 = shared (cs_world st) ∧
    apply_owned w0 (opening_ops (deferred_settle st)) = Done w1 ∧
    apply_all None w1 (pending base) = Done w2 ∧ flush_derived_from w2 = Done w3 ∧
    evolves w0 w3 ∧ evolves w3 (cs_world st').
Proof using H H0.
  intros [W P Q] Hq. unfold open_generation.
  intros ([systems w0] & Hc & Hrest)%bind_Done. destruct (compact_systems_ok _ _ _ _ _ W Hc) as (W0 & Hs0 & Hr0 & Hsh0).
  apply bind_Done in Hrest as (st1 & H1 & Hrest).
  apply apply_deferred_ok in H1 as ([W1 P1 Q1] & E1 & Hm1 & _ & Hd1 & Ha1); [|by split|done]. simpl in *.
  destruct (queue_apply base _ _) as [base1 r2] eqn:Hr2. apply queue_apply_ok in Hr2 as (Hb & Hpb & Hr2); [|done].
  apply bind_Done in Hrest as (w2 & Hw2 & Hrest). rewrite Hw2 in Hr2.
  apply bind_Done in Hrest as (w3 & Hw3 & Hrest).
  assert (rtc apply_step (cs_world st1) w3) as Hsteps
    by (etrans; [by eapply apply_all_steps|]; by apply rtc_once, as_flush).
  destruct (apply_steps_good _ _ _ Hsteps W1) as [W3 E3].
  destruct (drains_good w3 W3) as (W4 & E4 & _).
  unfold take_written_derived, take_removed_entities, take_removed_component_owners, take_removed_owners in *.
  cbn [fst snd] in *.
  apply bind_Done in Hrest as ([[memo1 systems1] r1] & Ho & Hrest).
  apply retire_owners_spec in Ho as (Hsub & _ & _).
  apply bind_Done in Hrest as ([[[w5 memo2] systems2] r3] & Hf & [= <- <-]).
  destruct (reconcile_removed_ok _ _ _ _ _ _ _ _ _ _ W4 Hf) as (W5 & E5 & Hsub2).
  split_and!; [by split|done|done| | |].
  - done.
  - simpl. rewrite <-Hm1. by etrans.
  - exists w0, (cs_world st1), w2, w3. split_and!; [done..|by eapply evolves_trans|].
    by eapply evolves_trans.
Qed.

(** ** Quiet sections *)

Definition same_control en en' : Prop :=
  gens en' = gens en ∧ inputs en' = inputs en ∧ boundary en' = boundary en.

(** [snap] is the world as it was at some point, with that key. *)
Definition taken_at_key w (key : N * N * N) (snap : World) : Prop :=
  ∃ w0, world_clone w0 = Done snap ∧ snapshot_key w0 = key ∧ progressed w0 w.

(** The snapshots the engine keeps were taken from earlier states of its world. *)
Definition snapshots_ok en : Prop :=
  (∀ key snap, snapshot_cache (settled_state en) = Some (key, snap) → taken_at_key (world en) key snap) ∧
  (∀ snap, settled_snapshot (settled_state en) = Some snap → ∃ key, taken_at_key (world en) key snap) ∧
  (settled_revision (settled_state en) ≤ revision (world en))%N.

(** The section keeps the state behind the lock well formed, and the world only
    moves forward. *)
Definition steady en en' : Prop :=
  state_ok (commit en) → snapshots_ok en →
  state_ok (commit en') ∧ snapshots_ok en' ∧ progressed (world en) (world en').
Definition calm en en' : Prop := same_control en en' ∧ steady en en'.

Lemma steady_refl en : steady en en.
Proof. intros ??. split_and!; [done..|apply progressed_refl]. Qed.
Lemma steady_trans en1 en2 en3 : steady en1 en2 → steady en2 en3 → steady en1 en3.
Proof.
  intros H12 H23 Hs Hc. destruct (H12 Hs Hc) as (Hs2 & Hc2 & P2). destruct (H23 Hs2 Hc2) as (Hs3 & Hc3 & P3).
  split_and!; [done..|by eapply progressed_trans].
Qed.
Lemma calm_refl en : calm en en.
Proof. split; [done|apply steady_refl]. Qed.
Lemma calm_trans en1 en2 en3 : calm en1 en2 → calm en2 en3 → calm en1 en3.
Proof.
  intros [(? & ? & ?) ?] [(? & ? & ?) ?]. split; [split_and!; congruence|by eapply steady_trans].
Qed.

(** A section that does not publish. *)
Lemma steady_commit en en' :
  settled_state en' = settled_state en →
  (state_ok (commit en) → state_ok (commit en') ∧ progressed (world en) (world en')) → steady en en'.
Proof using H H0.
  intros Es Hst Hs (Hc1 & Hc2 & Hr). destruct (Hst Hs) as [Hs' P]. split_and!; [done| |done].
  assert (∀ key snap, taken_at_key (world en) key snap → taken_at_key (world en') key snap) as Hmono.
  { intros key snap (w0 & ? & ? & ?). exists w0. split_and!; [done..|by eapply progressed_trans]. }
  unfold snapshots_ok. rewrite Es. split_and!.
  - intros key snap Hk. by apply Hmono, Hc1.
  - intros snap Hk. destruct (Hc2 snap Hk) as [key ?]. exists key. by apply Hmono.
  - pose proof (pg_revision _ _ P). lia.
Qed.
Lemma steady_same en en' :
  settled_state en' = settled_state en → world en' = world en →
  (state_ok (commit en) → state_ok (commit en')) → steady en en'.
Proof using H H0.
  intros Es Ew Hs. apply steady_commit; [done|]. intros Hok. rewrite Ew. split; [by apply Hs|apply progressed_refl].
Qed.
(** The memo, the systems and the counters are not part of what must hold. *)
Lemma state_ok_frame st st' :
  cs_world st' = cs_world st → cs_pool st' = cs_pool st → deferred_settle st' = deferred_settle st →
  state_ok st → state_ok st'.
Proof. intros Hw Hp Hd []. split; by rewrite ?Hw, ?Hp, ?Hd. Qed.

Lemma snapshots_frame en en' :
  settled_state en' = settled_state en → world en' = world en → snapshots_ok en → snapshots_ok en'.
Proof. unfold snapshots_ok. by intros -> ->. Qed.

(** Publishing a snapshot that is one. *)
Lemma calm_settled en x : (state_ok (commit en) → snapshots_ok en → snapshots_ok (set_settled x en)) → calm en (set_settled x en).
Proof. intros Hx. split; [done|]. intros Hs Hc. split_and!; [done|by apply Hx|apply progressed_refl]. Qed.
Lemma calm_commit en st :
  (state_ok (commit en) → state_ok st ∧ progressed (cs_world (commit en)) (cs_world st)) → calm en (set_commit st en).
Proof using H H0. intros Hst. split; [done|]. by apply steady_commit. Qed.

Lemma snapshot_locked_spec en en' snap :
  snapshot_locked en = Done (en', snap) →
  calm en en' ∧ world en' = world en ∧
  settled_revision (settled_state en') = settled_revision (settled_state en) ∧
  settled_snapshot (settled_state en') = settled_snapshot (settled_state en) ∧
  (snapshots_ok en → taken_at_key (world en) (snapshot_key (world en)) snap).
Proof using H H0.
  unfold snapshot_locked. assert (∀ w, world_clone (world en) = Done w →
    let en' := set_settled (MkSettled (Some (snapshot_key (world en), w)) (settled_snapshot (settled_state en))
                  (settled_revision (settled_state en)) (settle_watchers (settled_state en))) en in
    calm en en' ∧ taken_at_key (world en) (snapshot_key (world en)) w) as Hfresh.
  { intros w Hw en1. assert (taken_at_key (world en) (snapshot_key (world en)) w) as Htk
      by (exists (world en); split_and!; [done..|apply progressed_refl]).
    split; [|done]. apply calm_settled. intros _ (_ & Hc2 & Hr). split_and!; [by intros ? ? [= <- <-]|exact Hc2|exact Hr]. }
  destruct (snapshot_cache (settled_state en)) as [[key cached]|] eqn:Hcache; [case_bool_decide|].
  - intros [= <- <-]. split_and!; [apply calm_refl|done..|]. intros [Hc1 _]. subst key. by apply Hc1.
  - intros (w & Hw & [= <- <-])%bind_Done. destruct (Hfresh w Hw). by split_and!.
  - intros (w & Hw & [= <- <-])%bind_Done. destruct (Hfresh w Hw). by split_and!.
Qed.

Lemma snapshot_calm en en' snap : snapshot_locked en = Done (en', snap) → calm en en'.
Proof. by intros (? & _)%snapshot_locked_spec. Qed.

Lemma refresh_calm en en' : refresh_settled_snapshot en = Done en' → calm en en'.
Proof using H H0.
  intros ([en1 w] & (Hc & Ew & _ & _ & Ht)%snapshot_locked_spec & [= <-])%bind_Done.
  split; [destruct Hc as [(? & ? & ?) _]; by split_and!|]. intros Hs Hcs. destruct Hc as [_ Hst].
  destruct (Hst Hs Hcs) as (Hs1 & (Hc1 & _ & Hr1) & P1). split_and!; [done| |done]. split_and!; [exact Hc1| |exact Hr1].
  intros snap [= <-]. exists (snapshot_key (world en)). rewrite <-Ew in *. by apply Ht.
Qed.

Lemma publish_calm en en' : publish_settled_revision en = Done en' → calm en en'.
Proof using H H0.
  unfold publish_settled_revision. case_bool_decide; [intros [= <-]; apply calm_refl|].
  intros (n & _ & [= <-])%bind_Done. split; [done|]. intros Hs (Hc1 & Hc2 & _).
  split_and!; [by apply (state_ok_frame (commit en))| |apply progressed_refl].
  split_and!; [exact Hc1|exact Hc2|]. simpl. done.
Qed.

Lemma cleanup_settled_calm en entities en' b : cleanup_settled en entities = Done (en', b) → calm en en'.
Proof using H H0.
  unfold cleanup_settled. intros (st & Hst & Hrest)%bind_Done.
  assert (calm en (set_commit st en)) as Hc.
  { apply calm_commit. intros Hok. destruct (cleanup_bound_ok _ _ _ Hok Hst) as (? & E & _).
    split; [done|by apply evolves_progressed]. }
  destruct (bowl_is_settled en).
  - apply bind_Done in Hrest as (en1 & Hp%publish_calm & [= <- _]). by eapply calm_trans.
  - by injection Hrest as <- _.
Qed.

Lemma take_bundle_steps w e parts w' out : take_bundle w e parts = Done (w', out) → rtc apply_step w w'.
Proof using H H0.
  revert w out. induction parts as [|[ty opt] parts IH]; intros w out; cbn [take_bundle]; [by intros [= <- _]|].
  intros ([w1 o1] & Hr & Hrest)%bind_Done. eapply rtc_l; [by eapply as_remove|].
  assert (∀ o r, (let c := o in '(w2, rest) ← take_bundle w1 e parts; Done (w2, option_map (cons c) rest)) = Done (w', r) →
    rtc apply_step w1 w') as Hrec by (intros o r ([w2 rest] & H2 & [= <- _])%bind_Done; by eapply IH).
  destruct (entry_value <$> row w ty e), opt; try by eapply Hrec. by injection Hrest as <- _.
Qed.

Lemma hooks_calm en memo runs en' memo' followup commits :
  Forall run_ok runs → commit_hooks row_counts en memo runs = Done (en', memo', followup, commits) → calm en en'.
Proof using H H0.
  intros Hq. unfold commit_hooks. intros ([[st f] n] & Hrun & [= <- <- <- <-])%bind_Done.
  apply calm_commit. intros Hok.
  assert (state_ok st ∧ progressed (cs_world (set_memo memo (commit en))) (cs_world st)) as [Hst P];
    [|split; [by apply (state_ok_frame st)|exact P]].
  assert (state_ok (set_memo memo (commit en))) as Hok' by by apply (state_ok_frame (commit en)).
  clear Hok. unfold commit_system_runs in Hrun. revert Hok' Hrun. generalize (set_memo memo (commit en)) false 0%N.
  induction Hq as [|run runs Hr _ IH]; intros st0 b0 n0 Hok Hrun; cbn [fold_result] in Hrun.
  { injection Hrun as <- _ _. split; [done|apply progressed_refl]. }
  apply bind_Done in Hrun as ([[st1 b1] n1] & H1 & Hrest).
  apply bind_Done in H1 as ([st2 p] & Hc & Hx). apply bind_Done in Hx as ([] & _ & [= -> _ _]).
  destruct (commit_state_aux _ _ _ _ _ _ Hok Hr Hc) as (Hok1 & E1 & _).
  destruct (IH _ _ _ Hok1 Hrest) as [Hok2 P2]. split; [done|].
  eapply progressed_trans; [by apply evolves_progressed|done].
Qed.

Lemma commit_settle_calm en memo run en' memo' :
  run_ok run → commit_settle row_counts en memo run = Done (en', memo') → calm en en'.
Proof using H H0.
  intros Hq. unfold commit_settle. intros ([st p] & Hrun & [= <- <-])%bind_Done.
  apply calm_commit. intros Hok.
  assert (state_ok (set_memo memo (commit en))) as Hok' by by apply (state_ok_frame (commit en)).
  destruct (commit_state_aux _ _ _ _ _ _ Hok' Hq Hrun) as (Hst & E & _).
  split; [by apply (state_ok_frame st)|by apply evolves_progressed].
Qed.

Lemma heal_calm enabled en attempts en' attempts' b :
  heal_stale_ambient enabled en attempts = Done (en', attempts', b) → calm en en'.
Proof using H H0.
  unfold heal_stale_ambient. destruct enabled; [simpl|by intros [= <- _ _]; apply calm_refl].
  case_bool_decide; [by intros [= <- _ _]; apply calm_refl|].
  intros ([st at'] & Hf & [= <- _ _])%bind_Done. apply calm_commit. revert Hf.
  intros Hf Hok. assert (state_ok st ∧ cs_world st = cs_world (commit en)) as [Hst Hw].
  { revert Hf. apply (fold_result_inv (λ p, state_ok p.1 ∧ cs_world p.1 = cs_world (commit en))); [|done].
    intros [s a] o [s' a'] _ [Hs Ew] Hstep. unfold heal_one in Hstep.
    apply bind_Done in Hstep as ([] & _ & Hstep). apply bind_Done in Hstep as (sys & _ & [= <- <-]).
    split; [by apply (state_ok_frame s)|done]. }
  split; [done|]. rewrite Hw. apply progressed_refl.
Qed.

Lemma quiet_calm en en' : quiet_section en en' → calm en en'.
Proof.
  intros Hs. destruct Hs as [en en' snap Hr|en en' Hr|en en' Hr|enabled en at0 en' at1 b Hr|en|en memo|
    en memo runs en' memo' f n Hq Hr|en memo run en' memo' Hq Hr|en e|en en' Hr|en matched en' snap rows Hr|
    en e parts pinned en' taken Hr|en id].
  - by eapply snapshot_calm.
  - by eapply refresh_calm.
  - by eapply publish_calm.
  - by eapply heal_calm.
  - split; [done|]. apply steady_same; [done..|]. by apply state_ok_frame.
  - split; [done|]. apply steady_same; [done..|]. by apply state_ok_frame.
  - by eapply hooks_calm.
  - by eapply commit_settle_calm.
  - split; [done|]. by apply steady_same.
  - unfold drain_deferred_bound_cleanup in Hr.
    assert (calm en (set_cleanup [] en)) as H0c by (split; [done|]; by apply steady_same).
    case_bool_decide; [by injection Hr as <-|].
    apply bind_Done in Hr as ([en1 b] & Hc%cleanup_settled_calm & Hr).
    eapply calm_trans; [exact H0c|]. eapply calm_trans; [exact Hc|].
    destruct b; [by apply refresh_calm|injection Hr as <-; apply calm_refl].
  - unfold drain in Hr. apply bind_Done in Hr as ([en1 s1] & Hs%snapshot_calm & Hr).
    apply bind_Done in Hr as ([en2 b] & Hc%cleanup_settled_calm & [= <- _ _]). by eapply calm_trans.
  - unfold take_bound in Hr. cbv zeta in Hr. eapply calm_trans.
    { apply (calm_settled _ (MkSettled None None (settled_revision (settled_state en)) (settle_watchers (settled_state en)))). by intros _ (_ & _ & ?). }
    destruct (existsb _ _); [injection Hr as <- _; apply calm_refl|].
    apply bind_Done in Hr as ([w out] & Ht%take_bundle_steps & Hr). apply bind_Done in Hr as (st & Hst & Hr).
    apply bind_Done in Hr as (en1 & Hp & [= <- _]).
    match type of Hst with cleanup_bound_entities (set_world w (commit ?x)) _ = _ => set (en0 := x) in * end.
    assert (calm en0 (set_commit st en0)) as Hc.
    { apply calm_commit. intros [W P Q]. destruct (apply_steps_good _ _ _ Ht W) as [W1 E1].
      destruct (cleanup_bound_ok _ _ _ (Build_state_ok (set_world w (commit en0)) W1 P Q) Hst) as (? & E2 & _).
      split; [done|]. by eapply evolves_progressed, evolves_trans. }
    eapply calm_trans; [exact Hc|]. destruct (bowl_is_settled en0); [by apply publish_calm|].
    injection Hp as <-. apply calm_refl.
  - by apply calm_settled.
Qed.

(** ** Generations *)

(** Generation [t] is finished, or one that is at least [t] is on its way. *)
Definition scheduled (g : Generations) (t : N) : Prop :=
  (t ≤ completed_generation g)%N ∨
  ∃ n, (running_generation g = Some n ∨ pending_generation g = Some n) ∧ (t ≤ n)%N.

Record gens_ok (g : Generations) (ev : option N) (promised : list N) (ws : list (N * CallerId)) : Prop := {
  go_run : running_generation g = ev;
  go_done : (completed_generation g < next_generation g)%N;
  go_running n : running_generation g = Some n → (completed_generation g < n)%N ∧ next_generation g = (n + 1)%N;
  go_pending p : pending_generation g = Some p → (completed_generation g < p ≤ next_generation g)%N ∧
    (is_Some (running_generation g) → p = next_generation g);
  go_idle : running_generation g = None → pending_generation g = None → next_generation g = (completed_generation g + 1)%N;
  go_promised t : t ∈ promised → scheduled g t;
  go_waiters t id : (t, id) ∈ ws → (completed_generation g < t)%N ∧ t ∈ promised;
}.

Lemma scheduled_pend g t : scheduled g t → scheduled (get_or_insert_pending g) t.
Proof.
  intros [?|(n & [?|Hp] & ?)]; [by left|right; exists n; by eauto|].
  right. exists n. split; [|done]. right. simpl. by rewrite Hp.
Qed.

Lemma gens_pend g ev promised ws : gens_ok g ev promised ws → gens_ok (get_or_insert_pending g) ev promised ws.
Proof.
  intros [Hr Hd Hrun Hp Hi Hs Hw]. split; try done.
  - intros p. simpl. destruct (pending_generation g) as [q|]; simpl; intros [= <-]; [by apply Hp|]. split; [|done]. lia.
  - intros t Ht. by apply scheduled_pend, Hs.
Qed.

Lemma gens_promise g ev promised ws t :
  gens_ok g ev promised ws → scheduled g t → gens_ok g ev (promised ++ [t]) ws.
Proof.
  intros [Hr Hd Hrun Hp Hi Hs Hw] Ht. split; try done.
  - intros t' [?|Heq%list_elem_of_singleton]%elem_of_app; [by apply Hs|by subst t'].
  - intros t' id Hin. destruct (Hw t' id Hin). split; [done|]. apply elem_of_app. by left.
Qed.

Lemma scheduled_pending g t : scheduled (get_or_insert_pending g) (default t (pending_generation (get_or_insert_pending g))).
Proof. right. simpl. eauto. Qed.

(** A start takes over the pending generation, and with it a lost one. *)
Lemma gens_start g ev promised ws p n :
  gens_ok g ev promised ws → pending_generation g = Some p → n = (p + 1)%N →
  gens_ok (MkGenerations (completed_generation g) (Some p) n None) (Some p) promised ws.
Proof.
  intros [Hr Hd Hrun Hp Hi Hs Hw] Hpend ->. destruct (Hp p Hpend) as [? Heq]. split; simpl; try done; [lia| |].
  - intros n [= <-]. split; [lia|done].
  - intros t Ht. destruct (Hs t Ht) as [?|(n & [Hn|?] & ?)]; [by left| |].
    + right. exists p. split; [by left|]. destruct (Hrun n Hn) as [_ Hnext]. rewrite Heq by (by eexists). lia.
    + right. exists n. split; [|done]. left. simpl. congruence.
Qed.

Lemma gens_complete g n promised ws :
  gens_ok g (Some n) promised ws →
  gens_ok (MkGenerations n None (next_generation g) (pending_generation g)) None promised
    (filter (λ p, ¬ p.1 ≤ n)%N ws).
Proof.
  intros [Hr Hd Hrun Hp Hi Hs Hw]. destruct (Hrun n Hr) as [Hlt Hn]. split; simpl; try done; [lia| | |].
  - intros p Hpend. destruct (Hp p Hpend) as [Hle Heq]. rewrite Hr in Heq. specialize (Heq ltac:(by eexists)).
    split; [lia|]. by intros [? ?].
  - intros t Ht. destruct (Hs t Ht) as [?|(m & [Hm|Hm] & ?)].
    + left. simpl. lia.
    + left. simpl. rewrite Hr in Hm. injection Hm as ->. lia.
    + right. exists m. eauto.
  - intros t id [Ht Hin]%list_elem_of_filter. simpl in Ht. destruct (Hw t id Hin). split; [lia|done].
Qed.

Lemma gens_abandon g n promised ws :
  gens_ok g (Some n) promised ws →
  gens_ok (MkGenerations (completed_generation g) None (next_generation g) (Some (default n (pending_generation g))))
    None promised [].
Proof.
  intros [Hr Hd Hrun Hp Hi Hs Hw]. destruct (Hrun n Hr) as [Hlt Hn]. split; simpl; try done; [| |].
  - intros p [= <-]. split; [|by intros [? ?]]. destruct (pending_generation g) as [q|] eqn:Hq; simpl; [|lia].
    by destruct (Hp q eq_refl).
  - intros t Ht. destruct (Hs t Ht) as [?|(m & [Hm|Hm] & ?)]; [by left| |].
    + right. eexists. split; [by right|]. rewrite Hr in Hm. injection Hm as ->.
      destruct (pending_generation g) as [q|] eqn:Hq; simpl; [|done]. destruct (Hp q eq_refl) as [_ Heq].
      rewrite Heq; [lia|]. by eexists.
    + right. exists m. split; [|done]. right. simpl. by rewrite Hm.
  - by intros t id ?%elem_of_nil.
Qed.

(** ** Inputs *)

Definition tags (i : Inputs) : list N := (deferred_inputs i).*1.
Definition held (i : Inputs) : list Operation := concat ((λ p, pending p.2) <$> deferred_inputs i).

Record inputs_core (i : Inputs) (p : option N) (preempted : bool) (staged applied : list Operation) : Prop := {
  io_pending : queue_ok (pending_inputs i);
  io_deferred : Forall (λ d, queue_ok d.2) (deferred_inputs i);
  io_drained : pending (pending_inputs i) ≠ [] → is_Some p;
  io_tags : StronglySorted N.lt (tags i);
  io_seq : Forall (λ t, (t ≤ input_seq i)%N) (tags i);
  io_bound : (input_seq i ≤ u64_max)%N;
  io_conserved : staged ≡ₚ applied ++ pending (pending_inputs i) ++ held i;
  io_order : preempted = false → staged = applied ++ pending (pending_inputs i) ++ held i;
}.

Record epochs_ok (i : Inputs) (epochs : list N) : Prop := {
  eo_settling : settling i = N.of_nat (length epochs);
  eo_watermarks : Forall (λ t, (t ≤ input_seq i)%N) epochs;
  eo_idle : epochs = [] → deferred_inputs i = [];
}.

Lemma push_pending_spec en q :
  queue_ok (pending_inputs (inputs en)) → queue_ok q →
  let en' := push_pending en q in
  gens en' = gens en ∧ boundary en' = boundary en ∧
  queue_ok (pending_inputs (inputs en')) ∧
  pending (pending_inputs (inputs en')) = pending (pending_inputs (inputs en)) ++ pending q ∧
  deferred_inputs (inputs en') = deferred_inputs (inputs en) ∧ input_seq (inputs en') = input_seq (inputs en) ∧
  settling (inputs en') = settling (inputs en) ∧ steady en en'.
Proof using H H0.
  intros Hp Hq. cbv zeta. unfold push_pending. destruct (queue_append _ q) as [t rest] eqn:Ha.
  destruct (queue_append_ok _ _ _ _ Hp Hq Ha) as (Ht & Hr & Hpt & _). simpl. split_and!; try done.
  apply steady_same; [done..|]. intros [W P Q]. split; [done| |done]. by apply queue_drop_ok.
Qed.

(** The promoted inputs are the ones tagged up to the watermark. *)
Lemma promote_loop_spec watermark en deferred en' promoted :
  inputs en = MkInputs (pending_inputs (inputs en)) deferred (input_seq (inputs en)) (settling (inputs en)) →
  queue_ok (pending_inputs (inputs en)) → Forall (λ d, queue_ok d.2) deferred → StronglySorted N.lt deferred.*1 →
  promote_loop watermark deferred en = (en', promoted) →
  let front := filter (λ d, d.1 ≤ watermark)%N deferred in
  let rest := filter (λ d, ¬ d.1 ≤ watermark)%N deferred in
  deferred = front ++ rest ∧ promoted = negb (bool_decide (front = [])) ∧
  gens en' = gens en ∧ boundary en' = boundary en ∧ queue_ok (pending_inputs (inputs en')) ∧
  pending (pending_inputs (inputs en')) =
    pending (pending_inputs (inputs en)) ++ concat ((λ d, pending d.2) <$> front) ∧
  deferred_inputs (inputs en') = rest ∧ input_seq (inputs en') = input_seq (inputs en) ∧
  settling (inputs en') = settling (inputs en) ∧ steady en en'.
Proof using H H0.
  intros Hi Hq Hd Hs. revert en en' promoted Hi Hq Hs. induction Hd as [|[tag q] rest Hqq Hd IH];
    intros en en' promoted Hi Hq Hs; cbn [promote_loop].
  { intros [= <- <-]. rewrite Hi. simpl. rewrite app_nil_r. split_and!; try done. apply steady_refl. }
  apply StronglySorted_inv in Hs as [Hs Hlt]. cbv zeta. rewrite !filter_cons. simpl.
  case_bool_decide as Ht.
  - rewrite decide_True, decide_False by tauto. intros [= <- <-].
    set (en1 := set_inputs _ en). set (en2 := push_pending en1 q).
    destruct (push_pending_spec en1 q) as (Hg & Hb & Hq2 & Hp2 & Hd2 & Hs2 & Hn2 & Hok); [done|done|].
    destruct (promote_loop watermark rest en2) as [en3 b3] eqn:Hrec.
    destruct (IH en2 en3 b3) as (Heq & _ & Hg3 & Hb3 & Hq3 & Hp3 & Hd3 & Hs3 & Hn3 & Hok3); try done.
    { unfold en2 in *. rewrite Hs2, Hn2. destruct (inputs (push_pending en1 q)); simpl in *. by subst. }
    fold en2 in Hg, Hb, Hq2, Hp2, Hd2, Hs2, Hn2, Hok. simpl. split_and!.
    + simpl. by rewrite <-Heq.
    + done.
    + by rewrite Hg3, Hg.
    + by rewrite Hb3, Hb.
    + done.
    + rewrite Hp3, Hp2. simpl. by rewrite <-app_assoc.
    + done.
    + by rewrite Hs3, Hs2.
    + by rewrite Hn3, Hn2.
    + eapply steady_trans; [|exact Hok3]. eapply steady_trans; [|exact Hok]. by apply steady_same.
  - rewrite decide_False, decide_True by done. intros [= <- <-].
    assert (filter (λ d : N * CommandQueue, (d.1 ≤ watermark)%N) rest = []) as ->.
    { clear -Hlt Ht. induction rest as [|[t q0] rest IH]; [done|]. apply Forall_cons in Hlt as [Hlt Hf].
      rewrite filter_cons. simpl in *. rewrite decide_False by lia. by apply IH. }
    assert (filter (λ d : N * CommandQueue, ¬ (d.1 ≤ watermark)%N) rest = rest) as ->.
    { clear -Hlt Ht. induction rest as [|[t q0] rest IH]; [done|]. apply Forall_cons in Hlt as [Hlt Hf].
      rewrite filter_cons. simpl in *. rewrite decide_True by lia. by rewrite IH. }
    rewrite Hi. simpl. rewrite app_nil_r. split_and!; try done. apply steady_refl.
Qed.

Lemma promote_spec en watermark en' promoted pre staged applied :
  inputs_core (inputs en) (pending_generation (gens en)) pre staged applied →
  promote_deferred_inputs en watermark = (en', promoted) →
  inputs_core (inputs en') (pending_generation (gens en')) pre staged applied ∧
  gens en' = (if promoted then get_or_insert_pending (gens en) else gens en) ∧ boundary en' = boundary en ∧
  input_seq (inputs en') = input_seq (inputs en) ∧ settling (inputs en') = settling (inputs en) ∧
  deferred_inputs (inputs en') = filter (λ d, ¬ d.1 ≤ watermark)%N (deferred_inputs (inputs en)) ∧
  pending (pending_inputs (inputs en')) = pending (pending_inputs (inputs en)) ++
    concat ((λ d, pending d.2) <$> filter (λ d, d.1 ≤ watermark)%N (deferred_inputs (inputs en))) ∧
  promoted = negb (bool_decide (filter (λ d, d.1 ≤ watermark)%N (deferred_inputs (inputs en)) = [])) ∧
  steady en en'.
Proof using H H0.
  intros [Hq Hd Hdr Ht Hs Hb Hc Ho]. unfold promote_deferred_inputs.
  destruct (promote_loop watermark (deferred_inputs (inputs en)) en) as [en1 b] eqn:Hl. intros [= <- <-].
  assert (inputs en = MkInputs (pending_inputs (inputs en)) (deferred_inputs (inputs en)) (input_seq (inputs en))
    (settling (inputs en))) as Hi by by destruct (inputs en).
  destruct (promote_loop_spec _ _ _ _ _ Hi Hq Hd Ht Hl) as (Hsplit & Hb1 & Hg & Hbd & Hq1 & Hp1 & Hd1 & Hs1 & Hn1 & Hok).
  set (front := filter _ _) in *. set (rest := filter (λ d, ¬ _) _) in *.
  assert (inputs (if b then enqueue_next_generation en1 else en1) = inputs en1) as Hii by by destruct b.
  rewrite Hii. split.
  - assert (pending (pending_inputs (inputs en)) ++ held (inputs en) =
      pending (pending_inputs (inputs en1)) ++ held (inputs en1)) as Hsame.
    { unfold held. rewrite Hd1, Hp1, <-app_assoc. f_equal. rewrite <-concat_app, <-fmap_app. by rewrite <-Hsplit. }
    split; try done.
    + rewrite Hd1. rewrite Hsplit in Hd. by apply Forall_app in Hd as [_ ?].
    + intros Hne. destruct b; [by eexists|]. simpl. rewrite Hg. apply Hdr. rewrite Hp1 in Hne.
      destruct (bool_decide (front = [])) eqn:Hf; [|done]. apply bool_decide_eq_true in Hf. rewrite Hf in Hne.
      by rewrite app_nil_r in Hne.
    + unfold tags in *. rewrite Hd1. rewrite Hsplit, fmap_app in Ht. clear -Ht.
      induction front as [|d front IH]; [done|]. apply IH. by apply StronglySorted_inv in Ht as [? _].
    + unfold tags in *. rewrite Hd1, Hs1. rewrite Hsplit, fmap_app in Hs. by apply Forall_app in Hs as [_ ?].
    + by rewrite Hs1.
    + by rewrite <-Hsame.
    + intros Hpre. rewrite <-Hsame. by apply Ho.
  - split_and!; try done; destruct b; simpl; try by rewrite ?Hg, ?Hbd.
Qed.

Lemma stage_spec en q preempting en' s pre staged applied ev promised ws epochs :
  inputs_core (inputs en) (pending_generation (gens en)) pre staged applied → epochs_ok (inputs en) epochs →
  gens_ok (gens en) ev promised ws → queue_ok q → stage_input en q preempting = Done (en', s) →
  boundary en' = boundary en ∧ epochs_ok (inputs en') epochs ∧ steady en en' ∧
  match s with
  | Queued g | Deferred g =>
      inputs_core (inputs en') (pending_generation (gens en')) pre (staged ++ pending q) applied ∧
      gens_ok (gens en') ev (promised ++ [g]) ws
  | NeedsBoundary q' => en' = en ∧ q' = q
  end.
Proof using H H0.
  intros Hcore [Hn Hw Hidle] Hg Hq. pose proof Hcore as [Hp Hd Hdr Ht Hs Hb Hc Ho]. unfold stage_input.
  case_bool_decide as Hset.
  - intros [= <- <-]. destruct (push_pending_spec en q Hp Hq) as (Hg1 & Hb1 & Hp1 & Hpp & Hd1 & Hs1 & Hn1 & Hok).
    assert (epochs = []) as -> by (destruct epochs; [done|simpl in *; lia]). specialize (Hidle eq_refl).
    simpl. split; [done|]. split; [split; rewrite ?Hd1, ?Hs1, ?Hn1; done|].
    split; [eapply steady_trans; [exact Hok|]; by apply steady_same|]. split.
    + split; try done.
      * by rewrite Hd1, Hidle.
      * unfold tags. rewrite Hd1, Hidle. constructor.
      * unfold tags. rewrite Hd1, Hidle. constructor.
      * simpl. by rewrite Hs1.
      * unfold held in *. simpl. rewrite Hpp, Hd1, Hidle in *. simpl in *. rewrite Hc, !app_nil_r, app_assoc. done.
      * intros Hpre. unfold held in *. simpl. rewrite Hpp, Hd1, Hidle in *. simpl in *. rewrite (Ho Hpre), !app_nil_r, app_assoc. done.
    + rewrite Hg1. apply gens_promise; [by apply gens_pend|]. apply (scheduled_pending (gens en) 0%N).
  - destruct preempting; simpl.
    { intros [= <- <-]. split_and!; try done. apply steady_refl. }
    intros (tag & Htag & [= <- <-])%bind_Done.
    apply expect_Done, u64_checked_succ_Some in Htag as [-> Hmax]. simpl.
    split; [done|]. split.
    { split; [done| |].
      - simpl. eapply Forall_impl; [exact Hw|]. intros x ?. simpl in *. lia.
      - intros ->. simpl in Hn. by destruct Hset. }
    split; [by apply steady_same|]. split.
    + split; try done; simpl.
      * apply Forall_app. split; [done|]. by constructor.
      * unfold tags in *. simpl. rewrite fmap_app. simpl. clear -Ht Hs.
        induction (deferred_inputs (inputs en)).*1 as [|t ts IH]; [repeat constructor|].
        apply StronglySorted_inv in Ht as [? Hf]. apply Forall_cons in Hs as [? ?]. simpl. constructor; [by apply IH|].
        apply Forall_app. split; [done|]. constructor; [lia|constructor].
      * unfold tags in *. simpl. rewrite fmap_app. apply Forall_app. split; [|by repeat constructor].
        eapply Forall_impl; [exact Hs|]. intros x ?. simpl in *. lia.
      * unfold held in *. simpl. rewrite fmap_app, concat_app. simpl. rewrite app_nil_r, Hc, !app_assoc. done.
      * intros Hpre. unfold held in *. simpl. rewrite fmap_app, concat_app. simpl. rewrite app_nil_r, (Ho Hpre), !app_assoc. done.
    + apply gens_promise; [done|]. by left.
Qed.

(** ** Boundaries *)

Abbreviation Mutators := (gmap CallerId (PreemptWaiter * CommandQueue)) (only parsing).

Definition b2n (m : PreemptWaiter) : nat := if registered m then 1 else 0.
Definition registered_count (m : Mutators) : nat := size (filter (λ p, registered p.2.1 = true) m).

Lemma registered_insert (m : Mutators) id x :
  m !! id = None → registered_count (<[id := x]> m) = registered_count m + b2n x.1.
Proof using H H0.
  intros Hid. unfold registered_count, b2n. destruct (registered x.1) eqn:Hr.
  - rewrite map_filter_insert_True by done. rewrite map_size_insert_None; [lia|].
    apply map_lookup_filter_None. by left.
  - rewrite map_filter_insert_not' by (simpl; congruence). lia.
Qed.

Lemma registered_delete (m : Mutators) id x :
  m !! id = Some x → registered_count m = registered_count (delete id m) + b2n x.1.
Proof using H H0.
  intros Hid. rewrite <-(insert_delete_id m id x Hid) at 1. by rewrite registered_insert by apply lookup_delete_eq.
Qed.

Lemma registered_replace (m : Mutators) id x y :
  m !! id = Some x → registered_count (<[id := y]> m) + b2n x.1 = registered_count m + b2n y.1.
Proof using H H0.
  intros Hid. rewrite (registered_delete m id x Hid), <-insert_delete_eq, registered_insert by apply lookup_delete_eq. lia.
Qed.

Record boundary_ok (b : Boundary) (running : option N) (epochs : list N) (m : Mutators) (stranded : bool) : Prop := {
  bo_count : preempt_waiters b = N.of_nat (registered_count m);
  bo_awake : stranded = false → boundary_waiters b ≠ [] →
    (is_Some running ∧ preempt_window b = false) ∨ epochs ≠ [];
}.

(** Only the boundary of the engine may change. *)
Definition only_boundary en en' : Prop :=
  gens en' = gens en ∧ inputs en' = inputs en ∧ commit en' = commit en ∧ settled_state en' = settled_state en.

Lemma boundary_reached_spec m en m' en' r :
  boundary_reached m en = (m', en', r) →
  only_boundary en en' ∧ waiters (boundary en') = waiters (boundary en) ∧
  boundary_waiters (boundary en') = boundary_waiters (boundary en) ∧
  preempt_window (boundary en') = preempt_window (boundary en) ∧
  (preempt_waiters (boundary en') + N.of_nat (b2n m) = preempt_waiters (boundary en) + N.of_nat (b2n m'))%N ∧
  waiter_deferred m' = waiter_deferred m ∧
  (if r then m' = m ∧ (running_generation (gens en) = None ∨ preempt_window (boundary en) = true)
   else is_Some (running_generation (gens en)) ∧ preempt_window (boundary en) = false).
Proof using H H0.
  unfold boundary_reached, only_boundary. destruct en as [st g i b s u cl]. simpl.
  case_bool_decide as H1; case_bool_decide as H2; simpl.
  all: try (destruct (preempt_window b) eqn:Hw); try (destruct (waiter_deferred m) eqn:Hd);
    try (destruct (registered m) eqn:Hr); intros [= <- <- <-]; simpl; split_and!; try done; unfold b2n; rewrite ?Hr; simpl;
    first [done|by left|by right|by destruct b|lia|by destruct (running_generation g)].
Qed.

Lemma waiter_finish_spec m en m' en' :
  waiter_finish m en = (m', en') →
  only_boundary en en' ∧ waiters (boundary en') = waiters (boundary en) ∧
  boundary_waiters (boundary en') = boundary_waiters (boundary en) ∧
  preempt_window (boundary en') = preempt_window (boundary en) ∧
  preempt_waiters (boundary en') = (preempt_waiters (boundary en) - N.of_nat (b2n m))%N.
Proof using H H0.
  unfold waiter_finish, only_boundary, b2n. destruct en as [st g i b s u cl]. simpl.
  destruct (registered m); intros [= <- <-]; simpl; split_and!; try done. lia.
Qed.

Lemma mutation_spec {R} en ty e held (f : Value → Value * R) en' out :
  apply_component_mutation en ty e held f = Done (en', out) →
  (gens en' = gens en ∨ gens en' = get_or_insert_pending (gens en)) ∧ inputs en' = inputs en ∧
  boundary en' = boundary en ∧ steady en en'.
Proof using H H0.
  unfold apply_component_mutation. intros ([w r] & Hr & [= <- <-])%bind_Done.
  assert (∀ en', settled_state en' = settled_state en → commit en' = set_world w (commit en) ∨
    commit en' = set_clean false (set_world w (commit en)) → steady en en') as Hok.
  { intros en' Es Ec. apply steady_commit; [done|]. intros [W P Q].
    destruct (apply_step_good _ _ _ W (as_try_update _ _ _ _ _ _ _ _ Hr)) as [W' E].
    unfold world. destruct Ec as [-> | ->]; (split; [by split|by apply evolves_progressed]). }
  destruct r as [[] out| |]; simpl; split_and!; auto.
Qed.

Lemma for_each_steps {A} ty (f : A → Entity → Value → Value * A) (rows : list Entity) acc acc' :
  fold_result (for_each_row ty f) acc rows = Done acc' → rtc apply_step acc.1.1 acc'.1.1.
Proof.
  revert acc. induction rows as [|e rows IH]; intros [[w a] changed]; simpl; [by intros [= <-]|].
  intros (acc1 & H1 & Hrest)%bind_Done. apply bind_Done in H1 as ([w1 out] & Hu & [= <-]).
  eapply rtc_l; [exact (as_update _ _ _ _ _ _ _ Hu)|].
  replace w1 with (match out with Some (c, a) => (w1, a, changed || c) | None => (w1, a, changed) end).1.1
    by (by destruct out as [[? ?]|]).
  exact (IH _ Hrest).
Qed.

Lemma for_each_spec {A} en rows ty (f : A → Entity → Value → Value * A) a en' a' :
  for_each en rows ty f a = Done (en', a') →
  (gens en' = gens en ∨ gens en' = get_or_insert_pending (gens en)) ∧ inputs en' = inputs en ∧
  boundary en' = boundary en ∧ steady en en'.
Proof using H H0.
  unfold for_each. intros (l & _ & Hr)%bind_Done. apply bind_Done in Hr as ([[w a1] changed] & Hf%for_each_steps & [= <- <-]).
  simpl in Hf.
  assert (∀ en', settled_state en' = settled_state en → commit en' = set_world w (commit en) ∨
    commit en' = set_clean false (set_world w (commit en)) → steady en en') as Hok.
  { intros en' Es Ec. apply steady_commit; [done|]. intros [W P Q].
    destruct (apply_steps_good _ _ _ Hf W) as [W' E].
    unfold world. destruct Ec as [-> | ->]; (split; [by split|by apply evolves_progressed]). }
  destruct changed; simpl; split_and!; auto.
Qed.

(** ** Every step keeps the engine well formed *)

(** The generation that is marked as running: the driver's, or one that lost its
    driver. *)
Definition conf_running (c : Conf) : option N :=
  match c_eval c with Some ev => Some (eval_generation ev) | None => c_lost c end.

Definition conf_gens (c : Conf) : Prop :=
  gens_ok (gens (c_engine c)) (conf_running c) (c_promised c) (waiters (boundary (c_engine c))).
Definition conf_inputs (c : Conf) : Prop :=
  inputs_core (inputs (c_engine c)) (pending_generation (gens (c_engine c))) (c_preempted c) (c_staged c) (c_applied c).
Definition conf_boundary (c : Conf) : Prop :=
  boundary_ok (boundary (c_engine c)) (running_generation (gens (c_engine c))) (c_epochs c) (c_mutators c) (c_stranded c).

Record engine_ok (c : Conf) : Prop := {
  ok_gens : conf_gens c;
  ok_inputs : conf_inputs c;
  ok_epochs : epochs_ok (inputs (c_engine c)) (c_epochs c);
  ok_boundary : conf_boundary c;
  ok_state : state_ok (commit (c_engine c));
  ok_snapshots : snapshots_ok (c_engine c);
  ok_queues id m q : c_mutators c !! id = Some (m, q) → queue_ok q;
}.

Lemma inputs_pend i g pre staged applied :
  inputs_core i (pending_generation g) pre staged applied →
  inputs_core i (pending_generation (get_or_insert_pending g)) pre staged applied.
Proof. intros []. split; try done; intros _; by eexists. Qed.

(** A step that leaves the control part alone, or only enqueues. *)
Lemma ok_control c en :
  engine_ok c → inputs en = inputs (c_engine c) → boundary en = boundary (c_engine c) →
  (gens en = gens (c_engine c) ∨ gens en = get_or_insert_pending (gens (c_engine c))) →
  steady (c_engine c) en → engine_ok (moved_to en c).
Proof.
  intros [Hg Hi He Hb Hs Hsn Hq] Ei Eb Eg Hs'. unfold conf_gens, conf_inputs, conf_boundary in *.
  split; unfold conf_gens, conf_inputs, conf_boundary; simpl; rewrite ?Ei, ?Eb.
  - destruct Eg as [->| ->]; [exact Hg|]. by apply gens_pend.
  - destruct Eg as [->| ->]; [exact Hi|]. by apply inputs_pend.
  - exact He.
  - destruct Eg as [->| ->]; exact Hb.
  - by apply Hs'.
  - by apply Hs'.
  - exact Hq.
Qed.

Lemma ok_calm c en : engine_ok c → calm (c_engine c) en → engine_ok (moved_to en c).
Proof. intros Hok [(Hg & Hi & Hb) Hs]. apply ok_control; auto. Qed.

Lemma ok_staged c en q s id preempting :
  engine_ok c → queue_ok q → c_mutators c !! id = None →
  stage_input (c_engine c) q preempting = Done (en, s) → engine_ok (staged_conf c en id (pending q) s).
Proof.
  intros [Hg Hi He Hb Hs Hsn Hqs] Hq Hid Hst. unfold conf_gens, conf_inputs, conf_boundary in *.
  destruct (stage_spec _ _ _ _ _ _ _ _ _ _ _ _ Hi He Hg Hq Hst) as (Eb & He' & Hs' & Hcase).
  assert (running_generation (gens en) = running_generation (gens (c_engine c))) as Hrun.
  { destruct s as [n|n|q']; [| |by destruct Hcase as [-> _]];
      destruct Hcase as [_ Hg']; by rewrite (go_run _ _ _ _ Hg), (go_run _ _ _ _ Hg'). }
  destruct s as [n|n|q'].
  1,2: destruct Hcase as [Hi' Hg']; split; unfold conf_gens, conf_inputs, conf_boundary; simpl;
    rewrite ?Eb, ?Hrun; try (by apply Hs'); auto.
  destruct Hcase as [-> ->]. split; unfold conf_gens, conf_inputs, conf_boundary; simpl; auto.
  - destruct Hb as [Hc Ha]. split; [|done]. rewrite registered_insert by done. simpl. unfold b2n. simpl. lia.
  - intros id' m q'. rewrite lookup_insert. case_decide; [by intros [= <- <-]|eauto].
Qed.

Lemma bundle_queue_spec b e q :
  queue_ok q → queue_ok (bundle_queue b e q) ∧
  pending (bundle_queue b e q) = pending q ++ ((λ p, BaseOp (InsertBaseCommand e p.1 p.2)) <$> b).
Proof using H H0.
  unfold bundle_queue. revert q. induction b as [|[ty v] b IH]; intros q Hq; simpl; [by rewrite app_nil_r|].
  destruct (push_operation_spec q (BaseOp (InsertBaseCommand e ty v)) Hq) as [Hq' Hp].
  destruct (IH _ Hq') as [? Hp']. split; [done|]. unfold base_push in *. by rewrite Hp', Hp, <-app_assoc.
Qed.

Lemma insert_entity_steps w target b w' e : insert_entity w target b = Done (w', e) → rtc apply_step w w'.
Proof using H H0.
  unfold insert_entity. destruct target; [by intros [= <- _]|]. intros (key & _ & [= Hk])%bind_Done.
  apply rtc_once. destruct key as [key|].
  - assert (w' = (singleton_entity_or_spawn w key).1) as -> by by rewrite Hk. apply as_singleton.
  - assert (w' = (spawn_empty w).1) as -> by by rewrite Hk. apply as_spawn.
Qed.

Lemma ok_insert c b preempting target en e s id :
  engine_ok c → c_mutators c !! id = None → stage_insert (c_engine c) b preempting target = Done (en, e, s) →
  engine_ok (staged_conf c en id ((λ p, BaseOp (InsertBaseCommand e p.1 p.2)) <$> b) s).
Proof.
  intros Hok Hid. unfold stage_insert. intros ([w e'] & Hw%insert_entity_steps & Hrest)%bind_Done.
  destruct (ok_state _ Hok) as [W P Q]. destruct (apply_steps_good _ _ _ Hw W) as [W' E].
  set (st := set_world w (commit (c_engine c))) in *.
  destruct (if pool_home st then pool_take (cs_pool st) else (cs_pool st, queue_default)) as [pool q] eqn:Htake.
  assert (pool_ok (pool, []) ∧ queue_ok q ∧ pending q = []) as (P' & Hq & Hpq).
  { destruct (pool_home st); [|by injection Htake as <- <-; split_and!; [|apply queue_default_ok|]].
    by destruct (pool_take_ok _ _ _ _ P Htake) as (? & ? & ? & _). }
  apply bind_Done in Hrest as ([en' s'] & Hst & [= -> -> ->]).
  destruct (bundle_queue_spec b e q Hq) as [Hbq Hbp]. rewrite Hpq in Hbp. simpl in Hbp. rewrite <-Hbp.
  assert (engine_ok (moved_to (set_commit (set_pool pool st) (c_engine c)) c)) as Hok1.
  { apply ok_control; auto. apply steady_commit; [done|]. intros _. split; [by split|by apply evolves_progressed]. }
  assert (∀ c1, c1 = moved_to (set_commit (set_pool pool st) (c_engine c)) c →
    engine_ok (staged_conf c1 en id (pending (bundle_queue b e q)) s)) as Hfin.
  { intros c1 ->. by eapply ok_staged. }
  specialize (Hfin _ eq_refl). by destruct s.
Qed.

Lemma ok_attempt c id m q m' en r :
  engine_ok c → c_mutators c !! id = Some (m, q) → boundary_reached m (c_engine c) = (m', en, r) →
  (if r then m' = m ∧ engine_ok (moved_to en c)
   else engine_ok (with_mutators (<[id := (m', q)]> (c_mutators c)) (moved_to (await_boundary en id) c))).
Proof.
  intros [Hg Hi He Hb Hs Hsn Hqs] Hid Hr. unfold conf_gens, conf_inputs, conf_boundary in *. pose proof Hb as [Hc Ha].
  apply boundary_reached_spec in Hr as ((Og & Oi & Oc & Os) & Hw & Hbw & Hwin & Hcount & _ & Hcase). destruct r.
  - destruct Hcase as [-> _]. split; [done|].
    split; unfold conf_gens, conf_inputs, conf_boundary; simpl; rewrite ?Og, ?Oi, ?Oc, ?Hw;
    try (apply (snapshots_frame (c_engine c)); [done|unfold world; simpl; by rewrite Oc|done]); auto.
    split; [lia|]. rewrite Hbw, Hwin. exact Ha.
  - destruct Hcase as [Hrun Hcl]. pose proof (registered_replace _ _ _ (m', q) Hid) as Hcr. simpl in Hcr.
    split; unfold conf_gens, conf_inputs, conf_boundary; simpl; rewrite ?Og, ?Oi, ?Oc, ?Hw;
    try (apply (snapshots_frame (c_engine c)); [done|unfold world; simpl; by rewrite Oc|done]); auto.
    + split; simpl; [lia|]. intros _ _. left. by rewrite Hwin.
    + intros id' m0 q0. rewrite lookup_insert. case_decide; [intros [= <- <-]; by eapply Hqs|by apply Hqs].
Qed.

(** A mutator that is done leaves. *)
Lemma ok_leave_mutator c id m q m' en :
  engine_ok c → c_mutators c !! id = Some (m, q) → waiter_finish m (c_engine c) = (m', en) →
  engine_ok (with_mutators (delete id (c_mutators c)) (moved_to en c)).
Proof.
  intros [Hg Hi He Hb Hs Hsn Hqs] Hid Hr. unfold conf_gens, conf_inputs, conf_boundary in *. pose proof Hb as [Hc Ha].
  apply waiter_finish_spec in Hr as ((Og & Oi & Oc & Os) & Hw & Hbw & Hwin & Hcount).
  pose proof (registered_delete _ _ _ Hid) as Hcd. simpl in Hcd.
  split; unfold conf_gens, conf_inputs, conf_boundary; simpl; rewrite ?Og, ?Oi, ?Oc, ?Hw;
    try (apply (snapshots_frame (c_engine c)); [done|unfold world; simpl; by rewrite Oc|done]); auto.
  - split; [lia|]. rewrite Hbw, Hwin. exact Ha.
  - intros id' m0 q0 [_ Hl]%lookup_delete_Some. by eapply Hqs.
Qed.

Lemma ok_boundary_stage c id m q m' en s :
  engine_ok c → c_mutators c !! id = Some (m, q) → stage_at_boundary m (c_engine c) id q = (m', en, s) →
  engine_ok (match s with
    | Queued g | Deferred g =>
        with_flags true false (promise g (pending q) (with_mutators (delete id (c_mutators c)) (moved_to en c)))
    | NeedsBoundary _ => with_mutators (<[id := (m', q)]> (c_mutators c)) (moved_to en c)
    end).
Proof.
  intros Hok Hid. unfold stage_at_boundary. destruct (boundary_reached m (c_engine c)) as [[m1 en1] r] eqn:Hr.
  pose proof (ok_attempt _ _ _ _ _ _ _ Hok Hid Hr) as Hat. destruct r; [|by intros [= <- <- <-]].
  destruct Hat as [-> Hok1]. destruct (waiter_finish m en1) as [m2 en2] eqn:Hf. intros [= <- <- <-].
  pose proof (ok_leave_mutator (moved_to en1 c) _ _ _ _ _ Hok1 Hid Hf) as [Hg Hi He Hb Hs Hsn Hqs].
  unfold conf_gens, conf_inputs, conf_boundary in *. simpl in *. pose proof Hi as [Hp Hd Hdr Ht Hsq Hbd Hcs Ho].
  assert (queue_ok q) as Hq by by eapply (ok_queues _ Hok).
  destruct (push_pending_spec en2 q Hp Hq) as (Eg & Eb & Hp' & Epp & Ed & Es & En & Hok').
  split; unfold conf_gens, conf_inputs, conf_boundary; simpl; rewrite ?Eg, ?Eb; try (by apply Hok'); auto.
  - apply gens_promise; [by apply gens_pend|]. apply (scheduled_pending (gens en2) 0%N).
  - split; try done; unfold tags, held in *; rewrite ?Ed, ?Es, ?Epp; try done.
    + by rewrite Hcs, <-!app_assoc, (Permutation_app_comm (concat _) (pending q)).
    + by rewrite orb_true_r.
  - destruct He. split; by rewrite ?Ed, ?Es, ?En.
  - destruct Hb. by rewrite orb_false_r.
Qed.

Lemma ok_mutate {R} c id m ty e original held (f : Value → Value * R) m' en out :
  engine_ok c → c_mutators c !! id = Some (m, queue_default) →
  mutate m (c_engine c) id ty e original held f = Done (m', en, out) →
  engine_ok (with_mutators (match out with
                            | MutDone _ _ | MutMissing _ => delete id (c_mutators c)
                            | _ => <[id := (m', queue_default)]> (c_mutators c)
                            end) (moved_to en c)).
Proof.
  intros Hok Hid. unfold mutate. destruct (match original with Some _ => _ | None => false end).
  { destruct (waiter_finish m (c_engine c)) as [m1 en1] eqn:Hf. intros [= <- <- <-]. by eapply ok_leave_mutator. }
  destruct (boundary_reached m (c_engine c)) as [[m1 en1] r] eqn:Hr.
  pose proof (ok_attempt _ _ _ _ _ _ _ Hok Hid Hr) as Hat. destruct r; [|by intros [= <- <- <-]].
  destruct Hat as [-> Hok1]. intros ([en2 outcome] & Hm & Hrest)%bind_Done.
  apply mutation_spec in Hm as (Eg & Ei & Eb & Hs).
  assert (engine_ok (moved_to en2 c)) as Hok2 by (by apply (ok_control (moved_to en1 c))).
  destruct outcome as [ch o| |].
  - destruct (waiter_finish m en2) as [m3 en3] eqn:Hf. injection Hrest as <- <- <-.
    by apply (ok_leave_mutator (moved_to en2 c) _ _ _ _ _ Hok2 Hid Hf).
  - destruct (waiter_finish m en2) as [m3 en3] eqn:Hf. injection Hrest as <- <- <-.
    by apply (ok_leave_mutator (moved_to en2 c) _ _ _ _ _ Hok2 Hid Hf).
  - injection Hrest as <- <- <-. by rewrite insert_id.
Qed.

Lemma ok_start c en ev startup :
  engine_ok c → c_eval c = None → start_evaluation (c_engine c) = Done (en, Some (ev, startup)) →
  engine_ok (with_applied (pending (pending_inputs (inputs (c_engine c)))) (with_eval (Some ev) (moved_to en c))).
Proof.
  intros [Hg Hi He Hb Hs Hsn Hqs] Hev. unfold conf_gens, conf_running, conf_inputs, conf_boundary in *. rewrite Hev in Hg.
  unfold start_evaluation. destruct (pending_generation (gens (c_engine c))) as [p|] eqn:Hp; [|done].
  intros ([st base] & Ho & Hrest)%bind_Done. pose proof Hi as [Hq Hd Hdr Ht Hsq Hbd Hcs Hor].
  apply open_generation_spec in Ho as (Hs' & Hqb & Hpb & _ & _ & w0 & w1 & w2 & w3 & Ew & Er & Esh & _ & _ & _ & E1 & E2);
    [|done|done].
  apply bind_Done in Hrest as (next & Hn%expect_Done & Hrest). apply u64_checked_succ_Some in Hn as [-> _].
  assert (∃ restart, en = MkEngine (set_clean false (set_memo ∅ st))
              (MkGenerations (completed_generation (gens (c_engine c))) (Some p) (p + 1) None)
              (MkInputs base (deferred_inputs (inputs (c_engine c))) (input_seq (inputs (c_engine c))) (settling (inputs (c_engine c))))
              (set_window false (set_restart restart (boundary (c_engine c))))
              (settled_state (c_engine c)) true (deferred_bound_cleanup (c_engine c)) ∧ ev = MkEvaluation p (cs_memo st))
    as (restart & -> & ->) by (destruct (startup_ran (c_engine c)); injection Hrest as <- <- <-; eauto).
  match goal with |- engine_ok (with_applied _ (with_eval _ (moved_to ?x c))) => assert (steady (c_engine c) x) as Hst end.
  { apply steady_commit; [done|]. intros _. split; [by apply (state_ok_frame st)|].
    eapply progressed_trans; [by apply (progressed_frame _ w0)|].
    eapply progressed_trans; apply evolves_progressed; [exact E1|exact E2]. }
  split; unfold conf_gens, conf_inputs, conf_boundary; simpl.
  - by eapply gens_start.
  - unfold held in *. simpl in *. split; try done; unfold held; simpl; rewrite ?Hpb.
    + by rewrite <-app_assoc.
    + intros Hpre. simpl. by rewrite <-app_assoc, Hor.
  - by destruct He.
  - destruct Hb. split; [done|]. intros Hst' Hne. left. split; [by eexists|done].
  - by apply (state_ok_frame st).
  - by apply Hst.
  - done.
Qed.

Lemma ok_complete c ev changed :
  engine_ok c → c_eval c = Some ev → engine_ok (with_eval None (moved_to (complete_evaluation (c_engine c) ev changed).1 c)).
Proof.
  intros [Hg Hi He Hb Hs Hsn Hqs] Hev. unfold conf_gens, conf_running, conf_inputs, conf_boundary in *. rewrite Hev in Hg.
  split; unfold conf_gens, conf_inputs, conf_boundary; simpl; auto.
  - by apply gens_complete.
  - destruct Hb. by split.
  - by apply (state_ok_frame (commit (c_engine c))).
Qed.

Lemma ok_finishing c : engine_ok c → engine_ok (guard_completed c).
Proof. by intros []. Qed.

(** Losing the driver changes nothing behind the lock. *)
Lemma ok_lose c ev : engine_ok c → c_eval c = Some ev → engine_ok (driver_lost ev c).
Proof.
  intros [Hg Hi He Hb Hs Hsn Hqs] Hev. split; try done.
  unfold conf_gens, conf_running in *. simpl. by rewrite Hev in Hg.
Qed.

Lemma ok_abandon c ev :
  engine_ok c → c_eval c = Some ev →
  engine_ok (with_flags false (bool_decide (c_epochs c = [])) (with_eval None (moved_to (abandon_evaluation (c_engine c) ev).1 c))).
Proof.
  intros [Hg Hi He Hb Hs Hsn Hqs] Hev. unfold conf_gens, conf_running, conf_inputs, conf_boundary in *. rewrite Hev in Hg.
  split; unfold conf_gens, conf_inputs, conf_boundary; simpl; auto.
  - by eapply gens_abandon.
  - rewrite orb_false_r. destruct Hi. split; try done; intros _; by eexists.
  - destruct Hb as [Hc Ha]. split; [done|]. intros [_ Hne]%orb_false_iff _. right. by apply bool_decide_eq_false in Hne.
  - by apply (state_ok_frame (commit (c_engine c))).
Qed.

Lemma ok_wait c target id :
  engine_ok c → target ∈ c_promised c → engine_ok (moved_to (wait_for_generation (c_engine c) target id).1 c).
Proof.
  intros Hok Ht. unfold wait_for_generation. case_bool_decide as Hle; simpl; [by apply ok_control; auto using steady_refl|].
  destruct Hok as [Hg Hi He Hb Hs Hsn Hqs]. unfold conf_gens, conf_inputs, conf_boundary in *.
  split; unfold conf_gens, conf_inputs, conf_boundary; simpl; auto.
  - destruct Hg as [? ? ? ? ? ? Hw]. split; try done. intros t i [?|Heq%list_elem_of_singleton]%elem_of_app.
    + by eapply Hw.
    + injection Heq as -> ->. split; [lia|done].
  - destruct Hb. by split.
Qed.

Lemma ok_enter c :
  engine_ok c → engine_ok (with_epochs ((epoch_enter (c_engine c)).2 :: c_epochs c) (moved_to (epoch_enter (c_engine c)).1 c)).
Proof.
  intros [Hg Hi He Hb Hs Hsn Hqs]. unfold conf_gens, conf_inputs, conf_boundary in *.
  split; unfold conf_gens, conf_inputs, conf_boundary; simpl; auto.
  - by destruct Hi.
  - destruct He as [Hn Hw Hidle]. split; simpl; [lia| |done]. by constructor.
  - destruct Hb as [Hc Ha]. split; [done|]. intros _ _. by right.
Qed.

Lemma ok_leave c watermark en woken l1 l2 :
  engine_ok c → c_epochs c = l1 ++ watermark :: l2 → epoch_leave (c_engine c) = Done (en, woken) →
  engine_ok (with_epochs (l1 ++ l2) (moved_to en c)).
Proof.
  intros [Hg Hi [Hn Hw _] Hb Hs Hsn Hqs] Hl. unfold conf_gens, conf_inputs, conf_boundary in *. unfold epoch_leave.
  intros ([] & _ & [= <- <-])%bind_Done. set (en1 := set_inputs _ (c_engine c)).
  rewrite Hl in Hn, Hw. rewrite length_app in Hn. simpl in Hn. apply Forall_app in Hw as [Hw1 Hw2].
  apply Forall_cons in Hw2 as [_ Hw2].
  assert (inputs_core (inputs en1) (pending_generation (gens en1)) (c_preempted c) (c_staged c) (c_applied c)) as Hi1
    by by destruct Hi.
  change (settling (inputs en1)) with (settling (inputs (c_engine c)) - 1)%N.
  assert (settling (inputs en1) = N.of_nat (length (l1 ++ l2))) as Hn1 by (rewrite length_app; simpl; lia).
  assert (Forall (λ t, (t ≤ input_seq (inputs en1))%N) (l1 ++ l2)) as Hwm by by apply Forall_app.
  destruct Hb as [Hc Ha]. case_bool_decide as Hz.
  - destruct (promote_deferred_inputs en1 u64_max) as [en2 b] eqn:Hp.
    destruct (promote_spec _ _ _ _ _ _ _ Hi1 Hp) as (Hi2 & Eg & Eb & Es & En & Ed & _ & _ & Hs2). simpl.
    split; unfold conf_gens, conf_inputs, conf_boundary; simpl; rewrite ?Eb; auto.
    + rewrite Eg. destruct b; [by apply gens_pend|done].
    + split; [by rewrite En|by rewrite Es|]. intros _. rewrite Ed.
      destruct Hi1 as [_ _ _ _ Hsq Hbd _ _]. unfold tags in Hsq. clear -Hsq Hbd.
      induction (deferred_inputs (inputs en1)) as [|d ds IH]; [done|]. simpl in Hsq.
      apply Forall_cons in Hsq as [Hd Hsq]. rewrite filter_cons, decide_False; [by apply IH|]. intros Hx. apply Hx. etrans; [exact Hd|exact Hbd].
    + by split.
    + by apply Hs2.
    + by apply Hs2.
  - split; unfold conf_gens, conf_inputs, conf_boundary; simpl; auto.
    + split; [done|done|]. intros Hnil. rewrite Hnil in Hn1. by destruct Hz.
    + by split.
Qed.

(** Promotion inside an epoch. *)
Lemma ok_promote c watermark en b :
  engine_ok c → promote_deferred_inputs (c_engine c) watermark = (en, b) → engine_ok (moved_to en c).
Proof.
  intros [Hg Hi [Hn Hw Hidle] Hb Hs Hsn Hqs] Hp. unfold conf_gens, conf_inputs, conf_boundary in *.
  destruct (promote_spec _ _ _ _ _ _ _ Hi Hp) as (Hi2 & Eg & Eb & Es & En & Ed & _ & _ & Hs2).
  split; unfold conf_gens, conf_inputs, conf_boundary; simpl; rewrite ?Eb; auto.
  - rewrite Eg. destruct b; [by apply gens_pend|done].
  - split; [by rewrite En|by rewrite Es|]. intros Hnil. rewrite Ed. by rewrite (Hidle Hnil).
  - rewrite Eg. by destruct b, Hb.
  - by apply Hs2.
  - by apply Hs2.
Qed.

Lemma ok_promise c t : engine_ok c → scheduled (gens (c_engine c)) t → engine_ok (promise t [] c).
Proof.
  intros [Hg Hi He Hb Hs Hsn Hqs] Ht. unfold conf_gens, conf_inputs, conf_boundary in *.
  split; unfold conf_gens, conf_inputs, conf_boundary; simpl; auto.
  - by apply gens_promise.
  - by rewrite app_nil_r.
Qed.

(** What the settle drives is on its way, or done. *)
Lemma settle_target g : scheduled g (default (completed_generation g)
    (match pending_generation g with Some p => Some p | None => running_generation g end)).
Proof.
  destruct (pending_generation g) as [p|] eqn:Hp; simpl; [right; exists p; auto|].
  destruct (running_generation g) as [n|] eqn:Hn; simpl; [right; exists n; auto|by left].
Qed.

Lemma ok_settle_end c en1 en : engine_ok (moved_to en1 c) → refresh_settled_snapshot en1 = Done en → engine_ok (moved_to en c).
Proof. intros Hok Hr%refresh_calm. by apply (ok_calm (moved_to en1 c)). Qed.

Lemma ok_head c watermark en s :
  engine_ok c → settle_head (c_engine c) watermark = Done (en, s) →
  engine_ok (match s with SettleDrive t => promise t [] (moved_to en c) | _ => moved_to en c end).
Proof.
  intros Hok. unfold settle_head. destruct (bowl_is_settled (c_engine c)).
  - destruct (promote_deferred_inputs (c_engine c) watermark) as [en1 b] eqn:Hp.
    pose proof (ok_promote _ _ _ _ Hok Hp) as Hok1. destruct b; [by intros [= <- <-]|].
    intros (en2 & Hr & [= <- <-])%bind_Done. by eapply ok_settle_end.
  - intros [= <- <-]. apply ok_promise; [|apply settle_target]. by apply ok_control; auto using steady_refl.
Qed.

Lemma ok_check c watermark en s :
  engine_ok c → settle_check (c_engine c) watermark = Done (en, s) → engine_ok (moved_to en c).
Proof.
  intros Hok. unfold settle_check. cbv zeta. destruct (_ && _ && _); [|intros [= <- <-]; by apply ok_control; auto using steady_refl].
  destruct (promote_deferred_inputs (c_engine c) watermark) as [en1 b] eqn:Hp.
  pose proof (ok_promote _ _ _ _ Hok Hp) as Hok1. destruct b; [by intros [= <- <-]|].
  intros (en2 & Hr & [= <- <-])%bind_Done. by eapply ok_settle_end.
Qed.

Lemma ok_finish c watermark en s woken :
  engine_ok c → settle_finish (c_engine c) watermark = Done (en, s, woken) → engine_ok (moved_to en c).
Proof.
  intros Hok. unfold settle_finish. destruct (promote_deferred_inputs (c_engine c) watermark) as [en1 b] eqn:Hp.
  pose proof (ok_promote _ _ _ _ Hok Hp) as Hok1. destruct b; [by intros [= <- <- <-]|].
  intros (en2 & Hpub%publish_calm & Hrest)%bind_Done. apply bind_Done in Hrest as (en3 & Hr%refresh_calm & [= <- <- <-]).
  apply (ok_calm (moved_to en1 c)); [done|]. eapply calm_trans; [exact Hpub|].
  eapply calm_trans; [exact Hr|]. apply calm_settled. by intros _ Hsn.
Qed.

Lemma commit_run_calm en ev run phase en' ev' progress :
  run_ok run → commit_run row_counts en ev run phase = Done (en', ev', progress) →
  calm en en' ∧ eval_generation ev' = eval_generation ev.
Proof using H H0.
  intros Hq. unfold commit_run. intros ([st p] & Hrun & [= <- <- <-])%bind_Done. split; [|done].
  apply calm_commit. intros Hok.
  assert (state_ok (set_memo (eval_memo ev) (commit en))) as Hok' by by apply (state_ok_frame (commit en)).
  destruct (commit_state_aux _ _ _ _ _ _ Hok' Hq Hrun) as (Hst & E & _).
  split; [by apply (state_ok_frame st)|by apply evolves_progressed].
Qed.

Lemma ok_commit_run c ev run phase en ev' progress :
  engine_ok c → c_eval c = Some ev → run_ok run →
  commit_run row_counts (c_engine c) ev run phase = Done (en, ev', progress) →
  engine_ok (with_eval (Some ev') (moved_to en c)).
Proof.
  intros Hok Hev Hrun [Hcalm Hgen]%commit_run_calm; [|done].
  destruct (ok_calm _ _ Hok Hcalm) as [Hg Hi He Hb Hs Hsn Hqs]. split; try done.
  unfold conf_gens, conf_running in *. simpl in *. rewrite Hgen. by rewrite Hev in Hg.
Qed.

Lemma engine_step_ok c c' : engine_ok c → engine_step c c' → engine_ok c'.
Proof.
  intros Hok Hstep. destruct Hstep as [c en Hq|c q pre en s id Hq Hid Hst|c b pre target en e s id Hid Hst|
    c id m q m' en s Hid Hst|c id deferred Hid|R c id m ty e original held0 f m' en out Hid Hm|c id m q Hid|
    c en ev startup Hev Hst|c ev run phase en ev' progress [Hev _] Hrun Hc|c ev _|c ev _ Hz|c ev _|c ev _|c ev changed Hev _|
    c ev Hev _|c ev [Hev _]|c target id Ht|c|c watermark en woken l1 l2 Hl Hle|c watermark en s Hw Hh|c watermark en s Hw Hh|
    c watermark en s woken Hw Hh|A c rows ty f a en a' Hf|c].
  - by apply ok_calm, quiet_calm.
  - by eapply ok_staged.
  - by eapply ok_insert.
  - by eapply ok_boundary_stage.
  - destruct Hok as [Hg Hi He [Hc Ha] Hs Hsn Hqs]. split; unfold conf_gens, conf_inputs, conf_boundary; simpl; auto.
    + split; [|done]. rewrite registered_insert by done. unfold b2n. simpl. lia.
    + intros id' m q. rewrite lookup_insert. case_decide; [intros [= <- <-]; apply queue_default_ok|apply Hqs].
  - by eapply ok_mutate.
  - destruct (waiter_finish m (c_engine c)) as [m' en] eqn:Hf. by eapply ok_leave_mutator.
  - by eapply ok_start.
  - by eapply ok_commit_run.
  - destruct Hok as [Hg Hi He [Hc Ha] Hs Hsn Hqs]. split; unfold conf_gens, conf_inputs, conf_boundary; simpl; auto. by split.
  - destruct Hok as [Hg Hi He [Hc Ha] Hs Hsn Hqs]. split; unfold conf_gens, conf_inputs, conf_boundary; simpl; auto.
    split; [done|]. intros Hst Hne. destruct (Ha Hst Hne) as [[? ?]|?]; [by left|by right].
  - destruct Hok as [Hg Hi He [Hc Ha] Hs Hsn Hqs]. split; unfold conf_gens, conf_inputs, conf_boundary; simpl; auto; [by split|].
    by apply (state_ok_frame (commit (c_engine c))).
  - by apply ok_finishing.
  - by apply ok_complete.
  - by apply ok_lose.
  - by apply ok_abandon.
  - by apply ok_wait.
  - by apply ok_enter.
  - by eapply ok_leave.
  - by eapply ok_head.
  - by eapply ok_check.
  - by eapply ok_finish.
  - destruct (for_each_spec _ _ _ _ _ _ _ Hf) as (? & ? & ? & ?). by apply ok_control.
  - apply ok_control; auto. by apply steady_same.
Qed.

(** A bowl that was built is well formed. *)
Lemma fresh_ok st : state_ok st → engine_ok (conf_of (set_commit st engine_new)).
Proof.
  intros Hs. split; unfold conf_gens, conf_inputs, conf_boundary; simpl.
  - split; simpl; try done; first [lia|by intros ? ?%elem_of_nil|by intros ? ? ?%elem_of_nil].
  - split; try done; constructor.
  - split; try done; constructor.
  - by split.
  - done.
  - split_and!; try done; simpl. lia.
  - done.
Qed.

Lemma register_ok en healing s :
  engine_ok (conf_of en) → engine_ok (conf_of (register_system (en, healing) s).1).
Proof.
  intros Hok. apply (ok_control (conf_of en)); simpl; auto. apply steady_same; [done..|].
  by apply state_ok_frame.
Qed.

Lemma register_all_ok systems en healing :
  engine_ok (conf_of en) → engine_ok (conf_of (foldl register_system (en, healing) systems).1).
Proof.
  revert en healing. induction systems as [|s systems IH]; intros en healing Hok; [done|]. cbn [foldl].
  pose proof (register_ok en healing s Hok) as Hok1. destruct (register_system (en, healing) s) as [en1 h1].
  by apply IH.
Qed.

Lemma run_steps_ok steps en healing :
  engine_ok (conf_of en) → engine_ok (conf_of (foldl run_step (en, healing) steps).1).
Proof.
  revert en healing. induction steps as [|s steps IH]; intros en healing Hok; [done|]. cbn [foldl].
  assert (engine_ok (conf_of (run_step (en, healing) s).1)) as Hok1
    by (destruct s; [by apply register_ok|by apply register_all_ok]).
  destruct (run_step (en, healing) s) as [en1 h1]. by apply IH.
Qed.

Lemma build_ok has_hook shapes steps en reg :
  build has_hook shapes steps = Done (en, reg) → engine_ok (conf_of en).
Proof.
  unfold build. cbv zeta. set (all := shapes ++ _). intros (en1 & Hinit & Hrest)%bind_Done.
  assert (engine_ok (conf_of en1)) as Hok1.
  { case_bool_decide.
    - injection Hinit as <-. apply (fresh_ok (commit engine_new)).
      split; [apply wf_new|by repeat split; constructor|constructor].
    - apply bind_Done in Hinit as (w & Hw & [= <-]). destruct (wf_init (universe_of all)) as (w1 & Hw1 & Hwf).
      { apply universe_of_spec. }
      change (world engine_new) with world_new in Hw. rewrite Hw1 in Hw. injection Hw as ->.
      apply fresh_ok. split; [done|by repeat split; constructor|constructor]. }
  pose proof (run_steps_ok steps en1 false Hok1) as Hok2.
  destruct (foldl run_step (en1, false) steps) as [en2 healing]. by injection Hrest as <- _.
Qed.

Lemma reachable_ok c c' : engine_ok c → rtc engine_step c c' → engine_ok c'.
Proof. intros Hok Hs. induction Hs as [|c0 c1 c2 Hstep _ IH]; [done|]. apply IH. by eapply engine_step_ok. Qed.

End engine_inv.
