(* ===== verification/EngineThms.v ===== *)
(** * What the engine promises ([bowl.rs])

    The properties of every configuration that a built bowl can reach, and of
    the sections that settle it. *)
From stdpp Require Import base numbers sets gmap fin_maps sorting list.
From S2P Require Import Prelude Access.
From S2P Require Import Components Demo Stores Presence World WorldInv Ownership WorldOps Frame.
From S2P Require Import Commands Query Deps Planner Commit Engine EngineInv.

Section engine_claims.
Context `{ComponentTypes} `{HashOrder}.
Implicit Types (w : World) (e : Entity) (ty : TypeId) (en : Engine).

(** A snapshot of the current world, whatever it was cloned from: the same
    watermarks, the same rows at the same revisions, with the same contents where contents are tracked. *)
Record agrees (snap w : World) : Prop := {
  ag_revision : revision snap = revision w;
  ag_mutations : mutations snap = mutations w;
  ag_watermark ty : store_watermark snap ty = store_watermark w ty;
  ag_rows ty e : row_revision snap ty e = row_revision w ty e;
  ag_contents ty e : value_tracked ty = true →
    row_fingerprint snap ty e = row_fingerprint w ty e ∧
    (row_fingerprint w ty e = None → entry_value <$> row snap ty e = entry_value <$> row w ty e);
}.

Lemma clone_spec w snap :
  world_clone w = Done snap → stores snap = stores w ∧ revision snap = revision w ∧ mutations snap = mutations w.
Proof. unfold world_clone. by intros ([] & _ & [= <-])%bind_Done. Qed.

Lemma taken_agrees X w snap : wf X w → taken_at_key w (snapshot_key w) snap → agrees snap w.
Proof using H H0.
  intros W (w0 & (Es & Er & Em)%clone_spec & Hkey & P). unfold snapshot_key in Hkey. injection Hkey as _ Hr Hm.
  assert (∀ ty e, row snap ty e = row w0 ty e) as Hrow by (intros; by apply frame_row).
  assert (∀ ty e, row_revision w0 ty e = row_revision w ty e) as Hrr.
  { intros ty e. destruct (decide (row_revision w0 ty e = row_revision w ty e)) as [|Hne]; [done|].
    apply (pg_moved _ _ P) in Hne. unfold store_watermark in Hne. destruct (store_of w ty) as [s|] eqn:Hs; simpl in Hne; [|lia].
    destruct (wf_store _ _ W _ _ Hs). lia. }
  split; [congruence|congruence| | |].
  - intros ty. assert (store_watermark snap ty = store_watermark w0 ty) as -> by (unfold store_watermark, store_of; by rewrite Es).
    destruct (decide (store_watermark w0 ty = store_watermark w ty)) as [|Hne]; [done|].
    apply (pg_raised _ _ P) in Hne. unfold store_watermark in Hne at 1. destruct (store_of w ty) as [s|] eqn:Hs; simpl in Hne; [|lia].
    destruct (wf_store _ _ W _ _ Hs). lia.
  - intros ty e. by rewrite row_revision_row, Hrow, <-row_revision_row.
  - intros ty e Ht. unfold row_fingerprint. rewrite Hrow. fold (row_fingerprint w0 ty e) (row_fingerprint w ty e).
    destruct (row_revision w ty e) as [r|] eqn:Hrv.
    + destruct (pg_fresh _ _ P ty e r Hrv) as [Hlt|[_ Hsame]].
      * pose proof (row_revision_bound _ _ _ _ _ W Hrv). lia.
      * destruct (Hsame Ht) as [Hf Hc]. split; [by rewrite Hf|]. intros Hn. symmetry. apply Hc. by rewrite <-Hf.
    + specialize (Hrr ty e). rewrite Hrv in Hrr. rewrite row_revision_row in Hrr, Hrv. unfold row_fingerprint.
      destruct (row w0 ty e); [done|]. by destruct (row w ty e).
Qed.

Variable row_counts : SystemId → World → nat.
Variable has_hook : SystemId → bool.
Variable shapes : list ShapeDesc.
Variable steps : list BuildStep.
Variable en0 : Engine.
Variable reg : Registry.
Hypothesis built : build has_hook shapes steps = Done (en0, reg).

Abbreviation reached := (rtc (engine_step row_counts) (conf_of en0)).

Lemma reached_ok c : reached c → engine_ok c.
Proof using All. apply reachable_ok. by eapply build_ok. Qed.

(** C23: a generation handed out is finished, running or pending at every later
    moment, and a waiter waits for an unfinished one that was handed out.  The
    running generation is the driver's, or one whose driver was dropped at the
    last await of [run_evaluation], after the memo had left the guard
    ([c_lost]).  As long as that does not happen wake-ups are never lost: when
    nobody drives, a generation that covers the waiter is pending and can be
    driven; a driver whose run covers the waiter wakes it when it completes, and
    when its run does not, the waiter stays registered and one that does is
    pending.  After such a loss a waiter the lost generation covers depends on
    somebody starting another ([lost_driver_strands]), which will cover it. *)
Theorem generation_promises_kept c :
  reached c →
  let g := gens (c_engine c) in
  let b := boundary (c_engine c) in
  running_generation g = match c_eval c with Some ev => Some (eval_generation ev) | None => c_lost c end ∧
  (∀ t, t ∈ c_promised c → scheduled g t) ∧
  (∀ t id, (t, id) ∈ waiters b →
     (completed_generation g < t)%N ∧ t ∈ c_promised c ∧
     (c_eval c = None → c_lost c = None → ∃ p, pending_generation g = Some p ∧ (t ≤ p)%N) ∧
     (∀ n, c_eval c = None → c_lost c = Some n →
        (∀ p, pending_generation g = Some p → (t ≤ p)%N) ∧ ((t ≤ n)%N ∨ is_Some (pending_generation g))) ∧
     (∀ ev changed, c_eval c = Some ev →
        if bool_decide (t ≤ eval_generation ev)%N then id ∈ (complete_evaluation (c_engine c) ev changed).2
        else (t, id) ∈ waiters (boundary (complete_evaluation (c_engine c) ev changed).1) ∧
             ∃ p, pending_generation g = Some p ∧ (t ≤ p)%N)).
Proof using All.
  intros Hok%reached_ok. destruct (ok_gens _ Hok) as [Hr Hd Hrun Hp Hi Hs Hw]. unfold conf_running in Hr.
  cbv zeta. split_and!; [done|done|].
  intros t id Hin. destruct (Hw t id Hin) as [Hlt Hpr]. split; [done|]. split; [done|].
  destruct (Hs t Hpr) as [?|(n & Hn & Hle)]; [lia|]. split_and!.
  - intros Hev Hl. rewrite Hev, Hl in Hr. exists n. destruct Hn; [congruence|done].
  - intros m Hev Hl. rewrite Hev, Hl in Hr. destruct (Hrun m Hr) as [_ Hnext]. destruct Hn as [Hn|Hn].
    + assert (n = m) as -> by congruence. split; [|by left]. intros p Hpp. destruct (Hp p Hpp) as [_ Heq].
      rewrite Heq by (by eexists). lia.
    + split; [|right; by eexists]. intros p Hpp. by assert (p = n) as -> by congruence.
  - intros ev changed Hev. rewrite Hev in Hr. case_bool_decide as Hc.
    + simpl. apply elem_of_app. right. apply list_elem_of_fmap. exists (t, id). split; [done|].
      by apply list_elem_of_filter.
    + split; [by apply list_elem_of_filter|].
      destruct Hn as [Hn|Hn]; [|by exists n]. assert (n = eval_generation ev) by congruence. by subst.
Qed.

(** C24: inputs are neither lost nor duplicated: what was accepted is what the
    generations applied, what the next one will drain and what epochs hold back;
    in the order of acceptance, unless a preempting write overtook at a boundary.
    What waits to be drained has a pending generation, nothing is held back
    without an epoch, and a settled bowl outside every epoch has applied it all. *)
Theorem inputs_conserved c :
  reached c →
  let en := c_engine c in
  let queued := pending (pending_inputs (inputs en)) ++ held (inputs en) in
  c_staged c ≡ₚ c_applied c ++ queued ∧
  (c_preempted c = false → c_staged c = c_applied c ++ queued) ∧
  (pending (pending_inputs (inputs en)) ≠ [] → is_Some (pending_generation (gens en))) ∧
  (c_epochs c = [] → held (inputs en) = []) ∧
  (c_epochs c = [] → bowl_is_settled en = true → c_staged c ≡ₚ c_applied c).
Proof using All.
  intros Hok%reached_ok. destruct (ok_inputs _ Hok) as [Hq Hd Hdr Ht Hsq Hb Hc Ho]. cbv zeta.
  assert (c_epochs c = [] → held (inputs (c_engine c)) = []) as Hidle.
  { intros He. unfold held. by rewrite (eo_idle _ _ (ok_epochs _ Hok) He). }
  split_and!; [done|done|done|done|]. intros He Hset. rewrite Hc, (Hidle He), app_nil_r.
  unfold bowl_is_settled in Hset. apply andb_true_iff in Hset as [[Hp _]%andb_true_iff _]. apply bool_decide_eq_true in Hp.
  destruct (pending (pending_inputs (inputs (c_engine c)))) as [|o l] eqn:Hl; [by rewrite app_nil_r|].
  destruct (Hdr ltac:(done)) as [? ?]. congruence.
Qed.

(** An epoch drains exactly the inputs that arrived before it, in order: the
    ones tagged up to its watermark move to the pending generation, the others
    stay; and what is staged while epochs are active gets a tag above the
    watermark of each of them. *)
Theorem epoch_drains_exactly c watermark en promoted :
  reached c → promote_deferred_inputs (c_engine c) watermark = (en, promoted) →
  let old := deferred_inputs (inputs (c_engine c)) in
  let front := filter (λ d, d.1 ≤ watermark)%N old in
  let rest := filter (λ d, ¬ d.1 ≤ watermark)%N old in
  old = front ++ rest ∧ deferred_inputs (inputs en) = rest ∧
  pending (pending_inputs (inputs en)) =
    pending (pending_inputs (inputs (c_engine c))) ++ concat ((λ d, pending d.2) <$> front) ∧
  promoted = negb (bool_decide (front = [])) ∧
  (promoted = true → is_Some (pending_generation (gens en))) ∧
  (∀ q en' s, c_epochs c ≠ [] → stage_input (c_engine c) q false = Done (en', s) →
     ∃ tag g, s = Deferred g ∧ deferred_inputs (inputs en') = old ++ [(tag, q)] ∧ Forall (λ x, x < tag)%N (c_epochs c)).
Proof using All.
  intros Hok%reached_ok Hp. pose proof (ok_inputs _ Hok) as Hi.
  assert (inputs (c_engine c) = MkInputs (pending_inputs (inputs (c_engine c))) (deferred_inputs (inputs (c_engine c)))
    (input_seq (inputs (c_engine c))) (settling (inputs (c_engine c)))) as Heta by by destruct (inputs (c_engine c)).
  destruct (promote_spec _ _ _ _ _ _ _ Hi Hp) as (_ & Eg & _ & _ & _ & Ed & Epp & Ef & _).
  destruct Hi as [Hq Hd _ Ht _ _ _ _]. cbv zeta. split_and!; try done.
  - unfold promote_deferred_inputs in Hp. destruct (promote_loop _ _ _) as [en1 b] eqn:Hl.
    by destruct (promote_loop_spec _ _ _ _ _ Heta Hq Hd Ht Hl) as (? & _).
  - intros ->. rewrite Eg. by eexists.
  - intros q en' s Hne. destruct (ok_epochs _ Hok) as [Hn Hw _]. unfold stage_input.
    rewrite bool_decide_eq_false_2 by (rewrite Hn; destruct (c_epochs c); simpl; [done|lia]). simpl.
    intros (tag & Htag & [= <- <-])%bind_Done. apply expect_Done, u64_checked_succ_Some in Htag as [-> _].
    eexists _, _. split_and!; [done|done|]. eapply Forall_impl; [exact Hw|]. simpl. intros. lia.
Qed.

(** The driver's count of registered mutators is exact; a mutator is let in
    exactly when no run is active or the driver holds the window open, and then
    without touching anything but the restart flag; and one sleeps only while a
    run is active with the window closed, or an epoch is, each of which wakes the
    sleepers when it ends (runs abandoned outside every epoch, and runs whose
    driver was lost, excepted). *)
Theorem boundaries_safe c :
  reached c →
  let en := c_engine c in
  preempt_waiters (boundary en) = N.of_nat (registered_count (c_mutators c)) ∧
  (∀ m, (boundary_reached m en).2 = true ↔ running_generation (gens en) = None ∨ preempt_window (boundary en) = true) ∧
  (c_stranded c = false → boundary_waiters (boundary en) ≠ [] →
     ((is_Some (c_eval c) ∨ is_Some (c_lost c)) ∧ preempt_window (boundary en) = false) ∨ c_epochs c ≠ []) ∧
  boundary_waiters (boundary en) ⊆ (open_window en).2 ∧
  (∀ ev changed, boundary_waiters (boundary en) ⊆ (complete_evaluation en ev changed).2) ∧
  (∀ en' woken, epoch_leave en = Done (en', woken) → boundary_waiters (boundary en) ⊆ woken).
Proof using All.
  intros Hok%reached_ok. destruct (ok_boundary _ Hok) as [Hc Ha]. cbv zeta. split_and!; [done| | |done| |].
  - intros m. destruct (boundary_reached m (c_engine c)) as [[m' en'] r] eqn:Hr.
    apply boundary_reached_spec in Hr as (_ & _ & _ & _ & _ & _ & Hcase). simpl.
    destruct r; [by destruct Hcase as [_ ?]|]. split; [done|]. destruct Hcase as [[n Hn] Hw]. intros [?|?]; congruence.
  - intros Hs Hne. destruct (Ha Hs Hne) as [[[n Hn] Hw]|?]; [left|by right]. split; [|done].
    rewrite (go_run _ _ _ _ (ok_gens _ Hok)) in Hn. unfold conf_running in Hn.
    destruct (c_eval c); [left; by eexists|right; by eexists].
  - intros ev changed. simpl. set_solver.
  - intros en' woken. unfold epoch_leave. intros ([] & _ & [= _ <-])%bind_Done. case_bool_decide; [|done].
    destruct (promote_deferred_inputs _ u64_max) as [en1 b] eqn:Hp. simpl.
    apply promote_spec with (pre := c_preempted c) (staged := c_staged c) (applied := c_applied c) in Hp as (_ & _ & -> & _);
      [done|]. by destruct (ok_inputs _ Hok).
Qed.

(** Opening a generation: the outputs the last settle phase held back are
    applied under their owners, then the base inputs that were queued, then the
    anchors are flushed; the rest of what happens to the world is retirement.
    The run carries the pending generation's number and only memo entries the
    engine had, and leaves no input behind. *)
Theorem start_applies_inputs c en ev startup :
  reached c → start_evaluation (c_engine c) = Done (en, Some (ev, startup)) →
  let st := commit (c_engine c) in
  pending_generation (gens (c_engine c)) = Some (eval_generation ev) ∧
  pending (pending_inputs (inputs en)) = [] ∧ deferred_settle (commit en) = [] ∧
  eval_memo ev ⊆ cs_memo st ∧
  ∃ w0 w1 w2 w3, stores w0 = stores (cs_world st) ∧ revision w0 = revision (cs_world st) ∧
    apply_owned w0 (opening_ops (deferred_settle st)) = Done w1 ∧
    apply_all None w1 (pending (pending_inputs (inputs (c_engine c)))) = Done w2 ∧
    flush_derived_from w2 = Done w3 ∧ evolves w3 (world en).
Proof using All.
  intros Hok%reached_ok Hst. revert Hst. unfold start_evaluation.
  destruct (pending_generation (gens (c_engine c))) as [p|] eqn:Hp; [|done].
  intros ([st base] & Ho & Hrest)%bind_Done. pose proof (ok_inputs _ Hok) as [Hq _ _ _ _ _ _ _].
  apply open_generation_spec in Ho as (Hs' & Hqb & Hpb & Hd & Hsub & w0 & w1 & w2 & w3 & Ew & Er & _ & H1 & H2 & H3 & E1 & E2);
    [|apply Hok|done].
  apply bind_Done in Hrest as (next & _ & Hrest). cbv zeta.
  destruct (startup_ran (c_engine c)); injection Hrest as <- <- _; simpl; split_and!; try done;
    exists w0, w1, w2, w3; done.
Qed.

(** A snapshot may come from the cache, from long ago; it still is a snapshot
    of the current world: the same watermarks, the same revisions on every row, the same contents on
    tracked rows.  Taking it changes no row, no input and no generation. *)
Theorem snapshot_cache_sound c en snap :
  reached c → snapshot_locked (c_engine c) = Done (en, snap) →
  agrees snap (world (c_engine c)) ∧
  commit en = commit (c_engine c) ∧ gens en = gens (c_engine c) ∧ inputs en = inputs (c_engine c) ∧
  boundary en = boundary (c_engine c) ∧ snapshot_cache (settled_state en) = Some (snapshot_key (world (c_engine c)), snap).
Proof using All.
  intros Hok%reached_ok Hs. pose proof (snapshot_locked_spec _ _ _ Hs) as ([(Hg & Hi & Hb) _] & _ & _ & _ & Ht).
  split; [eapply taken_agrees; [apply (so_world _ (ok_state _ Hok))|by apply Ht, Hok]|].
  revert Hs. unfold snapshot_locked. destruct (snapshot_cache _) as [[key cached]|] eqn:Hc; [case_bool_decide|].
  - intros [= <- <-]. subst key. done.
  - intros (w & _ & [= <- <-])%bind_Done. done.
  - intros (w & _ & [= <- <-])%bind_Done. done.
Qed.

Lemma refresh_spec en en' X :
  wf X (world en) → snapshots_ok en → refresh_settled_snapshot en = Done en' →
  commit en' = commit en ∧ gens en' = gens en ∧ inputs en' = inputs en ∧
  settled_revision (settled_state en') = settled_revision (settled_state en) ∧
  settle_watchers (settled_state en') = settle_watchers (settled_state en) ∧
  ∃ snap, settled_snapshot (settled_state en') = Some snap ∧ agrees snap (world en').
Proof using H H0.
  intros W Hsn ([en1 snap] & Hs & [= <-])%bind_Done.
  pose proof (snapshot_locked_spec _ _ _ Hs) as ([(Hg & Hi & Hb) _] & _ & Hr & _ & Ht). simpl.
  assert (commit en1 = commit en ∧ settle_watchers (settled_state en1) = settle_watchers (settled_state en)) as [Hc Hw].
  { revert Hs. unfold snapshot_locked. destruct (snapshot_cache _) as [[key cached]|] eqn:Hc; [case_bool_decide|].
    - by intros [= <- <-].
    - by intros (w & _ & [= <- <-])%bind_Done.
    - by intros (w & _ & [= <- <-])%bind_Done. }
  split_and!; try done. exists snap. split; [done|]. unfold world. simpl. rewrite Hc.
  eapply taken_agrees; [exact W|by apply Ht].
Qed.

(** What a settle that returns leaves behind. *)
Definition settled_at (watermark : N) en : Prop :=
  Forall (λ t, watermark < t)%N (tags (inputs en)) ∧
  settled_revision (settled_state en) = revision (world en) ∧
  ∃ snap, settled_snapshot (settled_state en) = Some snap ∧ agrees snap (world en).

Lemma promote_nothing c watermark en :
  engine_ok c → promote_deferred_inputs (c_engine c) watermark = (en, false) →
  en = c_engine c ∧ Forall (λ t, watermark < t)%N (tags (inputs en)).
Proof using H H0.
  intros Hok Hp. pose proof (promote_spec _ _ _ _ _ _ _ (ok_inputs _ Hok) Hp) as (_ & _ & _ & _ & _ & _ & _ & Ef & _).
  symmetry in Ef. apply negb_false_iff, bool_decide_eq_true in Ef.
  assert (en = c_engine c) as ->.
  { revert Hp. unfold promote_deferred_inputs. destruct (deferred_inputs (inputs (c_engine c))) as [|[tag q] l] eqn:Hl; simpl.
    - by intros [= <-].
    - case_bool_decide as Ht; [done|]. by intros [= <-]. }
  split; [done|]. unfold tags. clear -Ef. induction (deferred_inputs _) as [|d l IH]; simpl; [constructor|].
  rewrite filter_cons in Ef. case_decide; [done|]. constructor; [lia|by apply IH].
Qed.

(** C27: every way out of a settle.  On the fast path, taken before any epoch is
    entered, and on the three ways out of the loop, no input that arrived before
    the settle is held back (on the fast path none at all), the published revision
    is the world's, and readers of the settled state see the world as it is.  On
    all of them but the last the bowl is settled too; on the last everybody who
    watches for settles is woken.  When the fast path is not taken nothing has
    happened. *)
Theorem settle_return_exact c watermark :
  reached c →
  (∀ en, settle_fast (c_engine c) = Done (en, true) →
     settled_at watermark en ∧ bowl_is_settled en = true ∧ deferred_inputs (inputs en) = []) ∧
  (∀ en, settle_fast (c_engine c) = Done (en, false) → en = c_engine c) ∧
  (∀ en, settle_head (c_engine c) watermark = Done (en, SettleReturn) →
     settled_at watermark en ∧ bowl_is_settled en = true) ∧
  (∀ en, settle_check (c_engine c) watermark = Done (en, SettleReturn) →
     settled_at watermark en ∧ bowl_is_settled en = true) ∧
  (∀ en woken, settle_finish (c_engine c) watermark = Done (en, SettleReturn, woken) →
     settled_at watermark en ∧ woken = settle_watchers (settled_state (c_engine c)) ∧
     settle_watchers (settled_state en) = []).
Proof using All.
  intros Hok%reached_ok.
  assert (∀ en, bowl_is_settled (c_engine c) = true → Forall (λ t, watermark < t)%N (tags (inputs (c_engine c))) →
    refresh_settled_snapshot (c_engine c) = Done en →
    settled_at watermark en ∧ bowl_is_settled en = true ∧ inputs en = inputs (c_engine c)) as Hrefresh.
  { intros en Hset Ht Hr.
    destruct (refresh_spec _ _ _ (so_world _ (ok_state _ Hok)) (ok_snapshots _ Hok) Hr) as (Hc & Hg & Hi & Hrev & _ & Hsnap).
    unfold settled_at, bowl_is_settled, world in *. rewrite Hg, Hi, Hrev, Hc in *. split; [|done]. split_and!; [done| |done].
    by apply andb_true_iff in Hset as [_ ?%bool_decide_eq_true]. }
  assert (∀ en0 en b, bowl_is_settled (c_engine c) = true →
    promote_deferred_inputs (c_engine c) watermark = (en0, b) → b = false → refresh_settled_snapshot en0 = Done en →
    settled_at watermark en ∧ bowl_is_settled en = true) as Hend.
  { intros en1 en b Hset Hp -> Hr. destruct (promote_nothing _ _ _ Hok Hp) as [-> Ht].
    by destruct (Hrefresh en Hset Ht Hr) as (? & ? & _). }
  split_and!.
  - intros en. unfold settle_fast. destruct (bowl_is_settled (c_engine c)) eqn:Hset; simpl; [|done].
    case_bool_decide as Hd; [|done]. intros (en1 & Hr & [= <-])%bind_Done.
    destruct (Hrefresh en1 eq_refl) as (? & ? & Hi); [unfold tags; by rewrite Hd|done|]. split_and!; [done|done|by rewrite Hi].
  - intros en. unfold settle_fast. destruct (_ && _); [by intros (? & _ & [= _])%bind_Done|by intros [= <-]].
  - intros en. unfold settle_head. destruct (bowl_is_settled (c_engine c)) eqn:Hset; [|done].
    destruct (promote_deferred_inputs (c_engine c) watermark) as [en1 b] eqn:Hp. destruct b; [done|].
    intros (en2 & Hr & [= <-])%bind_Done. by eapply Hend.
  - intros en. unfold settle_check. fold (bowl_is_settled (c_engine c)).
    destruct (bowl_is_settled (c_engine c)) eqn:Hset; [|done].
    destruct (promote_deferred_inputs (c_engine c) watermark) as [en1 b] eqn:Hp. destruct b; [done|].
    intros (en2 & Hr & [= <-])%bind_Done. by eapply Hend.
  - intros en woken. unfold settle_finish.
    destruct (promote_deferred_inputs (c_engine c) watermark) as [en1 b] eqn:Hp. destruct b; [done|].
    destruct (promote_nothing _ _ _ Hok Hp) as [-> Ht].
    intros (en2 & Hpub & Hrest)%bind_Done. apply bind_Done in Hrest as (en3 & Hr & [= <- <-]).
    pose proof (publish_calm _ _ Hpub) as [_ Hst]. destruct (Hst (ok_state _ Hok) (ok_snapshots _ Hok)) as (Hs2 & Hsn2 & _).
    assert (inputs en2 = inputs (c_engine c) ∧ settled_revision (settled_state en2) = revision (world en2) ∧
      settle_watchers (settled_state en2) = settle_watchers (settled_state (c_engine c))) as (Hi2 & Hr2 & Hw2).
    { revert Hpub. unfold publish_settled_revision. case_bool_decide; [by intros [= <-]|]. by intros (n & _ & [= <-])%bind_Done. }
    destruct (refresh_spec _ _ _ (so_world _ Hs2) Hsn2 Hr) as (Hc & Hg & Hi & Hrev & Hw & Hsnap).
    split; [|split; [congruence|done]]. unfold settled_at, world in *. simpl. rewrite Hi, Hi2, Hrev, Hc in *. done.
Qed.
Lemma reset_plans_all s w log epoch :
  epoch ≠ u64_max → ∃ s', plan_system (reset_full s) w log epoch = Done (s', Some None).
Proof.
  intros He. unfold plan_system, needs_planning.
  assert (peek_needs_planning (reset_full s) w = true) as ->.
  { unfold peek_needs_planning. case_bool_decide; [|done]. simpl. by destruct (interest s). }
  simpl. destruct (interest s) as [tys|]; simpl; rewrite bool_decide_eq_false_2 by (by apply not_eq_sym);
    rewrite andb_false_r; simpl; eauto.
Qed.

(** C28: a run that is abandoned while it holds its guard is retried, and what it
    had is put back: no generation is running, one at least as late is pending,
    every caller that waited for a generation is woken, the memo the driver owned
    is the engine's again, the world, the held-back outputs and the inputs are as
    the run left them, and every system plans in full next.  The next start takes
    over that generation with no other memo.  Two things are not put right:
    mutators that sleep on a boundary are not woken ([abandoned_run_strands]),
    and once the memo has left the guard nothing is (the second part): a driver
    dropped there leaves the state as it is, its generation marked as running, the
    memo gone, and nobody woken. *)
Theorem abandoned_run_retried c ev :
  reached c → c_eval c = Some ev →
  (c_finishing c = false →
   let en := (abandon_evaluation (c_engine c) ev).1 in
   engine_step row_counts c (with_flags false (bool_decide (c_epochs c = [])) (with_eval None (moved_to en c))) ∧
   (abandon_evaluation (c_engine c) ev).2 = (waiters (boundary (c_engine c))).*2 ∧ waiters (boundary en) = [] ∧
   boundary_waiters (boundary en) = boundary_waiters (boundary (c_engine c)) ∧
   running_generation (gens en) = None ∧ completed_generation (gens en) = completed_generation (gens (c_engine c)) ∧
   cs_memo (commit en) = eval_memo ev ∧ world en = world (c_engine c) ∧
   deferred_settle (commit en) = deferred_settle (commit (c_engine c)) ∧ inputs en = inputs (c_engine c) ∧
   (∀ id s, cs_systems (commit en) !! id = Some s → ∀ w log epoch, epoch ≠ u64_max →
      ∃ s', plan_system s w log epoch = Done (s', Some None)) ∧
   ∃ p, pending_generation (gens en) = Some p ∧ (eval_generation ev ≤ p)%N ∧
     (∀ en' r, start_evaluation en = Done (en', r) →
        ∃ ev' startup, r = Some (ev', startup) ∧ eval_generation ev' = p ∧ eval_memo ev' ⊆ eval_memo ev)) ∧
  (c_finishing c = true →
   engine_step row_counts c (driver_lost ev c) ∧ c_engine (driver_lost ev c) = c_engine c ∧
   running_generation (gens (c_engine c)) = Some (eval_generation ev)).
Proof using All.
  intros Hok%reached_ok Hev. pose proof (ok_gens _ Hok) as Hg. unfold conf_gens, conf_running in Hg. rewrite Hev in Hg.
  destruct Hg as [Hr Hd Hrun Hp Hi Hs Hw]. destruct (Hrun _ Hr) as [Hlt Hnext].
  split; [|intros Hf; split_and!; [by apply es_lose|done|done]].
  intros Hf. cbv zeta. split; [by apply es_abandon|]. simpl. split_and!; try done.
  - intros id s (s0 & -> & _)%list_lookup_fmap_Some w log epoch. apply reset_plans_all.
  - eexists. split; [done|]. split.
    { destruct (pending_generation (gens (c_engine c))) as [q|] eqn:Hq; simpl; [|done].
      destruct (Hp q eq_refl) as [_ Heq]. rewrite Heq, Hnext; [lia|]. by eexists. }
    intros en' r Hst.
    unfold start_evaluation in Hst. simpl in Hst.
    apply bind_Done in Hst as ([st base] & Ho & Hrest).
    apply open_generation_spec in Ho as (_ & _ & _ & _ & Hsub & _);
      [|by apply (state_ok_frame (commit (c_engine c))); try done; apply Hok|apply (ok_inputs _ Hok)].
    apply bind_Done in Hrest as (next & _ & Hrest).
    destruct (startup_ran (c_engine c)); injection Hrest as _ <-; eexists _, _; split_and!; done.
Qed.
End engine_claims.

(** ** Ambient healing *)
Section healing.
Context `{ComponentTypes} `{HashOrder}.
Implicit Types (owner : SystemInvocation) (en : Engine).

(** Forcing an owner plans its rows again and takes nothing back. *)
Lemma force_owner_spec systems owner systems' :
  force_owner systems owner = Done systems' →
  length systems' = length systems ∧
  (∃ s, systems' !! system owner = Some s ∧ replanned s (keys owner)) ∧
  ∀ i s ks, systems !! i = Some s → replanned s ks → ∃ s', systems' !! i = Some s' ∧ replanned s' ks.
Proof.
  unfold force_owner. intros (s & Hs%expect_Done & [= <-])%bind_Done.
  pose proof (lookup_lt_Some _ _ _ Hs) as Hlt. split_and!; [apply length_insert| |].
  - exists (force_replan s (keys owner)). split; [by apply list_lookup_insert_eq|apply force_replanned].
  - intros i s0 ks Hi Hk. destruct (decide (i = system owner)) as [->|Hne].
    + exists (force_replan s (keys owner)). split; [by apply list_lookup_insert_eq|]. apply replanned_force. congruence.
    + exists s0. by rewrite list_lookup_insert_ne.
Qed.

(** The healed invocations [l]: without memo, planned again, counted. *)
Definition healed_from (st : CommitState) (attempts : gmap SystemInvocation N) (l : list SystemInvocation)
    (st' : CommitState) (attempts' : gmap SystemInvocation N) : Prop :=
  cs_world st' = cs_world st ∧
  (∀ o, o ∉ l → cs_memo st' !! o = cs_memo st !! o ∧ attempts' !! o = attempts !! o) ∧
  (∀ i s ks, cs_systems st !! i = Some s → replanned s ks → ∃ s', cs_systems st' !! i = Some s' ∧ replanned s' ks) ∧
  ∀ o, o ∈ l → cs_memo st' !! o = None ∧
    (∃ s, cs_systems st' !! system o = Some s ∧ replanned s (keys o)) ∧
    attempts' !! o = Some (default 0 (attempts !! o) + 1)%N ∧ (default 0 (attempts !! o) < heal_limit)%N.

Lemma heal_loop_spec l st attempts :
  NoDup l → Forall (λ o, is_Some (cs_systems st !! system o)) l →
  match fold_result heal_one (st, attempts) l with
  | Done (st', attempts') => healed_from st attempts l st' attempts'
  | Panic f => f = HealingDiverged ∧ ∃ o, o ∈ l ∧ (heal_limit ≤ default 0 (attempts !! o))%N
  end.
Proof.
  intros Hnd. revert st attempts. induction Hnd as [|o l Hno _ IH]; intros st attempts Hsys.
  { cbn [fold_result]. split_and!; try done; [eauto|]. by intros ? ?%elem_of_nil. }
  apply Forall_cons in Hsys as [[s Hs] Hsys]. cbn [fold_result]. unfold heal_one at 2.
  set (n := (default 0 (attempts !! o) + 1)%N). case_bool_decide as Hn; cbn [check].
  2: { split; [done|]. exists o. split; [left|lia]. }
  assert (∃ systems, force_owner (cs_systems st) o = Done systems) as [systems Hf]
    by (unfold force_owner; rewrite Hs; by eexists).
  rewrite Hf. cbn [mbind result_bind].
  destruct (force_owner_spec _ _ _ Hf) as (Hlen & Hforced & Hkeep).
  specialize (IH (set_systems systems (set_memo (delete o (cs_memo st)) st)) (<[o := n]> attempts)).
  assert (Forall (λ o, is_Some (systems !! system o)) l) as Hsys'.
  { eapply Forall_impl; [exact Hsys|]. intros x [sx Hx]. apply lookup_lt_is_Some. rewrite Hlen. by eapply lookup_lt_Some. }
  specialize (IH Hsys').
  assert (∀ o', o' ∈ l → (<[o := n]> attempts) !! o' = attempts !! o') as Hat.
  { intros o' Hin. apply lookup_insert_ne. intros ->. done. }
  destruct (fold_result heal_one _ l) as [[st' attempts']|f].
  - destruct IH as (Hw & Hout & Hk & Hin). split_and!; [done| | |].
    + intros o' [Hne Hnl]%not_elem_of_cons. destruct (Hout o' Hnl) as [-> ->]. simpl.
      by rewrite lookup_delete_ne, lookup_insert_ne.
    + intros i s0 ks Hi Hr. destruct (Hkeep i s0 ks Hi Hr) as (s1 & Hs1 & Hr1). by apply (Hk i s1).
    + intros o' [->|Hl]%elem_of_cons.
      * destruct (Hout o Hno) as [-> ->]. simpl. rewrite lookup_delete_eq, lookup_insert_eq.
        destruct Hforced as (s1 & Hs1 & Hr1). split_and!; [done|by apply (Hk _ s1)|done|lia].
      * destruct (Hin o' Hl) as (? & ? & Ha & Hb). rewrite (Hat o' Hl) in Ha, Hb. done.
  - destruct IH as [-> (o' & Hl & Hge)]. split; [done|]. exists o'. rewrite (Hat o' Hl) in Hge. split; [by right|done].
Qed.

(** An invocation that committed in this epoch and whose viewed stores moved
    after it had planned. *)
Definition stale_viewer en owner : Prop :=
  ∃ entry s ty, cs_memo (commit en) !! owner = Some entry ∧ memo_epoch entry = settle_epoch (commit en) ∧
    cs_systems (commit en) !! system owner = Some s ∧ sys_phase s ≠ Settle ∧ ty ∈ view_freshness s ∧
    (planned_revision entry < store_watermark (world en) ty)%N.

Definition heal_victims en : list SystemInvocation :=
  filter (λ o, match cs_memo (commit en) !! o with
               | Some entry => heal_victim (world en) (cs_systems (commit en)) (settle_epoch (commit en)) o entry
               | None => false
               end = true) (hash_iter (dom (cs_memo (commit en)))).

Lemma heal_victims_spec en owner : owner ∈ heal_victims en ↔ stale_viewer en owner.
Proof.
  unfold heal_victims. rewrite list_elem_of_filter, elem_of_hash_iter, elem_of_dom. split.
  - intros [Hv [entry He]]. rewrite He in Hv. unfold heal_victim in Hv.
    apply andb_true_iff in Hv as [Hep%bool_decide_eq_true Hv].
    destruct (cs_systems (commit en) !! system owner) as [s|] eqn:Hs; [|done].
    apply andb_true_iff in Hv as [[Hph%negb_true_iff%bool_decide_eq_false _]%andb_true_iff Hex].
    apply existsb_exists in Hex as (ty & Hty & Hlt%bool_decide_eq_true). apply list_elem_of_In in Hty.
    by exists entry, s, ty.
  - intros (entry & s & ty & He & Hep & Hs & Hph & Hty & Hlt). rewrite He. split; [|by eexists].
    unfold heal_victim. rewrite Hs. rewrite bool_decide_eq_true_2 by done. simpl.
    rewrite bool_decide_eq_false_2 by done. rewrite bool_decide_eq_false_2 by (intros Hnil; rewrite Hnil in Hty; by apply elem_of_nil in Hty).
    simpl. apply existsb_exists. exists ty. split; [by apply list_elem_of_In|]. by apply bool_decide_eq_true.
Qed.

(** A healing pass heals the stale viewers and nobody else: their memo entries
    go, their rows are planned again, each is counted; no row of the world, no
    other entry and no generation changes; it reports whether there was one.  It
    panics only on a stale viewer that this settle already healed 128 times, so a
    settle heals each invocation at most 128 times. *)
Theorem heal_exact en attempts :
  match heal_stale_ambient true en attempts with
  | Done (en', attempts', healed) =>
      (healed = true ↔ ∃ o, stale_viewer en o) ∧
      world en' = world en ∧ gens en' = gens en ∧ inputs en' = inputs en ∧ boundary en' = boundary en ∧
      (∀ o, ¬ stale_viewer en o →
         cs_memo (commit en') !! o = cs_memo (commit en) !! o ∧ attempts' !! o = attempts !! o) ∧
      (∀ o, stale_viewer en o →
         cs_memo (commit en') !! o = None ∧
         (∃ s, cs_systems (commit en') !! system o = Some s ∧ replanned s (keys o)) ∧
         attempts' !! o = Some (default 0 (attempts !! o) + 1)%N ∧ (default 0 (attempts !! o) < heal_limit)%N)
  | Panic f => f = HealingDiverged ∧ ∃ o, stale_viewer en o ∧ (heal_limit ≤ default 0 (attempts !! o))%N
  end.
Proof.
  unfold heal_stale_ambient. cbn [negb]. cbv zeta.
  change (filter _ (hash_iter _)) with (heal_victims en).
  case_bool_decide as Hnil.
  - split_and!; try done.
    + split; [done|]. intros [o Ho%heal_victims_spec]. rewrite Hnil in Ho. by apply elem_of_nil in Ho.
    + intros o Ho%heal_victims_spec. rewrite Hnil in Ho. by apply elem_of_nil in Ho.
  - pose proof (heal_loop_spec (heal_victims en) (commit en) attempts) as Hloop.
    assert (NoDup (heal_victims en)) as Hnd by (apply NoDup_filter, NoDup_hash_iter). specialize (Hloop Hnd).
    assert (Forall (λ o, is_Some (cs_systems (commit en) !! system o)) (heal_victims en)) as Hsys.
    { apply Forall_forall. intros o (? & s & ? & _ & _ & Hs & _)%heal_victims_spec. by eexists. }
    specialize (Hloop Hsys).
    destruct (fold_result heal_one (commit en, attempts) (heal_victims en)) as [[st' attempts']|f]; simpl.
    + destruct Hloop as (Hw & Hout & _ & Hin). split_and!; try done.
      * split; [|done]. intros _. destruct (heal_victims en) as [|o l] eqn:Hl; [done|]. exists o.
        apply heal_victims_spec. rewrite Hl. left.
      * intros o Ho. apply Hout. by rewrite heal_victims_spec.
      * intros o Ho. apply Hin. by rewrite heal_victims_spec.
    + destruct Hloop as [-> (o & Ho%heal_victims_spec & ?)]. eauto.
Qed.
End healing.

(** ** Building *)
Section building.
Context `{ComponentTypes} `{HashOrder}.
Implicit Types (en : Engine) (s : BoxedSystem).

Definition step_systems (step : BuildStep) : list BoxedSystem :=
  match step with StepSystem s => [s] | StepPlugin _ systems => systems end.

(** A system whose views can go stale before a settle ends. *)
Definition needs_healing s : bool :=
  negb (bool_decide (sys_phase s = Settle)) && negb (bool_decide (view_freshness s = [])).

Lemma register_all_spec systems en healing :
  let en' := (foldl register_system (en, healing) systems).1 in
  cs_systems (commit en') = cs_systems (commit en) ++ systems ∧
  world en' = world en ∧ cs_schema (commit en') = cs_schema (commit en) ∧
  gens en' = (if bool_decide (systems = []) then gens en else get_or_insert_pending (gens en)) ∧
  (foldl register_system (en, healing) systems).2 = healing || existsb needs_healing systems.
Proof.
  revert en healing. induction systems as [|s systems IH]; intros en healing; cbv zeta; cbn [foldl].
  { simpl. by rewrite app_nil_r, orb_false_r. }
  set (en1 := enqueue_next_generation (on_commit (λ st, set_systems (cs_systems st ++ [s]) st) en)).
  assert (register_system (en, healing) s = (en1, healing || needs_healing s)) as ->.
  { unfold register_system, needs_healing. fold en1. destruct (_ && _); [by rewrite orb_true_r|by rewrite orb_false_r]. }
  destruct (IH en1 (healing || needs_healing s)) as (Hs & Hw & Hsc & Hg & Hh). split_and!.
  - rewrite Hs. simpl. by rewrite <-app_assoc.
  - by rewrite Hw.
  - by rewrite Hsc.
  - rewrite Hg. case_bool_decide; [done|]. simpl. unfold get_or_insert_pending. simpl.
    by destruct (pending_generation (gens en)).
  - rewrite Hh. simpl. by rewrite orb_assoc.
Qed.

Lemma run_steps_spec steps en healing :
  foldl run_step (en, healing) steps = foldl register_system (en, healing) (concat (step_systems <$> steps)).
Proof.
  revert en healing. induction steps as [|step steps IH]; intros en healing; [done|]. cbn [foldl fmap list_fmap concat].
  rewrite foldl_app. destruct step as [s|shapes systems]; cbn [run_step step_systems foldl].
  - destruct (register_system (en, healing) s). apply IH.
  - destruct (foldl register_system (en, healing) systems). apply IH.
Qed.

Lemma elem_of_imap_pair (l : list BoxedSystem) id s : (id, s) ∈ imap pair l ↔ l !! id = Some s.
Proof.
  rewrite elem_of_lookup_imap. split; [by intros (i & x & [= -> ->] & ?)|]. intros ?. by exists id, s.
Qed.

Lemma phase_mask_spec (l : list (SystemId * BoxedSystem)) (mask : N) p :
  let bit := match p with Startup => 0 | Evaluate => 1 | Complete => 2 | Settle => 3 end%N in
  N.testbit (foldl (λ mask x, N.lor mask (phase_bit (sys_phase x.2))) mask l) bit =
  N.testbit mask bit || existsb (λ x, bool_decide (sys_phase x.2 = p)) l.
Proof.
  cbv zeta. revert mask. induction l as [|[i s] l IH]; intros mask; cbn [foldl existsb]; [by rewrite orb_false_r|].
  rewrite IH, N.lor_spec, <-orb_assoc. f_equal. f_equal. simpl. destruct (sys_phase s), p; reflexivity.
Qed.

(** Building never fails.  The systems get their ids in the order of
    registration, those of a plugin where the plugin was added; the flags the
    engine derives from the sealed set are exact: healing is on iff some system
    outside the settle phase has views to keep fresh, a phase bit is set iff a
    system runs in that phase, the hook and settle lists hold exactly the ids
    that qualify; and a first generation is pending iff there is a system. *)
Theorem build_exact (has_hook : SystemId → bool) (shapes : list ShapeDesc) (steps : list BuildStep) :
  let systems := concat (step_systems <$> steps) in
  let all_shapes := shapes ++ concat ((λ step, match step with StepPlugin l _ => l | StepSystem _ => [] end) <$> steps) in
  match build has_hook shapes steps with
  | Panic _ => False
  | Done (en, reg) =>
      cs_systems (commit en) = systems ∧
      cs_schema (commit en) = (if bool_decide (all_shapes = []) then None else Some all_shapes) ∧
      (ambient_healing_enabled reg = true ↔ ∃ s, s ∈ systems ∧ needs_healing s = true) ∧
      (∀ p, N.land (registered_phases reg) (phase_bit p) ≠ 0%N ↔ ∃ s, s ∈ systems ∧ sys_phase s = p) ∧
      (∀ id, id ∈ settled_hooks reg ↔
         ∃ s, systems !! id = Some s ∧ sys_phase s ≠ Settle ∧ has_hook id = true) ∧
      (∀ id, id ∈ settle_systems reg ↔ ∃ s, systems !! id = Some s ∧ sys_phase s = Settle) ∧
      gens en = MkGenerations 0 None 1 (if bool_decide (systems = []) then None else Some 1%N)
  end.
Proof.
  cbv zeta. unfold build. cbv zeta. set (all := shapes ++ _). set (systems := concat (step_systems <$> steps)).
  assert (∃ en1, (if bool_decide (all = []) then Done engine_new
      else w ← init_presence (world engine_new) (universe_of all);
           Done (on_commit (λ st, set_schema (Some all) (set_world w st)) engine_new)) = Done en1 ∧
      cs_systems (commit en1) = [] ∧ cs_schema (commit en1) = (if bool_decide (all = []) then None else Some all) ∧
      gens en1 = MkGenerations 0 None 1 None) as (en1 & -> & Hs1 & Hsc1 & Hg1).
  { case_bool_decide; eexists; split; done. }
  cbn [mbind result_bind]. rewrite run_steps_spec. fold systems.
  destruct (register_all_spec systems en1 false) as (Hs & _ & Hsc & Hg & Hh).
  destruct (foldl register_system (en1, false) systems) as [en healing]. cbn [fst snd] in *.
  rewrite Hs1 in Hs. simpl in Hs. rewrite Hs. simpl. split_and!.
  - done.
  - by rewrite Hsc.
  - rewrite Hh. simpl. rewrite existsb_exists. split; intros (s & Hin & ?); exists s; (split; [|done]); by apply list_elem_of_In.
  - intros p. set (mask := foldl _ _ _).
    assert (N.land mask (phase_bit p) ≠ 0%N ↔
      N.testbit mask (match p with Startup => 0 | Evaluate => 1 | Complete => 2 | Settle => 3 end) = true) as ->.
    { replace (phase_bit p) with (2 ^ match p with Startup => 0 | Evaluate => 1 | Complete => 2 | Settle => 3 end)%N by by destruct p.
      set (b := match p with Startup => 0 | Evaluate => 1 | Complete => 2 | Settle => 3 end%N). clearbody b.
      split.
      - intros Hne. apply not_false_iff_true. intros Hf. apply Hne. apply N.bits_inj. intros i.
        rewrite N.land_spec, N.bits_0, N.pow2_bits_eqb. destruct (N.eqb_spec b i) as [<-|]; [by rewrite Hf|apply andb_false_r].
      - intros Ht Hz. assert (N.testbit (N.land mask (2 ^ b)) b = true) as Hb by by rewrite N.land_spec, Ht, N.pow2_bits_true.
        by rewrite Hz, N.bits_0 in Hb. }
    unfold mask. pose proof (phase_mask_spec (imap pair systems) 0 p) as Hm. cbv zeta in Hm. rewrite Hm, N.bits_0. simpl.
    rewrite existsb_exists. split.
    + intros ([i s] & Hin & Hp%bool_decide_eq_true). apply list_elem_of_In, elem_of_imap_pair in Hin.
      exists s. split; [by eapply list_elem_of_lookup_2|done].
    + intros (s & [i Hi]%list_elem_of_lookup_1 & Hp). exists (i, s). split; [by apply list_elem_of_In, elem_of_imap_pair|].
      by apply bool_decide_eq_true.
  - intros id. rewrite list_elem_of_omap. split.
    + intros ([i s] & Hin%elem_of_imap_pair & Hif). case_bool_decide; [done|]. simpl in Hif.
      destruct (has_hook i) eqn:Hh'; [|done]. injection Hif as ->. eauto.
    + intros (s & Hs' & Hp & Hh'). exists (id, s). split; [by apply elem_of_imap_pair|].
      rewrite bool_decide_eq_false_2 by done. by rewrite Hh'.
  - intros id. rewrite list_elem_of_omap. split.
    + intros ([i s] & Hin%elem_of_imap_pair & Hif). case_bool_decide; [|done]. injection Hif as ->. eauto.
    + intros (s & Hs' & Hp). exists (id, s). split; [by apply elem_of_imap_pair|]. by rewrite bool_decide_eq_true_2.
  - rewrite Hg, Hg1. by case_bool_decide.
Qed.
End building.

(** ** A concrete run

    A bowl with one system.  An insert is accepted, a settle begins, another
    insert is held back by its epoch, a caller waits for the first generation,
    a driver starts it, and a mutator finds no boundary and sleeps. *)
Definition demo_bundle_of (n : N) : list (TypeId * Value) := [(ty_num, v_num n)].
Definition demo_built : Engine * Registry :=
  run (engine_new, MkRegistry false 0 [] []) (build (λ _, false) demo_shapes [StepSystem demo_system]).
Definition demo_c0 : Conf := conf_of demo_built.1.

Definition demo_stage (c : Conf) (e : Entity) (n : N) : Engine * Entity * Staged :=
  run (c_engine c, 0%N, Queued 0) (stage_insert (c_engine c) (demo_bundle_of n) false (Some e)).
Definition demo_staged (c : Conf) (e : Entity) (n : N) : Conf :=
  staged_conf c (demo_stage c e n).1.1 9
    ((λ p, BaseOp (InsertBaseCommand e p.1 p.2)) <$> demo_bundle_of n) (demo_stage c e n).2.
Definition demo_c1 : Conf := demo_staged demo_c0 7 5.
Definition demo_c2 : Conf :=
  with_epochs ((epoch_enter (c_engine demo_c1)).2 :: c_epochs demo_c1) (moved_to (epoch_enter (c_engine demo_c1)).1 demo_c1).
Definition demo_c3 : Conf := demo_staged demo_c2 8 6.
Definition demo_c4 : Conf := moved_to (wait_for_generation (c_engine demo_c3) 1 4).1 demo_c3.
Definition demo_started : Engine * option (Evaluation * bool) :=
  run (c_engine demo_c4, None) (start_evaluation (c_engine demo_c4)).
Definition demo_ev : Evaluation := from_option fst (MkEvaluation 0 ∅) demo_started.2.
Definition demo_c5 : Conf :=
  with_applied (pending (pending_inputs (inputs (c_engine demo_c4)))) (with_eval (Some demo_ev) (moved_to demo_started.1 demo_c4)).
Definition demo_c6 : Conf := with_mutators (<[4 := (MkWaiter false false, queue_default)]> (c_mutators demo_c5)) demo_c5.
Definition demo_slept : PreemptWaiter * Engine * Mutated unit :=
  run (MkWaiter false false, c_engine demo_c6, MutBusy unit)
    (mutate (MkWaiter false false) (c_engine demo_c6) 4 ty_num 7 None (λ _, false) (λ v, (v, ()))).
Definition demo_c7 : Conf :=
  with_mutators (match demo_slept.2 with
                 | MutDone _ _ | MutMissing _ => delete 4 (c_mutators demo_c6)
                 | _ => <[4 := (demo_slept.1.1, queue_default)]> (c_mutators demo_c6)
                 end) (moved_to demo_slept.1.2 demo_c6).

Lemma demo_build_eq :
  build (λ _, false) demo_shapes [StepSystem demo_system] = Done demo_built.
Proof. vm_compute. reflexivity. Qed.

Lemma demo_staged_step c e n :
  c_mutators c !! 9 = None →
  is_done (stage_insert (c_engine c) (demo_bundle_of n) false (Some e)) = true →
  (demo_stage c e n).1.2 = e →
  engine_step nobody_matches c (demo_staged c e n).
Proof.
  intros Hid. unfold demo_staged, demo_stage.
  destruct (stage_insert (c_engine c) (demo_bundle_of n) false (Some e)) as [[[en e'] s]|] eqn:Hs; [|done].
  simpl. intros _ ->. by apply (es_insert _ c (demo_bundle_of n) false (Some e) en e s 9).
Qed.

Lemma demo_reached3 : rtc (engine_step nobody_matches) (conf_of demo_built.1) demo_c3.
Proof.
  eapply rtc_l; [apply (demo_staged_step demo_c0 7 5); vm_compute; reflexivity|].
  eapply rtc_l; [apply (es_enter _ demo_c1)|].
  apply rtc_once, (demo_staged_step demo_c2 8 6); vm_compute; reflexivity.
Qed.
Lemma demo_reached4 : rtc (engine_step nobody_matches) (conf_of demo_built.1) demo_c4.
Proof.
  eapply rtc_r; [exact demo_reached3|]. apply (es_wait _ demo_c3 1 4). vm_compute. left.
Qed.
Lemma demo_start_eq : start_evaluation (c_engine demo_c4) = Done (demo_started.1, Some (demo_ev, true)).
Proof. vm_compute. reflexivity. Qed.
Lemma demo_reached5 : rtc (engine_step nobody_matches) (conf_of demo_built.1) demo_c5.
Proof.
  assert (c_eval demo_c4 = None) as Hev by (vm_compute; reflexivity).
  eapply rtc_r; [exact demo_reached4|exact (es_start nobody_matches demo_c4 demo_started.1 demo_ev true Hev demo_start_eq)].
Qed.
Lemma demo_mutate_eq :
  mutate (MkWaiter false false) (c_engine demo_c6) 4 ty_num 7 None (λ _, false) (λ v, (v, ())) =
  Done (demo_slept.1.1, demo_slept.1.2, demo_slept.2).
Proof. vm_compute. reflexivity. Qed.
Lemma demo_reached7 : rtc (engine_step nobody_matches) (conf_of demo_built.1) demo_c7.
Proof.
  assert (c_mutators demo_c5 !! 4 = None) as H5 by (vm_compute; reflexivity).
  assert (c_mutators demo_c6 !! 4 = Some (MkWaiter false false, queue_default)) as H6 by (vm_compute; reflexivity).
  eapply rtc_r; [eapply rtc_r; [exact demo_reached5|exact (es_mutator nobody_matches demo_c5 4 false H5)]|].
  exact (es_mutate nobody_matches unit demo_c6 4 (MkWaiter false false) ty_num 7 None (λ _, false) (λ v, (v, ()))
           demo_slept.1.1 demo_slept.1.2 demo_slept.2 H6 demo_mutate_eq).
Qed.

Lemma generation_promises_kept_witness :
  running_generation (gens (c_engine demo_c5)) = Some 1%N ∧ (1%N, 4) ∈ waiters (boundary (c_engine demo_c5)) ∧
  4 ∈ (complete_evaluation (c_engine demo_c5) demo_ev true).2.
Proof.
  assert ((1%N, 4) ∈ waiters (boundary (c_engine demo_c5))) as Hin by (vm_compute; left).
  destruct (generation_promises_kept nobody_matches (λ _, false) demo_shapes [StepSystem demo_system] _ _ demo_build_eq
              demo_c5 demo_reached5) as (Hr & _ & Hw).
  split; [exact Hr|]. split; [exact Hin|].
  destruct (Hw 1%N 4 Hin) as (_ & _ & _ & _ & Hc). assert (c_eval demo_c5 = Some demo_ev) as Hev by (vm_compute; reflexivity). exact (Hc demo_ev true Hev).
Defined.

Lemma inputs_conserved_witness :
  length (c_staged demo_c5) = 2 ∧ length (c_applied demo_c5) = 1 ∧ length (held (inputs (c_engine demo_c5))) = 1 ∧
  c_staged demo_c5 = c_applied demo_c5 ++ pending (pending_inputs (inputs (c_engine demo_c5))) ++ held (inputs (c_engine demo_c5)).
Proof.
  split; [vm_compute; reflexivity|]. split; [vm_compute; reflexivity|]. split; [vm_compute; reflexivity|].
  apply (inputs_conserved nobody_matches (λ _, false) demo_shapes [StepSystem demo_system] _ _ demo_build_eq
           demo_c5 demo_reached5). reflexivity.
Defined.

(** The settle that began before the second insert does not promote it, the end of
    its epoch does. *)
Lemma epoch_drains_exactly_witness :
  (promote_deferred_inputs (c_engine demo_c3) 0).2 = false ∧ (promote_deferred_inputs (c_engine demo_c3) u64_max).2 = true ∧
  deferred_inputs (inputs (promote_deferred_inputs (c_engine demo_c3) u64_max).1) =
    filter (λ d, ¬ d.1 ≤ u64_max)%N (deferred_inputs (inputs (c_engine demo_c3))).
Proof.
  split; [vm_compute; reflexivity|]. split; [vm_compute; reflexivity|].
  apply (epoch_drains_exactly nobody_matches (λ _, false) demo_shapes [StepSystem demo_system] _ _ demo_build_eq
           demo_c3 u64_max _ (promote_deferred_inputs (c_engine demo_c3) u64_max).2 demo_reached3).
  apply surjective_pairing.
Defined.

Lemma boundaries_safe_witness :
  boundary_waiters (boundary (c_engine demo_c7)) = [4] ∧
  preempt_waiters (boundary (c_engine demo_c7)) = N.of_nat (registered_count (c_mutators demo_c7)) ∧
  boundary_waiters (boundary (c_engine demo_c7)) ⊆ (open_window (c_engine demo_c7)).2.
Proof.
  split; [vm_compute; reflexivity|].
  destruct (boundaries_safe nobody_matches (λ _, false) demo_shapes [StepSystem demo_system] _ _ demo_build_eq
              demo_c7 demo_reached7) as (Hc & _ & _ & Ho & _). split; [exact Hc|exact Ho].
Defined.

Lemma start_applies_inputs_witness :
  row_value (world demo_started.1) ty_num 7 = Some (v_num 5) ∧
  pending_generation (gens (c_engine demo_c4)) = Some (eval_generation demo_ev) ∧
  pending (pending_inputs (inputs demo_started.1)) = [].
Proof.
  split; [vm_compute; reflexivity|].
  destruct (start_applies_inputs nobody_matches (λ _, false) demo_shapes [StepSystem demo_system] _ _ demo_build_eq
              demo_c4 demo_started.1 demo_ev true demo_reached4 demo_start_eq) as (Hp & Hq & _). split; [exact Hp|exact Hq].
Defined.

Definition demo_snapshot (c : Conf) : Engine * World := run (c_engine c, world (c_engine c)) (snapshot_locked (c_engine c)).

Lemma snapshot_cache_sound_witness : agrees (demo_snapshot demo_c5).2 (world (c_engine demo_c5)).
Proof.
  apply (snapshot_cache_sound nobody_matches (λ _, false) demo_shapes [StepSystem demo_system] _ _ demo_build_eq
           demo_c5 (demo_snapshot demo_c5).1 (demo_snapshot demo_c5).2 demo_reached5).
  vm_compute. reflexivity.
Defined.

(** The generation finishes and the settle ends. *)
Definition demo_finishing : Conf := guard_completed demo_c5.
Definition demo_c8 : Conf := with_eval None (moved_to (complete_evaluation (c_engine demo_finishing) demo_ev false).1 demo_finishing).
Definition demo_finish : Engine * SettleStep * list CallerId :=
  run (c_engine demo_c8, SettleAgain, []) (settle_finish (c_engine demo_c8) 0).
Lemma demo_driving : driving demo_c5 demo_ev.
Proof. split; vm_compute; reflexivity. Qed.
Lemma demo_finishing_eval : c_eval demo_finishing = Some demo_ev ∧ c_finishing demo_finishing = true.
Proof. split; vm_compute; reflexivity. Qed.
Lemma demo_reached_finishing : rtc (engine_step nobody_matches) (conf_of demo_built.1) demo_finishing.
Proof. eapply rtc_r; [exact demo_reached5|exact (es_finishing nobody_matches demo_c5 demo_ev demo_driving)]. Qed.
Lemma demo_reached8 : rtc (engine_step nobody_matches) (conf_of demo_built.1) demo_c8.
Proof.
  destruct demo_finishing_eval as [Hev Hf].
  eapply rtc_r; [exact demo_reached_finishing|exact (es_complete nobody_matches demo_finishing demo_ev false Hev Hf)].
Qed.

Lemma settle_return_exact_witness : settled_at 0 demo_finish.1.1 ∧ bowl_is_settled demo_finish.1.1 = true.
Proof.
  split; [|vm_compute; reflexivity].
  destruct (settle_return_exact nobody_matches (λ _, false) demo_shapes [StepSystem demo_system] _ _ demo_build_eq
              demo_c8 0 demo_reached8) as (_ & _ & _ & _ & Hf).
  destruct (Hf demo_finish.1.1 demo_finish.2 ltac:(vm_compute; reflexivity)) as (Hs & _). exact Hs.
Defined.

Lemma abandoned_run_retried_witness :
  (abandon_evaluation (c_engine demo_c5) demo_ev).2 = [4] ∧
  running_generation (gens (abandon_evaluation (c_engine demo_c5) demo_ev).1) = None ∧
  ∃ p, pending_generation (gens (abandon_evaluation (c_engine demo_c5) demo_ev).1) = Some p ∧ (1 ≤ p)%N.
Proof.
  split; [vm_compute; reflexivity|].
  assert (c_eval demo_c5 = Some demo_ev) as Hev by (vm_compute; reflexivity).
  destruct (abandoned_run_retried nobody_matches (λ _, false) demo_shapes [StepSystem demo_system] _ _ demo_build_eq
              demo_c5 demo_ev demo_reached5 Hev) as [Hab _].
  destruct (Hab (proj2 demo_driving)) as (_ & _ & _ & _ & Hr & _ & _ & _ & _ & _ & _ & p & Hp & Hle & _).
  split; [exact Hr|]. exists p. split; [exact Hp|exact Hle].
Defined.

(** ** A driver lost while it finishes strands its waiters

    The memo has left the guard and the driver is dropped while it waits for the
    lock: caller 4 sleeps on generation 1, which is marked as running, nobody
    drives it, nothing is pending, and another driver finds nothing to start; a
    settle joins the wait.  The memo is gone. *)
Definition demo_lost : Conf := driver_lost demo_ev demo_finishing.
Lemma demo_reached_lost : rtc (engine_step nobody_matches) (conf_of demo_built.1) demo_lost.
Proof.
  destruct demo_finishing_eval as [Hev Hf].
  eapply rtc_r; [exact demo_reached_finishing|exact (es_lose nobody_matches demo_finishing demo_ev Hev Hf)].
Qed.
Lemma lost_driver_strands :
  rtc (engine_step nobody_matches) (conf_of demo_built.1) demo_lost ∧ c_eval demo_lost = None ∧
  waiters (boundary (c_engine demo_lost)) = [(1%N, 4)] ∧ running_generation (gens (c_engine demo_lost)) = Some 1%N ∧
  pending_generation (gens (c_engine demo_lost)) = None ∧
  snd <$> start_evaluation (c_engine demo_lost) = Done None ∧
  snd <$> settle_head (c_engine demo_lost) 0 = Done (SettleDrive 1).
Proof. split; [exact demo_reached_lost|]. vm_compute. done. Qed.

(** ** An abandoned run leaves mutators asleep

    The guard of an abandoned run wakes the callers that wait for a generation,
    not the mutators that wait for a boundary: outside every epoch nobody else
    wakes them, although the boundary is open now. *)
Definition demo_left : Engine := run demo_built.1 (mbind (λ p, Done p.1) (epoch_leave (c_engine demo_c5))).
Definition demo_slept_outside : PreemptWaiter * Engine * Mutated unit :=
  run (MkWaiter false false, demo_left, MutBusy unit)
    (mutate (MkWaiter false false) demo_left 4 ty_num 7 None (λ _, false) (λ v, (v, ()))).
Lemma abandoned_run_strands :
  let en := (abandon_evaluation demo_slept_outside.1.2 demo_ev).1 in
  boundary_waiters (boundary en) = [4] ∧ (abandon_evaluation demo_slept_outside.1.2 demo_ev).2 = [4] ∧
  settling (inputs en) = 0%N ∧ (boundary_reached demo_slept_outside.1.1 en).2 = true.
Proof. vm_compute. done. Qed.
