(* ===== verification/Advice.v ===== *)
(** * What the engine reports to its users ([bowl.rs])

    [Bowl::explain] tells why a system did or did not run, and registering a
    system warns of a view that could race with a producer of its phase.  The
    theorems: the counts of a report are those of the planner and of the healing
    pass, and a race that a commit detects was announced when the systems were
    registered. *)
From stdpp Require Import base numbers strings sets gmap fin_maps sorting relations list.
From S2P Require Import Prelude Locks Access.
From S2P Require Import Components Demo Stores Presence World WorldInv Ownership WorldOps Relations Frame.
From S2P Require Import Commands Query ExternalQuery Deps Planner Commit Params Joins Delta Fetch Skip.
From S2P Require Import Engine EngineInv EngineThms.

(** [str::ends_with] *)
Definition ends_with (name suffix : string) : bool :=
  (String.length suffix <=? String.length name)%nat &&
  String.eqb (String.substring (String.length name - String.length suffix) (String.length suffix) name) suffix.

(** The first system whose name ends with what was asked for. *)
Definition find_system (names : list string) (asked : string) : option SystemId :=
  fst <$> list_find (λ name, ends_with name asked = true) names.

(** [ExplainReport] *)
Record ExplainReport := MkReport {
  rp_registered : bool;
  rp_phase : option Phase;
  matched_rows : nat;
  memoized_rows : nat;
  stale_views : nat;
}.

Section advice.
Context `{RelationshipLaws} `{HashOrder}.
Implicit Types (w : World) (e : Entity) (ty : TypeId) (ps : list SystemParam) (s : BoxedSystem) (en : Engine)
  (memo : gmap SystemInvocation MemoEntry) (names : list string) (written : list (TypeId * Entity)).

Variable marker : list FacetPart → TypeId.
(** The parameters of each registered function. *)
Variable params : SystemId → list SystemParam.

(** ** Explaining a system *)

(** A viewed store that moved past the plan of some invocation of the system. *)
Definition stale_view w memo (id : SystemId) ty : bool :=
  existsb (λ '(owner, entry), bool_decide (system owner = id) && bool_decide (planned_revision entry < store_watermark w ty)%N)
    (map_to_list memo).

Definition unregistered : ExplainReport := MkReport false None 0 0 0.

(** [Bowl::explain] *)
Definition explain names en (asked : string) : result (Engine * ExplainReport) :=
  let target := id ← find_system names asked; s ← cs_systems (commit en) !! id; Some (id, s) in
  let memo := cs_memo (commit en) in
  '(en, snapshot) ← snapshot_locked en;
  match target with
  | None => Done (en, unregistered)
  | Some (id, s) =>
      '(matched, memoized) ← count_rows marker id snapshot (params id) memo;
      let stale := filter (λ ty, stale_view snapshot memo id ty = true) (sort_dedup (view_freshness s)) in
      Done (en, MkReport true (Some (sys_phase s)) matched memoized (length stale))
  end.

(** [Bowl::explain_all] *)
Definition explain_all names en : result (Engine * list (string * ExplainReport)) :=
  fold_result (λ '(en, reports) name, '(en, report) ← explain names en name; Done (en, reports ++ [(name, report)]))
    (en, []) names.

Lemma count_rows_total X w ps system memo :
  wf X w → addressable w → rel_ok w → joinable w ps → Joins.registered marker ps →
  ∃ matched memoized, count_rows marker system w ps memo = Done (matched, memoized).
Proof.
  intros Hwf Hadd Hrel Hj Hreg. unfold count_rows.
  destruct (tuple_states_aux marker X w ps Hwf Hadd Hrel Hj Hreg) as (full & -> & _ & Hin). simpl.
  assert (∀ st, st ∈ full → Forall2 (param_row w) ps st) as Hall by (by intros st [? _]%Hin). clear Hin.
  enough (∃ hits, filter_result (λ st, deps ← tuple_deps (sp_deps marker w) ps st;
    Done (negb (tuple_always_run ps) && memo_hit memo (Invocation system (tuple_keys st)) deps)) full = Done hits)
    as [hits ->] by (simpl; eauto).
  induction full as [|st full IH]; [by eexists|].
  destruct (plan_state_spec marker system w ps memo st (Hall st ltac:(left))) as (ds & _ & Hds & _).
  destruct IH as [hits IH]; [intros st' ?; apply Hall; by right|]. simpl. rewrite Hds. simpl. rewrite IH. simpl. eauto.
Qed.

Lemma stale_view_spec w memo id ty :
  stale_view w memo id ty = true ↔
  ∃ owner entry, memo !! owner = Some entry ∧ system owner = id ∧ (planned_revision entry < store_watermark w ty)%N.
Proof.
  unfold stale_view. rewrite existsb_elem_of. split.
  - intros ([owner entry] & Hin%elem_of_map_to_list & [Hs%bool_decide_eq_true Hl%bool_decide_eq_true]%andb_true_iff).
    by exists owner, entry.
  - intros (owner & entry & Hm & Hs & Hl). exists (owner, entry). split; [by apply elem_of_map_to_list|].
    by rewrite !bool_decide_eq_true_2.
Qed.

(** A report is true.  Take a sound engine, a registered system the name finds,
    and the snapshot explaining it takes.  Explaining returns and changes nothing
    but the snapshot cache.  The rows it counts as matched are the memoized ones
    plus the invocations a full plan would run, so that they are equal exactly
    when there is nothing to run; and it reports no stale view exactly when no
    store that a view of the system reads moved past the plan of one of its
    invocations, in which case a healing pass would leave the system alone. *)
Theorem explain_exact names en asked id s en' snapshot completed planned :
  find_system names asked = Some id → cs_systems (commit en) !! id = Some s →
  wf nothing_taken (world en) → snapshots_ok en → snapshot_locked en = Done (en', snapshot) →
  wf nothing_taken snapshot → addressable snapshot → rel_ok snapshot →
  joinable snapshot (params id) → Joins.registered marker (params id) →
  plan_invocations marker id snapshot (params id) (cs_memo (commit en)) None = Done (completed, planned) →
  ∃ r, explain names en asked = Done (en', r) ∧ commit en' = commit en ∧
    rp_registered r = true ∧ rp_phase r = Some (sys_phase s) ∧
    matched_rows r = memoized_rows r + length planned ∧ (matched_rows r = memoized_rows r ↔ planned = []) ∧
    (stale_views r = 0 ↔ ∀ owner entry ty, cs_memo (commit en) !! owner = Some entry → system owner = id →
       ty ∈ view_freshness s → (store_watermark (world en) ty ≤ planned_revision entry)%N) ∧
    (stale_views r = 0 → ∀ owner, system owner = id → ¬ stale_viewer en owner).
Proof.
  intros Hfind Hs Hwfw Hsnaps Hsnap Hwf Hadd Hrel Hj Hreg Hplan.
  destruct (count_rows_total nothing_taken snapshot (params id) id (cs_memo (commit en)) Hwf Hadd Hrel Hj Hreg)
    as (matched & memoized & Hcount).
  destruct (count_rows_exact marker nothing_taken snapshot (params id) id (cs_memo (commit en)) matched memoized completed planned
              Hwf Hadd Hrel Hj Hreg Hcount Hplan) as [Hsum _].
  pose proof (snapshot_locked_spec _ _ _ Hsnap) as (_ & _ & _ & _ & Htaken).
  pose proof (taken_agrees nothing_taken _ _ Hwfw (Htaken Hsnaps)) as Hagree.
  assert (commit en' = commit en) as Hc.
  { revert Hsnap. unfold snapshot_locked. destruct (snapshot_cache _) as [[key cached]|]; [case_bool_decide|];
      [by intros [= <- _]|by intros (? & _ & [= <- _])%bind_Done..]. }
  set (stale := filter (λ ty, stale_view snapshot (cs_memo (commit en)) id ty = true) (sort_dedup (view_freshness s))).
  exists (MkReport true (Some (sys_phase s)) matched memoized (length stale)). unfold explain. rewrite Hfind. simpl. rewrite Hs. simpl.
  rewrite Hsnap. simpl. rewrite Hcount. simpl.
  assert (length stale = 0 ↔ ∀ owner entry ty, cs_memo (commit en) !! owner = Some entry → system owner = id →
       ty ∈ view_freshness s → (store_watermark (world en) ty ≤ planned_revision entry)%N) as Hstale.
  { split.
    - intros Hnil%nil_length_inv owner entry ty Hm Ho Hty. apply N.nlt_ge. intros Hlt.
      assert (ty ∈ stale) as Hin; [|rewrite Hnil in Hin; by apply elem_of_nil in Hin].
      apply list_elem_of_filter. split; [|by apply elem_of_sort_dedup]. apply stale_view_spec. exists owner, entry.
      by rewrite (ag_watermark _ _ Hagree).
    - intros Hall. destruct stale as [|ty l] eqn:Heq; [done|]. assert (ty ∈ stale) as Hin by (rewrite Heq; by left).
      apply list_elem_of_filter in Hin as [(owner & entry & Hm & Ho & Hl)%stale_view_spec Hty].
      rewrite elem_of_sort_dedup in Hty.
      rewrite (ag_watermark _ _ Hagree) in Hl. specialize (Hall owner entry ty Hm Ho Hty). lia. }
  split_and!; [done..|lia| |exact Hstale|].
  - rewrite Hsum. split; [|intros ->; simpl; lia]. intros Hz. apply nil_length_inv. lia.
  - intros Hz owner Ho (entry & s' & ty & Hm & _ & Hs' & _ & Hty & Hlt). rewrite Ho, Hs in Hs'. injection Hs' as <-.
    pose proof (proj1 Hstale Hz owner entry ty Hm Ho Hty). lia.
Qed.
End advice.

(** ** Warning of races when systems are registered *)
Section races.
Context `{ComponentTypes} `{HashOrder}.
Implicit Types (w : World) (e : Entity) (ty : TypeId) (s : BoxedSystem) (en : Engine)
  (systems : list BoxedSystem) (written : list (TypeId * Entity)) (schema : list ShapeDesc).

(** Who is warned of: producer, viewer, and the set the view requires. *)
Definition Warning : Type := SystemId * SystemId * list TypeId.

Definition intersects (l1 l2 : list TypeId) : bool := existsb (λ ty, bool_decide (ty ∈ l2)) l1.

(** [warn_producer_viewer_pair]: the required sets it warns of. *)
Definition warn_producer_viewer_pair schema (producer viewer : BoxedSystem) : list (list TypeId) :=
  match declared_outputs producer with
  | None => []
  | Some declared =>
      filter (λ required,
        negb (bool_decide (required = [])) && intersects required declared &&
        existsb (λ shape, forallb (shape_contains shape) required && existsb (shape_contains shape) declared) schema = true)
        (view_sets viewer)
  end.

(** [warn_same_phase_conflicts]: the new system will be the next one. *)
Definition warn_same_phase_conflicts (st : CommitState) (new : BoxedSystem) : list Warning :=
  match cs_schema st with
  | None => []
  | Some schema =>
      '(index, existing) ← imap pair (cs_systems st);
      if bool_decide (sys_phase existing = sys_phase new) then
        ((λ required, (length (cs_systems st), index, required)) <$> warn_producer_viewer_pair schema new existing) ++
        ((λ required, (index, length (cs_systems st), required)) <$> warn_producer_viewer_pair schema existing new)
      else []
  end.

(** The warnings of registrations, in order. *)
Fixpoint registration_warnings (st : Engine * bool) systems : list Warning :=
  match systems with
  | [] => []
  | s :: systems => warn_same_phase_conflicts (commit st.1) s ++ registration_warnings (register_system st s) systems
  end.

(** The warnings of [BowlBuilder::build]. *)
Definition build_warnings (shapes : list ShapeDesc) (steps : list BuildStep) : list Warning :=
  let shapes := shapes ++ concat ((λ step, match step with StepPlugin l _ => l | StepSystem _ => [] end) <$> steps) in
  let en := if bool_decide (shapes = []) then engine_new
            else on_commit (set_schema (Some shapes)) engine_new in
  registration_warnings (en, false) (concat (step_systems <$> steps)).

(** Every pair of registrations of one phase was examined, in both directions. *)
Lemma registration_warned systems (st : Engine * bool) schema :
  cs_schema (commit st.1) = Some schema →
  ∀ i j producer viewer required,
    let all := cs_systems (commit st.1) ++ systems in
    all !! i = Some producer → all !! j = Some viewer → i ≠ j →
    (length (cs_systems (commit st.1)) ≤ i ∨ length (cs_systems (commit st.1)) ≤ j) →
    sys_phase producer = sys_phase viewer →
    required ∈ warn_producer_viewer_pair schema producer viewer →
    (i, j, required) ∈ registration_warnings st systems.
Proof.
  revert st. induction systems as [|s systems IH]; intros [en healing] Hsc i j producer viewer required all Hi Hj Hne Hlate Hph Hreq;
    simpl in *.
  { unfold all in *. rewrite app_nil_r in *. apply lookup_lt_Some in Hi, Hj. lia. }
  set (n := length (cs_systems (commit en))) in *.
  assert (all !! n = Some s) as Hn by (unfold all, n; by rewrite lookup_app_r, Nat.sub_diag).
  specialize (IH (register_system (en, healing) s)). simpl in IH. rewrite length_app, <-(assoc_L (++)) in IH. simpl in IH.
  pose proof (IH Hsc) as Hrest. fold n in Hrest.
  apply elem_of_app. destruct (decide (i = n ∨ j = n)) as [Hor|Hno].
  - destruct (decide (i < n ∨ j < n)) as [Hlt|Hge].
    + left. unfold warn_same_phase_conflicts. rewrite Hsc. apply list_elem_of_bind. destruct Hor as [-> | ->].
      * rewrite Hn in Hi. injection Hi as <-. assert (cs_systems (commit en) !! j = Some viewer) as Hv.
        { unfold all in Hj. rewrite lookup_app_l in Hj; [done|]. unfold n in *. lia. }
        exists (j, viewer). split; [|by apply elem_of_imap_pair]. rewrite bool_decide_eq_true_2 by done.
        apply elem_of_app. left. apply list_elem_of_fmap. by exists required.
      * rewrite Hn in Hj. injection Hj as <-. assert (cs_systems (commit en) !! i = Some producer) as Hp.
        { unfold all in Hi. rewrite lookup_app_l in Hi; [done|]. unfold n in *. lia. }
        exists (i, producer). split; [|by apply elem_of_imap_pair]. rewrite bool_decide_eq_true_2 by done.
        apply elem_of_app. right. apply list_elem_of_fmap. by exists required.
    + right. apply (Hrest i j producer viewer required); try done. lia.
  - right. apply (Hrest i j producer viewer required); try done. lia.
Qed.

Lemma fold_panics {A} (g : A → result unit) (l : list A) f :
  fold_result (λ _ a, g a) () l = Panic f → ∃ a, a ∈ l ∧ g a = Panic f.
Proof.
  induction l as [|a l IH]; [done|]. cbn [fold_result]. destruct (g a) as [[]|f'] eqn:Ha; simpl.
  - intros (b & ? & ?)%IH. exists b. split; [by right|done].
  - intros [= ->]. exists a. split; [by left|done].
Qed.

(** What of a system never changes after its registration. *)
Definition declaration s : Phase * list (list TypeId) * option (list TypeId) := (sys_phase s, view_sets s, declared_outputs s).

Variable row_counts : SystemId → World → nat.

Lemma race_found w systems writer phase written :
  check_races row_counts w systems writer (Some phase) written = Panic AmbientRace →
  ∃ ty e index s required, (ty, e) ∈ written ∧ systems !! index = Some s ∧ index ≠ writer ∧ sys_phase s = phase ∧
    0 < row_counts index w ∧ required ∈ view_sets s ∧ ty ∈ required ∧ ∀ c, c ∈ required → has w c e = true.
Proof.
  unfold check_races. intros Hr. pose proof (fold_panics (λ p : TypeId * Entity,
    let '(ty, e) := p in
    fold_result (λ (_ : unit) '(index, s),
      if bool_decide (index = writer) || negb (bool_decide (sys_phase s = phase)) then Done ()
      else check AmbientRace (negb (view_races w s ty e && bool_decide (0 < row_counts index w)))) () (imap pair systems))
    written AmbientRace) as Hf.
  destruct Hf as ([ty e] & Hin & Hf); [exact Hr|].
  pose proof (fold_panics (λ p : SystemId * BoxedSystem,
    let '(index, s) := p in
    if bool_decide (index = writer) || negb (bool_decide (sys_phase s = phase)) then Done ()
    else check AmbientRace (negb (view_races w s ty e && bool_decide (0 < row_counts index w)))) (imap pair systems) AmbientRace) as Hg.
  destruct Hg as ([index s] & His%elem_of_imap_pair & Hg); [exact Hf|].
  destruct (bool_decide (index = writer)) eqn:Hw; [done|]. apply bool_decide_eq_false in Hw.
  destruct (bool_decide (sys_phase s = phase)) eqn:Hp; [|done]. apply bool_decide_eq_true in Hp. simpl in Hg.
  unfold check in Hg. destruct (view_races w s ty e) eqn:Hv; [|done]. simpl in Hg.
  destruct (bool_decide (0 < row_counts index w)) eqn:Hc; [|done]. apply bool_decide_eq_true in Hc.
  unfold view_races in Hv. apply existsb_elem_of in Hv as (required & Hreq & [Hty%bool_decide_eq_true Hall]%andb_true_iff).
  rewrite forallb_elem_of in Hall. by exists ty, e, index, s, required.
Qed.

(** C40: no race comes unannounced.  Take a built bowl with a schema, its systems
    as they are later, and what a system with declared outputs wrote in a phase
    of its own, on entities that each fit one shape of the schema.  If the
    commit finds that the write completed an entity a view of the same phase
    matches, and panics, then building the bowl warned of exactly this producer,
    this viewer and this view. *)
Theorem races_announced has_hook shapes steps en0 reg w systems writer producer declared written :
  build has_hook shapes steps = Done (en0, reg) →
  declaration <$> systems = declaration <$> cs_systems (commit en0) →
  systems !! writer = Some producer → declared_outputs producer = Some declared →
  (∀ ty e, (ty, e) ∈ written → ty ∈ declared ∧
     ∃ schema shape, cs_schema (commit en0) = Some schema ∧ shape ∈ schema ∧
       ∀ c, has w c e = true → shape_contains shape c = true) →
  check_races row_counts w systems writer (Some (sys_phase producer)) written = Panic AmbientRace →
  ∃ viewer s ty e required, systems !! viewer = Some s ∧ viewer ≠ writer ∧ (ty, e) ∈ written ∧
    required ∈ view_sets s ∧ ty ∈ required ∧ (∀ c, c ∈ required → has w c e = true) ∧
    (writer, viewer, required) ∈ build_warnings shapes steps.
Proof.
  intros Hbuild Hdecl Hprod Hdeclared Hwritten (ty & e & viewer & s & required & Hin & Hs & Hne & Hph & _ & Hreq & Hty & Hall)%race_found.
  exists viewer, s, ty, e, required. split_and!; [done..|].
  destruct (Hwritten ty e Hin) as (Htd & schema & shape & Hschema & Hshape & Hfits).
  pose proof (build_exact has_hook shapes steps) as Hb. rewrite Hbuild in Hb. cbv zeta in Hb. destruct Hb as (Hsys & Hsc & _).
  rewrite Hsc in Hschema. unfold build_warnings. cbv zeta.
  set (all := shapes ++ _) in *. destruct (bool_decide (all = [])) eqn:Hnil; [done|]. injection Hschema as <-.
  assert (∀ i s, systems !! i = Some s → ∃ s0, concat (step_systems <$> steps) !! i = Some s0 ∧ declaration s0 = declaration s) as Hback.
  { intros i s' Hi. rewrite <-Hsys. assert ((declaration <$> systems) !! i = Some (declaration s')) as Hd by (by rewrite list_lookup_fmap, Hi).
    rewrite Hdecl, list_lookup_fmap in Hd. apply fmap_Some in Hd as (s0 & ? & ?). by exists s0. }
  destruct (Hback _ _ Hprod) as (p0 & Hp0 & [= Hpp Hpv Hpd]). destruct (Hback _ _ Hs) as (s0 & Hs0 & [= Hsp Hsv Hsd]).
  apply (registration_warned _ (on_commit (set_schema (Some all)) engine_new, false) all eq_refl writer viewer p0 s0 required);
    simpl; try done; [lia|congruence|].
  unfold warn_producer_viewer_pair. rewrite Hpd, Hdeclared. apply list_elem_of_filter. split; [|by rewrite Hsv].
  rewrite bool_decide_eq_false_2 by (intros ->; by apply elem_of_nil in Hty). simpl.
  apply andb_true_iff. split.
  - apply existsb_elem_of. exists ty. split; [done|]. by apply bool_decide_eq_true.
  - apply existsb_elem_of. exists shape. split; [done|]. apply andb_true_iff. split.
    + apply forallb_elem_of. intros c ?. by apply Hfits, Hall.
    + apply existsb_elem_of. exists ty. split; [done|]. by apply Hfits, Hall.
Qed.
End races.

(** ** Concrete runs *)

(** A producer and a viewer of edges, both in [Evaluate]. *)
Definition demo_maker : BoxedSystem :=
  MkSystem Evaluate [] [] [] [] (Some [ty_edge]) (Some [ty_num]) u64_max true false u64_max 0 [].
Definition demo_onlooker : BoxedSystem :=
  MkSystem Evaluate [[ty_marker]; [ty_edge]] [ty_edge] [] [] (Some []) (Some [ty_num]) u64_max true false u64_max 0 [].
Definition demo_watched : list BuildStep := [StepSystem demo_onlooker; StepSystem demo_maker].
Definition demo_watched_bowl : Engine * Registry :=
  run (engine_new, MkRegistry false 0 [] []) (build (λ _, false) demo_shapes demo_watched).

Example demo_warned : build_warnings demo_shapes demo_watched = [(1, 0, [ty_edge])].
Proof. vm_compute. reflexivity. Qed.

(** Deciding that a shape contains all an entity carries. *)
Lemma fits_b_spec `{ComponentTypes} `{HashOrder} X w shape e :
  wf X w →
  forallb (λ '(ty, s), if bool_decide (is_Some (entries s !! e)) then shape_contains shape ty else true) (stores_iter (stores w)) = true →
  ∀ c, has w c e = true → shape_contains shape c = true.
Proof.
  intros Hwf. rewrite forallb_elem_of. intros Hall c Hc. apply bool_decide_eq_true in Hc. unfold row in Hc.
  destruct (store_of w c) as [s|] eqn:Hs; [|by destruct Hc]. simpl in Hc.
  specialize (Hall (c, s)). rewrite elem_of_stores_iter in Hall by apply (wf_st _ _ Hwf).
  specialize (Hall Hs). simpl in Hall. by rewrite bool_decide_eq_true_2 in Hall.
Qed.

Lemma races_announced_witness :
  check_races (λ _ _, 1) demo_rows [demo_onlooker; demo_maker] 1 (Some Evaluate) [(ty_edge, 3%N)] = Panic AmbientRace ∧
  ∃ viewer required, (1, viewer, required) ∈ build_warnings demo_shapes demo_watched ∧ ty_edge ∈ required.
Proof.
  assert (check_races (λ _ _, 1) demo_rows [demo_onlooker; demo_maker] 1 (Some Evaluate) [(ty_edge, 3%N)] = Panic AmbientRace) as Hr
    by (vm_compute; reflexivity).
  split; [exact Hr|].
  assert (build (λ _, false) demo_shapes demo_watched = Done demo_watched_bowl) as Hb by (vm_compute; reflexivity).
  destruct (races_announced (λ _ _, 1) (λ _, false) demo_shapes demo_watched demo_watched_bowl.1 demo_watched_bowl.2 demo_rows
              [demo_onlooker; demo_maker] 1 demo_maker [ty_edge] [(ty_edge, 3%N)])
    as (viewer & s & ty & e & required & _ & _ & Hin & _ & Hty & _ & Hwarn).
  - rewrite Hb. apply f_equal, surjective_pairing.
  - vm_compute. reflexivity.
  - reflexivity.
  - reflexivity.
  - intros ty e [= -> ->]%list_elem_of_singleton. split; [by left|]. exists demo_shapes, (MkShape 0 [ty_num; ty_edge] [ty_marker]).
    split; [vm_compute; reflexivity|]. split; [left|]. apply (fits_b_spec nothing_taken _ _ _ demo_wf_rows). vm_compute. reflexivity.
  - exact Hr.
  - apply list_elem_of_singleton in Hin. injection Hin as -> ->. exists viewer, required. split; [exact Hwarn|exact Hty].
Defined.

(** A shape of its own for each component, and no warning: the race of an entity
    that fits no single shape is detected only by the commit. *)
Definition demo_apart_shapes : list ShapeDesc := [MkShape 0 [ty_num] []; MkShape 1 [ty_edge] [ty_marker]].
Definition demo_apart : list BuildStep :=
  [StepSystem (MkSystem Evaluate [[ty_num; ty_edge]] [ty_num; ty_edge] [] [] (Some []) (Some [ty_num]) u64_max true false u64_max 0 []);
   StepSystem demo_maker].
Definition demo_spread : World := run demo_rows (insert demo_rows 3 ty_num (v_num 8) None).

Lemma unannounced_race :
  build_warnings demo_apart_shapes demo_apart = [] ∧
  check_shape_conformance demo_spread demo_apart_shapes 3 [ty_edge] = Done () ∧
  check_races (λ _ _, 1) demo_spread (concat (step_systems <$> demo_apart)) 1 (Some Evaluate) [(ty_edge, 3%N)] = Panic AmbientRace.
Proof. split_and!; vm_compute; reflexivity. Qed.
