(* ===== verification/Phase.v ===== *)
(** * The phases of a generation ([bowl.rs])

    [run_phase_streaming] and [run_evaluation]: planning waves on a snapshot,
    admitted runs in flight, commits in the order runs finish, preemption.  What
    a system plans and what a run returns are arguments; everything the engine
    does with them is here.  The driver suspends in [await_next_run] and in the
    preemption window; other callers act in between. *)
From stdpp Require Import base numbers sets gmap fin_maps sorting list.
From S2P Require Import Prelude Access.
From S2P Require Import Components Demo Stores Presence World WorldInv Ownership WorldOps Frame.
From S2P Require Import Commands Query Deps Planner Commit Engine EngineInv.

(** [Phase::ordered] and [PREEMPTION_BUDGET] *)
Definition ordered (startup : bool) : list Phase :=
  if startup then [Startup; Evaluate; Complete] else [Evaluate; Complete].
Definition preemption_budget : N := 4.

(** [PhaseRun] *)
Inductive PhaseRun := Completed (changed : bool) | Preempted (changed : bool).

Section phase.
Context `{ComponentTypes} `{HashOrder}.
Implicit Types (w : World) (owner : SystemInvocation) (en : Engine).

Variable row_counts : SystemId → World → nat.
(** [plan_runs]: the rows a system plans on a snapshot, with their accesses. *)
Variable plan_runs : SystemId → World → gmap SystemInvocation MemoEntry → option (list Entity) →
  list (SystemInvocation * list Access).
(** The worker threads, and [dispatch_batch_size]. *)
Variable workers : option N.
Variable dispatch_maximum : N.

(** ** One planning wave *)

Record Wave := MkWave {
  wv_systems : list BoxedSystem;
  wv_access : Reservations;
  wv_deferred : bool;
  wv_readers : list (list RunId);
  wv_writers : list (list RunId);
}.

(** One system of the loop over the systems of the phase. *)
Definition plan_one (phase : Phase) snapshot (memo : gmap SystemInvocation MemoEntry)
    (log : list (TypeId * Entity)) (epoch : N) (v : Wave) (id : SystemId) : result Wave :=
  s ← expect SystemOutOfRange (wv_systems v !! id);
  if negb (bool_decide (sys_phase s = phase)) then Done v
  else
    '(s, planned) ← plan_system s snapshot log epoch;
    match planned with
    | None => Done v
    | Some hint =>
        a ← dispatch_rows workers dispatch_maximum
              (MkAdmission s (wv_access v) (wv_deferred v) (wv_readers v) (wv_writers v))
              (plan_runs id snapshot memo hint);
        Done (MkWave (<[id := adm_system a]> (wv_systems v)) (adm_reservations a) (adm_deferred a)
                (adm_readers a) (adm_writers a))
    end.

Definition plan_wave (phase : Phase) snapshot (memo : gmap SystemInvocation MemoEntry)
    (log : list (TypeId * Entity)) (epoch : N) (v : Wave) : result Wave :=
  fold_result (plan_one phase snapshot memo log epoch) v (seq 0 (length (wv_systems v))).

(** ** The state of a phase *)

(** What happened since the driver last planned: the invocations its commits
    retired, and every section of the lock other callers held in between, with
    the engine before and after.  Kept for the statements: no step reads it. *)
Record Since := MkSince { retired_since : gset SystemInvocation; others_since : list (Engine * Engine) }.

Definition since_planned : Since := MkSince ∅ [].

(** The invocations a commit retired: they had an entry before it, or from the
    run, and have none after it. *)
Definition owners_retired (memo memo' : gmap SystemInvocation MemoEntry) (run : SystemRun) : gset SystemInvocation :=
  (dom memo ∪ list_to_set (run_updates run).*1) ∖ dom memo'.

Definition note_retired (owners : gset SystemInvocation) (since : Since) : Since :=
  MkSince (retired_since since ∪ owners) (others_since since).
Definition note_other en en' (since : Since) : Since :=
  MkSince (retired_since since) ((en, en') :: others_since since).

(** Where the driver is: at the head of its loop, awaiting a run (in the branch
    without a wave, or in the main path), draining writers, or in the window. *)
Inductive PhaseMode := Looping | Awaiting (planned : bool) | Draining | Windowed | Finished (r : PhaseRun).

Record PhaseState := MkPhase {
  ph_engine : Engine;
  ph_eval : Evaluation;
  running_access : Reservations;
  read_runs : list (list RunId);
  write_runs : list (list RunId);
  ph_needs_plan : bool;
  deferred_conflicts : bool;
  phase_changed : bool;
  ph_budget : CommitBudget;
  ph_mode : PhaseMode;
  ph_since : Since;
}.
Implicit Types st : PhaseState.

Definition in_flight st : list RunId := concat (read_runs st) ++ concat (write_runs st).

(** Leaving a queue: the batches run concurrently, in any order. *)
Definition queue_pop (id : RunId) (q : list (list RunId)) : list (list RunId) := (λ b, filter (.≠ id) b) <$> q.

Definition with_mode (m : PhaseMode) st : PhaseState :=
  MkPhase (ph_engine st) (ph_eval st) (running_access st) (read_runs st) (write_runs st) (ph_needs_plan st)
    (deferred_conflicts st) (phase_changed st) (ph_budget st) m (ph_since st).
Definition with_engine en st : PhaseState :=
  MkPhase en (ph_eval st) (running_access st) (read_runs st) (write_runs st) (ph_needs_plan st)
    (deferred_conflicts st) (phase_changed st) (ph_budget st) (ph_mode st) (ph_since st).
Definition with_plan (needs deferred : bool) st : PhaseState :=
  MkPhase (ph_engine st) (ph_eval st) (running_access st) (read_runs st) (write_runs st) needs
    deferred (phase_changed st) (ph_budget st) (ph_mode st) (ph_since st).
Definition with_since (since : Since) st : PhaseState :=
  MkPhase (ph_engine st) (ph_eval st) (running_access st) (read_runs st) (write_runs st) (ph_needs_plan st)
    (deferred_conflicts st) (phase_changed st) (ph_budget st) (ph_mode st) since.

(** [allow_preempt && preempt_waiters > 0] *)
Definition preempting (allow : bool) st : bool :=
  allow && bool_decide (0 < preempt_waiters (boundary (ph_engine st)))%N.

(** The start of [run_phase_streaming]: a phase without systems has a boundary
    and nothing else. *)
Definition phase_begin (reg : Registry) (phase : Phase) (allow : bool) en (ev : Evaluation) (b : CommitBudget)
    : PhaseState :=
  let st := MkPhase en ev (reservations_new (st_registry (stores (world en)))) [] [] true false false b Looping since_planned in
  if bool_decide (N.land (registered_phases reg) (phase_bit phase) = 0%N)
  then if preempting allow st then with_mode Windowed (with_engine (open_window en).1 st)
       else with_mode (Finished (Completed false)) st
  else st.

(** A finished run: commit, release, budget; a stale one forces its row. *)
Definition finish_run (phase : Phase) (force : bool) st (row : RunId * SystemRun)
    : result (PhaseState * CommitProgress) :=
  let '(id, run) := row in
  _ ← check NotAdmitted (contains (running_access st) id);
  '(en, ev, progress) ← commit_run row_counts (ph_engine st) (ph_eval st) run phase;
  '(access, owner) ← remove (running_access st) id;
  owner ← expect NotAdmitted owner;
  budget ← budget_record (ph_budget st) (progress_commits progress);
  en ← (if force && progress_stale progress
        then systems ← force_owner (cs_systems (commit en)) owner; Done (on_commit (set_systems systems) en)
        else Done en);
  Done (MkPhase en ev access (queue_pop id (read_runs st)) (queue_pop id (write_runs st)) (ph_needs_plan st)
          (deferred_conflicts st) (phase_changed st || needs_followup progress) budget (ph_mode st)
          (note_retired (owners_retired (eval_memo (ph_eval st)) (eval_memo ev) run) (ph_since st)), progress).

(** The batch of everything that has finished: whether a commit needs a followup
    and whether one was stale. *)
Definition finish_batch (phase : Phase) st (batch : list (RunId * SystemRun)) : result (PhaseState * bool * bool) :=
  fold_result (λ '(st, followup, stale) row,
    '(st, progress) ← finish_run phase true st row;
    Done (st, followup || needs_followup progress, stale || progress_stale progress)) (st, false, false) batch.

(** The wave of a phase: snapshot and log under one lock, then the planning
    loop. *)
Definition run_wave (phase : Phase) st : result PhaseState :=
  let en := ph_engine st in
  '(en, snapshot) ← snapshot_locked en;
  let '(log, epoch) := plan_log (world en) in
  v ← plan_wave phase snapshot (eval_memo (ph_eval st)) log epoch
        (MkWave (cs_systems (commit en)) (running_access st) false (read_runs st) (write_runs st));
  Done (MkPhase (on_commit (set_systems (wv_systems v)) en) (ph_eval st) (wv_access v) (wv_readers v) (wv_writers v)
          (ph_needs_plan st) (wv_deferred v) (phase_changed st) (ph_budget st) (Awaiting true) since_planned).

Definition phase_peek (phase : Phase) en : bool :=
  existsb (λ s, bool_decide (sys_phase s = phase) && peek_needs_planning s (world en)) (cs_systems (commit en)).

(** The queues of the inputs are undrained. *)
Definition queues_ok en : Prop :=
  queue_ok (pending_inputs (inputs en)) ∧ Forall (λ d, queue_ok d.2) (deferred_inputs (inputs en)).

(** Rows of a system are forced, nothing else happens to it. *)
Inductive forced_from : BoxedSystem → BoxedSystem → Prop :=
  | forced_nothing s : forced_from s s
  | forced_more s s' ks : forced_from s s' → forced_from s (force_replan s' ks).

Definition forced_all : list BoxedSystem → list BoxedSystem → Prop := Forall2 forced_from.

(** One section of the lock held by another caller while the driver works: a
    mutator in a window, [for_each], [take], a drain, a snapshot, a staged input.
    It may move any row; the state stays well formed, the revision does not go
    back, and of the systems nothing changes but that rows are forced. *)
Record outside en en' : Prop := {
  os_systems : forced_all (cs_systems (commit en)) (cs_systems (commit en'));
  os_steady : steady en en';
  os_queues : queues_ok en → queues_ok en';
}.

Inductive phase_step (phase : Phase) (allow : bool) : PhaseState → PhaseState → Prop :=
  (** The head of the loop. *)
  | ps_preempt st access :
      ph_mode st = Looping → preempting allow st = true → cancel_readers (running_access st) = Done access →
      phase_step phase allow st
        (MkPhase (ph_engine st) (ph_eval st) access [] (write_runs st) (ph_needs_plan st) (deferred_conflicts st)
           (phase_changed st) (ph_budget st) Draining (ph_since st))
  | ps_quiet st :
      ph_mode st = Looping → preempting allow st = false → ph_needs_plan st = true →
      phase_peek phase (ph_engine st) = false →
      phase_step phase allow st (with_since since_planned (with_mode (Awaiting false) (with_plan true false st)))
  | ps_wave st st' :
      ph_mode st = Looping → preempting allow st = false → ph_needs_plan st = true →
      phase_peek phase (ph_engine st) = true → run_wave phase st = Done st' → phase_step phase allow st st'
  | ps_skip st :
      ph_mode st = Looping → preempting allow st = false → ph_needs_plan st = false →
      phase_step phase allow st (with_mode (Awaiting true) st)
  (** [await_next_run] *)
  | ps_signal st b :
      ph_mode st = Awaiting b → preempting allow st = true →
      phase_step phase allow st (with_mode Looping (with_plan false (deferred_conflicts st) st))
  | ps_drained st b :
      ph_mode st = Awaiting b → preempting allow st = false → in_flight st = [] →
      phase_step phase allow st (with_mode (Finished (Completed (phase_changed st))) st)
  | ps_batch st b batch st' followup stale :
      ph_mode st = Awaiting b → batch ≠ [] → NoDup batch.*1 → Forall (λ row, row.1 ∈ in_flight st ∧ run_ok row.2) batch →
      finish_batch phase st batch = Done (st', followup, stale) →
      phase_step phase allow st
        (with_mode Looping (with_plan (if b then followup || stale || deferred_conflicts st' else true)
                              (deferred_conflicts st') st'))
  (** Draining the writers, and the window. *)
  | ps_drain st row st' progress :
      ph_mode st = Draining → row.1 ∈ concat (write_runs st) → run_ok row.2 →
      finish_run phase false st row = Done (st', progress) → phase_step phase allow st st'
  | ps_open st :
      ph_mode st = Draining → concat (write_runs st) = [] →
      phase_step phase allow st (with_mode Windowed (with_engine (open_window (ph_engine st)).1 st))
  | ps_close st :
      ph_mode st = Windowed → preempt_waiters (boundary (ph_engine st)) = 0%N →
      phase_step phase allow st
        (with_mode (Finished (Preempted (phase_changed st))) (with_engine (close_window (ph_engine st)) st))
  (** Other callers. *)
  | ps_other st en :
      outside (ph_engine st) en →
      phase_step phase allow st (with_since (note_other (ph_engine st) en (ph_since st)) (with_engine en st)).

(** ** A whole generation *)

(** [run_evaluation]: the phases left to run, how often the generation was
    preempted, and whether a phase changed anything. *)
Record RunState := MkRunState { rs_phases : list Phase; rs_preemptions : N; rs_changed : bool }.

Definition run_begin (startup : bool) : RunState := MkRunState (ordered startup) 0 false.
Definition allow_preempt (r : RunState) : bool := bool_decide (rs_preemptions r < preemption_budget)%N.
Definition after_phase (r : RunState) (out : PhaseRun) : RunState :=
  match out with
  | Completed changed => MkRunState (tail (rs_phases r)) (rs_preemptions r) (rs_changed r || changed)
  | Preempted changed => MkRunState (ordered true) (rs_preemptions r + 1) (rs_changed r || changed)
  end.

(** One phase of the generation, from its begin to its end, and the restart. *)
Inductive generation_step (reg : Registry) : Engine * Evaluation * CommitBudget * RunState →
                                     Engine * Evaluation * CommitBudget * RunState → Prop :=
  | rs_phase en ev b r phase rest st out :
      rs_phases r = phase :: rest →
      rtc (phase_step phase (allow_preempt r)) (phase_begin reg phase (allow_preempt r) en ev b) st →
      ph_mode st = Finished out →
      generation_step reg (en, ev, b, r)
        (match out with Completed _ => ph_engine st | Preempted _ => restart_generation (ph_engine st) end,
         ph_eval st, ph_budget st, after_phase r out).
End phase.
