(* ===== verification/PhaseInv.v ===== *)
(** * What a phase guarantees ([bowl.rs], [run_phase_streaming])

    Every admitted run is in flight in exactly one queue, and is finished or
    dropped before the phase ends; a phase that completes has planned every
    system that others left alone on a world that did not move since, and has
    sent no row back that it did not plan again; a preempted phase leaves nothing
    behind; a generation ends after a bounded number of phases. *)
From stdpp Require Import base numbers sets gmap fin_maps sorting list.
From S2P Require Import Prelude Access.
From S2P Require Import Components Demo Stores Presence World WorldInv Ownership WorldOps Frame.
From S2P Require Import Commands Query Deps Planner Commit Engine EngineInv EngineThms Phase.

(** ** Queues and the table of reservations *)

(** The queue has exactly the runs of its class, each once. *)
Record queue_holds (t : Spec.table) (q : list (list RunId)) (writer : bool) : Prop := {
  qh_nodup : NoDup (concat q);
  qh_elem id : id ∈ concat q ↔ ∃ o accs, t !! id = Some (o, accs) ∧ Spec.writes accs = writer;
}.

Lemma queue_holds_app t t' q q' writer :
  queue_holds t q writer → t ⊆ t' → NoDup (concat q') → (∀ id, id ∈ concat q' ↔ admitted t t' writer id) →
  queue_holds t' (q ++ q') writer.
Proof.
  intros [Hnd Hin] Hle Hnd' Hin'. split; rewrite concat_app.
  - apply NoDup_app. split_and!; [done| |done]. intros id Hid Hid'.
    apply Hin in Hid as (o & accs & Ht & _). apply Hin' in Hid' as (? & ? & _ & Hn & _). congruence.
  - intros id. rewrite elem_of_app, Hin, Hin'. split.
    + intros [(o & accs & Ht & Hw)|(o & accs & Ht & _ & Hw)]; exists o, accs; [|done].
      split; [by eapply lookup_weaken|done].
    + intros (o & accs & Ht & Hw). destruct (t !! id) as [[o' accs']|] eqn:Hid.
      * left. exists o', accs'. split; [done|]. eapply lookup_weaken in Hid; [|done]. congruence.
      * right. by exists o, accs.
Qed.

Lemma concat_queue_pop id q : concat (queue_pop id q) = filter (.≠ id) (concat q).
Proof.
  induction q as [|b q IH]; [done|]. change (queue_pop id (b :: q)) with (filter (.≠ id) b :: queue_pop id q).
  cbn [concat]. by rewrite filter_app, IH.
Qed.

Lemma queue_holds_pop t q writer id : queue_holds t q writer → queue_holds (delete id t) (queue_pop id q) writer.
Proof.
  intros [Hnd Hin]. split; rewrite concat_queue_pop; [by apply NoDup_filter|].
  intros id'. rewrite list_elem_of_filter, Hin. split.
  - intros (Hne & o & accs & Ht & Hw). exists o, accs. by rewrite lookup_delete_ne.
  - intros (o & accs & [Hne Ht]%lookup_delete_Some & Hw). split; [done|]. by exists o, accs.
Qed.

Lemma queue_holds_writers t q :
  queue_holds t q true → queue_holds (filter (λ p, Spec.writes p.2.2 = true) t) q true.
Proof.
  intros [Hnd Hin]. split; [done|]. intros id. rewrite Hin. split; intros (o & accs & Ht & Hw); exists o, accs.
  - split; [|done]. by apply map_lookup_filter_Some.
  - by apply map_lookup_filter_Some in Ht as [? _].
Qed.

Lemma queue_holds_cancelled (t : Spec.table) : queue_holds (filter (λ p, Spec.writes p.2.2 = true) t) [] false.
Proof.
  split; [constructor|]. intros id. simpl. split; [by intros ?%elem_of_nil|].
  intros (o & accs & [_ Hw]%map_lookup_filter_Some & Hf). simpl in Hw. congruence.
Qed.

Lemma queue_holds_empty writer : queue_holds ∅ [] writer.
Proof. split; [constructor|]. intros id. simpl. split; [by intros ?%elem_of_nil|]. intros (? & ? & Ht & _). by rewrite lookup_empty in Ht. Qed.

Lemma table_ok_sub r r' t t' : table_ok r t → represents r' t' → t' ⊆ t → table_ok r' t'.
Proof.
  intros (_ & Hex & Hsf) Hr Hle. split_and!; [done| |].
  - intros id1 id2 o1 o2 l1 l2 a b Hne H1 H2. eapply Hex; [done|by eapply lookup_weaken..].
  - intros id1 id2 o l1 l2 H1 H2. eapply Hsf; by eapply lookup_weaken.
Qed.

Lemma table_ok_new sch : dense sch → table_ok (reservations_new sch) ∅.
Proof.
  intros Hd. split_and!; [by apply represents_new| |].
  - intros id1 id2 o1 o2 l1 l2 a b _ H1. by rewrite lookup_empty in H1.
  - intros id1 id2 o l1 l2 H1. by rewrite lookup_empty in H1.
Qed.

Section phase_inv.
Context `{ComponentTypes} `{HashOrder}.
Implicit Types (w : World) (owner : SystemInvocation) (en : Engine) (s : BoxedSystem).

(** ** Systems that need no planning *)

(** Nothing is left to plan on [w]: no row is forced and no store of its
    interest moved since its last plan (or the revision counter is exhausted). *)
Definition caught_up w s : Prop :=
  is_Some (interest s) → peek_needs_planning s w = false ∨ (u64_max ≤ revision w)%N.

Lemma forced_from_trans s1 s2 s3 : forced_from s1 s2 → forced_from s2 s3 → forced_from s1 s3.
Proof. intros H12 H23. induction H23; [done|]. constructor. by apply IHforced_from. Qed.

Lemma forced_from_fields s s' : forced_from s s' → sys_phase s' = sys_phase s ∧ interest s' = interest s.
Proof.
  intros Hf. induction Hf as [|s s' ks Hf [IH1 IH2]]; [done|]. destruct (force_replan_fields s' ks) as [-> ->]. done.
Qed.

(** Rows of the given invocations of the system were forced, nothing else happened
    to it. *)
Inductive forced_by (rows : gset SystemInvocation) (id : SystemId) : BoxedSystem → BoxedSystem → Prop :=
  | forced_none s : forced_by rows id s s
  | forced_row s s' o :
      forced_by rows id s s' → o ∈ rows → system o = id → forced_by rows id s (force_replan s' (keys o)).

Definition retired_all (rows : gset SystemInvocation) (l l' : list BoxedSystem) : Prop :=
  length l' = length l ∧ ∀ i s', l' !! i = Some s' → ∃ s, l !! i = Some s ∧ forced_by rows i s s'.

Lemma forced_by_from rows id s s' : forced_by rows id s s' → forced_from s s'.
Proof. intros Hf. induction Hf; [constructor|by constructor]. Qed.

Lemma forced_by_none id s s' : forced_by ∅ id s s' → s' = s.
Proof. intros Hf. destruct Hf as [|s s' o _ Ho _]; [done|by apply elem_of_empty in Ho]. Qed.

Lemma forced_by_mono rows rows' id s s' : rows ⊆ rows' → forced_by rows id s s' → forced_by rows' id s s'.
Proof. intros Hsub Hf. induction Hf; [constructor|constructor; [done|by apply Hsub|done]]. Qed.

Lemma forced_by_trans rows id s1 s2 s3 : forced_by rows id s1 s2 → forced_by rows id s2 s3 → forced_by rows id s1 s3.
Proof. intros H12 H23. induction H23; [done|]. constructor; [by apply IHforced_by|done..]. Qed.

Lemma retired_all_refl rows l : retired_all rows l l.
Proof. split; [done|]. intros i s Hs. exists s. split; [done|constructor]. Qed.

Lemma retired_all_mono rows rows' l l' : rows ⊆ rows' → retired_all rows l l' → retired_all rows' l l'.
Proof.
  intros Hsub [Hlen Hf]. split; [done|]. intros i s' (s & Hs & Hr)%Hf. exists s. split; [done|]. by eapply forced_by_mono.
Qed.

Lemma retired_all_trans rows l1 l2 l3 : retired_all rows l1 l2 → retired_all rows l2 l3 → retired_all rows l1 l3.
Proof.
  intros [E12 H12] [E23 H23]. split; [congruence|]. intros i s3 (s2 & Hs2 & F23)%H23.
  destruct (H12 _ _ Hs2) as (s1 & Hs1 & F12). exists s1. split; [done|]. by eapply forced_by_trans.
Qed.

Lemma force_owner_retired rows systems o systems' :
  o ∈ rows → force_owner systems o = Done systems' → retired_all rows systems systems'.
Proof.
  unfold force_owner. intros Ho (s & Hs%expect_Done & [= <-])%bind_Done. split; [by rewrite length_insert|].
  intros i s' Hi. destruct (decide (i = system o)) as [->|Hne].
  - rewrite list_lookup_insert_eq in Hi by (by eapply lookup_lt_Some). injection Hi as <-. exists s. split; [done|].
    constructor; [constructor|done..].
  - rewrite list_lookup_insert_ne in Hi by done. exists s'. split; [done|constructor].
Qed.

Lemma forced_all_refl l : forced_all l l.
Proof. induction l; constructor; [constructor|done]. Qed.
Lemma forced_all_trans l1 l2 l3 : forced_all l1 l2 → forced_all l2 l3 → forced_all l1 l3.
Proof.
  intros H12. revert l3. induction H12; intros l3 H23; inversion H23; subst; constructor; [by eapply forced_from_trans|].
  by apply IHForall2.
Qed.

Lemma force_owner_forced systems owner systems' : force_owner systems owner = Done systems' → forced_all systems systems'.
Proof.
  unfold force_owner. intros (s & Hs%expect_Done & [= <-])%bind_Done.
  rewrite <-(list_insert_id systems (system owner) s Hs) at 1.
  apply Forall2_insert; [apply forced_all_refl|]. constructor. constructor.
Qed.

(** Retiring forces the rows of the owners whose entry it removes. *)
Lemma retire_owners_retired memo systems owners selected memo' systems' retired :
  reconcile_removed_output_owners memo systems owners selected = Done (memo', systems', retired) →
  memo' ⊆ memo ∧ retired_all (dom memo ∖ dom memo') systems systems'.
Proof.
  unfold reconcile_removed_output_owners.
  apply (fold_result_inv (λ p, p.1.1 ⊆ memo ∧ retired_all (dom memo ∖ dom p.1.1) systems p.1.2)).
  2: { split; [done|apply retired_all_refl]. }
  intros [[m l] r] o [[m' l'] r'] _ [Hsub Hl] Hstep. unfold retire_owner in Hstep. simpl in *.
  destruct (match selected with Some ids => _ | None => false end); [by injection Hstep as <- <- <-|].
  destruct (m !! o) as [entry|] eqn:Hm; [|by injection Hstep as <- <- <-].
  apply bind_Done in Hstep as (l1 & Hf & [= <- <- <-]).
  split; [etrans; [apply delete_subseteq|done]|]. rewrite dom_delete_L.
  eapply retired_all_trans; [eapply retired_all_mono; [|exact Hl]; set_solver|].
  eapply force_owner_retired; [|exact Hf]. apply elem_of_difference. split; [|set_solver].
  apply elem_of_dom. exists entry. by eapply lookup_weaken.
Qed.

Lemma frontier_memo_sub n w memo selected seen frontier retired w' memo' retired' :
  retire_frontier n w memo selected seen frontier retired = Done (w', memo', retired') → memo' ⊆ memo.
Proof.
  revert w memo seen frontier retired. induction n as [|n IH]; intros w memo seen frontier retired;
    cbn [retire_frontier]; case_bool_decide; try done.
  1,2: by intros [= _ <- _].
  intros ([w1 removed] & _ & Hrest%IH)%bind_Done. etrans; [exact Hrest|]. apply map_filter_subseteq.
Qed.

Lemma commit_memo_dom w epoch writes updates (memo : gmap SystemInvocation MemoEntry) :
  dom (foldl (commit_memo w epoch writes) memo updates) ⊆ dom memo ∪ list_to_set updates.*1.
Proof.
  revert memo. induction updates as [|[o entry] updates IH]; intros memo; simpl; [set_solver|].
  etrans; [apply IH|]. unfold commit_memo. simpl. rewrite dom_insert_L. set_solver.
Qed.

Variable row_counts : SystemId → World → nat.

Lemma commit_retire_retired st st' :
  state_ok st → commit_retire st = Done st' →
  retired_all (dom (cs_memo st) ∖ dom (cs_memo st')) (cs_systems st) (cs_systems st').
Proof using H H0.
  intros Hok Hrun. destruct (commit_retire_ok _ _ Hok Hrun) as (_ & _ & _ & Hsub & _). revert Hsub Hrun.
  unfold commit_retire, take_removed_entities, take_removed_owners, take_removed_component_owners.
  destruct (_ && _ && _); [intros _ [= <-]; apply retired_all_refl|].
  intros Hsub ([[memo systems] retired] & [Hm Ho]%retire_owners_retired & Hr)%bind_Done. simpl in Ho.
  destruct retired; [by injection Hr as <-|].
  apply bind_Done in Hr as ([[[w' memo'] systems'] retired'] & Hrun & [= <-]).
  unfold reconcile_removed_invocations in Hrun.
  apply bind_Done in Hrun as ([[memo1 systems1] r1] & [Hm1 Ho1]%retire_owners_retired & Hrun).
  apply bind_Done in Hrun as ([[w2 memo2] r2] & Hm2%frontier_memo_sub & [= <- <- <- <-]). simpl in *.
  assert (retired_all (dom (cs_memo st) ∖ dom memo2) (cs_systems st) systems1) as Hall.
  { pose proof (subseteq_dom _ _ Hm). pose proof (subseteq_dom _ _ Hm1). pose proof (subseteq_dom _ _ Hm2).
    eapply retired_all_trans; (eapply retired_all_mono; [|done]); set_solver. }
  by destruct r2.
Qed.

(** A commit forces the rows of the invocations it retires, and does nothing else
    to the systems. *)
Lemma commit_retired st run phase st' p :
  state_ok st → run_ok run → commit_system_run row_counts st run phase = Done (st', p) →
  retired_all (owners_retired (cs_memo st) (cs_memo st') run) (cs_systems st) (cs_systems st').
Proof using H H0.
  intros Hok Hq. unfold commit_system_run. destruct (negb _).
  - intros (w & _ & [= <- _])%bind_Done. apply retired_all_refl.
  - intros (st1 & H1 & Hrun)%bind_Done. apply bind_Done in Hrun as (w & Hw & Hrun).
    apply bind_Done in Hrun as (st2 & H2 & [= <- _]).
    destruct (commit_outputs_ok _ _ _ _ _ Hok Hq H1) as ([W1 P1 Q1] & _ & Hm & Hs & _).
    destruct (reconcile_written_good _ _ _ _ W1 Hw) as [W2 _].
    apply commit_retire_retired in H2; [|by split]. cbn [cs_systems cs_memo set_memo set_world] in *. rewrite Hs in H2.
    eapply retired_all_mono; [|exact H2]. unfold owners_retired. apply difference_mono_r. rewrite <-Hm.
    apply commit_memo_dom.
Qed.

Lemma retired_forced rows l l' : retired_all rows l l' → forced_all l l'.
Proof.
  intros [Hlen Hf]. apply Forall2_same_length_lookup. split; [done|]. intros i s s' Hs Hs'.
  destruct (Hf _ _ Hs') as (s1 & Hs1 & Hfs). assert (s1 = s) as -> by congruence. by eapply forced_by_from.
Qed.

Lemma retire_owners_forced memo systems owners selected memo' systems' retired :
  reconcile_removed_output_owners memo systems owners selected = Done (memo', systems', retired) →
  forced_all systems systems'.
Proof. intros [_ Hr]%retire_owners_retired. by eapply retired_forced. Qed.

Lemma commit_forced st run phase st' p :
  state_ok st → run_ok run → commit_system_run row_counts st run phase = Done (st', p) →
  forced_all (cs_systems st) (cs_systems st').
Proof using H H0. intros Hok Hq Hr%commit_retired; [|done..]. by eapply retired_forced. Qed.

(** A plan leaves nothing behind. *)
Lemma interest_mark_agrees snap w tys : agrees snap w → interest_mark snap tys = interest_mark w tys.
Proof.
  intros A. unfold interest_mark. f_equal. apply list_fmap_ext. intros i ty _. apply (ag_watermark _ _ A).
Qed.

Lemma peek_agrees snap w s : agrees snap w → peek_needs_planning s snap = peek_needs_planning s w.
Proof.
  intros A. unfold peek_needs_planning. case_bool_decide; simpl; [|done]. destruct (interest s) as [tys|]; [|done].
  by rewrite (interest_mark_agrees snap w tys A).
Qed.

Lemma plan_system_fields s w log epoch s' out :
  plan_system s w log epoch = Done (s', out) → sys_phase s' = sys_phase s ∧ interest s' = interest s ∧ (out = None → s' = s).
Proof.
  unfold plan_system, needs_planning. destruct (negb (peek_needs_planning s w)); simpl; [by intros [= <- <-]|].
  destruct (interest s) as [tys|] eqn:Hi; simpl.
  - destruct (_ && _); simpl; rewrite ?Hi; simpl; intros [= <- <-]; destruct (delta_eligible s); done.
  - intros (hint & _ & [= <- <-])%bind_Done. by destruct (delta_eligible s).
Qed.

Lemma plan_system_caught X snap w s log epoch s' out :
  wf X w → agrees snap w → plan_system s snap log epoch = Done (s', out) → caught_up w s'.
Proof using H H0.
  intros W A Hp [tys' Htys]. rewrite <-(peek_agrees snap w s' A).
  unfold plan_system, needs_planning in Hp. destruct (peek_needs_planning s snap) eqn:Hpk; simpl in Hp.
  2: { injection Hp as <- _. by left. }
  destruct (interest s) as [tys|] eqn:Hi; simpl in Hp.
  - assert (forced_dirty s' = [] ∧ interest s' = Some tys ∧ planned_mark s' = interest_mark snap tys) as (Hf & Hi' & Hm).
    { destruct (delta_eligible s && _); simpl in Hp; rewrite ?Hi in Hp; simpl in Hp; injection Hp as <- _;
        by destruct (delta_eligible s). }
    unfold peek_needs_planning. rewrite Hf, Hi', Hm. rewrite bool_decide_eq_true_2 by done. simpl.
    rewrite (interest_mark_agrees snap w tys A).
    pose proof (interest_mark_bound X w tys W) as Hb.
    clear Hp. case_bool_decide as Hmax; [right; rewrite Hmax in Hb; exact Hb|]. left. apply bool_decide_eq_false. lia.
  - apply bind_Done in Hp as (hint & _ & [= <- _]). destruct (delta_eligible s); simpl in Htys; congruence.
Qed.

(** ** The phase *)

(** The systems of the runs in flight exist. *)
Definition in_range (t : Spec.table) (n : nat) : Prop := ∀ id owner accs, t !! id = Some (owner, accs) → system owner < n.

Record accounts (st : PhaseState) (t : Spec.table) : Prop := {
  ac_table : table_ok (running_access st) t;
  ac_readers : queue_holds t (read_runs st) false;
  ac_writers : queue_holds t (write_runs st) true;
  ac_range : in_range t (length (cs_systems (commit (ph_engine st))));
  ac_state : state_ok (commit (ph_engine st));
  ac_snapshots : snapshots_ok (ph_engine st);
}.

Lemma in_flight_lookup st t id : accounts st t → id ∈ in_flight st ↔ is_Some (t !! id).
Proof.
  intros A. unfold in_flight. rewrite elem_of_app, (qh_elem _ _ _ (ac_readers _ _ A)), (qh_elem _ _ _ (ac_writers _ _ A)).
  split.
  - by intros [(o & accs & -> & _)|(o & accs & -> & _)].
  - intros [[o accs] Ht]. destruct (Spec.writes accs) eqn:Hw; [right|left]; by exists o, accs.
Qed.

(** Each run is in flight once. *)
Lemma in_flight_nodup st t : accounts st t → NoDup (in_flight st).
Proof.
  intros A. apply NoDup_app. split_and!; [apply A| |apply A].
  intros id (o & accs & Ht & Hw)%(qh_elem _ _ _ (ac_readers _ _ A)) (o' & accs' & Ht' & Hw')%(qh_elem _ _ _ (ac_writers _ _ A)).
  congruence.
Qed.

Lemma watermarks_unmoved X w w' ty :
  wf X w' → evolves w w' → revision w' = revision w → store_watermark w' ty = store_watermark w ty.
Proof using H H0.
  intros W E Hr. destruct (decide (store_watermark w ty = store_watermark w' ty)) as [|Hne]; [done|].
  apply (ev_raised _ _ E) in Hne. unfold store_watermark in Hne at 1. destruct (store_of w' ty) as [s|] eqn:Hs; simpl in Hne; [|lia].
  destruct (wf_store _ _ W _ _ Hs). lia.
Qed.

Lemma caught_up_unmoved w w' s :
  (∀ ty, store_watermark w' ty = store_watermark w ty) → revision w' = revision w → caught_up w s → caught_up w' s.
Proof.
  intros Hwm Hr Hc Hi. destruct (Hc Hi) as [Hp|?]; [left|right; by rewrite Hr]. rewrite <-Hp. unfold peek_needs_planning.
  case_bool_decide; simpl; [|done]. destruct (interest s) as [tys|]; [|done].
  assert (interest_mark w' tys = interest_mark w tys) as ->; [|done].
  unfold interest_mark. f_equal. apply list_fmap_ext. auto.
Qed.

(** No other caller forced a row of the system or moved a store of its interest. *)
Definition untouched (since : Since) (i : SystemId) s : Prop :=
  Forall (λ '(before, after), cs_systems (commit after) !! i = cs_systems (commit before) !! i ∧
    ∀ tys ty, interest s = Some tys → ty ∈ tys → store_watermark (world after) ty = store_watermark (world before) ty)
    (others_since since).

(** Every system of the phase that other callers left alone has planned all there
    is, except for rows that commits forced by retiring their invocation. *)
Definition all_caught (phase : Phase) en (since : Since) : Prop :=
  ∀ i s, cs_systems (commit en) !! i = Some s → sys_phase s = phase → untouched since i s →
    ∃ s0, caught_up (world en) s0 ∧ forced_by (retired_since since) i s0 s.

Lemma untouched_interest since i s s' : interest s' = interest s → untouched since i s → untouched since i s'.
Proof. intros Hi. unfold untouched. by rewrite Hi. Qed.

Lemma all_caught_commit phase en en' since rows :
  state_ok (commit en') → evolves (world en) (world en') → revision (world en') = revision (world en) →
  retired_all rows (cs_systems (commit en)) (cs_systems (commit en')) →
  all_caught phase en since → all_caught phase en' (note_retired rows since).
Proof using H H0.
  intros Hok E Hr [_ Hf] Hc i s' Hs' Hph Hu. destruct (Hf _ _ Hs') as (s & Hs & Hfs).
  destruct (forced_from_fields _ _ (forced_by_from _ _ _ _ Hfs)) as [Hph' Hi'].
  destruct (Hc i s Hs) as (s0 & Hc0 & Hf0); [congruence|by eapply untouched_interest|].
  exists s0. split.
  - eapply caught_up_unmoved; [|exact Hr|exact Hc0]. intros ty. by eapply watermarks_unmoved; [apply Hok|..].
  - simpl. eapply forced_by_trans; (eapply forced_by_mono; [|done]); [apply union_subseteq_l|apply union_subseteq_r].
Qed.

(** Another caller's section: what it leaves alone stays caught up. *)
Lemma all_caught_outside phase en en' since :
  state_ok (commit en) → snapshots_ok en → outside en en' →
  all_caught phase en since → all_caught phase en' (note_other en en' since).
Proof using H H0.
  intros Hok Hsn [Hf Hst _] Hc i s Hs Hph [[Hsame Hwm] Hu]%Forall_cons.
  destruct (Hst Hok Hsn) as (_ & _ & P). rewrite Hs in Hsame. symmetry in Hsame.
  destruct (Hc i s Hsame Hph Hu) as (s0 & Hc0 & Hf0). exists s0. split; [|done].
  destruct (forced_from_fields _ _ (forced_by_from _ _ _ _ Hf0)) as [_ Hi].
  intros Hsome. destruct (Hc0 Hsome) as [Hp|Hmax]; [left|right].
  2: { pose proof (pg_revision _ _ P). lia. }
  rewrite <-Hp. unfold peek_needs_planning. case_bool_decide; simpl; [|done]. destruct (interest s0) as [tys|]; [|done].
  assert (interest_mark (world en') tys = interest_mark (world en) tys) as ->; [|done].
  unfold interest_mark. f_equal. apply list_fmap_ext. intros j ty Hj. apply (Hwm tys); [done|]. by eapply list_elem_of_lookup_2.
Qed.

Lemma commit_run_spec en ev run phase en' ev' p :
  state_ok (commit en) → run_ok run → commit_run row_counts en ev run phase = Done (en', ev', p) →
  state_ok (commit en') ∧ evolves (world en) (world en') ∧
  retired_all (owners_retired (eval_memo ev) (eval_memo ev') run) (cs_systems (commit en)) (cs_systems (commit en')) ∧
  (needs_followup p = false → revision (world en') = revision (world en)).
Proof using H H0.
  intros Hok Hq. unfold commit_run. intros ([st p'] & Hrun & [= <- <- <-])%bind_Done.
  assert (state_ok (set_memo (eval_memo ev) (commit en))) as Hok' by by apply (state_ok_frame (commit en)).
  destruct (commit_state_aux _ _ _ _ _ _ Hok' Hq Hrun) as (Hst & E & Hr & _).
  pose proof (commit_retired _ _ _ _ _ Hok' Hq Hrun) as Hf.
  split_and!; [by apply (state_ok_frame st)|exact E|exact Hf|exact Hr].
Qed.

Lemma forced_all_length l l' : forced_all l l' → length l' = length l.
Proof. intros Hf. symmetry. by eapply Forall2_length. Qed.

Lemma finish_run_ok phase force st t row st' p :
  accounts st t → run_ok row.2 → finish_run row_counts phase force st row = Done (st', p) →
  accounts st' (delete row.1 t) ∧
  ph_mode st' = ph_mode st ∧ ph_needs_plan st' = ph_needs_plan st ∧ deferred_conflicts st' = deferred_conflicts st ∧
  (concat (read_runs st) = [] → concat (read_runs st') = []) ∧
  (needs_followup p = false → progress_stale p = false → all_caught phase (ph_engine st) (ph_since st) → all_caught phase (ph_engine st') (ph_since st')).
Proof using H H0.
  intros A Hq. destruct row as [id run]. simpl in Hq. unfold finish_run. intros ([] & _ & Hrun)%bind_Done.
  apply bind_Done in Hrun as ([[en ev] p'] & Hc & Hrun).
  destruct (commit_run_calm _ _ _ _ _ _ _ _ Hq Hc) as [[_ Hst] _].
  destruct (commit_run_spec _ _ _ _ _ _ _ (ac_state _ _ A) Hq Hc) as (Hok & E & Hf & Hr).
  destruct (Hst (ac_state _ _ A) (ac_snapshots _ _ A)) as (_ & Hsn & _).
  apply bind_Done in Hrun as ([access owner] & Hrem & Hrun). apply bind_Done in Hrun as (o & Ho%expect_Done & Hrun).
  apply bind_Done in Hrun as (budget & _ & Hrun). apply bind_Done in Hrun as (en2 & Hen2 & [= <- <-]). simpl.
  destruct (remove_aux _ _ id (proj1 (ac_table _ _ A))) as (r' & Hrem' & Hrep). rewrite Hrem in Hrem'.
  injection Hrem' as -> ->.
  assert (state_ok (commit en2) ∧ snapshots_ok en2 ∧ length (cs_systems (commit en2)) = length (cs_systems (commit en)) ∧
    (progress_stale p' = false → en2 = en)) as (Hok2 & Hsn2 & Hlen2 & Hsame).
  { destruct (force && progress_stale p') eqn:Hfs; [|by injection Hen2 as <-].
    apply bind_Done in Hen2 as (systems & Hfo & [= <-]). split_and!; simpl.
    - by apply (state_ok_frame (commit en)).
    - by apply (snapshots_frame en).
    - by apply force_owner_forced, forced_all_length in Hfo.
    - intros Hs. by rewrite Hs, andb_false_r in Hfs. }
  split_and!; try done.
  - split; simpl; try done.
    + eapply table_ok_sub; [apply A|done|apply delete_subseteq].
    + apply queue_holds_pop, A.
    + apply queue_holds_pop, A.
    + intros i o' accs [_ Hlk]%lookup_delete_Some. rewrite Hlen2, (proj1 Hf). by eapply (ac_range _ _ A).
  - intros Hnil. by rewrite concat_queue_pop, Hnil.
  - intros Hn Hs Hall. rewrite (Hsame Hs). eapply all_caught_commit; eauto.
Qed.

(** Finishing a run in flight never trips an assertion: it fails only when the
    commit or the budget does. *)
Lemma finish_run_total phase force st t id run en ev p b :
  accounts st t → id ∈ in_flight st → run_ok run →
  commit_run row_counts (ph_engine st) (ph_eval st) run phase = Done (en, ev, p) →
  budget_record (ph_budget st) (progress_commits p) = Done b →
  ∃ st', finish_run row_counts phase force st (id, run) = Done (st', p).
Proof using H H0.
  intros A Hin Hq Hc Hb. unfold finish_run.
  apply (in_flight_lookup _ _ _ A) in Hin as [[o accs] Ht].
  destruct (represents_lookup _ _ _ _ _ (proj1 (ac_table _ _ A)) Ht) as (rec & Hrec & _).
  unfold contains. rewrite bool_decide_eq_true_2 by (rewrite Hrec; by eexists). simpl. rewrite Hc. simpl.
  destruct (remove_aux _ _ id (proj1 (ac_table _ _ A))) as (r' & -> & _). rewrite Ht. simpl. rewrite Hb. simpl.
  destruct (force && progress_stale p); simpl; [|by eexists].
  destruct (commit_run_spec _ _ _ _ _ _ _ (ac_state _ _ A) Hq Hc) as (_ & _ & Hf & _).
  assert (system o < length (cs_systems (commit en))) as Hlt.
  { rewrite (proj1 Hf). by eapply (ac_range _ _ A). }
  apply lookup_lt_is_Some in Hlt as [s Hs]. unfold force_owner. rewrite Hs. simpl. by eexists.
Qed.

(** ** A planning wave *)

Variable plan_runs : SystemId → World → gmap SystemInvocation MemoEntry → option (list Entity) →
  list (SystemInvocation * list Access).
Variable workers : option N.
Variable dispatch_maximum : N.

(** A system plans rows of its own, and batches are not empty. *)
Hypothesis own_rows : ∀ id w memo hint owner accs, (owner, accs) ∈ plan_runs id w memo hint → system owner = id.
Hypothesis maximum_positive : (1 ≤ dispatch_maximum)%N.

Record wave_ok w (phase : Phase) (n k : nat) (v : Wave) (t : Spec.table) : Prop := {
  wo_table : table_ok (wv_access v) t;
  wo_readers : queue_holds t (wv_readers v) false;
  wo_writers : queue_holds t (wv_writers v) true;
  wo_length : length (wv_systems v) = n;
  wo_range : in_range t n;
  wo_why : wv_deferred v = true → t ≠ ∅;
  wo_caught i s : wv_systems v !! i = Some s → i < k → sys_phase s = phase → wv_deferred v = true ∨ caught_up w s;
}.

Lemma plan_one_ok X w snap phase memo log epoch n v t id v' :
  wf X w → agrees snap w → wave_ok w phase n id v t →
  plan_one plan_runs workers dispatch_maximum phase snap memo log epoch v id = Done v' →
  ∃ t', wave_ok w phase n (S id) v' t'.
Proof using All.
  intros W A [Ht Hr Hw Hlen Hrange Hwhy Hc]. unfold plan_one. intros (s & Hs%expect_Done & Hrest)%bind_Done.
  assert (wave_ok w phase n (S id) v t ∨ sys_phase s = phase) as Hcase.
  { destruct (decide (sys_phase s = phase)) as [|Hne]; [by right|left]. split; try done.
    intros i x Hx Hi Hph. destruct (decide (i = id)) as [->|]; [congruence|]. apply (Hc i x); [done|lia|done]. }
  revert Hrest. case_bool_decide as Hph; simpl.
  2: { intros [= <-]. destruct Hcase; [by exists t|done]. }
  intros ([s1 planned] & Hp & Hrest)%bind_Done. clear Hcase.
  pose proof (plan_system_caught _ _ _ _ _ _ _ _ W A Hp) as Hs1.
  destruct (plan_system_fields _ _ _ _ _ _ Hp) as (Hph1 & Hi1 & Hsame).
  destruct planned as [hint|].
  2: { injection Hrest as <-. rewrite (Hsame eq_refl) in Hs1. exists t. split; try done.
       intros i x Hx Hi Hphx. destruct (decide (i = id)) as [->|]; [|by apply (Hc i x); [done|lia|done]].
       right. assert (x = s) as -> by congruence. done. }
  apply bind_Done in Hrest as (a & Ha & [= <-]).
  apply dispatch_rows_spec with (t := t) in Ha as (t' & readers & writers & D); [|done|done].
  destruct D as [Hok Hle Hnew _ (Hrd & Hnr & Hir) (Hwr & Hnw & Hiw) _ Hdef Hwhy' Hsys _]. simpl in *.
  exists t'. split; simpl.
  - done.
  - rewrite Hrd. by eapply queue_holds_app.
  - rewrite Hwr. by eapply queue_holds_app.
  - by rewrite length_insert.
  - intros i o accs Hlk. destruct (Hnew _ _ _ Hlk) as [?|Hin]; [by eapply Hrange|].
    apply list_elem_of_fmap in Hin as ([o' accs'] & -> & Hin). simpl. rewrite (own_rows _ _ _ _ _ _ Hin), <-Hlen.
    by eapply lookup_lt_Some.
  - intros [Hd|?]%Hwhy'; [|done]. apply (subseteq_nonempty t); [done|by apply Hwhy].
  - intros i x Hx Hi Hphx. destruct (decide (i = id)) as [->|Hne].
    + rewrite list_lookup_insert_eq in Hx by (by eapply lookup_lt_Some). injection Hx as <-.
      destruct Hsys as [->|?]; [by right|by left].
    + rewrite list_lookup_insert_ne in Hx by done. destruct (Hc i x Hx) as [?|?]; [lia|done|left; auto|by right].
Qed.

Lemma plan_wave_ok X w snap phase memo log epoch v t v' :
  wf X w → agrees snap w → wave_ok w phase (length (wv_systems v)) 0 v t →
  plan_wave plan_runs workers dispatch_maximum phase snap memo log epoch v = Done v' →
  ∃ t', wave_ok w phase (length (wv_systems v)) (length (wv_systems v)) v' t'.
Proof using All.
  intros W A. unfold plan_wave. generalize (length (wv_systems v)) as n. intros n Hok.
  assert (∀ k v t, wave_ok w phase n k v t → k ≤ n →
    fold_result (plan_one plan_runs workers dispatch_maximum phase snap memo log epoch) v (seq k (n - k)) = Done v' →
    ∃ t', wave_ok w phase n n v' t') as Hgen.
  { clear Hok. intros k. remember (n - k) as m eqn:Hm. revert k Hm. induction m as [|m IH]; intros k Hm v1 t1 Hok Hk; simpl.
    - intros [= <-]. assert (k = n) as -> by lia. by exists t1.
    - intros (v2 & H2 & Hrest)%bind_Done. destruct (plan_one_ok _ _ _ _ _ _ _ _ _ _ _ _ W A Hok H2) as (t2 & Hok2).
      by apply (IH (S k) ltac:(lia) v2 t2 Hok2 ltac:(lia)). }
  intros Hrun. apply (Hgen 0 v t Hok); [lia|]. by rewrite Nat.sub_0_r.
Qed.


(** ** The steps of a phase *)

Abbreviation phase_step' phase allow := (phase_step row_counts plan_runs workers dispatch_maximum phase allow).

Lemma finish_batch_ok phase st t batch st' followup stale :
  accounts st t → NoDup batch.*1 → Forall (λ row, row.1 ∈ in_flight st ∧ run_ok row.2) batch →
  finish_batch row_counts phase st batch = Done (st', followup, stale) →
  ∃ t', accounts st' t' ∧ ph_mode st' = ph_mode st ∧ ph_needs_plan st' = ph_needs_plan st ∧
    deferred_conflicts st' = deferred_conflicts st ∧
    (followup = false → stale = false → all_caught phase (ph_engine st) (ph_since st) → all_caught phase (ph_engine st') (ph_since st')).
Proof using H H0.
  intros A _ Hin. unfold finish_batch. rewrite List.Forall_forall in Hin.
  apply (fold_result_inv (λ p, ∃ t', accounts p.1.1 t' ∧ ph_mode p.1.1 = ph_mode st ∧
    ph_needs_plan p.1.1 = ph_needs_plan st ∧ deferred_conflicts p.1.1 = deferred_conflicts st ∧
    (p.1.2 = false → p.2 = false → all_caught phase (ph_engine st) (ph_since st) → all_caught phase (ph_engine p.1.1) (ph_since p.1.1)))).
  - intros [[st1 f1] s1] row [[st2 f2] s2] Hrow (t1 & A1 & Hm1 & Hn1 & Hd1 & Hc1) Hstep. simpl in *.
    apply list_elem_of_In in Hrow. destruct (Hin _ Hrow) as [_ Hq].
    apply bind_Done in Hstep as ([st3 p] & Hf & [= <- <- <-]).
    destruct (finish_run_ok _ _ _ _ _ _ _ A1 Hq Hf) as (A2 & Hm2 & Hn2 & Hd2 & _ & Hc2).
    eexists. split_and!; [exact A2|congruence..|]. intros [Hf1 Hf2]%orb_false_iff [Hs1 Hs2]%orb_false_iff Hall.
    by apply Hc2, Hc1.
  - by exists t.
Qed.

(** What the driver knows about planning, by where it is. *)
Definition planned_so_far (phase : Phase) (st : PhaseState) : Prop :=
  match ph_mode st with
  | Looping => ph_needs_plan st = false → deferred_conflicts st = true ∨ all_caught phase (ph_engine st) (ph_since st)
  | Awaiting true => deferred_conflicts st = true ∨ all_caught phase (ph_engine st) (ph_since st)
  | Awaiting false | Finished (Completed _) => all_caught phase (ph_engine st) (ph_since st)
  | _ => True
  end.

(** A conflict waits for a run that is in flight, or for the next wave. *)
Definition deferral_justified (st : PhaseState) (t : Spec.table) : Prop :=
  deferred_conflicts st = true →
  match ph_mode st with
  | Looping => ph_needs_plan st = true ∨ t ≠ ∅
  | Awaiting _ => t ≠ ∅
  | _ => True
  end.

Definition queues_by_mode (st : PhaseState) : Prop :=
  match ph_mode st with
  | Draining => concat (read_runs st) = []
  | Windowed | Finished _ => in_flight st = []
  | _ => True
  end.

Record phase_ok (phase : Phase) (st : PhaseState) (t : Spec.table) : Prop := {
  po_accounts : accounts st t;
  po_deferral : deferral_justified st t;
  po_planned : planned_so_far phase st;
  po_queues : queues_by_mode st;
}.

Lemma accounts_frame st st' t :
  running_access st' = running_access st → read_runs st' = read_runs st → write_runs st' = write_runs st →
  ph_engine st' = ph_engine st → accounts st t → accounts st' t.
Proof using H H0. intros H1 H2 H3 H4 []. split; by rewrite ?H1, ?H2, ?H3, ?H4. Qed.

Lemma accounts_engine st en t :
  steady (ph_engine st) en → forced_all (cs_systems (commit (ph_engine st))) (cs_systems (commit en)) →
  accounts st t → accounts (with_engine en st) t.
Proof using H H0.
  intros Hst Hsys [? ? ? ? Hok Hsn]. destruct (Hst Hok Hsn) as (? & ? & _). split; simpl; try done.
  by rewrite (forced_all_length _ _ Hsys).
Qed.

Lemma in_flight_nil st t : accounts st t → in_flight st = [] → t = ∅.
Proof using H H0.
  intros A Hnil. apply map_eq. intros id. rewrite lookup_empty. destruct (t !! id) eqn:Ht; [|done].
  assert (id ∈ in_flight st) as Hin by (apply (in_flight_lookup _ _ _ A); by eexists).
  rewrite Hnil in Hin. by apply elem_of_nil in Hin.
Qed.

Lemma phase_peek_false phase en since : phase_peek phase en = false → all_caught phase en since.
Proof using H H0.
  unfold phase_peek. intros Hp i s Hs Hph _. exists s. split; [|constructor]. intros _. left.
  apply not_true_iff_false. intros Hpk. apply not_true_iff_false in Hp. apply Hp. apply existsb_exists. exists s.
  split; [apply list_elem_of_In; by eapply list_elem_of_lookup_2|]. by rewrite bool_decide_eq_true_2.
Qed.

Lemma run_wave_ok phase st t st' :
  accounts st t → run_wave plan_runs workers dispatch_maximum phase st = Done st' →
  ∃ t', phase_ok phase st' t'.
Proof using All.
  intros A. unfold run_wave. intros ([en1 snap] & Hsnap & Hrun)%bind_Done.
  pose proof (snapshot_locked_spec _ _ _ Hsnap) as ([_ Hst] & Ew & _ & _ & Hkey).
  destruct (Hst (ac_state _ _ A) (ac_snapshots _ _ A)) as (Hok1 & Hsn1 & _).
  assert (cs_systems (commit en1) = cs_systems (commit (ph_engine st))) as Hsys.
  { revert Hsnap. unfold snapshot_locked. destruct (snapshot_cache _) as [[key cached]|]; [case_bool_decide|].
    - by intros [= <- _].
    - by intros (w & _ & [= <- _])%bind_Done.
    - by intros (w & _ & [= <- _])%bind_Done. }
  assert (agrees snap (world en1)) as Hag.
  { rewrite Ew. eapply taken_agrees; [apply (so_world _ (ac_state _ _ A))|]. by apply Hkey, A. }
  unfold plan_log in Hrun. apply bind_Done in Hrun as (v & Hv & [= <-]).
  apply (plan_wave_ok _ _ _ _ _ _ _ _ t) with (1 := so_world _ Hok1) (2 := Hag) in Hv as (t' & [Ht Hr Hw Hlen Hrange Hwhy Hc]).
  - exists t'. split; simpl.
    + split; simpl; try done; [by rewrite Hlen|by apply (state_ok_frame (commit en1))].
    + exact Hwhy.
    + unfold planned_so_far. simpl. destruct (wv_deferred v) eqn:Hd; [by left|right].
      intros i s Hs Hph _. exists s. split; [|constructor]. destruct (Hc i s Hs) as [?|?]; try done.
      rewrite <-Hlen. by eapply lookup_lt_Some.
    + done.
  - split; simpl; try done; try apply A; [|lia]. rewrite Hsys. apply A.
Qed.

Lemma phase_step_ok phase allow st t st' :
  phase_ok phase st t → phase_step' phase allow st st' → ∃ t', phase_ok phase st' t'.
Proof using All.
  intros [A Hwhy Hplan Hqueue] Hstep.
  destruct Hstep as [st access Hm Hpre Hc|st Hm Hpre Hn Hpk|st st' Hm Hpre Hn Hpk Hrun|st Hm Hpre Hn|st b Hm Hpre|
    st b Hm Hpre Hnil|st b batch st' followup stale Hm Hne Hnd Hin Hrun|st row st' p Hm Hin Hq Hrun|st Hm Hnil|
    st Hm Hz|st en Hout]; unfold deferral_justified, planned_so_far, queues_by_mode in *.
  - destruct (cancel_readers_aux _ _ (proj1 (ac_table _ _ A))) as (r' & Hc' & Hrep).
    rewrite Hc in Hc'. injection Hc' as ->. exists (filter (λ p, Spec.writes p.2.2 = true) t). split; try done.
    split; simpl; try apply A.
    + eapply table_ok_sub; [apply A|exact Hrep|apply map_filter_subseteq].
    + apply queue_holds_cancelled.
    + apply queue_holds_writers, A.
    + intros id o accs [Ht _]%map_lookup_filter_Some. by eapply (ac_range _ _ A).
  - exists t. split; try done; [by apply (accounts_frame st)|]. unfold planned_so_far. simpl. by apply phase_peek_false.
  - by eapply run_wave_ok.
  - exists t. rewrite Hm in *. split; try done; [by apply (accounts_frame st)|..]; unfold deferral_justified, planned_so_far; simpl.
    + intros [?|?]%Hwhy; [congruence|done].
    + by apply Hplan.
  - exists t. rewrite Hm in *. split; try done; [by apply (accounts_frame st)|..]; unfold deferral_justified, planned_so_far; simpl.
    + intros ?%Hwhy. by right.
    + intros _. destruct b; [done|by right].
  - exists t. rewrite Hm in *. split; [by apply (accounts_frame st)|..]; unfold deferral_justified, planned_so_far; simpl; try done.
    destruct b; [|done]. destruct Hplan as [Hd|?]; [|done]. exfalso. by apply (Hwhy Hd), (in_flight_nil _ _ A).
  - destruct (finish_batch_ok _ _ _ _ _ _ _ A Hnd Hin Hrun) as (t' & A' & Hm' & Hn' & Hd' & Hc').
    exists t'. rewrite Hm in *. split; try done; [by apply (accounts_frame st')|..]; unfold deferral_justified, planned_so_far; simpl.
    + intros Hd. left. destruct b; [|done]. by rewrite Hd, orb_true_r.
    + destruct b; [|done]. intros [[Hf Hs]%orb_false_iff Hd]%orb_false_iff. right. apply Hc'; [done|done|].
      destruct Hplan as [Hd0|?]; [congruence|done].
  - destruct (finish_run_ok _ _ _ _ _ _ _ A Hq Hrun) as (A' & Hm' & Hn' & Hd' & Hr' & _).
    eexists. rewrite Hm in *. split; [exact A'|..]; unfold deferral_justified, planned_so_far, queues_by_mode; rewrite Hm'; try done.
    by apply Hr'.
  - exists t. rewrite Hm in *. split; try done.
    + apply (accounts_frame (with_engine (open_window (ph_engine st)).1 st)); try done.
      apply accounts_engine; [by apply steady_same|apply forced_all_refl|done].
    + unfold queues_by_mode, in_flight. simpl. by rewrite Hqueue, Hnil.
  - exists t. rewrite Hm in *. split; try done.
    apply (accounts_frame (with_engine (close_window (ph_engine st)) st)); try done.
    apply accounts_engine; [by apply steady_same|apply forced_all_refl|done].
  - exists t. pose proof (all_caught_outside phase _ _ (ph_since st) (ac_state _ _ A) (ac_snapshots _ _ A) Hout) as Hc.
    split; [|done| |done].
    + apply (accounts_frame (with_engine en st)); [done..|]. by apply accounts_engine; [apply Hout..|].
    + unfold planned_so_far in *. simpl. destruct (ph_mode st) as [|[]| | |[]]; try done; try (by apply Hc).
      * intros Hn. destruct (Hplan Hn); [by left|right; by apply Hc].
      * destruct Hplan; [by left|right; by apply Hc].
Qed.

Lemma phase_steps_ok phase allow st t st' :
  phase_ok phase st t → rtc (phase_step' phase allow) st st' → ∃ t', phase_ok phase st' t'.
Proof using All.
  intros Hok Hs. revert t Hok. induction Hs as [st|st1 st2 st3 H12 _ IH]; intros t Hok; [by exists t|].
  destruct (phase_step_ok _ _ _ _ _ Hok H12) as [t2 Hok2]. by eapply IH.
Qed.

(** ** What a phase promises *)

(** The start of a phase: a well-formed engine, the dense component indices of
    [BowlBuilder::build], and flags that know every phase with a system. *)
Record ready (reg : Registry) (phase : Phase) en : Prop := {
  rd_state : state_ok (commit en);
  rd_snapshots : snapshots_ok en;
  rd_dense : dense (st_registry (stores (world en)));
  rd_flags s : s ∈ cs_systems (commit en) → sys_phase s = phase → N.land (registered_phases reg) (phase_bit phase) ≠ 0%N;
}.

Lemma phase_begin_ok reg phase allow en ev b :
  ready reg phase en → phase_ok phase (phase_begin reg phase allow en ev b) ∅.
Proof using H H0.
  intros [Hok Hsn Hd Hf].
  set (st := MkPhase en ev (reservations_new (st_registry (stores (world en)))) [] [] true false false b Looping since_planned).
  assert (accounts st ∅) as A.
  { split; simpl; try done; try apply queue_holds_empty.
    by apply table_ok_new. }
  unfold phase_begin. fold st. case_bool_decide as Hbit; [|by split].
  destruct (preempting allow st).
  - split; try done. apply (accounts_frame (with_engine (open_window en).1 st)); try done.
    apply accounts_engine; [by apply steady_same|apply forced_all_refl|done].
  - split; try done; [by apply (accounts_frame st)|]. unfold planned_so_far. simpl. intros i s Hs Hph _. exfalso.
    apply (Hf s); [by eapply list_elem_of_lookup_2|done|done].
Qed.

Section one_phase.
Variable reg : Registry.
Variable the_phase : Phase.
Variable allow : bool.
Variable en0 : Engine.
Variable ev0 : Evaluation.
Variable budget0 : CommitBudget.
Hypothesis start_ready : ready reg the_phase en0.

Abbreviation runs_to st := (rtc (phase_step' the_phase allow) (phase_begin reg the_phase allow en0 ev0 budget0) st).

Lemma runs_to_ok st : runs_to st → ∃ t, phase_ok the_phase st t.
Proof using All. intros Hs. eapply phase_steps_ok; [by apply phase_begin_ok|done]. Qed.

(** C22: throughout a phase the runs in flight are exactly the reservations held:
    pairwise conflict free, each invocation and each run once, a run with a write
    among the writers and any other among the readers.  Finishing any of them,
    in any order, trips none of the assertions on the way: it returns as soon as
    its commit and the commit budget do.  When the phase is over, nothing is in
    flight and nothing is reserved. *)
Theorem phase_runs_accounted st :
  runs_to st →
  ∃ t, represents (running_access st) t ∧ Spec.exclusive t ∧ Spec.single_flight t ∧ NoDup (in_flight st) ∧
    (∀ id, id ∈ in_flight st ↔ is_Some (t !! id)) ∧
    (∀ id o accs, t !! id = Some (o, accs) →
       id ∈ concat (if Spec.writes accs then write_runs st else read_runs st)) ∧
    (∀ id run en ev p b force, id ∈ in_flight st → run_ok run →
       commit_run row_counts (ph_engine st) (ph_eval st) run the_phase = Done (en, ev, p) →
       budget_record (ph_budget st) (progress_commits p) = Done b →
       ∃ st', finish_run row_counts the_phase force st (id, run) = Done (st', p)) ∧
    (∀ out, ph_mode st = Finished out → in_flight st = [] ∧ t = ∅).
Proof using All.
  intros [t [A _ _ Hq]]%runs_to_ok. exists t. destruct (ac_table _ _ A) as (Hr & Hex & Hsf). split_and!; try done.
  - by eapply in_flight_nodup.
  - intros id. by apply in_flight_lookup.
  - intros id o accs Ht. destruct (Spec.writes accs) eqn:Hw.
    + apply (qh_elem _ _ _ (ac_writers _ _ A)). by exists o, accs.
    + apply (qh_elem _ _ _ (ac_readers _ _ A)). by exists o, accs.
  - intros *. by apply finish_run_total with (t := t).
  - intros out Hm. unfold queues_by_mode in Hq. rewrite Hm in Hq. split; [done|by apply (in_flight_nil _ _ A)].
Qed.

(** C21: a phase that completes is quiescent.  Nothing is in flight, and every
    system of the phase has planned all there is to plan on the world the phase
    leaves: since its last plan no store of its interest moved (unless the
    revision counter is exhausted), and the only rows of it that were forced
    belong to invocations that a commit retired without changing the world.  A
    row that a stale run or a conflict sent back has been planned again.  Other
    callers may move rows and force rows between any two steps; the statement is
    about every system that they left alone since the last wave.  This covers
    every way a phase completes, also the one without a last wave. *)
Theorem phase_quiescent st changed :
  runs_to st → ph_mode st = Finished (Completed changed) →
  in_flight st = [] ∧
  ∀ i s, cs_systems (commit (ph_engine st)) !! i = Some s → sys_phase s = the_phase → untouched (ph_since st) i s →
    ∃ s0, forced_by (retired_since (ph_since st)) i s0 s ∧
      (is_Some (interest s0) → peek_needs_planning s0 (world (ph_engine st)) = false ∨
         (u64_max ≤ revision (world (ph_engine st)))%N).
Proof using All.
  intros [t [A _ Hp Hq]]%runs_to_ok Hm. unfold planned_so_far, queues_by_mode in *. rewrite Hm in *.
  split; [done|]. intros i s Hs Hph Hu. destruct (Hp i s Hs Hph Hu) as (s0 & Hc & Hf). by exists s0.
Qed.

Lemma preempted_allowed st :
  runs_to st → match ph_mode st with Draining | Windowed | Finished (Preempted _) => allow = true | _ => True end.
Proof using row_counts plan_runs.
  intros Hs. apply (rtc_ind_r (λ st, match ph_mode st with Draining | Windowed | Finished (Preempted _) => allow = true | _ => True end)
    (phase_begin reg the_phase allow en0 ev0 budget0)) in Hs; [done|..]; clear Hs st.
  - unfold phase_begin. case_bool_decide; [|done].
    destruct (preempting allow _) eqn:Hp; [|done]. by apply andb_true_iff in Hp as [? _].
  - intros st st' _ Hstep IH.
    destruct Hstep as [st access Hm Hpre Hc|st Hm Hpre Hn Hpk|st st' Hm Hpre Hn Hpk Hrun|st Hm Hpre Hn|st b Hm Hpre|
      st b Hm Hpre Hnil|st b batch st' followup stale Hm Hne Hnd Hin Hrun|st row st' p Hm Hin Hq Hrun|st Hm Hnil|
      st Hm Hz|st en Hsame]; simpl; rewrite ?Hm in IH; try done.
    + by apply andb_true_iff in Hpre as [? _].
    + unfold run_wave in Hrun. apply bind_Done in Hrun as ([en1 snap] & _ & Hrun).
      destruct (plan_log (world en1)) as [log epoch]. by apply bind_Done in Hrun as (v & _ & [= <-]).
    + assert (ph_mode st' = ph_mode st) as ->; [|by rewrite Hm].
      destruct row as [id run]. unfold finish_run in Hrun. apply bind_Done in Hrun as ([] & _ & Hrun).
      apply bind_Done in Hrun as ([[en ev] p'] & _ & Hrun). apply bind_Done in Hrun as ([access owner] & _ & Hrun).
      apply bind_Done in Hrun as (o & _ & Hrun). apply bind_Done in Hrun as (budget & _ & Hrun).
      by apply bind_Done in Hrun as (en2 & _ & [= <- _]).
Qed.
End one_phase.

(** A generation ends.  Whatever the phases do and however often mutators
    preempt, at most 19 phases run: past the preemption budget of 4 boundaries are
    no longer honoured, and a phase that is not preempted is not run again. *)
Theorem generation_bounded reg startup n en ev b x :
  nsteps (generation_step row_counts plan_runs workers dispatch_maximum reg) n (en, ev, b, run_begin startup) x →
  n ≤ 19 ∧ (rs_preemptions x.2 ≤ preemption_budget)%N.
Proof using row_counts plan_runs.
  clear own_rows maximum_positive. intros Hs.
  set (m := λ r : RunState, length (rs_phases r) + 4 * (4 - N.to_nat (rs_preemptions r))).
  assert (∀ n y x, nsteps (generation_step row_counts plan_runs workers dispatch_maximum reg) n y x →
    (rs_preemptions y.2 ≤ preemption_budget)%N → n + m x.2 ≤ m y.2 ∧ (rs_preemptions x.2 ≤ preemption_budget)%N) as Hgen.
  { clear. intros n y x Hs. induction Hs as [y|n y1 y2 y3 Hstep _ IH]; intros Hb; [split; [lia|done]|].
    destruct Hstep as [en ev b r phase rest st out Hph Hrun Hm].
    assert (S (m (after_phase r out)) ≤ m r ∧ (rs_preemptions (after_phase r out) ≤ preemption_budget)%N) as [Hdec Hb'].
    { unfold m. simpl in Hb. destruct out as [c|c]; simpl; rewrite Hph; simpl; [split; [lia|done]|].
      pose proof (preempted_allowed _ _ _ _ _ _ _ Hrun) as Ha. rewrite Hm in Ha. unfold allow_preempt in Ha.
      apply bool_decide_eq_true in Ha. unfold preemption_budget in *. split; lia. }
    destruct (IH Hb') as [Hle ?]. simpl in *. split; [lia|done]. }
  destruct (Hgen _ _ _ Hs) as [Hle Hb]; [by unfold preemption_budget|]. split; [|done].
  unfold m in Hle at 2. simpl in Hle. destruct startup; simpl in Hle; lia.
Qed.
End phase_inv.

(** ** A concrete phase

    One system plans row 7 of the world that the first generation opened; its run
    finishes and changes nothing. *)
Definition demo_plan_runs (id : SystemId) (w : World) (memo : gmap SystemInvocation MemoEntry)
    (hint : option (list Entity)) : list (SystemInvocation * list Access) :=
  [(Invocation id [7%N], [access_read ty_num 7])].
Definition demo_finished : SystemRun :=
  MkRun true [] [(Invocation 0 [7%N], MkMemo [] 1 0)] [].

Definition demo_p0 : PhaseState := phase_begin demo_built.2 Evaluate true demo_started.1 demo_ev (budget_new NoLimit).
Definition demo_p1 : PhaseState := run demo_p0 (run_wave demo_plan_runs None 16 Evaluate demo_p0).
Definition demo_batch : list (RunId * SystemRun) := (λ id, (id, demo_finished)) <$> in_flight demo_p1.
Definition demo_committed : PhaseState * bool * bool :=
  run (demo_p1, false, false) (finish_batch nobody_matches Evaluate demo_p1 demo_batch).
Definition demo_p2 : PhaseState :=
  with_mode Looping (with_plan (demo_committed.1.2 || demo_committed.2 || deferred_conflicts demo_committed.1.1)
                       (deferred_conflicts demo_committed.1.1) demo_committed.1.1).
Definition demo_p3 : PhaseState := with_mode (Awaiting true) demo_p2.
Definition demo_p4 : PhaseState := with_mode (Finished (Completed (phase_changed demo_p3))) demo_p3.

Lemma demo_ready : ready demo_built.2 Evaluate demo_started.1.
Proof.
  pose proof (reached_ok nobody_matches (λ _, false) demo_shapes [StepSystem demo_system] _ _ demo_build_eq
                demo_c5 demo_reached5) as [_ _ _ _ Hok Hsn _].
  assert (c_engine demo_c5 = demo_started.1) as Heq
    by (unfold demo_c5, with_applied, with_eval, moved_to; cbn [c_engine]; reflexivity).
  rewrite Heq in Hok, Hsn. split; [exact Hok|exact Hsn|..].
  - assert (st_registry (stores (world demo_started.1)) = bit_for (presence_new (universe_of demo_shapes))) as ->
      by (vm_compute; reflexivity).
    apply dense_bits, universe_of_spec.
  - intros s _ _. vm_compute. discriminate.
Qed.

Abbreviation demo_step := (phase_step nobody_matches demo_plan_runs None 16 Evaluate true).

Lemma demo_wave_eq : run_wave demo_plan_runs None 16 Evaluate demo_p0 = Done demo_p1.
Proof. vm_compute. reflexivity. Qed.
Lemma demo_batch_eq :
  finish_batch nobody_matches Evaluate demo_p1 demo_batch = Done (demo_committed.1.1, demo_committed.1.2, demo_committed.2).
Proof. vm_compute. reflexivity. Qed.

Lemma demo_to_p1 : rtc demo_step demo_p0 demo_p1.
Proof. apply rtc_once, ps_wave; [vm_compute; reflexivity..|exact demo_wave_eq]. Qed.

Lemma demo_to_p4 : rtc demo_step demo_p0 demo_p4.
Proof.
  assert (ph_mode demo_p1 = Awaiting true) as Hm1 by (vm_compute; reflexivity).
  assert (ph_mode demo_p2 = Looping ∧ preempting true demo_p2 = false ∧ ph_needs_plan demo_p2 = false ∧
    preempting true demo_p3 = false ∧ in_flight demo_p3 = []) as (Hm2 & Hp2 & Hn2 & Hp3 & Hf3)
    by (vm_compute; done).
  etrans; [exact demo_to_p1|].
  eapply rtc_l; [eapply (ps_batch nobody_matches demo_plan_runs None 16 Evaluate true demo_p1 true demo_batch _ _ _ Hm1);
                 [| | |exact demo_batch_eq]|].
  - vm_compute. discriminate.
  - vm_compute. constructor; [by intros ?%elem_of_nil|constructor].
  - apply Forall_fmap, Forall_forall. intros id Hid. split; [exact Hid|constructor].
  - eapply rtc_l; [exact (ps_skip nobody_matches demo_plan_runs None 16 Evaluate true demo_p2 Hm2 Hp2 Hn2)|].
    apply rtc_once. exact (ps_drained nobody_matches demo_plan_runs None 16 Evaluate true demo_p3 true eq_refl Hp3 Hf3).
Qed.

Lemma demo_own_rows : ∀ id w memo hint owner accs, (owner, accs) ∈ demo_plan_runs id w memo hint → system owner = id.
Proof. intros *. by intros [= -> _]%list_elem_of_singleton. Qed.

Lemma phase_runs_accounted_witness :
  length (in_flight demo_p1) = 1 ∧ NoDup (in_flight demo_p1).
Proof.
  split; [vm_compute; reflexivity|].
  destruct (phase_runs_accounted nobody_matches demo_plan_runs None 16 demo_own_rows ltac:(done)
              demo_built.2 Evaluate true demo_started.1 demo_ev (budget_new NoLimit) demo_ready demo_p1 demo_to_p1)
    as (t & _ & _ & _ & Hnd & _). exact Hnd.
Defined.

(** The wave planned row 7, and nothing is left to plan. *)
Lemma phase_quiescent_witness :
  in_flight demo_p4 = [] ∧ peek_needs_planning demo_system (world demo_started.1) = true ∧
  ∃ s, cs_systems (commit (ph_engine demo_p4)) !! 0 = Some s ∧ peek_needs_planning s (world (ph_engine demo_p4)) = false.
Proof.
  destruct (phase_quiescent nobody_matches demo_plan_runs None 16 demo_own_rows ltac:(done)
              demo_built.2 Evaluate true demo_started.1 demo_ev (budget_new NoLimit) demo_ready demo_p4
              (phase_changed demo_p3) demo_to_p4 eq_refl) as (Hf & Hc).
  split; [exact Hf|]. split; [vm_compute; reflexivity|].
  assert (revision (world (ph_engine demo_p4)) = 1%N) as Hrev by (vm_compute; reflexivity).
  assert (retired_since (ph_since demo_p4) = ∅ ∧ others_since (ph_since demo_p4) = []) as [Hr Ho] by (split; vm_compute; reflexivity).
  destruct (cs_systems (commit (ph_engine demo_p4)) !! 0) as [s|] eqn:Hs; [|exfalso; vm_compute in Hs; discriminate].
  assert (sys_phase s = Evaluate ∧ interest s = Some [ty_num]) as [Hph Hi] by (vm_compute in Hs; injection Hs as <-; split; reflexivity).
  destruct (Hc 0 s Hs Hph) as (s0 & Hf0 & Hp); [unfold untouched; rewrite Ho; constructor|].
  rewrite Hr in Hf0. apply forced_by_none in Hf0 as ->. exists s0. split; [reflexivity|].
  destruct Hp as [Hp|Hmax]; [rewrite Hi; eexists; reflexivity|exact Hp|]. exfalso. rewrite Hrev in Hmax. by apply Hmax.
Defined.

(** The generation opens with the startup phase, which has no system. *)
Definition demo_startup : PhaseState := phase_begin demo_built.2 Startup true demo_started.1 demo_ev (budget_new NoLimit).

Lemma generation_bounded_witness : ph_mode demo_startup = Finished (Completed false) ∧ 1 ≤ 19.
Proof.
  assert (ph_mode demo_startup = Finished (Completed false)) as Hm by (vm_compute; reflexivity).
  split; [exact Hm|].
  apply (generation_bounded nobody_matches demo_plan_runs None 16 demo_built.2 true 1 demo_started.1 demo_ev (budget_new NoLimit)
           (ph_engine demo_startup, ph_eval demo_startup, ph_budget demo_startup, after_phase (run_begin true) (Completed false))).
  eapply nsteps_l; [|apply nsteps_O].
  exact (rs_phase nobody_matches demo_plan_runs None 16 demo_built.2 demo_started.1 demo_ev (budget_new NoLimit)
           (run_begin true) Startup [Evaluate; Complete] demo_startup (Completed false) eq_refl (rtc_refl _ _) Hm).
Defined.
