(* ===== verification/Settle.v ===== *)
(** * A whole settle ([bowl.rs]: [settle], [ensure_evaluated], [run_settled_hooks], [run_settle_phase])

    One caller drives the bowl until it has converged.  The sections of the
    settle loop are those of [Engine], the generations those of [Phase]; here
    they are composed into a step relation, one step per section of the state
    lock, with the other callers acting in between, also after convergence.  The
    theorem is the contract of healing: when a settle completes, no invocation of
    a [View]-carrying system that committed during it has seen a viewed store
    that moved afterwards, unless another caller moved it while the settle was
    closing.  What the hooks and the settle systems run is behind
    an interface. *)
From stdpp Require Import base numbers sets gmap fin_maps sorting list.
From S2P Require Import Prelude Access.
From S2P Require Import Components Demo Stores Presence World WorldInv Ownership WorldOps Frame.
From S2P Require Import Commands Query Deps Planner Commit Params Engine EngineInv EngineThms Phase PhaseInv.

(** ** What the executables promise to the settle *)

(** The runs of a settled hook, and the rows of a settle system, planned on a
    snapshot with the memo the settle took out: their queues are undrained, a
    hook records no memo entry, a row only its own system's. *)
Class SettleRuns `{ComponentTypes} := {
  hook_run : SystemId → World → gmap SystemInvocation MemoEntry → SystemRun → Prop;
  settle_rows : SystemId → World → gmap SystemInvocation MemoEntry → list SystemRun → Prop;
}.
Class SettleRunLaws `{SettleRuns} : Prop := {
  hook_run_ok id w memo run : hook_run id w memo run → run_ok run ∧ run_updates run = [];
  settle_rows_ok id w memo runs : settle_rows id w memo runs →
    Forall (λ run, run_ok run ∧ Forall (λ o, system o = id) (run_updates run).*1) runs;
}.

Section settle.
Context `{ComponentTypes} `{HashOrder} `{!SettleRuns}.
Implicit Types (w : World) (owner : SystemInvocation) (en : Engine) (s : BoxedSystem).

Variable row_counts : SystemId → World → nat.
Variable plan_runs : SystemId → World → gmap SystemInvocation MemoEntry → option (list Entity) →
  list (SystemInvocation * list Access).
Variable workers : option N.
Variable dispatch_maximum : N.
Variable reg : Registry.

(** ** The driver *)

(** Between two sections of the lock: at the head of the loop, in
    [ensure_evaluated] before its check and before the runner lock, after it,
    about to heal (for the second time or not), around the hooks, around the
    settle phase, at the check of [normal_clean], about to enqueue, about to
    finish, and returned (with the healing epoch the settle closed). *)
Inductive SettleMode :=
  | AtHead
  | Evaluating (target : N)
  | Acquiring (target : N)
  | Evaluated
  | Healing (again : bool)
  | HookCheck
  | HookSnapshot (memo : gmap SystemInvocation MemoEntry)
  | HookRunning (memo : gmap SystemInvocation MemoEntry) (runs : list SystemRun)
  | HookDone (memo : gmap SystemInvocation MemoEntry) (followup : bool)
  | SettleCheck
  | SettleSnapshot (memo : gmap SystemInvocation MemoEntry) (before : Revision)
  | SettleRunning (memo : gmap SystemInvocation MemoEntry) (before : Revision) (runs : list SystemRun)
  | CleanCheck
  | Enqueueing
  | Finishing
  | Returned (closed : option N).

Record Settling := MkSettling {
  sl_engine : Engine;
  sl_attempts : gmap SystemInvocation N;
  sl_budget : CommitBudget;
  sl_mode : SettleMode;
  (** The sections other callers held since the settle last found nothing to heal,
      with the engine before and after; kept for the statements, no step reads it. *)
  sl_others : list (Engine * Engine);
}.
Implicit Types st : Settling.

Definition go (m : SettleMode) en st : Settling := MkSettling en (sl_attempts st) (sl_budget st) m (sl_others st).

(** The loop body goes where a section tells it to. *)
Definition next_mode (out : SettleStep) : SettleMode :=
  match out with
  | SettleReturn => Returned None
  | SettleAgain => AtHead
  | SettleDrive target => Evaluating target
  | SettleClean clean => if clean : bool then Healing false else Enqueueing
  end.

(** What a settle needs of the state behind the lock, whoever changed it. *)
Record sound en : Prop := {
  sd_state : state_ok (commit en);
  sd_snapshots : snapshots_ok en;
  sd_queues : queues_ok en;
}.

(** The part of a system that its registration fixes. *)
Definition statics (systems : list BoxedSystem) : list (Phase * list TypeId) :=
  (λ s, (sys_phase s, view_freshness s)) <$> systems.

Definition sys en : list (Phase * list TypeId) := statics (cs_systems (commit en)).

(** The section keeps the state sound and the systems what they are. *)
Definition safe en en' : Prop := sound en → sound en' ∧ sys en' = sys en.

(** Other callers, between any two sections of the settle: mutators at the
    boundary (there is no running generation from convergence on), [for_each],
    [take], drains, snapshots, staged inputs, another settle.  They keep the state
    sound and the revision does not go back; rows, memo and epoch may change. *)
Definition interferes en en' : Prop := safe en en' ∧ (sound en → (revision (world en) ≤ revision (world en'))%N).

Inductive settle_step (watermark : N) : Settling → Settling → Prop :=
  | ss_head st en out :
      sl_mode st = AtHead → settle_head (sl_engine st) watermark = Done (en, out) →
      settle_step watermark st (go (next_mode out) en st)
  (** [ensure_evaluated] *)
  | ss_complete st target :
      sl_mode st = Evaluating target → (target ≤ completed_generation (gens (sl_engine st)))%N →
      settle_step watermark st (go Evaluated (sl_engine st) st)
  | ss_incomplete st target :
      sl_mode st = Evaluating target → ¬ (target ≤ completed_generation (gens (sl_engine st)))%N →
      settle_step watermark st (go (Acquiring target) (sl_engine st) st)
  | ss_nothing_pending st target en :
      sl_mode st = Acquiring target → start_evaluation (sl_engine st) = Done (en, None) →
      settle_step watermark st (go (Evaluating target) en st)
  | ss_generation st target en1 ev startup en2 ev2 budget r :
      sl_mode st = Acquiring target → start_evaluation (sl_engine st) = Done (en1, Some (ev, startup)) →
      rtc (generation_step row_counts plan_runs workers dispatch_maximum reg)
        (en1, ev, sl_budget st, run_begin startup) (en2, ev2, budget, r) →
      rs_phases r = [] →
      settle_step watermark st
        (MkSettling (complete_evaluation en2 ev2 (rs_changed r)).1 (sl_attempts st) budget (Evaluating target) (sl_others st))
  | ss_runner_busy st target id :
      sl_mode st = Acquiring target →
      settle_step watermark st (go (Evaluating target) (wait_for_generation (sl_engine st) target id).1 st)
  | ss_check st en out :
      sl_mode st = Evaluated → settle_check (sl_engine st) watermark = Done (en, out) →
      settle_step watermark st (go (next_mode out) en st)
  (** [heal_stale_ambient], before the hooks and again after the settle phase *)
  | ss_heal st again en attempts healed :
      sl_mode st = Healing again →
      heal_stale_ambient (ambient_healing_enabled reg) (sl_engine st) (sl_attempts st) = Done (en, attempts, healed) →
      settle_step watermark st
        (MkSettling en attempts (sl_budget st)
           (if healed then Enqueueing else if again then CleanCheck else HookCheck)
           (if healed then sl_others st else []))
  (** [run_settled_hooks] *)
  | ss_no_hooks st :
      sl_mode st = HookCheck → settled_hooks reg = [] → settle_step watermark st (go SettleCheck (sl_engine st) st)
  | ss_hooks st :
      sl_mode st = HookCheck → settled_hooks reg ≠ [] →
      settle_step watermark st
        (go (HookSnapshot (take_memo (sl_engine st)).2) (take_memo (sl_engine st)).1 st)
  | ss_hook_snapshot st memo en snapshot runs :
      sl_mode st = HookSnapshot memo → snapshot_locked (sl_engine st) = Done (en, snapshot) →
      Forall2 (λ id run, hook_run id snapshot memo run) (settled_hooks reg) runs →
      settle_step watermark st (go (HookRunning memo runs) en st)
  | ss_hook_commit st memo runs en memo' followup commits budget :
      sl_mode st = HookRunning memo runs →
      commit_hooks row_counts (sl_engine st) memo runs = Done (en, memo', followup, commits) →
      budget_record (sl_budget st) commits = Done budget →
      settle_step watermark st (MkSettling en (sl_attempts st) budget (HookDone memo' followup) (sl_others st))
  | ss_hook_done st memo followup :
      sl_mode st = HookDone memo followup →
      settle_step watermark st (go (if followup then Enqueueing else SettleCheck) (put_memo memo (sl_engine st)) st)
  (** [run_settle_phase] *)
  | ss_no_settle st :
      sl_mode st = SettleCheck → settle_systems reg = [] → settle_step watermark st (go Finishing (sl_engine st) st)
  | ss_settle st :
      sl_mode st = SettleCheck → settle_systems reg ≠ [] →
      settle_step watermark st
        (go (SettleSnapshot (take_memo (sl_engine st)).2 (revision (world (sl_engine st))))
           (take_memo (sl_engine st)).1 st)
  | ss_settle_snapshot st memo before en snapshot rows :
      sl_mode st = SettleSnapshot memo before → snapshot_locked (sl_engine st) = Done (en, snapshot) →
      Forall2 (λ id runs, settle_rows id snapshot memo runs) (settle_systems reg) rows →
      settle_step watermark st (go (SettleRunning memo before (concat rows)) en st)
  | ss_settle_commit st memo before l run l' en memo' :
      sl_mode st = SettleRunning memo before (l ++ run :: l') →
      commit_settle row_counts (sl_engine st) memo run = Done (en, memo') →
      settle_step watermark st (go (SettleRunning memo' before (l ++ l')) en st)
  | ss_settle_done st memo before :
      sl_mode st = SettleRunning memo before [] →
      settle_step watermark st
        (go (if bool_decide (revision (world (sl_engine st)) = before) then Finishing else Healing true)
           (put_memo memo (sl_engine st)) st)
  (** [needs_normal_followup], [enqueue_next_generation] and the completion *)
  | ss_clean st :
      sl_mode st = CleanCheck →
      settle_step watermark st
        (go (if normal_clean (commit (sl_engine st)) then Finishing else Enqueueing) (sl_engine st) st)
  | ss_enqueue st :
      sl_mode st = Enqueueing → settle_step watermark st (go AtHead (enqueue_next_generation (sl_engine st)) st)
  | ss_finish st en out woken :
      sl_mode st = Finishing → settle_finish (sl_engine st) watermark = Done (en, out, woken) →
      settle_step watermark st
        (go (match out with SettleReturn => Returned (Some (settle_epoch (commit (sl_engine st)))) | _ => AtHead end) en st)
  | ss_other st en :
      (∀ closed, sl_mode st ≠ Returned closed) → interferes (sl_engine st) en →
      settle_step watermark st
        (MkSettling en (sl_attempts st) (sl_budget st) (sl_mode st) ((sl_engine st, en) :: sl_others st)).

(** The whole call: the fast path, or an epoch with fresh attempts and budget. *)
Inductive settle_from (limit : CommitLimit) en : N → Settling → Prop :=
  | sf_fast en' : settle_fast en = Done (en', true) → settle_from limit en 0 (MkSettling en' ∅ (budget_new limit) (Returned None) [])
  | sf_epoch en' st :
      settle_fast en = Done (en', false) →
      rtc (settle_step (epoch_enter en').2) (MkSettling (epoch_enter en').1 ∅ (budget_new limit) AtHead []) st →
      settle_from limit en (epoch_enter en').2 st.

(** ** What never changes of a system *)

Definition same_system s s' : Prop := sys_phase s' = sys_phase s ∧ view_freshness s' = view_freshness s.

Lemma same_system_trans s1 s2 s3 : same_system s1 s2 → same_system s2 s3 → same_system s1 s3.
Proof. intros [E1 E2] [E3 E4]. split; congruence. Qed.

Lemma forced_same s s' : forced_from s s' → same_system s s'.
Proof.
  unfold same_system. intros Hf. induction Hf as [|s s' ks Hf [<- <-]]; [done|]. unfold force_replan.
  by destruct (delta_eligible s' && _).
Qed.

Lemma statics_Forall2 l l' : Forall2 same_system l l' → statics l' = statics l.
Proof. unfold statics. intros Hf. induction Hf as [|s s' l l' [E1 E2] _ IH]; [done|].
  rewrite !fmap_cons, IH. by rewrite E1, E2.
Qed.

Lemma forced_statics l l' : forced_all l l' → statics l' = statics l.
Proof. intros Hf. apply statics_Forall2. eapply Forall2_impl; [exact Hf|]. apply forced_same. Qed.

Lemma statics_insert systems i s s' :
  systems !! i = Some s → same_system s s' → statics (<[i := s']> systems) = statics systems.
Proof.
  intros Hs [E1 E2]. unfold statics. rewrite list_fmap_insert, E1, E2.
  apply list_insert_id. by rewrite list_lookup_fmap, Hs.
Qed.

Lemma plan_system_same s w log epoch s' out : plan_system s w log epoch = Done (s', out) → same_system s s'.
Proof.
  unfold plan_system, needs_planning, same_system. destruct (negb (peek_needs_planning s w)); simpl; [by intros [= <- _]|].
  destruct (interest s) as [tys|] eqn:Hi; simpl.
  - destruct (_ && _); simpl; rewrite ?Hi; simpl; intros [= <- _]; destruct (delta_eligible s); done.
  - intros (hint & _ & [= <- _])%bind_Done. by destruct (delta_eligible s).
Qed.

Lemma dispatch_same a runs a' :
  dispatch_rows workers dispatch_maximum a runs = Done a' → same_system (adm_system a) (adm_system a').
Proof.
  unfold dispatch_rows. intros (size & _ & Hrun)%bind_Done. apply bind_Done in Hrun as ([[a1 readers] writers] & Hf & [= <-]).
  simpl. revert Hf. apply (fold_result_inv (λ p, same_system (adm_system a) (adm_system p.1.1))); [|done].
  intros [[b r0] w0] [o accs] [[b' r1] w1] _ Hs Hstep. unfold dispatch_row in Hstep. simpl in *.
  apply bind_Done in Hstep as ([r out] & _ & Hstep). destruct out as [id|[|owner]].
  - apply bind_Done in Hstep as (writer & _ & Hstep).
    destruct writer, (push_run _ _ _ _) as [queue batch]; by injection Hstep as <- _ _.
  - by injection Hstep as <- _ _.
  - injection Hstep as <- _ _. simpl. eapply same_system_trans; [exact Hs|]. apply forced_same. constructor. constructor.
Qed.

Lemma plan_wave_statics phase snapshot memo log epoch v v' :
  plan_wave plan_runs workers dispatch_maximum phase snapshot memo log epoch v = Done v' →
  statics (wv_systems v') = statics (wv_systems v).
Proof.
  unfold plan_wave. apply (fold_result_inv (λ x, statics (wv_systems x) = statics (wv_systems v))); [|done].
  intros x id x' _ Hs Hstep. unfold plan_one in Hstep. apply bind_Done in Hstep as (s & Hid%expect_Done & Hstep).
  destruct (negb _); [by injection Hstep as <-|]. apply bind_Done in Hstep as ([s1 planned] & Hp%plan_system_same & Hstep).
  destruct planned as [hint|]; [|by injection Hstep as <-].
  apply bind_Done in Hstep as (a & Ha%dispatch_same & [= <-]). simpl in *. rewrite <-Hs.
  eapply statics_insert; [exact Hid|]. by eapply same_system_trans.
Qed.

Lemma compact_statics systems w systems' w' :
  compact_systems systems w = Done (systems', w') → statics systems' = statics systems.
Proof.
  unfold compact_systems. intros ([w1 rolled] & _ & Hc)%bind_Done. destruct rolled as [[epoch log]|]; [|by injection Hc as <- _].
  apply bind_Done in Hc as (out & Hf & [= <- _]).
  assert (∀ done l out, fold_result (λ done s, s ← compact_plan_log s epoch log w1; Done (done ++ [s])) done l = Done out →
    statics out = statics done ++ statics l) as Hgen; [|by apply Hgen in Hf].
  clear. intros done l. revert done. induction l as [|s l IH]; intros done out; cbn [fold_result].
  { intros [= <-]. by rewrite app_nil_r. }
  intros (d & Hd & Hl)%bind_Done. apply bind_Done in Hd as (s' & Hs & [= <-]). rewrite (IH _ _ Hl).
  unfold statics. rewrite fmap_app, <-app_assoc. f_equal. simpl. f_equal.
  unfold compact_plan_log in Hs. destruct (_ || _); [by injection Hs as <-|].
  apply bind_Done in Hs as ([] & _ & Hs). apply bind_Done in Hs as (s1 & H1 & Hs).
  apply bind_Done in Hs as (next & _ & [= <-]). destruct (peek_needs_planning s w1).
  - by apply bind_Done in H1 as (tys & _ & [= <-]).
  - by injection H1 as <-.
Qed.

(** ** Soundness of every section *)

Lemma safe_refl en : safe en en.
Proof. by split. Qed.
Lemma safe_trans en1 en2 en3 : safe en1 en2 → safe en2 en3 → safe en1 en3.
Proof. intros S12 S23 [S2 E12]%S12. destruct (S23 S2) as [? E23]. split; [done|congruence]. Qed.

Lemma safe_steady en en' : steady en en' → inputs en' = inputs en → (sound en → sys en' = sys en) → safe en en'.
Proof.
  intros Hs Hi Hc S. split; [|by apply Hc]. destruct S as [Hok Hsn Hq]. destruct (Hs Hok Hsn) as (? & ? & _).
  split; [done..|]. unfold queues_ok. by rewrite Hi.
Qed.
Lemma safe_calm en en' : calm en en' → (sound en → sys en' = sys en) → safe en en'.
Proof. intros [(_ & Hi & _) Hs] ?. by apply safe_steady. Qed.

(** A section that touches neither world, pool nor inputs. *)
Lemma safe_frame en en' :
  settled_state en' = settled_state en → world en' = world en → cs_pool (commit en') = cs_pool (commit en) →
  deferred_settle (commit en') = deferred_settle (commit en) → inputs en' = inputs en → sys en' = sys en → safe en en'.
Proof using H H0.
  intros Es Ew Ep Ed ??. apply safe_steady; [|done..]. apply steady_same; [done..|]. by apply state_ok_frame.
Qed.

Lemma snapshot_keeps en en' snap : snapshot_locked en = Done (en', snap) → commit en' = commit en ∧ safe en en'.
Proof using H H0.
  intros Hs. assert (commit en' = commit en) as Ec.
  { revert Hs. unfold snapshot_locked. destruct (snapshot_cache _) as [[key cached]|]; [case_bool_decide|].
    - by intros [= <- _].
    - by intros (w & _ & [= <- _])%bind_Done.
    - by intros (w & _ & [= <- _])%bind_Done. }
  split; [done|]. apply safe_calm; [by eapply snapshot_calm|]. unfold sys. by rewrite Ec.
Qed.

Lemma refresh_keeps en en' : refresh_settled_snapshot en = Done en' → commit en' = commit en ∧ safe en en'.
Proof using H H0.
  intros Hr. assert (commit en' = commit en) as Ec.
  { unfold refresh_settled_snapshot in Hr. by apply bind_Done in Hr as ([en1 snap] & [<- _]%snapshot_keeps & [= <-]). }
  split; [done|]. apply safe_calm; [by apply refresh_calm|]. unfold sys. by rewrite Ec.
Qed.

Lemma commit_run_safe en ev run phase en' ev' p :
  run_ok run → commit_run row_counts en ev run phase = Done (en', ev', p) → safe en en'.
Proof using H H0.
  intros Hq Hrun. destruct (commit_run_calm _ _ _ _ _ _ _ _ Hq Hrun) as [Hc _]. apply safe_calm; [done|].
  intros S. by destruct (commit_run_spec _ _ _ _ _ _ _ _ (sd_state _ S) Hq Hrun) as (_ & _ & Hf%retired_forced%forced_statics & _).
Qed.

Lemma finish_run_safe phase force ph row ph' p :
  run_ok row.2 → finish_run row_counts phase force ph row = Done (ph', p) → safe (ph_engine ph) (ph_engine ph').
Proof using H H0.
  destruct row as [id run]. unfold finish_run. intros Hq ([] & _ & Hrun)%bind_Done.
  apply bind_Done in Hrun as ([[en ev] p'] & Hc%commit_run_safe & Hrun); [|done].
  apply bind_Done in Hrun as ([access owner] & _ & Hrun). apply bind_Done in Hrun as (o & _ & Hrun).
  apply bind_Done in Hrun as (budget & _ & Hrun). apply bind_Done in Hrun as (en2 & Hen2 & [= <- _]). simpl.
  eapply safe_trans; [exact Hc|]. destruct (force && progress_stale p'); [|injection Hen2 as <-; apply safe_refl].
  apply bind_Done in Hen2 as (systems & Hf%force_owner_forced%forced_statics & [= <-]). by apply safe_frame.
Qed.

Lemma finish_batch_safe phase ph batch ph' followup stale :
  Forall (λ row : RunId * SystemRun, run_ok row.2) batch →
  finish_batch row_counts phase ph batch = Done (ph', followup, stale) → safe (ph_engine ph) (ph_engine ph').
Proof using H H0.
  intros Hq. rewrite Forall_forall in Hq.
  apply (fold_result_inv (λ x, safe (ph_engine ph) (ph_engine x.1.1))); [|apply safe_refl].
  intros [[x f] s0] row [[x' f'] s'] Hin Hx Hstep. apply bind_Done in Hstep as ([y p] & Hy & [= <- _ _]). simpl in *.
  eapply safe_trans; [exact Hx|]. eapply finish_run_safe; [|exact Hy]. by apply Hq.
Qed.

Lemma run_wave_safe phase ph ph' :
  run_wave plan_runs workers dispatch_maximum phase ph = Done ph' → safe (ph_engine ph) (ph_engine ph').
Proof using H H0.
  unfold run_wave. intros ([en1 snap] & [Ec Hs]%snapshot_keeps & Hrun)%bind_Done. unfold plan_log in Hrun.
  apply bind_Done in Hrun as (v & Hv%plan_wave_statics & [= <-]). simpl in *.
  eapply safe_trans; [exact Hs|]. by apply safe_frame.
Qed.

Lemma outside_safe en en' : outside en en' → safe en en'.
Proof.
  intros [Hsys Hst Hq] [Hok Hsn Hqs]. destruct (Hst Hok Hsn) as (? & ? & _). split; [by split; auto|].
  by apply forced_statics.
Qed.

Lemma phase_step_safe phase allow ph ph' :
  phase_step row_counts plan_runs workers dispatch_maximum phase allow ph ph' → safe (ph_engine ph) (ph_engine ph').
Proof using H H0.
  intros Hstep. destruct Hstep as [ph access Hm Hpre Hc|ph Hm Hpre Hn Hpk|ph ph' Hm Hpre Hn Hpk Hrun|ph Hm Hpre Hn|ph b Hm Hpre|
    ph b Hm Hpre Hnil|ph b batch ph' followup stale Hm Hne Hnd Hin Hrun|ph row ph' p Hm Hin Hq Hrun|ph Hm Hnil|
    ph Hm Hz|ph en Hout]; try apply safe_refl.
  - by eapply run_wave_safe.
  - change (safe (ph_engine ph) (ph_engine ph')). eapply finish_batch_safe; [|exact Hrun]. by eapply Forall_impl; [exact Hin|intros ? [_ ?]].
  - by eapply finish_run_safe.
  - by apply safe_frame.
  - by apply safe_frame.
  - by apply outside_safe.
Qed.

Lemma statics_reset systems : statics (reset_full <$> systems) = statics systems.
Proof. unfold statics. rewrite <-list_fmap_compose. by apply list_fmap_ext. Qed.

Lemma generation_step_safe x x' :
  generation_step row_counts plan_runs workers dispatch_maximum reg x x' → safe x.1.1.1 x'.1.1.1.
Proof using H H0.
  intros [en ev b r phase rest ph out Hph Hsteps Hm]. simpl.
  assert (safe en (ph_engine ph)) as Hs.
  { eapply safe_trans with (ph_engine (phase_begin reg phase (allow_preempt r) en ev b)).
    - unfold phase_begin. case_bool_decide; [|apply safe_refl]. destruct (preempting _ _); [by apply safe_frame|apply safe_refl].
    - clear Hm. induction Hsteps as [|a1 a2 a3 H12 _ IH]; [apply safe_refl|]. eapply safe_trans; [by eapply phase_step_safe|exact IH]. }
  destruct out; [exact Hs|]. eapply safe_trans; [exact Hs|]. apply safe_frame; try done. apply statics_reset.
Qed.

Lemma start_safe en en' out : start_evaluation en = Done (en', out) → safe en en'.
Proof using H H0.
  unfold start_evaluation. destruct (pending_generation (gens en)) as [p|]; [|intros [= <- _]; apply safe_refl].
  intros ([st base] & Ho & Hrest)%bind_Done. apply bind_Done in Hrest as (next & _ & Hrest). intros [Hok Hsn [Hq Hd]].
  assert (statics (cs_systems st) = sys en) as Hsys.
  { clear Hrest. unfold open_generation in Ho. apply bind_Done in Ho as ([systems w0] & Hc%compact_statics & Ho).
    apply bind_Done in Ho as (st1 & Hst1 & Ho).
    assert (cs_systems st1 = systems) as Es.
    { revert Hst1. apply (fold_result_inv (λ x, cs_systems x = systems)); [|done]. intros x o x' _ <- Hx.
      unfold apply_deferred_settle in Hx. destruct (queue_apply (out_commands o) _ _) as [drained r].
      by apply bind_Done in Hx as (w & _ & [= <-]). }
    destruct (queue_apply (pending_inputs (inputs en)) _ _) as [base1 r2]. apply bind_Done in Ho as (w2 & _ & Ho). apply bind_Done in Ho as (w3 & _ & Ho).
    unfold take_written_derived, take_removed_entities, take_removed_component_owners, take_removed_owners in Ho. cbn [fst snd] in Ho.
    apply bind_Done in Ho as ([[memo1 systems1] r1] & Ho1%retire_owners_forced%forced_statics & Ho).
    apply bind_Done in Ho as ([[[w5 memo2] systems2] r3] & Hf & [= <- _]). simpl.
    unfold reconcile_removed_invocations in Hf. apply bind_Done in Hf as ([[memo3 systems3] r4] & Ho2%retire_owners_forced%forced_statics & Hf).
    apply bind_Done in Hf as ([[w6 memo4] r5] & _ & [= _ _ <- _]). by rewrite Ho2, Ho1, Es, Hc. }
  apply open_generation_spec in Ho as (Hs' & Hqb & _ & _ & _ & w0 & w1 & w2 & w3 & Ew & Er & Esh & _ & _ & _ & E1 & E2); [|done|done].
  assert (∃ restart, en' = MkEngine (set_clean false (set_memo ∅ st)) (MkGenerations (completed_generation (gens en)) (Some p) next None)
    (MkInputs base (deferred_inputs (inputs en)) (input_seq (inputs en)) (settling (inputs en)))
    (set_window false (set_restart restart (boundary en))) (settled_state en) true (deferred_bound_cleanup en)) as [restart ->]
    by (destruct (startup_ran en); injection Hrest as <- _; eauto).
  split; [|exact Hsys].
  match goal with |- sound ?x => assert (steady en x) as Hst end.
  { apply steady_commit; [done|]. intros _. split; [by apply (state_ok_frame st)|].
    eapply progressed_trans; [by apply (progressed_frame _ w0)|]. eapply progressed_trans; by apply evolves_progressed. }
  destruct (Hst Hok Hsn) as (? & ? & _). by split.
Qed.

Lemma push_safe en q : queue_ok q → safe en (push_pending en q).
Proof using H H0.
  intros Hq [Hok Hsn [Hp Hd]]. destruct (push_pending_spec en q Hp Hq) as (_ & _ & Hp' & _ & Hd' & _ & _ & Hst).
  destruct (Hst Hok Hsn) as (? & ? & _). split; [split; [done..|]; split; [done|by rewrite Hd']|].
  unfold push_pending. by destruct (queue_append _ _).
Qed.

Lemma promote_keeps en watermark en' promoted :
  promote_deferred_inputs en watermark = (en', promoted) →
  safe en en' ∧ world en' = world en ∧ cs_memo (commit en') = cs_memo (commit en) ∧
  cs_systems (commit en') = cs_systems (commit en) ∧ settle_epoch (commit en') = settle_epoch (commit en).
Proof using H H0.
  unfold promote_deferred_inputs. destruct (promote_loop watermark (deferred_inputs (inputs en)) en) as [en1 b] eqn:Hl.
  intros [= <- <-].
  assert (∀ deferred en en1 b, promote_loop watermark deferred en = (en1, b) →
    (Forall (λ d, queue_ok d.2) deferred → sound en → sound en1) ∧ world en1 = world en ∧ cs_memo (commit en1) = cs_memo (commit en) ∧
    cs_systems (commit en1) = cs_systems (commit en) ∧ settle_epoch (commit en1) = settle_epoch (commit en)) as Hgen.
  { clear Hl. clear en en1 b. intros deferred. induction deferred as [|[tag q] rest IH]; intros en en1 b; cbn [promote_loop].
    { intros [= <- _]. by split_and!. }
    case_bool_decide.
    - destruct (promote_loop watermark rest _) as [en3 b3] eqn:Hrec. intros [= <- _].
      destruct (IH _ _ _ Hrec) as (IHs & -> & -> & -> & ->).
      split_and!; try (unfold push_pending; by destruct (queue_append _ q)).
      intros [Hq Hd]%Forall_cons [Hok Hsn [Hp _]]. apply IHs; [done|]. by apply push_safe.
    - intros [= <- _]. by split_and!. }
  destruct (Hgen _ _ _ _ Hl) as (Hs & Hw & Hm & Hy & He).
  destruct b; (split_and!; [|done..]); intros S; (split; [|unfold sys; simpl; by rewrite Hy]).
  - destruct (Hs (proj2 (sd_queues _ S)) S). by split.
  - apply Hs; [apply (sd_queues _ S)|done].
Qed.

(** ** Freshness *)

(** No entry of this epoch belongs to a viewer whose viewed stores moved since
    it planned, as far as the entries and stores [P] go. *)
Definition fresh (P : SystemInvocation → TypeId → Prop) w (l : list (Phase * list TypeId)) (epoch : N)
    (memo : gmap SystemInvocation MemoEntry) : Prop :=
  ∀ o m p views ty, P o ty → memo !! o = Some m → memo_epoch m = epoch → l !! system o = Some (p, views) → p ≠ Settle →
    ty ∈ views → (store_watermark w ty ≤ planned_revision m)%N.

Definition fresh_state P (st : CommitState) : Prop :=
  fresh P (cs_world st) (statics (cs_systems st)) (settle_epoch st) (cs_memo st).

Lemma statics_lookup systems i s : systems !! i = Some s → statics systems !! i = Some (sys_phase s, view_freshness s).
Proof. intros Hs. unfold statics. by rewrite list_lookup_fmap, Hs. Qed.

Lemma no_victim_fresh P en : (∀ o, ¬ stale_viewer en o) → fresh_state P (commit en).
Proof.
  intros Hn o m p views ty _ Hm He Hl Hp Hty. unfold statics in Hl. rewrite list_lookup_fmap in Hl.
  destruct (cs_systems (commit en) !! system o) as [s|] eqn:Hs; [|done]. injection Hl as <- <-.
  apply N.le_ngt. intros Hlt. apply (Hn o). by exists m, s, ty.
Qed.

Lemma retire_epoch cs cs' : commit_retire cs = Done cs' → settle_epoch cs' = settle_epoch cs.
Proof.
  unfold commit_retire, take_removed_entities, take_removed_owners, take_removed_component_owners.
  destruct (_ && _ && _); [by intros [= <-]|]. intros ([[memo systems] retired] & _ & Hr)%bind_Done.
  destruct retired; [by injection Hr as <-|]. apply bind_Done in Hr as ([[[w' memo'] systems'] retired'] & _ & [= <-]).
  by destruct retired'.
Qed.

(** A commit that moves no revision keeps what is fresh, if the invocations it
    records are exempt. *)
Lemma commit_fresh cs run phase cs' p :
  state_ok cs → run_ok run → commit_system_run row_counts cs run phase = Done (cs', p) →
  state_ok cs' ∧ evolves (cs_world cs) (cs_world cs') ∧ statics (cs_systems cs') = statics (cs_systems cs) ∧
  settle_epoch cs' = settle_epoch cs ∧
  (revision (cs_world cs') = revision (cs_world cs) →
   (∀ o, o ∈ (run_updates run).*1 → ∃ views, statics (cs_systems cs) !! system o = Some (Settle, views)) →
   ∀ P, fresh_state P cs → fresh_state P cs').
Proof using H H0.
  intros Hok Hq Hrun. destruct (commit_state_aux _ _ _ _ _ _ Hok Hq Hrun) as (Hok' & E & _).
  pose proof (forced_statics _ _ (commit_forced _ _ _ _ _ _ Hok Hq Hrun)) as Hst.
  assert (settle_epoch cs' = settle_epoch cs ∧
    ∀ o m, cs_memo cs' !! o = Some m → cs_memo cs !! o = Some m ∨ o ∈ (run_updates run).*1) as [He Hm].
  { destruct (forallb (λ '(_, entry), memo_is_current (cs_world cs) entry) (run_updates run)) eqn:Hc.
    - unfold commit_system_run in Hrun. rewrite Hc in Hrun. simpl in Hrun.
      apply bind_Done in Hrun as (st1 & Hst1 & Hrun). apply bind_Done in Hrun as (w & Hw & Hrun).
      apply bind_Done in Hrun as (st2 & Hst2 & [= <- <-]).
      destruct (commit_outputs_ok _ _ _ _ _ Hok Hq Hst1) as ([W1 P1 Q1] & _ & Hm1 & _ & He1).
      destruct (reconcile_written_good _ _ _ _ W1 Hw) as [W2 _].
      destruct (commit_retire_ok _ _ (Build_state_ok (set_memo _ (set_world w st1)) W2 P1 Q1) Hst2) as (_ & _ & _ & Hsub & _).
      split; [by rewrite (retire_epoch _ _ Hst2)|]. intros o m Ho. eapply lookup_weaken in Ho; [|exact Hsub]. simpl in Ho.
      apply commit_memo_source in Ho as [[Ho _]|(entry & Hin & _)]; [left; by rewrite <-Hm1|].
      right. apply list_elem_of_fmap. by exists (o, entry).
    - apply stale_commit_inv in Hrun as (w & _ & -> & _); [|done]. split; [done|]. by left. }
  split_and!; [done..|]. intros Hr Hex P Hf o m q views ty HP Ho Hem Hl Hp Hty. rewrite Hst in Hl. rewrite He in Hem.
  destruct (Hm o m Ho) as [Hold|Hnew].
  - rewrite (watermarks_unmoved nothing_taken (cs_world cs) (cs_world cs') ty) by (done || apply Hok'). by eapply Hf.
  - destruct (Hex o Hnew) as [views' Hv]. rewrite Hl in Hv. by injection Hv as [= ->].
Qed.

(** ** The settle loop *)

(** What [build] derives from the systems: the healing flag and the systems of
    the settle phase. *)
Record registered_with (l : list (Phase * list TypeId)) : Prop := {
  rw_healing i p views : ambient_healing_enabled reg = false → l !! i = Some (p, views) → p = Settle ∨ views = [];
  rw_settle i : i ∈ settle_systems reg → ∃ views, l !! i = Some (Settle, views);
}.

Definition exempt (l : list (Phase * list TypeId)) (run : SystemRun) : Prop :=
  run_ok run ∧ ∀ o, o ∈ (run_updates run).*1 → ∃ views, l !! system o = Some (Settle, views).

(** Other callers' sections left the entry and the store alone: the store did not
    move, the entry is what it was or gone, the epoch is the same. *)
Definition left_alone (others : list (Engine * Engine)) (o : SystemInvocation) (ty : TypeId) : Prop :=
  Forall (λ '(before, after), store_watermark (world after) ty = store_watermark (world before) ty ∧
    (cs_memo (commit after) !! o = cs_memo (commit before) !! o ∨ cs_memo (commit after) !! o = None) ∧
    settle_epoch (commit after) = settle_epoch (commit before)) others.

(** With the memo of the driver in place of the engine's. *)
Definition fresh_with (others : list (Engine * Engine)) en (memo : gmap SystemInvocation MemoEntry) : Prop :=
  fresh (left_alone others) (world en) (sys en) (settle_epoch (commit en)) memo.

Definition mode_ok st : Prop :=
  let en := sl_engine st in
  let fresh_memo := fresh_with (sl_others st) en in
  match sl_mode st with
  | HookCheck | SettleCheck | CleanCheck | Finishing => fresh_memo (cs_memo (commit en))
  | HookSnapshot memo => fresh_memo memo
  | HookRunning memo runs => fresh_memo memo ∧ Forall (λ run, run_ok run ∧ run_updates run = []) runs
  | HookDone memo followup => followup = false → fresh_memo memo
  | SettleSnapshot memo before => fresh_memo memo ∧ (before ≤ revision (world en))%N
  | SettleRunning memo before runs =>
      Forall (exempt (sys en)) runs ∧ (before ≤ revision (world en))%N ∧ (revision (world en) = before → fresh_memo memo)
  | Returned (Some closed) => fresh (left_alone (sl_others st)) (world en) (sys en) closed (cs_memo (commit en))
  | _ => True
  end.

Lemma hooks_fresh runs cs f0 n0 cs' f n :
  Forall (λ run, run_ok run ∧ run_updates run = []) runs → state_ok cs →
  fold_result (λ '(st, followup, commits) run,
    '(st, next) ← commit_system_run row_counts st run None;
    let total := (commits + progress_commits next)%N in
    _ ← check Overflow (bool_decide (total ≤ u64_max)%N);
    Done (st, followup || needs_followup next, total)) (cs, f0, n0) runs = Done (cs', f, n) →
  statics (cs_systems cs') = statics (cs_systems cs) ∧ settle_epoch cs' = settle_epoch cs ∧
  (f = false → ∀ P, fresh_state P cs → fresh_state P cs').
Proof using H H0.
  intros Hruns. revert cs f0 n0. induction Hruns as [|run runs [Hq Hu] _ IH]; intros cs f0 n0 Hok; cbn [fold_result].
  { by intros [= <- _ _]. }
  intros ([[cs1 f1] n1] & Hone & Hrest)%bind_Done. apply bind_Done in Hone as ([cs2 p] & Hc & Hone).
  apply bind_Done in Hone as ([] & _ & [= -> <- <-]).
  destruct (commit_state_aux _ _ _ _ _ _ Hok Hq Hc) as (Hok1 & _ & Hr & _).
  destruct (commit_fresh _ _ _ _ _ Hok Hq Hc) as (_ & _ & Hs & He & Hf).
  destruct (IH _ _ _ Hok1 Hrest) as (Hs' & He' & Hf'). split_and!; [congruence..|]. intros Hff P Hfr. apply Hf'; [done|].
  assert (f0 || needs_followup p = false) as [_ Hn]%orb_false_iff.
  { revert Hrest Hff. clear. generalize (f0 || needs_followup p). revert cs1. generalize (n0 + progress_commits p)%N.
    induction runs as [|run runs IH]; intros m cs1 g; cbn [fold_result]; [by intros [= _ <- _]|].
    intros ([[cs2 f2] n2] & Hone & Hrest)%bind_Done Hff. apply bind_Done in Hone as ([cs3 q] & _ & Hone).
    apply bind_Done in Hone as ([] & _ & [= -> <- <-]). apply IH in Hrest; [|done]. by apply orb_false_iff in Hrest as [? _]. }
  apply Hf; [by apply Hr|by rewrite Hu; intros o ?%elem_of_nil|done].
Qed.

Lemma heal_keeps enabled en attempts en' attempts' healed :
  heal_stale_ambient enabled en attempts = Done (en', attempts', healed) →
  safe en en' ∧ (healed = false → en' = en ∧ (enabled = false ∨ ∀ P, fresh_state P (commit en))).
Proof using H H0.
  intros Hh. split.
  - apply safe_calm; [by eapply heal_calm|]. intros _. revert Hh. unfold heal_stale_ambient.
    destruct enabled; [simpl|by intros [= <- _ _]]. case_bool_decide; [by intros [= <- _ _]|].
    intros ([cs at'] & Hf & [= <- _ _])%bind_Done. unfold sys. simpl. revert Hf.
    apply (fold_result_inv (λ p, statics (cs_systems p.1) = statics (cs_systems (commit en)))); [|done].
    intros [c a] o [c' a'] _ Hc Hstep. unfold heal_one in Hstep. apply bind_Done in Hstep as ([] & _ & Hstep).
    apply bind_Done in Hstep as (systems & Hf%force_owner_forced%forced_statics & [= <- _]). simpl in *. congruence.
  - intros ->. destruct enabled; [|unfold heal_stale_ambient in Hh; injection Hh as <- _; auto].
    pose proof (heal_exact en attempts) as He. rewrite Hh in He. destruct He as [Hiff _].
    split; [|right; intros P; apply no_victim_fresh; intros o Ho; assert (false = true) by (apply Hiff; eauto); done].
    unfold heal_stale_ambient in Hh. simpl in Hh. case_bool_decide; [by injection Hh as <- _|].
    by apply bind_Done in Hh as ([cs at'] & _ & [= _ _ _]).
Qed.

Lemma settle_exit_keeps en watermark en' out :
  ('(en, promoted) ← Done (promote_deferred_inputs en watermark);
   if promoted : bool then Done (en, SettleAgain) else en ← refresh_settled_snapshot en; Done (en, SettleReturn)) = Done (en', out) →
  safe en en'.
Proof using H H0.
  intros ([en1 promoted] & [= Hp] & Hr)%bind_Done. apply promote_keeps in Hp as [Hs _].
  destruct promoted; [by injection Hr as <- _|]. apply bind_Done in Hr as (en2 & [_ Hs2]%refresh_keeps & [= <- _]).
  by eapply safe_trans.
Qed.

Lemma head_safe en watermark en' out : settle_head en watermark = Done (en', out) → safe en en'.
Proof using H H0.
  unfold settle_head. destruct (bowl_is_settled en); [|by intros [= <- _]; apply safe_refl].
  destruct (promote_deferred_inputs en watermark) as [en1 promoted] eqn:Hp. intros Hr.
  eapply settle_exit_keeps. rewrite Hp. exact Hr.
Qed.

Lemma check_safe en watermark en' out : settle_check en watermark = Done (en', out) → safe en en'.
Proof using H H0.
  unfold settle_check. destruct (_ && bool_decide (revision _ = _)); [|by intros [= <- _]; apply safe_refl].
  destruct (promote_deferred_inputs en watermark) as [en1 promoted] eqn:Hp. intros Hr.
  eapply settle_exit_keeps. rewrite Hp. exact Hr.
Qed.

Lemma finish_keeps en watermark en' out woken :
  settle_finish en watermark = Done (en', out, woken) →
  safe en en' ∧ world en' = world en ∧ cs_memo (commit en') = cs_memo (commit en).
Proof using H H0.
  unfold settle_finish. destruct (promote_deferred_inputs en watermark) as [en1 promoted] eqn:Hp.
  apply promote_keeps in Hp as (Hs & Hw & Hm & Hy & _). destruct promoted; [by intros [= <- _ _]|].
  intros (en2 & Hpub & Hr)%bind_Done. apply bind_Done in Hr as (en3 & [Ec Hs3]%refresh_keeps & [= <- _ _]).
  assert (safe en1 en2 ∧ world en2 = world en1 ∧ cs_memo (commit en2) = cs_memo (commit en1)) as (Hs2 & Hw2 & Hm2).
  { split; [apply safe_calm; [by apply publish_calm|intros _]|]; revert Hpub; unfold publish_settled_revision;
      (case_bool_decide; [by intros [= <-]|]); by intros (n & _ & [= <-])%bind_Done. }
  unfold world in *. simpl. rewrite Ec. split_and!; [|congruence..].
  eapply safe_trans; [exact Hs|]. eapply safe_trans; [exact Hs2|]. eapply safe_trans; [exact Hs3|].
  intros [Hok (Hc1 & Hc2 & Hc3) Hq]. split; [|done]. split; [done| |done]. by split_and!.
Qed.

Context `{!SettleRunLaws}.

Definition settle_ok (l : list (Phase * list TypeId)) st : Prop :=
  sound (sl_engine st) ∧ sys (sl_engine st) = l ∧ mode_ok st.

(** A section after which nothing is promised yet. *)
Lemma ok_free l st en m attempts budget others :
  settle_ok l st → safe (sl_engine st) en → (∀ en a b others, mode_ok (MkSettling en a b m others)) →
  settle_ok l (MkSettling en attempts budget m others).
Proof. intros (S & <- & _) Hs Hm. destruct (Hs S). split_and!; [done..|]. apply Hm. Qed.

Lemma next_mode_free out en a b others : mode_ok (MkSettling en a b (next_mode out) others).
Proof. by destruct out as [| | |[]]. Qed.

(** The driver's memo stays fresh, apart from what others do not leave alone. *)
Lemma fresh_other others en en' memo :
  sys en' = sys en → fresh_with others en memo → fresh_with ((en, en') :: others) en' memo.
Proof.
  intros Hs Hf o m p views ty [(Hw & _ & He) Ha]%Forall_cons. rewrite Hw, He, Hs. by apply Hf.
Qed.

Lemma fresh_other_memo others en en' :
  sys en' = sys en → fresh_with others en (cs_memo (commit en)) →
  fresh_with ((en, en') :: others) en' (cs_memo (commit en')).
Proof.
  intros Hs Hf o m p views ty Ha Hm. pose proof Ha as [(_ & [Hsame|Hgone] & _) _]%Forall_cons; [|congruence].
  rewrite Hsame in Hm. revert Ha Hm. by apply (fresh_other others en en' (cs_memo (commit en)) Hs Hf).
Qed.

Lemma interfere_ok l st en : settle_ok l st → (∀ closed, sl_mode st ≠ Returned closed) → interferes (sl_engine st) en →
  settle_ok l (MkSettling en (sl_attempts st) (sl_budget st) (sl_mode st) ((sl_engine st, en) :: sl_others st)).
Proof using H H0.
  intros (S & Hl & Hm) Hret [Hsafe Hrev]. destruct (Hsafe S) as [S' Hs']. specialize (Hrev S).
  split_and!; [done|simpl; congruence|]. unfold mode_ok in *. simpl in *.
  destruct (sl_mode st) as [| | | | | | | | | | | | | | |[closed|]]; try done; try by apply fresh_other_memo.
  - by apply fresh_other.
  - destruct Hm as [? ?]. split; [by apply fresh_other|done].
  - intros Hf. apply fresh_other; auto.
  - destruct Hm as [? ?]. split; [by apply fresh_other|lia].
  - destruct Hm as (Hex & Hle & Hf). rewrite Hs'. split_and!; [done|lia|]. intros Hb. apply fresh_other; [done|]. apply Hf. lia.
  - exfalso. by apply (Hret (Some closed)).
Qed.

(** A section that keeps the state safe, and what its next mode must know. *)
Ltac moves_on Hs S := destruct (Hs S) as [S' Hs']; split_and!; [done|by etrans|].

Lemma settle_step_ok l watermark st st' :
  registered_with l → settle_step watermark st st' →
  settle_ok l st → settle_ok l st'.
Proof using All.
  intros [Hheal Hsettle] Hstep Hok. pose proof Hok as (S & Hl & Hm).
  destruct Hstep as [st en out Hmode Hr|st target Hmode Hle|st target Hmode Hle|st target en Hmode Hr|
    st target en1 ev startup en2 ev2 budget r Hmode Hr Hgen Hph|st target id Hmode|st en out Hmode Hr|
    st again en attempts healed Hmode Hr|st Hmode Hnil|st Hmode Hne|st memo en snapshot runs Hmode Hr Hruns|
    st memo runs en memo' followup commits budget Hmode Hr Hb|st memo followup Hmode|st Hmode Hnil|st Hmode Hne|
    st memo before en snapshot rows Hmode Hr Hrows|st memo before l1 run l2 en memo' Hmode Hr|st memo before Hmode|
    st Hmode|st Hmode|st en out woken Hmode Hr|st en Hret Hi]; unfold go.
  all: unfold mode_ok in Hm; try rewrite Hmode in Hm.
  - apply ok_free with st; [done|by eapply head_safe|]. intros. apply next_mode_free.
  - apply ok_free with st; [done|apply safe_refl|done].
  - apply ok_free with st; [done|apply safe_refl|done].
  - apply ok_free with st; [done|by eapply start_safe|done].
  - apply ok_free with st; [done| |done]. eapply safe_trans; [by eapply start_safe|].
    eapply safe_trans with en2; [|by apply safe_frame].
    assert (∀ x y, rtc (generation_step row_counts plan_runs workers dispatch_maximum reg) x y → safe x.1.1.1 y.1.1.1) as Hg;
      [|by apply Hg in Hgen].
    clear. intros x y Hs. induction Hs as [x|x1 x2 x3 H12 _ IH]; [apply safe_refl|].
    eapply safe_trans; [by eapply generation_step_safe|done].
  - apply ok_free with st; [done| |done]. unfold wait_for_generation. case_bool_decide; [apply safe_refl|by apply safe_frame].
  - apply ok_free with st; [done|by eapply check_safe|]. intros. apply next_mode_free.
  - apply heal_keeps in Hr as [Hs Hfr]. destruct healed; [by apply ok_free with st|].
    destruct (Hfr eq_refl) as [-> Hor]. split_and!; [done..|].
    assert (fresh_with [] (sl_engine st) (cs_memo (commit (sl_engine st)))) as Hf.
    { destruct Hor as [Hoff|Hfr']; [|apply Hfr']. intros o m p views ty _ _ _ Hl' Hp Hty. exfalso. rewrite Hl in Hl'.
      destruct (Hheal _ _ _ Hoff Hl') as [?| ->]; [done|]. by apply elem_of_nil in Hty. }
    by destruct again.
  - by split_and!.
  - assert (safe (sl_engine st) (take_memo (sl_engine st)).1) as Hs by by apply safe_frame. destruct (Hs S) as [S' Hs'].
    split_and!; [done|by etrans|exact Hm].
  - apply snapshot_keeps in Hr as [Ec Hs]. moves_on Hs S. unfold mode_ok, fresh_with, world in *. simpl. rewrite Hs', Ec. split; [done|].
    apply Forall_forall. intros run Hin. apply list_elem_of_lookup in Hin as [i Hi].
    destruct (Forall2_lookup_r _ _ _ _ _ Hruns Hi) as (id & _ & Hrun). by eapply hook_run_ok.
  - destruct Hm as [Hf Hq]. unfold commit_hooks in Hr. apply bind_Done in Hr as ([[cs f] n] & Hrun & [= <- <- <- <-]).
    assert (state_ok (set_memo memo (commit (sl_engine st)))) as Hcs by by apply (state_ok_frame (commit (sl_engine st))), S.
    pose proof (hooks_fresh _ _ _ _ _ _ _ Hq Hcs Hrun) as (Hs & He & Hfr).
    assert (safe (sl_engine st) (set_commit (set_memo (cs_memo (commit (sl_engine st))) cs) (sl_engine st))) as Hsafe.
    { apply safe_calm; [|intros _; exact Hs]. eapply (hooks_calm row_counts _ memo runs _ (cs_memo cs) f n).
      - eapply Forall_impl; [exact Hq|]. by intros ? [? _].
      - unfold commit_hooks. by rewrite Hrun. }
    destruct (Hsafe S) as [S' Hs']. split_and!; [done|by etrans|]. unfold mode_ok. simpl. intros ->. by apply Hfr.
  - assert (safe (sl_engine st) (put_memo memo (sl_engine st))) as Hs by by apply safe_frame. moves_on Hs S. unfold mode_ok. simpl. destruct followup; [done|]. by apply Hm.
  - by split_and!.
  - assert (safe (sl_engine st) (take_memo (sl_engine st)).1) as Hs by by apply safe_frame. moves_on Hs S. by split.
  - apply snapshot_keeps in Hr as [Ec Hs]. destruct (Hs S) as [S' Hs']. destruct Hm as [Hf Hb].
    split_and!; [done|by etrans|]. unfold mode_ok, fresh_with, world in *. simpl. rewrite Hs', Ec.
    split_and!; [|by rewrite Hb|done]. apply Forall_concat, Forall_forall. intros runs Hin.
    apply list_elem_of_lookup in Hin as [i Hi].
    destruct (Forall2_lookup_r _ _ _ _ _ Hrows Hi) as (id & Hid%list_elem_of_lookup_2 & Hrun). eapply Forall_impl; [by eapply settle_rows_ok|].
    intros run [Hq Ho]. split; [done|]. intros o Hino. rewrite Forall_forall in Ho. rewrite (Ho o Hino), Hl. by apply Hsettle.
  - destruct Hm as (Hex & Hle & Hf). apply Forall_app in Hex as [Hex1 [[Hq Hu] Hex2]%Forall_cons].
    pose proof (commit_settle_calm _ _ _ _ _ _ Hq Hr) as Hc. unfold commit_settle in Hr.
    apply bind_Done in Hr as ([cs p] & Hrun & [= <- <-]).
    assert (state_ok (set_memo memo (commit (sl_engine st)))) as Hcs by by apply (state_ok_frame (commit (sl_engine st))), S.
    destruct (commit_fresh _ _ _ _ _ Hcs Hq Hrun) as (_ & E & Hs & He & Hfr).
    destruct (safe_calm _ _ Hc (λ _, Hs) S) as [S' Hs']. split_and!; [done|by etrans|]. unfold mode_ok. simpl.
    rewrite Hs'. pose proof (ev_revision _ _ E) as Hmono. unfold world in *. simpl in *.
    split_and!; [by apply Forall_app|lia|]. intros Hb. apply Hfr; [lia|exact Hu|]. apply Hf. lia.
  - assert (safe (sl_engine st) (put_memo memo (sl_engine st))) as Hs by by apply safe_frame. moves_on Hs S. unfold mode_ok. simpl. case_bool_decide; [|done]. by apply Hm.
  - split_and!; [done..|]. unfold mode_ok. simpl. by destruct (normal_clean _).
  - apply ok_free with st; [done|by apply safe_frame|done].
  - apply finish_keeps in Hr as (Hs & Hw & Hmm). moves_on Hs S. unfold mode_ok. simpl. destruct out; try done. simpl. rewrite Hw, Hmm, Hs'. exact Hm.
  - by apply interfere_ok.
Qed.

Lemma settle_from_ok limit en watermark st :
  sound en → registered_with (sys en) → settle_from limit en watermark st → settle_ok (sys en) st.
Proof using All.
  intros S Hreg Hfrom. destruct Hfrom as [en' Hfast|en' st Hfast Hsteps].
  - unfold settle_fast in Hfast. destruct (_ && _); [|done].
    apply bind_Done in Hfast as (en1 & [_ Hs]%refresh_keeps & [= <-]). destruct (Hs S). by split_and!.
  - assert (en' = en) as ->.
    { unfold settle_fast in Hfast. destruct (_ && _); [by apply bind_Done in Hfast as (? & _ & [= _])|by injection Hfast]. }
    assert (settle_ok (sys en) (MkSettling (epoch_enter en).1 ∅ (budget_new limit) AtHead [])) as Hok.
    { split_and!; [by destruct S|done|done]. }
    revert Hok. generalize (sys en) Hreg. clear Hfast Hreg S. intros l Hreg.
    induction Hsteps as [st|st1 st2 st3 H12 _ IH]; [done|]. intros Hok. apply IH. by eapply settle_step_ok.
Qed.

(** C25: a settle that completes leaves no stale view behind.  Whatever the
    generations, the hooks, the settle phase and the other callers did, when the
    settle returns through its completion path, every memo entry committed during
    the healing epoch it closes belongs to the settle phase or to an invocation
    whose viewed stores have not moved since it was planned; the state it leaves
    behind the lock is sound and the systems are what they were registered as.
    Other callers may act between any two sections, mutators included; the
    statement is about the entries and the viewed stores that they left alone
    since the settle last found nothing to heal (a mutator admitted at a boundary
    after that moves a store under a viewer, and the next settle heals it). *)
Theorem settled_views_fresh limit en watermark st closed :
  sound en → registered_with (sys en) → settle_from limit en watermark st → sl_mode st = Returned (Some closed) →
  sound (sl_engine st) ∧ sys (sl_engine st) = sys en ∧
  ∀ owner entry s ty,
    left_alone (sl_others st) owner ty →
    cs_memo (commit (sl_engine st)) !! owner = Some entry → memo_epoch entry = closed →
    cs_systems (commit (sl_engine st)) !! system owner = Some s → sys_phase s ≠ Settle → ty ∈ view_freshness s →
    (store_watermark (world (sl_engine st)) ty ≤ planned_revision entry)%N.
Proof using All.
  intros S Hreg Hfrom Hmode. destruct (settle_from_ok _ _ _ _ S Hreg Hfrom) as (S' & Hl & Hm).
  split_and!; [done..|]. intros owner entry s ty Ha He Hep Hs Hp Hty. unfold mode_ok in Hm. rewrite Hmode in Hm.
  exact (Hm owner entry _ _ ty Ha He Hep (statics_lookup _ _ _ Hs) Hp Hty).
Qed.
End settle.

(** The registry of a built bowl is the one a settle relies on. *)
Lemma built_registered `{ComponentTypes} `{HashOrder} has_hook shapes steps en reg :
  build has_hook shapes steps = Done (en, reg) → registered_with reg (sys en).
Proof.
  intros Hb. pose proof (build_exact has_hook shapes steps) as He. cbv zeta in He. rewrite Hb in He.
  destruct He as (Hs & _ & Hh & _ & _ & Hsettle & _). unfold sys, statics. rewrite Hs. split.
  - intros i p views Hoff Hl. rewrite list_lookup_fmap in Hl. destruct (_ !! i) as [s|] eqn:Hi; [|done]. injection Hl as <- <-.
    destruct (needs_healing s) eqn:Hn.
    + exfalso. assert (ambient_healing_enabled reg = true) as Hon by (apply Hh; exists s; split; [by eapply list_elem_of_lookup_2|done]).
      by rewrite Hon in Hoff.
    + unfold needs_healing in Hn. apply andb_false_iff in Hn as [Hn|Hn]; apply negb_false_iff, bool_decide_eq_true in Hn; auto.
  - intros i Hi. apply Hsettle in Hi as (s & Hi & Hp). exists (view_freshness s). by rewrite list_lookup_fmap, Hi, <-Hp.
Qed.

(** ** A concrete settle

    A viewing system with a settled hook, and a system of the settle phase.  An
    insert waits; the settle runs the generation that applies it, heals nothing,
    runs the hook and the settle phase, and completes. *)
Definition demo_viewer : BoxedSystem :=
  MkSystem Evaluate [] [ty_num] [] [] (Some []) (Some [ty_num]) u64_max true false u64_max 0 [].
Definition demo_reaper : BoxedSystem :=
  MkSystem Settle [] [] [] [] (Some []) (Some [ty_num]) u64_max true false u64_max 0 [].
Definition demo_steps : list BuildStep := [StepSystem demo_viewer; StepSystem demo_reaper].
Definition demo_bowl : Engine * Registry :=
  run (engine_new, MkRegistry false 0 [] []) (build (λ id, bool_decide (id = 0)) demo_shapes demo_steps).
Abbreviation demo_reg := (demo_bowl.2).

#[local] Instance demo_runs : SettleRuns := {
  hook_run id w memo out := out = run_settled w (MkOutput (Invocation id []) queue_default) (MkRun true [] [] []);
  settle_rows id w memo runs := runs = [MkRun true [] [(Invocation id [], MkMemo [] (revision w) 0)] []];
}.
#[local] Instance demo_run_laws : SettleRunLaws.
Proof.
  split.
  - intros id w memo out ->. unfold run_settled. destruct (_ && _); (split; [|done]).
    + constructor; [by intros ? [=]|constructor].
    + constructor.
  - intros id w memo runs ->. constructor; [|constructor]. split; [constructor|]. constructor; [done|constructor].
Qed.

(** The viewer plans row 7, its run changes nothing. *)
Definition demo_view_runs (id : SystemId) (w : World) (memo : gmap SystemInvocation MemoEntry)
    (hint : option (list Entity)) : list (SystemInvocation * list Access) :=
  if bool_decide (id = 0) then [(Invocation 0 [7%N], [access_read ty_num 7])] else [].
Definition demo_view_run : SystemRun := MkRun true [] [(Invocation 0 [7%N], MkMemo [] 1 0)] [].

Abbreviation demo_settle := (settle_step nobody_matches demo_view_runs None 16 demo_reg).
Abbreviation demo_phase := (phase_step nobody_matches demo_view_runs None 16).
Abbreviation demo_generation := (generation_step nobody_matches demo_view_runs None 16 demo_reg).

Definition demo_waiting : Engine := (demo_stage (conf_of demo_bowl.1) 7 5).1.1.
Definition demo_entered : Settling := MkSettling (epoch_enter demo_waiting).1 ∅ (budget_new NoLimit) AtHead [].
Definition demo_opened : Engine * option (Evaluation * bool) :=
  run (sl_engine demo_entered, None) (start_evaluation (sl_engine demo_entered)).
Definition demo_view_ev : Evaluation := from_option fst (MkEvaluation 0 ∅) demo_opened.2.

(** The generation: the phases Startup and Complete have no system. *)
Definition demo_r0 : RunState := run_begin true.
Definition demo_r1 : RunState := after_phase demo_r0 (Completed false).
Definition demo_q0 : PhaseState := phase_begin demo_reg Evaluate true demo_opened.1 demo_view_ev (budget_new NoLimit).
Definition demo_q1 : PhaseState := run demo_q0 (run_wave demo_view_runs None 16 Evaluate demo_q0).
Definition demo_view_batch : list (RunId * SystemRun) := (λ id, (id, demo_view_run)) <$> in_flight demo_q1.
Definition demo_viewed : PhaseState * bool * bool :=
  run (demo_q1, false, false) (finish_batch nobody_matches Evaluate demo_q1 demo_view_batch).
Definition demo_q2 : PhaseState :=
  with_mode Looping (with_plan (demo_viewed.1.2 || demo_viewed.2 || deferred_conflicts demo_viewed.1.1)
                       (deferred_conflicts demo_viewed.1.1) demo_viewed.1.1).
Definition demo_q3 : PhaseState := with_mode (Awaiting true) demo_q2.
Definition demo_q4 : PhaseState := with_mode (Finished (Completed false)) demo_q3.
Definition demo_r2 : RunState := after_phase demo_r1 (Completed false).

Lemma demo_evaluate : rtc (demo_phase Evaluate true) demo_q0 demo_q4.
Proof.
  assert (run_wave demo_view_runs None 16 Evaluate demo_q0 = Done demo_q1) as Hw by (vm_compute; reflexivity).
  assert (finish_batch nobody_matches Evaluate demo_q1 demo_view_batch = Done (demo_viewed.1.1, demo_viewed.1.2, demo_viewed.2))
    as Hb by (vm_compute; reflexivity).
  assert (ph_mode demo_q1 = Awaiting true) as Hm1 by (vm_compute; reflexivity).
  assert (ph_mode demo_q2 = Looping ∧ preempting true demo_q2 = false ∧ ph_needs_plan demo_q2 = false ∧
    preempting true demo_q3 = false ∧ in_flight demo_q3 = [] ∧ phase_changed demo_q3 = false) as (Hm2 & Hp2 & Hn2 & Hp3 & Hf3 & Hc3)
    by (split_and!; vm_compute; reflexivity).
  eapply rtc_l; [apply ps_wave; [vm_compute; reflexivity..|exact Hw]|].
  eapply rtc_l; [eapply (ps_batch nobody_matches demo_view_runs None 16 Evaluate true demo_q1 true demo_view_batch _ _ _ Hm1);
                 [| | |exact Hb]|].
  - vm_compute. discriminate.
  - vm_compute. constructor; [by intros ?%elem_of_nil|constructor].
  - apply Forall_fmap, Forall_forall. intros id Hid. split; [exact Hid|constructor].
  - eapply rtc_l; [exact (ps_skip nobody_matches demo_view_runs None 16 Evaluate true demo_q2 Hm2 Hp2 Hn2)|].
    pose proof (ps_drained nobody_matches demo_view_runs None 16 Evaluate true demo_q3 true eq_refl Hp3 Hf3) as Hd.
    rewrite Hc3 in Hd. apply rtc_once. exact Hd.
Qed.

(** A phase without systems changes nothing. *)
Lemma idle_phase_step `{ComponentTypes} `{HashOrder} row_counts plan_runs workers maximum reg (en : Engine) ev b r phase rest :
  rs_phases r = phase :: rest → N.land (registered_phases reg) (phase_bit phase) = 0%N →
  preempt_waiters (boundary en) = 0%N →
  generation_step row_counts plan_runs workers maximum reg (en, ev, b, r) (en, ev, b, after_phase r (Completed false)).
Proof.
  intros Hph Hbit Hw. set (st := MkPhase en ev (reservations_new (st_registry (stores (world en)))) [] [] true false false b Looping since_planned).
  assert (phase_begin reg phase (allow_preempt r) en ev b = with_mode (Finished (Completed false)) st) as Hb.
  { unfold phase_begin. rewrite bool_decide_eq_true_2 by done. unfold preempting. simpl. rewrite Hw.
    rewrite bool_decide_eq_false_2 by lia. by rewrite andb_false_r. }
  change en with (ph_engine (with_mode (Finished (Completed false)) st)) at 2.
  change ev with (ph_eval (with_mode (Finished (Completed false)) st)) at 2.
  change b with (ph_budget (with_mode (Finished (Completed false)) st)) at 2.
  eapply (rs_phase row_counts plan_runs workers maximum reg en ev b r phase rest _ (Completed false) Hph); [|done].
  rewrite Hb. apply rtc_refl.
Qed.

Lemma demo_whole_generation :
  rtc demo_generation (demo_opened.1, demo_view_ev, budget_new NoLimit, demo_r0)
    (ph_engine demo_q4, ph_eval demo_q4, ph_budget demo_q4, after_phase demo_r2 (Completed false)).
Proof.
  eapply rtc_l; [apply (idle_phase_step _ _ _ _ _ _ _ _ _ Startup [Evaluate; Complete]); vm_compute; reflexivity|].
  eapply rtc_l; [exact (rs_phase nobody_matches demo_view_runs None 16 demo_reg demo_opened.1 demo_view_ev (budget_new NoLimit)
      demo_r1 Evaluate [Complete] demo_q4 (Completed false) eq_refl demo_evaluate eq_refl)|].
  apply rtc_once, (idle_phase_step _ _ _ _ _ _ _ _ _ Complete []); vm_compute; reflexivity.
Qed.

(** The sections of the settle. *)
Definition demo_watermark : N := (epoch_enter demo_waiting).2.
Definition demo_s3 : Settling :=
  MkSettling (complete_evaluation (ph_engine demo_q4) (ph_eval demo_q4) (rs_changed (after_phase demo_r2 (Completed false)))).1
    ∅ (ph_budget demo_q4) (Evaluating 1) [].
Definition demo_checked : Engine * SettleStep := run (sl_engine demo_s3, SettleAgain) (settle_check (sl_engine demo_s3) demo_watermark).
Definition demo_taken : Engine * gmap SystemInvocation MemoEntry := take_memo demo_checked.1.
Definition demo_hook_snap : Engine * World := run (demo_taken.1, world demo_taken.1) (snapshot_locked demo_taken.1).
Definition demo_hook_runs : list SystemRun :=
  [run_settled demo_hook_snap.2 (MkOutput (Invocation 0 []) queue_default) (MkRun true [] [] [])].
Definition demo_hooked : Engine * gmap SystemInvocation MemoEntry * bool * N :=
  run (demo_taken.1, ∅, true, 0%N) (commit_hooks nobody_matches demo_hook_snap.1 demo_taken.2 demo_hook_runs).
Definition demo_put : Engine := put_memo demo_hooked.1.1.2 demo_hooked.1.1.1.
Definition demo_taken2 : Engine * gmap SystemInvocation MemoEntry := take_memo demo_put.
Definition demo_settle_snap : Engine * World := run (demo_taken2.1, world demo_taken2.1) (snapshot_locked demo_taken2.1).
Definition demo_reap : SystemRun := MkRun true [] [(Invocation 1 [], MkMemo [] (revision demo_settle_snap.2) 0)] [].
Definition demo_reaped : Engine * gmap SystemInvocation MemoEntry :=
  run demo_taken2 (commit_settle nobody_matches demo_settle_snap.1 demo_taken2.2 demo_reap).
Definition demo_put2 : Engine := put_memo demo_reaped.2 demo_reaped.1.
Definition demo_completed : Engine * SettleStep * list CallerId :=
  run (demo_put2, SettleAgain, []) (settle_finish demo_put2 demo_watermark).
Definition demo_settled : Settling := MkSettling demo_completed.1.1 ∅ (ph_budget demo_q4) (Returned (Some (settle_epoch (commit demo_reaped.1)))) [].

(** Passes that go straight through. *)
Section passes.
Context `{ComponentTypes} `{HashOrder} `{!SettleRuns}.
Variable row_counts : SystemId → World → nat.
Variable plan_runs : SystemId → World → gmap SystemInvocation MemoEntry → option (list Entity) →
  list (SystemInvocation * list Access).
Variable reg : Registry.
Variable watermark : N.
Variable attempts : gmap SystemInvocation N.
Variable budget : CommitBudget.
Abbreviation step := (settle_step row_counts plan_runs None 16 reg watermark).
Abbreviation at_mode en m := (MkSettling en attempts budget m []).

Lemma pass_generation en target en1 ev startup en2 ev2 b r :
  settle_head en watermark = Done (en, SettleDrive target) →
  ¬ (target ≤ completed_generation (gens en))%N → start_evaluation en = Done (en1, Some (ev, startup)) →
  rtc (generation_step row_counts plan_runs None 16 reg) (en1, ev, budget, run_begin startup) (en2, ev2, b, r) → rs_phases r = [] →
  rtc step (at_mode en AtHead) (MkSettling (complete_evaluation en2 ev2 (rs_changed r)).1 attempts b (Evaluating target) []).
Proof.
  intros Hh Hc Hs Hg Hr. eapply rtc_l; [by eapply ss_head|]. eapply rtc_l; [by apply (ss_incomplete _ _ _ _ _ _ _ target)|].
  apply rtc_once. by eapply ss_generation.
Qed.

Lemma pass_check en target en1 :
  (target ≤ completed_generation (gens en))%N → settle_check en watermark = Done (en1, SettleClean true) →
  heal_stale_ambient (ambient_healing_enabled reg) en1 attempts = Done (en1, attempts, false) →
  rtc step (at_mode en (Evaluating target)) (at_mode en1 HookCheck).
Proof.
  intros Hc Hs Hh. eapply rtc_l; [by apply (ss_complete _ _ _ _ _ _ _ target)|]. eapply rtc_l; [by eapply ss_check|].
  apply rtc_once. exact (ss_heal row_counts plan_runs None 16 reg watermark (at_mode en1 (Healing false)) false _ _ _ eq_refl Hh).
Qed.

Lemma pass_hooks en en1 snap runs en2 memo :
  settled_hooks reg ≠ [] → snapshot_locked (take_memo en).1 = Done (en1, snap) →
  Forall2 (λ id run, hook_run id snap (take_memo en).2 run) (settled_hooks reg) runs →
  commit_hooks row_counts en1 (take_memo en).2 runs = Done (en2, memo, false, 0%N) →
  rtc step (at_mode en HookCheck) (at_mode (put_memo memo en2) SettleCheck).
Proof.
  intros Hk Hs Hr Hc. eapply rtc_l; [by apply ss_hooks|]. eapply rtc_l; [by eapply ss_hook_snapshot|].
  eapply rtc_l; [by eapply ss_hook_commit|]. apply rtc_once.
  exact (ss_hook_done row_counts plan_runs None 16 reg watermark (at_mode en2 (HookDone memo false)) memo false eq_refl).
Qed.

Lemma pass_settle en en1 snap run en2 memo en3 woken :
  settle_systems reg ≠ [] → snapshot_locked (take_memo en).1 = Done (en1, snap) →
  Forall2 (λ id runs, settle_rows id snap (take_memo en).2 runs) (settle_systems reg) [[run]] →
  commit_settle row_counts en1 (take_memo en).2 run = Done (en2, memo) →
  revision (world en2) = revision (world en) → settle_finish (put_memo memo en2) watermark = Done (en3, SettleReturn, woken) →
  rtc step (at_mode en SettleCheck) (at_mode en3 (Returned (Some (settle_epoch (commit en2))))).
Proof.
  intros Hk Hs Hr Hc Hv Hf. eapply rtc_l; [by apply ss_settle|]. eapply rtc_l; [by eapply ss_settle_snapshot|].
  eapply rtc_l; [exact (ss_settle_commit row_counts plan_runs None 16 reg watermark
    (at_mode en1 (SettleRunning (take_memo en).2 (revision (world en)) [run])) _ _ [] run [] _ _ eq_refl Hc)|].
  eapply rtc_l; [by eapply ss_settle_done|]. cbn [sl_engine go]. rewrite bool_decide_eq_true_2 by done.
  apply rtc_once. exact (ss_finish row_counts plan_runs None 16 reg watermark (at_mode (put_memo memo en2) Finishing) _ _ _ eq_refl Hf).
Qed.
End passes.

Lemma demo_drive : rtc (demo_settle demo_watermark) demo_entered demo_s3.
Proof.
  eapply (pass_generation _ _ _ _ _ _ _ 1 demo_opened.1 demo_view_ev true); [vm_compute; reflexivity| | |exact demo_whole_generation|reflexivity].
  - intros Hle. vm_compute in Hle. by apply Hle.
  - vm_compute. reflexivity.
Qed.

Lemma demo_converge : rtc (demo_settle demo_watermark) demo_s3 demo_settled.
Proof.
  etrans; [apply (pass_check _ _ _ _ _ _ _ 1 demo_checked.1); [vm_compute; discriminate|vm_compute; reflexivity..]|].
  etrans; [apply (pass_hooks _ _ _ _ _ _ _ demo_hook_snap.1 demo_hook_snap.2 demo_hook_runs demo_hooked.1.1.1 demo_hooked.1.1.2)|].
  - vm_compute. discriminate.
  - vm_compute. reflexivity.
  - assert (settled_hooks demo_reg = [0]) as -> by (vm_compute; reflexivity). by repeat constructor.
  - vm_compute. reflexivity.
  - unfold demo_settled. apply (pass_settle _ _ _ _ _ _ (put_memo demo_hooked.1.1.2 demo_hooked.1.1.1) demo_settle_snap.1 demo_settle_snap.2 demo_reap demo_reaped.1 demo_reaped.2 demo_completed.1.1 demo_completed.2).
    + vm_compute. discriminate.
    + vm_compute. reflexivity.
    + assert (settle_systems demo_reg = [1]) as -> by (vm_compute; reflexivity). by repeat constructor.
    + vm_compute. reflexivity.
    + vm_compute. reflexivity.
    + vm_compute. reflexivity.
Qed.

Lemma demo_bowl_eq : build (λ id, bool_decide (id = 0)) demo_shapes demo_steps = Done (demo_bowl.1, demo_bowl.2).
Proof. vm_compute. reflexivity. Qed.

Lemma demo_waiting_sound : sound demo_waiting.
Proof.
  pose proof (build_ok _ _ _ _ _ demo_bowl_eq) as Hok.
  assert (engine_step nobody_matches (conf_of demo_bowl.1) (demo_staged (conf_of demo_bowl.1) 7 5)) as Hs
    by (apply demo_staged_step; vm_compute; reflexivity).
  pose proof (engine_step_ok nobody_matches _ _ Hok Hs) as [_ Hi _ _ Hst Hsn _].
  assert (c_engine (demo_staged (conf_of demo_bowl.1) 7 5) = demo_waiting) as Heq.
  { unfold demo_staged, demo_waiting. destruct (demo_stage (conf_of demo_bowl.1) 7 5) as [[en e] s]. by destruct s. }
  unfold conf_inputs in Hi. rewrite Heq in *. destruct Hi as [Hq Hd _ _ _ _ _ _]. by split.
Qed.

(** The viewer's entry was committed in the epoch the settle closes. *)
Lemma settled_views_fresh_witness :
  sl_mode demo_settled = Returned (Some 0%N) ∧
  memo_epoch <$> cs_memo (commit (sl_engine demo_settled)) !! Invocation 0 [7%N] = Some 0%N ∧
  (store_watermark (world (sl_engine demo_settled)) ty_num ≤ 1)%N.
Proof.
  assert (sl_mode demo_settled = Returned (Some 0%N)) as Hm by (vm_compute; reflexivity).
  split; [exact Hm|]. split; [vm_compute; reflexivity|].
  assert (registered_with demo_reg (sys demo_waiting)) as Hreg.
  { assert (sys demo_waiting = sys demo_bowl.1) as -> by (vm_compute; reflexivity). exact (built_registered _ _ _ _ _ demo_bowl_eq). }
  assert (settle_from nobody_matches demo_view_runs None 16 demo_reg NoLimit demo_waiting demo_watermark demo_settled) as Hfrom.
  { apply (sf_epoch nobody_matches demo_view_runs None 16 demo_reg NoLimit demo_waiting demo_waiting demo_settled); [vm_compute; reflexivity|].
    etrans; [exact demo_drive|exact demo_converge]. }
  destruct (settled_views_fresh nobody_matches demo_view_runs None 16 demo_reg NoLimit demo_waiting demo_watermark demo_settled 0
              demo_waiting_sound Hreg Hfrom Hm) as (_ & _ & Hf).
  destruct (cs_memo (commit (sl_engine demo_settled)) !! Invocation 0 [7%N]) as [entry|] eqn:He; [|exfalso; vm_compute in He; discriminate].
  destruct (cs_systems (commit (sl_engine demo_settled)) !! 0) as [s|] eqn:Hs; [|exfalso; vm_compute in Hs; discriminate].
  assert (planned_revision entry = 1%N ∧ memo_epoch entry = 0%N) as [Hp Hep] by (vm_compute in He; injection He as <-; split; reflexivity).
  assert (sys_phase s ≠ Settle ∧ ty_num ∈ view_freshness s) as [Hph Hty].
  { vm_compute in Hs. injection Hs as <-. split; [discriminate|left]. }
  rewrite <-Hp. refine (Hf _ entry s ty_num _ He Hep Hs Hph Hty). constructor.
Defined.
