(* ===== verification/Exec.v ===== *)
(** * Running planned rows ([system.rs], [system/synchronous.rs])

    A planned row becomes a run: its parameters are fetched, the user function
    runs on them and on a command buffer, the guards are dropped, and the buffer
    and the planned dependencies become the output and the memo update.  Start,
    completion and settled hooks wrap the rows of a system.  User code is known
    by its effects: the commands it issues and the cells it writes through the
    references it was handed.

    The theorems: a run returns exactly what the row reserved and the body
    issued, and every cell the body wrote belongs to a row the commit
    reconciles, or to a row of a view that reserved the whole store; the streamed and the grouped execution of a system agree; and
    the executables keep the promises the settle driver relies on. *)
From stdpp Require Import base numbers sets gmap fin_maps sorting list.
From S2P Require Import Prelude Locks Access.
From S2P Require Import Components Demo Stores Presence World WorldInv Ownership WorldOps Relations Frame.
From S2P Require Import Commands Query ExternalQuery Deps Planner Commit Params Joins Delta Fetch.
From S2P Require Import Engine EngineInv EngineThms Phase PhaseInv Settle.

Section exec.
Context `{RelationshipLaws} `{HashOrder}.
(** ** Effects of user code *)

Inductive Effect :=
  | DoSpawn (b : list (TypeId * Value))
  | DoRemove (e : Entity)
  | DoInsert (e : Entity) (ty : TypeId) (v : Value)
  | DoRemoveComponent (e : Entity) (ty : TypeId)
  | DoWrite (c : CellId) (v : Value).

(** The cells a [MutRef] among the items refers to; a view hands them out row by
    row while it is iterated. *)
Definition part_mut_cells (i : PartItem) : list CellId := match i with ItMut _ c => [c] | _ => [] end.
Definition query_mut_cells (i : QueryItem) : list CellId :=
  match i with QMut _ c => [c] | QRow _ parts => parts ≫= part_mut_cells | _ => [] end.
Definition view_mut_cells (w : World) (q : QueryParam) (f : QueryFilter) : list CellId :=
  match (rows ← filtered_rows w q f; collect (param_fetch w q) rows) with
  | Done (_, items) => items ≫= query_mut_cells
  | Panic _ => []
  end.
Definition param_mut_cells (w : World) (i : ParamItem) : list CellId :=
  match i with
  | PIQuery q => query_mut_cells q
  | PIOuter (Some q) => query_mut_cells q
  | PIView q f | PITrackedView q f => view_mut_cells w q f
  | _ => []
  end.
Definition mut_cells (w : World) (items : list ParamItem) : list CellId := items ≫= param_mut_cells w.

(** What the borrow checker lets the body do: write where it holds a [MutRef],
    or a view of them; issue commands if it was given a buffer. *)
Definition may_command (items : list ParamItem) : Prop := PICommands ∈ items.
Definition allowed (w : World) (items : list ParamItem) (eff : Effect) : Prop :=
  match eff with DoWrite c _ => c ∈ mut_cells w items | _ => may_command items end.

Implicit Types (w : World) (e : Entity) (ps : list SystemParam) (st : list ParamState) (g : list Taken)
  (items : list ParamItem) (i : PlannedInvocation) (run : SystemRun) (eff : Effect) (effs : list Effect) (sh : Shared).

Variable marker : list FacetPart → TypeId.

(** ** One row *)

(** The allocator and the cells are shared with the live world. *)
Definition do_effect (live : Shared * CommandBuffer) eff : Shared * CommandBuffer :=
  let '(sh, b) := live in
  match eff with
  | DoSpawn bundle =>
      let '(b, allocator, _) := commands_insert b (next_entity sh) bundle in (set_next_entity allocator sh, b)
  | DoRemove e => (sh, commands_remove b e)
  | DoInsert e ty v => (sh, entity_commands_insert b e ty v)
  | DoRemoveComponent e ty => (sh, entity_commands_remove b e ty)
  | DoWrite c v => (MkShared (next_entity sh) (derived_spawns sh) (<[c := v]> (cells sh)) (next_cell sh), b)
  end.

Definition run_body (live : Shared * CommandBuffer) effs : Shared * CommandBuffer := foldl do_effect live effs.

Definition shared_slots sh (owner : SystemInvocation) : list Entity := default [] (derived_spawns sh !! owner).

(** What the run of a row yields: its output, its memo update, its writes. *)
Definition RowRun : Type := SystemOutput * (SystemInvocation * MemoEntry) * list (TypeId * Entity).

(** The run of a planned row whose body has the effects [effs]: [ops] is the
    queue it was planned with, [unique] whether the body kept no handle to its
    buffer. *)
Definition row_run w i (ops : CommandQueue) (unique : bool) sh effs : RowRun * Shared :=
  let '(sh', b) := run_body (sh, with_queue (shared_slots sh (pl_owner i)) ops) effs in
  let '(output, update) := finish_invocation (pl_owner i) (pl_deps i) (revision w) unique b in
  ((output, update, written_rows (pl_access i)), sh').

(** A streamed row is a run of its own. *)
Definition single_run (row : RowRun) : SystemRun :=
  let '(output, update, writes) := row in MkRun true [output] [update] writes.

(** A system function: the effects its body may have on given items. *)
Definition SystemFunction : Type := World → list ParamItem → list Effect → Prop.

(** [plan_rows]: the fetch, the body within what it borrowed, the run. *)
Inductive runs_row w ps (fn : SystemFunction) i : RowRun → Prop :=
  | runs_row_intro ops unique sh g items effs :
      queue_ok ops → pending ops = [] →
      tuple_prepared_fetch w ps (pl_state i) = Done (g, items) → fn w items effs → Forall (allowed w items) effs →
      runs_row w ps fn i (row_run w i ops unique sh effs).1.

(** The command an effect buffers, up to the reserved id of a spawn. *)
Definition same_command eff (op : Operation) : Prop :=
  match eff, op with
  | DoSpawn b, DerivedOp (SpawnCommand b' _) => b' = b
  | DoRemove e, DerivedOp (RemoveEntityCommand e') => e' = e
  | DoInsert e ty v, DerivedOp (InsertCommand e' ty' v') => e' = e ∧ ty' = ty ∧ v' = v
  | DoRemoveComponent e ty, DerivedOp (RemoveComponentCommand e' ty') => e' = e ∧ ty' = ty
  | _, _ => False
  end.
Definition is_command eff : bool := match eff with DoWrite _ _ => false | _ => true end.

(** ** Hooks *)

(** A callback gets a buffer of its own and nothing else. *)
Definition hook_output (id : SystemId) sh (unique : bool) effs : SystemOutput :=
  MkOutput (Invocation id [])
    (commands_take unique (run_body (sh, commands_new (shared_slots sh (Invocation id []))) effs).2).

(** [FunctionSystem::run]. *)
Definition function_run (completed : bool) (rows : list RowRun) : SystemRun :=
  let run := collect_invocations rows in
  MkRun completed (run_outputs run) (run_updates run) (run_writes run).

(** [run] of the hooks around it; [has_work] is the inner system's. *)
Definition hook_run_of (has_work : bool) run (hook : Hook * SystemOutput) : SystemRun :=
  match hook.1 with
  | OnStart =>
      if has_work then MkRun (run_completed run) (hook.2 :: run_outputs run) (run_updates run) (run_writes run) else run
  | OnComplete =>
      if bool_decide (length (run_outputs run) = 0) then run
      else MkRun (run_completed run) (run_outputs run ++ [hook.2]) (run_updates run) (run_writes run)
  | OnSettled => run
  end.
Definition grouped_run (has_work completed : bool) (rows : list RowRun) (hooks : list (Hook * SystemOutput)) : SystemRun :=
  foldl (hook_run_of has_work) (function_run completed rows) hooks.

(** [stream_runs] of the hooks around the rows: the batches and their runs. *)
Definition hook_stream_of (id : SystemId) (rows : list ((SystemInvocation * list Access) * SystemRun)) (hook : Hook * SystemOutput)
    : list ((SystemInvocation * list Access) * SystemRun) :=
  match hook.1 with
  | OnSettled => rows
  | OnStart => if bool_decide (rows = []) then [] else [((Invocation id [], []), on_start_batch hook.2 rows.*2)]
  | OnComplete => if bool_decide (rows = []) then [] else [((Invocation id [], []), on_complete_batch hook.2 rows.*2)]
  end.
Definition streamed_runs (id : SystemId) (planned : list PlannedInvocation) (rows : list RowRun)
    (hooks : list (Hook * SystemOutput)) : list ((SystemInvocation * list Access) * SystemRun) :=
  foldl (hook_stream_of id) (zip (run_rows planned) (single_run <$> rows)) hooks.

(** ** Registered executables *)

Record Executable := MkExecutable {
  ex_params : list SystemParam;
  ex_function : SystemFunction;
  ex_hooks : list (Hook * (list Effect → Prop));
}.

(** The callbacks run, each in its own buffer. *)
Definition hook_outputs (id : SystemId) (x : Executable) (hooks : list (Hook * SystemOutput)) : Prop :=
  Forall2 (λ '(h, cb) '(h', out), h' = h ∧ ∃ sh unique effs, cb effs ∧ out = hook_output id sh unique effs)
    (ex_hooks x) hooks.

(** The runs of a settle system: planned in full, streamed. *)
Definition exec_settle_rows (executables : SystemId → Executable) (id : SystemId) w
    (memo : gmap SystemInvocation MemoEntry) (runs : list SystemRun) : Prop :=
  ∃ completed planned rows hooks,
    plan_invocations marker id w (ex_params (executables id)) memo None = Done (completed, planned) ∧
    Forall2 (runs_row w (ex_params (executables id)) (ex_function (executables id))) planned rows ∧
    hook_outputs id (executables id) hooks ∧ runs = (streamed_runs id planned rows hooks).*2.

(** [OnSettledSystem::run_settled]: the hook outermost, the system inside it run
    as a group. *)
Definition exec_hook_run (executables : SystemId → Executable) (id : SystemId) w
    (memo : gmap SystemInvocation MemoEntry) run : Prop :=
  ∃ completed planned rows hooks settled,
    plan_invocations marker id w (ex_params (executables id)) memo None = Done (completed, planned) ∧
    Forall2 (runs_row w (ex_params (executables id)) (ex_function (executables id))) planned rows ∧
    hook_outputs id (executables id) (hooks ++ [(OnSettled, settled)]) ∧
    run = run_settled w settled (grouped_run (negb (bool_decide (planned = []))) completed rows hooks).

(** ** What a body leaves in its buffer *)

Lemma push_spec (q : CommandQueue) eff (c : CommandOp) :
  queue_ok q → is_command eff = true → same_command eff (DerivedOp c) →
  queue_ok (queue_push q c) ∧ ∃ ops, pending (queue_push q c) = pending q ++ ops ∧
    Forall2 same_command (filter (λ eff, is_command eff = true) [eff]) ops.
Proof.
  intros Hq Hc Hs. destruct (push_operation_spec q (DerivedOp c) Hq) as [Hok Hp]. split; [done|].
  exists [DerivedOp c]. split; [done|]. rewrite filter_cons, decide_True by done. by repeat constructor.
Qed.

Lemma do_effect_spec sh b eff sh' b' :
  queue_ok (buffer_ops b) → do_effect (sh, b) eff = (sh', b') →
  queue_ok (buffer_ops b') ∧ ∃ ops, pending (buffer_ops b') = pending (buffer_ops b) ++ ops ∧
    Forall2 same_command (filter (λ eff, is_command eff = true) [eff]) ops.
Proof.
  intros Hq. destruct eff as [bundle|e|e ty v|e ty|c v]; simpl.
  - unfold commands_insert. destruct (buffer_slots b !! buffer_cursor b) as [e|]; intros [= <- <-]; by apply push_spec.
  - intros [= <- <-]. by apply push_spec.
  - intros [= <- <-]. by apply push_spec.
  - intros [= <- <-]. by apply push_spec.
  - intros [= <- <-]. split; [done|]. exists []. rewrite app_nil_r. split; [done|constructor].
Qed.

Lemma run_body_spec sh b effs sh' b' :
  queue_ok (buffer_ops b) → run_body (sh, b) effs = (sh', b') →
  queue_ok (buffer_ops b') ∧ ∃ ops, pending (buffer_ops b') = pending (buffer_ops b) ++ ops ∧
    Forall2 same_command (filter (λ eff, is_command eff = true) effs) ops.
Proof.
  unfold run_body. revert sh b. induction effs as [|eff effs IH]; intros sh b Hq.
  - intros [= <- <-]. split; [done|]. exists []. rewrite app_nil_r. split; [done|constructor].
  - cbn [foldl]. destruct (do_effect (sh, b) eff) as [sh1 b1] eqn:He. intros Hf.
    destruct (do_effect_spec _ _ _ _ _ Hq He) as (Hq1 & ops1 & Hp1 & F1).
    destruct (IH _ _ Hq1 Hf) as (Hq2 & ops2 & Hp2 & F2). split; [done|]. exists (ops1 ++ ops2).
    rewrite Hp2, Hp1, app_assoc. split; [done|]. change (eff :: effs) with ([eff] ++ effs).
    rewrite filter_app. by apply Forall2_app.
Qed.

Lemma with_queue_spec slots (ops : CommandQueue) :
  queue_ok ops → queue_ok (buffer_ops (with_queue slots ops)) ∧ pending (buffer_ops (with_queue slots ops)) = pending ops.
Proof. intros Hq. exact (buffer_roundtrip_ok false slots ops Hq). Qed.

Lemma commands_take_spec unique (b : CommandBuffer) :
  queue_ok (buffer_ops b) → queue_ok (commands_take unique b) ∧ pending (commands_take unique b) = pending (buffer_ops b).
Proof.
  intros Hq. unfold commands_take, recycle_producer. destruct unique; [|done].
  destruct (queue_returns (buffer_ops b)); [|done]. split; [|by rewrite (pending_get_storage (buffer_ops b))].
  intros ? [= <-]. apply get_storage_ok in Hq as (? & ? & _). split_and!; [done|done|]. by intros ? [= <-].
Qed.

Lemma row_run_spec w i (ops : CommandQueue) unique sh effs :
  queue_ok ops → pending ops = [] →
  ∃ q, (row_run w i ops unique sh effs).1 =
      (MkOutput (pl_owner i) q, (pl_owner i, MkMemo (pl_deps i) (revision w) 0), written_rows (pl_access i)) ∧
    queue_ok q ∧ Forall2 same_command (filter (λ eff, is_command eff = true) effs) (pending q).
Proof.
  intros Hq Hp. unfold row_run. destruct (run_body _ effs) as [sh' b] eqn:Hb.
  destruct (with_queue_spec (shared_slots sh (pl_owner i)) ops Hq) as [Hq0 Hp0].
  destruct (run_body_spec _ _ _ _ _ Hq0 Hb) as (Hq1 & cmds & Hcmds & F). rewrite Hp0, Hp in Hcmds. simpl in Hcmds.
  destruct (commands_take_spec unique b Hq1) as [Hq2 Hp2].
  exists (commands_take unique b). split; [done|]. split; [done|]. by rewrite Hp2, Hcmds.
Qed.

Lemma hook_output_ok id sh unique effs : queue_ok (out_commands (hook_output id sh unique effs)).
Proof.
  unfold hook_output, commands_new. simpl. destruct (run_body _ effs) as [sh' b] eqn:Hb.
  destruct (with_queue_spec (shared_slots sh (Invocation id [])) queue_default queue_default_ok) as [Hq0 _].
  destruct (run_body_spec _ _ _ _ _ Hq0 Hb) as (Hq1 & _). by apply commands_take_spec.
Qed.

(** ** What a body can write *)

Definition write_cells g : list CellId := tk_cell <$> filter (λ t, tk_kind t = Writing) g.

Lemma write_cells_app g g' : write_cells (g ++ g') = write_cells g ++ write_cells g'.
Proof. unfold write_cells. by rewrite filter_app, fmap_app. Qed.

Lemma collect_cells {A B} (fetch : A → result (list Taken * B)) (h : B → list CellId) (l : list A) g bs :
  (∀ a g b, fetch a = Done (g, b) → h b = write_cells g) → collect fetch l = Done (g, bs) → bs ≫= h = write_cells g.
Proof.
  intros Hf. revert g bs. induction l as [|a l IH]; intros g bs; simpl; [by intros [= <- <-]|].
  intros ([g1 b] & Ha & Hr)%bind_Done. apply bind_Done in Hr as ([g2 bs'] & Hl & [= <- <-]).
  rewrite bind_cons, write_cells_app. f_equal; [by eapply Hf|by apply IH].
Qed.

Lemma collect_no_cells {A B} (fetch : A → result (list Taken * B)) (l : list A) g bs :
  (∀ a g b, fetch a = Done (g, b) → write_cells g = []) → collect fetch l = Done (g, bs) → write_cells g = [].
Proof.
  intros Hf Hc. rewrite <-(collect_cells fetch (λ _, []) l g bs); [|intros a g' b Ha; symmetry; by eapply Hf|done].
  clear. by induction bs.
Qed.

Lemma part_cells (get : TypeId → Entity → option ComponentEntry) w part e g item :
  part_fetch_with get w part e = Done (g, item) → part_mut_cells item = write_cells g.
Proof.
  destruct part as [ty|ty|ty|fac|inv edge parts]; simpl.
  - by intros (entry & _ & [= <- <-])%bind_Done.
  - by destruct (get ty e); intros [= <- <-].
  - by intros (entry & _ & [= <- <-])%bind_Done.
  - by intros [= <- <-].
  - unfold related_fetch. destruct (row w inv e) as [entry|]; [|by intros [= <- <-]].
    intros ([g1 rows] & Hc & [= <- <-])%bind_Done. symmetry. unfold write_cells. simpl.
    refine (collect_no_cells _ _ _ _ _ Hc). intros m g2 x ([g3 items] & Hi & [= <- <-])%bind_Done.
    refine (collect_no_cells _ _ _ _ _ Hi). intros [ty|ty] g4 it; simpl.
    + by intros (? & _ & [= <- <-])%bind_Done.
    + by destruct (row w ty m); intros [= <- <-].
Qed.

Lemma query_cells (get : TypeId → Entity → option ComponentEntry) w q e g item :
  param_fetch_with get w q e = Done (g, item) → query_mut_cells item = write_cells g.
Proof.
  destruct q as [fac|ty|ty|fac parts]; simpl.
  - by intros [= <- <-].
  - by intros (entry & _ & [= <- <-])%bind_Done.
  - by intros (entry & _ & [= <- <-])%bind_Done.
  - intros ([g1 items] & Hc & [= <- <-])%bind_Done. refine (collect_cells _ _ _ _ _ _ Hc).
    intros part g2 b. apply part_cells.
Qed.

(** Outside of views, the cells are those of the guards. *)
Lemma param_cells w p s g (it : ParamItem) c :
  sp_prepared_fetch w p s = Done (g, it) → c ∈ param_mut_cells w it →
  c ∈ write_cells g ∨ ∃ q f, (p = PView q f ∨ p = PTrackedView q f) ∧ c ∈ view_mut_cells w q f.
Proof.
  rewrite sp_prepared_fetch_same. destruct p as [q f|q f|q f|q f|o|], s as [e| |]; simpl; try (intros [= <- <-]; simpl; naive_solver).
  all: try (by intros [= <- <-] ?%elem_of_nil).
  all: intros ([g2 it'] & Hf & [= <- <-])%bind_Done Hc; left; simpl in Hc; by rewrite <-(query_cells _ _ _ _ _ _ Hf).
Qed.

Lemma tuple_cells w ps st g items c :
  tuple_prepared_fetch w ps st = Done (g, items) → c ∈ mut_cells w items →
  c ∈ write_cells g ∨ ∃ p q f, p ∈ ps ∧ (p = PView q f ∨ p = PTrackedView q f) ∧ c ∈ view_mut_cells w q f.
Proof.
  unfold tuple_prepared_fetch, mut_cells. revert st g items.
  induction ps as [|p ps IH]; intros [|s st] g items; simpl; try (by intros [= <- <-] ?%elem_of_nil).
  intros ([g1 i] & Hf & Hr)%bind_Done. apply bind_Done in Hr as ([g2 its] & Hc & [= <- <-]).
  rewrite bind_cons, write_cells_app. intros [Hin|Hin]%elem_of_app.
  - destruct (param_cells _ _ _ _ _ _ Hf Hin) as [?|(q & f & ? & ?)]; [left; by apply elem_of_app; left|].
    right. exists p, q, f. split_and!; [by left|done..].
  - destruct (IH _ _ _ Hc Hin) as [?|(p' & q & f & ? & ? & ?)]; [left; by apply elem_of_app; right|].
    right. exists p', q, f. split_and!; [by right|done..].
Qed.

Lemma collect_guard {A B} (fetch : A → result (list Taken * B)) (l : list A) g bs t :
  collect fetch l = Done (g, bs) → t ∈ g → ∃ a g' b, a ∈ l ∧ fetch a = Done (g', b) ∧ t ∈ g'.
Proof.
  revert g bs. induction l as [|a l IH]; intros g bs; simpl; [by intros [= <- <-] ?%elem_of_nil|].
  intros ([g1 b] & Ha & Hr)%bind_Done. apply bind_Done in Hr as ([g2 bs'] & Hl & [= <- <-]).
  intros [Ht|Ht]%elem_of_app; [exists a, g1, b; split_and!; [by left|done..]|].
  destruct (IH g2 bs' Hl Ht) as (a' & g' & b' & ? & ? & ?). exists a', g', b'. split_and!; [by right|done..].
Qed.

(** A guard of one row under a reservation of its store. *)
Lemma guard_backs k ty e entry kind :
  (k = Writing → kind = Write) → backs (MkAccess kind ty None) (guard k ty e entry).
Proof. intros Hk. split_and!; [done|by left|done]. Qed.

Lemma part_guard_backed w part e g it (t : Taken) :
  match part with PartRelated _ _ _ => false | _ => true end = true →
  part_fetch_with (row w) w part e = Done (g, it) → t ∈ g → backs (part_access_all marker part) t.
Proof.
  destruct part as [ty|ty|ty|fac|inv edge rps]; simpl; intros Hp; try done.
  - intros (entry & _ & [= <- <-])%bind_Done ->%list_elem_of_singleton. by apply guard_backs.
  - destruct (row w ty e); intros [= <- <-]; [intros ->%list_elem_of_singleton; by apply guard_backs|by intros ?%elem_of_nil].
  - intros (entry & _ & [= <- <-])%bind_Done ->%list_elem_of_singleton. by apply guard_backs.
  - by intros [= <- <-] ?%elem_of_nil.
Qed.

Lemma query_guard_backed w q e g it (t : Taken) :
  supports_whole_store_view q = true → param_fetch w q e = Done (g, it) → t ∈ g → backed (param_access_all marker q) t.
Proof.
  unfold param_fetch, backed. destruct q as [fac|ty|ty|fac parts]; simpl; intros Hq.
  - by intros [= <- <-] ?%elem_of_nil.
  - intros (entry & _ & [= <- <-])%bind_Done ->%list_elem_of_singleton. eexists. split; [by left|by apply guard_backs].
  - intros (entry & _ & [= <- <-])%bind_Done ->%list_elem_of_singleton. eexists. split; [by left|by apply guard_backs].
  - intros ([g' items] & Hc & [= <- <-])%bind_Done Ht. destruct (collect_guard _ _ _ _ _ Hc Ht) as (part & g1 & b & Hin & Hf & Ht').
    exists (part_access_all marker part). split; [by apply list_elem_of_fmap_2|]. rewrite forallb_elem_of in Hq.
    eapply part_guard_backed; [by apply Hq|exact Hf|exact Ht'].
Qed.

Lemma validated_view ps q f :
  validate_bindings marker ps = None → PView q f ∈ ps → supports_whole_store_view q = true.
Proof.
  unfold validate_bindings. destruct (first_some (sp_validate_local marker) ps) eqn:Hf; [done|]. intros _ Hp.
  rewrite first_some_None in Hf. specialize (Hf _ Hp). simpl in Hf. by destruct (supports_whole_store_view q).
Qed.

(** A registered view is over whole stores, and a tracked one only reads. *)
Lemma validated_writer ps p q f :
  validate_bindings marker ps = None → p ∈ ps → p = PView q f ∨ p = PTrackedView q f →
  supports_whole_store_view q = true ∧ (p = PTrackedView q f → ∀ a, a ∈ param_access_all marker q → acc_kind a = Read).
Proof.
  intros Hv Hp [->| ->]; [split; [by eapply validated_view|done]|].
  unfold validate_bindings in Hv. destruct (first_some (sp_validate_local marker) ps) eqn:Hf; [done|].
  rewrite first_some_None in Hf. specialize (Hf _ Hp). simpl in Hf.
  destruct (supports_whole_store_view q); simpl in Hf; [|done]. split; [done|]. intros _ a Ha.
  destruct (existsb _ _) eqn:Hx in Hf; [done|]. destruct (acc_kind a) eqn:Hk; [done|].
  apply not_true_iff_false in Hx. destruct Hx. apply existsb_elem_of. exists a. split; [done|]. by apply bool_decide_eq_true.
Qed.

Lemma view_access_planned w ps st q f a :
  Forall2 (param_row w) ps st → PView q f ∈ ps → a ∈ param_access_all marker q → a ∈ tuple_access marker w ps st.
Proof.
  intros Hrow [k Hk]%list_elem_of_lookup Ha. destruct (Forall2_lookup_l _ _ _ _ _ Hrow Hk) as (s & Hs & Hps).
  apply list_elem_of_In, in_concat. exists (sp_access marker w (PView q f) s). split; [|apply list_elem_of_In].
  - apply list_elem_of_In, list_elem_of_lookup. exists k. apply lookup_zip_with_Some. by exists (PView q f), s.
  - simpl. apply elem_of_app. by left.
Qed.

(** The guard of a row is on that row. *)
Lemma part_guard_row w part e g it (t : Taken) :
  match part with PartRelated _ _ _ => false | _ => true end = true →
  part_fetch_with (row w) w part e = Done (g, it) → t ∈ g → tk_entity t = e ∧ on_row w t.
Proof.
  unfold on_row. destruct part as [ty|ty|ty|fac|inv edge rps]; simpl; intros Hp; try done.
  - by intros (entry & Hr%expect_Done & [= <- <-])%bind_Done ->%list_elem_of_singleton; simpl; rewrite Hr.
  - destruct (row w ty e) eqn:Hr; intros [= <- <-]; [intros ->%list_elem_of_singleton; simpl; by rewrite Hr|by intros ?%elem_of_nil].
  - by intros (entry & Hr%expect_Done & [= <- <-])%bind_Done ->%list_elem_of_singleton; simpl; rewrite Hr.
  - by intros [= <- <-] ?%elem_of_nil.
Qed.

Lemma query_guard_row w q e g it (t : Taken) :
  supports_whole_store_view q = true → param_fetch w q e = Done (g, it) → t ∈ g → tk_entity t = e ∧ on_row w t.
Proof.
  unfold param_fetch. destruct q as [fac|ty|ty|fac parts]; simpl; intros Hq.
  - by intros [= <- <-] ?%elem_of_nil.
  - by intros (entry & Hr%expect_Done & [= <- <-])%bind_Done ->%list_elem_of_singleton; unfold on_row; simpl; rewrite Hr.
  - by intros (entry & Hr%expect_Done & [= <- <-])%bind_Done ->%list_elem_of_singleton; unfold on_row; simpl; rewrite Hr.
  - intros ([g' items] & Hc & [= <- <-])%bind_Done Ht. destruct (collect_guard _ _ _ _ _ Hc Ht) as (part & g1 & b & Hin & Hf & Ht').
    rewrite forallb_elem_of in Hq. eapply part_guard_row; [by apply Hq|exact Hf|exact Ht'].
Qed.

Lemma whole_store_access q a : a ∈ param_access_all marker q → acc_entity a = None.
Proof.
  destruct q as [fac|ty|ty|fac parts]; simpl; [by intros ?%elem_of_nil|by intros ->%list_elem_of_singleton..|].
  intros (part & -> & _)%list_elem_of_fmap. by destruct part.
Qed.

(** A cell a view hands out for writing belongs to a row of the view, in a store
    the view reserves exclusively. *)
Lemma view_cell_row w q f c :
  supports_whole_store_view q = true → c ∈ view_mut_cells w q f →
  ∃ rows ty e, filtered_rows w q f = Done rows ∧ e ∈ rows ∧ entry_value <$> row w ty e = Some c ∧
    ∃ a, a ∈ param_access_all marker q ∧ acc_kind a = Write ∧ acc_component a = ty ∧ acc_entity a = None.
Proof.
  intros Hs. unfold view_mut_cells. destruct (filtered_rows w q f) as [rows|]; simpl; [|by intros ?%elem_of_nil].
  destruct (collect (param_fetch w q) rows) as [[g items]|] eqn:Hc; [|by intros ?%elem_of_nil].
  rewrite (collect_cells _ _ _ _ _ (λ e g b Hf, query_cells _ _ _ e g b Hf) Hc).
  intros (t & -> & [Hk Ht]%list_elem_of_filter)%list_elem_of_fmap.
  destruct (collect_guard _ _ _ _ _ Hc Ht) as (e & g' & b & He & Hf & Ht').
  destruct (query_guard_row _ _ _ _ _ _ Hs Hf Ht') as [<- Hrow].
  destruct (query_guard_backed _ _ _ _ _ _ Hs Hf Ht') as (a & Ha & Hty & _ & Hw).
  exists rows, (tk_type t), (tk_entity t). split_and!; try done. exists a. split_and!; try done; [by apply Hw|].
  by eapply whole_store_access.
Qed.

(** ** What a run is made of *)

Lemma planned_owner id w ps memo hint completed planned i :
  plan_invocations marker id w ps memo hint = Done (completed, planned) → i ∈ planned → system (pl_owner i) = id.
Proof.
  unfold plan_invocations. intros (states & _ & Hp)%bind_Done Hi. apply bind_Done in Hp as (invs & Hinvs & [= _ <-]).
  apply (elem_of_flat_result _ _ _ i Hinvs) in Hi as (st & b & _ & Hb & Hi). unfold plan_state in Hb.
  apply bind_Done in Hb as (ds & _ & Hb). destruct (negb _ && _); injection Hb as <-; [by apply elem_of_nil in Hi|].
  by apply list_elem_of_singleton in Hi as ->.
Qed.

Lemma collect_invocations_parts (rows : list RowRun) :
  let runs := single_run <$> rows in
  collect_invocations rows = MkRun false (runs ≫= run_outputs) (runs ≫= run_updates) (runs ≫= run_writes).
Proof.
  cbv zeta. unfold collect_invocations.
  assert (∀ acc, foldl (λ run '(output, update, writes), MkRun (run_completed run) (run_outputs run ++ [output])
                     (run_updates run ++ [update]) (run_writes run ++ writes)) acc rows =
    MkRun (run_completed acc) (run_outputs acc ++ ((single_run <$> rows) ≫= run_outputs))
      (run_updates acc ++ ((single_run <$> rows) ≫= run_updates))
      (run_writes acc ++ ((single_run <$> rows) ≫= run_writes))) as Hf; [|by rewrite Hf].
  induction rows as [|[[output update] writes] rows IH]; intros acc; [destruct acc; simpl; by rewrite !app_nil_r|].
  cbn [foldl]. by rewrite IH, fmap_cons, !bind_cons, !app_assoc.
Qed.

Lemma merge_runs_parts (runs : list SystemRun) :
  run_outputs (merge_runs runs) = runs ≫= run_outputs ∧ run_updates (merge_runs runs) = runs ≫= run_updates ∧
  run_writes (merge_runs runs) = runs ≫= run_writes.
Proof.
  unfold merge_runs.
  assert (∀ acc, let r := foldl (λ merged run, MkRun (run_completed merged && run_completed run)
      (run_outputs merged ++ run_outputs run) (run_updates merged ++ run_updates run) (run_writes merged ++ run_writes run)) acc runs in
    run_outputs r = run_outputs acc ++ (runs ≫= run_outputs) ∧ run_updates r = run_updates acc ++ (runs ≫= run_updates) ∧
    run_writes r = run_writes acc ++ (runs ≫= run_writes)) as Hf; [|exact (Hf (MkRun true [] [] []))].
  induction runs as [|run runs IH]; intros acc; cbv zeta; [simpl; by rewrite !app_nil_r|].
  cbn [foldl]. rewrite !bind_cons, !app_assoc. apply IH.
Qed.

Lemma on_complete_parts out (runs : list SystemRun) :
  run_outputs (on_complete_batch out runs) =
    (if bool_decide (length (runs ≫= run_outputs) = 0) then runs ≫= run_outputs else (runs ≫= run_outputs) ++ [out]) ∧
  run_updates (on_complete_batch out runs) = runs ≫= run_updates ∧
  run_writes (on_complete_batch out runs) = runs ≫= run_writes.
Proof.
  destruct (merge_runs_parts runs) as (Ho & Hu & Hw). unfold on_complete_batch. rewrite Ho.
  case_bool_decide; simpl; by rewrite ?Ho, ?Hu, ?Hw.
Qed.

(** The streamed and the grouped execution, side by side. *)
Lemma streamed_parts id (planned : list PlannedInvocation) (rows : list RowRun) completed (hooks : list (Hook * SystemOutput)) :
  length rows = length planned →
  let s := streamed_runs id planned rows hooks in
  let r := grouped_run (negb (bool_decide (planned = []))) completed rows hooks in
  (s = [] ↔ planned = []) ∧ s.*1 = foldl (hooked_rows id) (run_rows planned) hooks.*1 ∧
  run_outputs r = s.*2 ≫= run_outputs ∧ run_updates r = s.*2 ≫= run_updates ∧ run_writes r = s.*2 ≫= run_writes.
Proof.
  intros Hlen. cbv zeta. induction hooks as [|[h out] hooks IH] using rev_ind.
  - unfold streamed_runs, grouped_run, function_run. rewrite collect_invocations_parts. simpl.
    assert (length (run_rows planned) = length rows) as Hl by (unfold run_rows; by rewrite length_fmap).
    rewrite fst_zip, snd_zip by (rewrite length_fmap; lia). split_and!; try done.
    destruct planned, rows; simpl in *; try done; split; done.
  - unfold streamed_runs, grouped_run in *. rewrite fmap_app, !foldl_app. change ([(h, out)].*1) with [h]. cbn [foldl].
    set (s := foldl (hook_stream_of id) _ hooks) in *. set (r := foldl (hook_run_of _) _ hooks) in *.
    destruct IH as (Hnil & Hrows & Ho & Hu & Hw). rewrite <-Hrows.
    unfold hook_stream_of, hook_run_of, hooked_rows. cbn [fst snd]. assert (s.*1 = [] ↔ s = []) as Hfst by (destruct s; by split).
    rewrite (bool_decide_ext (s.*1 = []) (s = [])) by done.
    rewrite (bool_decide_ext (planned = []) (s = [])) by (by symmetry).
    destruct h.
    + case_bool_decide as Hs; simpl.
      * rewrite Hs in *. by split_and!.
      * split_and!; [split; [done|intros Hp; by destruct Hs; apply Hnil]|done|..].
        -- unfold on_start_batch. simpl. destruct (merge_runs_parts s.*2) as (-> & _). by rewrite Ho, app_nil_r.
        -- unfold on_start_batch. simpl. destruct (merge_runs_parts s.*2) as (_ & -> & _). by rewrite Hu, app_nil_r.
        -- unfold on_start_batch. simpl. destruct (merge_runs_parts s.*2) as (_ & _ & ->). by rewrite Hw, app_nil_r.
    + case_bool_decide as Hs; simpl.
      * rewrite Hs in *. rewrite Ho. by split_and!.
      * split_and!; [split; [done|intros Hp; by destruct Hs; apply Hnil]|done|..];
          destruct (on_complete_parts out s.*2) as (Hco & Hcu & Hcw); rewrite ?Hco, ?Hcu, ?Hcw, Ho, !app_nil_r;
          by case_bool_decide.
    + by split_and!.
Qed.

Lemma streamed_ok id w ps fn memo hint completed (planned : list PlannedInvocation) (rows : list RowRun)
    (hooks : list (Hook * SystemOutput)) :
  plan_invocations marker id w ps memo hint = Done (completed, planned) → Forall2 (runs_row w ps fn) planned rows →
  Forall (λ h, queue_ok (out_commands h.2)) hooks →
  Forall (λ run, run_ok run ∧ Forall (λ o, system o = id) (run_updates run).*1) (streamed_runs id planned rows hooks).*2.
Proof.
  intros Hplan Hrows Hhooks. unfold streamed_runs.
  assert (Forall (λ run, run_ok run ∧ Forall (λ o, system o = id) (run_updates run).*1) (zip (run_rows planned) (single_run <$> rows)).*2) as Hbase.
  { rewrite snd_zip by (unfold run_rows; rewrite !length_fmap; by rewrite (Forall2_length _ _ _ Hrows)).
    apply Forall_forall. intros run (row & -> & [k Hk]%list_elem_of_lookup)%list_elem_of_fmap.
    destruct (Forall2_lookup_r _ _ _ _ _ Hrows Hk) as (i & Hi & Hr). destruct Hr as [ops unique sh g items effs Hq Hp _ _ _].
    destruct (row_run_spec w i ops unique sh effs Hq Hp) as (q & -> & Hok & _). split.
    - by constructor.
    - simpl. constructor; [|constructor]. eapply planned_owner; [exact Hplan|]. by eapply list_elem_of_lookup_2. }
  revert Hbase. generalize (zip (run_rows planned) (single_run <$> rows)).
  induction Hhooks as [|[h out] hooks Hout _ IH]; intros l Hl; [done|]. cbn [foldl]. apply IH. simpl in Hout.
  assert (run_ok (merge_runs l.*2) ∧ Forall (λ o, system o = id) (run_updates (merge_runs l.*2)).*1) as [Hm1 Hm2].
  { destruct (merge_runs_parts l.*2) as (Ho & Hu & _). unfold run_ok. rewrite Ho, Hu. clear -Hl.
    induction l as [|x l IHl]; [by split|]. rewrite fmap_cons in *. apply Forall_cons in Hl as [[Hx1 Hx2] Hl].
    destruct (IHl Hl). rewrite !bind_cons, fmap_app, !Forall_app. by split_and!. }
  unfold hook_stream_of. destruct h; cbn [fst snd]; try case_bool_decide; try done; try (by constructor).
  - constructor; [|constructor]. split; [by constructor|done].
  - constructor; [|constructor]. unfold on_complete_batch. case_bool_decide; [done|]. split; [|done].
    apply Forall_app. split; [done|]. by constructor.
Qed.

Lemma hook_outputs_ok id (x : Executable) (hooks : list (Hook * SystemOutput)) :
  hook_outputs id x hooks → Forall (λ h, queue_ok (out_commands h.2)) hooks.
Proof.
  unfold hook_outputs. intros Hh. apply Forall_forall. intros [h out] [k Hk]%list_elem_of_lookup.
  destruct (Forall2_lookup_r _ _ _ _ _ Hh Hk) as ([h' cb] & _ & _ & sh & unique & effs & _ & ->). apply hook_output_ok.
Qed.

(** ** The interface of the settle driver *)

Definition exec_runs (executables : SystemId → Executable) : SettleRuns :=
  {| hook_run := exec_hook_run executables; settle_rows := exec_settle_rows executables |}.


#[export] Instance exec_run_laws (executables : SystemId → Executable) : @SettleRunLaws _ (exec_runs executables).
Proof.
  split.
  - intros id w memo run (completed & planned & rows & hooks & settled & _ & _ & Hh%hook_outputs_ok & ->).
    apply Forall_app in Hh as [_ [Hs _]%Forall_cons]. unfold run_settled.
    destruct (_ && _); [|by split; [constructor|]]. split; [|done]. by constructor.
  - intros id w memo runs (completed & planned & rows & hooks & Hplan & Hrows & Hh%hook_outputs_ok & ->).
    by eapply streamed_ok.
Qed.

(** ** Properties *)

(** C19: a run returns what was planned and what its body did.  For a row the
    planner planned, the run has one output, owned by the invocation, whose
    queue holds exactly the commands the body issued, in order; one memo update,
    with the planned dependencies and the revision of the snapshot; and as writes
    the rows reserved for writing.  Every cell the body wrote to is either that of
    a reported row, or that of a row of a [View] parameter whose query holds
    [MutRef]s, in a store the row reserved exclusively: those rows are not
    reported, so the commit does not reconcile them.  When the views of the system
    only read, every written row is reported. *)
Theorem row_runs_exact X w ps fn id memo completed planned i row :
  wf X w → addressable w → rel_ok w → joinable w ps → Joins.registered marker ps →
  plan_invocations marker id w ps memo None = Done (completed, planned) → i ∈ planned → runs_row w ps fn i row →
  ∃ g items effs q, tuple_prepared_fetch w ps (pl_state i) = Done (g, items) ∧ fn w items effs ∧
    single_run row = MkRun true [MkOutput (pl_owner i) q] [(pl_owner i, MkMemo (pl_deps i) (revision w) 0)] (written_rows (pl_access i)) ∧
    system (pl_owner i) = id ∧ queue_ok q ∧
    Forall2 same_command (filter (λ eff, is_command eff = true) effs) (pending q) ∧
    (∀ c v, DoWrite c v ∈ effs → ∃ ty e, entry_value <$> World.row w ty e = Some c ∧
       ((ty, e) ∈ row.2 ∨
        ∃ q f rows, PView q f ∈ ps ∧ filtered_rows w q f = Done rows ∧ e ∈ rows ∧ access_write_all ty ∈ pl_access i)) ∧
    ((∀ q f a, PView q f ∈ ps → a ∈ param_access_all marker q → acc_kind a = Read) →
     ∀ c v, DoWrite c v ∈ effs → ∃ ty e, entry_value <$> World.row w ty e = Some c ∧ (ty, e) ∈ row.2).
Proof.
  intros Hwf Hadd Hrel Hj Hreg Hplan Hi Hrun. destruct Hrun as [ops unique sh g items effs Hq Hp Hf Hfn Hall].
  destruct (row_run_spec w i ops unique sh effs Hq Hp) as (q & -> & Hqok & F).
  destruct (planned_row marker X w ps id memo completed planned i Hwf Hadd Hrel Hj Hreg Hplan Hi) as [Hrow Hacc].
  assert (∀ c v, DoWrite c v ∈ effs → ∃ ty e, entry_value <$> World.row w ty e = Some c ∧
    ((ty, e) ∈ written_rows (pl_access i) ∨
     ∃ q f rows a, PView q f ∈ ps ∧ filtered_rows w q f = Done rows ∧ e ∈ rows ∧ access_write_all ty ∈ pl_access i ∧
       a ∈ param_access_all marker q ∧ acc_kind a = Write)) as Hcells.
  { intros c v Hin. pose proof (proj1 (Forall_forall _ _) Hall _ Hin) as Hc. simpl in Hc.
    destruct (tuple_cells _ _ _ _ _ _ Hf Hc) as [(t & -> & [Hk Ht]%list_elem_of_filter)%list_elem_of_fmap|(p & qv & f & Hps & Hpv & Hv)].
    - destruct (tuple_fetched marker w ps (pl_state i) Hrow) as (g' & items' & _ & Hf' & [_ W R]).
      rewrite Hf in Hf'. injection Hf' as <- <-. exists (tk_type t), (tk_entity t).
      split; [by apply (proj1 (Forall_forall _ _) R)|]. left. rewrite Hacc, <-W, <-written_guards.
      apply list_elem_of_fmap. exists t. split; [done|]. by apply list_elem_of_filter.
    - destruct (validated_writer _ _ _ _ ltac:(apply Hreg) Hps Hpv) as [Hs Htracked].
      destruct (view_cell_row _ _ _ _ Hs Hv) as (rows & ty & e & Hr & He & Hcell & a & Ha & Hkind & Hty & Hent).
      exists ty, e. split; [done|]. right.
      destruct Hpv as [->| ->]; [|by rewrite (Htracked eq_refl a Ha) in Hkind]. exists qv, f, rows, a.
      split_and!; try done. rewrite Hacc. apply (view_access_planned w ps (pl_state i) qv f (access_write_all ty) Hrow Hps).
      destruct a; simpl in *; by subst. }
  exists g, items, effs, q. split_and!; try done; [by eapply planned_owner| |].
  - intros c v Hin. destruct (Hcells c v Hin) as (ty & e & Hcell & [?|(q' & f & rows & a & ? & ? & ? & ? & _)]);
      exists ty, e; (split; [done|]); [by left|right; by exists q', f, rows].
  - intros Hread c v Hin. destruct (Hcells c v Hin) as (ty & e & Hcell & [?|(q' & f & rows & a & Hpv & _ & _ & _ & Ha & Hk)]);
      exists ty, e; (split; [done|]); [done|]. by rewrite (Hread _ _ _ Hpv Ha) in Hk.
Qed.

(** C20: the two ways to execute a system agree.  Streamed, with start and
    completion hooks turning the rows into a batch, or as a group, the outputs,
    memo updates and writes are the same, in the same order; and the streamed
    batches are the reservations the planner announced. *)
Theorem streamed_grouped_agree id w ps fn memo completed planned rows hooks :
  plan_invocations marker id w ps memo None = Done (completed, planned) → Forall2 (runs_row w ps fn) planned rows →
  let s := streamed_runs id planned rows hooks in
  let r := grouped_run (negb (bool_decide (planned = []))) completed rows hooks in
  stream_runs marker id w ps hooks.*1 memo None = Done s.*1 ∧
  run_outputs r = s.*2 ≫= run_outputs ∧ run_updates r = s.*2 ≫= run_updates ∧ run_writes r = s.*2 ≫= run_writes.
Proof.
  intros Hplan Hrows s r.
  destruct (streamed_parts id planned rows completed hooks) as (_ & Hs & Ho & Hu & Hw); [symmetry; by eapply Forall2_length|].
  split; [|by split_and!]. unfold stream_runs, plan_rows. rewrite Hplan. simpl. by rewrite <-Hs.
Qed.
End exec.

(** ** Concrete runs *)

(** The body of [demo_edge_writer]: it points the edge back where it was. *)
Definition demo_body : World → list ParamItem → list Effect → Prop := λ _ items effs, effs = [DoWrite 0%N (v_edge 5)].

Lemma demo_row_runs : ∃ row, runs_row demo_rows demo_edge_writer demo_body demo_write_row row ∧ row.2 = [(ty_edge, 3%N)].
Proof.
  assert (∃ items, tuple_prepared_fetch demo_rows demo_edge_writer (pl_state demo_write_row) = Done (demo_write_guards, items) ∧
    mut_cells demo_rows items = [0%N]) as (items & Hf & Hc) by (eexists; split; [vm_compute; reflexivity|reflexivity]).
  eexists. split.
  - eapply (runs_row_intro _ _ _ _ queue_default true (shared demo_rows)); [exact queue_default_ok|reflexivity|exact Hf|reflexivity|].
    constructor; [|constructor]. simpl. rewrite Hc. left.
  - vm_compute. reflexivity.
Qed.

Lemma row_runs_exact_witness :
  ∃ r c, runs_row demo_rows demo_edge_writer demo_body demo_write_row r ∧
    (∃ ty e, entry_value <$> row demo_rows ty e = Some c ∧ (ty, e) ∈ r.2).
Proof.
  destruct demo_row_runs as (run & Hrun & _). exists run, 0%N. split; [exact Hrun|].
  destruct (row_runs_exact no_marker nothing_taken demo_rows demo_edge_writer demo_body 0 ∅ true [demo_write_row] demo_write_row run
              demo_wf_rows demo_addressable demo_rel_rows (demo_writer_joinable _) demo_writer_registered demo_write_plan)
    as (g & items & effs & q & _ & Heffs & _ & _ & _ & _ & _ & Hw); [by left|exact Hrun|].
  apply (Hw ltac:(intros q' f' a Hin; exfalso; unfold demo_edge_writer in Hin; apply list_elem_of_In in Hin; simpl in Hin; repeat (destruct Hin as [Hin|Hin]; [discriminate|]); exact Hin) 0%N (v_edge 5)).
  rewrite Heffs. left.
Defined.

Definition demo_hooks : list (Hook * SystemOutput) :=
  [(OnStart, hook_output 0 (shared demo_rows) true [DoRemove 1]); (OnComplete, hook_output 0 (shared demo_rows) true [])].

Lemma streamed_grouped_agree_witness :
  ∃ run, runs_row demo_rows demo_edge_writer demo_body demo_write_row run ∧
    stream_runs no_marker 0 demo_rows demo_edge_writer [OnStart; OnComplete] ∅ None = Done [(Invocation 0 [], [])] ∧
    length (run_outputs (grouped_run true true [run] demo_hooks)) = 3 ∧
    run_outputs (grouped_run true true [run] demo_hooks) = (streamed_runs 0 [demo_write_row] [run] demo_hooks).*2 ≫= run_outputs.
Proof.
  destruct demo_row_runs as (run & Hrun & _). exists run. split; [exact Hrun|].
  assert (Forall2 (runs_row demo_rows demo_edge_writer demo_body) [demo_write_row] [run]) as Hrows by by repeat constructor.
  destruct (streamed_grouped_agree no_marker 0 demo_rows demo_edge_writer demo_body ∅ true [demo_write_row] [run] demo_hooks
              demo_write_plan Hrows) as (Hs & Ho & _).
  split; [exact Hs|]. split; [|exact Ho]. destruct Hrun as [ops unique sh g items effs _ _ _ _ _]. unfold row_run.
  by destruct (run_body _ effs).
Defined.
