(* ===== verification/Views.v ===== *)
(** * Views and the cleanup of derived facts ([query.rs], [system.rs])

    A view enumerates a query once, when its invocation starts, and locks rows
    while it is iterated.  The theorems: reading through a view is total, yields
    exactly the rows of the query, and never waits for another invocation, because
    every guard it takes is backed by a whole-store reservation; and the cleanup
    system, built from a view, removes exactly the entities whose provenance is
    out of date. *)
From stdpp Require Import base numbers sets gmap fin_maps sorting relations list.
From S2P Require Import Prelude Locks Access.
From S2P Require Import Components Demo Stores Presence World WorldInv Ownership WorldOps Relations Frame.
From S2P Require Import Commands Query ExternalQuery Deps Planner Commit Params Joins Delta Fetch Skip.
From S2P Require Import Engine Phase Settle Exec.

Section views.
Context `{RelationshipLaws} `{HashOrder}.
Implicit Types (w : World) (e : Entity) (ty : TypeId) (q : QueryParam) (f : QueryFilter) (part : QueryPart)
  (p : SystemParam) (ps : list SystemParam) (g mine : list Taken) (t : Taken) (eff : Effect).

Variable marker : list FacetPart → TypeId.

(** ** Views *)

Record View := MkView { vw_world : World; vw_query : QueryParam; vw_rows : list Entity; vw_guards : list Taken }.
Implicit Types v : View.

(** [View::new]: the rows are recorded eagerly. *)
Definition view_new w q f : result View := rows ← filtered_rows w q f; Done (MkView w q rows []).

(** [View::iter]: each row is fetched when it is reached, into the guards of the
    view, which it keeps. *)
Definition view_iter v : result (View * list QueryItem) :=
  '(g, items) ← collect (param_fetch (vw_world v) (vw_query v)) (vw_rows v);
  Done (MkView (vw_world v) (vw_query v) (vw_rows v) (vw_guards v ++ g), items).

Definition view_len v : nat := length (vw_rows v).
Definition view_is_empty v : bool := bool_decide (vw_rows v = []).

(** [TrackedView] wraps a view. *)
Record TrackedView := MkTrackedView { tv_view : View }.
Definition tracked_view_new w q f : result TrackedView := v ← view_new w q f; Done (MkTrackedView v).
Definition tracked_view_iter (v : TrackedView) : result (TrackedView * list QueryItem) :=
  '(v, items) ← view_iter (tv_view v); Done (MkTrackedView v, items).
Definition tracked_view_len (v : TrackedView) : nat := view_len (tv_view v).
Definition tracked_view_is_empty (v : TrackedView) : bool := view_is_empty (tv_view v).

(** [WorldMetaView::is_current] *)
Definition meta_is_current w (d : Value) : bool :=
  match d with Derived anchors => derived_is_current (entity_revision w) anchors | Plain _ => false end.

(** ** What a view locks *)

Lemma collect_length {A B} (fetch : A → result (list Taken * B)) (l : list A) g bs :
  collect fetch l = Done (g, bs) → length bs = length l.
Proof.
  revert g bs. induction l as [|a l IH]; intros g bs; simpl; [by intros [= <- <-]|].
  intros ([g1 b] & Ha & Hr)%bind_Done. apply bind_Done in Hr as ([g2 bs'] & Hl & [= <- <-]). simpl. f_equal. by eapply IH.
Qed.

(** What iterating a view gives, and takes. *)
Lemma view_read X w q f :
  wf X w → addressable w → row_driven q → hint_checked q f → supports_whole_store_view q = true →
  ∃ rows g items, view_new w q f = Done (MkView w q rows []) ∧ StronglySorted N.lt rows ∧
    (∀ e, e ∈ rows ↔ query_row w q f e) ∧ view_iter (MkView w q rows []) = Done (MkView w q rows g, items) ∧
    length items = length rows ∧ collect (param_fetch w q) rows = Done (g, items) ∧
    Forall (on_row w) g ∧ Forall (backed (param_access_all marker q)) g.
Proof.
  intros Hwf Hadd Hd Hh Hs. destruct (filtered_rows_aux X w q f Hwf Hadd Hd Hh) as (rows & Hrows & Hsort & Hin).
  destruct (collect_fetched w (param_fetch w q) (param_access w q) rows) as (g & items & Hc & [_ _ R]).
  { intros e (_ & Hm & _)%Hin. by apply param_fetched. }
  exists rows, g, items. unfold view_new, view_iter. rewrite Hrows. simpl. rewrite Hc. simpl. split_and!; try done.
  - by eapply collect_length.
  - apply Forall_forall. intros t Ht. destruct (collect_guard _ _ _ _ _ Hc Ht) as (e & g' & b & _ & Hf & Ht').
    by eapply query_guard_backed.
Qed.

(** ** Properties of views *)

(** C17: a view is isolated.  Take a planned row of a system with a view, other
    invocations in flight that were admitted beside it, the guards the row itself
    has by now, and the locks of all of them.  Building the view enumerates
    exactly the rows of its query, in order; iterating it yields one item per row
    and takes only guards that a reservation of the row backs; and taking them
    waits for no other invocation: it goes through unless a guard of the view
    excludes one of the row's own guards or another one of the view, which never
    happens when the view only reads and the row has locked nothing for
    writing. *)
Theorem view_waits_only_on_itself w ps system memo c planned i q f holders mine locks :
  wf nothing_taken w → addressable w → rel_ok w → joinable w ps → Joins.registered marker ps → own_cells w →
  plan_invocations marker system w ps memo None = Done (c, planned) → i ∈ planned →
  PView q f ∈ ps → row_driven q → hint_checked q f → Forall (holder_ok w) holders →
  (∀ h a b, h ∈ holders → a ∈ hd_access h → b ∈ pl_access i → access_conflicts b a = false) →
  locks_hold locks ((holders ≫= hd_guards) ++ mine) →
  (∀ rows, filtered_rows w q f = Done rows → ∀ g items, collect (param_fetch w q) rows = Done (g, items) →
     N.of_nat (length ((holders ≫= hd_guards) ++ mine) + length g) ≤ u64_max)%N →
  ∃ rows g items locks' rest, view_new w q f = Done (MkView w q rows []) ∧ StronglySorted N.lt rows ∧
    (∀ e, e ∈ rows ↔ query_row w q f e) ∧ view_iter (MkView w q rows []) = Done (MkView w q rows g, items) ∧
    length items = length rows ∧ Forall (backed (pl_access i)) g ∧ grab_all locks g = Done (locks', rest) ∧
    (rest = [] ↔ Forall (λ t, Forall (compatible t) mine) g ∧ List.ForallOrdPairs compatible g) ∧
    ((∀ a, a ∈ param_access_all marker q → acc_kind a = Read) → (∀ t, t ∈ mine → tk_kind t = Reading) → rest = []).
Proof.
  intros Hwf Hadd Hrel Hj Hreg Hown Hplan Hi Hp Hd Hh Hholders Hno Hl Hlen.
  destruct (planned_row marker nothing_taken w ps system memo c planned i Hwf Hadd Hrel Hj Hreg Hplan Hi) as [Hrow Hacc].
  destruct (view_read nothing_taken w q f Hwf Hadd Hd Hh) as (rows & g & items & Hnew & Hsort & Hin & Hiter & Hlength & Hc & R & Hb).
  { eapply validated_view; [apply Hreg|exact Hp]. }
  assert (Forall (backed (pl_access i)) g) as Hback.
  { eapply Forall_impl; [exact Hb|]. intros t (a & Ha & Hat). exists a. split; [|done]. rewrite Hacc. unfold tuple_access.
    apply list_elem_of_lookup in Hp as [k Hk]. destruct (Forall2_lookup_l _ _ _ _ _ Hrow Hk) as (s & Hs & Hps).
    apply list_elem_of_In, in_concat. exists (sp_access marker w (PView q f) s). split; [|apply list_elem_of_In].
    - apply list_elem_of_In, list_elem_of_lookup. exists k. apply lookup_zip_with_Some. by exists (PView q f), s.
    - simpl. apply elem_of_app. by left. }
  assert (Forall (λ t, Forall (compatible t) (holders ≫= hd_guards)) g) as Hothers.
  { rewrite Forall_forall in R, Hback. pose proof (proj1 (Forall_forall _ _) Hholders) as Hh'.
    apply Forall_forall. intros t Ht. apply Forall_forall. intros t' (h & Ht' & Hhin)%list_elem_of_bind.
    apply (holder_compatible w h t t' (pl_access i)); auto. intros a b. by apply Hno. }
  assert (filtered_rows w q f = Done rows) as Hrows.
  { unfold view_new in Hnew. apply bind_Done in Hnew as (rows' & Hf & [= ->]). exact Hf. }
  destruct (grab_all_spec locks ((holders ≫= hd_guards) ++ mine) g Hl) as (locks' & rest & Hg & Hiff & _); [by eapply Hlen|].
  assert (rest = [] ↔ Forall (λ t, Forall (compatible t) mine) g ∧ List.ForallOrdPairs compatible g) as Hiff'.
  { rewrite Hiff. split; intros [Hf Ho]; (split; [|done]); apply Forall_forall; intros t Ht;
      rewrite Forall_forall in Hf; rewrite Forall_forall in Hothers.
    - specialize (Hf t Ht). by apply Forall_app in Hf as [_ ?].
    - apply Forall_app. auto. }
  exists rows, g, items, locks', rest. split_and!; try done. intros Hread Hmine. apply Hiff'.
  assert (∀ t, t ∈ g → tk_kind t = Reading) as Hkind.
  { intros t Ht. rewrite Forall_forall in Hb. destruct (Hb t Ht) as (a & Ha & _ & _ & Hk). destruct (tk_kind t); [done|].
    specialize (Hread a Ha). rewrite Hk in Hread by done. done. }
  split.
  - apply Forall_forall. intros t Ht. apply Forall_forall. intros t' Ht' _. by split; [apply Hkind|apply Hmine].
  - clear -Hkind. induction g as [|t g IH]; [constructor|]. constructor.
    + apply List.Forall_forall. intros t' Ht'%list_elem_of_In _. split; apply Hkind; [by left|by right].
    + apply IH. intros t' ?. apply Hkind. by right.
Qed.

(** ** The cleanup system *)

Definition cleanup_query : QueryParam := ParamRow [] [PartRef ct_derived_from].
Definition cleanup_params : list SystemParam := [PView cleanup_query FNone; PMeta; PCommands (Some [])].

(** The body of the loop, on what an item borrows. *)
Definition cleanup_row w (item : QueryItem) : list Effect :=
  match item with
  | QRow e [ItRef c] =>
      match cell_get w c with
      | Some d => if meta_is_current w d then [] else [DoRemove e]
      | None => []
      end
  | _ => []
  end.

(** [cleanup_stale_derived] *)
Definition cleanup_stale_derived w : result (list Effect) :=
  v ← view_new w cleanup_query FNone;
  '(_, items) ← view_iter v;
  Done (items ≫= cleanup_row w).
Definition cleanup_function : SystemFunction := λ w _ effs, cleanup_stale_derived w = Done effs.

(** An entity whose provenance is out of date. *)
Definition outdated w e : bool :=
  match row_value w ct_derived_from e with Some d => negb (meta_is_current w d) | None => false end.

Lemma collect_items {A B} (fetch : A → result (list Taken * B)) (l : list A) g bs :
  collect fetch l = Done (g, bs) → Forall2 (λ a b, ∃ g', fetch a = Done (g', b)) l bs.
Proof.
  revert g bs. induction l as [|a l IH]; intros g bs; simpl; [intros [= <- <-]; constructor|].
  intros ([g1 b] & Ha & Hr)%bind_Done. apply bind_Done in Hr as ([g2 bs'] & Hl & [= <- <-]).
  constructor; [by exists g1|by eapply IH].
Qed.

Lemma cleanup_rows w rows items :
  Forall2 (λ e item, ∃ g, param_fetch w cleanup_query e = Done (g, item)) rows items →
  items ≫= cleanup_row w = DoRemove <$> filter (λ e, outdated w e = true) rows.
Proof.
  induction 1 as [|e item rows items [g Hf] _ IH]; [done|]. rewrite bind_cons, IH, filter_cons.
  unfold param_fetch in Hf. simpl in Hf. apply bind_Done in Hf as ([g1 parts] & Hf & [= _ <-]).
  apply bind_Done in Hf as ([g2 b] & Hf & Hr). apply bind_Done in Hf as (entry & Hrow%expect_Done & [= _ <-]).
  simpl in Hr. injection Hr as _ <-. simpl.
  assert (outdated w e = match cell_get w (entry_value entry) with Some d => negb (meta_is_current w d) | None => false end) as Ho
    by (unfold outdated, row_value; by rewrite Hrow).
  destruct (cell_get w (entry_value entry)) as [d|]; rewrite Ho; [|done]. by destruct (meta_is_current w d).
Qed.

Lemma cleanup_removes w X :
  wf X w → addressable w → ∃ stale, cleanup_stale_derived w = Done (DoRemove <$> stale) ∧ StronglySorted N.lt stale ∧
    ∀ e, e ∈ stale ↔ outdated w e = true.
Proof.
  intros Hwf Hadd.
  destruct (view_read X w cleanup_query FNone Hwf Hadd) as (rows & g & items & Hnew & Hsort & Hin & Hiter & _ & Hc & _);
    [split; [done|right; by left]|done|done|].
  exists (filter (λ e, outdated w e = true) rows). unfold cleanup_stale_derived. rewrite Hnew. cbn [mbind result_bind].
  rewrite Hiter. cbn [mbind result_bind]. rewrite (cleanup_rows w rows items) by by eapply collect_items.
  split_and!; [done|exact (proj1 (exactly_filter rows _ (λ e, outdated w e = true) (conj Hsort Hin)))|].
  intros e. rewrite list_elem_of_filter, Hin. split; [tauto|]. intros Ho. split; [done|].
  assert (has w ct_derived_from e = true) as Hhas.
  { apply has_row. unfold outdated, row_value in Ho. destruct (row w ct_derived_from e); [by eexists|done]. }
  split_and!; [by apply (proj1 Hadd _ _ Hhas)| |done]. simpl. by rewrite Hhas.
Qed.

(** Removals, one after the other. *)
Lemma removals_applied X w w' owner (stale : list Entity) :
  wf X w → rel_ok w →
  apply_all (Some owner) w ((λ e, DerivedOp (RemoveEntityCommand e)) <$> stale) = Done w' →
  rel_ok w' ∧ no_new_rows w w' ∧ ∀ e ty, e ∈ stale → row w' ty e = None.
Proof.
  revert w. induction stale as [|e stale IH]; intros w Hwf Hrel.
  { intros [= <-]. split_and!; [done|apply no_new_refl|]. by intros e ty ?%elem_of_nil. }
  rewrite fmap_cons, apply_all_cons. simpl. intros (w1 & ([w1' owners] & Hrem & [= <-])%bind_Done & Hrest)%bind_Done.
  destruct (remove_entity_good X w e w1' owners Hwf Hrem) as [[Hwf1 _] _].
  destruct (remove_entity_rel_aux X w e w1' owners Hwf Hrel Hrem) as (Hrel1 & _ & Hgone & Hnew).
  destruct (IH w1' Hwf1 Hrel1 Hrest) as (Hrel' & Hnew' & Hgone'). split_and!; [done| |].
  - intros ty e' Hn. by apply Hnew', Hnew.
  - intros e' ty [->|?]%elem_of_cons; [apply Hnew', Hgone|by apply Hgone'].
Qed.

(** C26: the cleanup system reaps what is out of date, and nothing else.  On any
    snapshot and whatever the memo says, it is planned exactly once, under one
    reservation of the provenance store; its body returns, and its run buffers
    the removal of exactly the entities whose provenance is out of date, in
    ascending order; and applying the removals, on whatever the live world has
    become, leaves none of them a row and keeps edges and inverses exact. *)
Theorem cleanup_exact X w id memo :
  wf X w → addressable w →
  ∃ i stale, plan_invocations marker id w cleanup_params memo None = Done (true, [i]) ∧
    pl_owner i = Invocation id [] ∧ pl_access i = [access_read_all ct_derived_from] ∧
    cleanup_stale_derived w = Done (DoRemove <$> stale) ∧ StronglySorted N.lt stale ∧
    (∀ e, e ∈ stale ↔ outdated w e = true) ∧
    ∀ row, runs_row w cleanup_params cleanup_function i row →
      ∃ cq, single_run row = MkRun true [MkOutput (Invocation id []) cq] [(Invocation id [], MkMemo [] (revision w) 0)] [] ∧
        queue_ok cq ∧ pending cq = (λ e, DerivedOp (RemoveEntityCommand e)) <$> stale ∧
        ∀ X' live live', wf X' live → rel_ok live → apply_all (Some (Invocation id [])) live (pending cq) = Done live' →
          rel_ok live' ∧ no_new_rows live live' ∧ ∀ e ty, outdated w e = true → World.row live' ty e = None.
Proof.
  intros Hwf Hadd. destruct (cleanup_removes w X Hwf Hadd) as (stale & Hclean & Hsort & Hin).
  eexists (MkPlanned [SUnit; SUnit; SUnit] (Invocation id []) [] [access_read_all ct_derived_from]), stale.
  split_and!; [reflexivity|done|done|done|done|done|].
  intros row Hrun. destruct Hrun as [ops unique sh g items effs Hq Hp Hf Hfn Hall].
  destruct (row_run_spec w (MkPlanned [SUnit; SUnit; SUnit] (Invocation id []) [] [access_read_all ct_derived_from]) ops unique sh effs Hq Hp) as (cq & -> & Hqok & F).
  unfold cleanup_function in Hfn. rewrite Hclean in Hfn. injection Hfn as <-. exists cq. split; [done|]. split; [done|].
  assert (pending cq = (λ e, DerivedOp (RemoveEntityCommand e)) <$> stale) as Hpend.
  { clear -F. revert F. generalize (pending cq). induction stale as [|e stale IH]; intros l F.
    - by apply Forall2_nil_inv_l in F.
    - rewrite fmap_cons, filter_cons in F. simpl in F. apply Forall2_cons_inv_l in F as (op & l' & Hop & F & ->).
      rewrite fmap_cons, <-(IH l' F). f_equal. destruct op as [[| |e'|]|]; simpl in Hop; try done. by subst. }
  split; [exact Hpend|]. intros X' live live' Hwf' Hrel Happ. rewrite Hpend in Happ.
  destruct (removals_applied X' live live' _ stale Hwf' Hrel Happ) as (? & ? & Hgone). split_and!; try done.
  intros e ty He. by apply Hgone, Hin.
Qed.
End views.

(** ** Concrete runs *)

(** A system with a provider row and a view of every edge. *)
Definition demo_edge_viewer : list SystemParam := [demo_provider; PView (ParamRow [] [PartRef ty_edge]) FNone].

Lemma demo_edge_viewer_joinable w : joinable w demo_edge_viewer.
Proof.
  split.
  - intros p [-> | ->]%elem_of_two; simpl; repeat split; done || (right; by left).
  - intros p key [-> | ->]%elem_of_two; simpl; by intros ?%elem_of_nil.
  - intros p key [-> | ->]%elem_of_two; simpl; by intros ?%elem_of_nil.
Qed.

Lemma demo_edge_viewer_registered : Joins.registered no_marker demo_edge_viewer.
Proof. split; vm_compute; reflexivity. Qed.

Definition demo_view_row : PlannedInvocation :=
  MkPlanned [SRow 5; SUnit] (Invocation 0 [5%N]) [MkDep ty_members None 5 (Some 2%N) false]
    [access_read ty_members 5; access_read_all ty_edge].

Lemma demo_view_plan : plan_invocations no_marker 0 demo_rows demo_edge_viewer ∅ None = Done (true, [demo_view_row]).
Proof. vm_compute. reflexivity. Qed.

Definition demo_view_rest : list Taken := [MkTaken Reading ty_edge 3 0].

(** The row of the view has locked the members of 5, and so has another
    invocation in flight; the view goes through. *)
Lemma view_waits_only_on_itself_witness :
  ∃ locks', view_new demo_rows (ParamRow [] [PartRef ty_edge]) FNone = Done (MkView demo_rows (ParamRow [] [PartRef ty_edge]) [3%N] []) ∧
    grab_all (<[1%N := MkLock 2 false]> ∅) demo_view_rest = Done (locks', []).
Proof.
  destruct (view_waits_only_on_itself no_marker demo_rows demo_edge_viewer 0 ∅ true [demo_view_row] demo_view_row
              (ParamRow [] [PartRef ty_edge]) FNone [demo_reader] [MkTaken Reading ty_members 5 1]
              (<[1%N := MkLock 2 false]> ∅) demo_wf_rows demo_addressable demo_rel_rows
              (demo_edge_viewer_joinable _) demo_edge_viewer_registered demo_own_cells demo_view_plan)
    as (rows & g & items & locks' & rest & Hnew & _ & _ & Hiter & _ & _ & Hg & _ & Hgo).
  - by left.
  - right. by left.
  - split; [done|right; by left].
  - done.
  - constructor; [exact demo_reader_ok|constructor].
  - intros h a b ->%list_elem_of_singleton ->%list_elem_of_singleton [-> | ->]%elem_of_two; vm_compute; reflexivity.
  - intros c. destruct (decide (1%N = c)) as [<-|Hne].
    + vm_compute. reflexivity.
    + rewrite lock_at_insert, decide_False by done. unfold lock_at. rewrite lookup_empty.
      assert (∀ k, held_on k c (([demo_reader] ≫= hd_guards) ++ [MkTaken Reading ty_members 5 1]) = 0) as Hz.
      { intros k. apply held_on_zero. intros t [-> | ->]%elem_of_two Hc; by destruct Hne. }
      unfold lock_for. by rewrite !Hz.
  - intros rows Hrows g items Hc. assert (filtered_rows demo_rows (ParamRow [] [PartRef ty_edge]) FNone = Done [3%N]) as Hr
      by (vm_compute; reflexivity). rewrite Hr in Hrows. injection Hrows as <-.
    assert (∃ items', collect (param_fetch demo_rows (ParamRow [] [PartRef ty_edge])) [3%N] = Done (demo_view_rest, items'))
      as [items' Hc'] by (eexists; vm_compute; reflexivity). rewrite Hc' in Hc. injection Hc as <- <-. vm_compute. discriminate.
  - assert (view_new demo_rows (ParamRow [] [PartRef ty_edge]) FNone = Done (MkView demo_rows (ParamRow [] [PartRef ty_edge]) [3%N] []))
      as Hv by (vm_compute; reflexivity). pose proof Hnew as Hnew'. rewrite Hv in Hnew'. injection Hnew' as <-.
    assert (∃ items', view_iter (MkView demo_rows (ParamRow [] [PartRef ty_edge]) [3%N] [])
                      = Done (MkView demo_rows (ParamRow [] [PartRef ty_edge]) [3%N] demo_view_rest, items'))
      as [items' Hi] by (eexists; vm_compute; reflexivity). rewrite Hi in Hiter. injection Hiter as <- <-.
    exists locks'. split; [exact Hv|]. rewrite Hgo in Hg; [exact Hg| |].
    + intros a ->%list_elem_of_singleton. reflexivity.
    + intros t ->%list_elem_of_singleton. reflexivity.
Defined.

(** Two derived facts, one of which is then left behind by its anchor. *)
Definition demo_noted : World := run demo_rows (insert demo_rows 0 ty_num (v_num 5) None).
Definition demo_noted4 : World := run demo_rows (insert demo_noted 4 ty_derived (Derived [MkAnchor 3 None]) None).
Definition demo_noted2 : World := run demo_rows (insert demo_noted4 2 ty_derived (Derived [MkAnchor 0 None]) None).
Definition demo_captured : World := run demo_rows (flush_derived_from demo_noted2).
Definition demo_left_behind : World := run demo_rows (insert demo_captured 3 ty_edge (v_edge 1) None).

Example demo_cleanup : cleanup_stale_derived demo_left_behind = Done [DoRemove 4].
Proof. vm_compute. reflexivity. Qed.

Lemma demo_left_behind_ok : wf nothing_taken demo_left_behind ∧ addressable demo_left_behind.
Proof.
  assert (wf nothing_taken demo_left_behind) as Hwf; [|split; [done|]].
  - apply (world_steps_good (nothing_taken, demo_rows) (nothing_taken, demo_left_behind)); [|exact demo_wf_rows].
    eapply rtc_l; [apply ws_apply, (as_insert _ 0 ty_num (v_num 5) None demo_noted); vm_compute; reflexivity|].
    eapply rtc_l; [apply ws_apply, (as_insert _ 4 ty_derived (Derived [MkAnchor 3 None]) None demo_noted4); vm_compute; reflexivity|].
    eapply rtc_l; [apply ws_apply, (as_insert _ 2 ty_derived (Derived [MkAnchor 0 None]) None demo_noted2); vm_compute; reflexivity|].
    eapply rtc_l; [apply ws_apply, (as_flush _ demo_captured); vm_compute; reflexivity|].
    apply rtc_once, ws_apply, (as_insert _ 3 ty_edge (v_edge 1) None demo_left_behind). vm_compute. reflexivity.
  - apply (addressable_b_spec nothing_taken _ Hwf). vm_compute. reflexivity.
Qed.

Lemma cleanup_exact_witness :
  ∃ i row cq, plan_invocations no_marker 3 demo_left_behind cleanup_params ∅ None = Done (true, [i]) ∧
    runs_row demo_left_behind cleanup_params cleanup_function i row ∧
    single_run row = MkRun true [MkOutput (Invocation 3 []) cq] [(Invocation 3 [], MkMemo [] (revision demo_left_behind) 0)] [] ∧
    pending cq = [DerivedOp (RemoveEntityCommand 4)].
Proof.
  destruct demo_left_behind_ok as [Hwf Hadd].
  destruct (cleanup_exact no_marker nothing_taken demo_left_behind 3 ∅ Hwf Hadd) as (i & stale & Hplan & _ & _ & Hclean & _ & _ & Hrun).
  assert (DoRemove <$> stale = [DoRemove 4]) as Hst by (pose proof demo_cleanup as Hc; rewrite Hclean in Hc; by injection Hc).
  assert (Hplan' := Hplan).
  assert (plan_invocations no_marker 3 demo_left_behind cleanup_params ∅ None =
    Done (true, [MkPlanned [SUnit; SUnit; SUnit] (Invocation 3 []) [] [access_read_all ct_derived_from]])) as Hp by (vm_compute; reflexivity).
  rewrite Hp in Hplan'. injection Hplan' as <-.
  assert (runs_row demo_left_behind cleanup_params cleanup_function
    (MkPlanned [SUnit; SUnit; SUnit] (Invocation 3 []) [] [access_read_all ct_derived_from])
    (row_run demo_left_behind (MkPlanned [SUnit; SUnit; SUnit] (Invocation 3 []) [] [access_read_all ct_derived_from])
       queue_default true (shared demo_left_behind) [DoRemove 4]).1) as Hrow.
  { assert (tuple_prepared_fetch demo_left_behind cleanup_params [SUnit; SUnit; SUnit] = Done ([], [PIView cleanup_query FNone; PIMeta; PICommands])) as Hf
      by (vm_compute; reflexivity).
    eapply (runs_row_intro _ _ _ _ queue_default true (shared demo_left_behind)); [exact queue_default_ok|reflexivity|exact Hf|exact demo_cleanup|].
    apply Forall_singleton. right. right. left. }
  destruct (Hrun _ Hrow) as (cq & Hs & _ & Hpend & _). eexists _, _, cq. split_and!; [exact Hplan|exact Hrow|exact Hs|].
  rewrite Hpend. clear -Hst. destruct stale as [|e [|e' stale]]; [discriminate Hst| |discriminate Hst]. injection Hst as ->. reflexivity.
Defined.

(** A view may hold [MutRef]s, unlike a tracked one: the system is accepted, its
    row reserves the store exclusively, the item refers to the live cell, and no
    written row is recorded for the commit to reconcile. *)
Definition demo_mut_view : list SystemParam := [PView (ParamRow [] [PartMut ty_edge]) FNone].

Lemma writing_view_unreconciled :
  validate_bindings no_marker demo_mut_view = None ∧
  ∃ row v g, plan_invocations no_marker 0 demo_rows demo_mut_view ∅ None = Done (true, [row]) ∧
    acc_kind <$> pl_access row = [Write] ∧ written_rows (pl_access row) = [] ∧
    (v ← view_new demo_rows (ParamRow [] [PartMut ty_edge]) FNone; view_iter v) = Done (v, [QRow 3 [ItMut 3 0]]) ∧
    vw_guards v = [g] ∧ tk_kind g = Writing.
Proof.
  split; [vm_compute; reflexivity|]. do 3 eexists. split; [vm_compute; reflexivity|].
  do 2 (split; [vm_compute; reflexivity|]). split; [vm_compute; reflexivity|]. split; vm_compute; reflexivity.
Qed.
