(* ===== verification/Scoop.v ===== *)
(** * External reads and writes: scoops ([bowl.rs], [query.rs])

    A caller outside the systems asks for rows with a [ScoopBuilder]: it binds
    arguments, waits for the bowl to settle (or takes the last settled
    snapshot), and gets results that own the snapshot they were read from, or
    handles to write through.  The theorems: a read from a revision cursor
    reports exactly the matching rows of which a tracked component was written
    since; a handle's optimistic mutation runs on the very value it was made
    for, and of two writers with the same handle the second is turned away; and
    writing every row of a query in place changes exactly those rows, in order. *)
From stdpp Require Import base numbers sets gmap fin_maps sorting list.
From S2P Require Import Prelude Components Demo Stores Presence World WorldInv Ownership WorldOps.
From S2P Require Import Commands Query ExternalQuery Deps Commit Params Fetch Engine EngineInv.

Section scoop.
Context `{ValueOrder} `{HashOrder}.
Implicit Types (w : World) (e : Entity) (ty : TypeId) (q : QueryParam) (a : QueryArgs) (x : ExternalFilter)
  (scope : option N) (en : Engine).

(** ** The builder *)

(** [ArgBundle]: the components of a bundle are bound one after the other. *)
Definition insert_bundle (bundle : list (TypeId * Value)) a scope : result QueryArgs :=
  fold_result (λ a '(ty, v), args_insert a scope ty v) a bundle.

Record ScoopBuilder := MkBuilder { sb_args : QueryArgs; sb_last_settled : bool }.

Definition scoop_new : ScoopBuilder := MkBuilder (MkArgs ∅ ∅) false.
Definition scoop_args (b : ScoopBuilder) bundle : result ScoopBuilder :=
  a ← insert_bundle bundle (sb_args b) None; Done (MkBuilder a (sb_last_settled b)).
Definition scoop_args_for (tag : N) (b : ScoopBuilder) bundle : result ScoopBuilder :=
  a ← insert_bundle bundle (sb_args b) (Some tag); Done (MkBuilder a (sb_last_settled b)).
Definition scoop_last_settled (b : ScoopBuilder) : ScoopBuilder := MkBuilder (sb_args b) true.

(** ** Results *)

(** A result owns its snapshot. *)
Record QueryResult := MkResult { qr_snapshot : World; qr_query : QueryParam; qr_rows : list Entity }.

Definition result_new w q a scope x : result QueryResult :=
  rows ← external_filtered_rows w q a scope x; Done (MkResult w q rows).

Definition retain_rows (f : Entity → result bool) (r : QueryResult) : result QueryResult :=
  rows ← filter_result f (qr_rows r); Done (MkResult (qr_snapshot r) (qr_query r) rows).

(** [collect]: every row is fetched from the snapshot; the guards stay with the
    result. *)
Definition result_collect (r : QueryResult) : result (list Taken * list QueryItem) :=
  collect (param_fetch (qr_snapshot r) (qr_query r)) (qr_rows r).

(** [Mut<T>], of [MutResult] and [EntityMutResult]. *)
Record MutHandle := MkHandle { mh_entity : Entity; mh_revision : option Revision; mh_deferred : bool }.

Definition mut_new e (revision : option Revision) : MutHandle := MkHandle e revision false.
Definition mut_deferred (h : MutHandle) : MutHandle := MkHandle (mh_entity h) (mh_revision h) true.
Definition mut_collect (rows : list (Entity * option Revision)) : list MutHandle :=
  (λ '(e, revision), mut_new e revision) <$> rows.

(** One round of the loop behind the two methods of a handle; [m] is the
    waiter the call started with. *)
Definition mut_waiter (h : MutHandle) : PreemptWaiter := MkWaiter false (mh_deferred h).
Definition with_original {R} (m : PreemptWaiter) en (id : CallerId) ty (h : MutHandle) (held : CellId → bool)
    (f : Value → Value * R) : result (PreemptWaiter * Engine * Mutated R) :=
  mutate m en id ty (mh_entity h) (Some (mh_revision h)) held f.
Definition with_latest {R} (m : PreemptWaiter) en (id : CallerId) ty (h : MutHandle) (held : CellId → bool)
    (f : Value → Value * R) : result (PreemptWaiter * Engine * Mutated R) :=
  mutate m en id ty (mh_entity h) None held f.

(** ** What a scoop asks for *)

(** [ExternalScoop]: queries, handles with or without the entity, scopes, and
    tuples read from one snapshot. *)
Inductive Scoop :=
  | ScQuery q x
  | ScMut ty x
  | ScEntityMut ty x
  | ScNamed (tag : N) (s : Scoop)
  | ScTuple (l : list Scoop).

Inductive ScoopOutput :=
  | OutQuery (r : QueryResult)
  | OutMut (l : list MutHandle)
  | OutEntityMut (l : list (Entity * MutHandle))
  | OutTuple (l : list ScoopOutput).

Fixpoint materialize w a scope (s : Scoop) : result ScoopOutput :=
  match s with
  | ScQuery q x => r ← result_new w q a scope x; Done (OutQuery r)
  | ScMut ty x => rows ← external_mut_rows w ty a scope x; Done (OutMut (mut_collect rows))
  | ScEntityMut ty x =>
      rows ← external_mut_rows w ty a scope x;
      Done (OutEntityMut ((λ '(e, revision), (e, mut_new e revision)) <$> rows))
  | ScNamed tag s => materialize w a (Some tag) s
  | ScTuple l =>
      outs ← (fix all l := match l with
                           | [] => Done []
                           | s :: l => out ← materialize w a scope s; outs ← all l; Done (out :: outs)
                           end) l;
      Done (OutTuple outs)
  end.

(** The section that ends a scoop: the retained settled snapshot if the caller
    asked for it and there is one, or, after [stir], the current world. *)
Definition scoop_section en (b : ScoopBuilder) (s : Scoop) : result (Engine * ScoopOutput) :=
  '(en, snapshot) ← match settled_snapshot (settled_state en) with
                    | Some snapshot => if sb_last_settled b then Done (en, snapshot) else snapshot_locked en
                    | None => snapshot_locked en
                    end;
  out ← materialize snapshot (sb_args b) None s;
  Done (en, out).

(** ** Reading from a revision cursor *)

(** A dependency of the row moved past the cursor. *)
Definition moved_past w q (cursor : Revision) e : result bool :=
  ds ← param_deps w q e; Done (existsb (λ d, bool_decide (cursor < dep_revision_raw d)%N) ds).

Definition changed_rows w q a x (cursor : Revision) : result QueryResult :=
  r ← result_new w q a None x; retain_rows (moved_past w q cursor) r.

(** [changed_since], after its [stir]. *)
Definition changed_since en q a x (cursor : Revision) : result (Engine * QueryResult) :=
  '(en, snapshot) ← snapshot_locked en; r ← changed_rows snapshot q a x cursor; Done (en, r).

(** [drain], after its [stir]: the result is read, then its rows are removed. *)
Definition scoop_drain en q a x : result (Engine * QueryResult) :=
  '(en, snapshot) ← snapshot_locked en;
  r ← result_new snapshot q a None x;
  '(en, _) ← cleanup_settled en (qr_rows r);
  Done (en, r).

(** ** Writing every row *)

(** [Cow<T>], alone or with its entity. *)
Inductive CowParam := CowValue (ty : TypeId) | CowEntity (ty : TypeId).
Definition cow_type (c : CowParam) : TypeId := match c with CowValue ty | CowEntity ty => ty end.

Definition cow_rows_hinted w ty (hint : option (list Entity)) : list Entity :=
  match hint with Some candidates => filter (λ e, has w ty e = true) candidates | None => entities_with w ty end.

Definition external_filtered_cow_rows w (c : CowParam) a scope x : result (list Entity) :=
  candidates ← external_candidates w a scope x;
  filter_result (external_matches w a scope x) (cow_rows_hinted w (cow_type c) candidates).

(** What the closure is handed besides the value: the entity, if the row has it. *)
Definition cow_item (c : CowParam) e : option Entity := match c with CowValue _ => None | CowEntity _ => Some e end.

(** [for_each], after its [stir]; the scope is the tag of a [Named] query. *)
Definition scoop_for_each {A} en (c : CowParam) a scope x (f : A → option Entity → Value → Value * A) (s : A)
    : result (Engine * A) :=
  for_each en (λ w, external_filtered_cow_rows w c a scope x) (cow_type c) (λ s e v, f s (cow_item c e) v) s.

(** ** One row written in place *)

(** The live entry after [f] ran on the value of a row. *)
Definition rewritten w ty (entry : ComponentEntry) (v : Value) : ComponentEntry :=
  MkEntry (entry_value entry)
    (if write_changed ty (entry_fingerprint entry) (value_fingerprint ty v) then revision w + 1 else entry_revision entry)%N
    (value_fingerprint ty v) (entry_owner entry).

Lemma update_spec {R} X w ty e (f : Value → Value * R) v :
  wf X w → (revision w < u64_max)%N → row_value w ty e = Some v →
  ∃ w' entry, update_component_live w ty e f =
      Done (w', Some (write_changed ty (row_fingerprint w ty e) (value_fingerprint ty (f v).1), (f v).2)) ∧
    row w ty e = Some entry ∧
    (∀ ty' e', row w' ty' e' = if decide (ty' = ty ∧ e' = e) then Some (rewritten w ty entry (f v).1) else row w ty' e') ∧
    cells (shared w') = <[entry_value entry := (f v).1]> (cells (shared w)) ∧
    (revision w' ≤ revision w + 1)%N.
Proof.
  intros Hwf Hlt Hv. unfold row_value in Hv. destruct (row w ty e) as [entry|] eqn:Hr; [|done]. simpl in Hv.
  unfold update_component_live, bump, u64_checked_succ. rewrite bool_decide_eq_true_2 by lia. simpl.
  pose proof Hr as Hr0. unfold row in Hr0. destruct (store_of w ty) as [s|] eqn:Hs; [|done]. simpl in Hr0.
  rewrite Hr0, Hv. destruct (f v) as [v' out]. simpl.
  assert (row_fingerprint w ty e = entry_fingerprint entry) as -> by (unfold row_fingerprint; by rewrite Hr).
  set (c := write_changed ty (entry_fingerprint entry) (value_fingerprint ty v')).
  eexists _, entry. split; [reflexivity|]. split; [done|]. split_and!.
  - intros ty' e'. unfold rewritten. fold c. set (en := MkEntry _ _ _ _).
    assert (∀ s' w1, stores w1 = stores w → entries s' = <[e := en]> (entries s) →
      row (put_store w1 ty s') ty' e' = if decide (ty' = ty ∧ e' = e) then Some en else row w ty' e') as Hput.
    { intros s' w1 Hst Hent. rewrite row_put by (rewrite Hst; apply Hwf). case_decide as Hty.
      - subst ty'. rewrite Hent, lookup_insert. case_decide as He.
        + subst e'. by rewrite decide_True.
        + rewrite decide_False by naive_solver. unfold row. by rewrite Hs.
      - rewrite decide_False by naive_solver. unfold row, store_of. by rewrite Hst. }
    destruct c.
    + apply Hput; [done|]. simpl. by rewrite reindex_entries.
    + apply Hput; [done|]. by rewrite reindex_entries.
  - by destruct c.
  - destruct c; simpl; lia.
Qed.

Lemma update_absent {R} w ty e (f : Value → Value * R) :
  (revision w < u64_max)%N → row_value w ty e = None → update_component_live w ty e f = Done (w, None).
Proof.
  intros Hlt Hv. unfold update_component_live, bump, u64_checked_succ. rewrite bool_decide_eq_true_2 by lia. simpl.
  unfold row_value, row in Hv. destruct (store_of w ty) as [s|]; [|done]. simpl in Hv.
  destruct (entries s !! e) as [entry|]; [|done]. simpl in Hv. by rewrite Hv.
Qed.

(** What writing the rows [l] one after the other amounts to: the new values,
    whether a tracked one moved, and what the closure captured. *)
Fixpoint written_values {A} w ty (f : A → Entity → Value → Value * A) (s : A) (l : list Entity)
    : list (Entity * Value) * bool * A :=
  match l with
  | [] => ([], false, s)
  | e :: l =>
      match row_value w ty e with
      | None => written_values w ty f s l
      | Some v =>
          let '(v', s) := f s e v in
          let '(vs, changed, s) := written_values w ty f s l in
          ((e, v') :: vs, write_changed ty (row_fingerprint w ty e) (value_fingerprint ty v') || changed, s)
      end
  end.

Definition assoc_value (vs : list (Entity * Value)) e : option Value := (list_to_map vs : gmap Entity Value) !! e.

(** The other rows, the other types, and the rows themselves. *)
Record written_exactly w w' ty (vs : list (Entity * Value)) : Prop := {
  we_rows ty' e : entry_value <$> row w' ty' e = entry_value <$> row w ty' e;
  we_values ty' e : row_value w' ty' e =
    match assoc_value vs e with
    | Some v => if decide (ty' = ty) then Some v else row_value w ty' e
    | None => row_value w ty' e
    end;
  we_fingerprints ty' e : (ty' ≠ ty ∨ assoc_value vs e = None) → row_fingerprint w' ty' e = row_fingerprint w ty' e;
}.

Lemma written_values_ext {A} w w' ty (f : A → Entity → Value → Value * A) s (l : list Entity) :
  (∀ e, e ∈ l → row_value w' ty e = row_value w ty e ∧ row_fingerprint w' ty e = row_fingerprint w ty e) →
  written_values w' ty f s l = written_values w ty f s l.
Proof.
  revert s. induction l as [|e l IH]; intros s Hl; [done|]. simpl. destruct (Hl e) as [-> ->]; [by left|].
  assert (∀ s, written_values w' ty f s l = written_values w ty f s l) as Heq.
  { intros s1. apply IH. intros e' ?. apply Hl. by right. }
  destruct (row_value w ty e) as [v|]; [|apply Heq]. destruct (f s e v) as [v' s']. by rewrite Heq.
Qed.

Lemma written_values_dom {A} w ty (f : A → Entity → Value → Value * A) s (l : list Entity) e :
  e ∈ (written_values w ty f s l).1.1.*1 → e ∈ l.
Proof.
  revert s. induction l as [|e0 l IH]; intros s; [done|]. simpl. destruct (row_value w ty e0) as [v|].
  - destruct (f s e0 v) as [v' s']. specialize (IH s'). destruct (written_values w ty f s' l) as [[vs c] s''].
    simpl in *. intros [->|Hin]%elem_of_cons; [by left|right; by apply IH].
  - intros Hin. right. by eapply IH.
Qed.

Lemma one_written {R} X w ty e (f : Value → Value * R) v w' entry :
  wf X w → own_cells w → row_value w ty e = Some v → row w ty e = Some entry →
  (∀ ty' e', row w' ty' e' = if decide (ty' = ty ∧ e' = e) then Some (rewritten w ty entry (f v).1) else row w ty' e') →
  cells (shared w') = <[entry_value entry := (f v).1]> (cells (shared w)) →
  written_exactly w w' ty [(e, (f v).1)].
Proof.
  intros Hwf Hown Hv Hr Hrow Hcells. split.
  - intros ty' e'. rewrite Hrow. case_decide as Hd; [|done]. destruct Hd as [-> ->]. by rewrite Hr.
  - intros ty' e'. unfold assoc_value. simpl. rewrite lookup_insert, lookup_empty. unfold row_value, cell_get.
    rewrite Hrow, Hcells. destruct (decide (e = e')) as [<-|He].
    + destruct (decide (ty' = ty)) as [->|Hty].
      * rewrite decide_True by done. simpl. by rewrite lookup_insert, decide_True.
      * rewrite decide_False by naive_solver. destruct (row w ty' e) as [entry'|] eqn:Hr'; simpl; [|done].
        rewrite lookup_insert, decide_False; [done|]. intros Heq. destruct Hty.
        by destruct (Hown _ _ _ _ _ _ Hr' Hr (eq_sym Heq)).
    + rewrite decide_False by naive_solver. destruct (row w ty' e') as [entry'|] eqn:Hr'; simpl; [|done].
      rewrite lookup_insert, decide_False; [done|]. intros Heq. destruct He.
      by destruct (Hown _ _ _ _ _ _ Hr Hr' Heq).
  - intros ty' e' Hne. unfold row_fingerprint. rewrite Hrow. case_decide as Hd; [|done]. destruct Hd as [-> ->].
    unfold assoc_value in Hne. simpl in Hne. rewrite lookup_insert, decide_True in Hne by done. naive_solver.
Qed.

Lemma for_each_rows {A} X w ty (f : A → Entity → Value → Value * A) s (changed : bool) (l : list Entity) :
  wf X w → own_cells w → NoDup l → (revision w + N.of_nat (length l) ≤ u64_max)%N →
  let out := written_values w ty f s l in
  ∃ w', fold_result (for_each_row ty f) (w, s, changed) l = Done (w', out.2, changed || out.1.2) ∧
    written_exactly w w' ty out.1.1.
Proof.
  revert w s changed. induction l as [|e l IH]; intros w s changed Hwf Hown Hnd Hlen; cbv zeta; simpl.
  { exists w. rewrite orb_false_r. split; [done|]. by split. }
  apply NoDup_cons in Hnd as [Hnin Hnd]. simpl in Hlen. destruct (row_value w ty e) as [v|] eqn:Hv.
  - destruct (update_spec X w ty e (f s e) v Hwf) as (w1 & entry & Hu & Hr & Hrow & Hcells & Hrev); [lia|done|].
    rewrite Hu. simpl.
    pose proof (one_written X w ty e (f s e) v w1 entry Hwf Hown Hv Hr Hrow Hcells) as W1.
    destruct (update_good _ _ _ _ _ _ _ Hwf Hu) as [Hwf1 E1].
    destruct (f s e v) as [v' s'] eqn:Hf. simpl in *.
    edestruct (IH w1 s') as (w' & Hfold & W); [done|by apply E1|done|lia|].
    rewrite (written_values_ext w w1) in Hfold, W.
    2,3: intros e' He'; destruct W1 as [_ V F]; assert (assoc_value [(e, v')] e' = None) as Hno
      by (unfold assoc_value; simpl; rewrite lookup_insert, decide_False by (by intros ->); apply lookup_empty);
      rewrite V, Hno, F by (by right); done.
    pose proof (written_values_dom w ty f s' l e) as Hdom.
    destruct (written_values w ty f s' l) as [[vs c] s'']. simpl in *. exists w'.
    split; [rewrite Hfold; by rewrite orb_assoc|]. destruct W1 as [R1 V1 F1], W as [R2 V2 F2].
    assert (∀ e', assoc_value ((e, v') :: vs) e' = if decide (e = e') then Some v' else assoc_value vs e') as Hassoc
      by (intros e'; unfold assoc_value; simpl; by rewrite lookup_insert).
    assert (assoc_value vs e = None) as Hvs.
    { unfold assoc_value. apply not_elem_of_list_to_map_1. intros Hin. by apply Hnin, Hdom. }
    assert (∀ e', assoc_value [(e, v')] e' = if decide (e = e') then Some v' else None) as Hone
      by (intros e'; unfold assoc_value; simpl; by rewrite lookup_insert, lookup_empty).
    split.
    + intros ty' e'. by rewrite R2, R1.
    + intros ty' e'. rewrite V2, V1, Hassoc, Hone.
      destruct (decide (e = e')) as [<-|]; [by rewrite Hvs|]. by destruct (assoc_value vs e').
    + intros ty' e' Hne. rewrite Hassoc in Hne. rewrite F2, F1; [done|..].
      * rewrite Hone. case_decide; naive_solver.
      * case_decide; naive_solver.
  - rewrite (update_absent w ty e (f s e)) by (done || lia). simpl. apply IH; [done..|lia].
Qed.

(** The rows a [Cow] query finds. *)
Lemma cow_rows_exact X w c a scope x :
  wf X w → ids_allocated w → reconciled w → external_bound a scope x →
  ∃ l, external_filtered_cow_rows w c a scope x = Done l ∧
    exactly l (λ e, has w (cow_type c) e = true ∧ external_matches w a scope x e = Done true).
Proof.
  intros Hwf Hids Hrec Hb. unfold external_filtered_cow_rows.
  destruct (external_candidates_exact X w a scope x Hwf Hids Hrec Hb) as (cands & -> & Hc). simpl.
  pose proof (λ e, external_matches_total w a scope x e Hb) as Htotal.
  destruct cands as [l|]; simpl; [|apply filter_result_exact; [done|apply exactly_entities_with]].
  destruct (Hc l eq_refl) as (P & Hl & _ & Hm).
  destruct (filter_result_exact _ _ _ Htotal (exactly_filter _ _ (λ e, has w (cow_type c) e = true) Hl)) as (l' & Hl' & Hex).
  exists l'. split; [done|]. eapply exactly_iff; [|exact Hex]. intros e. split; [tauto|]. intros [? ?]. auto.
Qed.

Lemma exactly_length (l l' : list Entity) (P Q : Entity → Prop) :
  exactly l P → exactly l' Q → (∀ e, P e → Q e) → length l ≤ length l'.
Proof.
  intros Hl [_ HQ] Hsub. apply submseteq_length, NoDup_submseteq; [by eapply exactly_NoDup|].
  intros e He. by apply HQ, Hsub, Hl.
Qed.

(** A dependency of a row names a row and the revision it has. *)
Lemma param_deps_rows w q e ds d :
  param_deps w q e = Done ds → d ∈ ds → dep_revision d = row_revision w (dep_type d) (dep_entity d).
Proof.
  assert (∀ ty ds, component_dep_if_tracked w ty e = Done ds → d ∈ ds →
    dep_revision d = row_revision w (dep_type d) (dep_entity d)) as Hone.
  { intros ty ds0. unfold component_dep_if_tracked. destruct (value_tracked ty); [|by intros [= <-] ?%elem_of_nil].
    intros (r & Hr%expect_Done & [= <-])%bind_Done ->%list_elem_of_singleton. by simpl. }
  assert (∀ ty e0, d ∈ optional_component_dep w ty e0 → dep_revision d = row_revision w (dep_type d) (dep_entity d)) as Hopt.
  { intros ty e0. unfold optional_component_dep. destruct (value_tracked ty); [|by intros ?%elem_of_nil].
    by intros ->%list_elem_of_singleton. }
  destruct q as [fac|ty|ty|fac parts]; simpl; [by intros [= <-] ?%elem_of_nil|apply Hone..|].
  revert ds. induction parts as [|part parts IH]; intros ds; simpl; [by intros [= <-] ?%elem_of_nil|].
  intros (d1 & Hd1 & Hr)%bind_Done. apply bind_Done in Hr as (d2 & Hd2 & [= <-]).
  intros [Hd|Hd]%elem_of_app; [|by eapply IH].
  destruct part as [ty|ty|ty|fac'|inv edge ps]; simpl in Hd1; [by eapply Hone|..|by eapply Hone| |];
    injection Hd1 as <-.
  - by eapply Hopt.
  - apply list_elem_of_fmap in Hd as (p & -> & _). done.
  - unfold related_deps in Hd. apply elem_of_app in Hd as [Hd|Hd]; [by eapply Hopt|].
    apply list_elem_of_bind in Hd as (m & Hd & _). apply list_elem_of_bind in Hd as (p & Hd & _). by eapply Hopt.
Qed.

(** Written since [w]: some tracked row the query reads is there and was
    inserted or moved after [w]. *)
Definition row_written w w' q e : Prop :=
  ∃ ds d, param_deps w' q e = Done ds ∧ d ∈ ds ∧ is_Some (row_revision w' (dep_type d) (dep_entity d)) ∧
    row_revision w' (dep_type d) (dep_entity d) ≠ row_revision w (dep_type d) (dep_entity d).

Lemma moved_past_spec X w w' q e ds :
  wf X w → progressed w w' → param_deps w' q e = Done ds →
  ∃ b, moved_past w' q (revision w) e = Done b ∧ (b = true ↔ row_written w w' q e).
Proof.
  intros Hwf Hp Hds. unfold moved_past. rewrite Hds. simpl. eexists. split; [done|].
  rewrite existsb_exists. unfold row_written. split.
  - intros (d & Hd%list_elem_of_In & Hlt%bool_decide_eq_true). exists ds, d. split; [done|]. split; [done|].
    pose proof (param_deps_rows _ _ _ _ _ Hds Hd) as Heq. unfold dep_revision_raw in Hlt. rewrite Heq in Hlt.
    destruct (row_revision w' _ _) as [r|]; simpl in Hlt; [|lia]. split; [by eexists|].
    intros Hr. symmetry in Hr. apply (row_revision_bound X w) in Hr; [lia|done].
  - intros (ds' & d & Hds' & Hd & [r Hr] & Hne). rewrite Hds in Hds'. injection Hds' as <-.
    exists d. split; [by apply list_elem_of_In|]. apply bool_decide_eq_true. unfold dep_revision_raw.
    rewrite (param_deps_rows _ _ _ _ _ Hds Hd), Hr. simpl.
    destruct (pg_fresh _ _ Hp _ _ _ Hr) as [?|[Hs _]]; [done|congruence].
Qed.

(** ** Handles *)

Lemma mutate_done {R} X m en id ty e original held (f : Value → Value * R) m' en' out :
  wf X (world en) → mutate m en id ty e original held f = Done (m', en', MutDone R out) →
  (∀ r, original = Some r → row_revision (world en) ty e = r) ∧
  ∃ v entry, row (world en) ty e = Some entry ∧ row_value (world en) ty e = Some v ∧ (f v).2 = out ∧
    row (world en') ty e = Some (rewritten (world en) ty entry (f v).1) ∧ row_value (world en') ty e = Some (f v).1.
Proof.
  intros Hwf. unfold mutate. destruct (match original with Some r => _ | None => false end) eqn:Hor.
  { destruct (waiter_finish m en). by intros [= _ _ ?]. }
  intros Hm. split.
  { intros r ->. by apply negb_false_iff, bool_decide_eq_true in Hor. }
  destruct (boundary_reached m en) as [[m1 en1] r] eqn:Hr.
  apply boundary_reached_spec in Hr as ((_ & _ & Hc & _) & _). destruct r; [|by injection Hm as _ _ ?].
  apply bind_Done in Hm as ([en2 outcome] & Ha & Hm). unfold apply_component_mutation in Ha.
  assert (world en1 = world en) as Hw by (unfold world; by rewrite Hc). rewrite Hw in Ha.
  apply bind_Done in Ha as ([w2 outcome'] & Ht & Ha). injection Ha as <- ->.
  destruct outcome as [changed out'| |]; [|destruct (waiter_finish m1 _); discriminate Hm|discriminate Hm].
  unfold try_update_component_live in Ht. destruct (row (world en) ty e) as [entry|] eqn:Hrow;
    [|by apply bind_Done in Ht as (? & _ & [= _ ?])].
  destruct (held (entry_value entry)); [by apply bind_Done in Ht as (? & _ & [= _ ?])|].
  apply bind_Done in Ht as ([w1 o] & Hu & Ht). injection Ht as <- Ho. destruct o as [[ch o]|]; [|done]. injection Ho as -> ->.
  assert (revision (world en) < u64_max)%N as Hlt.
  { pose proof Hu as (next & Hn%expect_Done%u64_checked_succ_Some & _)%bind_Done. lia. }
  destruct (row_value (world en) ty e) as [v|] eqn:Hv; [|by rewrite update_absent in Hu by done].
  destruct (update_spec X _ _ _ f v Hwf Hlt Hv) as (w' & entry' & Hu' & Hr' & Hrows & Hcells & _).
  rewrite Hu in Hu'. injection Hu' as -> _ ->. rewrite Hrow in Hr'. injection Hr' as <-.
  set (en3 := on_commit (set_world w') en1) in Hm.
  destruct (waiter_finish m1 _) as [m3 en4] eqn:Hf. injection Hm as -> -> Hout. exists v, entry.
  assert (world en' = w') as ->.
  { apply waiter_finish_spec in Hf as ((_ & _ & Hc' & _) & _). unfold world. rewrite Hc'. by destruct changed. }
  assert (row w' ty e = Some (rewritten (world en) ty entry (f v).1)) as Hnew by by rewrite Hrows, decide_True.
  split_and!; try done. unfold row_value. rewrite Hnew. simpl. unfold cell_get. by rewrite Hcells, lookup_insert, decide_True.
Qed.

(** ** Properties *)

(** C29: a read from a revision cursor misses no write and reports nothing else.
    With the revision of an earlier world of the same history as the cursor,
    the rows reported are, in the order of the query, exactly the rows that
    match now and of which some tracked component the query reads was inserted
    or moved since; the read never fails. *)
Theorem changed_since_exact X0 X w w' q a x :
  wf X0 w → progressed w w' → wf X w' → addressable w' → reconciled w' → row_driven q → external_bound a None x →
  (∀ fac, q = ParamEntity fac → required_types fac = []) →
  ∃ full r, result_new w' q a None x = Done full ∧ changed_rows w' q a x (revision w) = Done r ∧
    StronglySorted N.lt (qr_rows r) ∧
    ∀ e, e ∈ qr_rows r ↔ e ∈ qr_rows full ∧ row_written w w' q e.
Proof.
  intros Hwf0 Hp Hwf Hadd Hrec Hq Hb Hanchor.
  destruct (external_rows_exact X w' q a None x Hwf Hadd Hrec Hq Hb Hanchor) as (l & Hl & Hsort & Hin).
  unfold changed_rows, result_new, retain_rows. rewrite Hl. simpl. exists (MkResult w' q l).
  assert (∀ e, e ∈ l → ∃ b, moved_past w' q (revision w) e = Done b ∧ (b = true ↔ row_written w w' q e)) as Hmoved.
  { intros e [[_ Hm] _]%Hin. destruct (filtered_deps_matched w' q FNone e Hm eq_refl) as [ds (d1 & Hd1 & _)%bind_Done].
    by eapply moved_past_spec. }
  assert (∀ l', (∀ e, e ∈ l' → e ∈ l) → StronglySorted N.lt l' →
    ∃ rows, filter_result (moved_past w' q (revision w)) l' = Done rows ∧ StronglySorted N.lt rows ∧
      ∀ e, e ∈ rows ↔ e ∈ l' ∧ row_written w w' q e) as Hfilter.
  { induction l' as [|e l' IH]; intros Hsub Hs; simpl; [exists []; split; [done|split; [constructor|set_solver]]|].
    apply StronglySorted_inv in Hs as [Hs Hall].
    destruct (Hmoved e) as (b & -> & Hbw); [apply Hsub; by left|]. simpl.
    destruct IH as (rows & -> & Hsr & Hr); [intros e' ?; apply Hsub; by right|done|]. simpl.
    destruct b; eexists; (split; [done|]); split.
    - constructor; [done|]. apply Forall_forall. intros e' [He' _]%Hr. by apply (proj1 (Forall_forall _ _) Hall).
    - intros e'. rewrite !elem_of_cons, Hr. naive_solver.
    - done.
    - intros e'. rewrite elem_of_cons, Hr. naive_solver. }
  destruct (Hfilter l) as (rows & -> & Hs & Hr); [done..|]. simpl. exists (MkResult w' q rows). done.
Qed.

(** Writing every row of a query in place.  The closure runs on the rows
    that have the component and match the filter, once each and in ascending
    order, on the values they had; those values are replaced and nothing else
    in the world changes; and if a tracked value moved, a generation is pending
    and the bowl is no longer clean. *)
Theorem scoop_for_each_exact {A} X en c a scope x (f : A → option Entity → Value → Value * A) s :
  wf X (world en) → own_cells (world en) → ids_allocated (world en) → reconciled (world en) → external_bound a scope x →
  (revision (world en) + N.of_nat (length (entities_with (world en) (cow_type c))) ≤ u64_max)%N →
  ∃ l en', exactly l (λ e, has (world en) (cow_type c) e = true ∧ external_matches (world en) a scope x e = Done true) ∧
    let out := written_values (world en) (cow_type c) (λ s e v, f s (cow_item c e) v) s l in
    scoop_for_each en c a scope x f s = Done (en', out.2) ∧
    written_exactly (world en) (world en') (cow_type c) out.1.1 ∧
    (out.1.2 = true → is_Some (pending_generation (gens en')) ∧ normal_clean (commit en') = false) ∧
    (out.1.2 = false → gens en' = gens en ∧ normal_clean (commit en') = normal_clean (commit en)).
Proof.
  intros Hwf Hown Hids Hrec Hb Hlen. destruct (cow_rows_exact X (world en) c a scope x Hwf Hids Hrec Hb) as (l & Hl & Hex).
  pose proof (exactly_length _ _ _ _ Hex (exactly_entities_with (world en) (cow_type c)) (λ e H, proj1 H)) as Hle.
  destruct (for_each_rows X (world en) (cow_type c) (λ s e v, f s (cow_item c e) v) s false l Hwf Hown)
    as (w' & Hfold & Hwritten); [by eapply exactly_NoDup|lia|].
  exists l. unfold scoop_for_each, for_each. rewrite Hl. simpl. cbv zeta. rewrite Hfold. simpl.
  eexists. split; [exact Hex|]. split; [done|].
  destruct (written_values _ _ _ _ _) as [[vs changed] s']. simpl in *. destruct changed; simpl; (split; [done|]).
  - split; [|done]. intros _. split; [|done]. unfold get_or_insert_pending. simpl. by eexists.
  - by split.
Qed.

(** C30: an optimistic mutation runs on the value its handle was made for, and
    no update is lost.  A handle made from a row of some earlier world mutates
    only while the row has the revision it had then: the closure gets the value
    with the same fingerprint (the very same cell, if the type has none) and its
    result becomes the value of the row; and when that moved the row, every
    later attempt with the same handle, in whatever state it finds the bowl, is
    turned away without running its closure. *)
Theorem original_exact {R} X0 X X' w en m id ty h a scope x rows held (f : Value → Value * R) m' en' out :
  wf X0 w → wf X (world en) → wf X' (world en') → progressed w (world en) → value_tracked ty = true →
  external_mut_rows w ty a scope x = Done rows → h ∈ mut_collect rows →
  with_original m en id ty h held f = Done (m', en', MutDone R out) →
  let e := mh_entity h in
  ∃ v, row_value (world en) ty e = Some v ∧ (f v).2 = out ∧ row_value (world en') ty e = Some (f v).1 ∧
    row_fingerprint (world en) ty e = row_fingerprint w ty e ∧
    (row_fingerprint w ty e = None → entry_value <$> row (world en) ty e = entry_value <$> row w ty e) ∧
    (write_changed ty (row_fingerprint (world en) ty e) (value_fingerprint ty (f v).1) = true →
     ∀ R' m2 en2 id2 held2 (f2 : Value → Value * R') out2, progressed (world en') (world en2) →
       with_original m2 en2 id2 ty h held2 f2 = Done out2 → out2.2 = MutMissing R').
Proof.
  intros Hwf0 Hwf Hwf' Hp Ht Hrows Hh Hm. cbv zeta. unfold with_original in *.
  assert (row_revision w ty (mh_entity h) = mh_revision h ∧ is_Some (mh_revision h)) as [Hrev [r Hr]].
  { apply list_elem_of_fmap in Hh as ([e r] & -> & Hin). simpl. unfold external_mut_rows in Hrows.
    apply bind_Done in Hrows as (cands & _ & Hrows). apply bind_Done in Hrows as (l & Hl & [= <-]).
    apply list_elem_of_fmap in Hin as (e' & [= -> ->] & Hin). split; [done|].
    assert (has w ty e' = true) as Hhas%has_row.
    { destruct (filter_result_spec _ _ _ Hl) as (_ & Hel & _). apply Hel in Hin as [Hin _].
      destruct cands; [by apply list_elem_of_filter in Hin as [Hin _]|by apply (exactly_entities_with w ty)]. }
    rewrite row_revision_row. destruct (row w ty e'); [by eexists|by destruct Hhas]. }
  destruct (mutate_done X _ _ _ _ _ _ _ _ _ _ _ Hwf Hm) as (Hor & v & entry & Hrow & Hv & Hout & Hrow' & Hv').
  specialize (Hor _ eq_refl). rewrite Hr in Hrev, Hor.
  destruct (pg_fresh _ _ Hp _ _ _ Hor) as [Hlt|[_ Hsame]]; [apply (row_revision_bound _ _ _ _ _ Hwf0) in Hrev; lia|].
  destruct (Hsame Ht) as [Hfp Hcell]. exists v. split_and!; try done.
  intros Hch R' m2 en2 id2 held2 f2 out2 Hp2 Hm2. unfold mutate in Hm2.
  assert (row_revision (world en2) ty (mh_entity h) ≠ Some r) as Hne.
  { assert (row_revision (world en') ty (mh_entity h) = Some (revision (world en) + 1)%N) as Hnew.
    { rewrite row_revision_row, Hrow'. simpl. unfold row_fingerprint in Hch. rewrite Hrow in Hch. simpl in Hch. by rewrite Hch. }
    pose proof (row_revision_bound _ _ _ _ _ Hwf Hor). pose proof (row_revision_bound _ _ _ _ _ Hwf' Hnew).
    intros Heq. destruct (pg_fresh _ _ Hp2 _ _ _ Heq) as [?|[Hsm _]]; [lia|]. rewrite Hnew in Hsm. injection Hsm. lia. }
  rewrite Hr, bool_decide_eq_false_2 in Hm2 by done. simpl in Hm2.
  destruct (waiter_finish m2 en2). by injection Hm2 as <-.
Qed.

End scoop.

(** ** Concrete scoops *)

(** Number 2 is set to 7, or gets an edge, after the cursor was read. *)
Definition demo_set_number : World := run demo_numbers (insert demo_numbers 2 ty_num (v_num 7) None).
Definition demo_set_edge : World := run demo_numbers (insert demo_numbers 2 ty_edge (v_edge 5) None).

Lemma demo_set_step ty v :
  insert demo_numbers 2 ty v None = Done (run demo_numbers (insert demo_numbers 2 ty v None)) →
  wf nothing_taken (run demo_numbers (insert demo_numbers 2 ty v None)) ∧
  progressed demo_numbers (run demo_numbers (insert demo_numbers 2 ty v None)).
Proof.
  intros Hi. pose proof (insert_good nothing_taken _ _ _ _ _ _ demo_wf_numbers Hi) as [[Hwf E] _].
  split; [exact Hwf|by apply evolves_progressed].
Qed.

Lemma demo_set_ok : wf nothing_taken demo_set_number ∧ progressed demo_numbers demo_set_number.
Proof. apply demo_set_step. vm_compute. reflexivity. Qed.

Definition demo_read_numbers : QueryParam := ParamRow [] [PartRef ty_num].

Lemma changed_since_exact_witness :
  ∃ r, changed_rows demo_set_number demo_read_numbers demo_args XNone (revision demo_numbers) = Done r ∧ qr_rows r = [2%N] ∧
    row_written demo_numbers demo_set_number demo_read_numbers 2.
Proof.
  destruct demo_set_ok as [Hwf Hp].
  destruct (changed_since_exact nothing_taken nothing_taken demo_numbers demo_set_number demo_read_numbers demo_args XNone
              demo_wf_numbers Hp Hwf) as (full & r & Hfull & Hr & _ & Hin).
  - apply (addressable_b_spec nothing_taken _ Hwf). vm_compute. reflexivity.
  - apply (reconciled_b_spec nothing_taken _ Hwf). vm_compute. reflexivity.
  - split; [discriminate|]. right. left. reflexivity.
  - exact I.
  - intros fac [=].
  - exists r. split; [exact Hr|].
    assert (∃ r', changed_rows demo_set_number demo_read_numbers demo_args XNone (revision demo_numbers) = Done r' ∧
      qr_rows r' = [2%N]) as (r' & Hr' & Hrows) by (eexists; split; vm_compute; reflexivity).
    rewrite Hr in Hr'. injection Hr' as <-. split; [exact Hrows|]. apply (Hin 2%N). rewrite Hrows. by left.
Defined.

(** A row that only now passes the filter is not reported: the cursor looks at
    what the query reads, not at what its filter reads. *)
Lemma cursor_misses_filter :
  (∃ r, result_new demo_numbers demo_read_numbers demo_args None (XWith ty_edge) = Done r ∧ qr_rows r = []) ∧
  (∃ r, result_new demo_set_edge demo_read_numbers demo_args None (XWith ty_edge) = Done r ∧ qr_rows r = [2%N]) ∧
  (∃ r, changed_rows demo_set_edge demo_read_numbers demo_args (XWith ty_edge) (revision demo_numbers) = Done r ∧ qr_rows r = []).
Proof. split_and!; eexists; split; vm_compute; reflexivity. Qed.

Definition demo_numbers_bowl : Engine := set_commit (set_world demo_numbers (commit engine_new)) engine_new.

(** Every 5 is incremented and counted. *)
Definition demo_increment (n : nat) (_ : option Entity) (v : Value) : Value * nat :=
  (match v with Plain (DNum k) => v_num (k + 1) | _ => v end, S n).

Lemma demo_numbers_own : own_cells demo_numbers.
Proof. exact (reachable_own_cells demo_shapes demo_w0 nothing_taken _ demo_init demo_numbers_steps). Qed.

Lemma scoop_for_each_exact_witness :
  ∃ en', scoop_for_each demo_numbers_bowl (CowValue ty_num) demo_args None (XWhere (EEq ty_num)) demo_increment 0 = Done (en', 2) ∧
    row_value (world en') ty_num 2 = Some (v_num 6) ∧ row_value (world en') ty_num 3 = Some (v_num 8) ∧
    row_value (world en') ty_num 4 = Some (v_num 6) ∧ is_Some (pending_generation (gens en')).
Proof.
  destruct (scoop_for_each_exact nothing_taken demo_numbers_bowl (CowValue ty_num) demo_args None (XWhere (EEq ty_num)) demo_increment 0
              demo_wf_numbers demo_numbers_own) as (l & en' & Hl & Hrun & [_ V _] & Hpend & _).
  - apply (addressable_b_spec nothing_taken _ demo_wf_numbers). vm_compute. reflexivity.
  - apply (reconciled_b_spec nothing_taken _ demo_wf_numbers). vm_compute. reflexivity.
  - eexists. reflexivity.
  - vm_compute. discriminate.
  - assert (external_filtered_cow_rows demo_numbers (CowValue ty_num) demo_args None (XWhere (EEq ty_num)) = Done [2%N; 4%N]) as Hrows
      by (vm_compute; reflexivity).
    assert (l = [2%N; 4%N]) as ->.
    { destruct (cow_rows_exact nothing_taken demo_numbers (CowValue ty_num) demo_args None (XWhere (EEq ty_num)) demo_wf_numbers)
        as (l' & Hl' & Hex).
      - apply (addressable_b_spec nothing_taken _ demo_wf_numbers). vm_compute. reflexivity.
      - apply (reconciled_b_spec nothing_taken _ demo_wf_numbers). vm_compute. reflexivity.
      - eexists. reflexivity.
      - rewrite Hrows in Hl'. injection Hl' as <-. exact (exactly_unique _ _ _ Hl Hex). }
    set (out := written_values _ _ _ _ _) in *.
    assert (out = ([(2%N, v_num 6); (4%N, v_num 6)], true, 2)) as Hout by (vm_compute; reflexivity).
    rewrite Hout in Hrun, V, Hpend. exists en'. split; [exact Hrun|].
    rewrite !V. split; [vm_compute; reflexivity|]. split; [vm_compute; reflexivity|].
    split; [vm_compute; reflexivity|]. by apply Hpend.
Defined.

Definition demo_handle : MutHandle := mut_new 2 (Some 1%N).
Definition demo_nine : Value → Value * unit := λ _, (v_num 9, ()).
Definition demo_mutated : PreemptWaiter * Engine * Mutated unit :=
  run (MkWaiter false false, demo_numbers_bowl, MutAsleep unit)
    (with_original (mut_waiter demo_handle) demo_numbers_bowl 0 ty_num demo_handle (λ _, false) demo_nine).

Lemma original_exact_witness :
  with_original (mut_waiter demo_handle) demo_mutated.1.2 1 ty_num demo_handle (λ _, false) demo_nine =
    Done (mut_waiter demo_handle, demo_mutated.1.2, MutMissing unit) ∧
  ∃ v, row_value demo_numbers ty_num 2 = Some v ∧ row_value (world demo_mutated.1.2) ty_num 2 = Some (v_num 9).
Proof.
  split; [vm_compute; reflexivity|].
  assert (with_original (mut_waiter demo_handle) demo_numbers_bowl 0 ty_num demo_handle (λ _, false) demo_nine =
    Done (demo_mutated.1.1, demo_mutated.1.2, MutDone unit ())) as Hm by (vm_compute; reflexivity).
  assert (∃ rows, external_mut_rows demo_numbers ty_num demo_args None XNone = Done rows ∧ demo_handle ∈ mut_collect rows)
    as (rows & Hrows & Hh) by (eexists; split; [vm_compute; reflexivity|vm_compute; left]).
  assert (wf nothing_taken (world demo_mutated.1.2)) as Hwf'.
  { assert (apply_step demo_numbers (world demo_mutated.1.2)) as Hs.
    { apply (as_try_update unit demo_numbers ty_num 2 (λ _, false) demo_nine (world demo_mutated.1.2) (Applied unit true ())).
      vm_compute. reflexivity. }
    exact (proj1 (apply_step_good _ _ _ demo_wf_numbers Hs)). }
  destruct (original_exact nothing_taken nothing_taken nothing_taken demo_numbers demo_numbers_bowl (mut_waiter demo_handle) 0 ty_num
              demo_handle demo_args None XNone rows (λ _, false) demo_nine _ _ _ demo_wf_numbers demo_wf_numbers Hwf'
              (progressed_refl _) eq_refl Hrows Hh Hm) as (v & Hv & _ & Hv' & _).
  exists v. split; [exact Hv|exact Hv'].
Defined.
