(* ===== verification/Executor.v ===== *)
(** * Worker batches and run queues ([dispatch.rs], [dispatch/executor.rs])

    Admitted rows run as futures on the driver's own task, or, with a runtime
    around, in batches on worker tasks that send every result through a bounded
    channel as soon as it is there.  The kernel of a row may panic; that takes
    its task down.  The theorems: a send never finds the channel full, no row is
    delivered twice whatever the interleaving of task and driver (in order, for
    plain calls), a batch that is polled ends within a bounded number of steps,
    with every row delivered or with the panic of a row, and both kinds of queue
    are, to the phase loop, a bag of runs in flight. *)
From stdpp Require Import base numbers relations list.
From S2P Require Import Prelude.

Section executor.
(** A row is its id and the result its run will have. *)
Context {Row : Type}.

(** ** One batch *)

(** A batch of futures completes in any order, a batch of calls runs front to
    back. *)
Inductive BatchKind := Futures | Calls.

(** A task panics when the kernel of a row does, or when a send finds the channel
    full ("completion capacity covers every admitted row"). *)
Inductive TaskState := TaskRunning | TaskReturned | TaskAborted | TaskPanicked | TaskOverfull.

(** The spawned task and the stream the driver holds.  [bt_receiver] is whether
    the stream is still there, [bt_aborted] whether its drop asked the task to
    stop; what was delivered is kept for the statements. *)
Record Batch := MkBatch {
  bt_kind : BatchKind;
  bt_task : TaskState;
  bt_pending : list Row;
  bt_current : option Row;
  bt_channel : list Row;
  bt_capacity : nat;
  bt_receiver : bool;
  bt_aborted : bool;
  bt_ended : bool;
  bt_delivered : list Row;
}.
Implicit Types (b : Batch) (r : Row) (runs : list Row).

(** [spawn_with] and [spawn_calls]: one sender and room for every row.  A single
    row gets no channel, its task handle is the stream: the same steps, with
    the handle as the channel. *)
Definition spawn_batch (kind : BatchKind) runs : Batch :=
  MkBatch kind TaskRunning runs None [] (length runs) true false false [].

Definition at_task (t : TaskState) (pending : list Row) (current : option Row) b : Batch :=
  MkBatch (bt_kind b) t pending current (bt_channel b) (bt_capacity b) (bt_receiver b) (bt_aborted b) (bt_ended b) (bt_delivered b).
Definition at_stream (channel delivered : list Row) (receiver aborted ended : bool) b : Batch :=
  MkBatch (bt_kind b) (bt_task b) (bt_pending b) (bt_current b) channel (bt_capacity b) receiver aborted ended delivered.

(** [sender.try_send]: the task returns when the stream is gone, and panics
    when the channel is full. *)
Definition try_send r (pending : list Row) b : Batch :=
  if negb (bt_receiver b) then at_task TaskReturned pending None b
  else if bool_decide (length (bt_channel b) < bt_capacity b)
  then at_task (bt_task b) pending None
         (at_stream (bt_channel b ++ [r]) (bt_delivered b) (bt_receiver b) (bt_aborted b) (bt_ended b) b)
  else at_task TaskOverfull pending None b.

(** What the task does on its own. *)
Inductive task_step b : Batch → Prop :=
  | ts_complete l r l' :
      bt_kind b = Futures → bt_task b = TaskRunning → bt_pending b = l ++ r :: l' → task_step b (try_send r (l ++ l') b)
  | ts_call r l :
      bt_kind b = Calls → bt_task b = TaskRunning → bt_current b = None → bt_pending b = r :: l → bt_receiver b = true →
      task_step b (at_task TaskRunning l (Some r) b)
  | ts_closed r l :
      bt_kind b = Calls → bt_task b = TaskRunning → bt_current b = None → bt_pending b = r :: l → bt_receiver b = false →
      task_step b (at_task TaskReturned (bt_pending b) None b)
  | ts_send r :
      bt_kind b = Calls → bt_task b = TaskRunning → bt_current b = Some r → task_step b (try_send r (bt_pending b) b)
  (** The panic of one row unwinds the task; the results of the others are lost
      with it, the ones it sent before are in the channel. *)
  | ts_panic_future r :
      bt_kind b = Futures → bt_task b = TaskRunning → r ∈ bt_pending b →
      task_step b (at_task TaskPanicked (bt_pending b) (bt_current b) b)
  | ts_panic_call r :
      bt_kind b = Calls → bt_task b = TaskRunning → bt_current b = Some r →
      task_step b (at_task TaskPanicked (bt_pending b) (bt_current b) b)
  | ts_return :
      bt_task b = TaskRunning → bt_pending b = [] → bt_current b = None → task_step b (at_task TaskReturned [] None b)
  | ts_abort :
      bt_aborted b = true → bt_task b = TaskRunning → bt_current b = None →
      task_step b (at_task TaskAborted (bt_pending b) None b).

(** What a poll of the stream yields: a row, the end, or a panic of the driver
    when the task did not return. *)
Inductive Polled := Ready (r : Row) | Ended | TaskFailed.

Inductive poll_step b : Polled → Batch → Prop :=
  | ps_row r l :
      bt_receiver b = true → bt_channel b = r :: l →
      poll_step b (Ready r) (at_stream l (bt_delivered b ++ [r]) true (bt_aborted b) (bt_ended b) b)
  | ps_end :
      bt_receiver b = true → bt_channel b = [] → bt_task b = TaskReturned →
      poll_step b Ended (at_stream [] (bt_delivered b) true (bt_aborted b) true b)
  | ps_failed :
      bt_receiver b = true → bt_channel b = [] → bt_task b ∈ [TaskAborted; TaskPanicked; TaskOverfull] → poll_step b TaskFailed b.

(** [Drop for SpawnedBatch]. *)
Definition drop_batch b : Batch := at_stream [] (bt_delivered b) false true (bt_ended b) b.

Inductive batch_step b : Batch → Prop :=
  | bs_task b' : task_step b b' → batch_step b b'
  | bs_poll out b' : bt_ended b = false → poll_step b out b' → batch_step b b'
  | bs_drop : bt_receiver b = true → batch_step b (drop_batch b).

(** ** The invariant of a batch *)

Definition opt_list (o : option Row) : list Row := match o with Some r => [r] | None => [] end.

(** The rows whose results the driver has not got yet. *)
Definition rows_left b : list Row := bt_channel b ++ opt_list (bt_current b) ++ bt_pending b.

Record batch_ok runs b : Prop := {
  bo_capacity : bt_capacity b = length runs;
  bo_room : bt_task b ≠ TaskOverfull;
  bo_rows : bt_receiver b = true → bt_delivered b ++ rows_left b ≡ₚ runs;
  bo_order : bt_receiver b = true → bt_kind b = Calls → bt_delivered b ++ rows_left b = runs;
  bo_abort : bt_receiver b = true → bt_aborted b = false ∧ bt_task b ≠ TaskAborted;
  bo_return : bt_receiver b = true → bt_task b = TaskReturned → bt_pending b = [] ∧ bt_current b = None;
  bo_ended : bt_ended b = true → bt_receiver b = true → bt_task b = TaskReturned ∧ bt_channel b = [];
  bo_current : bt_kind b = Futures → bt_current b = None;
  bo_sub : ∃ rest, bt_delivered b ++ rest ≡ₚ runs;
  bo_prefix : bt_kind b = Calls → bt_delivered b `prefix_of` runs;
}.

(** The fields a step leaves alone, or whose premise it refutes. *)
#[local] Ltac batch_fields :=
  split; unfold rows_left; simpl; intros;
  repeat match goal with
         | H : ?P, G : ?P → _ |- _ => match type of P with Prop => specialize (G H) end
         | H : _ ∧ _ |- _ => destruct H
         end;
  split_and?; try done; try congruence; eauto.

Lemma spawn_ok kind runs : batch_ok runs (spawn_batch kind runs).
Proof.
  split; unfold rows_left; simpl; try done.
  - by exists runs.
  - intros _. apply prefix_nil.
Qed.

Lemma rows_left_length runs b : batch_ok runs b → bt_receiver b = true → length (bt_delivered b) + length (rows_left b) = length runs.
Proof. intros Hok Hr. rewrite <-length_app. by rewrite (bo_rows _ _ Hok Hr). Qed.

(** A send finds room: the row it sends is one of those it makes room for. *)
Lemma send_ok runs b r (pending : list Row) :
  batch_ok runs b → bt_task b = TaskRunning →
  (bt_receiver b = true → opt_list (bt_current b) ++ bt_pending b ≡ₚ r :: pending) →
  (bt_receiver b = true → bt_kind b = Calls → opt_list (bt_current b) ++ bt_pending b = r :: pending) →
  batch_ok runs (try_send r pending b).
Proof.
  intros Hok Ht Hp Hc. unfold try_send. pose proof Hok as [Hcap Hpan Hrows Hord Hab Hret Hend Hcur Hsub Hpre].
  destruct (bt_receiver b) eqn:Hr; simpl; [|split; simpl; rewrite ?Hr; done].
  specialize (Hp eq_refl). specialize (Hc eq_refl).
  assert (length (bt_channel b) < bt_capacity b) as Hroom.
  { pose proof (rows_left_length _ _ Hok Hr) as Hl. unfold rows_left in Hl. rewrite length_app, Hp in Hl. simpl in Hl. lia. }
  rewrite bool_decide_eq_true_2 by done. unfold rows_left in *.
  split; unfold rows_left; simpl; try done.
  - intros _. rewrite <-Hrows by done. by rewrite Hp, <-app_assoc.
  - intros _ Hk. rewrite <-Hord by done. by rewrite (Hc Hk), <-app_assoc.
  - intros _ ?. congruence.
  - intros He _. destruct (Hend He eq_refl) as [? _]. congruence.
Qed.

Lemma task_step_ok runs b b' : batch_ok runs b → task_step b b' → batch_ok runs b'.
Proof.
  intros Hok Hs. pose proof Hok as [Hcap Hpan Hrows Hord Hab Hret Hend Hcur Hsub Hpre].
  destruct Hs as [l r l' Hk Ht Hp|r l Hk Ht Hc Hp Hr|r l Hk Ht Hc Hp Hr|r Hk Ht Hc|r Hk Ht Hin|r Hk Ht Hc|Ht Hp Hc|Ha Ht Hc].
  - apply send_ok; [done..| |congruence]. intros _. rewrite (Hcur Hk), Hp. simpl. by rewrite Permutation_middle.
  - unfold rows_left in *. rewrite Hc, Hp in *. batch_fields.
  - batch_fields.
  - apply send_ok; [done..|by rewrite Hc|by rewrite Hc].
  - unfold rows_left in *. batch_fields.
  - unfold rows_left in *. batch_fields.
  - unfold rows_left in *. rewrite Hc, Hp in *. batch_fields.
  - assert (bt_receiver b = false) as Hr by (destruct (bt_receiver b); [destruct (Hab eq_refl); congruence|done]).
    batch_fields.
Qed.

(** A poll delivers a row that was left, ends when none is, and panics only when
    a row did. *)
Lemma poll_step_ok runs b out b' :
  batch_ok runs b → bt_ended b = false → poll_step b out b' →
  batch_ok runs b' ∧ match out with
                     | Ready r => rows_left b = r :: rows_left b'
                     | Ended => rows_left b = [] ∧ rows_left b' = [] ∧ bt_ended b' = true
                     | TaskFailed => b' = b ∧ bt_task b = TaskPanicked
                     end.
Proof.
  intros Hok Hne Hs. pose proof Hok as [Hcap Hpan Hrows Hord Hab Hret Hend Hcur Hsub Hpre].
  destruct Hs as [r l Hr Hc|Hr Hc Ht|Hr Hc Ht].
  - split; [|unfold rows_left; simpl; by rewrite Hc]. unfold rows_left in *. rewrite Hc in *. batch_fields.
    + by rewrite <-app_assoc, <-Hrows.
    + by rewrite <-app_assoc, <-Hord.
    + exists (l ++ opt_list (bt_current b) ++ bt_pending b). by rewrite <-app_assoc, <-Hrows.
    + exists (l ++ opt_list (bt_current b) ++ bt_pending b). by rewrite <-app_assoc, <-Hord.
  - destruct (Hret Hr Ht) as [Hp Hcu]. unfold rows_left in *. simpl. rewrite Hc, Hcu, Hp in *. split; [|done]. batch_fields.
    1,2: rewrite Hcu, Hp; auto.
  - destruct (Hab Hr) as [_ ?]. do 2 (apply elem_of_cons in Ht as [?|Ht]; [done|]). by apply list_elem_of_singleton in Ht.
Qed.

Lemma batch_step_ok runs b b' : batch_ok runs b → batch_step b b' → batch_ok runs b'.
Proof.
  intros Hok [b1 Hs|out b1 He Hs|Hr]; [by eapply task_step_ok|by eapply (poll_step_ok runs b)|].
  destruct Hok. by split.
Qed.

(** ** A batch that is polled ends *)

(** Work left: a row is called, sent and received; the task returns, the end
    is seen. *)
Definition batch_work b : nat :=
  3 * length (bt_pending b) + 2 * length (opt_list (bt_current b)) + length (bt_channel b) +
  (match bt_task b with TaskRunning => 1 | _ => 0 end) + (if bt_ended b then 0 else 1).

(** The task goes on, or the driver polls the stream, until it has ended or the
    driver panicked. *)
Inductive driven_step b : Batch → Prop :=
  | ds_task b' : task_step b b' → driven_step b b'
  | ds_poll out b' : bt_ended b = false → out ≠ TaskFailed → poll_step b out b' → driven_step b b'.

Lemma send_work runs b r (pending : list Row) :
  batch_ok runs b → bt_task b = TaskRunning → batch_ok runs (try_send r pending b) →
  3 * length pending + 1 < 3 * length (bt_pending b) + 2 * length (opt_list (bt_current b)) →
  batch_work (try_send r pending b) < batch_work b.
Proof.
  intros Hok Ht Hok' Hlt. unfold try_send in *. destruct (negb (bt_receiver b)).
  - unfold batch_work. simpl. rewrite Ht. lia.
  - case_bool_decide; [|by destruct (bo_room _ _ Hok')]. unfold batch_work. simpl. rewrite Ht, length_app. simpl. lia.
Qed.

Lemma driven_work runs b b' : batch_ok runs b → driven_step b b' → batch_work b' < batch_work b ∧ batch_ok runs b'.
Proof.
  intros Hok [b1 Hs|out b1 He Hout Hs].
  - pose proof (task_step_ok _ _ _ Hok Hs) as Hok'. split; [|done].
    destruct Hs as [l r l' Hk Ht Hp|r l Hk Ht Hc Hp Hr|r l Hk Ht Hc Hp Hr|r Hk Ht Hc|r Hk Ht Hin|r Hk Ht Hc|Ht Hp Hc|Ha Ht Hc].
    + eapply send_work; [done..|]. rewrite Hp, !length_app. simpl. lia.
    + unfold batch_work. simpl. rewrite Hc, Hp, Ht. simpl. lia.
    + unfold batch_work. simpl. rewrite Hc, Ht. simpl. lia.
    + eapply send_work; [done..|]. rewrite Hc. simpl. lia.
    + unfold batch_work. simpl. rewrite Ht. lia.
    + unfold batch_work. simpl. rewrite Ht. lia.
    + unfold batch_work. simpl. rewrite Hc, Hp, Ht. simpl. lia.
    + unfold batch_work. simpl. rewrite Hc, Ht. simpl. lia.
  - destruct (poll_step_ok _ _ _ _ Hok He Hs) as [Hok' _]. split; [|done].
    destruct Hs as [r l Hr Hc|Hr Hc Ht|Hr Hc Ht]; [| |done]; unfold batch_work; simpl; rewrite ?Hc, ?He; simpl; lia.
Qed.

(** As long as the stream is there, has not ended and has not failed, task or
    stream can go on. *)
Lemma driven_progress runs b :
  batch_ok runs b → bt_receiver b = true → bt_ended b = false →
  (∃ b', driven_step b b') ∨ (bt_task b = TaskPanicked ∧ poll_step b TaskFailed b).
Proof.
  intros Hok Hr He. pose proof Hok as [Hcap Hpan Hrows Hord Hab Hret Hend Hcur Hsub Hpre].
  destruct (bt_channel b) as [|r l] eqn:Hc; [|left; eexists; eapply (ds_poll _ (Ready r)); [done|done|by apply ps_row]].
  destruct (bt_task b) eqn:Ht; [|left; eexists; eapply (ds_poll _ Ended); [done|done|by apply ps_end]|by destruct (Hab Hr)| |done].
  - left. destruct (bt_current b) as [r|] eqn:Hcu.
    + destruct (bt_kind b) eqn:Hk; [by specialize (Hcur eq_refl)|]. eexists. apply ds_task. by apply ts_send.
    + destruct (bt_pending b) as [|r l] eqn:Hp; [eexists; apply ds_task; by apply ts_return|].
      destruct (bt_kind b) eqn:Hk; eexists; apply ds_task.
      * by apply (ts_complete b [] r l).
      * by apply (ts_call b r l).
  - right. split; [done|]. apply ps_failed; [done|done|]. rewrite Ht. right. left.
Qed.

(** ** The queue of a phase *)

(** [Queue]: one set of futures, or the batches of the workers. *)
Inductive Queue := Cooperative (runs : list Row) | Workers (batches : list Batch).

(** [push_batch] and [push_calls]. *)
Definition queue_push_batch (kind : BatchKind) runs (q : Queue) : Queue :=
  match q with
  | Cooperative pending => Cooperative (pending ++ runs)
  | Workers batches => Workers (batches ++ [spawn_batch kind runs])
  end.

(** A future or a task goes on ([None]), or a poll takes a result out. *)
Inductive queue_step : Queue → option Row → Queue → Prop :=
  | qs_ready l r l' : queue_step (Cooperative (l ++ r :: l')) (Some r) (Cooperative (l ++ l'))
  | qs_task l b b' l' : task_step b b' → queue_step (Workers (l ++ b :: l')) None (Workers (l ++ b' :: l'))
  | qs_received l b r b' l' :
      bt_ended b = false → poll_step b (Ready r) b' → queue_step (Workers (l ++ b :: l')) (Some r) (Workers (l ++ b' :: l'))
  | qs_exhausted l b b' l' :
      bt_ended b = false → poll_step b Ended b' → queue_step (Workers (l ++ b :: l')) None (Workers (l ++ l')).

(** The runs in flight. *)
Definition queue_rows (q : Queue) : list Row :=
  match q with Cooperative runs => runs | Workers batches => batches ≫= rows_left end.

Definition runs_ok (q : Queue) : Prop :=
  match q with
  | Cooperative _ => True
  | Workers batches => Forall (λ b, bt_receiver b = true ∧ ∃ runs, batch_ok runs b) batches
  end.

Lemma task_step_rows runs b b' :
  batch_ok runs b → bt_receiver b = true → task_step b b' → bt_receiver b' = true ∧ rows_left b' ≡ₚ rows_left b.
Proof.
  intros Hok Hr Hs. pose proof (task_step_ok _ _ _ Hok Hs) as Hok'.
  assert (bt_receiver b' = true ∧ bt_delivered b' = bt_delivered b) as [Hr' Hd].
  { assert (∀ r pending, bt_receiver (try_send r pending b) = true ∧ bt_delivered (try_send r pending b) = bt_delivered b) as Hsend
      by (intros; unfold try_send; rewrite Hr; simpl; by case_bool_decide).
    destruct Hs; try done; apply Hsend. }
  split; [done|]. pose proof (bo_rows _ _ Hok Hr) as P. pose proof (bo_rows _ _ Hok' Hr') as P'.
  rewrite Hd in P'. rewrite <-P in P'. by apply Permutation_app_inv_l in P'.
Qed.

(** ** From the spawn to the end *)

Lemma reachable_batch kind runs b : rtc batch_step (spawn_batch kind runs) b → batch_ok runs b ∧ bt_kind b = kind.
Proof.
  intros Hs. assert (∀ b0, rtc batch_step b0 b → batch_ok runs b0 → bt_kind b0 = kind → batch_ok runs b ∧ bt_kind b = kind) as Hgen.
  { clear Hs. intros b0 Hs. induction Hs as [|b1 b2 b3 Hstep _ IH]; [done|]. intros Hok Hk. apply IH.
    - by eapply batch_step_ok.
    - rewrite <-Hk. destruct Hstep as [b' Hs|out b' _ Hs|]; [|by destruct Hs|done].
      destruct Hs; try done; unfold try_send; destruct (negb _); [done|by case_bool_decide|done|by case_bool_decide]. }
  apply (Hgen (spawn_batch kind runs)); [done|apply spawn_ok|done].
Qed.

Lemma ended_delivers runs b : batch_ok runs b → bt_receiver b = true → bt_ended b = true → bt_delivered b ≡ₚ runs.
Proof.
  intros Hok Hr He. destruct (bo_ended _ _ Hok He Hr) as [Ht Hc]. destruct (bo_return _ _ Hok Hr Ht) as [Hp Hcu].
  pose proof (bo_rows _ _ Hok Hr) as Hrows. unfold rows_left in Hrows. rewrite Hc, Hcu, Hp in Hrows. simpl in Hrows.
  by rewrite app_nil_r in Hrows.
Qed.

Lemma batch_work_bound runs b : batch_ok runs b → bt_receiver b = true → batch_work b ≤ 3 * length runs + 2.
Proof.
  intros Hok Hr. pose proof (rows_left_length _ _ Hok Hr) as Hl. unfold rows_left in Hl. rewrite !length_app in Hl.
  unfold batch_work. destruct (bt_task b), (bt_ended b); lia.
Qed.

Lemma driven_receiver b b' : bt_receiver b = true → driven_step b b' → bt_receiver b' = true.
Proof.
  intros Hr [b1 Hs|out b1 _ _ Hs]; [|by destruct Hs]. destruct Hs; try done; unfold try_send; rewrite Hr; simpl; by case_bool_decide.
Qed.

(** Every step costs work. *)
Lemma driven_bounded runs n b b' :
  batch_ok runs b → bt_receiver b = true → nsteps driven_step n b b' →
  n + batch_work b' ≤ batch_work b ∧ batch_ok runs b' ∧ bt_receiver b' = true.
Proof.
  intros Hok Hr Hs. revert Hok Hr. induction Hs as [b|n b b1 b' Hstep _ IH]; intros Hok Hr; [by split|].
  destruct (driven_work _ _ _ Hok Hstep) as [Hlt Hok1].
  destruct (IH Hok1 (driven_receiver _ _ Hr Hstep)) as (? & ? & ?). split; [lia|done].
Qed.

(** ** Properties *)

(** C31: a worker batch delivers its rows, or the panic of one.  Whatever the
    interleaving of the task, the polls, a panic in the kernel of a row and a
    drop of the stream, a send never finds the channel full, no row is delivered
    twice or made up, and plain calls are delivered in their order.  A stream that
    has ended delivered every row: a panicked batch is never mistaken for an
    exhausted one, and a poll panics only when a row did.  And a batch that is
    driven, its stream kept, ends: every sequence of steps is at most three a row
    and two long, and when no step is left the stream has ended with every row
    delivered, or the next poll passes on the panic of a row. *)
Theorem batch_delivers kind runs b :
  rtc batch_step (spawn_batch kind runs) b →
  bt_task b ≠ TaskOverfull ∧ (∃ rest, bt_delivered b ++ rest ≡ₚ runs) ∧
  (kind = Calls → bt_delivered b `prefix_of` runs) ∧
  (bt_ended b = false → ∀ b', poll_step b TaskFailed b' → bt_task b = TaskPanicked) ∧
  (bt_receiver b = true →
     (bt_ended b = true → bt_task b = TaskReturned ∧ bt_delivered b ≡ₚ runs) ∧
     ∀ n b', nsteps driven_step n b b' → n ≤ 3 * length runs + 2 ∧
       ((∀ b'', ¬ driven_step b' b'') →
        (bt_ended b' = true ∧ bt_delivered b' ≡ₚ runs) ∨ (bt_task b' = TaskPanicked ∧ poll_step b' TaskFailed b'))).
Proof.
  intros Hs. destruct (reachable_batch kind runs b Hs) as [Hok Hk].
  split; [apply Hok|]. split; [apply Hok|]. split; [intros ->; by apply (bo_prefix _ _ Hok)|].
  split; [intros He b' Hp; by destruct (poll_step_ok _ _ _ _ Hok He Hp) as [_ [_ ?]]|]. intros Hr. split.
  { intros He. split; [by apply (bo_ended _ _ Hok He Hr)|]. by apply ended_delivers. }
  intros n b' Hsteps. destruct (driven_bounded _ _ _ _ Hok Hr Hsteps) as (Hn & Hok' & Hr').
  split; [pose proof (batch_work_bound _ _ Hok Hr); lia|]. intros Hstuck. destruct (bt_ended b') eqn:He.
  - left. split; [done|]. by apply ended_delivers.
  - right. destruct (driven_progress _ _ Hok' Hr' He) as [[b'' Hd]|?]; [by destruct (Hstuck b'')|done].
Qed.

(** C32: to the phase loop the two kinds of queue are the same: a bag of runs in
    flight.  Pushing a plan adds its rows; a step that yields nothing changes no
    row; and a step that yields a result takes exactly that row out. *)
Theorem queue_refines_bag q kind runs out q' :
  runs_ok q →
  (runs_ok (queue_push_batch kind runs q) ∧ queue_rows (queue_push_batch kind runs q) ≡ₚ queue_rows q ++ runs) ∧
  (queue_step q out q' → runs_ok q' ∧
     match out with Some r => queue_rows q ≡ₚ r :: queue_rows q' | None => queue_rows q' ≡ₚ queue_rows q end).
Proof.
  intros Hq. split.
  { destruct q as [pending|batches]; simpl; [done|]. split.
    - apply Forall_app. split; [done|]. constructor; [|constructor]. split; [done|]. exists runs. apply spawn_ok.
    - by rewrite bind_app, bind_cons, app_nil_r. }
  intros Hs. destruct Hs as [l r l'|l b b' l' Hs|l b r b' l' He Hs|l b b' l' He Hs]; simpl in *.
  - split; [done|]. by rewrite Permutation_middle.
  - apply Forall_app in Hq as [Hl [[Hr [runs0 Hok]] Hl']%Forall_cons].
    destruct (task_step_rows _ _ _ Hok Hr Hs) as [Hr' Hrows]. split.
    + apply Forall_app. split; [done|]. constructor; [|done]. split; [done|]. exists runs0. by eapply task_step_ok.
    + by rewrite !bind_app, !bind_cons, Hrows.
  - apply Forall_app in Hq as [Hl [[Hr [runs0 Hok]] Hl']%Forall_cons].
    destruct (poll_step_ok _ _ _ _ Hok He Hs) as [Hok' Hrows]. split.
    + apply Forall_app. split; [done|]. constructor; [|done]. split; [by inversion Hs|]. by exists runs0.
    + rewrite !bind_app, !bind_cons, Hrows. simpl. symmetry. apply Permutation_middle.
  - apply Forall_app in Hq as [Hl [[Hr [runs0 Hok]] Hl']%Forall_cons].
    destruct (poll_step_ok _ _ _ _ Hok He Hs) as [_ (Hrows & _ & _)]. split; [by apply Forall_app|].
    by rewrite !bind_app, bind_cons, Hrows.
Qed.

End executor.

(** ** A concrete batch *)

(** Three futures; the second has completed. *)
Definition demo_sent : Batch := try_send 2 ([1] ++ [3]) (spawn_batch Futures [1; 2; 3]).

Lemma demo_sent_steps : rtc batch_step (spawn_batch Futures [1; 2; 3]) demo_sent.
Proof. apply rtc_once, bs_task. exact (ts_complete (spawn_batch Futures [1; 2; 3]) [1] 2 [3] eq_refl eq_refl eq_refl). Qed.

(** The third row panics; the result of the second is still delivered, then the
    poll fails. *)
Definition demo_panicked : Batch := at_task TaskPanicked [1; 3] None demo_sent.

Lemma demo_panicked_steps : rtc batch_step (spawn_batch Futures [1; 2; 3]) demo_panicked.
Proof.
  eapply rtc_r; [exact demo_sent_steps|]. apply bs_task. apply (ts_panic_future demo_sent 3); [done|done|]. right. left.
Qed.

Lemma batch_delivers_witness :
  bt_channel demo_panicked = [2] ∧ nsteps driven_step 1 demo_panicked (at_stream [] [2] true false false demo_panicked) ∧
  ((∀ b'', ¬ driven_step (at_stream [] [2] true false false demo_panicked) b'') →
   (false = true ∧ [2] ≡ₚ [1; 2; 3]) ∨
   (TaskPanicked = TaskPanicked ∧
    poll_step (at_stream [] [2] true false false demo_panicked) TaskFailed (at_stream [] [2] true false false demo_panicked))).
Proof.
  split; [reflexivity|].
  assert (nsteps driven_step 1 demo_panicked (at_stream [] [2] true false false demo_panicked)) as Hd.
  { apply nsteps_once. apply (ds_poll _ (Ready 2)); [done|done|]. by apply (ps_row demo_panicked 2 []). }
  split; [exact Hd|].
  destruct (batch_delivers Futures [1; 2; 3] demo_panicked demo_panicked_steps) as (_ & _ & _ & _ & Hlive).
  exact (proj2 (proj2 (Hlive eq_refl) 1 _ Hd)).
Defined.

(** Pushing another batch behind it, and receiving its first result. *)
Definition demo_received : Batch := at_stream [] [2] true false false demo_sent.

Lemma queue_refines_bag_witness :
  queue_step (Workers [demo_sent]) (Some 2) (Workers [demo_received]) ∧
  queue_rows (Workers [demo_sent]) ≡ₚ 2 :: queue_rows (Workers [demo_received]) ∧
  queue_rows (queue_push_batch Calls [4] (Workers [demo_sent])) ≡ₚ queue_rows (Workers [demo_sent]) ++ [4].
Proof.
  assert (runs_ok (Workers [demo_sent])) as Hq.
  { constructor; [|constructor]. split; [reflexivity|]. exists [1; 2; 3].
    exact (proj1 (reachable_batch Futures [1; 2; 3] demo_sent demo_sent_steps)). }
  assert (queue_step (Workers [demo_sent]) (Some 2) (Workers [demo_received])) as Hs
    by exact (qs_received [] demo_sent 2 demo_received [] eq_refl (ps_row demo_sent 2 [] eq_refl eq_refl)).
  split; [exact Hs|].
  destruct (queue_refines_bag (Workers [demo_sent]) Calls [4] (Some 2) (Workers [demo_received]) Hq) as [[_ Hpush] Hstep].
  split; [exact (proj2 (Hstep Hs))|exact Hpush].
Defined.
