(* ===== verification/Derive.v ===== *)
(** * What the derives promise the engine ([crates/macros/src/lib.rs], [component.rs], [declare.rs])

    The generated implementations, given the types their names resolve to.
    [derived_types] is the behaviour of a crate whose components are all
    derived; when edges and inverses name each other it satisfies the laws the
    engine relies on, so every theorem about relationships holds for it.  The
    shapes of a derived schema are the facets its aliases declare, so a spawn
    the compiler accepts conforms at run time.  A derived parameter bundle
    forwards some of the planner's questions to its fields and answers others
    with the defaults of the trait; the lemmas at the end show what is lost. *)
From Stdlib Require Import Ascii.
From stdpp Require Import base numbers strings sets gmap fin_maps sorting list.
From S2P Require Import Prelude Access Components Demo Stores Presence World WorldInv Ownership WorldOps Relations.
From S2P Require Import Frame Commands Query Deps Planner Commit Params Engine Declare Macros.

(** ** Derived components *)

(** The fields generated code reads: [self.revision], [self.0] of an edge,
    [self.0] of an inverse; [contents] is what else a derived [Hash] sees. *)
Record StructValue := MkStruct {
  revision_field : N;
  edge_field : Entity;
  members_field : list Entity;
  contents : N;
}.

Section derived.
(** The crate: its derived types, its [Singleton<T>] markers and their [T], and
    the types names resolve to. *)
Variable impl_of : TypeId → option ComponentImpl.
Variable singleton_of : TypeId → option TypeId.
Variable type_id : string → TypeId.
Variable resolve : string → Decl.
(** The standard hasher, and the type id of [DerivedFrom]. *)
Variable hash_value : StructValue → N.
Variable hash_members : list Entity → N.
Variable hash_anchors : list DerivedAnchor → N.
Variable derived_from : TypeId.

Definition inverse_edge (inv : TypeId) : option TypeId :=
  i ← impl_of inv; edge ← ci_inverse i; Some (type_id edge).

Definition generated_tracked (ty : TypeId) : bool :=
  match impl_of ty with
  | Some i => ci_tracked i
  | None => negb (bool_decide (is_Some (singleton_of ty)))
  end.

Definition generated_fingerprint (ty : TypeId) (v : StructValue) : option N :=
  i ← impl_of ty;
  match ci_fingerprint i with
  | FpDefault => None
  | FpRevision => Some (revision_field v)
  | FpHash => Some (hash_value v)
  | FpMembers => Some (hash_members (members_field v))
  end.

(** [RelationshipEdge::new::<T>(self.0)] *)
Definition generated_edge (ty : TypeId) (v : StructValue) : option (TypeId * Entity) :=
  i ← impl_of ty; target ← ci_edge i; Some (type_id target, edge_field v).

(** [relationship_retractions_for] *)
Definition generated_retractions (ty : TypeId) (v : StructValue) : list (TypeId * Entity) :=
  match inverse_edge ty with Some edge => (λ m, (edge, m)) <$> members_field v | None => [] end.

Definition generated_members (ty : TypeId) (v : StructValue) : option (list Entity) :=
  match inverse_edge ty with Some _ => Some (members_field v) | None => None end.

Definition derived_types : ComponentTypes := {|
  Payload := StructValue;
  ct_tracked := generated_tracked;
  ct_fingerprint := generated_fingerprint;
  ct_singleton_key := singleton_of;
  ct_edge := generated_edge;
  ct_retractions := generated_retractions;
  ct_members := generated_members;
  ct_from_members _ members := MkStruct 0 0 members 0;
  ct_derived_from := derived_from;
  ct_hash_anchors := hash_anchors;
|}.

(** Every implementation came out of the derive. *)
Definition generated (group_string : Delimiter → list TokenTree → string) : Prop :=
  ∀ ty i, impl_of ty = Some i → ∃ input, derive_component group_string input = inr i.

(** Edges and inverses name each other; nothing checks this. *)
Definition paired : Prop :=
  (∀ ty i target, impl_of ty = Some i → ci_edge i = Some target → inverse_edge (type_id target) = Some ty) ∧
  (∀ inv ty, inverse_edge inv = Some ty →
     ∃ i target, impl_of ty = Some i ∧ ci_edge i = Some target ∧ type_id target = inv).

Lemma paired_injective inv1 inv2 ty :
  paired → inverse_edge inv1 = Some ty → inverse_edge inv2 = Some ty → inv1 = inv2.
Proof.
  intros [_ Hp] H1 H2. destruct (Hp _ _ H1) as (i1 & t1 & Hi1 & Ht1 & <-), (Hp _ _ H2) as (i2 & t2 & Hi2 & Ht2 & <-).
  congruence.
Qed.

(** An inverse is not an edge: the derive rejects both attributes together. *)
Lemma generated_inverse_no_edge gs inv ty v : generated gs → inverse_edge inv = Some ty → generated_edge inv v = None.
Proof.
  unfold inverse_edge, generated_edge. intros Hgen. destruct (impl_of inv) as [i|] eqn:Hi; simpl; [|done].
  destruct (Hgen _ _ Hi) as [input Hd]. destruct (derived_consistent _ _ _ Hd) as [[->| ->] _]; done.
Qed.

(** C38: derived components are lawful.  In a crate whose component traits are
    all generated, whose edges and inverses name each other, and whose markers
    are not derived, the generated code satisfies every law the engine assumes
    of relationships, with the association the attributes declare. *)
Theorem derived_components_lawful gs :
  generated gs → paired → inverse_edge derived_from = None →
  (∀ ty, is_Some (impl_of ty) → singleton_of ty = None) →
  ∃ laws : @RelationshipLaws derived_types, ∀ inv, @edge_of derived_types laws inv = inverse_edge inv.
Proof.
  intros Hgen Hpair Hdf Hmarker.
  unshelve eexists.
  - refine (@Build_RelationshipLaws derived_types inverse_edge _ _ _ _ _ _ _ Hdf); simpl.
    + intros inv1 inv2 ty. by apply (paired_injective _ _ _ Hpair).
    + intros ty v inv target. unfold generated_edge. destruct (impl_of ty) as [i|] eqn:Hi; simpl; [|done].
      destruct (ci_edge i) as [t|] eqn:Ht; simpl; [|done]. intros [= <- _]. by apply (proj1 Hpair ty i).
    + intros inv ty ms Hinv. unfold generated_members. by rewrite Hinv.
    + intros inv ty v Hinv. unfold generated_retractions, generated_members. by rewrite Hinv.
    + intros inv v Hinv. unfold generated_retractions. by rewrite Hinv.
    + intros inv ty v. by apply (generated_inverse_no_edge gs).
    + intros inv ty Hinv. apply Hmarker. unfold inverse_edge in Hinv. by destruct (impl_of inv).
  - done.
Qed.

(** ** Derived schemas *)

Definition facet_of (parts : list (string * bool)) : list FacetPart :=
  (λ part, MkFacetPart (type_id part.1) part.2) <$> parts.

(** The alias of a shape: the tuple of its parts as rustc resolves the types they
    name, [::core::option::Option] around those the derive took for optional. *)
Definition alias_decl (parts : list (string * bool)) : Decl :=
  DTuple ((λ part, if part.2 : bool then DOption (resolve part.1) else resolve part.1) <$> parts).

(** Every part names a component, once an [Option<..>] the derive recognised is
    stripped.  The text of an option written otherwise ([std::option::Option<T>],
    an alias) names an option instead. *)
Definition names_components (parts : list (string * bool)) : Prop :=
  ∀ name optional, (name, optional) ∈ parts → resolve name = DComponent (type_id name).

(** The generated [ShapeDesc]; [name] stands for its name. *)
Definition shape_desc (name : N) (s : ShapeImpl) : ShapeDesc :=
  MkShape name (type_id <$> si_required s) (type_id <$> si_optional s).

(** [Schema::shapes] *)
Definition schema_shapes (sc : SchemaImpl) : list ShapeDesc := imap (λ i s, shape_desc (N.of_nat i) s) (sc_shapes sc).

Lemma shape_impls_spec fields shapes s :
  shape_impls fields = inr shapes → s ∈ shapes → ∃ field, field ∈ fields ∧ shape_impl field = inr s.
Proof.
  revert shapes. induction fields as [|field fields IH]; intros shapes; cbn [shape_impls].
  - intros [= <-]. by intros ?%elem_of_nil.
  - destruct (shape_impl field) as [|shape] eqn:Hf; [done|].
    destruct (shape_impls fields) as [|rest] eqn:Hr; [done|]. intros [= <-].
    intros [->|Hin]%elem_of_cons; [exists field; split; [by left|done]|].
    destruct (IH _ eq_refl Hin) as (f & ? & ?). exists f. split; [by right|done].
Qed.

Lemma facet_filter parts (b : bool) :
  part_type <$> filter (λ p, part_optional p = b) (facet_of parts) = type_id <$> (fst <$> filter (λ x, x.2 = b) parts).
Proof.
  induction parts as [|[n o] parts IH]; [done|]. unfold facet_of. rewrite fmap_cons, !filter_cons. simpl.
  unfold facet_of in IH. case_decide; rewrite ?fmap_cons, IH; done.
Qed.

(** A generated shape describes the facet its alias declares. *)
Lemma generated_shape group_string input sc s n :
  derive_schema group_string input = inr sc → s ∈ sc_shapes sc → names_components (si_tuple s) →
  facet_parts (Some (alias_decl (si_tuple s))) = Some (facet_of (si_tuple s)) ∧
  describes (shape_desc n s) (facet_of (si_tuple s)).
Proof.
  unfold derive_schema, names_components. intros Hd Hs Hnames. destruct (type_name input) as [name|]; [|done].
  destruct (named_fields group_string input) as [fields|]; [|done]. case_bool_decide; [done|].
  destruct (shape_impls fields) as [|shapes] eqn:Hi; [done|]. injection Hd as <-. simpl in Hs.
  destruct (shape_impls_spec _ _ _ Hi Hs) as ([f parts] & _ & Hf). unfold shape_impl in Hf.
  case_bool_decide as Hne; [done|]. case_bool_decide as Hw; [done|]. injection Hf as <-. simpl in *. split.
  - unfold alias_decl, facet_parts. rewrite bool_decide_true.
    + apply mapM_Some. apply Forall2_fmap. apply Forall_Forall2_diag, Forall_forall.
      intros [n0 o] Hin. simpl. rewrite (Hnames n0 o Hin). by destruct o.
    + rewrite length_fmap. unfold SHAPE_WIDTH_CAP, tuple_width in *. destruct parts; [done|]. simpl in *. lia.
  - unfold describes, required_types. by rewrite !facet_filter.
Qed.
End derived.

(** C37: a spawn accepted against a derived schema conforms.  Whatever tokens the
    schema was derived from, as long as the types of the shape's parts name
    components (the optional ones inside an option the derive recognises by its
    text, [Option<..>]; see [qualified_option_rejected] for one it does not), a
    bundle that spawns as the alias of the shape passes the run-time conformance
    check against the derived shape descriptions, and the typed handle it returns
    holds. *)
Theorem schema_spawns_conform `{RelationshipLaws} `{HashOrder} group_string input sc s type_id resolve
    X w e owner (b : list (TypeId * Value)) decl m w1 w2 :
  derive_schema group_string input = inr sc → s ∈ sc_shapes sc →
  names_components type_id resolve (si_tuple s) →
  spawns_as b.*1 decl m (Some (alias_decl resolve (si_tuple s))) →
  wf X w → rel_ok w → (∀ ty v, (ty, v) ∈ b → well_typed ty v) →
  bundle_insert_derived w e owner b = Done w1 → flush_derived_from w1 = Done w2 →
  check_shape_conformance w2 (schema_shapes type_id sc) e b.*1 = Done () ∧
  row_matches w2 (ParamEntity (facet_of type_id (si_tuple s))) e = true ∧
  ∀ l ty, declared_types decl = Some l → ty ∈ b.*1 → ty ∈ l.
Proof.
  intros Hd Hs Hnames Hspawn Hwf Hrel Htyped Hins Hflush.
  apply list_elem_of_lookup in Hs as Hi. destruct Hi as [i Hi].
  destruct (generated_shape type_id resolve _ _ _ _ (N.of_nat i) Hd Hs Hnames) as [Hf Hdesc].
  eapply strict_spawn_conforms; eauto. apply list_elem_of_lookup. exists i. unfold schema_shapes.
  by rewrite list_lookup_imap, Hi.
Qed.

(** ** Parameter bundles *)

Section bundles.
Context `{ComponentTypes} `{HashOrder}.
Variable marker : list FacetPart → TypeId.
Implicit Types (w : World) (ps fields : list SystemParam) (st : list ParamState).

(** [states] of a bundle: one state, and a panic on a field with a row set. *)
Definition bundle_states w fields : result (list (list ParamState)) :=
  states ← flat_result (λ p, rows ← sp_states w p;
    match rows with [s] => Done [s] | _ => Panic BundleRows end) fields;
  Done [states].

Definition bundle_keys st : list Entity := s ← st; sp_keys s.
Definition bundle_deps w fields st : result (list Dep) := tuple_deps (sp_deps marker w) fields st.
Definition bundle_access w fields st : list Access := concat (zip_with (sp_access marker w) fields st).
Definition bundle_always_run fields : bool := existsb sp_always_run fields.
Definition bundle_validate_local fields : option BindingError := first_some (sp_validate_local marker) fields.
Definition bundle_view_sets fields : list (list TypeId) := p ← fields; sp_view_sets marker p.
Definition bundle_declared_outputs fields : option (list TypeId) := concat_option (sp_declared_outputs <$> fields).
Definition bundle_interest fields : option (list TypeId) := concat_option (sp_interest marker <$> fields).

(** The derive generates no other method: a bundle is opaque to delta planning
    and reports no viewed, observed or written store. *)
Definition bundle_delta_shape fields : DeltaShape := OpaqueShape.
Definition bundle_view_freshness fields : list TypeId := [].
Definition bundle_tracked_store_types fields : list TypeId := [].
Definition bundle_written_types fields : list TypeId := [].

(** [into_system] of a function with parameters [ps] and a bundle. *)
Definition bundled_system ps fields : result BoxedSystem :=
  _ ← check BindingRejected (bool_decide (validate_bindings marker ps = None) && bool_decide (bundle_validate_local fields = None));
  system_new ((p ← ps; sp_view_sets marker p) ++ bundle_view_sets fields)
    (sort_dedup ((p ← ps; sp_view_freshness marker p) ++ bundle_view_freshness fields))
    (sort_dedup ((p ← ps; sp_tracked_store_types marker p) ++ bundle_tracked_store_types fields))
    (sort_dedup ((p ← ps; sp_written_types marker p) ++ bundle_written_types fields))
    (concat_option [tuple_declared_outputs ps; bundle_declared_outputs fields])
    (concat_option [tuple_interest marker ps; bundle_interest fields])
    (bool_decide (bundle_delta_shape fields = Driver)) (tuple_has_pair_bound ps).

(** Ambient parameters have one state, which holds no row. *)
Definition ambient p : bool := match p with PQuery _ _ | POuter _ _ => false | _ => true end.

(** A bundle of ambient parameters enumerates one state per invocation, names
    no row, and depends on what its fields depend on. *)
Lemma bundle_ambient w fields :
  forallb ambient fields = true →
  let st := replicate (length fields) SUnit in
  bundle_states w fields = Done [st] ∧ bundle_keys st = [] ∧
  bundle_deps w fields st =
    Done (p ← fields; match p with PTrackedView q f => store_watermark_dep w <$> tracked_view_types marker q f | _ => [] end).
Proof.
  unfold bundle_states, bundle_keys, bundle_deps. cbv zeta.
  induction fields as [|p fields IH]; [done|]. cbn [forallb]. rewrite andb_true_iff. intros [Hp Hps].
  destruct (IH Hps) as (Hst & Hk & Hd). destruct (flat_result _ fields) as [states|] eqn:Hf; [|done].
  injection Hst as ->. cbn [flat_result length replicate]. split_and!.
  - rewrite Hf. by destruct p.
  - by destruct p.
  - cbn [tuple_deps]. rewrite Hd. by destruct p.
Qed.

(** A field that drives rows stops the planner unless it has exactly one. *)
Lemma bundle_rows_panic w fields q f rows :
  PQuery q f ∈ fields → filtered_rows w q f = Done rows → length rows ≠ 1 →
  (∀ p, p ∈ fields → ∃ l, sp_states w p = Done l) → bundle_states w fields = Panic BundleRows.
Proof.
  unfold bundle_states. intros Hin Hrows Hl. induction fields as [|p fields IH]; [by apply elem_of_nil in Hin|].
  intros Hall. destruct (Hall p) as [l Hp]; [by left|]. cbn [flat_result]. rewrite Hp. cbn [mbind result_bind].
  destruct (decide (length l = 1)) as [H1|H1].
  - destruct l as [|s [|]]; try done. cbn [mbind result_bind].
    apply elem_of_cons in Hin as [<-|Hin].
    + simpl in Hp. rewrite Hrows in Hp. injection Hp as Hp. apply (f_equal length) in Hp. unfold row_states in Hp.
      rewrite length_fmap in Hp. done.
    + destruct (flat_result _ fields) as [out|] eqn:Hf; cbn [mbind result_bind]; [|].
      * exfalso. specialize (IH Hin ltac:(intros; apply Hall; by right)). done.
      * specialize (IH Hin ltac:(intros; apply Hall; by right)). simpl in IH. by injection IH as ->.
  - by destruct l as [|s [|]].
Qed.

(** *** What a bundle loses *)

(** The invocations of a system whose views are bundled are never healed. *)
Lemma bundled_view_never_healed w ps fields s systems epoch owner entry :
  (∀ p, p ∈ ps → sp_view_freshness marker p = []) → bundled_system ps fields = Done s →
  systems !! system owner = Some s → heal_victim w systems epoch owner entry = false.
Proof.
  intros Hps Hs Hsys. unfold bundled_system, system_new in Hs.
  apply bind_Done in Hs as (_ & _ & Hs). apply bind_Done in Hs as (_ & _ & [= <-]).
  unfold heal_victim. rewrite Hsys. simpl.
  assert ((p ← ps; sp_view_freshness marker p) = []) as ->.
  { clear Hsys. induction ps as [|p ps IH]; [done|]. cbn [mbind list_bind]. rewrite (Hps p) by by left. apply IH. intros p' ?. apply Hps. by right. }
  apply andb_false_r.
Qed.
End bundles.

(** A bundle hides an aggregate from the check that a system does not write
    the stores it aggregates. *)
Lemma bundled_tracked_unchecked :
  let fields := [PTrackedView (ParamRef ty_num) FNone; PCommands (Some [ty_num])] in
  into_system (λ _, 0%N) fields = Panic TrackedStoreWrite ∧ is_done (bundled_system (λ _, 0%N) [] fields) = true.
Proof. split; vm_compute; reflexivity. Qed.

(** ** Concrete crates *)

(** [#[relationship(target = Children)] struct ChildOf(Entity)] and
    [#[relationship_target(relationship = ..)] struct Children(Vec<Entity>)] *)
Definition child_tokens : list TokenTree :=
  [TPunct "#"; TGroup Bracket [TIdent "relationship"; TGroup Parenthesis [TIdent "target"; TPunct "="; TIdent "Children"]];
   TIdent "struct"; TIdent "ChildOf"; TGroup Parenthesis [TIdent "Entity"]; TPunct ";"].
Definition children_tokens (edge : string) : list TokenTree :=
  [TPunct "#"; TGroup Bracket [TIdent "relationship_target"; TGroup Parenthesis [TIdent "relationship"; TPunct "="; TIdent edge]];
   TIdent "struct"; TIdent "Children"; TGroup Parenthesis [TIdent "Vec"]; TPunct ";"].

Definition derive_option (input : list TokenTree) : option ComponentImpl :=
  match derive_component no_groups input with inr i => Some i | inl _ => None end.

Definition crate_ids (name : string) : TypeId :=
  if bool_decide (name = "ChildOf"%string) then 2%N else if bool_decide (name = "Children"%string) then 3%N else 4%N.

(** [edge] is what [Children] names as its edge. *)
Definition crate (edge : string) (ty : TypeId) : option ComponentImpl :=
  if bool_decide (ty = 2%N) then derive_option child_tokens
  else if bool_decide (ty = 3%N) then derive_option (children_tokens edge) else None.

Definition crate_types (edge : string) : ComponentTypes :=
  derived_types (crate edge) (λ _, None) crate_ids contents (λ _, 0%N) (λ _, 0%N) 100%N.

Lemma crate_generated edge : generated (crate edge) no_groups.
Proof.
  intros ty i. unfold crate, derive_option.
  repeat case_bool_decide; try done; destruct (derive_component no_groups _) eqn:Hd; try done; intros [= <-]; eauto.
Qed.

Lemma crate_paired : paired (crate "ChildOf") crate_ids.
Proof.
  split.
  - intros ty i target. unfold crate. repeat case_bool_decide; try done; subst; intros [= <-]; vm_compute; by intros [= <-].
  - intros inv ty. unfold inverse_edge, crate. repeat case_bool_decide; subst; intros Hinv; try discriminate Hinv.
    all: vm_compute in Hinv; try congruence. eexists _, "Children"%string. split_and!; reflexivity.
Qed.

Lemma derived_components_lawful_witness :
  ∃ laws : @RelationshipLaws (crate_types "ChildOf"), @edge_of _ laws 3%N = Some 2%N.
Proof.
  destruct (derived_components_lawful (crate "ChildOf") (λ _, None) crate_ids contents (λ _, 0%N) (λ _, 0%N) 100%N no_groups)
    as [laws Hedge].
  - apply crate_generated.
  - apply crate_paired.
  - reflexivity.
  - intros ty _. reflexivity.
  - exists laws. rewrite Hedge. reflexivity.
Defined.

(** *** An edge whose inverse names another edge *)

(** [Children] says its edge is some [Other], and nothing objects: the types
    are accepted one by one.  Removing a parent then removes [Other] from its
    children and leaves their [ChildOf] pointing at the removed entity. *)
Definition edge_after_removal (types : ComponentTypes) (ty : TypeId) (v : @Value types) (child parent : Entity)
    : result (option (TypeId * Entity)) :=
  w ← @insert types elements_order (@world_new types) child ty v None;
  '(w, _) ← @remove_entity types elements_order w parent;
  Done (v ← @row_value types w ty child; @value_edge types ty v).

Definition demo_child (edge : string) : @Value (crate_types edge) := @Plain (crate_types edge) (MkStruct 0 7 [] 0).

Lemma mismatched_pair_dangles :
  edge_after_removal (crate_types "Other") 2 (demo_child "Other") 5 7 = Done (Some (3, 7)%N) ∧
  edge_after_removal (crate_types "ChildOf") 2 (demo_child "ChildOf") 5 7 = Done None.
Proof. split; vm_compute; reflexivity. Qed.

(** *** A derived schema over the demo components *)

Definition thing_fields : list (string * list (TypeSyntax * bool)) :=
  [("thing", [(TyPath "Num" [], false); (TyPath "Edge" [], false); (TyPath "Marker" [], true)])]%string.
Definition thing_ids (name : string) : TypeId :=
  if bool_decide (name = "Num"%string) then ty_num else if bool_decide (name = "Edge"%string) then ty_edge else ty_marker.
Definition thing_types (name : string) : Decl := DComponent (thing_ids name).
Definition thing_schema : SchemaImpl := MkSchemaImpl "Things" "things" (printed_shape <$> thing_fields).

Lemma schema_spawns_conform_witness :
  check_shape_conformance demo_spawned (schema_shapes thing_ids thing_schema) 7 [ty_num; ty_edge] = Done () ∧
  row_matches demo_spawned (ParamEntity demo_facet) 7 = true ∧
  ∀ l ty, declared_types demo_decl = Some l → ty ∈ [ty_num; ty_edge] → ty ∈ l.
Proof.
  eapply (schema_spawns_conform no_groups (schema_tokens "Things" thing_fields) thing_schema
    (printed_shape (hd ("", []) thing_fields)) thing_ids thing_types nothing_taken demo_w0 7 demo_owner demo_spawn demo_decl _ demo_spawned demo_spawned).
  - reflexivity.
  - by left.
  - by intros name optional _.
  - exact demo_spawns_as.
  - exact demo_wf0.
  - exact demo_rel_w0.
  - exact demo_spawn_typed.
  - vm_compute. reflexivity.
  - vm_compute. reflexivity.
Defined.

(** *** An option the derive does not recognise

    [std::option::Option<Edge>] is an option to rustc and a required part to the
    derive: the spawn type-checks and the check at run time rejects it. *)
Definition qualified_fields : list (string * list (TypeSyntax * bool)) :=
  [("thing", [(TyPath "Num" [], false); (TyPath "std::option::Option<Edge>" [], false)])]%string.
Definition qualified_types (name : string) : Decl :=
  if bool_decide (name = "Num"%string) then DComponent ty_num else DOption (DComponent ty_edge).
Definition qualified_ids (name : string) : TypeId := if bool_decide (name = "Num"%string) then ty_num else 99%N.
Definition qualified_shape : ShapeImpl := printed_shape (hd ("", []) qualified_fields).
Definition qualified_schema : SchemaImpl := MkSchemaImpl "Things" "things" [qualified_shape].

Lemma qualified_option_rejected :
  (∃ m, spawns_as [ty_num; ty_edge] (DTuple [alias_decl qualified_types (si_tuple qualified_shape)]) m
     (Some (alias_decl qualified_types (si_tuple qualified_shape)))) ∧
  check_shape_conformance demo_spawned (schema_shapes qualified_ids qualified_schema) 7 [ty_num; ty_edge] = Panic ShapeMismatch.
Proof.
  split; [|vm_compute; reflexivity].
  assert (alias_decl qualified_types (si_tuple qualified_shape) = DTuple [DComponent ty_num; DOption (DComponent ty_edge)]) as ->
    by (vm_compute; reflexivity).
  exists (SpawnHere ([Here ExactMatch; There (Here (Optionally ExactMatch))], CoverParts [RequiredHere (Here ExactMatch); OptionalSkip])).
  apply spawns_here; [vm_compute; lia|]. split.
  - split; [vm_compute; lia|]. repeat constructor; vm_compute; lia.
  - constructor; [vm_compute; lia|]. repeat constructor; vm_compute; lia.
Qed.
